(* ===== verification/_CoqProject ===== *)
-Q . S2P
Prelude.v
Ids.v
Keys.v
Model.v
Proto.v
Codec.v
CodecLemmas.v
CodecProps.v
Store.v
Concrete.v
Text.v
Db.v
DbUpsert.v
DbSlotRows.v
DbProps.v
NodeMsg.v
World.v
Tables.v
Reconcile.v
Sse.v
Arbiter.v
Task.v
Patch.v
Ingest.v
Grpc.v
WorldLogic.v
HandlerFrames.v
SlotSafety.v
FirstFinal.v
PatchSafety.v
RowSafety.v
SlotReplace.v
TransferProps.v
ExecProps.v
FinalityProps.v
BlockProps.v
IngestProps.v
Scheduler.v
Registry.v
RegistryProps.v
PeerService.v
StreamProps.v
Client.v
ClientSteps.v
ClientProps.v
GrpcProps.v
Backfill.v
BackfillProps.v
PeerProps.v
ReplicaProps.v
Ddb.v
Config.v
Rest.v
RestWalk.v
RestSearch.v
Metrics.v
RestProps.v
RestWalkProps.v
LegacyDecode.v
LegacySource.v
OneShot.v
SseProps.v
Repair.v
Server.v
BootProps.v
Cli.v
CliProps.v
ReindexProps.v
IndexFamilies.v
IndexSafety.v
IndexProps.v
RepairProps.v
PullProps.v
OneShotProps.v
LegacyProps.v
Witnesses.v
IngestWitnesses.v
PeerWitnesses.v
LegacyWitnesses.v
ServiceWitnesses.v
