(* ===== verification/Prelude.v ===== *)
(** * massa-indexer: a verification development

    massa-indexer (src/massa-indexer, Rust) follows a Massa node, keeps what it
    sees in a RocksDB store and serves it. A single writer task consumes events
    from two queues: what the node streams (blocks, execution outputs, transfers),
    and what background tasks propose (answers of other indexers, of a legacy
    DynamoDB archive, of operator repairs). The peer service, the REST API and the
    background tasks read the store; beside the writer only the repairs'
    checkpoints and the status repair of a block looked up write to it.

    ** The model
    Rust's [Result] is [result]; a handler that threads a state is a computation
    of the state and error monad [ST S A := S -> result Error A * S] (Store.v).
    Unsigned integers are [Z] with their width written out where it can matter
    ([as_u32], [wrapping_add_u64], [saturating_sub], [u8_try_from]); arithmetic is
    that of a release build. Bytes are [list byte], strings stdpp's. Definitions
    are executable, loops structural or with fuel.
    Code outside the repository is a typeclass whose laws are its documented
    behaviour: [Bs58], [Base64], [HexCrate], [Prost]/[ProstStorage], [RocksDB]
    (atomic batches, ordered iteration), [DenunciationDigest], [NodeEncode],
    [LegacyProst], [SerdeJson], [BroadcastChannel] (the receiving end of tokio's
    broadcast channel), [UrlBase64], [Writers] (CSV and JSON text), and
    oracles of the outside world, [Network] (other indexers), [AwsOutside] (HTTP,
    JSON, hashes, clock), [NodeRpc] (the node) and the records [Outside] (what
    start-up meets) and [Host] (what a process meets), which give what the n-th interaction returns. Concrete.v and
    the Witnesses files instantiate them.
    A REST handler that may write is [Api S A := S -> result Failure A * S], where
    a [Failure] is a rejection with its status or a panic; the others return a
    [result Failure].

    ** The parts and their files
    - Shared: Prelude (notations, integers, lists, results), Text (UTF-8; splitting,
      trimming and parsing strings; numbers in decimal).
    - Rows and keys: Ids (ids.rs), Keys (keys.rs), Model (model.rs), Proto
      (storage.proto, peer.proto), Codec (codec.rs); CodecLemmas and CodecProps
      prove the round trips.
    - Store: Store (db.rs: column families, pages, the paged scan; computations
      that always return), Db (every reader and writer of db.rs); DbUpsert and DbSlotRows prove the two index
      protocols against the interfaces [UpsertRow] and [SlotRow], DbProps the
      properties; Tables sees a column family as a map of rows.
    - Writer: NodeMsg (the node's messages), World (what the writer mutates: store
      and SSE log), Reconcile (pure conversions and the two reconciliation passes),
      Arbiter and Patch (peer/patch.rs), Ingest (ingest.rs: handlers, dispatch,
      the two-lane step). WorldLogic, HandlerFrames, SlotSafety, FirstFinal,
      PatchSafety and RowSafety prove what any handler may do; IngestProps, ExecProps,
      BlockProps, FinalityProps, TransferProps and SlotReplace state the handlers'
      effects; Scheduler interleaves producers with the writer.
    - Peers: Registry (peer/registry.rs, peer/session.rs), PeerService
      (peer/service.rs), Client (peer/client.rs), Backfill (peer/backfill.rs);
      RegistryProps, StreamProps, ClientSteps, ClientProps, BackfillProps;
      PeerProps and ReplicaProps compose the service of one indexer with the
      writer of another.
    - Archive and repairs: Ddb (legacy/ddb.rs, sigv4.rs, config.rs, mod.rs),
      LegacyDecode (legacy/decode.rs), LegacySource (legacy/source.rs, with the
      interface [LegacySource] the importer is proved against), Task (windows of
      slots; what the tasks share) and OneShot (legacy/oneshot.rs), Repair (repair.rs); LegacyProps, OneShotProps,
      RepairProps, PullProps.
    - Service: Sse (sse.rs, the streams of rest.rs), Grpc (grpc.rs: subscriptions
      and queries of the node), Rest (rest.rs: envelopes, cursors, rows, pages,
      block lists), RestWalk (walks, charts, exports), RestSearch (search, names,
      node queries, readiness), Metrics (metrics.rs and the status routes);
      SseProps, GrpcProps, RestProps, RestWalkProps.
    - Operation: Config (config.rs), Server (server.rs: what start-up checks, writes
      and starts, in order, and the shutdown), Cli (cli.rs: verify, dump, re-index,
      peers, replay; main.rs: each command with what it prints and its exit
      status); BootProps (configuration and start-up), CliProps,
      ReindexProps ([Indexed], what one phase of a rebuild promises the rebuild;
      what an operator can conclude from a command);
      IndexFamilies, IndexSafety and IndexProps carry the invariant that every
      secondary index is exact, family by family, through every handler of the
      writer and along its executions; IndexProps also says what a client
      lists from such a store.
    - Witnesses, IngestWitnesses, PeerWitnesses, LegacyWitnesses, ServiceWitnesses:
      concrete inputs at which the properties' hypotheses hold.

    ** What the theorems show
    - The writer: first-final-wins, per event and along every interleaving of
      producers and steps; operations and blocks only gain knowledge; each handler
      does what its frame says, or leaves the store alone; the two-lane loop drains
      its queues in order and stops exactly when every producer is gone.
    - The store: every row kind is encoded without loss; cursors list everything
      once; indexes stay exact under writes and clears.
    - Peers: a replica converges to what its peer serves, which is at most the first
      10,000 events of a slot; a range stream serves
      the slots it promises; a walk looks at every slot once and ships only FINAL
      answers it misses; a fetch tries each route once; configured peers are never
      suppressed; the registry stays well-formed and a session request ends once.
    - Archive and repairs: sort keys and dates are exact; the archive's decoders
      agree with the live ones; what is imported is what was answered; a completed
      import leaves nothing unsettled, and it completes once lookups stop failing
      and a head is known (it waits and retries for ever otherwise); repairs end, cover their range and never
      checkpoint ahead of their work.
    - Service: a client that reconnects in time misses no frame but those broadcast
      between its replay and its subscription, unless it is told that it lags; the node's
      subscriptions hand on all their streams deliver; a client that follows cursors
      is given every slot, and where the indexes are exact every operation of an
      address, once; pages of a
      block's lists, of merged transfers and of recent operations and blocks are what plain
      definitions of them give, on the errors too; a block's shown status is the
      one its slot settles; a chart counts what falls in its buckets among the 20,000 newest slots; node amounts
      are exact as far as the arithmetic allows.
    - Operation: each variable of the environment replaces exactly its field, and a
      configuration is accepted exactly when it then satisfies every rule;
      start-up never touches a store of another network; verification finds exactly
      the orphan rows of the index families it dereferences, all but two; re-indexing leaves exactly the index rows the stored rows
      call for, so a verification then passes; the writer keeps the indexes that way, on
      typed events, whether its handlers succeed or fail; a replay covers its range once and loses no knowledge;
      an exit status of 0 means what it should, and the commands that only look leave the rows alone.

    ** Fuel and bounds
    The walker's loop takes [sweep_fuel] (one turn per period), reconstruction one
    turn per period of its range, and raw_clear one turn per batch of keys; each is
    proved to be enough. An export is given as many turns as the transfers it may
    list. Pagination of an archive query is fuelled by the
    number of pages, which the service alone determines: more fuel never changes a
    listing that ended. The pulling pass waits for peers while it has none, so its
    fuel is enough only with a configured peer, as proved. A walk of the REST API
    is given its budget of slots and a replay its cap: each turn spends one. The
    subscription loops serve forever; their statements hold after any number of
    turns. The importer may wait and retry for ever; its result for n turns is
    [ImportRunning] only when the run is cut, stays the same for more turns
    otherwise, and n above the bounds of the theorem is enough.

    ** Aliasing and concurrency
    The store is shared, but the writer task writes its rows, one event at a time;
    the background tasks that read meanwhile take the store at their n-th look from
    a function of n, about which nothing is assumed. A REST handler is run on one
    store, its own repairs included, without writes of others in between; the hub
    of a stream response is read for the replay and again at the subscription, and
    broadcasts happen before, between and after, as steps.
    The peer pool's tasks are not interleaved with each other.

    ** Not modelled
    RocksDB and socket I/O errors, the counters the handlers advance (Metrics has
    the counters and their rendering), tracing, pauses and timers; HTTP routing,
    headers and JSON rendering; the OpenAPI document; the TOML reader and the
    command-line parser; the wait for the shutdown signal, and what the tasks do
    between start-up and it as one run; generated code; the TypeScript explorer. *)

From stdpp Require Export base gmap sets list strings pretty sorting.
From coqutil Require Export Byte RecordSetters.
From Stdlib Require Export Lia.
Export TriangleBracketNotations.
#[global] Open Scope record_set.

(** Fallible code: Rust's [Result<A, E>]. *)
Inductive result (E A : Type) : Type :=
| Ok (a : A)
| Err (e : E).
Arguments Ok {E A} a.
Arguments Err {E A} e.

#[export] Instance result_ret E : MRet (result E) := fun A a => Ok a.
#[export] Instance result_bind E : MBind (result E) :=
  fun A B f m => match m with Ok a => f a | Err e => Err e end.
#[export] Instance result_fmap E : FMap (result E) :=
  fun A B f m => match m with Ok a => Ok (f a) | Err e => Err e end.

#[export] Instance result_eq_dec E A `{EqDecision E, EqDecision A} :
  EqDecision (result E A).
Proof. solve_decision. Defined.

(** [Option::ok_or_else], [Result::map_err], [Result::ok], [Option::is_some], [Result::is_ok]. *)
Definition ok_or {E A} (e : E) (o : option A) : result E A :=
  match o with Some a => Ok a | None => Err e end.
Definition map_err {E F A} (f : E -> F) (r : result E A) : result F A :=
  match r with Ok a => Ok a | Err e => Err (f e) end.
Definition ok {E A} (r : result E A) : option A :=
  match r with Ok a => Some a | Err _ => None end.
Definition is_some {A} (o : option A) : bool := match o with Some _ => true | None => false end.
Definition is_ok {E A} (r : result E A) : bool :=
  match r with Ok _ => true | Err _ => false end.

Lemma result_bind_ok {E A B} (m : result E A) (f : A -> result E B) b :
  m ≫= f = Ok b -> exists a, m = Ok a /\ f a = Ok b.
Proof. destruct m as [a|e]; [by exists a | done]. Qed.
Lemma ok_or_ok {E A} (e : E) (o : option A) a : ok_or e o = Ok a -> o = Some a.
Proof. by destruct o; intros [= ->]. Qed.
Lemma map_err_ok {E F A} (f : E -> F) (r : result E A) a : map_err f r = Ok a -> r = Ok a.
Proof. by destruct r; intros [= ->]. Qed.

(** [Iterator::collect::<Result<Vec<_>, _>>]: stops at the first error. *)
Fixpoint try_map {E A B} (f : A -> result E B) (l : list A) : result E (list B) :=
  match l with
  | [] => Ok []
  | a :: l' =>
      match f a with
      | Err e => Err e
      | Ok b => match try_map f l' with Ok bs => Ok (b :: bs) | Err e => Err e end
      end
  end.

Lemma try_map_ok {E A B} (f : A -> result E B) (g : A -> B) l :
  (forall a, a ∈ l -> f a = Ok (g a)) -> try_map f l = Ok (g <$> l).
Proof.
  induction l as [|a l IH]; intros H; [done|]; simpl.
  rewrite H by set_solver. by rewrite IH by set_solver.
Qed.

Lemma try_map_id {E A B} (f : A -> result E B) (g : B -> A) l :
  (forall b, b ∈ l -> f (g b) = Ok b) -> try_map f (g <$> l) = Ok l.
Proof.
  induction l as [|a l IH]; intros H; [done|].
  rewrite fmap_cons; cbn [try_map].
  rewrite H by set_solver. by rewrite IH by set_solver.
Qed.

Lemma try_map_length {E A B} (f : A -> result E B) l l' :
  try_map f l = Ok l' -> length l' = length l.
Proof.
  revert l'; induction l as [|a l IH]; intros l' H; simpl in H; [by simplify_eq|].
  destruct (f a); [|done]. destruct (try_map f l); [|done].
  simplify_eq/=. by rewrite (IH _ eq_refl).
Qed.

(** ** Machine integers

    Integers are [Z]; the predicates below say which Rust type a value has. *)
Definition u8_ok (z : Z) : Prop := (0 <= z < 2 ^ 8)%Z.
Definition u32_ok (z : Z) : Prop := (0 <= z < 2 ^ 32)%Z.
Definition u64_ok (z : Z) : Prop := (0 <= z < 2 ^ 64)%Z.

#[export] Instance u8_ok_dec z : Decision (u8_ok z).
Proof. unfold u8_ok; apply _. Defined.
#[export] Instance u32_ok_dec z : Decision (u32_ok z).
Proof. unfold u32_ok; apply _. Defined.
#[export] Instance u64_ok_dec z : Decision (u64_ok z).
Proof. unfold u64_ok; apply _. Defined.

Definition u64_max : Z := (2 ^ 64 - 1)%Z.
(** [as u8] / [as u32]: truncating casts; [u8::try_from]: checked cast. *)
Definition as_u8 (z : Z) : Z := (z mod 2 ^ 8)%Z.
Definition as_u32 (z : Z) : Z := (z mod 2 ^ 32)%Z.
Definition u8_try_from (z : Z) : option Z :=
  if ((0 <=? z) && (z <=? 255))%Z then Some z else None.
(** Release-build arithmetic: [+] wraps, [saturating_sub] stops at zero. *)
Definition wrapping_add_u64 (a b : Z) : Z := ((a + b) mod 2 ^ 64)%Z.
Definition saturating_sub (a b : Z) : Z := Z.max 0 (a - b).
Definition saturating_add_u64 (a b : Z) : Z := Z.min u64_max (a + b).

Lemma u8_try_from_ok z : u8_ok z -> u8_try_from z = Some z.
Proof.
  unfold u8_ok, u8_try_from; intros H.
  destruct (Z.leb_spec 0 z), (Z.leb_spec z 255); simpl; done || lia.
Qed.

Lemma u8_try_from_Some z t : u8_try_from z = Some t -> t = z /\ u8_ok z.
Proof.
  unfold u8_ok, u8_try_from.
  destruct (Z.leb_spec 0 z), (Z.leb_spec z 255); simpl; intros; simplify_eq; lia.
Qed.

Lemma u8_try_from_None z : u8_try_from z = None <-> ~ u8_ok z.
Proof.
  unfold u8_ok, u8_try_from.
  destruct (Z.leb_spec 0 z), (Z.leb_spec z 255); simpl; split; intros; done || lia.
Qed.

Lemma as_u8_id z : u8_ok z -> as_u8 z = z.
Proof. intros H. apply Z.mod_small, H. Qed.

Lemma as_u8_range z : u8_ok (as_u8 z).
Proof. apply Z.mod_pos_bound; lia. Qed.

(** ** Bytes *)
Abbreviation bytes := (list byte).

#[export] Instance byte_eq_dec : EqDecision byte := Byte.byte_eq_dec.
#[export] Program Instance byte_countable : Countable byte :=
  inj_countable' Byte.to_N (fun n => default Byte.x00 (Byte.of_N n)) _.
Next Obligation. intros []; reflexivity. Qed.

(** [!b] on [u8]. *)
Definition bnot (b : byte) : byte := byte.of_Z (Z.lnot (byte.unsigned b)).

Lemma bnot_unsigned b : byte.unsigned (bnot b) = (255 - byte.unsigned b)%Z.
Proof. destruct b; reflexivity. Qed.

Lemma bnot_involutive b : bnot (bnot b) = b.
Proof. destruct b; reflexivity. Qed.

(** [uN::to_be_bytes] ([n] bytes) and [uN::from_be_bytes]. *)
Fixpoint to_be_bytes (n : nat) (z : Z) : bytes :=
  match n with
  | O => []
  | S n' => byte.of_Z (z / 256 ^ Z.of_nat n') :: to_be_bytes n' z
  end.

Fixpoint from_be_bytes (l : bytes) : Z :=
  match l with
  | [] => 0
  | b :: l' => byte.unsigned b * 256 ^ Z.of_nat (length l') + from_be_bytes l'
  end%Z.

Lemma to_be_bytes_length n z : length (to_be_bytes n z) = n.
Proof. induction n; simpl; congruence. Qed.

Lemma byte_unsigned_of_Z z : byte.unsigned (byte.of_Z z) = (z mod 256)%Z.
Proof. apply byte.unsigned_of_Z. Qed.

Lemma byte_range b : (0 <= byte.unsigned b < 256)%Z.
Proof. apply byte.unsigned_range. Qed.

Lemma from_be_bytes_range l : (0 <= from_be_bytes l < 256 ^ Z.of_nat (length l))%Z.
Proof.
  induction l as [|b l IH]; simpl; [lia|].
  pose proof (byte_range b).
  rewrite Nat2Z.inj_succ, Z.pow_succ_r by lia. nia.
Qed.

Lemma from_to_be_bytes n z :
  from_be_bytes (to_be_bytes n z) = (z mod 256 ^ Z.of_nat n)%Z.
Proof.
  induction n as [|n IH]; simpl; [by rewrite Z.mod_1_r|].
  rewrite to_be_bytes_length, byte_unsigned_of_Z, IH.
  rewrite Nat2Z.inj_succ, Z.pow_succ_r by lia.
  rewrite (Z.mul_comm 256), Z.rem_mul_r by lia. lia.
Qed.

Lemma from_to_be_bytes_8 z : u64_ok z -> from_be_bytes (to_be_bytes 8 z) = z.
Proof. intros H. rewrite from_to_be_bytes. apply Z.mod_small. exact H. Qed.

Lemma from_to_be_bytes_4 z : u32_ok z -> from_be_bytes (to_be_bytes 4 z) = z.
Proof. intros H. rewrite from_to_be_bytes. apply Z.mod_small. exact H. Qed.

Lemma from_be_bytes_inj l1 l2 :
  length l1 = length l2 -> from_be_bytes l1 = from_be_bytes l2 -> l1 = l2.
Proof.
  revert l2; induction l1 as [|b l1 IH]; intros [|c l2]; simpl; try done.
  intros [= Hl] H. rewrite Hl in H.
  pose proof (from_be_bytes_range l1) as R1. pose proof (from_be_bytes_range l2) as R2.
  rewrite Hl in R1.
  assert (byte.unsigned b = byte.unsigned c) as Hbc by nia.
  apply byte.unsigned_inj in Hbc as ->. f_equal. apply IH; [done | lia].
Qed.

Lemma to_from_be_bytes l : to_be_bytes (length l) (from_be_bytes l) = l.
Proof.
  apply from_be_bytes_inj; [by rewrite to_be_bytes_length|].
  rewrite from_to_be_bytes. apply Z.mod_small, from_be_bytes_range.
Qed.

(** Lexicographic byte order: [Ord] of byte slices and RocksDB's default
    comparator. *)
Fixpoint bytes_cmp (a b : bytes) : comparison :=
  match a, b with
  | [], [] => Eq
  | [], _ :: _ => Lt
  | _ :: _, [] => Gt
  | x :: a', y :: b' =>
      match Z.compare (byte.unsigned x) (byte.unsigned y) with
      | Eq => bytes_cmp a' b'
      | c => c
      end
  end.
Definition bytes_lt (a b : bytes) : Prop := bytes_cmp a b = Lt.
Definition bytes_le (a b : bytes) : Prop := bytes_cmp a b <> Gt.
#[export] Instance bytes_lt_dec a b : Decision (bytes_lt a b).
Proof. unfold bytes_lt; apply _. Defined.
#[export] Instance bytes_le_dec a b : Decision (bytes_le a b).
Proof. unfold bytes_le; apply _. Defined.

Lemma bytes_cmp_refl a : bytes_cmp a a = Eq.
Proof. induction a as [|x a IH]; simpl; [done|]. by rewrite Z.compare_refl. Qed.

Lemma bytes_cmp_eq a b : bytes_cmp a b = Eq <-> a = b.
Proof.
  split; [|intros ->; apply bytes_cmp_refl].
  revert b; induction a as [|x a IH]; intros [|y b]; simpl; try done.
  destruct (Z.compare_spec (byte.unsigned x) (byte.unsigned y)) as [E| |]; try done.
  intros H. apply byte.unsigned_inj in E as ->. f_equal; auto.
Qed.

Lemma bytes_cmp_antisym a b : bytes_cmp b a = CompOpp (bytes_cmp a b).
Proof.
  revert b; induction a as [|x a IH]; intros [|y b]; simpl; try done.
  rewrite (Z.compare_antisym (byte.unsigned x)).
  destruct (Z.compare (byte.unsigned x) (byte.unsigned y)); simpl; auto.
Qed.

Lemma bytes_lt_trans a b c : bytes_lt a b -> bytes_lt b c -> bytes_lt a c.
Proof.
  unfold bytes_lt. revert b c; induction a as [|x a IH]; intros [|y b] [|z c]; simpl; try done.
  destruct (Z.compare_spec (byte.unsigned x) (byte.unsigned y)) as [Exy|Lxy|];
  destruct (Z.compare_spec (byte.unsigned y) (byte.unsigned z)) as [Eyz|Lyz|]; try done;
  intros H1 H2;
  destruct (Z.compare_spec (byte.unsigned x) (byte.unsigned z)); try done; try lia.
  eauto.
Qed.

Lemma bytes_lt_irrefl a : ~ bytes_lt a a.
Proof. unfold bytes_lt. by rewrite bytes_cmp_refl. Qed.

Lemma bytes_le_lteq a b : bytes_le a b <-> bytes_lt a b \/ a = b.
Proof.
  unfold bytes_le, bytes_lt. rewrite <- bytes_cmp_eq.
  destruct (bytes_cmp a b); intuition done.
Qed.

Lemma bytes_le_refl a : bytes_le a a.
Proof. unfold bytes_le. by rewrite bytes_cmp_refl. Qed.

Lemma bytes_lt_le a b : bytes_lt a b -> bytes_le a b.
Proof. unfold bytes_lt, bytes_le. by intros ->. Qed.

Lemma bytes_not_le a b : ~ bytes_le a b <-> bytes_lt b a.
Proof.
  unfold bytes_le, bytes_lt. rewrite (bytes_cmp_antisym a b).
  destruct (bytes_cmp a b); simpl; intuition done.
Qed.

Lemma bytes_le_trans a b c : bytes_le a b -> bytes_le b c -> bytes_le a c.
Proof.
  rewrite !bytes_le_lteq. intros [?| ->] [?| ->]; eauto using bytes_lt_trans.
Qed.

Lemma bytes_le_lt_trans a b c : bytes_le a b -> bytes_lt b c -> bytes_lt a c.
Proof. rewrite bytes_le_lteq. intros [?| ->]; eauto using bytes_lt_trans. Qed.

Lemma bytes_lt_le_trans a b c : bytes_lt a b -> bytes_le b c -> bytes_lt a c.
Proof. rewrite bytes_le_lteq. intros H [?| <-]; eauto using bytes_lt_trans. Qed.

Lemma bytes_lt_trichotomy a b : bytes_lt a b \/ a = b \/ bytes_lt b a.
Proof.
  unfold bytes_lt. rewrite (bytes_cmp_antisym a b), <- bytes_cmp_eq.
  destruct (bytes_cmp a b); simpl; auto.
Qed.

#[export] Instance bytes_le_total : Total bytes_le.
Proof.
  intros a b. destruct (bytes_lt_trichotomy a b) as [H|[->|H]];
    eauto using bytes_lt_le, bytes_le_refl.
Qed.
#[export] Instance bytes_lt_strict : StrictOrder bytes_lt.
Proof. split; [exact bytes_lt_irrefl | exact bytes_lt_trans]. Qed.
#[export] Instance bytes_le_transitive : Transitive bytes_le.
Proof. exact bytes_le_trans. Qed.
#[export] Instance bytes_le_antisymm : AntiSymm (=) bytes_le.
Proof.
  intros a b. rewrite !bytes_le_lteq. intros [H|H] [H'|H']; try done.
  by destruct (bytes_lt_irrefl a); eapply bytes_lt_trans.
Qed.

(** Comparing concatenations of equal-length prefixes. *)
Lemma bytes_cmp_app a a' b b' :
  length a = length a' ->
  bytes_cmp (a ++ b) (a' ++ b') =
  match bytes_cmp a a' with Eq => bytes_cmp b b' | c => c end.
Proof.
  revert a'; induction a as [|x a IH]; intros [|y a']; simpl; try done.
  intros [= H]. rewrite IH by done.
  by destruct (Z.compare (byte.unsigned x) (byte.unsigned y)).
Qed.

(** Big-endian encodings sort like the numbers they encode. *)
Lemma bytes_cmp_from_be a b :
  length a = length b -> bytes_cmp a b = Z.compare (from_be_bytes a) (from_be_bytes b).
Proof.
  revert b; induction a as [|x a IH]; intros [|y b]; simpl; try done.
  intros [= H]. rewrite IH, H by done.
  pose proof (from_be_bytes_range a) as Ra. pose proof (from_be_bytes_range b) as Rb.
  rewrite H in Ra.
  destruct (Z.compare_spec (byte.unsigned x) (byte.unsigned y)) as [E|E|E].
  - rewrite E.
    destruct (Z.compare_spec (from_be_bytes a) (from_be_bytes b)); symmetry;
      rewrite ?Z.compare_eq_iff, ?Z.compare_lt_iff, ?Z.compare_gt_iff; lia.
  - symmetry. apply Z.compare_lt_iff. nia.
  - symmetry. apply Z.compare_gt_iff. nia.
Qed.

Lemma bytes_cmp_bnot a b :
  length a = length b -> bytes_cmp (bnot <$> a) (bnot <$> b) = bytes_cmp b a.
Proof.
  revert b; induction a as [|x a IH]; intros [|y b]; simpl; try done.
  intros [= H]. rewrite !bnot_unsigned, IH by done.
  destruct (Z.compare_spec (byte.unsigned y) (byte.unsigned x)) as [E|E|E];
  destruct (Z.compare_spec (255 - byte.unsigned x) (255 - byte.unsigned y)); done || lia.
Qed.

(** [slice.starts_with(prefix)]. *)
Definition starts_with (k p : bytes) : bool := bool_decide (p `prefix_of` k).

Lemma starts_with_app p q : starts_with (p ++ q) p = true.
Proof. apply bool_decide_eq_true. by exists q. Qed.

Lemma starts_with_spec k p : starts_with k p = true <-> exists q, k = p ++ q.
Proof. unfold starts_with. rewrite bool_decide_eq_true. done. Qed.

Lemma starts_with_app_same_length a p q :
  length a = length p -> starts_with (a ++ q) p = bool_decide (a = p).
Proof.
  intros Hl. apply eq_iff_eq_true. rewrite starts_with_spec, bool_decide_eq_true.
  split; [|intros ->; eauto]. intros [r Hr].
  by apply app_inj_1 in Hr as [-> _].
Qed.

Lemma prefix_le p k : starts_with k p = true -> bytes_le p k.
Proof.
  rewrite starts_with_spec. intros [q ->]. unfold bytes_le.
  induction p as [|x p IH]; simpl; [by destruct q|]. by rewrite Z.compare_refl.
Qed.

(** Rust strings are their UTF-8 bytes. *)
Definition as_bytes (s : string) : bytes := String.list_byte_of_string s.
Definition of_bytes (b : bytes) : string := String.string_of_list_byte b.

Lemma of_as_bytes s : of_bytes (as_bytes s) = s.
Proof. apply String.string_of_list_byte_of_string. Qed.
Lemma as_of_bytes b : as_bytes (of_bytes b) = b.
Proof. apply String.list_byte_of_string_of_list_byte. Qed.
#[export] Instance as_bytes_inj : Inj (=) (=) as_bytes.
Proof. intros s t H. by rewrite <- (of_as_bytes s), H, of_as_bytes. Qed.

(** [str::is_empty]. *)
Definition str_is_empty (s : string) : bool := bool_decide (s = "").

(** Hint database and the tactics of the development. *)
Create HintDb indexer.
Create Rewrite HintDb indexer.
#[export] Hint Resolve bytes_le_refl bytes_lt_le as_u8_range : indexer.
#[export] Hint Rewrite to_be_bytes_length @length_app @length_fmap : indexer.

(** Splits every [result]/[option]/[bool] scrutinee of the goal. *)
Ltac crush :=
  repeat (simplify_eq/= || case_match || case_decide || done).

(** List facts the components share. *)
Lemma omap_fmap_id {A B} (f : A -> B) (g : B -> option A) (l : list A) :
  (forall a, a ∈ l -> g (f a) = Some a) -> omap g (f <$> l) = l.
Proof.
  induction l as [|a l IH]; intros H; [done|]; simpl.
  rewrite H by set_solver. f_equal. apply IH. set_solver.
Qed.

Lemma take_app_exact {A} (l k : list A) n : length l = n -> take n (l ++ k) = l.
Proof. intros <-. apply take_app_length. Qed.
Lemma drop_app_exact {A} (l k : list A) n : length l = n -> drop n (l ++ k) = k.
Proof. intros <-. apply drop_app_length. Qed.
