(* ===== verification/Ids.v ===== *)
(** * Opaque identifier wrappers (src/massa-indexer/src/ids.rs)

    [BlockId], [OperationId] and [EndorsementId] are three structs of one shape;
    they are one record indexed by the id family, so that the type still keeps
    a block id out of an endorsement index. The bs58 crate is the class
    [Bs58]. *)

From S2P Require Import Prelude.

Definition ID_KEY_LEN : nat := 33.
Definition ADDR_KEY_LEN : nat := 34.
Definition ADDR_CATEGORY_USER : Z := 0.
Definition ADDR_CATEGORY_SC : Z := 1.

(** The crate [bs58]: [encode(b).with_check().into_string()] and
    [decode(s).with_check(None).into_vec().ok()]. Base58-check is a bijection
    between byte strings and the strings it accepts. *)
Class Bs58 := {
  bs58_encode_check : bytes -> string;
  bs58_decode_check : string -> option bytes;
  bs58_decode_encode b : bs58_decode_check (bs58_encode_check b) = Some b;
  bs58_encode_decode s b : bs58_decode_check s = Some b -> bs58_encode_check b = s;
}.

(** [IdError]; a Rust [char] is the string of its UTF-8 bytes. *)
Inductive IdError :=
| BadPrefix
| BadBase58
| BadLength (n : nat)
| BadVersion (v : Z)
| BadCategory (c : string).

Definition IdError_display (e : IdError) : string :=
  match e with
  | BadPrefix => "missing family prefix"
  | BadBase58 => "invalid base58-check payload"
  | BadLength n => "unexpected payload length (" +:+ pretty n +:+ " bytes)"
  | BadVersion v => "unsupported id version " +:+ pretty v
  | BadCategory c => "unknown address category '" +:+ c +:+ "'"
  end.

(** [Chars::next] on a valid UTF-8 string: the first character and the rest. *)
Definition utf8_char_len (lead : byte) : nat :=
  let b := byte.unsigned lead in
  if (b <? 128)%Z then 1
  else if (b <? 224)%Z then 2
  else if (b <? 240)%Z then 3 else 4.
Definition next_char (s : string) : option (string * string) :=
  match as_bytes s with
  | [] => None
  | b :: _ =>
      let n := utf8_char_len b in
      Some (of_bytes (take n (as_bytes s)), of_bytes (drop n (as_bytes s)))
  end.

Section codec.
Context `{Bs58}.

Definition decode_single_family (prefix s : string) : result IdError bytes :=
  match next_char s with
  | Some (c, payload) =>
      if bool_decide (c = prefix) then
        match bs58_decode_check payload with
        | None => Err BadBase58
        | Some raw =>
            if negb (length raw =? ID_KEY_LEN) then Err (BadLength (length raw))
            else Ok raw
        end
      else Err BadPrefix
  | None => Err BadPrefix
  end.

Definition encode_single_family (prefix : string) (b : bytes) : string :=
  prefix +:+ bs58_encode_check b.

Definition decode_address (s : string) : result IdError bytes :=
  match next_char s with
  | Some (a, rest) =>
      if bool_decide (a = "A") then
        category ← match next_char rest with
                   | Some (c, payload) =>
                       if bool_decide (c = "U") then Ok (ADDR_CATEGORY_USER, payload)
                       else if bool_decide (c = "S") then Ok (ADDR_CATEGORY_SC, payload)
                       else Err (BadCategory c)
                   | None => Err BadPrefix
                   end;
        match bs58_decode_check category.2 with
        | None => Err BadBase58
        | Some raw =>
            if negb (length raw =? 33) then Err (BadLength (length raw))
            else Ok (byte.of_Z category.1 :: raw)
        end
      else Err BadPrefix
  | None => Err BadPrefix
  end.

Definition encode_address (b : bytes) : string :=
  let category := byte.unsigned (nth 0 b Byte.x00) in
  let cat_char :=
    if (category =? ADDR_CATEGORY_USER)%Z then "U"
    else if (category =? ADDR_CATEGORY_SC)%Z then "S"
    else "U" in
  "A" +:+ cat_char +:+ bs58_encode_check (drop 1 b).
End codec.

(** ** Single-family ids *)

Inductive Family := FamBlock | FamOp | FamEndorsement.
#[export] Instance Family_eq_dec : EqDecision Family.
Proof. solve_decision. Defined.

Definition family_prefix (f : Family) : string :=
  match f with FamBlock => "B" | FamOp => "O" | FamEndorsement => "E" end.

Record Id (f : Family) := mkId { id_key : bytes; id_text : string }.
Arguments mkId {f} id_key id_text.
Arguments id_key {f} _.
Arguments id_text {f} _.

#[export] Instance Id_eq_dec f : EqDecision (Id f).
Proof. solve_decision. Defined.

(** [as_bytes] / [key_bytes] / [as_str] / [Display]. *)
Definition id_as_bytes {f} (i : Id f) : bytes := id_key i.
Definition id_to_string {f} (i : Id f) : string := id_text i.

Section ids.
Context `{Bs58}.

Definition id_parse (f : Family) (s : string) : result string (Id f) :=
  key ← map_err IdError_display (decode_single_family (family_prefix f) s);
  Ok (mkId key s).
Definition id_from_hash_bytes (f : Family) (version : Z) (hash : bytes) : Id f :=
  let key := byte.of_Z version :: hash in
  mkId key (encode_single_family (family_prefix f) key).
Definition id_from_key_bytes (f : Family) (b : bytes) : option (Id f) :=
  if negb (length b =? ID_KEY_LEN) then None
  else Some (mkId b (encode_single_family (family_prefix f) b)).
End ids.

Abbreviation BlockId := (Id FamBlock).
Abbreviation OperationId := (Id FamOp).
Abbreviation EndorsementId := (Id FamEndorsement).

Definition BlockId_parse `{Bs58} : string -> result string BlockId := id_parse FamBlock.
Definition BlockId_from_hash_bytes `{Bs58} : Z -> bytes -> BlockId :=
  id_from_hash_bytes FamBlock.
Definition BlockId_from_key_bytes `{Bs58} : bytes -> option BlockId :=
  id_from_key_bytes FamBlock.
Definition OperationId_parse `{Bs58} : string -> result string OperationId := id_parse FamOp.
Definition OperationId_from_hash_bytes `{Bs58} : Z -> bytes -> OperationId :=
  id_from_hash_bytes FamOp.
Definition OperationId_from_key_bytes `{Bs58} : bytes -> option OperationId :=
  id_from_key_bytes FamOp.
Definition EndorsementId_parse `{Bs58} : string -> result string EndorsementId :=
  id_parse FamEndorsement.
Definition EndorsementId_from_hash_bytes `{Bs58} : Z -> bytes -> EndorsementId :=
  id_from_hash_bytes FamEndorsement.
Definition EndorsementId_from_key_bytes `{Bs58} : bytes -> option EndorsementId :=
  id_from_key_bytes FamEndorsement.

(** ** Addresses *)

Record Address := mkAddress { addr_key : bytes; addr_text : string }.
#[export] Instance Address_eq_dec : EqDecision Address.
Proof. solve_decision. Defined.

Definition addr_as_bytes (a : Address) : bytes := addr_key a.
Definition addr_to_string (a : Address) : string := addr_text a.

Section address.
Context `{Bs58}.

Definition Address_parse (s : string) : result string Address :=
  key ← map_err IdError_display (decode_address s);
  Ok (mkAddress key s).
Definition Address_from_key_bytes (b : bytes) : option Address :=
  if negb (length b =? ADDR_KEY_LEN) then None
  else Some (mkAddress b (encode_address b)).
Definition Address_is_user (a : Address) : bool :=
  (byte.unsigned (nth 0 (addr_key a) Byte.x00) =? ADDR_CATEGORY_USER)%Z.
Definition Address_is_sc (a : Address) : bool :=
  (byte.unsigned (nth 0 (addr_key a) Byte.x00) =? ADDR_CATEGORY_SC)%Z.
Definition Address_user_from_hash_bytes (version : Z) (hash : bytes) : Address :=
  let key := byte.of_Z ADDR_CATEGORY_USER :: byte.of_Z version :: hash in
  mkAddress key (encode_address key).
Definition Address_sc_from_hash_bytes (version : Z) (hash : bytes) : Address :=
  let key := byte.of_Z ADDR_CATEGORY_SC :: byte.of_Z version :: hash in
  mkAddress key (encode_address key).
End address.

(** ** Well-formed ids: what every constructor of ids.rs builds *)

Section wf.
Context `{Bs58}.

Definition Id_wf {f} (i : Id f) : Prop :=
  length (id_key i) = ID_KEY_LEN /\
  id_text i = encode_single_family (family_prefix f) (id_key i).

Definition Address_wf (a : Address) : Prop :=
  length (addr_key a) = ADDR_KEY_LEN /\
  (Address_is_user a || Address_is_sc a) /\
  addr_text a = encode_address (addr_key a).

(** What the stored form of an address keeps: any category byte. *)
Definition Address_enc (a : Address) : Prop :=
  length (addr_key a) = ADDR_KEY_LEN /\ addr_text a = encode_address (addr_key a).
Lemma Address_wf_enc a : Address_wf a -> Address_enc a.
Proof. by intros (? & _ & ?). Qed.

#[export] Instance Id_wf_dec {f} (i : Id f) : Decision (Id_wf i).
Proof. unfold Id_wf. apply _. Defined.
#[export] Instance Address_wf_dec (a : Address) : Decision (Address_wf a).
Proof. unfold Address_wf. apply _. Defined.
End wf.

(** ** Lemmas *)

Lemma next_char_ascii (c : byte) (s : bytes) :
  (byte.unsigned c < 128)%Z ->
  next_char (of_bytes (c :: s)) = Some (of_bytes [c], of_bytes s).
Proof.
  intros Hc. unfold next_char. rewrite as_of_bytes. unfold utf8_char_len.
  destruct (Z.ltb_spec (byte.unsigned c) 128); [done|lia].
Qed.

Lemma app_of_bytes a b : of_bytes a +:+ of_bytes b = of_bytes (a ++ b).
Proof.
  unfold of_bytes. induction a as [|x a IH]; [done|].
  exact (f_equal (String.String (Ascii.ascii_of_byte x)) IH).
Qed.

Lemma next_char_app (c : string) s :
  c = "B" \/ c = "O" \/ c = "E" \/ c = "A" \/ c = "U" \/ c = "S" ->
  next_char (c +:+ s) = Some (c, s).
Proof.
  rewrite <- (of_as_bytes s). generalize (as_bytes s) as l. intros l Hc.
  rewrite <- (of_as_bytes c), app_of_bytes.
  repeat destruct Hc as [-> |Hc]; subst; simpl; rewrite next_char_ascii; done || lia.
Qed.

Lemma next_char_join s c p : next_char s = Some (c, p) -> s = c +:+ p.
Proof.
  unfold next_char. destruct (as_bytes s) eqn:E; [done|].
  intros [= <- <-]. rewrite app_of_bytes, take_drop, <- E. by rewrite of_as_bytes.
Qed.

Lemma family_prefix_cases f :
  family_prefix f = "B" \/ family_prefix f = "O" \/ family_prefix f = "E" \/
  family_prefix f = "A" \/ family_prefix f = "U" \/ family_prefix f = "S".
Proof. destruct f; auto. Qed.

Section lemmas.
Context `{Bs58}.

Lemma decode_encode_single_family f k :
  length k = ID_KEY_LEN ->
  decode_single_family (family_prefix f) (encode_single_family (family_prefix f) k) = Ok k.
Proof.
  intros Hk. unfold decode_single_family, encode_single_family.
  rewrite next_char_app by apply family_prefix_cases.
  rewrite bool_decide_eq_true_2 by done.
  by rewrite bs58_decode_encode, Hk.
Qed.

Lemma decode_single_family_inv p s k :
  decode_single_family p s = Ok k ->
  length k = ID_KEY_LEN /\ s = encode_single_family p k.
Proof.
  unfold decode_single_family, encode_single_family.
  destruct (next_char s) as [[c pl]|] eqn:E; [|done].
  apply next_char_join in E as ->.
  case_bool_decide as Hc; [subst c|done].
  destruct (bs58_decode_check pl) as [raw|] eqn:D; [|done].
  destruct (Nat.eqb_spec (length raw) ID_KEY_LEN); [|done].
  simpl. intros [= <-]. by rewrite (bs58_encode_decode _ _ D).
Qed.

Lemma id_parse_wf f s i : id_parse f s = Ok i -> Id_wf i /\ id_text i = s.
Proof.
  unfold id_parse. destruct (decode_single_family _ s) as [k|] eqn:D; [|done].
  cbn. intros [= <-]. apply decode_single_family_inv in D as [Hl Hs]. done.
Qed.

Lemma id_parse_of_wf f (i : Id f) : Id_wf i -> id_parse f (id_text i) = Ok i.
Proof.
  intros [Hl Ht]. unfold id_parse. rewrite Ht.
  rewrite decode_encode_single_family by done. cbn. destruct i; simpl in *. by subst.
Qed.

Lemma id_from_key_bytes_wf f k i :
  id_from_key_bytes f k = Some i -> Id_wf i /\ id_key i = k.
Proof.
  unfold id_from_key_bytes.
  destruct (Nat.eqb_spec (length k) ID_KEY_LEN); [|done]. simpl. by intros [= <-].
Qed.

Lemma id_from_key_bytes_of_wf f (i : Id f) :
  Id_wf i -> id_from_key_bytes f (id_key i) = Some i.
Proof.
  intros [Hl Ht]. unfold id_from_key_bytes. rewrite Hl. simpl.
  destruct i; simpl in *. by subst.
Qed.

Lemma id_from_hash_bytes_wf f v h :
  length h = 32 -> Id_wf (id_from_hash_bytes f v h).
Proof. intros Hh. split; simpl; [by rewrite Hh|done]. Qed.

(** Well-formed ids are equal as soon as their keys are. *)
Lemma Id_wf_inj {f} (i j : Id f) : Id_wf i -> Id_wf j -> id_key i = id_key j -> i = j.
Proof.
  intros [_ Hi] [_ Hj] E. destruct i, j; simpl in *. congruence.
Qed.

Lemma category_of_key b (raw : bytes) :
  (b = ADDR_CATEGORY_USER \/ b = ADDR_CATEGORY_SC) ->
  encode_address (byte.of_Z b :: raw) =
  "A" +:+ (if (b =? ADDR_CATEGORY_USER)%Z then "U" else "S") +:+ bs58_encode_check raw.
Proof. intros [-> | ->]; reflexivity. Qed.

Lemma decode_address_inv s k :
  decode_address s = Ok k ->
  length k = ADDR_KEY_LEN /\ s = encode_address k /\
  exists c raw, k = byte.of_Z c :: raw /\ (c = ADDR_CATEGORY_USER \/ c = ADDR_CATEGORY_SC).
Proof.
  unfold decode_address.
  destruct (next_char s) as [[a r]|] eqn:E; [|done]. apply next_char_join in E as ->.
  case_bool_decide as Ha; [subst a|done].
  destruct (next_char r) as [[c pl]|] eqn:E; [|done]. apply next_char_join in E as ->.
  assert (forall z cs, c = cs -> (z = ADDR_CATEGORY_USER /\ cs = "U" \/ z = ADDR_CATEGORY_SC /\ cs = "S") ->
    match bs58_decode_check pl with
    | Some raw => if negb (length raw =? 33) then Err (BadLength (length raw))
                  else Ok (byte.of_Z z :: raw)
    | None => Err BadBase58
    end = Ok k ->
    length k = ADDR_KEY_LEN /\ "A" +:+ c +:+ pl = encode_address k /\
    exists c0 raw, k = byte.of_Z c0 :: raw /\ (c0 = ADDR_CATEGORY_USER \/ c0 = ADDR_CATEGORY_SC))
    as Hgen.
  { intros z cs -> Hz. destruct (bs58_decode_check pl) as [raw|] eqn:D; [|done].
    destruct (Nat.eqb_spec (length raw) 33) as [Hl|]; [|done].
    simpl. intros [= <-]. apply bs58_encode_decode in D as <-.
    split; [simpl; by rewrite Hl|]. split.
    - destruct Hz as [[? ?]|[? ?]]; subst; reflexivity.
    - exists z, raw. split; [done|]. destruct Hz as [[? _]|[? _]]; auto. }
  case_bool_decide as HU; [|case_bool_decide as HS]; cbn; intros Hk; [..|done];
    eapply Hgen in Hk; eauto.
Qed.

Lemma address_key_category (k : bytes) :
  length k = ADDR_KEY_LEN ->
  Address_is_user (mkAddress k "") || Address_is_sc (mkAddress k "") ->
  exists c raw, k = byte.of_Z c :: raw /\ length raw = 33 /\
    (c = ADDR_CATEGORY_USER \/ c = ADDR_CATEGORY_SC).
Proof.
  destruct k as [|b raw]; [done|]. intros [= Hl].
  unfold Address_is_user, Address_is_sc; simpl.
  rewrite orb_True, !Is_true_true, !Z.eqb_eq. intros Hc.
  exists (byte.unsigned b), raw. by rewrite byte.of_Z_unsigned.
Qed.

Lemma decode_encode_address k :
  length k = ADDR_KEY_LEN ->
  Address_is_user (mkAddress k "") || Address_is_sc (mkAddress k "") ->
  decode_address (encode_address k) = Ok k.
Proof.
  intros Hl Hc. destruct (address_key_category k Hl Hc) as (c & raw & -> & Hr & Hcat).
  rewrite category_of_key by done. unfold decode_address.
  rewrite next_char_app by auto. rewrite bool_decide_eq_true_2 by done.
  rewrite (next_char_app (if (c =? ADDR_CATEGORY_USER)%Z then "U" else "S"))
    by (destruct Hcat; subst; simpl; auto 10).
  destruct Hcat as [-> | ->];
    [|rewrite bool_decide_eq_false_2 by done]; rewrite bool_decide_eq_true_2 by done;
    cbn; by rewrite bs58_decode_encode, Hr.
Qed.

Lemma Address_parse_wf s a : Address_parse s = Ok a -> Address_wf a /\ addr_text a = s.
Proof.
  unfold Address_parse. destruct (decode_address s) as [k|] eqn:D; [|done].
  cbn. intros [= <-]. apply decode_address_inv in D as (Hl & Hs & c & raw & -> & Hc).
  split; [|done]. split; [done|]. split; [|done].
  destruct Hc as [-> | ->]; done.
Qed.

Lemma Address_parse_of_wf a : Address_wf a -> Address_parse (addr_text a) = Ok a.
Proof.
  intros (Hl & Hc & Ht). unfold Address_parse. rewrite Ht.
  rewrite decode_encode_address by done. cbn. destruct a; simpl in *. by subst.
Qed.

Lemma Address_from_key_bytes_of_wf a :
  Address_enc a -> Address_from_key_bytes (addr_key a) = Some a.
Proof.
  intros (Hl & Ht). unfold Address_from_key_bytes. rewrite Hl. simpl.
  destruct a; simpl in *. by subst.
Qed.

Lemma Address_from_key_bytes_enc k a : Address_from_key_bytes k = Some a -> Address_enc a.
Proof.
  unfold Address_from_key_bytes. destruct (Nat.eqb_spec (length k) ADDR_KEY_LEN); [|done].
  by intros [= <-].
Qed.
End lemmas.

#[export] Hint Resolve id_from_key_bytes_of_wf Address_from_key_bytes_of_wf
  id_parse_of_wf Address_parse_of_wf id_from_hash_bytes_wf : indexer.
