(* ===== verification/Keys.v ===== *)
(** * RocksDB key assembly (src/massa-indexer/src/keys.rs)

    Every builder and parser of keys.rs, as functions on byte lists. The
    [debug_assert!]s of the builders are compiled out of the release build and
    are not modelled; the theorems take the lengths they check as hypotheses. *)

From S2P Require Import Prelude Ids.

Definition SLOT_KEY_LEN : nat := 9.
Definition DENUNCIATION_HASH_LEN : nat := 32.
Definition INDEX_IN_SLOT_LEN : nat := 4.

(** ** Slot keys *)

Definition slot_key (period thread : Z) : bytes :=
  to_be_bytes 8 period ++ [byte.of_Z thread].

Definition decode_slot_key (b : bytes) : option (Z * Z) :=
  if negb (length b =? SLOT_KEY_LEN) then None
  else Some (from_be_bytes (take 8 b), byte.unsigned (nth 8 b Byte.x00)).

Definition rslot_key (period thread : Z) : bytes :=
  bnot <$> slot_key period thread.

Definition decode_rslot_key (b : bytes) : option (Z * Z) :=
  if negb (length b =? SLOT_KEY_LEN) then None
  else
    let buf := bnot <$> b in
    Some (from_be_bytes (take 8 buf), byte.unsigned (nth 8 buf Byte.x00)).

(** ** Per-slot primary keys *)

Definition SLOT_INDEXED_KEY_LEN : nat := SLOT_KEY_LEN + INDEX_IN_SLOT_LEN.

Definition sc_event_key (period thread index_in_slot : Z) : bytes :=
  slot_key period thread ++ to_be_bytes 4 index_in_slot.

Definition transfer_key (period thread index_in_slot : Z) : bytes :=
  sc_event_key period thread index_in_slot.

Definition decode_slot_indexed_key (b : bytes) : option (Z * Z * Z) :=
  if negb (length b =? SLOT_INDEXED_KEY_LEN) then None
  else
    '(p, t) ← decode_slot_key (take SLOT_KEY_LEN b);
    Some (p, t, from_be_bytes (drop SLOT_KEY_LEN b)).

(** ** Address-indexed composite keys: [addr(34) ‖ rslot(9) ‖ id(33)] *)

Definition IDX_ADDR_SLOT_ID_LEN : nat := ADDR_KEY_LEN + SLOT_KEY_LEN + ID_KEY_LEN.

Definition idx_addr_slot_id (addr : bytes) (period thread : Z) (id : bytes) : bytes :=
  addr ++ rslot_key period thread ++ id.

Definition idx_block_by_creator (creator : bytes) (period thread : Z) (block_id : bytes) : bytes :=
  idx_addr_slot_id creator period thread block_id.
Definition idx_op_by_creator (creator : bytes) (period thread : Z) (op_id : bytes) : bytes :=
  idx_addr_slot_id creator period thread op_id.
Definition idx_op_by_target (target : bytes) (period thread : Z) (op_id : bytes) : bytes :=
  idx_addr_slot_id target period thread op_id.
Definition idx_endorsement_by_creator (creator : bytes) (period thread : Z)
    (endorsement_id : bytes) : bytes :=
  idx_addr_slot_id creator period thread endorsement_id.

Definition idx_block_by_creator_prefix (addr : bytes) : bytes := addr.
Definition idx_op_by_creator_prefix (addr : bytes) : bytes := addr.
Definition idx_op_by_target_prefix (addr : bytes) : bytes := addr.
Definition idx_endorsement_by_creator_prefix (addr : bytes) : bytes := addr.

Definition parse_idx_addr_slot_id (key : bytes) : option (Z * Z * bytes) :=
  if negb (length key =? IDX_ADDR_SLOT_ID_LEN) then None
  else
    '(p, t) ← decode_rslot_key (take SLOT_KEY_LEN (drop ADDR_KEY_LEN key));
    Some (p, t, drop (ADDR_KEY_LEN + SLOT_KEY_LEN) key).

Definition parse_idx_block_by_creator (key : bytes) : option (Z * Z * bytes) :=
  parse_idx_addr_slot_id key.
Definition parse_idx_op_by (key : bytes) : option (Z * Z * bytes) :=
  parse_idx_addr_slot_id key.

(** ** Transfer indexes *)

Definition TRANSFER_TAG_FROM : Z := 1.
Definition TRANSFER_TAG_TO : Z := 2.

Definition IDX_TRANSFER_BY_ADDR_LEN : nat :=
  ADDR_KEY_LEN + SLOT_KEY_LEN + INDEX_IN_SLOT_LEN + 1.

Definition idx_transfer_by_addr (addr : bytes) (period thread index_in_slot tag : Z) : bytes :=
  addr ++ rslot_key period thread ++ to_be_bytes 4 index_in_slot ++ [byte.of_Z tag].

Definition idx_transfer_by_addr_prefix (addr : bytes) : bytes := addr.

Definition parse_idx_transfer_by_addr (key : bytes) : option (Z * Z * Z * Z) :=
  if negb (length key =? IDX_TRANSFER_BY_ADDR_LEN) then None
  else
    '(p, t) ← decode_rslot_key (take SLOT_KEY_LEN (drop ADDR_KEY_LEN key));
    let idx := take INDEX_IN_SLOT_LEN (drop (ADDR_KEY_LEN + SLOT_KEY_LEN) key) in
    Some (p, t, from_be_bytes idx,
          byte.unsigned (nth (IDX_TRANSFER_BY_ADDR_LEN - 1) key Byte.x00)).

Definition IDX_ID_SLOT_INDEX_LEN : nat := ID_KEY_LEN + SLOT_KEY_LEN + INDEX_IN_SLOT_LEN.

Definition idx_id_slot_index (id : bytes) (period thread index : Z) : bytes :=
  id ++ rslot_key period thread ++ to_be_bytes 4 index.

Definition idx_transfer_by_op (op_id : bytes) (period thread index_in_slot : Z) : bytes :=
  idx_id_slot_index op_id period thread index_in_slot.
Definition idx_transfer_by_block (block_id : bytes) (period thread index_in_slot : Z) : bytes :=
  idx_id_slot_index block_id period thread index_in_slot.
Definition idx_transfer_by_op_prefix (op_id : bytes) : bytes := op_id.
Definition idx_transfer_by_block_prefix (block_id : bytes) : bytes := block_id.

Definition parse_idx_id_slot_index (key : bytes) : option (Z * Z * Z) :=
  if negb (length key =? IDX_ID_SLOT_INDEX_LEN) then None
  else
    '(p, t) ← decode_rslot_key (take SLOT_KEY_LEN (drop ID_KEY_LEN key));
    Some (p, t, from_be_bytes (drop (ID_KEY_LEN + SLOT_KEY_LEN) key)).

Definition parse_idx_transfer_by_op (key : bytes) : option (Z * Z * Z) :=
  parse_idx_id_slot_index key.
Definition parse_idx_transfer_by_block (key : bytes) : option (Z * Z * Z) :=
  parse_idx_id_slot_index key.

(** ** SC event indexes *)

Definition IDX_EVENT_BY_ADDR_LEN : nat := ADDR_KEY_LEN + SLOT_KEY_LEN + INDEX_IN_SLOT_LEN.

Definition idx_event_by_addr (addr : bytes) (period thread index : Z) : bytes :=
  addr ++ rslot_key period thread ++ to_be_bytes 4 index.
Definition idx_event_by_op (op_id : bytes) (period thread index : Z) : bytes :=
  idx_id_slot_index op_id period thread index.
Definition idx_event_by_addr_prefix (addr : bytes) : bytes := addr.
Definition idx_event_by_op_prefix (op_id : bytes) : bytes := op_id.

Definition parse_idx_event (key : bytes) : option (Z * Z * Z) :=
  if length key <? SLOT_KEY_LEN + INDEX_IN_SLOT_LEN then None
  else
    let rslot :=
      take SLOT_KEY_LEN (drop (length key - SLOT_KEY_LEN - INDEX_IN_SLOT_LEN) key) in
    '(p, t) ← decode_rslot_key rslot;
    Some (p, t, from_be_bytes (drop (length key - INDEX_IN_SLOT_LEN) key)).

(** ** Denunciation indexes *)

Definition IDX_DENUNCIATION_BY_ADDR_LEN : nat :=
  ADDR_KEY_LEN + SLOT_KEY_LEN + DENUNCIATION_HASH_LEN.

Definition idx_denunciation_by_addr (addr : bytes) (period thread : Z) (hash : bytes) : bytes :=
  addr ++ rslot_key period thread ++ hash.
Definition idx_denunciation_by_addr_prefix (addr : bytes) : bytes := addr.

Definition parse_idx_denunciation_by_addr (key : bytes) : option (Z * Z * bytes) :=
  if negb (length key =? IDX_DENUNCIATION_BY_ADDR_LEN) then None
  else
    '(p, t) ← decode_rslot_key (take SLOT_KEY_LEN (drop ADDR_KEY_LEN key));
    Some (p, t, drop (ADDR_KEY_LEN + SLOT_KEY_LEN) key).

Definition IDX_DENUNCIATION_RECENT_LEN : nat := SLOT_KEY_LEN + DENUNCIATION_HASH_LEN.

Definition idx_denunciation_recent (period thread : Z) (hash : bytes) : bytes :=
  rslot_key period thread ++ hash.

Definition parse_idx_denunciation_recent (key : bytes) : option (Z * Z * bytes) :=
  if negb (length key =? IDX_DENUNCIATION_RECENT_LEN) then None
  else
    '(p, t) ← decode_rslot_key (take SLOT_KEY_LEN key);
    Some (p, t, drop SLOT_KEY_LEN key).

(** ** Async-pool / deferred-call indexes (variable-length ids come last) *)

Definition idx_async_by_addr (addr msg_id : bytes) : bytes :=
  addr ++ [Byte.x00] ++ msg_id.
Definition idx_async_by_addr_prefix (addr : bytes) : bytes := addr.

Definition idx_by_rslot_id (period thread : Z) (id_bytes : bytes) : bytes :=
  rslot_key period thread ++ id_bytes.
Definition idx_by_rslot_prefix (period thread : Z) : bytes := rslot_key period thread.

Definition parse_idx_by_rslot_id (key : bytes) : option (Z * Z * bytes) :=
  if length key <? SLOT_KEY_LEN then None
  else
    '(p, t) ← decode_rslot_key (take SLOT_KEY_LEN key);
    Some (p, t, drop SLOT_KEY_LEN key).

(** ** Lemmas *)

Lemma slot_key_length p t : length (slot_key p t) = 9.
Proof. reflexivity. Qed.
Lemma rslot_key_length p t : length (rslot_key p t) = 9.
Proof. reflexivity. Qed.
Lemma sc_event_key_length p t i : length (sc_event_key p t i) = 13.
Proof. reflexivity. Qed.

#[export] Hint Rewrite slot_key_length rslot_key_length sc_event_key_length : indexer.

Lemma decode_slot_key_bytes (hd : bytes) (b : byte) :
  length hd = 8 -> decode_slot_key (hd ++ [b]) = Some (from_be_bytes hd, byte.unsigned b).
Proof.
  intros H. unfold decode_slot_key.
  rewrite length_app, H, take_app_exact by done. simpl.
  by rewrite app_nth2, H by lia.
Qed.

Lemma byte_unsigned_of_u8 t : u8_ok t -> byte.unsigned (byte.of_Z t) = t.
Proof. intros H. rewrite byte_unsigned_of_Z. by apply Z.mod_small. Qed.

Lemma decode_slot_key_slot_key p t :
  u64_ok p -> u8_ok t -> decode_slot_key (slot_key p t) = Some (p, t).
Proof.
  intros Hp Ht. unfold slot_key. rewrite decode_slot_key_bytes by done.
  by rewrite from_to_be_bytes_8, byte_unsigned_of_u8.
Qed.

(** The length-9 byte strings are exactly the slot keys. *)
Lemma bytes_9_split (b : bytes) :
  length b = 9 -> exists hd x, b = hd ++ [x] /\ length hd = 8.
Proof.
  intros H. destruct b as [|x b] using rev_ind; [done|].
  exists b, x. rewrite length_app in H. simpl in H. split; [done|lia].
Qed.

Lemma decode_slot_key_inv b p t :
  decode_slot_key b = Some (p, t) -> b = slot_key p t /\ u64_ok p /\ u8_ok t.
Proof.
  unfold decode_slot_key at 1.
  destruct (Nat.eqb_spec (length b) SLOT_KEY_LEN) as [E|]; [|done]. simpl negb. cbv iota.
  destruct (bytes_9_split b E) as (hd & x & -> & Hhd).
  rewrite take_app_exact by done. rewrite app_nth2, Hhd by lia.
  intros [= <- <-]. split; [|split].
  - unfold slot_key. rewrite <- Hhd, to_from_be_bytes at 1.
    by rewrite byte.of_Z_unsigned.
  - pose proof (from_be_bytes_range hd) as R. rewrite Hhd in R. exact R.
  - apply byte_range.
Qed.

Lemma decode_rslot_key_alt b : decode_rslot_key b = decode_slot_key (bnot <$> b).
Proof. unfold decode_rslot_key, decode_slot_key. by rewrite length_fmap. Qed.

Lemma bnot_list_involutive (b : bytes) : bnot <$> (bnot <$> b) = b.
Proof.
  rewrite <- list_fmap_compose. rewrite <- (list_fmap_id b) at 2.
  apply list_fmap_ext. intros i x _. apply bnot_involutive.
Qed.

Lemma decode_rslot_key_rslot_key p t :
  u64_ok p -> u8_ok t -> decode_rslot_key (rslot_key p t) = Some (p, t).
Proof.
  intros. unfold rslot_key. rewrite decode_rslot_key_alt, bnot_list_involutive.
  by apply decode_slot_key_slot_key.
Qed.

Lemma decode_rslot_key_inv b p t :
  decode_rslot_key b = Some (p, t) -> b = rslot_key p t /\ u64_ok p /\ u8_ok t.
Proof.
  rewrite decode_rslot_key_alt. intros [E H]%decode_slot_key_inv.
  split; [|done]. unfold rslot_key. by rewrite <- E, bnot_list_involutive.
Qed.

#[export] Hint Resolve decode_slot_key_slot_key decode_rslot_key_rslot_key : indexer.

(** Order on [(period, thread)] pairs, as Rust's derived [Ord]. *)
Definition slot_cmp (a b : Z * Z) : comparison :=
  match Z.compare a.1 b.1 with Eq => Z.compare a.2 b.2 | c => c end.

Lemma slot_key_cmp p t p' t' :
  u64_ok p -> u8_ok t -> u64_ok p' -> u8_ok t' ->
  bytes_cmp (slot_key p t) (slot_key p' t') = slot_cmp (p, t) (p', t').
Proof.
  intros Hp Ht Hp' Ht'. unfold slot_key, slot_cmp; simpl fst; simpl snd.
  rewrite bytes_cmp_app by done. rewrite bytes_cmp_from_be by done.
  rewrite !from_to_be_bytes_8 by done. simpl.
  rewrite !byte_unsigned_of_u8 by done.
  destruct (p ?= p')%Z; try done. by destruct (t ?= t')%Z.
Qed.

Lemma rslot_key_cmp p t p' t' :
  u64_ok p -> u8_ok t -> u64_ok p' -> u8_ok t' ->
  bytes_cmp (rslot_key p t) (rslot_key p' t') = slot_cmp (p', t') (p, t).
Proof.
  intros. unfold rslot_key. rewrite bytes_cmp_bnot by done. by apply slot_key_cmp.
Qed.

Lemma slot_key_inj p t p' t' :
  u64_ok p -> u8_ok t -> u64_ok p' -> u8_ok t' ->
  slot_key p t = slot_key p' t' -> p = p' /\ t = t'.
Proof.
  intros ???? E. apply (f_equal decode_slot_key) in E.
  rewrite !decode_slot_key_slot_key in E by done. by simplify_eq.
Qed.

Lemma rslot_key_inj p t p' t' :
  u64_ok p -> u8_ok t -> u64_ok p' -> u8_ok t' ->
  rslot_key p t = rslot_key p' t' -> p = p' /\ t = t'.
Proof.
  intros ???? E. apply (f_equal decode_rslot_key) in E.
  rewrite !decode_rslot_key_rslot_key in E by done. by simplify_eq.
Qed.

(** *** Composite keys *)

Lemma mid_slice (n : nat) (pre mid post : bytes) m :
  length pre = n -> length mid = m ->
  take m (drop n (pre ++ mid ++ post)) = mid.
Proof. intros H1 H2. by rewrite drop_app_exact, take_app_exact. Qed.

Lemma tail_slice (n m : nat) (pre mid post : bytes) :
  length pre = n -> length mid = m -> drop (n + m) (pre ++ mid ++ post) = post.
Proof.
  intros H1 H2. rewrite app_assoc. apply drop_app_exact.
  rewrite length_app. lia.
Qed.

(** Every byte string of the right length is a prefix, a 9-byte slot part and
    a tail. *)
Lemma split3 (n m k : nat) (b : bytes) :
  length b = n + m + k ->
  exists pre mid post, b = pre ++ mid ++ post
    /\ length pre = n /\ length mid = m /\ length post = k.
Proof.
  intros H. exists (take n b), (take m (drop n b)), (drop m (drop n b)).
  rewrite !take_drop, !length_take, !length_drop. split; [done|lia].
Qed.

Section parse_roundtrip.
Context (p t : Z) (Hp : u64_ok p) (Ht : u8_ok t).

Lemma parse_idx_addr_slot_id_build addr id :
  length addr = ADDR_KEY_LEN -> length id = ID_KEY_LEN ->
  parse_idx_addr_slot_id (idx_addr_slot_id addr p t id) = Some (p, t, id).
Proof using Hp Ht.
  intros Ha Hi. unfold parse_idx_addr_slot_id, idx_addr_slot_id.
  rewrite !length_app, Ha, Hi, rslot_key_length. simpl negb. cbv iota.
  rewrite mid_slice, decode_rslot_key_rslot_key by done. cbn [mbind option_bind].
  by rewrite tail_slice.
Qed.

Lemma parse_idx_transfer_by_addr_build addr i tag :
  length addr = ADDR_KEY_LEN -> u32_ok i -> u8_ok tag ->
  parse_idx_transfer_by_addr (idx_transfer_by_addr addr p t i tag) = Some (p, t, i, tag).
Proof using Hp Ht.
  intros Ha Hi Htag. unfold parse_idx_transfer_by_addr, idx_transfer_by_addr.
  rewrite !length_app, Ha, rslot_key_length, to_be_bytes_length. simpl negb. cbv iota.
  rewrite (mid_slice ADDR_KEY_LEN), decode_rslot_key_rslot_key by done. cbn [mbind option_bind].
  rewrite tail_slice by done.
  rewrite take_app_exact by done.
  rewrite from_to_be_bytes_4 by done.
  rewrite !app_assoc, app_nth2; rewrite !length_app, Ha, rslot_key_length, to_be_bytes_length;
    [|by apply Nat.leb_le]. simpl. by rewrite byte_unsigned_of_u8.
Qed.

Lemma parse_idx_id_slot_index_build id i :
  length id = ID_KEY_LEN -> u32_ok i ->
  parse_idx_id_slot_index (idx_id_slot_index id p t i) = Some (p, t, i).
Proof using Hp Ht.
  intros Ha Hi. unfold parse_idx_id_slot_index, idx_id_slot_index.
  rewrite !length_app, Ha, rslot_key_length, to_be_bytes_length. simpl negb. cbv iota.
  rewrite mid_slice, decode_rslot_key_rslot_key by done. cbn [mbind option_bind].
  by rewrite tail_slice, from_to_be_bytes_4.
Qed.

(** Both event layouts end in the same 13 bytes, whatever the prefix. *)
Lemma parse_idx_event_build pre i :
  u32_ok i ->
  parse_idx_event (pre ++ rslot_key p t ++ to_be_bytes 4 i) = Some (p, t, i).
Proof using Hp Ht.
  intros Hi. unfold parse_idx_event.
  rewrite !length_app, rslot_key_length, to_be_bytes_length.
  unfold SLOT_KEY_LEN, INDEX_IN_SLOT_LEN.
  destruct (Nat.ltb_spec (length pre + (9 + 4)) (9 + 4)); [lia|].
  rewrite mid_slice, decode_rslot_key_rslot_key by (done || lia). cbn [mbind option_bind].
  replace (length pre + (9 + 4) - 4) with (length pre + 9) by lia.
  by rewrite tail_slice, from_to_be_bytes_4.
Qed.

Lemma parse_idx_denunciation_by_addr_build addr h :
  length addr = ADDR_KEY_LEN -> length h = DENUNCIATION_HASH_LEN ->
  parse_idx_denunciation_by_addr (idx_denunciation_by_addr addr p t h) = Some (p, t, h).
Proof using Hp Ht.
  intros Ha Hi. unfold parse_idx_denunciation_by_addr, idx_denunciation_by_addr.
  rewrite !length_app, Ha, Hi, rslot_key_length. simpl negb. cbv iota.
  rewrite mid_slice, decode_rslot_key_rslot_key by done. cbn [mbind option_bind].
  by rewrite tail_slice.
Qed.

Lemma parse_idx_denunciation_recent_build h :
  length h = DENUNCIATION_HASH_LEN ->
  parse_idx_denunciation_recent (idx_denunciation_recent p t h) = Some (p, t, h).
Proof using Hp Ht.
  intros Hi. unfold parse_idx_denunciation_recent, idx_denunciation_recent.
  rewrite !length_app, Hi, rslot_key_length. simpl negb. cbv iota.
  rewrite take_app_exact, decode_rslot_key_rslot_key by done. cbn [mbind option_bind].
  by rewrite drop_app_exact.
Qed.

Lemma parse_idx_by_rslot_id_build id :
  parse_idx_by_rslot_id (idx_by_rslot_id p t id) = Some (p, t, id).
Proof using Hp Ht.
  unfold parse_idx_by_rslot_id, idx_by_rslot_id.
  rewrite !length_app, rslot_key_length. unfold SLOT_KEY_LEN.
  destruct (Nat.ltb_spec (9 + length id) 9); [lia|].
  rewrite take_app_exact, decode_rslot_key_rslot_key by done. cbn [mbind option_bind].
  by rewrite drop_app_exact.
Qed.

Lemma decode_slot_indexed_key_build i :
  u32_ok i -> decode_slot_indexed_key (transfer_key p t i) = Some (p, t, i).
Proof using Hp Ht.
  intros Hi. unfold decode_slot_indexed_key, transfer_key, sc_event_key.
  rewrite !length_app, slot_key_length, to_be_bytes_length. simpl negb. cbv iota.
  rewrite take_app_exact, decode_slot_key_slot_key by done. cbn [mbind option_bind].
  by rewrite drop_app_exact, from_to_be_bytes_4.
Qed.
End parse_roundtrip.

#[export] Hint Resolve parse_idx_addr_slot_id_build parse_idx_transfer_by_addr_build
  parse_idx_id_slot_index_build parse_idx_denunciation_by_addr_build
  parse_idx_denunciation_recent_build parse_idx_by_rslot_id_build : indexer.

Lemma parse_idx_addr_slot_id_inv key p t id :
  parse_idx_addr_slot_id key = Some (p, t, id) ->
  exists addr, key = idx_addr_slot_id addr p t id
    /\ length addr = ADDR_KEY_LEN /\ length id = ID_KEY_LEN /\ u64_ok p /\ u8_ok t.
Proof.
  unfold parse_idx_addr_slot_id.
  destruct (Nat.eqb_spec (length key) IDX_ADDR_SLOT_ID_LEN) as [E|]; [|done].
  simpl negb. cbv iota.
  destruct (split3 ADDR_KEY_LEN SLOT_KEY_LEN ID_KEY_LEN key E)
    as (pre & mid & post & -> & H1 & H2 & H3).
  rewrite mid_slice, tail_slice by done.
  destruct (decode_rslot_key mid) as [[p' t']|] eqn:D; [|done].
  simpl. intros [= -> -> ->].
  apply decode_rslot_key_inv in D as (-> & ? & ?). by exists pre.
Qed.

Lemma idx_addr_slot_id_inj addr p t id addr' p' t' id' :
  length addr = ADDR_KEY_LEN -> length addr' = ADDR_KEY_LEN ->
  u64_ok p -> u8_ok t -> u64_ok p' -> u8_ok t' ->
  idx_addr_slot_id addr p t id = idx_addr_slot_id addr' p' t' id' ->
  addr = addr' /\ p = p' /\ t = t' /\ id = id'.
Proof.
  unfold idx_addr_slot_id. intros Ha Ha' ???? E.
  apply app_inj_1 in E as [-> E]; [|congruence].
  apply app_inj_1 in E as [E ->]; [|done].
  apply rslot_key_inj in E as [-> ->]; done.
Qed.

(** Same address prefix: keys sort by slot, newest first. *)
Lemma idx_addr_slot_id_cmp addr p t id p' t' id' :
  u64_ok p -> u8_ok t -> u64_ok p' -> u8_ok t' ->
  bytes_cmp (idx_addr_slot_id addr p t id) (idx_addr_slot_id addr p' t' id') =
  match slot_cmp (p', t') (p, t) with Eq => bytes_cmp id id' | c => c end.
Proof.
  intros. unfold idx_addr_slot_id.
  rewrite bytes_cmp_app, bytes_cmp_refl by done.
  by rewrite bytes_cmp_app, rslot_key_cmp.
Qed.
