(* ===== verification/Model.v ===== *)
(** * Domain types stored in RocksDB (src/massa-indexer/src/model.rs)

    Field names carry a two-letter prefix (records of one Rocq file share one
    name space); otherwise they are the source's. Integers are [Z]. *)

From S2P Require Import Prelude Ids.

Record Slot := mkSlot { slot_period : Z; slot_thread : Z }.
#[export] Instance Slot_eq_dec : EqDecision Slot.
Proof. solve_decision. Defined.

(** A [Slot] holds a [u64] period and a [u8] thread. *)
Definition Slot_ok (s : Slot) : Prop := u64_ok (slot_period s) /\ u8_ok (slot_thread s).
#[export] Instance Slot_ok_dec s : Decision (Slot_ok s).
Proof. unfold Slot_ok; apply _. Defined.

(** What the wire format needs of a [Slot]: the thread is the narrowed field. *)
Definition Slot_wf (s : Slot) : Prop := u8_ok (slot_thread s).
Lemma Slot_ok_wf s : Slot_ok s -> Slot_wf s.
Proof. by intros []. Qed.
#[export] Hint Resolve Slot_ok_wf : indexer.

Inductive ExecStatus := ExecOk | ExecFailed.
#[export] Instance ExecStatus_eq_dec : EqDecision ExecStatus.
Proof. solve_decision. Defined.

Inductive SlotStatus := SlotUnknown | SlotCandidate | SlotFinal.
#[export] Instance SlotStatus_eq_dec : EqDecision SlotStatus.
Proof. solve_decision. Defined.

Inductive BlockStatus := SeenCandidate | BlockFinal | Discarded.
#[export] Instance BlockStatus_eq_dec : EqDecision BlockStatus.
Proof. solve_decision. Defined.

Record StreamsExpected := mkStreams {
  st_filled_blocks : bool;
  st_slot_execution_outputs : bool;
  st_transfers : bool;
}.
Definition StreamsExpected_all : StreamsExpected := mkStreams true true true.

Record SlotCompleteness := mkCompleteness {
  block_body_stored : bool;
  exec_output_final : bool;
  exec_output_candidate : bool;
  transfers_stored : bool;
}.
#[export] Instance SlotCompleteness_eq_dec : EqDecision SlotCompleteness.
Proof. solve_decision. Defined.
Definition SlotCompleteness_default : SlotCompleteness :=
  mkCompleteness false false false false.

Definition is_complete (c : SlotCompleteness) (is_miss : bool) (streams : StreamsExpected) : bool :=
  let block_ok := negb (st_filled_blocks streams) || is_miss || block_body_stored c in
  let exec_ok := negb (st_slot_execution_outputs streams) || exec_output_final c in
  let transfers_ok := negb (st_transfers streams) || transfers_stored c in
  block_ok && exec_ok && transfers_ok.

Record SlotState := mkSlotState {
  ss_slot : Slot;
  ss_status : SlotStatus;
  ss_is_miss : bool;
  ss_final_block_id : option BlockId;
  ss_candidate_block_ids : list BlockId;
  ss_execution_trail_hash : option string;
  ss_executed_op_ids : list OperationId;
  ss_sc_event_count : Z;
  ss_completeness : SlotCompleteness;
  ss_first_seen_ts_ms : Z;
  ss_last_updated_ts_ms : Z;
}.

Definition SlotState_fresh (slot : Slot) (now_ms : Z) : SlotState := {|
  ss_slot := slot;
  ss_status := SlotUnknown;
  ss_is_miss := false;
  ss_final_block_id := None;
  ss_candidate_block_ids := [];
  ss_execution_trail_hash := None;
  ss_executed_op_ids := [];
  ss_sc_event_count := 0;
  ss_completeness := SlotCompleteness_default;
  ss_first_seen_ts_ms := now_ms;
  ss_last_updated_ts_ms := now_ms;
|}.

(** ** Endorsements *)
Record StoredEndorsement := mkEndorsement {
  en_id : string;
  en_slot : Slot;
  en_index : Z;
  en_endorsed_block_id : string;
  en_content_creator_pub_key : string;
  en_content_creator_address : Address;
  en_signature : string;
  en_serialized_size : Z;
  en_included_block_id : string;
  en_included_slot : Slot;
  en_first_seen_ts_ms : Z;
}.

(** ** Denunciations *)
Inductive StoredDenunciation :=
| DenBlockHeader (public_key : string) (slot : Slot)
    (hash_1 hash_2 signature_1 signature_2 : string)
| DenEndorsement (public_key : string) (slot : Slot) (index : Z)
    (hash_1 hash_2 signature_1 signature_2 : string)
| DenAddress (address_denounced : string) (slot : Slot) (slashed_nmas : Z)
| DenUnknown.

Record StoredDenunciationEntry := mkDenunciationEntry {
  de_hash : string;
  de_slot : Slot;
  de_kind : string;
  de_denounced_addr : option Address;
  de_denunciation : StoredDenunciation;
  de_included_block_id : option BlockId;
  de_included_slot : option Slot;
  de_first_seen_ts_ms : Z;
}.

(** ** Blocks *)
Record StoredBlock := mkBlock {
  bl_id : BlockId;
  bl_slot : Slot;
  bl_creator : Address;
  bl_parents : list BlockId;
  bl_operation_ids : list OperationId;
  bl_endorsements : list StoredEndorsement;
  bl_endorsement_ids : list string;
  bl_denunciations : list StoredDenunciation;
  bl_current_version : Z;
  bl_announced_version : option Z;
  bl_operations_hash : string;
  bl_signature : string;
  bl_content_creator_pub_key : string;
  bl_serialized_size : Z;
  bl_raw_signed_header_b64 : string;
  bl_status : BlockStatus;
  bl_first_seen_ts_ms : Z;
}.

(** ** Operations *)
Inductive OperationKind :=
| OpTransaction | OpRollBuyKind | OpRollSellKind | OpExecuteSc | OpCallSc | OpUnknown.
#[export] Instance OperationKind_eq_dec : EqDecision OperationKind.
Proof. solve_decision. Defined.

Record DatastoreEntry := mkDatastoreEntry { ds_key_hex : string; ds_value_hex : string }.

Record OperationDetails := mkDetails {
  od_amount_nmas : option Z;
  od_recipient_address : option string;
  od_roll_count : option Z;
  od_target_address : option string;
  od_target_function : option string;
  od_parameter_hex : option string;
  od_parameter_len : option Z;
  od_coins_nmas : option Z;
  od_max_gas : option Z;
  od_bytecode_hex : option string;
  od_bytecode_size : option Z;
  od_max_coins_nmas : option Z;
  od_datastore : list DatastoreEntry;
  od_datastore_keys : option Z;
}.
Definition OperationDetails_default : OperationDetails := {|
  od_amount_nmas := None; od_recipient_address := None; od_roll_count := None;
  od_target_address := None; od_target_function := None; od_parameter_hex := None;
  od_parameter_len := None; od_coins_nmas := None; od_max_gas := None;
  od_bytecode_hex := None; od_bytecode_size := None; od_max_coins_nmas := None;
  od_datastore := []; od_datastore_keys := None |}.

Record OperationInclusion := mkInclusion { inc_slot : Slot; inc_block_id : BlockId }.
#[export] Instance OperationInclusion_eq_dec : EqDecision OperationInclusion.
Proof. solve_decision. Defined.

Record StoredOperation := mkOperation {
  op_id : OperationId;
  op_creator : Address;
  op_target : option Address;
  op_kind : OperationKind;
  op_expire_period : Z;
  op_fee_nmas : Z;
  op_thread : Z;
  op_inclusions : list OperationInclusion;
  op_candidate_exec_status : option ExecStatus;
  op_final_exec_status : option ExecStatus;
  op_details : OperationDetails;
  op_signature : string;
  op_content_creator_pub_key : string;
  op_serialized_size : Z;
  op_raw_signed_op_b64 : string;
  op_first_seen_ts_ms : Z;
}.

(** ** Transfers *)
Inductive TransferValue :=
| TVCoins (nmas : Z) | TVRolls (count : Z) | TVDeferredCredits (nmas : Z) | TVUnknown.
#[export] Instance TransferValue_eq_dec : EqDecision TransferValue.
Proof. solve_decision. Defined.

Inductive CoinOrigin :=
| Unspecified | BlockReward | DeferredCallFail | DeferredCallCancel | DeferredCallCoins
| DeferredCallRegister | DeferredCallStorageRefund | EndorsementReward | EndorsedReward
| Slash | OpRollBuy | OpRollSell | OpCallscCoins | ReadOnlyFnCallFees | ReadOnlyFnCallCoins
| ReadOnlyBytecodeExecFees | SetBytecodeStorage | AbiCallCoins | AbiTransferCoins
| AbiTransferForCoins | AbiSendMsgCoins | AbiSendMsgFees | OpRollSellDeferredMas
| OpExecutescFees | OpTransactionCoins | OpTransactionFees | AsyncMsgCoins | AsyncMsgCancel
| CreateScStorage | DatastoreStorage | DeferredCredit | OtherOrigin (code : Z).
#[export] Instance CoinOrigin_eq_dec : EqDecision CoinOrigin.
Proof. solve_decision. Defined.

Record StoredTransfer := mkTransfer {
  tr_slot : Slot;
  tr_index_in_slot : Z;
  tr_id : string;
  tr_block_id : option string;
  tr_block_timestamp_ms : Z;
  tr_from : option string;
  tr_to : option string;
  tr_value : TransferValue;
  tr_origin : CoinOrigin;
  tr_operation_id : option string;
  tr_async_msg_id : option string;
  tr_deferred_call_id : option string;
  tr_denunciation_index : option string;
  tr_is_final : bool;
  tr_first_seen_ts_ms : Z;
}.
#[export] Instance StoredTransfer_eq_dec : EqDecision StoredTransfer.
Proof. solve_decision. Defined.

(** ** SC events *)
Record StoredScEvent := mkScEvent {
  ev_slot : Slot;
  ev_index_in_slot : Z;
  ev_data : string;
  ev_emitter_addrs : list Address;
  ev_caller_addrs : list Address;
  ev_status : SlotStatus;
  ev_op_id : option OperationId;
}.

(** ** Meta row *)
Record MetaRow := mkMetaRow {
  mr_network : string;
  mr_genesis_timestamp_ms : Z;
  mr_t0_ms : Z;
  mr_thread_count : Z;
  mr_last_final_slot : option Slot;
  mr_last_candidate_slot : option Slot;
  mr_build_version : string;
  mr_created_at_ms : Z;
  mr_updated_at_ms : Z;
}.

(** ** Async pool and deferred calls *)
Inductive AsyncMsgState := AmPending | AmExecuted | AmCancelled | AmConsumed.
#[export] Instance AsyncMsgState_eq_dec : EqDecision AsyncMsgState.
Proof. solve_decision. Defined.

Record AsyncTrigger := mkTrigger {
  at_address : string;
  at_datastore_key_hex : option string;
}.
Definition AsyncTrigger_default : AsyncTrigger := mkTrigger "" None.

Record StoredAsyncMsg := mkAsyncMsg {
  am_id : string;
  am_sender : option Address;
  am_destination : option Address;
  am_handler : option string;
  am_coins_nmas : Z;
  am_max_gas : Z;
  am_fee_nmas : Z;
  am_emission_slot : option Slot;
  am_validity_start : option Slot;
  am_validity_end : option Slot;
  am_state : AsyncMsgState;
  am_last_slot : option Slot;
  am_data_hex : option string;
  am_trigger : option AsyncTrigger;
  am_can_be_executed : bool;
  am_first_seen_ts_ms : Z;
  am_last_updated_ts_ms : Z;
}.

Inductive DeferredCallState := DcRegistered | DcExecuted | DcFailed | DcCancelled.
#[export] Instance DeferredCallState_eq_dec : EqDecision DeferredCallState.
Proof. solve_decision. Defined.

Record StoredDeferredCall := mkDeferredCall {
  dc_id : string;
  dc_sender : option Address;
  dc_target_address : option Address;
  dc_target_function : option string;
  dc_parameter_hex : option string;
  dc_coins_nmas : Z;
  dc_max_gas : Z;
  dc_target_slot : option Slot;
  dc_registered_slot : option Slot;
  dc_state : DeferredCallState;
  dc_last_slot : option Slot;
  dc_first_seen_ts_ms : Z;
  dc_last_updated_ts_ms : Z;
}.

(** ** Well-formed rows

    A row is well formed when its integers fit their Rust types where the wire
    format narrows them, and its ids are ids built by ids.rs. *)
Section wf.
Context `{Bs58}.

Definition opt_wf {A} (P : A -> Prop) (o : option A) : Prop :=
  match o with Some a => P a | None => True end.

Definition SlotState_wf (s : SlotState) : Prop :=
  Slot_wf (ss_slot s) /\
  opt_wf Id_wf (ss_final_block_id s) /\
  Forall Id_wf (ss_candidate_block_ids s) /\
  ss_execution_trail_hash s <> Some "" /\
  Forall Id_wf (ss_executed_op_ids s).

Definition parses {A} (p : string -> result string A) (s : string) : Prop := is_ok (p s) = true.

Definition StoredEndorsement_wf (e : StoredEndorsement) : Prop :=
  parses EndorsementId_parse (en_id e) /\ Slot_wf (en_slot e) /\
  parses BlockId_parse (en_endorsed_block_id e) /\
  Address_enc (en_content_creator_address e) /\
  parses BlockId_parse (en_included_block_id e) /\ Slot_wf (en_included_slot e).

Definition StoredDenunciation_wf (d : StoredDenunciation) : Prop :=
  match d with
  | DenBlockHeader _ s _ _ _ _ | DenEndorsement _ s _ _ _ _ _ | DenAddress _ s _ => Slot_wf s
  | DenUnknown => True
  end.

Definition StoredScEvent_wf (e : StoredScEvent) : Prop :=
  Slot_ok (ev_slot e) /\ Forall Address_enc (ev_emitter_addrs e) /\
  Forall Address_enc (ev_caller_addrs e) /\ opt_wf Id_wf (ev_op_id e).

(** [CoinOrigin::Other { code: 0 }] has no wire form of its own. *)
Definition StoredTransfer_wf (t : StoredTransfer) : Prop :=
  Slot_ok (tr_slot t) /\ tr_origin t <> OtherOrigin 0.

Definition StoredAsyncMsg_wf (m : StoredAsyncMsg) : Prop :=
  opt_wf Address_enc (am_sender m) /\ opt_wf Address_enc (am_destination m) /\
  opt_wf Slot_ok (am_emission_slot m) /\ opt_wf Slot_ok (am_validity_start m) /\
  opt_wf Slot_ok (am_validity_end m) /\ opt_wf Slot_ok (am_last_slot m).

Definition StoredAsyncMsg_enc (m : StoredAsyncMsg) : Prop :=
  opt_wf Address_enc (am_sender m) /\ opt_wf Address_enc (am_destination m) /\
  opt_wf Slot_wf (am_emission_slot m) /\ opt_wf Slot_wf (am_validity_start m) /\
  opt_wf Slot_wf (am_validity_end m) /\ opt_wf Slot_wf (am_last_slot m).

Definition StoredDeferredCall_wf (d : StoredDeferredCall) : Prop :=
  opt_wf Address_enc (dc_sender d) /\ opt_wf Address_enc (dc_target_address d) /\
  opt_wf Slot_ok (dc_target_slot d) /\ opt_wf Slot_ok (dc_registered_slot d) /\
  opt_wf Slot_ok (dc_last_slot d).

Definition StoredDeferredCall_enc (d : StoredDeferredCall) : Prop :=
  opt_wf Address_enc (dc_sender d) /\ opt_wf Address_enc (dc_target_address d) /\
  opt_wf Slot_wf (dc_target_slot d) /\ opt_wf Slot_wf (dc_registered_slot d) /\
  opt_wf Slot_wf (dc_last_slot d).

Lemma opt_wf_impl {A} (P Q : A -> Prop) o : (forall a, P a -> Q a) -> opt_wf P o -> opt_wf Q o.
Proof. destruct o; simpl; auto. Qed.
Lemma StoredAsyncMsg_wf_enc m : StoredAsyncMsg_wf m -> StoredAsyncMsg_enc m.
Proof.
  intros (?&?&?&?&?&?). repeat split; eauto using opt_wf_impl, Slot_ok_wf.
Qed.
Lemma StoredDeferredCall_wf_enc d : StoredDeferredCall_wf d -> StoredDeferredCall_enc d.
Proof. intros (?&?&?&?&?). repeat split; eauto using opt_wf_impl, Slot_ok_wf. Qed.

Definition MetaRow_wf (m : MetaRow) : Prop :=
  u8_ok (mr_thread_count m) /\ opt_wf Slot_ok (mr_last_final_slot m) /\
  opt_wf Slot_ok (mr_last_candidate_slot m).
End wf.

(** ** Completeness *)

(** Every part a slot gains can only help [is_complete]. *)
Definition completeness_le (c d : SlotCompleteness) : Prop :=
  (block_body_stored c -> block_body_stored d) /\
  (exec_output_final c -> exec_output_final d) /\
  (exec_output_candidate c -> exec_output_candidate d) /\
  (transfers_stored c -> transfers_stored d).

#[export] Instance completeness_le_preorder : PreOrder completeness_le.
Proof. split; [intros c; repeat split; auto | intros c d e; unfold completeness_le; tauto]. Qed.

Lemma is_complete_mono c d m streams :
  completeness_le c d -> is_complete c m streams -> is_complete d m streams.
Proof.
  destruct c as [[] [] [] []], d as [[] [] [] []], m, streams as [[] [] []];
    unfold completeness_le, is_complete; simpl; tauto.
Qed.
