(* ===== verification/Proto.v ===== *)
(** * Wire messages (src/massa-indexer/proto/indexer/v1/storage.proto, peer.proto)

    The records prost generates for the storage and peer messages: a message
    field is [option], a [repeated] field a list, an enum field the [i32] on
    the wire, a [oneof] an [option] of a sum. The wire encoding itself belongs
    to the prost crate: the class [Prost] states that decoding what was encoded
    gives the message back. *)

From S2P Require Import Prelude.

Class Prost (M : Type) := {
  encode_to_vec : M -> bytes;
  prost_decode : bytes -> option M;
  prost_decode_encode m : prost_decode (encode_to_vec m) = Some m;
}.

Record SlotPb := mkSlotPb { sp_period : Z; sp_thread : Z }.

(** Enum numbers. *)
Inductive SlotStatusPb := SlotStatusUnknownPb | SlotStatusCandidatePb | SlotStatusFinalPb.
Definition SlotStatusPb_i32 (s : SlotStatusPb) : Z :=
  match s with SlotStatusUnknownPb => 0 | SlotStatusCandidatePb => 1 | SlotStatusFinalPb => 2 end.
Definition SlotStatusPb_try_from (i : Z) : option SlotStatusPb :=
  match i with
  | 0 => Some SlotStatusUnknownPb | 1 => Some SlotStatusCandidatePb
  | 2 => Some SlotStatusFinalPb | _ => None
  end%Z.

Inductive BlockStatusPb :=
| BlockStatusUnspecifiedPb | BlockStatusSeenCandidatePb | BlockStatusFinalPb
| BlockStatusDiscardedPb.
Definition BlockStatusPb_i32 (s : BlockStatusPb) : Z :=
  match s with
  | BlockStatusUnspecifiedPb => 0 | BlockStatusSeenCandidatePb => 1
  | BlockStatusFinalPb => 2 | BlockStatusDiscardedPb => 3
  end.
Definition BlockStatusPb_try_from (i : Z) : option BlockStatusPb :=
  match i with
  | 0 => Some BlockStatusUnspecifiedPb | 1 => Some BlockStatusSeenCandidatePb
  | 2 => Some BlockStatusFinalPb | 3 => Some BlockStatusDiscardedPb | _ => None
  end%Z.

Inductive ExecStatusPb := ExecStatusUnspecifiedPb | ExecStatusOkPb | ExecStatusFailedPb.
Definition ExecStatusPb_i32 (s : ExecStatusPb) : Z :=
  match s with ExecStatusUnspecifiedPb => 0 | ExecStatusOkPb => 1 | ExecStatusFailedPb => 2 end.
Definition ExecStatusPb_try_from (i : Z) : option ExecStatusPb :=
  match i with
  | 0 => Some ExecStatusUnspecifiedPb | 1 => Some ExecStatusOkPb
  | 2 => Some ExecStatusFailedPb | _ => None
  end%Z.

Inductive OperationKindPb :=
| OpKindUnknown | OpKindTransaction | OpKindRollBuy | OpKindRollSell
| OpKindExecuteSc | OpKindCallSc.
Definition OperationKindPb_i32 (k : OperationKindPb) : Z :=
  match k with
  | OpKindUnknown => 0 | OpKindTransaction => 1 | OpKindRollBuy => 2
  | OpKindRollSell => 3 | OpKindExecuteSc => 4 | OpKindCallSc => 5
  end.
Definition OperationKindPb_try_from (i : Z) : option OperationKindPb :=
  match i with
  | 0 => Some OpKindUnknown | 1 => Some OpKindTransaction | 2 => Some OpKindRollBuy
  | 3 => Some OpKindRollSell | 4 => Some OpKindExecuteSc | 5 => Some OpKindCallSc
  | _ => None
  end%Z.

Inductive AsyncMsgStatePb := AmStatePendingPb | AmStateExecutedPb | AmStateCancelledPb | AmStateConsumedPb.
Definition AsyncMsgStatePb_i32 (s : AsyncMsgStatePb) : Z :=
  match s with
  | AmStatePendingPb => 0 | AmStateExecutedPb => 1 | AmStateCancelledPb => 2
  | AmStateConsumedPb => 3
  end.
Definition AsyncMsgStatePb_try_from (i : Z) : option AsyncMsgStatePb :=
  match i with
  | 0 => Some AmStatePendingPb | 1 => Some AmStateExecutedPb
  | 2 => Some AmStateCancelledPb | 3 => Some AmStateConsumedPb | _ => None
  end%Z.

Inductive DeferredCallStatePb := DcStateRegisteredPb | DcStateExecutedPb | DcStateFailedPb | DcStateCancelledPb.
Definition DeferredCallStatePb_i32 (s : DeferredCallStatePb) : Z :=
  match s with
  | DcStateRegisteredPb => 0 | DcStateExecutedPb => 1 | DcStateFailedPb => 2
  | DcStateCancelledPb => 3
  end.
Definition DeferredCallStatePb_try_from (i : Z) : option DeferredCallStatePb :=
  match i with
  | 0 => Some DcStateRegisteredPb | 1 => Some DcStateExecutedPb
  | 2 => Some DcStateFailedPb | 3 => Some DcStateCancelledPb | _ => None
  end%Z.

(** ** Storage messages *)

Record SlotCompletenessPb := mkSlotCompletenessPb {
  cp_block_body_stored : bool;
  cp_exec_output_final : bool;
  cp_exec_output_candidate : bool;
  cp_transfers_stored : bool;
}.
Definition SlotCompletenessPb_default := mkSlotCompletenessPb false false false false.

Record SlotStatePb := mkSlotStatePb {
  ssp_slot : option SlotPb;
  ssp_status : Z;
  ssp_is_miss : bool;
  ssp_final_block_id_key : bytes;
  ssp_candidate_block_id_keys : list bytes;
  ssp_execution_trail_hash : string;
  ssp_executed_op_id_keys : list bytes;
  ssp_sc_event_count : Z;
  ssp_completeness : option SlotCompletenessPb;
  ssp_first_seen_ts_ms : Z;
  ssp_last_updated_ts_ms : Z;
}.

Record MetaRowPb := mkMetaRowPb {
  mp_network : string;
  mp_genesis_timestamp_ms : Z;
  mp_t0_ms : Z;
  mp_thread_count : Z;
  mp_last_final_slot : option SlotPb;
  mp_has_last_final_slot : bool;
  mp_last_candidate_slot : option SlotPb;
  mp_has_last_candidate_slot : bool;
  mp_build_version : string;
  mp_created_at_ms : Z;
  mp_updated_at_ms : Z;
}.

Record StoredEndorsementPb := mkStoredEndorsementPb {
  ep_id_key : bytes;
  ep_slot : option SlotPb;
  ep_index : Z;
  ep_endorsed_block_id_key : bytes;
  ep_content_creator_pub_key : string;
  ep_content_creator_address_key : bytes;
  ep_signature : string;
  ep_serialized_size : Z;
  ep_included_block_id_key : bytes;
  ep_included_slot : option SlotPb;
  ep_first_seen_ts_ms : Z;
}.

Record DenunciationBlockHeaderPb := mkDenunciationBlockHeaderPb {
  dbp_public_key : string; dbp_slot : option SlotPb;
  dbp_hash_1 : string; dbp_hash_2 : string;
  dbp_signature_1 : string; dbp_signature_2 : string }.
Record DenunciationEndorsementPb := mkDenunciationEndorsementPb {
  dep_public_key : string; dep_slot : option SlotPb; dep_index : Z;
  dep_hash_1 : string; dep_hash_2 : string;
  dep_signature_1 : string; dep_signature_2 : string }.
Record DenunciationAddressPb := mkDenunciationAddressPb {
  dap_address_denounced : string; dap_slot : option SlotPb; dap_slashed_nmas : Z }.
Inductive DenunciationKindPb :=
| KindBlockHeader (x : DenunciationBlockHeaderPb)
| KindEndorsement (x : DenunciationEndorsementPb)
| KindAddress (x : DenunciationAddressPb)
| KindUnknown.
Record StoredDenunciationPb := mkStoredDenunciationPb { dp_kind : option DenunciationKindPb }.

Record StoredDenunciationEntryPb := mkStoredDenunciationEntryPb {
  dnp_hash : bytes;
  dnp_slot : option SlotPb;
  dnp_kind : string;
  dnp_denounced_addr_key : bytes;
  dnp_has_denounced_addr : bool;
  dnp_denunciation : option StoredDenunciationPb;
  dnp_included_block_id_key : bytes;
  dnp_has_included_block_id : bool;
  dnp_included_slot : option SlotPb;
  dnp_has_included_slot : bool;
  dnp_first_seen_ts_ms : Z;
}.

Record StoredBlockPb := mkStoredBlockPb {
  bp_id_key : bytes;
  bp_slot : option SlotPb;
  bp_creator_key : bytes;
  bp_parent_keys : list bytes;
  bp_operation_id_keys : list bytes;
  bp_endorsements : list StoredEndorsementPb;
  bp_endorsement_ids : list string;
  bp_denunciations : list StoredDenunciationPb;
  bp_current_version : Z;
  bp_announced_version : Z;
  bp_has_announced_version : bool;
  bp_operations_hash : string;
  bp_signature : string;
  bp_content_creator_pub_key : string;
  bp_serialized_size : Z;
  bp_raw_signed_header : bytes;
  bp_status : Z;
  bp_first_seen_ts_ms : Z;
}.

Record DatastoreEntryPb := mkDatastoreEntryPb { dsp_key_hex : string; dsp_value_hex : string }.

Record OperationDetailsPb := mkOperationDetailsPb {
  odp_amount_nmas : Z; odp_has_amount_nmas : bool;
  odp_recipient_address : string; odp_has_recipient_address : bool;
  odp_roll_count : Z; odp_has_roll_count : bool;
  odp_target_address : string; odp_has_target_address : bool;
  odp_target_function : string; odp_has_target_function : bool;
  odp_parameter_hex : string; odp_has_parameter_hex : bool;
  odp_parameter_len : Z; odp_has_parameter_len : bool;
  odp_coins_nmas : Z; odp_has_coins_nmas : bool;
  odp_max_gas : Z; odp_has_max_gas : bool;
  odp_bytecode_hex : string; odp_has_bytecode_hex : bool;
  odp_bytecode_size : Z; odp_has_bytecode_size : bool;
  odp_max_coins_nmas : Z; odp_has_max_coins_nmas : bool;
  odp_datastore : list DatastoreEntryPb;
  odp_datastore_keys : Z; odp_has_datastore_keys : bool;
}.
Definition OperationDetailsPb_default : OperationDetailsPb :=
  mkOperationDetailsPb 0 false "" false 0 false "" false "" false "" false 0 false
    0 false 0 false "" false 0 false 0 false [] 0 false.

Record OperationInclusionPb := mkOperationInclusionPb {
  ip_slot : option SlotPb; ip_block_id_key : bytes }.

Record StoredOperationPb := mkStoredOperationPb {
  opp_id_key : bytes;
  opp_creator_key : bytes;
  opp_target_key : bytes;
  opp_has_target : bool;
  opp_kind : Z;
  opp_expire_period : Z;
  opp_fee_nmas : Z;
  opp_thread : Z;
  opp_inclusions : list OperationInclusionPb;
  opp_candidate_exec_status : Z;
  opp_has_candidate_exec_status : bool;
  opp_final_exec_status : Z;
  opp_has_final_exec_status : bool;
  opp_details : option OperationDetailsPb;
  opp_signature : string;
  opp_content_creator_pub_key : string;
  opp_serialized_size : Z;
  opp_raw_signed_op : bytes;
  opp_first_seen_ts_ms : Z;
}.

Record StoredScEventPb := mkStoredScEventPb {
  evp_slot : option SlotPb;
  evp_index_in_slot : Z;
  evp_data : string;
  evp_emitter_addr_keys : list bytes;
  evp_caller_addr_keys : list bytes;
  evp_status : Z;
  evp_op_id_key : bytes;
  evp_has_op_id : bool;
}.

Inductive TransferValueKindPb :=
| ValueCoins (nmas : Z) | ValueRolls (count : Z) | ValueDeferredCredits (nmas : Z) | ValueUnknown.
Record TransferValuePb := mkTransferValuePb { tvp_value : option TransferValueKindPb }.
Definition TransferValuePb_default := mkTransferValuePb None.

Record CoinOriginPb := mkCoinOriginPb { cop_kind : Z; cop_other_code : Z }.
Definition CoinOriginPb_default := mkCoinOriginPb 0 0.

Record StoredTransferPb := mkStoredTransferPb {
  tp_slot : option SlotPb;
  tp_index_in_slot : Z;
  tp_id : string;
  tp_block_id : string;
  tp_has_block_id : bool;
  tp_block_timestamp_ms : Z;
  tp_from : string;
  tp_has_from : bool;
  tp_to : string;
  tp_has_to : bool;
  tp_value : option TransferValuePb;
  tp_origin : option CoinOriginPb;
  tp_operation_id : string;
  tp_has_operation_id : bool;
  tp_async_msg_id : string;
  tp_has_async_msg_id : bool;
  tp_deferred_call_id : string;
  tp_has_deferred_call_id : bool;
  tp_denunciation_index : string;
  tp_has_denunciation_index : bool;
  tp_is_final : bool;
  tp_first_seen_ts_ms : Z;
}.

Record AsyncTriggerPb := mkAsyncTriggerPb {
  atp_address : string; atp_datastore_key_hex : string; atp_has_datastore_key : bool }.

Record StoredAsyncMsgPb := mkStoredAsyncMsgPb {
  amp_id : string;
  amp_sender_key : bytes; amp_has_sender : bool;
  amp_destination_key : bytes; amp_has_destination : bool;
  amp_handler : string; amp_has_handler : bool;
  amp_coins_nmas : Z;
  amp_max_gas : Z;
  amp_fee_nmas : Z;
  amp_emission_slot : option SlotPb; amp_has_emission_slot : bool;
  amp_validity_start : option SlotPb; amp_has_validity_start : bool;
  amp_validity_end : option SlotPb; amp_has_validity_end : bool;
  amp_state : Z;
  amp_last_slot : option SlotPb; amp_has_last_slot : bool;
  amp_data_hex : string; amp_has_data : bool;
  amp_trigger : option AsyncTriggerPb; amp_has_trigger : bool;
  amp_can_be_executed : bool;
  amp_first_seen_ts_ms : Z;
  amp_last_updated_ts_ms : Z;
}.

Record StoredDeferredCallPb := mkStoredDeferredCallPb {
  dcp_id : string;
  dcp_sender_key : bytes; dcp_has_sender : bool;
  dcp_target_address_key : bytes; dcp_has_target_address : bool;
  dcp_target_function : string; dcp_has_target_function : bool;
  dcp_parameter_hex : string; dcp_has_parameter_hex : bool;
  dcp_coins_nmas : Z;
  dcp_max_gas : Z;
  dcp_target_slot : option SlotPb; dcp_has_target_slot : bool;
  dcp_registered_slot : option SlotPb; dcp_has_registered_slot : bool;
  dcp_state : Z;
  dcp_last_slot : option SlotPb; dcp_has_last_slot : bool;
  dcp_first_seen_ts_ms : Z;
  dcp_last_updated_ts_ms : Z;
}.

(** ** Peer messages *)

Record FinalSlotParts := mkParts { fp_block : bool; fp_exec_output : bool; fp_transfers : bool }.
#[export] Instance FinalSlotParts_eq_dec : EqDecision FinalSlotParts.
Proof. solve_decision. Defined.
Definition FinalSlotParts_default := mkParts false false false.

Record FinalSlotResponse := mkResp {
  fr_period : Z;
  fr_thread : Z;
  fr_final_known : bool;
  fr_is_miss : bool;
  fr_execution_trail_hash : string;
  fr_block : option StoredBlockPb;
  fr_operations : list StoredOperationPb;
  fr_endorsements : list StoredEndorsementPb;
  fr_sc_events : list StoredScEventPb;
  fr_executed_op_ids : list string;
  fr_sc_event_count : Z;
  fr_async_msgs : list StoredAsyncMsgPb;
  fr_transfers : list StoredTransferPb;
  fr_deferred_calls : list StoredDeferredCallPb;
  fr_final_block_id : string;
  fr_completeness_known : bool;
  fr_has_block_body : bool;
  fr_has_exec_output : bool;
  fr_has_transfers : bool;
  fr_parts : option FinalSlotParts;
}.
(** [FinalSlotResponse::default()]. *)
Definition FinalSlotResponse_default : FinalSlotResponse :=
  mkResp 0 0 false false "" None [] [] [] [] 0 [] [] [] "" false false false false None.

(** All the messages the store persists can be encoded. *)
Class ProstStorage := {
  #[global] prost_Slot :: Prost SlotPb;
  #[global] prost_SlotState :: Prost SlotStatePb;
  #[global] prost_MetaRow :: Prost MetaRowPb;
  #[global] prost_Endorsement :: Prost StoredEndorsementPb;
  #[global] prost_DenunciationEntry :: Prost StoredDenunciationEntryPb;
  #[global] prost_Block :: Prost StoredBlockPb;
  #[global] prost_Operation :: Prost StoredOperationPb;
  #[global] prost_ScEvent :: Prost StoredScEventPb;
  #[global] prost_Transfer :: Prost StoredTransferPb;
  #[global] prost_AsyncMsg :: Prost StoredAsyncMsgPb;
  #[global] prost_DeferredCall :: Prost StoredDeferredCallPb;
}.
