(* ===== verification/Codec.v ===== *)
(** * Binary value codec (src/massa-indexer/src/codec.rs)

    Domain rows to protobuf messages and back. Every [encode_*] / [decode_*]
    pair of codec.rs is here, composed with the prost encoding of the class
    [ProstStorage]; the base64 and hex crates are the classes [Base64] and
    [HexCrate]. *)

From S2P Require Import Prelude Ids Model Proto.

(** The crate [base64] (engine STANDARD) and the crate [hex]. STANDARD demands
    canonical padding, so a string it accepts re-encodes to itself; hex
    accepts upper case, so only the other direction holds. *)
Class Base64 := {
  b64_encode : bytes -> string;
  b64_decode : string -> option bytes;
  b64_decode_encode b : b64_decode (b64_encode b) = Some b;
  b64_encode_decode s b : b64_decode s = Some b -> b64_encode b = s;
  b64_encode_nil : b64_encode [] = "";
}.
Class HexCrate := {
  hex_crate_encode : bytes -> string;
  hex_crate_decode : string -> option bytes;
  hex_decode_encode b : hex_crate_decode (hex_crate_encode b) = Some b;
}.

Inductive CodecError := CodecDecode | CodecEncode | CodecCustom (msg : string).
#[export] Instance CodecError_eq_dec : EqDecision CodecError.
Proof. solve_decision. Defined.
Definition err (msg : string) : CodecError := CodecCustom msg.

(** [bool::then_some]. *)
Definition then_some {A} (b : bool) (x : A) : option A := if b then Some x else None.
(** [if flag { Some(e?) } else { None }]. *)
Definition some_if {E A} (b : bool) (r : result E A) : result E (option A) :=
  if b then x ← r; Ok (Some x) else Ok None.

Section codec.
Context `{Bs58, Base64, HexCrate, ProstStorage}.

(** ** Id helpers *)
Definition block_id_to_key (id : BlockId) : bytes := id_as_bytes id.
Definition block_id_from_key (b : bytes) : result CodecError BlockId :=
  ok_or (err "invalid block id key bytes") (BlockId_from_key_bytes b).
Definition op_id_to_key (id : OperationId) : bytes := id_as_bytes id.
Definition op_id_from_key (b : bytes) : result CodecError OperationId :=
  ok_or (err "invalid operation id key bytes") (OperationId_from_key_bytes b).
Definition endo_id_to_key (id : EndorsementId) : bytes := id_as_bytes id.
Definition endo_id_from_key (b : bytes) : result CodecError EndorsementId :=
  ok_or (err "invalid endorsement id key bytes") (EndorsementId_from_key_bytes b).
Definition addr_to_key (a : Address) : bytes := addr_as_bytes a.
Definition addr_from_key (b : bytes) : result CodecError Address :=
  ok_or (err "invalid address key bytes") (Address_from_key_bytes b).

(** ** Slots *)
Definition slot_to_pb (s : Slot) : SlotPb := mkSlotPb (slot_period s) (slot_thread s).
Definition slot_from_pb (p : SlotPb) : result CodecError Slot :=
  thread ← ok_or (err "thread > 255") (u8_try_from (sp_thread p));
  Ok (mkSlot (sp_period p) thread).
Definition slot_from_opt (p : option SlotPb) : result CodecError Slot :=
  p ← ok_or (err "missing slot") p; slot_from_pb p.

(** ** Enums *)
Definition slot_status_to_pb (s : SlotStatus) : Z :=
  match s with
  | SlotUnknown => SlotStatusPb_i32 SlotStatusUnknownPb
  | SlotCandidate => SlotStatusPb_i32 SlotStatusCandidatePb
  | SlotFinal => SlotStatusPb_i32 SlotStatusFinalPb
  end.
Definition slot_status_from_pb (i : Z) : SlotStatus :=
  match default SlotStatusUnknownPb (SlotStatusPb_try_from i) with
  | SlotStatusCandidatePb => SlotCandidate
  | SlotStatusFinalPb => SlotFinal
  | _ => SlotUnknown
  end.
Definition exec_status_to_pb (s : ExecStatus) : Z :=
  match s with
  | ExecOk => ExecStatusPb_i32 ExecStatusOkPb
  | ExecFailed => ExecStatusPb_i32 ExecStatusFailedPb
  end.
Definition exec_status_from_pb (i : Z) : option ExecStatus :=
  match ExecStatusPb_try_from i with
  | Some ExecStatusOkPb => Some ExecOk
  | Some ExecStatusFailedPb => Some ExecFailed
  | Some ExecStatusUnspecifiedPb | None => None
  end.
Definition block_status_to_pb (s : BlockStatus) : Z :=
  match s with
  | SeenCandidate => BlockStatusPb_i32 BlockStatusSeenCandidatePb
  | BlockFinal => BlockStatusPb_i32 BlockStatusFinalPb
  | Discarded => BlockStatusPb_i32 BlockStatusDiscardedPb
  end.
Definition block_status_from_pb (i : Z) : BlockStatus :=
  match default BlockStatusUnspecifiedPb (BlockStatusPb_try_from i) with
  | BlockStatusFinalPb => BlockFinal
  | BlockStatusDiscardedPb => Discarded
  | _ => SeenCandidate
  end.

Definition completeness_to_pb (c : SlotCompleteness) : SlotCompletenessPb :=
  mkSlotCompletenessPb (block_body_stored c) (exec_output_final c)
    (exec_output_candidate c) (transfers_stored c).
Definition completeness_from_pb (p : option SlotCompletenessPb) : SlotCompleteness :=
  let p := default SlotCompletenessPb_default p in
  mkCompleteness (cp_block_body_stored p) (cp_exec_output_final p)
    (cp_exec_output_candidate p) (cp_transfers_stored p).

(** ** SlotState *)
Definition slot_state_to_pb (s : SlotState) : SlotStatePb := {|
  ssp_slot := Some (slot_to_pb (ss_slot s));
  ssp_status := slot_status_to_pb (ss_status s);
  ssp_is_miss := ss_is_miss s;
  ssp_final_block_id_key := default [] (block_id_to_key <$> ss_final_block_id s);
  ssp_candidate_block_id_keys := block_id_to_key <$> ss_candidate_block_ids s;
  ssp_execution_trail_hash := default "" (ss_execution_trail_hash s);
  ssp_executed_op_id_keys := op_id_to_key <$> ss_executed_op_ids s;
  ssp_sc_event_count := ss_sc_event_count s;
  ssp_completeness := Some (completeness_to_pb (ss_completeness s));
  ssp_first_seen_ts_ms := ss_first_seen_ts_ms s;
  ssp_last_updated_ts_ms := ss_last_updated_ts_ms s;
|}.
Definition encode_slot_state (s : SlotState) : bytes := encode_to_vec (slot_state_to_pb s).

Definition slot_state_from_pb (p : SlotStatePb) : result CodecError SlotState :=
  slot ← slot_from_opt (ssp_slot p);
  final_block_id ←
    some_if (negb (bool_decide (ssp_final_block_id_key p = [])))
      (block_id_from_key (ssp_final_block_id_key p));
  candidates ← try_map block_id_from_key (ssp_candidate_block_id_keys p);
  executed ← try_map op_id_from_key (ssp_executed_op_id_keys p);
  Ok {|
    ss_slot := slot;
    ss_status := slot_status_from_pb (ssp_status p);
    ss_is_miss := ssp_is_miss p;
    ss_final_block_id := final_block_id;
    ss_candidate_block_ids := candidates;
    ss_execution_trail_hash :=
      if str_is_empty (ssp_execution_trail_hash p) then None
      else Some (ssp_execution_trail_hash p);
    ss_executed_op_ids := executed;
    ss_sc_event_count := ssp_sc_event_count p;
    ss_completeness := completeness_from_pb (ssp_completeness p);
    ss_first_seen_ts_ms := ssp_first_seen_ts_ms p;
    ss_last_updated_ts_ms := ssp_last_updated_ts_ms p;
  |}.
Definition decode_slot_state (b : bytes) : result CodecError SlotState :=
  p ← ok_or CodecDecode (prost_decode b); slot_state_from_pb p.

(** ** MetaRow and bare slots *)
Definition encode_meta_row (m : MetaRow) : bytes :=
  encode_to_vec {|
    mp_network := mr_network m;
    mp_genesis_timestamp_ms := mr_genesis_timestamp_ms m;
    mp_t0_ms := mr_t0_ms m;
    mp_thread_count := mr_thread_count m;
    mp_last_final_slot := slot_to_pb <$> mr_last_final_slot m;
    mp_has_last_final_slot := is_some (mr_last_final_slot m);
    mp_last_candidate_slot := slot_to_pb <$> mr_last_candidate_slot m;
    mp_has_last_candidate_slot := is_some (mr_last_candidate_slot m);
    mp_build_version := mr_build_version m;
    mp_created_at_ms := mr_created_at_ms m;
    mp_updated_at_ms := mr_updated_at_ms m;
  |}.
Definition decode_meta_row (b : bytes) : result CodecError MetaRow :=
  p ← ok_or CodecDecode (prost_decode (M := MetaRowPb) b);
  thread_count ← ok_or (err "thread_count > 255") (u8_try_from (mp_thread_count p));
  lf ← some_if (mp_has_last_final_slot p) (slot_from_opt (mp_last_final_slot p));
  lc ← some_if (mp_has_last_candidate_slot p) (slot_from_opt (mp_last_candidate_slot p));
  Ok (mkMetaRow (mp_network p) (mp_genesis_timestamp_ms p) (mp_t0_ms p) thread_count
        lf lc (mp_build_version p) (mp_created_at_ms p) (mp_updated_at_ms p)).

Definition encode_slot (s : Slot) : bytes := encode_to_vec (slot_to_pb s).
Definition decode_slot (b : bytes) : result CodecError Slot :=
  p ← ok_or CodecDecode (prost_decode b); slot_from_pb p.

(** ** Endorsements *)
Definition endorsement_to_pb (e : StoredEndorsement) : result CodecError StoredEndorsementPb :=
  id ← map_err err (EndorsementId_parse (en_id e));
  endorsed ← map_err err (BlockId_parse (en_endorsed_block_id e));
  included ← map_err err (BlockId_parse (en_included_block_id e));
  Ok {|
    ep_id_key := endo_id_to_key id;
    ep_slot := Some (slot_to_pb (en_slot e));
    ep_index := en_index e;
    ep_endorsed_block_id_key := block_id_to_key endorsed;
    ep_content_creator_pub_key := en_content_creator_pub_key e;
    ep_content_creator_address_key := addr_to_key (en_content_creator_address e);
    ep_signature := en_signature e;
    ep_serialized_size := en_serialized_size e;
    ep_included_block_id_key := block_id_to_key included;
    ep_included_slot := Some (slot_to_pb (en_included_slot e));
    ep_first_seen_ts_ms := en_first_seen_ts_ms e;
  |}.
Definition endorsement_from_pb (p : StoredEndorsementPb) : result CodecError StoredEndorsement :=
  id ← endo_id_from_key (ep_id_key p);
  slot ← slot_from_opt (ep_slot p);
  endorsed ← block_id_from_key (ep_endorsed_block_id_key p);
  creator ← addr_from_key (ep_content_creator_address_key p);
  included ← block_id_from_key (ep_included_block_id_key p);
  included_slot ← slot_from_opt (ep_included_slot p);
  Ok (mkEndorsement (id_to_string id) slot (ep_index p) (id_to_string endorsed)
        (ep_content_creator_pub_key p) creator (ep_signature p) (ep_serialized_size p)
        (id_to_string included) included_slot (ep_first_seen_ts_ms p)).
Definition encode_endorsement (e : StoredEndorsement) : result CodecError bytes :=
  p ← endorsement_to_pb e; Ok (encode_to_vec p).
Definition decode_endorsement (b : bytes) : result CodecError StoredEndorsement :=
  p ← ok_or CodecDecode (prost_decode b); endorsement_from_pb p.

(** ** Denunciations *)
Definition denunciation_to_pb (d : StoredDenunciation) : StoredDenunciationPb :=
  mkStoredDenunciationPb (Some (
    match d with
    | DenBlockHeader pk slot h1 h2 s1 s2 =>
        KindBlockHeader (mkDenunciationBlockHeaderPb pk (Some (slot_to_pb slot)) h1 h2 s1 s2)
    | DenEndorsement pk slot index h1 h2 s1 s2 =>
        KindEndorsement
          (mkDenunciationEndorsementPb pk (Some (slot_to_pb slot)) index h1 h2 s1 s2)
    | DenAddress a slot slashed =>
        KindAddress (mkDenunciationAddressPb a (Some (slot_to_pb slot)) slashed)
    | DenUnknown => KindUnknown
    end)).
Definition denunciation_from_pb (p : StoredDenunciationPb) : result CodecError StoredDenunciation :=
  match dp_kind p with
  | Some (KindBlockHeader x) =>
      slot ← slot_from_opt (dbp_slot x);
      Ok (DenBlockHeader (dbp_public_key x) slot (dbp_hash_1 x) (dbp_hash_2 x)
            (dbp_signature_1 x) (dbp_signature_2 x))
  | Some (KindEndorsement x) =>
      slot ← slot_from_opt (dep_slot x);
      Ok (DenEndorsement (dep_public_key x) slot (dep_index x) (dep_hash_1 x) (dep_hash_2 x)
            (dep_signature_1 x) (dep_signature_2 x))
  | Some (KindAddress x) =>
      slot ← slot_from_opt (dap_slot x);
      Ok (DenAddress (dap_address_denounced x) slot (dap_slashed_nmas x))
  | Some KindUnknown | None => Ok DenUnknown
  end.

Definition encode_denunciation_entry (d : StoredDenunciationEntry) : result CodecError bytes :=
  hash ← ok_or (err "hex hash") (hex_crate_decode (de_hash d));
  Ok (encode_to_vec {|
    dnp_hash := hash;
    dnp_slot := Some (slot_to_pb (de_slot d));
    dnp_kind := de_kind d;
    dnp_denounced_addr_key := default [] (addr_to_key <$> de_denounced_addr d);
    dnp_has_denounced_addr := is_some (de_denounced_addr d);
    dnp_denunciation := Some (denunciation_to_pb (de_denunciation d));
    dnp_included_block_id_key := default [] (block_id_to_key <$> de_included_block_id d);
    dnp_has_included_block_id := is_some (de_included_block_id d);
    dnp_included_slot := slot_to_pb <$> de_included_slot d;
    dnp_has_included_slot := is_some (de_included_slot d);
    dnp_first_seen_ts_ms := de_first_seen_ts_ms d;
  |}).
Definition decode_denunciation_entry (b : bytes) : result CodecError StoredDenunciationEntry :=
  p ← ok_or CodecDecode (prost_decode (M := StoredDenunciationEntryPb) b);
  slot ← slot_from_opt (dnp_slot p);
  addr ← some_if (dnp_has_denounced_addr p) (addr_from_key (dnp_denounced_addr_key p));
  dpb ← ok_or (err "missing denunciation payload") (dnp_denunciation p);
  den ← denunciation_from_pb dpb;
  bid ← some_if (dnp_has_included_block_id p) (block_id_from_key (dnp_included_block_id_key p));
  islot ← some_if (dnp_has_included_slot p) (slot_from_opt (dnp_included_slot p));
  Ok (mkDenunciationEntry (hex_crate_encode (dnp_hash p)) slot (dnp_kind p) addr den bid islot
        (dnp_first_seen_ts_ms p)).

(** ** Blocks *)
Definition b64_field_decode (what s : string) : result CodecError bytes :=
  if str_is_empty s then Ok [] else ok_or (err what) (b64_decode s).
Definition b64_field_encode (b : bytes) : string :=
  if bool_decide (b = []) then "" else b64_encode b.

Definition block_to_peer_pb (b : StoredBlock) : result CodecError StoredBlockPb :=
  endorsements ← try_map endorsement_to_pb (bl_endorsements b);
  raw ← b64_field_decode "raw_signed_header b64" (bl_raw_signed_header_b64 b);
  Ok {|
    bp_id_key := block_id_to_key (bl_id b);
    bp_slot := Some (slot_to_pb (bl_slot b));
    bp_creator_key := addr_to_key (bl_creator b);
    bp_parent_keys := block_id_to_key <$> bl_parents b;
    bp_operation_id_keys := op_id_to_key <$> bl_operation_ids b;
    bp_endorsements := endorsements;
    bp_endorsement_ids := bl_endorsement_ids b;
    bp_denunciations := denunciation_to_pb <$> bl_denunciations b;
    bp_current_version := bl_current_version b;
    bp_announced_version := default 0%Z (bl_announced_version b);
    bp_has_announced_version := is_some (bl_announced_version b);
    bp_operations_hash := bl_operations_hash b;
    bp_signature := bl_signature b;
    bp_content_creator_pub_key := bl_content_creator_pub_key b;
    bp_serialized_size := bl_serialized_size b;
    bp_raw_signed_header := raw;
    bp_status := block_status_to_pb (bl_status b);
    bp_first_seen_ts_ms := bl_first_seen_ts_ms b;
  |}.
Definition block_from_peer_pb (p : StoredBlockPb) : result CodecError StoredBlock :=
  id ← block_id_from_key (bp_id_key p);
  slot ← slot_from_opt (bp_slot p);
  creator ← addr_from_key (bp_creator_key p);
  parents ← try_map block_id_from_key (bp_parent_keys p);
  ops ← try_map op_id_from_key (bp_operation_id_keys p);
  endorsements ← try_map endorsement_from_pb (bp_endorsements p);
  denunciations ← try_map denunciation_from_pb (bp_denunciations p);
  Ok (mkBlock id slot creator parents ops endorsements (bp_endorsement_ids p) denunciations
        (bp_current_version p) (then_some (bp_has_announced_version p) (bp_announced_version p))
        (bp_operations_hash p) (bp_signature p) (bp_content_creator_pub_key p)
        (bp_serialized_size p) (b64_field_encode (bp_raw_signed_header p))
        (block_status_from_pb (bp_status p)) (bp_first_seen_ts_ms p)).
Definition encode_block (b : StoredBlock) : result CodecError bytes :=
  p ← block_to_peer_pb b; Ok (encode_to_vec p).
Definition decode_block (b : bytes) : result CodecError StoredBlock :=
  p ← ok_or CodecDecode (prost_decode b); block_from_peer_pb p.

(** ** Operations *)
Definition op_kind_to_pb (k : OperationKind) : Z :=
  OperationKindPb_i32
    match k with
    | OpTransaction => OpKindTransaction | OpRollBuyKind => OpKindRollBuy
    | OpRollSellKind => OpKindRollSell | OpExecuteSc => OpKindExecuteSc
    | OpCallSc => OpKindCallSc | OpUnknown => OpKindUnknown
    end.
Definition op_kind_from_pb (i : Z) : OperationKind :=
  match default OpKindUnknown (OperationKindPb_try_from i) with
  | OpKindTransaction => OpTransaction | OpKindRollBuy => OpRollBuyKind
  | OpKindRollSell => OpRollSellKind | OpKindExecuteSc => OpExecuteSc
  | OpKindCallSc => OpCallSc | OpKindUnknown => OpUnknown
  end.

Definition details_to_pb (d : OperationDetails) : OperationDetailsPb := {|
  odp_amount_nmas := default 0%Z (od_amount_nmas d);
  odp_has_amount_nmas := is_some (od_amount_nmas d);
  odp_recipient_address := default "" (od_recipient_address d);
  odp_has_recipient_address := is_some (od_recipient_address d);
  odp_roll_count := default 0%Z (od_roll_count d);
  odp_has_roll_count := is_some (od_roll_count d);
  odp_target_address := default "" (od_target_address d);
  odp_has_target_address := is_some (od_target_address d);
  odp_target_function := default "" (od_target_function d);
  odp_has_target_function := is_some (od_target_function d);
  odp_parameter_hex := default "" (od_parameter_hex d);
  odp_has_parameter_hex := is_some (od_parameter_hex d);
  odp_parameter_len := default 0%Z (od_parameter_len d);
  odp_has_parameter_len := is_some (od_parameter_len d);
  odp_coins_nmas := default 0%Z (od_coins_nmas d);
  odp_has_coins_nmas := is_some (od_coins_nmas d);
  odp_max_gas := default 0%Z (od_max_gas d);
  odp_has_max_gas := is_some (od_max_gas d);
  odp_bytecode_hex := default "" (od_bytecode_hex d);
  odp_has_bytecode_hex := is_some (od_bytecode_hex d);
  odp_bytecode_size := default 0%Z (od_bytecode_size d);
  odp_has_bytecode_size := is_some (od_bytecode_size d);
  odp_max_coins_nmas := default 0%Z (od_max_coins_nmas d);
  odp_has_max_coins_nmas := is_some (od_max_coins_nmas d);
  odp_datastore :=
    (fun de => mkDatastoreEntryPb (ds_key_hex de) (ds_value_hex de)) <$> od_datastore d;
  odp_datastore_keys := default 0%Z (od_datastore_keys d);
  odp_has_datastore_keys := is_some (od_datastore_keys d);
|}.
Definition details_from_pb (p : OperationDetailsPb) : OperationDetails := {|
  od_amount_nmas := then_some (odp_has_amount_nmas p) (odp_amount_nmas p);
  od_recipient_address := then_some (odp_has_recipient_address p) (odp_recipient_address p);
  od_roll_count := then_some (odp_has_roll_count p) (odp_roll_count p);
  od_target_address := then_some (odp_has_target_address p) (odp_target_address p);
  od_target_function := then_some (odp_has_target_function p) (odp_target_function p);
  od_parameter_hex := then_some (odp_has_parameter_hex p) (odp_parameter_hex p);
  od_parameter_len := then_some (odp_has_parameter_len p) (odp_parameter_len p);
  od_coins_nmas := then_some (odp_has_coins_nmas p) (odp_coins_nmas p);
  od_max_gas := then_some (odp_has_max_gas p) (odp_max_gas p);
  od_bytecode_hex := then_some (odp_has_bytecode_hex p) (odp_bytecode_hex p);
  od_bytecode_size := then_some (odp_has_bytecode_size p) (odp_bytecode_size p);
  od_max_coins_nmas := then_some (odp_has_max_coins_nmas p) (odp_max_coins_nmas p);
  od_datastore :=
    (fun e => mkDatastoreEntry (dsp_key_hex e) (dsp_value_hex e)) <$> odp_datastore p;
  od_datastore_keys := then_some (odp_has_datastore_keys p) (odp_datastore_keys p);
|}.

Definition inclusion_to_pb (i : OperationInclusion) : OperationInclusionPb :=
  mkOperationInclusionPb (Some (slot_to_pb (inc_slot i))) (block_id_to_key (inc_block_id i)).
Definition inclusion_from_pb (i : OperationInclusionPb) : result CodecError OperationInclusion :=
  slot ← slot_from_opt (ip_slot i);
  bid ← block_id_from_key (ip_block_id_key i);
  Ok (mkInclusion slot bid).

Definition operation_to_pb (o : StoredOperation) : result CodecError StoredOperationPb :=
  raw ← b64_field_decode "raw_signed_op b64" (op_raw_signed_op_b64 o);
  Ok {|
    opp_id_key := op_id_to_key (op_id o);
    opp_creator_key := addr_to_key (op_creator o);
    opp_target_key := default [] (addr_to_key <$> op_target o);
    opp_has_target := is_some (op_target o);
    opp_kind := op_kind_to_pb (op_kind o);
    opp_expire_period := op_expire_period o;
    opp_fee_nmas := op_fee_nmas o;
    opp_thread := op_thread o;
    opp_inclusions := inclusion_to_pb <$> op_inclusions o;
    opp_candidate_exec_status :=
      default 0%Z (exec_status_to_pb <$> op_candidate_exec_status o);
    opp_has_candidate_exec_status := is_some (op_candidate_exec_status o);
    opp_final_exec_status := default 0%Z (exec_status_to_pb <$> op_final_exec_status o);
    opp_has_final_exec_status := is_some (op_final_exec_status o);
    opp_details := Some (details_to_pb (op_details o));
    opp_signature := op_signature o;
    opp_content_creator_pub_key := op_content_creator_pub_key o;
    opp_serialized_size := op_serialized_size o;
    opp_raw_signed_op := raw;
    opp_first_seen_ts_ms := op_first_seen_ts_ms o;
  |}.
Definition encode_operation (o : StoredOperation) : result CodecError bytes :=
  p ← operation_to_pb o; Ok (encode_to_vec p).

Definition operation_from_pb (p : StoredOperationPb) : result CodecError StoredOperation :=
  id ← op_id_from_key (opp_id_key p);
  creator ← addr_from_key (opp_creator_key p);
  target ← some_if (opp_has_target p) (addr_from_key (opp_target_key p));
  thread ← ok_or (err "thread > 255") (u8_try_from (opp_thread p));
  inclusions ← try_map inclusion_from_pb (opp_inclusions p);
  Ok {|
    op_id := id; op_creator := creator; op_target := target;
    op_kind := op_kind_from_pb (opp_kind p);
    op_expire_period := opp_expire_period p;
    op_fee_nmas := opp_fee_nmas p;
    op_thread := thread;
    op_inclusions := inclusions;
    op_candidate_exec_status :=
      if opp_has_candidate_exec_status p
      then exec_status_from_pb (opp_candidate_exec_status p) else None;
    op_final_exec_status :=
      if opp_has_final_exec_status p
      then exec_status_from_pb (opp_final_exec_status p) else None;
    op_details := details_from_pb (default OperationDetailsPb_default (opp_details p));
    op_signature := opp_signature p;
    op_content_creator_pub_key := opp_content_creator_pub_key p;
    op_serialized_size := opp_serialized_size p;
    op_raw_signed_op_b64 := b64_field_encode (opp_raw_signed_op p);
    op_first_seen_ts_ms := opp_first_seen_ts_ms p;
  |}.
Definition decode_operation (b : bytes) : result CodecError StoredOperation :=
  p ← ok_or CodecDecode (prost_decode b); operation_from_pb p.

(** ** SC events *)
Definition sc_event_to_pb (e : StoredScEvent) : StoredScEventPb :=
  mkStoredScEventPb (Some (slot_to_pb (ev_slot e))) (ev_index_in_slot e) (ev_data e)
    (addr_to_key <$> ev_emitter_addrs e) (addr_to_key <$> ev_caller_addrs e)
    (slot_status_to_pb (ev_status e)) (default [] (op_id_to_key <$> ev_op_id e))
    (is_some (ev_op_id e)).
Definition encode_sc_event (e : StoredScEvent) : result CodecError bytes :=
  Ok (encode_to_vec (sc_event_to_pb e)).
Definition decode_sc_event (b : bytes) : result CodecError StoredScEvent :=
  p ← ok_or CodecDecode (prost_decode (M := StoredScEventPb) b);
  slot ← slot_from_opt (evp_slot p);
  emitters ← try_map addr_from_key (evp_emitter_addr_keys p);
  callers ← try_map addr_from_key (evp_caller_addr_keys p);
  op_id ← some_if (evp_has_op_id p) (op_id_from_key (evp_op_id_key p));
  Ok (mkScEvent slot (evp_index_in_slot p) (evp_data p) emitters callers
        (slot_status_from_pb (evp_status p)) op_id).

(** ** Transfers *)
Definition transfer_value_to_pb (v : TransferValue) : TransferValuePb :=
  mkTransferValuePb (Some
    match v with
    | TVCoins nmas => ValueCoins nmas
    | TVRolls count => ValueRolls count
    | TVDeferredCredits nmas => ValueDeferredCredits nmas
    | TVUnknown => ValueUnknown
    end).
Definition transfer_value_from_pb (p : TransferValuePb) : TransferValue :=
  match tvp_value p with
  | Some (ValueCoins nmas) => TVCoins nmas
  | Some (ValueRolls count) => TVRolls count
  | Some (ValueDeferredCredits nmas) => TVDeferredCredits nmas
  | Some ValueUnknown | None => TVUnknown
  end.

(** The wire number of an origin; [Other] is sent as UNSPECIFIED. *)
Definition coin_origin_kind (o : CoinOrigin) : Z :=
  match o with
  | Unspecified => 0 | BlockReward => 1 | DeferredCallFail => 2 | DeferredCallCancel => 3
  | DeferredCallCoins => 4 | DeferredCallRegister => 5 | DeferredCallStorageRefund => 6
  | EndorsementReward => 7 | EndorsedReward => 8 | Slash => 9 | OpRollBuy => 10
  | OpRollSell => 11 | OpCallscCoins => 12 | ReadOnlyFnCallFees => 13
  | ReadOnlyFnCallCoins => 14 | ReadOnlyBytecodeExecFees => 15 | SetBytecodeStorage => 16
  | AbiCallCoins => 17 | AbiTransferCoins => 18 | AbiTransferForCoins => 19
  | AbiSendMsgCoins => 20 | AbiSendMsgFees => 21 | OpRollSellDeferredMas => 22
  | OpExecutescFees => 23 | OpTransactionCoins => 24 | OpTransactionFees => 25
  | AsyncMsgCoins => 26 | AsyncMsgCancel => 27 | CreateScStorage => 28
  | DatastoreStorage => 29 | DeferredCredit => 30
  | OtherOrigin _ => 0
  end%Z.
Definition coin_origin_of_kind (k : Z) : CoinOrigin :=
  match k with
  | 0 => Unspecified | 1 => BlockReward | 2 => DeferredCallFail | 3 => DeferredCallCancel
  | 4 => DeferredCallCoins | 5 => DeferredCallRegister | 6 => DeferredCallStorageRefund
  | 7 => EndorsementReward | 8 => EndorsedReward | 9 => Slash | 10 => OpRollBuy
  | 11 => OpRollSell | 12 => OpCallscCoins | 13 => ReadOnlyFnCallFees
  | 14 => ReadOnlyFnCallCoins | 15 => ReadOnlyBytecodeExecFees | 16 => SetBytecodeStorage
  | 17 => AbiCallCoins | 18 => AbiTransferCoins | 19 => AbiTransferForCoins
  | 20 => AbiSendMsgCoins | 21 => AbiSendMsgFees | 22 => OpRollSellDeferredMas
  | 23 => OpExecutescFees | 24 => OpTransactionCoins | 25 => OpTransactionFees
  | 26 => AsyncMsgCoins | 27 => AsyncMsgCancel | 28 => CreateScStorage
  | 29 => DatastoreStorage | 30 => DeferredCredit
  | _ => Unspecified
  end%Z.
Definition coin_origin_to_pb (o : CoinOrigin) : CoinOriginPb :=
  mkCoinOriginPb (coin_origin_kind o)
    match o with OtherOrigin code => code | _ => 0%Z end.
Definition coin_origin_from_pb (p : CoinOriginPb) : CoinOrigin :=
  let k := coin_origin_of_kind (cop_kind p) in
  if bool_decide (k = Unspecified) && negb (Z.eqb (cop_other_code p) 0)
  then OtherOrigin (cop_other_code p) else k.

Definition transfer_to_pb (t : StoredTransfer) : StoredTransferPb := {|
  tp_slot := Some (slot_to_pb (tr_slot t));
  tp_index_in_slot := tr_index_in_slot t;
  tp_id := tr_id t;
  tp_block_id := default "" (tr_block_id t);
  tp_has_block_id := is_some (tr_block_id t);
  tp_block_timestamp_ms := tr_block_timestamp_ms t;
  tp_from := default "" (tr_from t);
  tp_has_from := is_some (tr_from t);
  tp_to := default "" (tr_to t);
  tp_has_to := is_some (tr_to t);
  tp_value := Some (transfer_value_to_pb (tr_value t));
  tp_origin := Some (coin_origin_to_pb (tr_origin t));
  tp_operation_id := default "" (tr_operation_id t);
  tp_has_operation_id := is_some (tr_operation_id t);
  tp_async_msg_id := default "" (tr_async_msg_id t);
  tp_has_async_msg_id := is_some (tr_async_msg_id t);
  tp_deferred_call_id := default "" (tr_deferred_call_id t);
  tp_has_deferred_call_id := is_some (tr_deferred_call_id t);
  tp_denunciation_index := default "" (tr_denunciation_index t);
  tp_has_denunciation_index := is_some (tr_denunciation_index t);
  tp_is_final := tr_is_final t;
  tp_first_seen_ts_ms := tr_first_seen_ts_ms t;
|}.
Definition encode_transfer (t : StoredTransfer) : bytes := encode_to_vec (transfer_to_pb t).
Definition decode_transfer (b : bytes) : result CodecError StoredTransfer :=
  p ← ok_or CodecDecode (prost_decode (M := StoredTransferPb) b);
  slot ← slot_from_opt (tp_slot p);
  Ok {|
    tr_slot := slot; tr_index_in_slot := tp_index_in_slot p; tr_id := tp_id p;
    tr_block_id := then_some (tp_has_block_id p) (tp_block_id p);
    tr_block_timestamp_ms := tp_block_timestamp_ms p;
    tr_from := then_some (tp_has_from p) (tp_from p);
    tr_to := then_some (tp_has_to p) (tp_to p);
    tr_value := transfer_value_from_pb (default TransferValuePb_default (tp_value p));
    tr_origin := coin_origin_from_pb (default CoinOriginPb_default (tp_origin p));
    tr_operation_id := then_some (tp_has_operation_id p) (tp_operation_id p);
    tr_async_msg_id := then_some (tp_has_async_msg_id p) (tp_async_msg_id p);
    tr_deferred_call_id := then_some (tp_has_deferred_call_id p) (tp_deferred_call_id p);
    tr_denunciation_index := then_some (tp_has_denunciation_index p) (tp_denunciation_index p);
    tr_is_final := tp_is_final p;
    tr_first_seen_ts_ms := tp_first_seen_ts_ms p;
  |}.

(** ** Async messages and deferred calls *)
Definition async_state_to_pb (s : AsyncMsgState) : Z :=
  AsyncMsgStatePb_i32
    match s with
    | AmPending => AmStatePendingPb | AmExecuted => AmStateExecutedPb
    | AmCancelled => AmStateCancelledPb | AmConsumed => AmStateConsumedPb
    end.
Definition async_state_from_pb (i : Z) : AsyncMsgState :=
  match AsyncMsgStatePb_try_from i with
  | Some AmStatePendingPb => AmPending | Some AmStateExecutedPb => AmExecuted
  | Some AmStateCancelledPb => AmCancelled | Some AmStateConsumedPb => AmConsumed
  | None => AmPending
  end.
Definition deferred_state_to_pb (s : DeferredCallState) : Z :=
  DeferredCallStatePb_i32
    match s with
    | DcRegistered => DcStateRegisteredPb | DcExecuted => DcStateExecutedPb
    | DcFailed => DcStateFailedPb | DcCancelled => DcStateCancelledPb
    end.
Definition deferred_state_from_pb (i : Z) : DeferredCallState :=
  match DeferredCallStatePb_try_from i with
  | Some DcStateRegisteredPb => DcRegistered | Some DcStateExecutedPb => DcExecuted
  | Some DcStateFailedPb => DcFailed | Some DcStateCancelledPb => DcCancelled
  | None => DcRegistered
  end.
Definition trigger_to_pb (t : AsyncTrigger) : AsyncTriggerPb :=
  mkAsyncTriggerPb (at_address t) (default "" (at_datastore_key_hex t))
    (is_some (at_datastore_key_hex t)).
Definition trigger_from_pb (p : AsyncTriggerPb) : AsyncTrigger :=
  mkTrigger (atp_address p) (then_some (atp_has_datastore_key p) (atp_datastore_key_hex p)).

Definition async_msg_to_pb (m : StoredAsyncMsg) : StoredAsyncMsgPb := {|
  amp_id := am_id m;
  amp_sender_key := default [] (addr_to_key <$> am_sender m);
  amp_has_sender := is_some (am_sender m);
  amp_destination_key := default [] (addr_to_key <$> am_destination m);
  amp_has_destination := is_some (am_destination m);
  amp_handler := default "" (am_handler m);
  amp_has_handler := is_some (am_handler m);
  amp_coins_nmas := am_coins_nmas m;
  amp_max_gas := am_max_gas m;
  amp_fee_nmas := am_fee_nmas m;
  amp_emission_slot := slot_to_pb <$> am_emission_slot m;
  amp_has_emission_slot := is_some (am_emission_slot m);
  amp_validity_start := slot_to_pb <$> am_validity_start m;
  amp_has_validity_start := is_some (am_validity_start m);
  amp_validity_end := slot_to_pb <$> am_validity_end m;
  amp_has_validity_end := is_some (am_validity_end m);
  amp_state := async_state_to_pb (am_state m);
  amp_last_slot := slot_to_pb <$> am_last_slot m;
  amp_has_last_slot := is_some (am_last_slot m);
  amp_data_hex := default "" (am_data_hex m);
  amp_has_data := is_some (am_data_hex m);
  amp_trigger := trigger_to_pb <$> am_trigger m;
  amp_has_trigger := is_some (am_trigger m);
  amp_can_be_executed := am_can_be_executed m;
  amp_first_seen_ts_ms := am_first_seen_ts_ms m;
  amp_last_updated_ts_ms := am_last_updated_ts_ms m;
|}.
Definition encode_async_msg (m : StoredAsyncMsg) : bytes := encode_to_vec (async_msg_to_pb m).
Definition decode_async_msg (b : bytes) : result CodecError StoredAsyncMsg :=
  p ← ok_or CodecDecode (prost_decode (M := StoredAsyncMsgPb) b);
  sender ← some_if (amp_has_sender p) (addr_from_key (amp_sender_key p));
  destination ← some_if (amp_has_destination p) (addr_from_key (amp_destination_key p));
  emission ← some_if (amp_has_emission_slot p) (slot_from_opt (amp_emission_slot p));
  vstart ← some_if (amp_has_validity_start p) (slot_from_opt (amp_validity_start p));
  vend ← some_if (amp_has_validity_end p) (slot_from_opt (amp_validity_end p));
  last ← some_if (amp_has_last_slot p) (slot_from_opt (amp_last_slot p));
  Ok {|
    am_id := amp_id p; am_sender := sender; am_destination := destination;
    am_handler := then_some (amp_has_handler p) (amp_handler p);
    am_coins_nmas := amp_coins_nmas p; am_max_gas := amp_max_gas p;
    am_fee_nmas := amp_fee_nmas p;
    am_emission_slot := emission; am_validity_start := vstart; am_validity_end := vend;
    am_state := async_state_from_pb (amp_state p);
    am_last_slot := last;
    am_data_hex := then_some (amp_has_data p) (amp_data_hex p);
    am_trigger :=
      then_some (amp_has_trigger p)
        (default AsyncTrigger_default (trigger_from_pb <$> amp_trigger p));
    am_can_be_executed := amp_can_be_executed p;
    am_first_seen_ts_ms := amp_first_seen_ts_ms p;
    am_last_updated_ts_ms := amp_last_updated_ts_ms p;
  |}.

Definition deferred_call_to_pb (d : StoredDeferredCall) : StoredDeferredCallPb := {|
  dcp_id := dc_id d;
  dcp_sender_key := default [] (addr_to_key <$> dc_sender d);
  dcp_has_sender := is_some (dc_sender d);
  dcp_target_address_key := default [] (addr_to_key <$> dc_target_address d);
  dcp_has_target_address := is_some (dc_target_address d);
  dcp_target_function := default "" (dc_target_function d);
  dcp_has_target_function := is_some (dc_target_function d);
  dcp_parameter_hex := default "" (dc_parameter_hex d);
  dcp_has_parameter_hex := is_some (dc_parameter_hex d);
  dcp_coins_nmas := dc_coins_nmas d;
  dcp_max_gas := dc_max_gas d;
  dcp_target_slot := slot_to_pb <$> dc_target_slot d;
  dcp_has_target_slot := is_some (dc_target_slot d);
  dcp_registered_slot := slot_to_pb <$> dc_registered_slot d;
  dcp_has_registered_slot := is_some (dc_registered_slot d);
  dcp_state := deferred_state_to_pb (dc_state d);
  dcp_last_slot := slot_to_pb <$> dc_last_slot d;
  dcp_has_last_slot := is_some (dc_last_slot d);
  dcp_first_seen_ts_ms := dc_first_seen_ts_ms d;
  dcp_last_updated_ts_ms := dc_last_updated_ts_ms d;
|}.
Definition encode_deferred_call (d : StoredDeferredCall) : bytes :=
  encode_to_vec (deferred_call_to_pb d).
Definition decode_deferred_call (b : bytes) : result CodecError StoredDeferredCall :=
  p ← ok_or CodecDecode (prost_decode (M := StoredDeferredCallPb) b);
  sender ← some_if (dcp_has_sender p) (addr_from_key (dcp_sender_key p));
  target ← some_if (dcp_has_target_address p) (addr_from_key (dcp_target_address_key p));
  tslot ← some_if (dcp_has_target_slot p) (slot_from_opt (dcp_target_slot p));
  rslot ← some_if (dcp_has_registered_slot p) (slot_from_opt (dcp_registered_slot p));
  last ← some_if (dcp_has_last_slot p) (slot_from_opt (dcp_last_slot p));
  Ok {|
    dc_id := dcp_id p; dc_sender := sender; dc_target_address := target;
    dc_target_function := then_some (dcp_has_target_function p) (dcp_target_function p);
    dc_parameter_hex := then_some (dcp_has_parameter_hex p) (dcp_parameter_hex p);
    dc_coins_nmas := dcp_coins_nmas p; dc_max_gas := dcp_max_gas p;
    dc_target_slot := tslot; dc_registered_slot := rslot;
    dc_state := deferred_state_from_pb (dcp_state p);
    dc_last_slot := last;
    dc_first_seen_ts_ms := dcp_first_seen_ts_ms p;
    dc_last_updated_ts_ms := dcp_last_updated_ts_ms p;
  |}.

(** ** Peer conversions: through the stored bytes, as the source does *)
Definition operation_to_peer_pb (o : StoredOperation) : result CodecError StoredOperationPb :=
  b ← encode_operation o; ok_or CodecDecode (prost_decode b).
Definition operation_from_peer_pb (p : StoredOperationPb) : result CodecError StoredOperation :=
  decode_operation (encode_to_vec p).
Definition endorsement_to_peer_pb (e : StoredEndorsement) := endorsement_to_pb e.
Definition endorsement_from_peer_pb (p : StoredEndorsementPb) := endorsement_from_pb p.
Definition sc_event_to_peer_pb (e : StoredScEvent) : result CodecError StoredScEventPb :=
  b ← encode_sc_event e; ok_or CodecDecode (prost_decode b).
Definition sc_event_from_peer_pb (p : StoredScEventPb) : result CodecError StoredScEvent :=
  decode_sc_event (encode_to_vec p).
(** [None] is the [expect] panic. *)
Definition transfer_to_peer_pb (t : StoredTransfer) : option StoredTransferPb :=
  prost_decode (encode_transfer t).
Definition transfer_from_peer_pb (p : StoredTransferPb) : result CodecError StoredTransfer :=
  decode_transfer (encode_to_vec p).
Definition async_msg_to_peer_pb (m : StoredAsyncMsg) : option StoredAsyncMsgPb :=
  prost_decode (encode_async_msg m).
Definition async_msg_from_peer_pb (p : StoredAsyncMsgPb) : result CodecError StoredAsyncMsg :=
  decode_async_msg (encode_to_vec p).
Definition deferred_call_to_peer_pb (d : StoredDeferredCall) : option StoredDeferredCallPb :=
  prost_decode (encode_deferred_call d).
Definition deferred_call_from_peer_pb (p : StoredDeferredCallPb)
  : result CodecError StoredDeferredCall := decode_deferred_call (encode_to_vec p).
End codec.
