(* ===== verification/CodecLemmas.v ===== *)
(** * Round trips of the value codec

    Every [decode_x] is a left inverse of [encode_x] on well-formed rows, and
    the decoders' handling of unknown enum numbers. *)

From S2P Require Import Prelude Ids Model Proto Codec.

Lemma then_some_default {A} (d : A) (o : option A) : then_some (is_some o) (default d o) = o.
Proof. by destruct o. Qed.

Lemma slot_status_roundtrip s : slot_status_from_pb (slot_status_to_pb s) = s.
Proof. by destruct s. Qed.
Lemma exec_status_roundtrip s : exec_status_from_pb (exec_status_to_pb s) = Some s.
Proof. by destruct s. Qed.
Lemma opt_exec_status_roundtrip (o : option ExecStatus) :
  (if is_some o then exec_status_from_pb (default 0%Z (exec_status_to_pb <$> o)) else None) = o.
Proof. by destruct o as [[]|]. Qed.
Lemma block_status_roundtrip s : block_status_from_pb (block_status_to_pb s) = s.
Proof. by destruct s. Qed.
Lemma op_kind_roundtrip k : op_kind_from_pb (op_kind_to_pb k) = k.
Proof. by destruct k. Qed.
Lemma completeness_roundtrip c : completeness_from_pb (Some (completeness_to_pb c)) = c.
Proof. by destruct c. Qed.
Lemma async_state_roundtrip s : async_state_from_pb (async_state_to_pb s) = s.
Proof. by destruct s. Qed.
Lemma deferred_state_roundtrip s : deferred_state_from_pb (deferred_state_to_pb s) = s.
Proof. by destruct s. Qed.
Lemma transfer_value_roundtrip v : transfer_value_from_pb (transfer_value_to_pb v) = v.
Proof. by destruct v. Qed.
Lemma trigger_roundtrip t : trigger_from_pb (trigger_to_pb t) = t.
Proof. destruct t; unfold trigger_from_pb; simpl. by rewrite then_some_default. Qed.
Lemma opt_trigger_roundtrip (o : option AsyncTrigger) :
  then_some (is_some o)
    (default AsyncTrigger_default (trigger_from_pb <$> (trigger_to_pb <$> o))) = o.
Proof. destruct o; simpl; [by rewrite trigger_roundtrip | done]. Qed.

Lemma coin_origin_roundtrip o :
  o <> OtherOrigin 0 -> coin_origin_from_pb (coin_origin_to_pb o) = o.
Proof.
  destruct o; try reflexivity. intros H.
  unfold coin_origin_from_pb; simpl. destruct (Z.eqb_spec code 0) as [->|]; done.
Qed.

Lemma details_roundtrip d : details_from_pb (details_to_pb d) = d.
Proof.
  destruct d; unfold details_from_pb; simpl. rewrite !then_some_default.
  f_equal. rewrite <- list_fmap_compose. rewrite <- (list_fmap_id od_datastore) at 2.
  apply list_fmap_ext. by intros ? [].
Qed.

Lemma slot_from_to_pb s : Slot_wf s -> slot_from_opt (Some (slot_to_pb s)) = Ok s.
Proof.
  intros H. destruct s. unfold slot_from_opt, slot_from_pb; simpl.
  by rewrite u8_try_from_ok.
Qed.

Lemma opt_slot_roundtrip (o : option Slot) :
  opt_wf Slot_wf o -> some_if (is_some o) (slot_from_opt (slot_to_pb <$> o)) = Ok o.
Proof. destruct o; simpl; [|done]. intros H. by rewrite slot_from_to_pb. Qed.

Lemma bool_decide_nil {A} `{EqDecision A} (l : list A) n :
  length l = S n -> bool_decide (l = []) = false.
Proof. intros H. apply bool_decide_eq_false. by intros ->. Qed.

Section roundtrips.
Context `{Bs58, Base64, HexCrate, ProstStorage}.

(** The base64 text fields hold what [B64.encode] produces, or nothing. *)
Definition b64_field_wf (s : string) : Prop := exists b, s = b64_field_encode b.

Definition StoredBlock_wf (b : StoredBlock) : Prop :=
  Id_wf (bl_id b) /\ Slot_wf (bl_slot b) /\ Address_enc (bl_creator b) /\
  Forall Id_wf (bl_parents b) /\ Forall Id_wf (bl_operation_ids b) /\
  Forall StoredEndorsement_wf (bl_endorsements b) /\
  Forall StoredDenunciation_wf (bl_denunciations b) /\
  b64_field_wf (bl_raw_signed_header_b64 b).

Definition OperationInclusion_wf (i : OperationInclusion) : Prop :=
  Slot_wf (inc_slot i) /\ Id_wf (inc_block_id i).

Definition StoredOperation_wf (o : StoredOperation) : Prop :=
  Id_wf (op_id o) /\ Address_enc (op_creator o) /\ opt_wf Address_enc (op_target o) /\
  u8_ok (op_thread o) /\ Forall OperationInclusion_wf (op_inclusions o) /\
  b64_field_wf (op_raw_signed_op_b64 o).

Definition StoredDenunciationEntry_wf (d : StoredDenunciationEntry) : Prop :=
  (exists h, de_hash d = hex_crate_encode h) /\ Slot_wf (de_slot d) /\
  opt_wf Address_enc (de_denounced_addr d) /\ StoredDenunciation_wf (de_denunciation d) /\
  opt_wf Id_wf (de_included_block_id d) /\ opt_wf Slot_wf (de_included_slot d).

Lemma block_id_roundtrip (i : BlockId) : Id_wf i -> block_id_from_key (block_id_to_key i) = Ok i.
Proof.
  intros Hi. unfold block_id_from_key, block_id_to_key, id_as_bytes, BlockId_from_key_bytes.
  by rewrite id_from_key_bytes_of_wf.
Qed.
Lemma op_id_roundtrip (i : OperationId) : Id_wf i -> op_id_from_key (op_id_to_key i) = Ok i.
Proof.
  intros Hi. unfold op_id_from_key, op_id_to_key, id_as_bytes, OperationId_from_key_bytes.
  by rewrite id_from_key_bytes_of_wf.
Qed.
Lemma endo_id_roundtrip (i : EndorsementId) : Id_wf i -> endo_id_from_key (endo_id_to_key i) = Ok i.
Proof.
  intros Hi. unfold endo_id_from_key, endo_id_to_key, id_as_bytes, EndorsementId_from_key_bytes.
  by rewrite id_from_key_bytes_of_wf.
Qed.
Lemma addr_roundtrip a : Address_enc a -> addr_from_key (addr_to_key a) = Ok a.
Proof.
  intros Ha. unfold addr_from_key, addr_to_key, addr_as_bytes.
  by rewrite Address_from_key_bytes_of_wf.
Qed.

Lemma opt_addr_roundtrip (o : option Address) :
  opt_wf Address_enc o ->
  some_if (is_some o) (addr_from_key (default [] (addr_to_key <$> o))) = Ok o.
Proof. destruct o; simpl; [|done]. intros Ha. by rewrite addr_roundtrip. Qed.
Lemma opt_block_id_roundtrip (o : option BlockId) :
  opt_wf Id_wf o ->
  some_if (is_some o) (block_id_from_key (default [] (block_id_to_key <$> o))) = Ok o.
Proof. destruct o; simpl; [|done]. intros Hi. by rewrite block_id_roundtrip. Qed.
Lemma opt_op_id_roundtrip (o : option OperationId) :
  opt_wf Id_wf o ->
  some_if (is_some o) (op_id_from_key (default [] (op_id_to_key <$> o))) = Ok o.
Proof. destruct o; simpl; [|done]. intros Hi. by rewrite op_id_roundtrip. Qed.

(** The final block id of a slot state uses the empty key for [None]. *)
Lemma final_block_id_roundtrip (o : option BlockId) :
  opt_wf Id_wf o ->
  let k := default [] (block_id_to_key <$> o) in
  some_if (negb (bool_decide (k = []))) (block_id_from_key k) = Ok o.
Proof.
  destruct o as [i|]; simpl; [|done]. intros Hi.
  rewrite (bool_decide_nil _ 32) by apply Hi. simpl. by rewrite block_id_roundtrip.
Qed.

Lemma try_map_roundtrip {A B} (P : A -> Prop) (f : B -> result CodecError A) (g : A -> B) l :
  (forall a, P a -> f (g a) = Ok a) -> Forall P l -> try_map f (g <$> l) = Ok l.
Proof. intros Hfg HP. apply try_map_id. intros a Ha. apply Hfg. by eapply Forall_forall in HP. Qed.

Lemma b64_field_roundtrip what s :
  b64_field_wf s -> exists b, b64_field_decode what s = Ok b /\ b64_field_encode b = s.
Proof.
  intros [b ->]. exists b. split; [|done]. unfold b64_field_encode, b64_field_decode.
  destruct (decide (b = [])) as [->|Hb]; [done|].
  rewrite bool_decide_eq_false_2 by done.
  unfold str_is_empty. destruct (decide (b64_encode b = "")) as [E|E].
  - exfalso. pose proof (b64_decode_encode b) as E1. rewrite E, <- b64_encode_nil in E1.
    rewrite b64_decode_encode in E1. naive_solver.
  - rewrite bool_decide_eq_false_2 by done. by rewrite b64_decode_encode.
Qed.
End roundtrips.

(** [codec] rewrites decoders applied to encoders; side conditions are the
    fields' well-formedness. *)
Create Rewrite HintDb codec.
#[export] Hint Rewrite @prost_decode_encode @then_some_default slot_status_roundtrip
  opt_exec_status_roundtrip block_status_roundtrip op_kind_roundtrip completeness_roundtrip
  async_state_roundtrip deferred_state_roundtrip transfer_value_roundtrip opt_trigger_roundtrip
  details_roundtrip : codec.
Ltac codec_steps :=
  repeat first
    [ progress cbn [ok_or mbind result_bind]
    | rewrite slot_from_to_pb by done
    | rewrite opt_slot_roundtrip by done
    | rewrite opt_addr_roundtrip by done
    | rewrite opt_block_id_roundtrip by done
    | rewrite opt_op_id_roundtrip by done
    | rewrite addr_roundtrip by done
    | rewrite block_id_roundtrip by done
    | rewrite op_id_roundtrip by done
    | rewrite endo_id_roundtrip by done
    | rewrite (try_map_roundtrip _ _ _ _ block_id_roundtrip) by done
    | rewrite (try_map_roundtrip _ _ _ _ op_id_roundtrip) by done
    | rewrite (try_map_roundtrip _ _ _ _ addr_roundtrip) by done
    | rewrite u8_try_from_ok by done ];
  autorewrite with codec.

Section rows.
Context `{Bs58, Base64, HexCrate, ProstStorage}.

Lemma slot_row_roundtrip s : Slot_wf s -> decode_slot (encode_slot s) = Ok s.
Proof.
  intros Hs. unfold decode_slot, encode_slot. codec_steps; simpl.
  exact (slot_from_to_pb s Hs).
Qed.

Lemma slot_state_roundtrip s :
  SlotState_wf s -> decode_slot_state (encode_slot_state s) = Ok s.
Proof.
  intros (Hslot & Hfin & Hcand & Htrail & Hexec).
  unfold decode_slot_state, encode_slot_state. codec_steps. cbn [ok_or mbind result_bind].
  destruct s as [slot status miss fin cands trail execd n comp t1 t2]; simpl in *.
  unfold slot_state_from_pb; cbn -[some_if try_map slot_from_opt]. codec_steps.
  rewrite final_block_id_roundtrip by done. codec_steps. do 2 f_equal.
  destruct trail as [s|]; simpl; [|done].
  unfold str_is_empty. by rewrite bool_decide_eq_false_2 by congruence.
Qed.

Lemma meta_row_roundtrip m : MetaRow_wf m -> decode_meta_row (encode_meta_row m) = Ok m.
Proof.
  intros (Ht & Hf & Hc).
  apply (opt_wf_impl _ Slot_wf) in Hf, Hc; [|exact Slot_ok_wf..]. unfold decode_meta_row, encode_meta_row. codec_steps.
  destruct m; cbn -[some_if slot_from_opt u8_try_from] in *. codec_steps. done.
Qed.

Lemma parses_inv {A} (p : string -> result string A) s : parses p s -> exists a, p s = Ok a.
Proof. unfold parses. destruct (p s); [eauto|done]. Qed.

Lemma endorsement_pb_roundtrip e :
  StoredEndorsement_wf e ->
  exists p, endorsement_to_pb e = Ok p /\ endorsement_from_pb p = Ok e.
Proof.
  intros (Hid & Hs & Hen & Ha & Hin & His). destruct e; simpl in *.
  apply parses_inv in Hid as [i Hi]. apply parses_inv in Hen as [j Hj].
  apply parses_inv in Hin as [k Hk].
  unfold endorsement_to_pb; simpl. rewrite Hi, Hj, Hk; simpl. eexists; split; [done|].
  apply id_parse_wf in Hi as [Wi Ti]. apply id_parse_wf in Hj as [Wj Tj].
  apply id_parse_wf in Hk as [Wk Tk].
  unfold endorsement_from_pb; cbn -[some_if slot_from_opt]. codec_steps.
  unfold id_to_string. by rewrite Ti, Tj, Tk.
Qed.

Lemma endorsement_roundtrip e :
  StoredEndorsement_wf e ->
  exists b, encode_endorsement e = Ok b /\ decode_endorsement b = Ok e.
Proof.
  intros Hw. destruct (endorsement_pb_roundtrip e Hw) as (p & He & Hd).
  unfold encode_endorsement, decode_endorsement. rewrite He. simpl.
  eexists; split; [done|]. codec_steps. exact Hd.
Qed.

Lemma endorsements_pb_roundtrip l :
  Forall StoredEndorsement_wf l ->
  exists ps, try_map endorsement_to_pb l = Ok ps /\ try_map endorsement_from_pb ps = Ok l.
Proof.
  induction 1 as [|e l Hw _ (ps & IH1 & IH2)]; [by exists []|].
  destruct (endorsement_pb_roundtrip e Hw) as (p & He & Hd).
  exists (p :: ps). simpl. by rewrite He, Hd, IH1, IH2.
Qed.

Lemma denunciation_roundtrip d :
  StoredDenunciation_wf d -> denunciation_from_pb (denunciation_to_pb d) = Ok d.
Proof.
  unfold denunciation_from_pb, denunciation_to_pb.
  destruct d; simpl; intros Hs; try done;
    pose proof (slot_from_to_pb _ Hs) as E; simpl in E; by rewrite E.
Qed.

Lemma denunciation_entry_roundtrip d :
  StoredDenunciationEntry_wf d ->
  exists b, encode_denunciation_entry d = Ok b /\ decode_denunciation_entry b = Ok d.
Proof.
  intros ([h Hh] & Hs & Ha & Hd & Hb & Hi). unfold encode_denunciation_entry.
  rewrite Hh, hex_decode_encode. simpl. eexists; split; [done|].
  unfold decode_denunciation_entry. codec_steps.
  destruct d; cbn -[some_if slot_from_opt denunciation_from_pb denunciation_to_pb] in *.
  codec_steps. rewrite denunciation_roundtrip by done. codec_steps. by subst.
Qed.

Lemma block_pb_roundtrip b :
  StoredBlock_wf b -> exists p, block_to_peer_pb b = Ok p /\ block_from_peer_pb p = Ok b.
Proof.
  intros (Hid & Hs & Hc & Hp & Ho & He & Hd & Hr).
  destruct (endorsements_pb_roundtrip _ He) as (ps & E1 & E2).
  destruct (b64_field_roundtrip "raw_signed_header b64" _ Hr) as (raw & R1 & R2).
  unfold block_to_peer_pb. rewrite E1. cbn [mbind result_bind]. rewrite R1.
  cbn [mbind result_bind]. eexists; split; [done|].
  unfold block_from_peer_pb. destruct b; cbn -[some_if slot_from_opt] in *. codec_steps.
  rewrite E2. codec_steps.
  rewrite (try_map_roundtrip _ _ _ _ denunciation_roundtrip) by done. codec_steps.
  by rewrite R2.
Qed.

Lemma block_roundtrip b :
  StoredBlock_wf b -> exists v, encode_block b = Ok v /\ decode_block v = Ok b.
Proof.
  intros Hw. destruct (block_pb_roundtrip b Hw) as (p & He & Hd).
  unfold encode_block, decode_block. rewrite He. simpl.
  eexists; split; [done|]. codec_steps. exact Hd.
Qed.

Lemma inclusion_roundtrip i :
  OperationInclusion_wf i -> inclusion_from_pb (inclusion_to_pb i) = Ok i.
Proof.
  intros [Hs Hb]. unfold inclusion_from_pb. destruct i; cbn -[slot_from_opt] in *.
  by codec_steps.
Qed.

Lemma operation_pb_roundtrip o :
  StoredOperation_wf o ->
  exists p, operation_to_pb o = Ok p /\ operation_from_pb p = Ok o.
Proof.
  intros (Hid & Hc & Ht & Hth & Hi & Hr).
  destruct (b64_field_roundtrip "raw_signed_op b64" _ Hr) as (raw & R1 & R2).
  unfold operation_to_pb. rewrite R1. cbn [mbind result_bind]. eexists; split; [done|].
  unfold operation_from_pb. destruct o; cbn -[some_if slot_from_opt u8_try_from details_from_pb] in *.
  codec_steps. rewrite (try_map_roundtrip _ _ _ _ inclusion_roundtrip) by done. codec_steps.
  by rewrite R2.
Qed.

Lemma operation_roundtrip o :
  StoredOperation_wf o -> exists v, encode_operation o = Ok v /\ decode_operation v = Ok o.
Proof.
  intros Hw. destruct (operation_pb_roundtrip o Hw) as (p & He & Hd).
  unfold encode_operation, decode_operation. rewrite He. simpl.
  eexists; split; [done|]. codec_steps. exact Hd.
Qed.

Lemma sc_event_roundtrip e :
  StoredScEvent_wf e -> exists v, encode_sc_event e = Ok v /\ decode_sc_event v = Ok e.
Proof.
  intros (Hs%Slot_ok_wf & He & Hc & Ho). unfold encode_sc_event. eexists; split; [done|].
  unfold decode_sc_event. destruct e; cbn -[some_if slot_from_opt try_map] in *.
  codec_steps. cbn -[some_if slot_from_opt try_map] in *. codec_steps. done.
Qed.

Lemma transfer_roundtrip t :
  StoredTransfer_wf t -> decode_transfer (encode_transfer t) = Ok t.
Proof.
  intros [Hs%Slot_ok_wf Ho]. unfold decode_transfer, encode_transfer. codec_steps.
  destruct t; cbn -[slot_from_opt transfer_value_from_pb transfer_value_to_pb] in *.
  codec_steps. by rewrite coin_origin_roundtrip by done.
Qed.

Lemma async_msg_roundtrip m :
  StoredAsyncMsg_enc m -> decode_async_msg (encode_async_msg m) = Ok m.
Proof.
  intros (W1 & W2 & W3 & W4 & W5 & W6). unfold decode_async_msg, encode_async_msg.
  codec_steps. destruct m; cbn -[some_if slot_from_opt] in *. by codec_steps.
Qed.

Lemma deferred_call_roundtrip d :
  StoredDeferredCall_enc d -> decode_deferred_call (encode_deferred_call d) = Ok d.
Proof.
  intros (W1 & W2 & W3 & W4 & W5). unfold decode_deferred_call, encode_deferred_call.
  codec_steps. destruct d; cbn -[some_if slot_from_opt] in *. by codec_steps.
Qed.
End rows.
