(* ===== verification/CodecProps.v ===== *)
(** * What the row codec guarantees

    What decodes is well formed, and what encodes decodes back: the decoders only
    build well-formed rows, and a row whose ids are well formed is recovered from
    any encoding of it, so that an encoder that fails is the only way to lose one.
    Every row kind is written without loss, in the store and on the wire to
    another peer (src/massa-indexer/src/codec.rs). *)

From S2P Require Import Prelude Ids Keys Model Proto Codec CodecLemmas.

Lemma some_if_ok {E A} b (r : result E A) o (P : A -> Prop) :
  (forall a, r = Ok a -> P a) -> some_if b r = Ok o -> opt_wf P o.
Proof.
  intros HP. unfold some_if. destruct b; [|by intros [= <-]].
  intros (a & Ha & [= <-])%result_bind_ok. simpl. auto.
Qed.
Lemma try_map_Forall {E A B} (f : A -> result E B) (P : B -> Prop) l l' :
  (forall a b, f a = Ok b -> P b) -> try_map f l = Ok l' -> Forall P l'.
Proof.
  intros HP. revert l'; induction l as [|a l IH]; intros l'; simpl; [by intros [= <-]|].
  destruct (f a) eqn:Ef; [|done]. destruct (try_map f l); [|done]. intros [= <-].
  constructor; eauto.
Qed.

(** Splits every [x ← m; k] of a hypothesis [_ = Ok _]. *)
Ltac invert_binds H :=
  lazymatch type of H with
  | _ ≫= _ = Ok _ =>
      let a := fresh "a" in let E := fresh "E" in
      apply result_bind_ok in H as (a & E & H); invert_binds E; invert_binds H
  | _ => idtac
  end.

Section inverse.
Context `{Bs58, Base64, HexCrate, ProstStorage}.

Lemma slot_from_opt_wf p s : slot_from_opt p = Ok s -> Slot_wf s.
Proof.
  unfold slot_from_opt, slot_from_pb. intros E. invert_binds E.
  apply ok_or_ok, u8_try_from_Some in E1 as [-> Hu]. by injection E as <-.
Qed.
Lemma slot_from_pb_wf p s : slot_from_pb p = Ok s -> Slot_wf s.
Proof. intros E. by apply (slot_from_opt_wf (Some p)). Qed.
Lemma block_id_from_key_wf k i : block_id_from_key k = Ok i -> Id_wf i.
Proof. by intros [? _]%ok_or_ok%id_from_key_bytes_wf. Qed.
Lemma op_id_from_key_wf k i : op_id_from_key k = Ok i -> Id_wf i.
Proof. by intros [? _]%ok_or_ok%id_from_key_bytes_wf. Qed.
Lemma addr_from_key_wf k a : addr_from_key k = Ok a -> Address_enc a.
Proof. by intros E%ok_or_ok%Address_from_key_bytes_enc. Qed.
Lemma endo_id_from_key_wf k i : endo_id_from_key k = Ok i -> Id_wf i.
Proof. by intros [? _]%ok_or_ok%id_from_key_bytes_wf. Qed.

(** ** Slots *)
Lemma slot_state_decode_wf v s : decode_slot_state v = Ok s -> SlotState_wf s.
Proof.
  unfold decode_slot_state, slot_state_from_pb. intros E. invert_binds E.
  injection E as <-. unfold SlotState_wf; cbn [ss_slot ss_final_block_id ss_candidate_block_ids
    ss_execution_trail_hash ss_executed_op_ids]. split_and!.
  - by eapply slot_from_opt_wf.
  - eapply some_if_ok; [|eassumption]. apply block_id_from_key_wf.
  - eapply try_map_Forall; [|eassumption]. apply block_id_from_key_wf.
  - unfold str_is_empty. destruct (bool_decide_reflect (ssp_execution_trail_hash a = "")) as [|He];
      [done | by intros [= ?]].
  - eapply try_map_Forall; [|eassumption]. apply op_id_from_key_wf.
Qed.

(** An empty trail hash is stored as no trail hash. *)
Definition slot_norm (s : SlotState) : SlotState :=
  s <| ss_execution_trail_hash :=
         h ← ss_execution_trail_hash s; if str_is_empty h then None else Some h |>.
Definition SlotState_enc (s : SlotState) : Prop :=
  Slot_wf (ss_slot s) /\ opt_wf Id_wf (ss_final_block_id s) /\
  Forall Id_wf (ss_candidate_block_ids s) /\ Forall Id_wf (ss_executed_op_ids s).
Lemma slot_norm_wf s : SlotState_enc s -> SlotState_wf (slot_norm s).
Proof.
  intros (? & ? & ? & ?). unfold SlotState_wf, slot_norm; simpl. split_and!; try done.
  destruct (ss_execution_trail_hash s) as [h|]; simpl; [|done].
  unfold str_is_empty. case_bool_decide as He; [done|]. by intros [= ?].
Qed.
Lemma SlotState_wf_enc s : SlotState_wf s -> SlotState_enc s.
Proof. by intros (? & ? & ? & ? & ?). Qed.
Lemma encode_slot_norm s : encode_slot_state (slot_norm s) = encode_slot_state s.
Proof.
  unfold encode_slot_state, slot_state_to_pb, slot_norm. f_equal. destruct s as [? ? ? ? ? h]; simpl.
  f_equal. destruct h as [h|]; simpl; [|done]. unfold str_is_empty. by case_bool_decide; subst.
Qed.
Lemma slot_state_roundtrip_norm s :
  SlotState_enc s -> decode_slot_state (encode_slot_state s) = Ok (slot_norm s).
Proof. intros Hs. rewrite <- encode_slot_norm. by apply slot_state_roundtrip, slot_norm_wf. Qed.

(** ** Endorsements, denunciations and blocks *)
Lemma b64_field_decode_ok what s b : b64_field_decode what s = Ok b -> b64_field_wf s.
Proof.
  unfold b64_field_decode, b64_field_wf, b64_field_encode, str_is_empty.
  case_bool_decide as Hs; [intros _; exists []; done|]. intros Hd%ok_or_ok.
  exists b. apply b64_encode_decode in Hd as <-. case_bool_decide; [|done]. subst.
  by rewrite b64_encode_nil in Hs.
Qed.
Lemma b64_field_encode_wf b : b64_field_wf (b64_field_encode b).
Proof. by exists b. Qed.

Definition StoredEndorsement_enc (e : StoredEndorsement) : Prop :=
  Slot_wf (en_slot e) /\ Address_enc (en_content_creator_address e) /\
  Slot_wf (en_included_slot e).
Lemma endorsement_to_pb_ok e p :
  StoredEndorsement_enc e -> endorsement_to_pb e = Ok p -> StoredEndorsement_wf e.
Proof.
  intros (? & ? & ?) E. unfold endorsement_to_pb in E. invert_binds E.
  apply map_err_ok in E0, E1, E2. unfold StoredEndorsement_wf, parses.
  by rewrite E0, E1, E2.
Qed.
Lemma endorsements_to_pb_ok l ps :
  Forall StoredEndorsement_enc l -> try_map endorsement_to_pb l = Ok ps ->
  Forall StoredEndorsement_wf l.
Proof.
  revert ps; induction l as [|e l IH]; intros ps Hl; [constructor|]. cbn [try_map].
  apply Forall_cons in Hl as [He Hl].
  destruct (endorsement_to_pb e) eqn:Ee; [|done]. destruct (try_map _ l) eqn:El; [|done].
  intros _. constructor; [by eapply endorsement_to_pb_ok | by eapply IH].
Qed.
Lemma endorsement_from_pb_enc p e : endorsement_from_pb p = Ok e -> StoredEndorsement_enc e.
Proof.
  unfold endorsement_from_pb. intros E. invert_binds E. injection E as <-.
  split_and!; simpl; eauto using slot_from_opt_wf; by eapply addr_from_key_wf.
Qed.
Lemma denunciation_from_pb_wf p d : denunciation_from_pb p = Ok d -> StoredDenunciation_wf d.
Proof.
  unfold denunciation_from_pb. intros E.
  destruct (dp_kind p) as [[]|]; invert_binds E; injection E as <-; simpl;
    eauto using slot_from_opt_wf.
Qed.

Definition StoredBlock_enc (b : StoredBlock) : Prop :=
  Id_wf (bl_id b) /\ Slot_wf (bl_slot b) /\ Address_enc (bl_creator b) /\
  Forall Id_wf (bl_parents b) /\ Forall Id_wf (bl_operation_ids b) /\
  Forall StoredEndorsement_enc (bl_endorsements b) /\
  Forall StoredDenunciation_wf (bl_denunciations b).
Lemma block_from_pb_enc p b : block_from_peer_pb p = Ok b -> StoredBlock_enc b.
Proof.
  unfold block_from_peer_pb. intros E. invert_binds E. injection E as <-.
  split_and!; simpl;
    eauto using slot_from_opt_wf, block_id_from_key_wf, addr_from_key_wf, try_map_Forall,
      op_id_from_key_wf, endorsement_from_pb_enc, denunciation_from_pb_wf;
    first [ by eapply block_id_from_key_wf | by eapply addr_from_key_wf ].
Qed.
Lemma decode_block_enc v b : decode_block v = Ok b -> StoredBlock_enc b.
Proof. unfold decode_block. intros E. invert_binds E. by eapply block_from_pb_enc. Qed.
Lemma encode_block_decodes b v :
  StoredBlock_enc b -> encode_block b = Ok v -> decode_block v = Ok b.
Proof.
  intros (? & ? & ? & ? & ? & He & ?) E.
  assert (StoredBlock_wf b) as Hw.
  { unfold encode_block, block_to_peer_pb in E. invert_binds E.
    match goal with E1 : try_map _ _ = Ok _ |- _ => apply endorsements_to_pb_ok in E1; [|done] end.
    split_and!; try done. by eapply b64_field_decode_ok. }
  destruct (block_roundtrip b Hw) as (v' & E' & D). congruence.
Qed.

(** ** Operations *)
Definition StoredOperation_enc (o : StoredOperation) : Prop :=
  Id_wf (op_id o) /\ Address_enc (op_creator o) /\ opt_wf Address_enc (op_target o) /\
  u8_ok (op_thread o) /\ Forall OperationInclusion_wf (op_inclusions o).
Lemma inclusion_from_pb_wf p i : inclusion_from_pb p = Ok i -> OperationInclusion_wf i.
Proof.
  unfold inclusion_from_pb. intros E. invert_binds E. injection E as <-.
  split; simpl; [by eapply slot_from_opt_wf | by eapply block_id_from_key_wf].
Qed.
Lemma decode_operation_enc v o : decode_operation v = Ok o -> StoredOperation_enc o.
Proof.
  unfold decode_operation, operation_from_pb. intros E. invert_binds E. injection E as <-.
  unfold StoredOperation_enc; cbn [op_id op_creator op_target op_thread op_inclusions].
  split_and!.
  - by eapply op_id_from_key_wf.
  - by eapply addr_from_key_wf.
  - eapply some_if_ok; [|eassumption]. apply addr_from_key_wf.
  - match goal with E : ok_or _ (u8_try_from _) = Ok _ |- _ =>
      by apply ok_or_ok, u8_try_from_Some in E as [-> ?] end.
  - eapply try_map_Forall; [|eassumption]. apply inclusion_from_pb_wf.
Qed.
Lemma encode_operation_decodes o v :
  StoredOperation_enc o -> encode_operation o = Ok v -> decode_operation v = Ok o.
Proof.
  intros (? & ? & ? & ? & ?) E.
  assert (StoredOperation_wf o) as Hw.
  { unfold encode_operation, operation_to_pb in E. invert_binds E.
    split_and!; try done. by eapply b64_field_decode_ok. }
  destruct (operation_roundtrip o Hw) as (v' & E' & D). congruence.
Qed.

(** ** Async messages and deferred calls *)
Lemma decode_async_msg_enc v m : decode_async_msg v = Ok m -> StoredAsyncMsg_enc m.
Proof.
  unfold decode_async_msg. intros E. invert_binds E. injection E as <-.
  unfold StoredAsyncMsg_enc; simpl; split_and!; (eapply some_if_ok; [|eassumption]);
    apply addr_from_key_wf || apply slot_from_opt_wf.
Qed.
Lemma decode_deferred_call_enc v c : decode_deferred_call v = Ok c -> StoredDeferredCall_enc c.
Proof.
  unfold decode_deferred_call. intros E. invert_binds E. injection E as <-.
  unfold StoredDeferredCall_enc; simpl; split_and!; (eapply some_if_ok; [|eassumption]);
    apply addr_from_key_wf || apply slot_from_opt_wf.
Qed.
End inverse.

Section codec.
Context `{Bs58, Base64, HexCrate, ProstStorage}.

(** Every valid value is encoded, and comes back unchanged. *)
Definition lossless {A M} (valid : A -> Prop) (enc : A -> result CodecError M)
    (dec : M -> result CodecError A) : Prop :=
  forall a, valid a -> exists m, enc a = Ok m /\ dec m = Ok a.
Lemma lossless_total {A M} (valid : A -> Prop) (enc : A -> M) dec :
  (forall a, valid a -> dec (enc a) = Ok a) -> lossless valid (fun a => Ok (enc a)) dec.
Proof. intros Hd a Ha. exists (enc a). auto. Qed.
(** A peer form is read back out of the stored bytes. *)
Lemma peer_lossless {A} `{!Prost M} (valid : A -> Prop) (to : A -> result CodecError M) dec :
  lossless valid (fun a => p ← to a; Ok (encode_to_vec p)) dec ->
  lossless valid (fun a => b ← (p ← to a; Ok (encode_to_vec p)); ok_or CodecDecode (prost_decode b))
    (fun p : M => dec (encode_to_vec p)).
Proof.
  intros Hl a Ha. destruct (Hl a Ha) as (v & E & D). destruct (to a) as [p|]; [|done]. cbn in E.
  simplify_eq. exists p. cbn. by rewrite prost_decode_encode.
Qed.
Lemma peer_lossless_total {A} `{!Prost M} (valid : A -> Prop) (to : A -> M) dec :
  (forall a, valid a -> dec (encode_to_vec (to a)) = Ok a) ->
  lossless valid (fun a => ok_or CodecDecode (prost_decode (encode_to_vec (to a))))
    (fun p : M => dec (encode_to_vec p)).
Proof. intros Hd a Ha. exists (to a). rewrite prost_decode_encode. auto. Qed.

(** C29. Storing a valid row of any of the eleven kinds loses nothing, and neither
    does sending it to a peer in the wire form of one of the seven kinds that
    travel: encoding succeeds and decoding gives the row back. *)
Theorem rows_lossless :
  (lossless SlotState_wf (fun s => Ok (encode_slot_state s)) decode_slot_state /\
   lossless MetaRow_wf (fun m => Ok (encode_meta_row m)) decode_meta_row /\
   lossless Slot_wf (fun s => Ok (encode_slot s)) decode_slot /\
   lossless StoredBlock_wf encode_block decode_block /\
   lossless StoredEndorsement_wf encode_endorsement decode_endorsement /\
   lossless StoredOperation_wf encode_operation decode_operation /\
   lossless StoredDenunciationEntry_wf encode_denunciation_entry decode_denunciation_entry /\
   lossless StoredScEvent_wf encode_sc_event decode_sc_event /\
   lossless StoredTransfer_wf (fun t => Ok (encode_transfer t)) decode_transfer /\
   lossless StoredAsyncMsg_enc (fun m => Ok (encode_async_msg m)) decode_async_msg /\
   lossless StoredDeferredCall_enc (fun c => Ok (encode_deferred_call c)) decode_deferred_call) /\
  lossless StoredBlock_wf block_to_peer_pb block_from_peer_pb /\
  lossless StoredEndorsement_wf endorsement_to_peer_pb endorsement_from_peer_pb /\
  lossless StoredOperation_wf operation_to_peer_pb operation_from_peer_pb /\
  lossless StoredScEvent_wf sc_event_to_peer_pb sc_event_from_peer_pb /\
  lossless StoredTransfer_wf (fun t => ok_or CodecDecode (transfer_to_peer_pb t)) transfer_from_peer_pb /\
  lossless StoredAsyncMsg_enc (fun m => ok_or CodecDecode (async_msg_to_peer_pb m)) async_msg_from_peer_pb /\
  lossless StoredDeferredCall_enc (fun c => ok_or CodecDecode (deferred_call_to_peer_pb c)) deferred_call_from_peer_pb.
Proof.
  split; [split_and!|split_and!].
  - apply lossless_total, slot_state_roundtrip.
  - apply lossless_total, meta_row_roundtrip.
  - apply lossless_total, slot_row_roundtrip.
  - exact block_roundtrip.
  - exact endorsement_roundtrip.
  - exact operation_roundtrip.
  - exact denunciation_entry_roundtrip.
  - exact sc_event_roundtrip.
  - apply lossless_total, transfer_roundtrip.
  - apply lossless_total, async_msg_roundtrip.
  - apply lossless_total, deferred_call_roundtrip.
  - exact block_pb_roundtrip.
  - exact endorsement_pb_roundtrip.
  - exact (peer_lossless _ _ _ operation_roundtrip).
  - apply (peer_lossless _ (fun e => Ok (sc_event_to_pb e))). exact sc_event_roundtrip.
  - apply (peer_lossless_total _ transfer_to_pb), transfer_roundtrip.
  - apply (peer_lossless_total _ async_msg_to_pb), async_msg_roundtrip.
  - apply (peer_lossless_total _ deferred_call_to_pb), deferred_call_roundtrip.
Qed.
End codec.
