(* ===== verification/Store.v ===== *)
(** * The key-value store under db.rs

    The column families of src/massa-indexer/src/db.rs, the RocksDB crate as
    the class [RocksDB] (point reads, atomic write batches, ordered
    iteration), the [Page] type, and the scan loop the [iter_*] readers share
    with its pagination theorem. Row-level I/O failures of RocksDB are not
    modelled. The state and error monad of the writers is here too, with
    [runs m Q]: the computation [m] returns a value whatever the state it starts
    from, and [Q] relates the value and the states before and after. *)

From S2P Require Import Prelude Ids Keys Model Proto Codec.

(** ** Column families *)
Inductive Cf :=
| CF_META | CF_BLOCK | CF_OP | CF_SLOT | CF_SC_EVENT | CF_SLOT_CANDIDATE_BLOCK
| CF_ENDORSEMENT | CF_TRANSFER | CF_DENUNCIATION | IDX_BLOCK_BY_CREATOR
| IDX_OP_BY_CREATOR | IDX_OP_BY_TARGET | IDX_ENDORSEMENT_BY_CREATOR
| IDX_TRANSFER_BY_ADDR | IDX_TRANSFER_BY_OP | IDX_TRANSFER_BY_BLOCK
| IDX_DENUNCIATION_BY_ADDR | IDX_DENUNCIATION_RECENT | IDX_SC_EVENT_BY_EMITTER
| IDX_SC_EVENT_BY_CALLER | IDX_SC_EVENT_BY_OP | CF_ASYNC_MSG | CF_DEFERRED_CALL
| IDX_ASYNC_BY_SENDER | IDX_ASYNC_BY_DEST | IDX_ASYNC_BY_LAST_SLOT
| IDX_DEFERRED_BY_SENDER | IDX_DEFERRED_BY_TARGET | IDX_DEFERRED_BY_LAST_SLOT
| CF_PEER_STATE.
#[export] Instance Cf_eq_dec : EqDecision Cf.
Proof. solve_decision. Defined.

Definition ALL_CFS : list Cf :=
  [CF_META; CF_BLOCK; CF_OP; CF_SLOT; CF_SC_EVENT; CF_SLOT_CANDIDATE_BLOCK; CF_ENDORSEMENT;
   CF_TRANSFER; CF_DENUNCIATION; IDX_BLOCK_BY_CREATOR; IDX_OP_BY_CREATOR; IDX_OP_BY_TARGET;
   IDX_ENDORSEMENT_BY_CREATOR; IDX_TRANSFER_BY_ADDR; IDX_TRANSFER_BY_OP; IDX_TRANSFER_BY_BLOCK;
   IDX_DENUNCIATION_BY_ADDR; IDX_DENUNCIATION_RECENT; IDX_SC_EVENT_BY_EMITTER;
   IDX_SC_EVENT_BY_CALLER; IDX_SC_EVENT_BY_OP; CF_ASYNC_MSG; CF_DEFERRED_CALL;
   IDX_ASYNC_BY_SENDER; IDX_ASYNC_BY_DEST; IDX_ASYNC_BY_LAST_SLOT; IDX_DEFERRED_BY_SENDER;
   IDX_DEFERRED_BY_TARGET; IDX_DEFERRED_BY_LAST_SLOT; CF_PEER_STATE].

Definition cf_name (c : Cf) : string :=
  match c with
  | CF_META => "cf_meta" | CF_BLOCK => "cf_block" | CF_OP => "cf_op" | CF_SLOT => "cf_slot"
  | CF_SC_EVENT => "cf_sc_event" | CF_SLOT_CANDIDATE_BLOCK => "cf_slot_candidate_block"
  | CF_ENDORSEMENT => "cf_endorsement" | CF_TRANSFER => "cf_transfer"
  | CF_DENUNCIATION => "cf_denunciation" | IDX_BLOCK_BY_CREATOR => "idx_block_by_creator"
  | IDX_OP_BY_CREATOR => "idx_op_by_creator" | IDX_OP_BY_TARGET => "idx_op_by_target"
  | IDX_ENDORSEMENT_BY_CREATOR => "idx_endorsement_by_creator"
  | IDX_TRANSFER_BY_ADDR => "idx_transfer_by_addr" | IDX_TRANSFER_BY_OP => "idx_transfer_by_op"
  | IDX_TRANSFER_BY_BLOCK => "idx_transfer_by_block"
  | IDX_DENUNCIATION_BY_ADDR => "idx_denunciation_by_addr"
  | IDX_DENUNCIATION_RECENT => "idx_denunciation_recent"
  | IDX_SC_EVENT_BY_EMITTER => "idx_sc_event_by_emitter"
  | IDX_SC_EVENT_BY_CALLER => "idx_sc_event_by_caller"
  | IDX_SC_EVENT_BY_OP => "idx_sc_event_by_op" | CF_ASYNC_MSG => "cf_async_msg"
  | CF_DEFERRED_CALL => "cf_deferred_call" | IDX_ASYNC_BY_SENDER => "idx_async_by_sender"
  | IDX_ASYNC_BY_DEST => "idx_async_by_dest"
  | IDX_ASYNC_BY_LAST_SLOT => "idx_async_by_last_slot"
  | IDX_DEFERRED_BY_SENDER => "idx_deferred_by_sender"
  | IDX_DEFERRED_BY_TARGET => "idx_deferred_by_target"
  | IDX_DEFERRED_BY_LAST_SLOT => "idx_deferred_by_last_slot" | CF_PEER_STATE => "cf_peer_state"
  end.

Definition SECONDARY_INDEX_CFS : list Cf :=
  [IDX_BLOCK_BY_CREATOR; IDX_OP_BY_CREATOR; IDX_OP_BY_TARGET; IDX_ENDORSEMENT_BY_CREATOR;
   IDX_TRANSFER_BY_ADDR; IDX_TRANSFER_BY_OP; IDX_TRANSFER_BY_BLOCK; IDX_DENUNCIATION_BY_ADDR;
   IDX_DENUNCIATION_RECENT; IDX_SC_EVENT_BY_EMITTER; IDX_SC_EVENT_BY_CALLER; IDX_SC_EVENT_BY_OP;
   IDX_ASYNC_BY_SENDER; IDX_ASYNC_BY_DEST; IDX_ASYNC_BY_LAST_SLOT; IDX_DEFERRED_BY_SENDER;
   IDX_DEFERRED_BY_TARGET; IDX_DEFERRED_BY_LAST_SLOT].

(** ** Errors (error.rs): the variants the modelled code can raise *)
Inductive Error :=
| ErrOther (msg : string) | ErrBadRequest (msg : string) | ErrNotFound
| ErrConfig (msg : string) | ErrNetworkMismatch (db cfg : string) | ErrGrpcTransport (msg : string).
#[export] Instance Error_eq_dec : EqDecision Error.
Proof. solve_decision. Defined.

Definition Error_display (e : Error) : string :=
  match e with
  | ErrOther m => m | ErrBadRequest m => "bad request: " +:+ m | ErrNotFound => "not found"
  | ErrConfig m => "config: " +:+ m | ErrGrpcTransport m => "grpc transport: " +:+ m
  | ErrNetworkMismatch db cfg => "network mismatch: db=" +:+ db +:+ ", config=" +:+ cfg
  end.
Definition CodecError_display (e : CodecError) : string :=
  match e with
  | CodecDecode => "protobuf decode" | CodecEncode => "protobuf encode" | CodecCustom m => m
  end.
(** [From<CodecError> for Error]; the prost error texts are not modelled. *)
Definition Error_from_codec (e : CodecError) : Error :=
  ErrOther ("codec: " +:+ CodecError_display e).

(** Code that writes several batches: state and error, where the writes made
    before an error stay. *)
Definition ST (S A : Type) : Type := S -> result Error A * S.
#[export] Instance ST_ret S : MRet (ST S) := fun A a s => (Ok a, s).
#[export] Instance ST_bind S : MBind (ST S) := fun A B f m s =>
  match m s with
  | (Ok a, s') => f a s'
  | (Err e, s') => (Err e, s')
  end.
Definition st_get {S} : ST S S := fun s => (Ok s, s).
Definition st_put {S} (s : S) : ST S unit := fun _ => (Ok tt, s).
Definition st_lift {S A} (r : result Error A) : ST S A := fun s => (r, s).
(** A write that either happens as a whole or fails. *)
Definition st_update {S} (f : S -> result Error S) : ST S unit := fun s =>
  match f s with Ok s' => (Ok tt, s') | Err e => (Err e, s) end.
Fixpoint st_iter {S A} (f : A -> ST S unit) (l : list A) : ST S unit :=
  match l with
  | [] => mret tt
  | a :: l' => f a ;; st_iter f l'
  end.

(** ** RocksDB *)
Inductive WriteOp := Put (cf : Cf) (k v : bytes) | Delete (cf : Cf) (k : bytes).

Inductive IteratorMode := Start | FromForward (k : bytes) | FromReverse (k : bytes).

(** What one batch entry does to a point read. *)
Definition wop_lookup (cf : Cf) (k : bytes) (cur : option bytes) (o : WriteOp) : option bytes :=
  match o with
  | Put cf' k' v => if decide (cf = cf' /\ k = k') then Some v else cur
  | Delete cf' k' => if decide (cf = cf' /\ k = k') then None else cur
  end.
Definition batch_lookup (ops : list WriteOp) (cf : Cf) (k : bytes) (cur : option bytes)
  : option bytes := foldl (wop_lookup cf k) cur ops.

(** The documented behaviour of the crate: a [WriteBatch] applies atomically
    and in order; a full iteration lists exactly the stored rows by ascending
    key; [From(k, Forward)] starts at the first key [>= k], [From(k, Reverse)]
    walks down from the last key [<= k]. *)
Class RocksDB := {
  DB : Type;
  get_cf : DB -> Cf -> bytes -> option bytes;
  db_write : DB -> list WriteOp -> DB;
  iterator_cf : DB -> Cf -> IteratorMode -> list (bytes * bytes);
  get_cf_write d ops cf k :
    get_cf (db_write d ops) cf k = batch_lookup ops cf k (get_cf d cf k);
  iterator_sorted d cf : StronglySorted bytes_lt (iterator_cf d cf Start).*1;
  iterator_get d cf k v : (k, v) ∈ iterator_cf d cf Start <-> get_cf d cf k = Some v;
  iterator_forward d cf s :
    iterator_cf d cf (FromForward s) =
    filter (fun kv => bytes_le s kv.1) (iterator_cf d cf Start);
  iterator_reverse d cf s :
    iterator_cf d cf (FromReverse s) =
    reverse (filter (fun kv => bytes_le kv.1 s) (iterator_cf d cf Start));
}.

(** ** Pages *)
Record Page (A : Type) := mkPage { pg_items : list A; pg_next_cursor : option bytes }.
Arguments mkPage {A}. Arguments pg_items {A}. Arguments pg_next_cursor {A}.
Definition Page_empty {A} : Page A := mkPage [] None.
Definition Page_is_empty {A} (p : Page A) : bool :=
  match pg_items p with [] => true | _ => false end.
Definition Page_has_more {A} (p : Page A) : bool := is_some (pg_next_cursor p).

(** The loop of the paged readers: stop at the first key outside the scan
    ([keep]), drop the cursor row itself, cut the page when it is full, and
    otherwise take what [row] makes of the entry ([Ok None]: skipped). *)
Section page_loop.
Context {A : Type} (keep : bytes -> bool) (row : bytes -> bytes -> result Error (option A))
  (after : option bytes) (limit : nat).

Fixpoint page_loop (items : list A) (last_key : option bytes) (iter : list (bytes * bytes))
  : result Error (Page A) :=
  match iter with
  | [] => Ok (mkPage items None)
  | (k, v) :: iter' =>
      if negb (keep k) then Ok (mkPage items None)
      else if bool_decide (after = Some k) then page_loop items last_key iter'
      else if bool_decide (limit <= length items) then Ok (mkPage items last_key)
      else
        o ← row k v;
        match o with
        | Some a => page_loop (items ++ [a]) (Some k) iter'
        | None => page_loop items last_key iter'
        end
  end.
End page_loop.

(** Following a reader's cursors from [after] until a page says it is the last. *)
Fixpoint follow {A} (fuel : nat) (reader : option bytes -> result Error (Page A))
  (after : option bytes) : option (result Error (list A)) :=
  match fuel with
  | O => None
  | S fuel' =>
      match reader after with
      | Err e => Some (Err e)
      | Ok p =>
          match pg_next_cursor p with
          | None => Some (Ok (pg_items p))
          | Some c =>
              match follow fuel' reader (Some c) with
              | Some (Ok rest) => Some (Ok (pg_items p ++ rest))
              | r => r
              end
          end
      end
  end.

(** ** Lemmas *)

Section rocks.
Context `{RocksDB}.

Lemma get_cf_put_same d cf k v ops : get_cf (db_write d (ops ++ [Put cf k v])) cf k = Some v.
Proof.
  rewrite get_cf_write. unfold batch_lookup. rewrite foldl_app. simpl.
  by rewrite decide_True by done.
Qed.

(** A row is untouched by a batch that does not mention it. *)
Definition wop_key (o : WriteOp) : Cf * bytes :=
  match o with Put cf k _ | Delete cf k => (cf, k) end.

Lemma batch_lookup_frame ops cf k cur :
  (cf, k) ∉ wop_key <$> ops -> batch_lookup ops cf k cur = cur.
Proof.
  unfold batch_lookup. revert cur; induction ops as [|o ops IH]; intros cur Hk; [done|].
  simpl. rewrite fmap_cons, not_elem_of_cons in Hk. destruct Hk as [Hne Hk].
  rewrite IH by done. destruct o; simpl in *; rewrite decide_False; naive_solver.
Qed.

Lemma get_cf_frame d ops cf k :
  (cf, k) ∉ wop_key <$> ops -> get_cf (db_write d ops) cf k = get_cf d cf k.
Proof. intros Hk. rewrite get_cf_write. by apply batch_lookup_frame. Qed.

(** Two stores with the same rows. *)
Definition db_equiv (d1 d2 : DB) : Prop := forall cf k, get_cf d1 cf k = get_cf d2 cf k.
#[export] Instance db_equiv_equivalence : Equivalence db_equiv.
Proof.
  split; [done | by intros d1 d2 E cf k | intros d1 d2 d3 E1 E2 cf k; by rewrite E1, E2].
Qed.
#[export] Instance get_cf_proper : Proper (db_equiv ==> (=) ==> (=) ==> (=)) get_cf.
Proof. intros d1 d2 E cf ? <- k ? <-. apply E. Qed.
#[export] Instance db_write_proper : Proper (db_equiv ==> (=) ==> db_equiv) db_write.
Proof. intros d1 d2 E ops ? <- cf k. by rewrite !get_cf_write, E. Qed.

Lemma db_write_app d ops1 ops2 :
  db_equiv (db_write d (ops1 ++ ops2)) (db_write (db_write d ops1) ops2).
Proof. intros cf k. rewrite !get_cf_write. unfold batch_lookup. by rewrite foldl_app. Qed.

Lemma iterator_NoDup d cf : NoDup (iterator_cf d cf Start).*1.
Proof.
  pose proof (iterator_sorted d cf) as Hs.
  induction Hs as [|k l Hs IH Hk]; constructor; [|done].
  intros Hin. rewrite Forall_forall in Hk. by apply (bytes_lt_irrefl k), Hk.
Qed.

(** Scans are determined by the rows. *)
Lemma sorted_entries_unique (l1 l2 : list (bytes * bytes)) :
  StronglySorted bytes_lt l1.*1 -> StronglySorted bytes_lt l2.*1 ->
  (forall kv, kv ∈ l1 <-> kv ∈ l2) -> l1 = l2.
Proof.
  revert l2; induction l1 as [|[k v] l1 IH]; intros [|[k' v'] l2] S1 S2 E; [done| | |].
  - exfalso. destruct (E (k', v')) as [_ E']. set_solver.
  - exfalso. destruct (E (k, v)) as [E' _]. set_solver.
  - apply StronglySorted_inv in S1 as [S1 F1]. apply StronglySorted_inv in S2 as [S2 F2].
    rewrite !Forall_forall in F1, F2.
    assert ((k, v) = (k', v')) as Ekv.
    { destruct (E (k, v)) as [E1 _]. destruct (E (k', v')) as [_ E2].
      specialize (E1 ltac:(set_solver)). specialize (E2 ltac:(set_solver)).
      rewrite elem_of_cons in E1, E2.
      destruct E1 as [|E1]; [done|]. destruct E2 as [|E2]; [done|].
      apply (list_elem_of_fmap_2 fst) in E1, E2. simpl in *.
      exfalso. apply (bytes_lt_irrefl k).
      apply (bytes_lt_trans _ k'); [by apply F1 | by apply F2]. }
    injection Ekv as <- <-. f_equal. apply IH; [done..|]. intros [k1 v1].
    specialize (E (k1, v1)). rewrite !elem_of_cons in E.
    destruct (decide (k1 = k)) as [->|Hk]; [|naive_solver].
    split; intros Hin; exfalso; apply (list_elem_of_fmap_2 fst) in Hin;
      apply (bytes_lt_irrefl k); auto.
Qed.

#[export] Instance iterator_proper :
  Proper (db_equiv ==> (=) ==> (=) ==> (=)) iterator_cf.
Proof.
  intros d1 d2 E cf ? <- m ? <-.
  assert (iterator_cf d1 cf Start = iterator_cf d2 cf Start) as ES.
  { apply sorted_entries_unique; [apply iterator_sorted..|].
    intros [k v]. by rewrite !iterator_get, E. }
  destruct m as [|k|k]; [done| |]; rewrite ?iterator_forward, ?iterator_reverse; by rewrite ES.
Qed.
End rocks.

(** ** Pagination

    One page keeps rows until the limit and then points at the last kept key;
    the cursor is [None] only when the scan is exhausted. *)

Fixpoint take_while {A} (p : A -> bool) (l : list A) : list A :=
  match l with
  | [] => []
  | a :: l' => if p a then a :: take_while p l' else []
  end.

(** On a list where [p] can only turn from true to false, [take_while] filters. *)
Lemma take_while_filter {A} (R : A -> A -> Prop) (p : A -> bool) (l : list A) :
  StronglySorted R l ->
  (forall a b, R a b -> p b = true -> p a = true) ->
  take_while p l = filter (fun a => p a = true) l.
Proof.
  intros Hs Hc. induction Hs as [|a l Hs IH Ha]; [done|]; simpl.
  rewrite filter_cons. destruct (p a) eqn:E.
  - rewrite decide_True by done. by rewrite IH.
  - rewrite decide_False by done. symmetry. clear IH Hs.
    induction Ha as [|b l Hab _ IH]; [done|]. rewrite filter_cons_False; [done|].
    intros Hb. by rewrite (Hc _ _ Hab Hb) in E.
Qed.

Lemma StronglySorted_filter {A} (R : A -> A -> Prop) (P : A -> Prop)
    `{!forall a, Decision (P a)} (l : list A) :
  StronglySorted R l -> StronglySorted R (filter P l).
Proof.
  induction 1 as [|a l Hs IH Ha]; [constructor|]. rewrite filter_cons.
  destruct (decide (P a)); [|done]. constructor; [done|].
  rewrite Forall_forall in *. intros b [_ Hb]%list_elem_of_filter. auto.
Qed.

Lemma list_filter_all {A} (P : A -> Prop) `{!forall a, Decision (P a)} (l : list A) :
  Forall P l -> filter P l = l.
Proof.
  induction 1 as [|a l Ha _ IH]; [done|]. rewrite filter_cons_True by done. by f_equal.
Qed.

Lemma list_filter_none {A} (P : A -> Prop) `{!forall a, Decision (P a)} (l : list A) :
  Forall (fun a => ~ P a) l -> filter P l = [].
Proof. induction 1 as [|a l Ha _ IH]; [done|]. by rewrite filter_cons_False. Qed.

Lemma StronglySorted_snoc {A} (R : A -> A -> Prop) (l : list A) a :
  StronglySorted R l -> Forall (fun b => R b a) l -> StronglySorted R (l ++ [a]).
Proof.
  induction 1 as [|b l Hs IH Hb]; intros Ha; simpl; [repeat constructor|].
  apply Forall_cons in Ha as [Hba Ha]. constructor; [auto|].
  apply Forall_app; split; [done|]. by constructor.
Qed.

Lemma StronglySorted_reverse {A} (R : A -> A -> Prop) (l : list A) :
  StronglySorted R l -> StronglySorted (flip R) (reverse l).
Proof.
  induction 1 as [|a l Hs IH Ha]; [constructor|]. rewrite reverse_cons.
  apply StronglySorted_snoc; [done|]. unfold flip. by apply Forall_reverse.
Qed.

(** Past a member of a sorted list: exactly its suffix. *)
Lemma filter_after_suffix {A} (R : A -> A -> Prop) `{!RelDecision R, !StrictOrder R}
    (l1 l2 : list A) (c : A) :
  StronglySorted R (l1 ++ c :: l2) -> filter (R c) (l1 ++ c :: l2) = l2.
Proof.
  intros Hs. rewrite filter_app.
  assert (filter (R c) l1 = []) as ->.
  { induction l1 as [|a l1 IH]; [done|]. simpl in Hs.
    apply StronglySorted_inv in Hs as [Hs Ha]. rewrite Forall_forall in Ha.
    rewrite filter_cons_False; [by apply IH|]. intros Hca.
    apply (irreflexivity R c). transitivity a; [done|]. apply Ha. set_solver. }
  assert (Forall (R c) l2 /\ ~ R c c) as [F N].
  { split; [|apply irreflexivity, _]. clear -Hs.
    induction l1 as [|a l1 IH]; simpl in Hs; apply StronglySorted_inv in Hs as [Hs Ha]; auto. }
  simpl. rewrite filter_cons_False by done.
  induction F as [|a l2 Ha F IH]; [done|]. rewrite filter_cons_True by done. f_equal. apply IH.
  clear -Hs. induction l1 as [|b l1 IH]; simpl in *.
  - apply StronglySorted_inv in Hs as [Hs Hc]. apply StronglySorted_inv in Hs as [Hs _].
    apply Forall_cons in Hc as [_ Hc]. by constructor.
  - apply StronglySorted_inv in Hs as [Hs Hb]. constructor; [auto|].
    rewrite Forall_forall in *. set_solver.
Qed.

Section pagination.
Context {A : Type} (row : bytes -> bytes -> option A).
Let row' := fun k v => @Ok Error _ (row k v).

Definition rows (l : list (bytes * bytes)) : list A := omap (fun kv => row kv.1 kv.2) l.

(** The keep and cursor tests restrict the scanned region. *)
Definition region (keep : bytes -> bool) (after : option bytes) (l : list (bytes * bytes)) :=
  filter (fun kv => after <> Some kv.1) (take_while (fun kv => keep kv.1) l).

Lemma page_loop_region keep after limit items last_key l :
  page_loop keep row' after limit items last_key l =
  page_loop (fun _ => true) row' None limit items last_key (region keep after l).
Proof.
  unfold region. revert items last_key.
  induction l as [|[k v] l IH]; intros items last_key; [done|]; simpl.
  destruct (keep k); [|done]. rewrite filter_cons; simpl.
  destruct (decide (after = Some k)) as [->|Hne].
  - rewrite bool_decide_eq_true_2 by done. rewrite decide_False by naive_solver. apply IH.
  - rewrite bool_decide_eq_false_2 by done. rewrite decide_True by done. simpl.
    destruct (bool_decide _); [done|]. destruct (row k v); simpl; apply IH.
Qed.

Lemma page_loop_spec limit items last_key l :
  length items < limit ->
  page_loop (fun _ => true) row' None limit items last_key l =
    Ok (mkPage (items ++ rows l) None) \/
  exists l1 k v l2,
    l = l1 ++ (k, v) :: l2 /\ length (items ++ rows (l1 ++ [(k, v)])) = limit /\
    page_loop (fun _ => true) row' None limit items last_key l =
      Ok (mkPage (items ++ rows (l1 ++ [(k, v)])) (Some k)).
Proof.
  revert items last_key. induction l as [|[k v] l IH]; intros items last_key Hl.
  { left. simpl. unfold rows. simpl. by rewrite app_nil_r. }
  cbn [page_loop negb].
  rewrite (bool_decide_eq_false_2 (None = Some k)), bool_decide_eq_false_2 by done || lia.
  unfold rows; simpl. destruct (row k v) as [a|] eqn:E.
  - destruct (decide (S (length items) < limit)) as [Hlt|Hge].
    + assert (length (items ++ [a]) < limit) as Hl' by (rewrite length_app; simpl; lia).
      destruct (IH _ (Some k) Hl') as [-> | (l1 & k' & v' & l2 & -> & Hlen & ->)].
      * left. by rewrite <- app_assoc.
      * right. exists ((k, v) :: l1), k', v', l2. simpl in *. rewrite E.
        rewrite <- !app_assoc in *. done.
    + destruct l as [|kv l]; [left; done|]. right. exists [], k, v, (kv :: l). simpl.
      rewrite E. split; [done|]. rewrite length_app; simpl. split; [lia|].
      destruct kv as [k' v']. by rewrite bool_decide_eq_true_2 by lia.
  - destruct (IH items last_key Hl) as [-> | (l1 & k' & v' & l2 & -> & Hlen & ->)].
    + by left.
    + right. exists ((k, v) :: l1), k', v', l2. simpl. by rewrite E.
Qed.

(** Following the cursors of a reader lists every row of its region once. *)
Lemma follow_rows (reader : option bytes -> result Error (Page A))
    (reg : option bytes -> list (bytes * bytes)) (valid : option bytes -> Prop) limit :
  0 < limit ->
  (forall after, reader after =
     page_loop (fun _ => true) row' None limit [] None (reg after)) ->
  (forall after l1 k v l2, valid after -> reg after = l1 ++ (k, v) :: l2 ->
     valid (Some k) /\ reg (Some k) = l2) ->
  forall fuel after, valid after -> length (reg after) < fuel ->
  follow fuel reader after = Some (Ok (rows (reg after))).
Proof.
  intros Hlim Hreader Hreg. induction fuel as [|fuel IH]; intros after Hv Hf; [lia|].
  simpl. rewrite Hreader.
  destruct (page_loop_spec limit [] None (reg after)) as [-> | (l1 & k & v & l2 & E & Hl & ->)];
    [done|simpl; done|].
  simpl. destruct (Hreg _ _ _ _ _ Hv E) as [Hv' Ek]. rewrite IH; [|done|].
  - simpl. do 2 f_equal. rewrite Ek, E. unfold rows. rewrite !omap_app. simpl.
    rewrite <- app_assoc. f_equal. by destruct (row k v).
  - rewrite Ek. rewrite E in Hf. rewrite length_app in Hf. simpl in Hf. lia.
Qed.
End pagination.

(** Entries compared by their keys. *)
Definition on_key (R : relation bytes) : relation (bytes * bytes) := fun x y => R x.1 y.1.
#[export] Instance on_key_dec R `{!RelDecision R} : RelDecision (on_key R).
Proof. intros x y. unfold on_key. apply _. Defined.
#[export] Instance on_key_strict R `{!StrictOrder R} : StrictOrder (on_key R).
Proof.
  split; [intros x; apply (irreflexivity R) | intros x y z H1 H2; unfold on_key in *; by etrans].
Qed.
Abbreviation entry_lt := (on_key bytes_lt).
#[export] Instance bytes_lt_rel_dec : RelDecision bytes_lt := bytes_lt_dec.
(** Descending order. *)
Definition bytes_gt (a b : bytes) : Prop := bytes_lt b a.
#[export] Instance bytes_gt_rel_dec : RelDecision bytes_gt.
Proof. intros a b. unfold bytes_gt. apply _. Defined.
#[export] Instance bytes_gt_strict : StrictOrder bytes_gt.
Proof.
  split; [intros x; apply bytes_lt_irrefl | intros x y z H1 H2; by eapply bytes_lt_trans].
Qed.

(** A reader whose cursor means "past this key" resumes at the right suffix. *)
Lemma resume_suffix (R : relation bytes) `{!RelDecision R, !StrictOrder R}
    (L : list (bytes * bytes)) (reg : option bytes -> list (bytes * bytes))
    (valid : option bytes -> Prop) :
  StronglySorted (on_key R) L ->
  reg None = L ->
  (forall k v, (k, v) ∈ L -> valid (Some k)) ->
  (forall c, valid (Some c) -> reg (Some c) = filter (fun kv => R c kv.1) L) ->
  forall after l1 k v l2, valid after -> reg after = l1 ++ (k, v) :: l2 ->
    valid (Some k) /\ reg (Some k) = l2.
Proof.
  intros Hs Hnone Hval Hsome after l1 k v l2 Hv E.
  assert (exists P : bytes * bytes -> Prop, exists HP : forall kv, Decision (P kv),
    reg after = filter P L /\ forall kv, P (k, v) -> R k kv.1 -> P kv) as (P & HP & EP & HPc).
  { destruct after as [c|].
    - exists (fun kv => R c kv.1), _. split; [by apply Hsome|]. simpl. intros kv H1 H2. by etrans.
    - exists (fun _ => True), _. split; [|done]. rewrite Hnone. symmetry. apply list_filter_all.
      by apply Forall_forall. }
  assert ((k, v) ∈ reg after) as Hin by (rewrite E; set_solver).
  rewrite EP in Hin. apply list_elem_of_filter in Hin as [HPk HinL].
  assert (valid (Some k)) as Hvk by eauto. split; [done|]. rewrite Hsome by done.
  rewrite <- (filter_after_suffix (on_key R) l1 l2 (k, v)).
  - rewrite <- E, EP. rewrite list_filter_filter. apply list_filter_iff.
    intros kv. unfold on_key; simpl. split; [|tauto]. intros H. split; [done|by apply HPc].
  - rewrite <- E, EP. by apply StronglySorted_filter.
Qed.

(** Keys with a given prefix are contiguous. *)
Lemma prefix_convex p a b :
  bytes_le p a -> bytes_lt a b -> starts_with b p = true -> starts_with a p = true.
Proof.
  rewrite !starts_with_spec. intros Hpa Hab [q ->]. revert a Hpa Hab.
  induction p as [|x p IH]; intros [|y a]; [eauto..| |].
  - unfold bytes_le; simpl. done.
  - unfold bytes_le, bytes_lt; simpl.
    destruct (Z.compare_spec (byte.unsigned x) (byte.unsigned y)) as [E|E|E];
    destruct (Z.compare_spec (byte.unsigned y) (byte.unsigned x)) as [E'|E'|E']; try done; try lia.
    intros H1 H2. apply byte.unsigned_inj in E as ->.
    destruct (IH a H1 H2) as [r ->]. by exists r.
Qed.

Section iterators.
Context `{RocksDB}.

Lemma iterator_entries_sorted d cf : StronglySorted entry_lt (iterator_cf d cf Start).
Proof.
  pose proof (iterator_sorted d cf) as Hs. induction (iterator_cf d cf Start) as [|x l IH];
    [constructor|]. apply StronglySorted_inv in Hs as [Hs Hx]. constructor; [by apply IH|].
  by apply (Forall_fmap (fst : bytes * bytes -> bytes)) in Hx.
Qed.

(** The rows under a prefix, by ascending key. *)
Definition prefix_entries (d : DB) (cf : Cf) (p : bytes) : list (bytes * bytes) :=
  filter (fun kv => starts_with kv.1 p = true) (iterator_cf d cf Start).

Lemma elem_of_prefix_entries d cf p k v :
  (k, v) ∈ prefix_entries d cf p <-> starts_with k p = true /\ get_cf d cf k = Some v.
Proof. unfold prefix_entries. by rewrite list_elem_of_filter, iterator_get. Qed.

Lemma prefix_entries_proper d1 d2 cf p :
  db_equiv d1 d2 -> prefix_entries d1 cf p = prefix_entries d2 cf p.
Proof. intros E. unfold prefix_entries. by rewrite (iterator_proper _ _ E cf cf eq_refl Start Start eq_refl). Qed.

Lemma prefix_entries_sorted d cf p : StronglySorted entry_lt (prefix_entries d cf p).
Proof. apply StronglySorted_filter, iterator_entries_sorted. Qed.

Lemma filter_le_sw d cf p s :
  starts_with s p = true ->
  take_while (fun kv => starts_with kv.1 p) (iterator_cf d cf (FromForward s)) =
  filter (fun kv => bytes_le s kv.1) (prefix_entries d cf p).
Proof.
  intros Hs. rewrite iterator_forward. unfold prefix_entries. rewrite list_filter_filter.
  pose proof (iterator_entries_sorted d cf) as Hsort.
  induction Hsort as [|x l Hsort IH Hx]; [done|].
  rewrite !filter_cons. destruct (decide (bytes_le s x.1)) as [Hle|Hle].
  - simpl. destruct (starts_with x.1 p) eqn:E.
    + rewrite decide_True by done. by rewrite IH.
    + rewrite decide_False by naive_solver. clear IH Hsort. symmetry.
      induction Hx as [|y l Hxy Hl IH]; [done|]. rewrite filter_cons_False; [done|].
      intros Hy. rewrite (prefix_convex p x.1 y.1) in E; [done| |done|tauto].
      eapply bytes_le_trans; [by apply prefix_le|done].
  - rewrite decide_False by tauto. apply IH.
Qed.

(** The region of a forward prefix scan. *)
Definition fwd_region (d : DB) (cf : Cf) (p : bytes) (after : option bytes) :=
  region (fun k => starts_with k p) after (iterator_cf d cf (FromForward (default p after))).
Definition cursor_in (p : bytes) (after : option bytes) : Prop :=
  match after with None => True | Some c => starts_with c p = true end.

Lemma fwd_region_None d cf p : fwd_region d cf p None = prefix_entries d cf p.
Proof.
  unfold fwd_region, region. simpl. rewrite filter_le_sw.
  - rewrite list_filter_all; [|by apply Forall_forall]. apply list_filter_all.
    apply Forall_forall. intros [k v] Hk%elem_of_prefix_entries. apply prefix_le, Hk.
  - rewrite <- (app_nil_r p) at 1. apply starts_with_app.
Qed.

Lemma fwd_region_Some d cf p c :
  starts_with c p = true ->
  fwd_region d cf p (Some c) = filter (fun kv => bytes_lt c kv.1) (prefix_entries d cf p).
Proof.
  intros Hc. unfold fwd_region, region. simpl. rewrite filter_le_sw by done.
  rewrite list_filter_filter. apply list_filter_iff. intros [k v]; simpl.
  rewrite bytes_le_lteq. split; [naive_solver|]. intros Hlt. split; [|by left].
  intros [= ->]. by apply (bytes_lt_irrefl k).
Qed.

Lemma fwd_region_resume d cf p after l1 k v l2 :
  cursor_in p after -> fwd_region d cf p after = l1 ++ (k, v) :: l2 ->
  cursor_in p (Some k) /\ fwd_region d cf p (Some k) = l2.
Proof.
  apply (resume_suffix bytes_lt (prefix_entries d cf p)).
  - apply prefix_entries_sorted.
  - apply fwd_region_None.
  - intros k' v' Hk. apply elem_of_prefix_entries in Hk. apply Hk.
  - intros c Hc. by apply fwd_region_Some.
Qed.

(** A whole-family scan is the scan of the empty prefix. *)
Lemma iterator_start_nil d cf : iterator_cf d cf Start = iterator_cf d cf (FromForward []).
Proof.
  rewrite iterator_forward. symmetry. apply list_filter_all. apply Forall_forall.
  intros [[|b k] v] _; done.
Qed.
Lemma starts_with_nil k : starts_with k [] = true.
Proof. apply (starts_with_app []). Qed.

(** A reader that scans a prefix forward lists all the prefix's rows, each
    once, however the pages are cut. *)
Lemma follow_forward {A} (row : bytes -> bytes -> option A) d cf p limit fuel :
  0 < limit -> length (prefix_entries d cf p) < fuel ->
  follow fuel
    (fun after => page_loop (fun k => starts_with k p) (fun k v => Ok (row k v)) after limit
       [] None (iterator_cf d cf (FromForward (default p after)))) None =
  Some (Ok (rows row (prefix_entries d cf p))).
Proof.
  intros Hlim Hf. rewrite <- fwd_region_None.
  apply (follow_rows row _ (fwd_region d cf p) (cursor_in p) limit); [done| |..].
  - intros after. apply page_loop_region.
  - apply fwd_region_resume.
  - done.
  - by rewrite fwd_region_None.
Qed.

(** The same for a descending scan from [top]. *)
Lemma follow_reverse {A} (row : bytes -> bytes -> option A) d cf top limit fuel :
  let L := reverse (filter (fun kv => bytes_le kv.1 top) (iterator_cf d cf Start)) in
  0 < limit -> length L < fuel ->
  follow fuel
    (fun after => page_loop (fun _ => true) (fun k v => Ok (row k v)) after limit
       [] None (iterator_cf d cf (FromReverse (default top after)))) None =
  Some (Ok (rows row L)).
Proof.
  intros L Hlim Hf.
  set (reg after := region (fun _ => true) after
                      (iterator_cf d cf (FromReverse (default top after)))).
  set (valid after := match after with None => True | Some c => bytes_le c top end).
  assert (forall l, take_while (fun _ : bytes * bytes => true) l = l) as Htw.
  { induction l as [|x l IH]; simpl; congruence. }
  assert (reg None = L) as Hnone.
  { unfold reg, region. rewrite Htw, iterator_reverse. simpl.
    apply list_filter_all. by apply Forall_forall. }
  rewrite <- Hnone. apply (follow_rows row _ reg valid limit); [done| | |done|by rewrite Hnone].
  { intros after. apply page_loop_region. }
  apply (resume_suffix bytes_gt L); [|done|..].
  - apply (StronglySorted_reverse (on_key bytes_lt)), StronglySorted_filter,
      iterator_entries_sorted.
  - intros k v Hk. unfold L in Hk. rewrite elem_of_reverse, list_elem_of_filter in Hk. apply Hk.
  - intros c Hc. unfold reg, region, L. rewrite Htw, iterator_reverse. simpl.
    rewrite !filter_reverse, !list_filter_filter. f_equal. apply list_filter_iff.
    intros [k v]; simpl. unfold bytes_gt. rewrite !bytes_le_lteq. split.
    + intros [Hne [Hlt| ->]]; [|naive_solver]. split; [done|].
      apply bytes_le_lteq. eapply bytes_le_trans; [by apply bytes_lt_le|done].
    + intros [Hlt Hle]. split; [|by left]. intros [= ->]. by apply (bytes_lt_irrefl k).
Qed.
End iterators.

Lemma page_loop_ext {A} keep (row row' : bytes -> bytes -> result Error (option A)) after limit
    items last_key l :
  (forall k v, (k, v) ∈ l -> row k v = row' k v) ->
  page_loop keep row after limit items last_key l = page_loop keep row' after limit items last_key l.
Proof.
  revert items last_key. induction l as [|[k v] l IH]; intros items last_key E; [done|]. simpl.
  assert (forall i lk, page_loop keep row after limit i lk l =
                       page_loop keep row' after limit i lk l) as IH'.
  { intros i lk. apply IH. intros k' v' Hin. apply E. by apply list_elem_of_further. }
  rewrite (E k v) by apply list_elem_of_here.
  destruct (keep k), (bool_decide (after = Some k)), (bool_decide (limit <= length items)); simpl;
    try done; destruct (row' k v) as [[a|]|]; simpl; auto.
Qed.

Lemma follow_ext {A} (reader reader' : option bytes -> result Error (Page A)) fuel after :
  (forall after, reader after = reader' after) ->
  follow fuel reader after = follow fuel reader' after.
Proof.
  intros E. revert after. induction fuel as [|fuel IH]; intros after; [done|]. simpl.
  rewrite E. destruct (reader' after) as [p|]; [|done].
  destruct (pg_next_cursor p); [|done]. by rewrite IH.
Qed.

Lemma rows_ext {A} (f g : bytes -> bytes -> option A) l :
  (forall k v, f k v = g k v) -> rows f l = rows g l.
Proof.
  intros E. unfold rows. induction l as [|[k v] l IH]; [done|]. simpl. rewrite E.
  destruct (g k v); [f_equal|]; apply IH.
Qed.

Section runs.
Definition runs {S A} (m : ST S A) (Q : A -> S -> S -> Prop) : Prop :=
  forall s, exists a s', m s = (Ok a, s') /\ Q a s s'.
Lemma runs_ret {S A} (a : A) (Q : A -> S -> S -> Prop) : (forall s, Q a s s) -> runs (mret a) Q.
Proof. intros HQ s. by exists a, s. Qed.
Lemma runs_bind {S A B} (m : ST S A) (f : A -> ST S B) Q1 (Q : B -> S -> S -> Prop) :
  runs m Q1 -> (forall a, runs (f a) (fun b s1 s2 => forall s, Q1 a s s1 -> Q b s s2)) ->
  runs (m ≫= f) Q.
Proof.
  intros Hm Hf s. destruct (Hm s) as (a & s1 & E & HQ1). destruct (Hf a s1) as (b & s2 & E2 & HQ).
  exists b, s2. unfold mbind, ST_bind. rewrite E. auto.
Qed.
Lemma runs_conseq {S A} (m : ST S A) (Q Q' : A -> S -> S -> Prop) :
  runs m Q -> (forall a s s', Q a s s' -> Q' a s s') -> runs m Q'.
Proof. intros Hm HQ s. destruct (Hm s) as (a & s' & E & Hq). exists a, s'. auto. Qed.
Definition returns {S A} (m : ST S A) : Prop := runs m (fun _ _ _ => True).
Lemma returns_bind {S A B} (m : ST S A) (f : A -> ST S B) :
  returns m -> (forall a, returns (f a)) -> returns (m ≫= f).
Proof. intros Hm Hf. eapply runs_bind; [exact Hm|]. intros a. by eapply runs_conseq; [apply Hf|]. Qed.
(** What a run that succeeded says of its parts. *)
Lemma ST_bind_ok {S A B} (m : ST S A) (f : A -> ST S B) s b s' :
  (m ≫= f) s = (Ok b, s') -> exists a s1, m s = (Ok a, s1) /\ f a s1 = (Ok b, s').
Proof.
  unfold mbind, ST_bind. destruct (m s) as [[a|e] s1]; [|done]. eauto.
Qed.
End runs.
