(* ===== verification/Concrete.v ===== *)
(** * Concrete crates

    One model of each crate interface, used by the witnesses of the theorems:
    messages are serialised through trees of integers and strings, base58,
    base64 and hex are the identity on bytes, and a store is a finite map per
    column family. *)

From stdpp Require Import countable.
From S2P Require Import Prelude Ids Proto Codec Store.

#[local] Unset Program Cases.

(** ** A serialisation of the messages *)
Abbreviation tree := (gen_tree (Z + bytes)).

Class Tree (M : Type) := {
  to_tree : M -> tree;
  of_tree : tree -> option M;
  of_to_tree m : of_tree (to_tree m) = Some m;
}.
#[export] Hint Rewrite @of_to_tree : tree.
Ltac tree_solve :=
  intros []; cbn [mbind option_bind]; rewrite ?of_to_tree; cbn [mbind option_bind];
  repeat (rewrite of_to_tree; cbn [mbind option_bind fmap option_fmap option_map]); reflexivity.

#[export] Program Instance Z_tree : Tree Z := {|
  to_tree z := GenLeaf (inl z);
  of_tree t := match t with GenLeaf (inl z) => Some z | _ => None end |}.
Solve Obligations with done.
#[export] Program Instance bytes_tree : Tree bytes := {|
  to_tree b := GenLeaf (inr b);
  of_tree t := match t with GenLeaf (inr b) => Some b | _ => None end |}.
Solve Obligations with done.
#[export] Program Instance string_tree : Tree string := {|
  to_tree s := to_tree (as_bytes s);
  of_tree t := of_bytes <$> of_tree t |}.
Next Obligation. intros s. simpl. by rewrite of_as_bytes. Qed.
#[export] Program Instance bool_tree : Tree bool := {|
  to_tree b := GenLeaf (inl (if b then 1 else 0)%Z);
  of_tree t := match t with GenLeaf (inl z) => Some (Z.eqb z 1) | _ => None end |}.
Next Obligation. by intros []. Qed.
#[export] Program Instance list_tree `{Tree M} : Tree (list M) := {|
  to_tree l := GenNode 0 (to_tree <$> l);
  of_tree t := match t with GenNode 0 ts => mapM of_tree ts | _ => None end |}.
Next Obligation.
  intros M HM l. simpl. induction l as [|x l IH]; [done|]. rewrite fmap_cons. simpl.
  rewrite of_to_tree. simpl. by rewrite IH.
Qed.
#[export] Program Instance option_tree `{Tree M} : Tree (option M) := {|
  to_tree o := GenNode 0 (match o with Some x => [to_tree x] | None => [] end);
  of_tree t := match t with
    | GenNode 0 [] => Some None | GenNode 0 [x] => Some <$> of_tree x | _ => None end |}.
Next Obligation. intros M HM [x|]; simpl; [by rewrite of_to_tree|done]. Qed.

#[export] Program Instance SlotPb_tree : Tree SlotPb := {|
  to_tree m := GenNode 0
    [to_tree (sp_period m); to_tree (sp_thread m)];
  of_tree t := match t with
    | GenNode 0 [t0; t1] => x0 ← of_tree t0; x1 ← of_tree t1; Some (mkSlotPb x0 x1)
    | _ => None end |}.
Solve Obligations with tree_solve.

#[export] Program Instance SlotCompletenessPb_tree : Tree SlotCompletenessPb := {|
  to_tree m := GenNode 0
    [to_tree (cp_block_body_stored m); to_tree (cp_exec_output_final m); to_tree
    (cp_exec_output_candidate m); to_tree (cp_transfers_stored m)];
  of_tree t := match t with
    | GenNode 0 [t0; t1; t2; t3] => x0 ← of_tree t0; x1 ← of_tree t1; x2 ← of_tree t2; x3 ←
    of_tree t3; Some (mkSlotCompletenessPb x0 x1 x2 x3)
    | _ => None end |}.
Solve Obligations with tree_solve.

#[export] Program Instance SlotStatePb_tree : Tree SlotStatePb := {|
  to_tree m := GenNode 0
    [to_tree (ssp_slot m); to_tree (ssp_status m); to_tree (ssp_is_miss m); to_tree
    (ssp_final_block_id_key m); to_tree (ssp_candidate_block_id_keys m); to_tree
    (ssp_execution_trail_hash m); to_tree (ssp_executed_op_id_keys m); to_tree
    (ssp_sc_event_count m); to_tree (ssp_completeness m); to_tree (ssp_first_seen_ts_ms m);
    to_tree (ssp_last_updated_ts_ms m)];
  of_tree t := match t with
    | GenNode 0 [t0; t1; t2; t3; t4; t5; t6; t7; t8; t9; t10] => x0 ← of_tree t0; x1 ←
    of_tree t1; x2 ← of_tree t2; x3 ← of_tree t3; x4 ← of_tree t4; x5 ← of_tree t5; x6 ←
    of_tree t6; x7 ← of_tree t7; x8 ← of_tree t8; x9 ← of_tree t9; x10 ← of_tree t10; Some
    (mkSlotStatePb x0 x1 x2 x3 x4 x5 x6 x7 x8 x9 x10)
    | _ => None end |}.
Solve Obligations with tree_solve.

#[export] Program Instance MetaRowPb_tree : Tree MetaRowPb := {|
  to_tree m := GenNode 0
    [to_tree (mp_network m); to_tree (mp_genesis_timestamp_ms m); to_tree (mp_t0_ms m);
    to_tree (mp_thread_count m); to_tree (mp_last_final_slot m); to_tree
    (mp_has_last_final_slot m); to_tree (mp_last_candidate_slot m); to_tree
    (mp_has_last_candidate_slot m); to_tree (mp_build_version m); to_tree (mp_created_at_ms
    m); to_tree (mp_updated_at_ms m)];
  of_tree t := match t with
    | GenNode 0 [t0; t1; t2; t3; t4; t5; t6; t7; t8; t9; t10] => x0 ← of_tree t0; x1 ←
    of_tree t1; x2 ← of_tree t2; x3 ← of_tree t3; x4 ← of_tree t4; x5 ← of_tree t5; x6 ←
    of_tree t6; x7 ← of_tree t7; x8 ← of_tree t8; x9 ← of_tree t9; x10 ← of_tree t10; Some
    (mkMetaRowPb x0 x1 x2 x3 x4 x5 x6 x7 x8 x9 x10)
    | _ => None end |}.
Solve Obligations with tree_solve.

#[export] Program Instance StoredEndorsementPb_tree : Tree StoredEndorsementPb := {|
  to_tree m := GenNode 0
    [to_tree (ep_id_key m); to_tree (ep_slot m); to_tree (ep_index m); to_tree
    (ep_endorsed_block_id_key m); to_tree (ep_content_creator_pub_key m); to_tree
    (ep_content_creator_address_key m); to_tree (ep_signature m); to_tree
    (ep_serialized_size m); to_tree (ep_included_block_id_key m); to_tree (ep_included_slot
    m); to_tree (ep_first_seen_ts_ms m)];
  of_tree t := match t with
    | GenNode 0 [t0; t1; t2; t3; t4; t5; t6; t7; t8; t9; t10] => x0 ← of_tree t0; x1 ←
    of_tree t1; x2 ← of_tree t2; x3 ← of_tree t3; x4 ← of_tree t4; x5 ← of_tree t5; x6 ←
    of_tree t6; x7 ← of_tree t7; x8 ← of_tree t8; x9 ← of_tree t9; x10 ← of_tree t10; Some
    (mkStoredEndorsementPb x0 x1 x2 x3 x4 x5 x6 x7 x8 x9 x10)
    | _ => None end |}.
Solve Obligations with tree_solve.

#[export] Program Instance DenunciationBlockHeaderPb_tree : Tree DenunciationBlockHeaderPb := {|
  to_tree m := GenNode 0
    [to_tree (dbp_public_key m); to_tree (dbp_slot m); to_tree (dbp_hash_1 m); to_tree
    (dbp_hash_2 m); to_tree (dbp_signature_1 m); to_tree (dbp_signature_2 m)];
  of_tree t := match t with
    | GenNode 0 [t0; t1; t2; t3; t4; t5] => x0 ← of_tree t0; x1 ← of_tree t1; x2 ← of_tree
    t2; x3 ← of_tree t3; x4 ← of_tree t4; x5 ← of_tree t5; Some (mkDenunciationBlockHeaderPb
    x0 x1 x2 x3 x4 x5)
    | _ => None end |}.
Solve Obligations with tree_solve.

#[export] Program Instance DenunciationEndorsementPb_tree : Tree DenunciationEndorsementPb := {|
  to_tree m := GenNode 0
    [to_tree (dep_public_key m); to_tree (dep_slot m); to_tree (dep_index m); to_tree
    (dep_hash_1 m); to_tree (dep_hash_2 m); to_tree (dep_signature_1 m); to_tree
    (dep_signature_2 m)];
  of_tree t := match t with
    | GenNode 0 [t0; t1; t2; t3; t4; t5; t6] => x0 ← of_tree t0; x1 ← of_tree t1; x2 ←
    of_tree t2; x3 ← of_tree t3; x4 ← of_tree t4; x5 ← of_tree t5; x6 ← of_tree t6; Some
    (mkDenunciationEndorsementPb x0 x1 x2 x3 x4 x5 x6)
    | _ => None end |}.
Solve Obligations with tree_solve.

#[export] Program Instance DenunciationAddressPb_tree : Tree DenunciationAddressPb := {|
  to_tree m := GenNode 0
    [to_tree (dap_address_denounced m); to_tree (dap_slot m); to_tree (dap_slashed_nmas m)];
  of_tree t := match t with
    | GenNode 0 [t0; t1; t2] => x0 ← of_tree t0; x1 ← of_tree t1; x2 ← of_tree t2; Some
    (mkDenunciationAddressPb x0 x1 x2)
    | _ => None end |}.
Solve Obligations with tree_solve.

#[export] Program Instance DenunciationKindPb_tree : Tree DenunciationKindPb := {|
  to_tree k := match k with
    | KindBlockHeader x => GenNode 0 [to_tree x] | KindEndorsement x => GenNode 1 [to_tree x]
    | KindAddress x => GenNode 2 [to_tree x] | KindUnknown => GenNode 3 [] end;
  of_tree t := match t with
    | GenNode 0 [x] => KindBlockHeader <$> of_tree x
    | GenNode 1 [x] => KindEndorsement <$> of_tree x
    | GenNode 2 [x] => KindAddress <$> of_tree x
    | GenNode 3 [] => Some KindUnknown | _ => None end |}.
Solve Obligations with tree_solve.

#[export] Program Instance StoredDenunciationPb_tree : Tree StoredDenunciationPb := {|
  to_tree m := GenNode 0
    [to_tree (dp_kind m)];
  of_tree t := match t with
    | GenNode 0 [t0] => x0 ← of_tree t0; Some (mkStoredDenunciationPb x0)
    | _ => None end |}.
Solve Obligations with tree_solve.

#[export] Program Instance StoredDenunciationEntryPb_tree : Tree StoredDenunciationEntryPb := {|
  to_tree m := GenNode 0
    [to_tree (dnp_hash m); to_tree (dnp_slot m); to_tree (dnp_kind m); to_tree
    (dnp_denounced_addr_key m); to_tree (dnp_has_denounced_addr m); to_tree
    (dnp_denunciation m); to_tree (dnp_included_block_id_key m); to_tree
    (dnp_has_included_block_id m); to_tree (dnp_included_slot m); to_tree
    (dnp_has_included_slot m); to_tree (dnp_first_seen_ts_ms m)];
  of_tree t := match t with
    | GenNode 0 [t0; t1; t2; t3; t4; t5; t6; t7; t8; t9; t10] => x0 ← of_tree t0; x1 ←
    of_tree t1; x2 ← of_tree t2; x3 ← of_tree t3; x4 ← of_tree t4; x5 ← of_tree t5; x6 ←
    of_tree t6; x7 ← of_tree t7; x8 ← of_tree t8; x9 ← of_tree t9; x10 ← of_tree t10; Some
    (mkStoredDenunciationEntryPb x0 x1 x2 x3 x4 x5 x6 x7 x8 x9 x10)
    | _ => None end |}.
Solve Obligations with tree_solve.

#[export] Program Instance StoredBlockPb_tree : Tree StoredBlockPb := {|
  to_tree m := GenNode 0
    [to_tree (bp_id_key m); to_tree (bp_slot m); to_tree (bp_creator_key m); to_tree
    (bp_parent_keys m); to_tree (bp_operation_id_keys m); to_tree (bp_endorsements m);
    to_tree (bp_endorsement_ids m); to_tree (bp_denunciations m); to_tree
    (bp_current_version m); to_tree (bp_announced_version m); to_tree
    (bp_has_announced_version m); to_tree (bp_operations_hash m); to_tree (bp_signature m);
    to_tree (bp_content_creator_pub_key m); to_tree (bp_serialized_size m); to_tree
    (bp_raw_signed_header m); to_tree (bp_status m); to_tree (bp_first_seen_ts_ms m)];
  of_tree t := match t with
    | GenNode 0 [t0; t1; t2; t3; t4; t5; t6; t7; t8; t9; t10; t11; t12; t13; t14; t15; t16;
    t17] => x0 ← of_tree t0; x1 ← of_tree t1; x2 ← of_tree t2; x3 ← of_tree t3; x4 ← of_tree
    t4; x5 ← of_tree t5; x6 ← of_tree t6; x7 ← of_tree t7; x8 ← of_tree t8; x9 ← of_tree t9;
    x10 ← of_tree t10; x11 ← of_tree t11; x12 ← of_tree t12; x13 ← of_tree t13; x14 ←
    of_tree t14; x15 ← of_tree t15; x16 ← of_tree t16; x17 ← of_tree t17; Some
    (mkStoredBlockPb x0 x1 x2 x3 x4 x5 x6 x7 x8 x9 x10 x11 x12 x13 x14 x15 x16 x17)
    | _ => None end |}.
Solve Obligations with tree_solve.

#[export] Program Instance DatastoreEntryPb_tree : Tree DatastoreEntryPb := {|
  to_tree m := GenNode 0
    [to_tree (dsp_key_hex m); to_tree (dsp_value_hex m)];
  of_tree t := match t with
    | GenNode 0 [t0; t1] => x0 ← of_tree t0; x1 ← of_tree t1; Some (mkDatastoreEntryPb x0
    x1)
    | _ => None end |}.
Solve Obligations with tree_solve.

#[export] Program Instance OperationDetailsPb_tree : Tree OperationDetailsPb := {|
  to_tree m := GenNode 0
    [to_tree (odp_amount_nmas m); to_tree (odp_has_amount_nmas m); to_tree
    (odp_recipient_address m); to_tree (odp_has_recipient_address m); to_tree
    (odp_roll_count m); to_tree (odp_has_roll_count m); to_tree (odp_target_address m);
    to_tree (odp_has_target_address m); to_tree (odp_target_function m); to_tree
    (odp_has_target_function m); to_tree (odp_parameter_hex m); to_tree
    (odp_has_parameter_hex m); to_tree (odp_parameter_len m); to_tree (odp_has_parameter_len
    m); to_tree (odp_coins_nmas m); to_tree (odp_has_coins_nmas m); to_tree (odp_max_gas m);
    to_tree (odp_has_max_gas m); to_tree (odp_bytecode_hex m); to_tree (odp_has_bytecode_hex
    m); to_tree (odp_bytecode_size m); to_tree (odp_has_bytecode_size m); to_tree
    (odp_max_coins_nmas m); to_tree (odp_has_max_coins_nmas m); to_tree (odp_datastore m);
    to_tree (odp_datastore_keys m); to_tree (odp_has_datastore_keys m)];
  of_tree t := match t with
    | GenNode 0 [t0; t1; t2; t3; t4; t5; t6; t7; t8; t9; t10; t11; t12; t13; t14; t15; t16;
    t17; t18; t19; t20; t21; t22; t23; t24; t25; t26] => x0 ← of_tree t0; x1 ← of_tree t1;
    x2 ← of_tree t2; x3 ← of_tree t3; x4 ← of_tree t4; x5 ← of_tree t5; x6 ← of_tree t6; x7
    ← of_tree t7; x8 ← of_tree t8; x9 ← of_tree t9; x10 ← of_tree t10; x11 ← of_tree t11;
    x12 ← of_tree t12; x13 ← of_tree t13; x14 ← of_tree t14; x15 ← of_tree t15; x16 ←
    of_tree t16; x17 ← of_tree t17; x18 ← of_tree t18; x19 ← of_tree t19; x20 ← of_tree t20;
    x21 ← of_tree t21; x22 ← of_tree t22; x23 ← of_tree t23; x24 ← of_tree t24; x25 ←
    of_tree t25; x26 ← of_tree t26; Some (mkOperationDetailsPb x0 x1 x2 x3 x4 x5 x6 x7 x8 x9
    x10 x11 x12 x13 x14 x15 x16 x17 x18 x19 x20 x21 x22 x23 x24 x25 x26)
    | _ => None end |}.
Solve Obligations with tree_solve.

#[export] Program Instance OperationInclusionPb_tree : Tree OperationInclusionPb := {|
  to_tree m := GenNode 0
    [to_tree (ip_slot m); to_tree (ip_block_id_key m)];
  of_tree t := match t with
    | GenNode 0 [t0; t1] => x0 ← of_tree t0; x1 ← of_tree t1; Some (mkOperationInclusionPb
    x0 x1)
    | _ => None end |}.
Solve Obligations with tree_solve.

#[export] Program Instance StoredOperationPb_tree : Tree StoredOperationPb := {|
  to_tree m := GenNode 0
    [to_tree (opp_id_key m); to_tree (opp_creator_key m); to_tree (opp_target_key m);
    to_tree (opp_has_target m); to_tree (opp_kind m); to_tree (opp_expire_period m); to_tree
    (opp_fee_nmas m); to_tree (opp_thread m); to_tree (opp_inclusions m); to_tree
    (opp_candidate_exec_status m); to_tree (opp_has_candidate_exec_status m); to_tree
    (opp_final_exec_status m); to_tree (opp_has_final_exec_status m); to_tree (opp_details
    m); to_tree (opp_signature m); to_tree (opp_content_creator_pub_key m); to_tree
    (opp_serialized_size m); to_tree (opp_raw_signed_op m); to_tree (opp_first_seen_ts_ms
    m)];
  of_tree t := match t with
    | GenNode 0 [t0; t1; t2; t3; t4; t5; t6; t7; t8; t9; t10; t11; t12; t13; t14; t15; t16;
    t17; t18] => x0 ← of_tree t0; x1 ← of_tree t1; x2 ← of_tree t2; x3 ← of_tree t3; x4 ←
    of_tree t4; x5 ← of_tree t5; x6 ← of_tree t6; x7 ← of_tree t7; x8 ← of_tree t8; x9 ←
    of_tree t9; x10 ← of_tree t10; x11 ← of_tree t11; x12 ← of_tree t12; x13 ← of_tree t13;
    x14 ← of_tree t14; x15 ← of_tree t15; x16 ← of_tree t16; x17 ← of_tree t17; x18 ←
    of_tree t18; Some (mkStoredOperationPb x0 x1 x2 x3 x4 x5 x6 x7 x8 x9 x10 x11 x12 x13 x14
    x15 x16 x17 x18)
    | _ => None end |}.
Solve Obligations with tree_solve.

#[export] Program Instance StoredScEventPb_tree : Tree StoredScEventPb := {|
  to_tree m := GenNode 0
    [to_tree (evp_slot m); to_tree (evp_index_in_slot m); to_tree (evp_data m); to_tree
    (evp_emitter_addr_keys m); to_tree (evp_caller_addr_keys m); to_tree (evp_status m);
    to_tree (evp_op_id_key m); to_tree (evp_has_op_id m)];
  of_tree t := match t with
    | GenNode 0 [t0; t1; t2; t3; t4; t5; t6; t7] => x0 ← of_tree t0; x1 ← of_tree t1; x2 ←
    of_tree t2; x3 ← of_tree t3; x4 ← of_tree t4; x5 ← of_tree t5; x6 ← of_tree t6; x7 ←
    of_tree t7; Some (mkStoredScEventPb x0 x1 x2 x3 x4 x5 x6 x7)
    | _ => None end |}.
Solve Obligations with tree_solve.

#[export] Program Instance TransferValueKindPb_tree : Tree TransferValueKindPb := {|
  to_tree k := match k with
    | ValueCoins z => GenNode 0 [to_tree z] | ValueRolls z => GenNode 1 [to_tree z]
    | ValueDeferredCredits z => GenNode 2 [to_tree z] | ValueUnknown => GenNode 3 [] end;
  of_tree t := match t with
    | GenNode 0 [x] => ValueCoins <$> of_tree x
    | GenNode 1 [x] => ValueRolls <$> of_tree x
    | GenNode 2 [x] => ValueDeferredCredits <$> of_tree x
    | GenNode 3 [] => Some ValueUnknown | _ => None end |}.
Solve Obligations with tree_solve.

#[export] Program Instance TransferValuePb_tree : Tree TransferValuePb := {|
  to_tree m := GenNode 0
    [to_tree (tvp_value m)];
  of_tree t := match t with
    | GenNode 0 [t0] => x0 ← of_tree t0; Some (mkTransferValuePb x0)
    | _ => None end |}.
Solve Obligations with tree_solve.

#[export] Program Instance CoinOriginPb_tree : Tree CoinOriginPb := {|
  to_tree m := GenNode 0
    [to_tree (cop_kind m); to_tree (cop_other_code m)];
  of_tree t := match t with
    | GenNode 0 [t0; t1] => x0 ← of_tree t0; x1 ← of_tree t1; Some (mkCoinOriginPb x0 x1)
    | _ => None end |}.
Solve Obligations with tree_solve.

#[export] Program Instance StoredTransferPb_tree : Tree StoredTransferPb := {|
  to_tree m := GenNode 0
    [to_tree (tp_slot m); to_tree (tp_index_in_slot m); to_tree (tp_id m); to_tree
    (tp_block_id m); to_tree (tp_has_block_id m); to_tree (tp_block_timestamp_ms m); to_tree
    (tp_from m); to_tree (tp_has_from m); to_tree (tp_to m); to_tree (tp_has_to m); to_tree
    (tp_value m); to_tree (tp_origin m); to_tree (tp_operation_id m); to_tree
    (tp_has_operation_id m); to_tree (tp_async_msg_id m); to_tree (tp_has_async_msg_id m);
    to_tree (tp_deferred_call_id m); to_tree (tp_has_deferred_call_id m); to_tree
    (tp_denunciation_index m); to_tree (tp_has_denunciation_index m); to_tree (tp_is_final
    m); to_tree (tp_first_seen_ts_ms m)];
  of_tree t := match t with
    | GenNode 0 [t0; t1; t2; t3; t4; t5; t6; t7; t8; t9; t10; t11; t12; t13; t14; t15; t16;
    t17; t18; t19; t20; t21] => x0 ← of_tree t0; x1 ← of_tree t1; x2 ← of_tree t2; x3 ←
    of_tree t3; x4 ← of_tree t4; x5 ← of_tree t5; x6 ← of_tree t6; x7 ← of_tree t7; x8 ←
    of_tree t8; x9 ← of_tree t9; x10 ← of_tree t10; x11 ← of_tree t11; x12 ← of_tree t12;
    x13 ← of_tree t13; x14 ← of_tree t14; x15 ← of_tree t15; x16 ← of_tree t16; x17 ←
    of_tree t17; x18 ← of_tree t18; x19 ← of_tree t19; x20 ← of_tree t20; x21 ← of_tree t21;
    Some (mkStoredTransferPb x0 x1 x2 x3 x4 x5 x6 x7 x8 x9 x10 x11 x12 x13 x14 x15 x16 x17
    x18 x19 x20 x21)
    | _ => None end |}.
Solve Obligations with tree_solve.

#[export] Program Instance AsyncTriggerPb_tree : Tree AsyncTriggerPb := {|
  to_tree m := GenNode 0
    [to_tree (atp_address m); to_tree (atp_datastore_key_hex m); to_tree
    (atp_has_datastore_key m)];
  of_tree t := match t with
    | GenNode 0 [t0; t1; t2] => x0 ← of_tree t0; x1 ← of_tree t1; x2 ← of_tree t2; Some
    (mkAsyncTriggerPb x0 x1 x2)
    | _ => None end |}.
Solve Obligations with tree_solve.

#[export] Program Instance StoredAsyncMsgPb_tree : Tree StoredAsyncMsgPb := {|
  to_tree m := GenNode 0
    [to_tree (amp_id m); to_tree (amp_sender_key m); to_tree (amp_has_sender m); to_tree
    (amp_destination_key m); to_tree (amp_has_destination m); to_tree (amp_handler m);
    to_tree (amp_has_handler m); to_tree (amp_coins_nmas m); to_tree (amp_max_gas m);
    to_tree (amp_fee_nmas m); to_tree (amp_emission_slot m); to_tree (amp_has_emission_slot
    m); to_tree (amp_validity_start m); to_tree (amp_has_validity_start m); to_tree
    (amp_validity_end m); to_tree (amp_has_validity_end m); to_tree (amp_state m); to_tree
    (amp_last_slot m); to_tree (amp_has_last_slot m); to_tree (amp_data_hex m); to_tree
    (amp_has_data m); to_tree (amp_trigger m); to_tree (amp_has_trigger m); to_tree
    (amp_can_be_executed m); to_tree (amp_first_seen_ts_ms m); to_tree
    (amp_last_updated_ts_ms m)];
  of_tree t := match t with
    | GenNode 0 [t0; t1; t2; t3; t4; t5; t6; t7; t8; t9; t10; t11; t12; t13; t14; t15; t16;
    t17; t18; t19; t20; t21; t22; t23; t24; t25] => x0 ← of_tree t0; x1 ← of_tree t1; x2 ←
    of_tree t2; x3 ← of_tree t3; x4 ← of_tree t4; x5 ← of_tree t5; x6 ← of_tree t6; x7 ←
    of_tree t7; x8 ← of_tree t8; x9 ← of_tree t9; x10 ← of_tree t10; x11 ← of_tree t11; x12
    ← of_tree t12; x13 ← of_tree t13; x14 ← of_tree t14; x15 ← of_tree t15; x16 ← of_tree
    t16; x17 ← of_tree t17; x18 ← of_tree t18; x19 ← of_tree t19; x20 ← of_tree t20; x21 ←
    of_tree t21; x22 ← of_tree t22; x23 ← of_tree t23; x24 ← of_tree t24; x25 ← of_tree t25;
    Some (mkStoredAsyncMsgPb x0 x1 x2 x3 x4 x5 x6 x7 x8 x9 x10 x11 x12 x13 x14 x15 x16 x17
    x18 x19 x20 x21 x22 x23 x24 x25)
    | _ => None end |}.
Solve Obligations with tree_solve.

#[export] Program Instance StoredDeferredCallPb_tree : Tree StoredDeferredCallPb := {|
  to_tree m := GenNode 0
    [to_tree (dcp_id m); to_tree (dcp_sender_key m); to_tree (dcp_has_sender m); to_tree
    (dcp_target_address_key m); to_tree (dcp_has_target_address m); to_tree
    (dcp_target_function m); to_tree (dcp_has_target_function m); to_tree (dcp_parameter_hex
    m); to_tree (dcp_has_parameter_hex m); to_tree (dcp_coins_nmas m); to_tree (dcp_max_gas
    m); to_tree (dcp_target_slot m); to_tree (dcp_has_target_slot m); to_tree
    (dcp_registered_slot m); to_tree (dcp_has_registered_slot m); to_tree (dcp_state m);
    to_tree (dcp_last_slot m); to_tree (dcp_has_last_slot m); to_tree (dcp_first_seen_ts_ms
    m); to_tree (dcp_last_updated_ts_ms m)];
  of_tree t := match t with
    | GenNode 0 [t0; t1; t2; t3; t4; t5; t6; t7; t8; t9; t10; t11; t12; t13; t14; t15; t16;
    t17; t18; t19] => x0 ← of_tree t0; x1 ← of_tree t1; x2 ← of_tree t2; x3 ← of_tree t3; x4
    ← of_tree t4; x5 ← of_tree t5; x6 ← of_tree t6; x7 ← of_tree t7; x8 ← of_tree t8; x9 ←
    of_tree t9; x10 ← of_tree t10; x11 ← of_tree t11; x12 ← of_tree t12; x13 ← of_tree t13;
    x14 ← of_tree t14; x15 ← of_tree t15; x16 ← of_tree t16; x17 ← of_tree t17; x18 ←
    of_tree t18; x19 ← of_tree t19; Some (mkStoredDeferredCallPb x0 x1 x2 x3 x4 x5 x6 x7 x8
    x9 x10 x11 x12 x13 x14 x15 x16 x17 x18 x19)
    | _ => None end |}.
Solve Obligations with tree_solve.

(** Trees to bytes: the bits of stdpp's countable encoding, eight to a byte. *)
Fixpoint pos_bits (p : positive) : list bool :=
  match p with xH => [] | xO p => false :: pos_bits p | xI p => true :: pos_bits p end.
Fixpoint bits_pos (l : list bool) : positive :=
  match l with [] => xH | false :: l => xO (bits_pos l) | true :: l => xI (bits_pos l) end.
Lemma bits_pos_bits p : bits_pos (pos_bits p) = p.
Proof. induction p; simpl; congruence. Qed.
Definition bit_byte (b : bool) : byte := if b then Byte.x01 else Byte.x00.
Definition byte_bit (b : byte) : bool := bool_decide (b = Byte.x01).
Definition wire_encode `{Tree M} (m : M) : bytes := bit_byte <$> pos_bits (encode (to_tree m)).
Definition wire_decode `{Tree M} (b : bytes) : option M :=
  decode (bits_pos (fmap (M := list) byte_bit b)) ≫= of_tree.
Lemma wire_decode_encode `{Tree M} (m : M) : wire_decode (wire_encode m) = Some m.
Proof.
  unfold wire_decode, wire_encode.
  assert (forall l : list bool, byte_bit <$> (bit_byte <$> l) = l) as E.
  { induction l as [|[] l IH]; [done|..]; rewrite !fmap_cons, IH; done. }
  rewrite E, bits_pos_bits, decode_encode. simpl. apply of_to_tree.
Qed.

#[export] Instance tree_prost `{Tree M} : Prost M := {|
  encode_to_vec := wire_encode; prost_decode := wire_decode;
  prost_decode_encode := wire_decode_encode |}.
#[export] Instance concrete_prost : ProstStorage := Build_ProstStorage
  _ _ _ _ _ _ _ _ _ _ _.

(** ** Text encodings *)
#[export] Program Instance concrete_bs58 : Bs58 := {|
  bs58_encode_check := of_bytes; bs58_decode_check s := Some (as_bytes s) |}.
Next Obligation. intros b. simpl. by rewrite as_of_bytes. Qed.
Next Obligation. intros s b [= <-]. apply of_as_bytes. Qed.
#[export] Program Instance concrete_b64 : Base64 := {|
  b64_encode := of_bytes; b64_decode s := Some (as_bytes s) |}.
Next Obligation. intros b. simpl. by rewrite as_of_bytes. Qed.
Next Obligation. intros s b [= <-]. apply of_as_bytes. Qed.
Next Obligation. done. Qed.
#[export] Program Instance concrete_hex : HexCrate := {|
  hex_crate_encode := of_bytes; hex_crate_decode s := Some (as_bytes s) |}.
Next Obligation. intros b. simpl. by rewrite as_of_bytes. Qed.

(** ** The store: a finite map per column family, scanned in key order *)
Definition mem_db : Type := Cf -> gmap bytes bytes.
Definition mem_empty : mem_db := fun _ => ∅.
Definition mem_apply (d : mem_db) (o : WriteOp) : mem_db :=
  match o with
  | Put cf k v => fun cf' => if decide (cf = cf') then <[k := v]> (d cf') else d cf'
  | Delete cf k => fun cf' => if decide (cf = cf') then delete k (d cf') else d cf'
  end.
Definition key_le (x y : bytes * bytes) : Prop := bytes_le x.1 y.1.
#[export] Instance key_le_dec : RelDecision key_le.
Proof. intros x y. unfold key_le. apply _. Defined.
#[export] Instance key_le_total : Total key_le.
Proof. intros x y. apply bytes_le_total. Qed.
Definition mem_entries (d : mem_db) (cf : Cf) : list (bytes * bytes) :=
  merge_sort key_le (map_to_list (d cf)).
Definition mem_iterator (d : mem_db) (cf : Cf) (m : IteratorMode) : list (bytes * bytes) :=
  match m with
  | Start => mem_entries d cf
  | FromForward s => filter (fun kv => bytes_le s kv.1) (mem_entries d cf)
  | FromReverse s => reverse (filter (fun kv => bytes_le kv.1 s) (mem_entries d cf))
  end.

Lemma mem_write_lookup ops d cf k :
  foldl mem_apply d ops cf !! k = batch_lookup ops cf k (d cf !! k).
Proof.
  unfold batch_lookup. revert d; induction ops as [|o ops IH]; intros d; [done|].
  simpl. rewrite IH. f_equal. destruct o; simpl; case_decide as E; subst;
    try (destruct (decide (k0 = k)) as [->|]; simplify_map_eq;
         rewrite ?decide_True, ?decide_False by naive_solver; simplify_map_eq; done);
    by rewrite decide_False by naive_solver.
Qed.

Lemma mem_entries_sorted d cf : StronglySorted bytes_lt (mem_entries d cf).*1.
Proof.
  unfold mem_entries.
  assert (StronglySorted key_le (merge_sort key_le (map_to_list (d cf)))) as Hs.
  { apply Sorted_StronglySorted; [intros x y z; apply bytes_le_trans|].
    apply (Sorted_merge_sort key_le). }
  assert (NoDup (merge_sort key_le (map_to_list (d cf))).*1) as Hn.
  { rewrite merge_sort_Permutation. apply NoDup_fst_map_to_list. }
  revert Hs Hn. generalize (merge_sort key_le (map_to_list (d cf))) as l.
  induction l as [|x l IH]; intros Hs Hn; [constructor|].
  apply StronglySorted_inv in Hs as [Hs Hx]. apply NoDup_cons in Hn as [Hnx Hn].
  constructor; [by apply IH|]. apply Forall_forall. intros k Hk.
  apply list_elem_of_fmap in Hk as (y & -> & Hy).
  rewrite Forall_forall in Hx. specialize (Hx y Hy). apply bytes_le_lteq in Hx as [|E]; [done|].
  exfalso. apply Hnx. apply list_elem_of_fmap. eauto.
Qed.

#[export] Program Instance mem_rocks : RocksDB := {|
  DB := mem_db;
  get_cf d cf k := d cf !! k;
  db_write d ops := foldl mem_apply d ops;
  iterator_cf := mem_iterator |}.
Next Obligation. intros. apply mem_write_lookup. Qed.
Next Obligation. intros. apply mem_entries_sorted. Qed.
Next Obligation.
  intros d cf k v. simpl. unfold mem_entries.
  rewrite merge_sort_Permutation. apply elem_of_map_to_list.
Qed.
Next Obligation. done. Qed.
Next Obligation. done. Qed.
