(* ===== verification/Text.v ===== *)
(** * Text (the standard library's [str], [String] and [FromStr])

    Strings are their UTF-8 bytes. Only what the sources use: [str::from_utf8] and
    [String::from_utf8_lossy], integer parsing, splitting at a separator, prefixes
    and suffixes, trimming, ASCII case; integers printed in decimal ([Display]),
    which are read back. *)

From S2P Require Import Prelude.

(** Reading past the end gives 0, which is never a continuation byte. *)
Definition safe_get (b : bytes) (i : nat) : Z :=
  match b !! i with Some x => byte.unsigned x | None => 0 end.
Definition in_range (lo hi x : Z) : bool := (lo <=? x)%Z && (x <=? hi)%Z.
Definition is_cont (x : Z) : bool := in_range 0x80 0xBF x.

Definition utf8_char_width (x : Z) : nat :=
  if in_range 0 0x7F x then 1
  else if in_range 0xC2 0xDF x then 2
  else if in_range 0xE0 0xEF x then 3
  else if in_range 0xF0 0xF4 x then 4 else 0.

Definition second_of_3 (x y : Z) : bool :=
  (Z.eqb x 0xE0 && in_range 0xA0 0xBF y) || (in_range 0xE1 0xEC x && is_cont y) ||
  (Z.eqb x 0xED && in_range 0x80 0x9F y) || (in_range 0xEE 0xEF x && is_cont y).
Definition second_of_4 (x y : Z) : bool :=
  (Z.eqb x 0xF0 && in_range 0x90 0xBF y) || (in_range 0xF1 0xF3 x && is_cont y) ||
  (Z.eqb x 0xF4 && in_range 0x80 0x8F y).

(** The next sequence of a non-empty input: how many bytes it takes and whether
    it is a character. *)
Definition utf8_step (b : bytes) : nat * bool :=
  let x := safe_get b 0 in
  match utf8_char_width x with
  | 1 => (1, true)
  | 2 => if is_cont (safe_get b 1) then (2, true) else (1, false)
  | 3 =>
      if negb (second_of_3 x (safe_get b 1)) then (1, false)
      else if is_cont (safe_get b 2) then (3, true) else (2, false)
  | 4 =>
      if negb (second_of_4 x (safe_get b 1)) then (1, false)
      else if negb (is_cont (safe_get b 2)) then (2, false)
      else if is_cont (safe_get b 3) then (4, true) else (3, false)
  | _ => (1, false)
  end.

Fixpoint utf8_valid_aux (fuel : nat) (b : bytes) : bool :=
  match fuel, b with
  | _, [] => true
  | O, _ => false
  | S fuel', _ => let '(n, good) := utf8_step b in good && utf8_valid_aux fuel' (drop n b)
  end.
(** [str::from_utf8(b).is_ok()]: every step takes at least one byte. *)
Definition utf8_valid (b : bytes) : bool := utf8_valid_aux (length b) b.

(** [str::from_utf8(b).ok()]. *)
Definition from_utf8 (b : bytes) : option string := if utf8_valid b then Some (of_bytes b) else None.
(** U+FFFD *)
Definition replacement : bytes := [Byte.xef; Byte.xbf; Byte.xbd].
Fixpoint utf8_lossy_aux (fuel : nat) (b : bytes) : bytes :=
  match fuel, b with
  | _, [] => []
  | O, _ => []
  | S fuel', _ =>
      let '(n, good) := utf8_step b in
      (if good then take n b else replacement) ++ utf8_lossy_aux fuel' (drop n b)
  end.
Definition from_utf8_lossy (b : bytes) : string := of_bytes (utf8_lossy_aux (length b) b).

Lemma utf8_step_pos b : 1 <= (utf8_step b).1.
Proof. unfold utf8_step. repeat case_match; simpl; lia. Qed.

(** A character lies inside its input. *)
Lemma utf8_step_length b : b <> [] -> (utf8_step b).2 = true -> (utf8_step b).1 <= length b.
Proof.
  intros Hb. assert (0 < length b) by (destruct b; [done|simpl; lia]).
  assert (forall i, is_cont (safe_get b i) = true -> i < length b) as Hc.
  { intros i. unfold safe_get. destruct (b !! i) eqn:E; [intros; by eapply lookup_lt_Some|done]. }
  unfold utf8_step. repeat case_match; simpl; intros; try done; try lia;
    match goal with H : is_cont (safe_get b _) = true |- _ => apply Hc in H; lia end.
Qed.

Lemma utf8_lossy_valid_aux fuel b :
  length b <= fuel -> utf8_valid_aux fuel b = true -> utf8_lossy_aux fuel b = b.
Proof.
  revert b. induction fuel as [|fuel IH]; intros [|x b] Hf; try (simpl in *; done || lia).
  cbn [utf8_valid_aux utf8_lossy_aux].
  destruct (utf8_step (x :: b)) as [n good] eqn:E.
  pose proof (utf8_step_pos (x :: b)) as Hpos. rewrite E in Hpos; simpl in Hpos.
  intros [-> Hv]%andb_prop.
  rewrite IH by (done || (rewrite length_drop; simpl in *; lia)). apply take_drop.
Qed.

(** Valid text is returned unchanged. *)
Lemma from_utf8_lossy_valid b : utf8_valid b = true -> from_utf8_lossy b = of_bytes b.
Proof. intros Hv. unfold from_utf8_lossy. by rewrite utf8_lossy_valid_aux. Qed.

(** ** Integers *)
Definition digit (b : byte) : option Z :=
  let x := byte.unsigned b in
  if ((48 <=? x) && (x <=? 57))%Z then Some (x - 48)%Z else None.
Fixpoint digits_value (acc : Z) (b : bytes) : option Z :=
  match b with
  | [] => Some acc
  | x :: b' => d ← digit x; digits_value (acc * 10 + d)%Z b'
  end.
Definition unsigned_value (b : bytes) : option Z :=
  match b with [] => None | _ => digits_value 0 b end.
Definition within (lo hi : Z) (o : option Z) : option Z :=
  z ← o; if ((lo <=? z) && (z <=? hi))%Z then Some z else None.
(** [str::parse] at a width: an optional sign, then decimal digits, in range. *)
Definition parse_i64 (s : string) : option Z :=
  within (- 2 ^ 63) (2 ^ 63 - 1)
    match as_bytes s with
    | [] => None
    | x :: b =>
        if bool_decide (x = Byte.x2d) then Z.opp <$> unsigned_value b
        else if bool_decide (x = Byte.x2b) then unsigned_value b
        else unsigned_value (x :: b)
    end.
Definition parse_unsigned (hi : Z) (s : string) : option Z :=
  within 0 hi
    match as_bytes s with
    | [] => None
    | x :: b => if bool_decide (x = Byte.x2b) then unsigned_value b else unsigned_value (x :: b)
    end.
Definition parse_u64 : string -> option Z := parse_unsigned u64_max.
Definition parse_u8 : string -> option Z := parse_unsigned 255.

Lemma within_range lo hi o z : within lo hi o = Some z -> (lo <= z <= hi)%Z.
Proof.
  unfold within. destruct o as [x|]; cbn; [|done].
  destruct (Z.leb_spec lo x), (Z.leb_spec x hi); cbn; [|done..]. by intros [= <-].
Qed.
Lemma parse_unsigned_range hi s z : parse_unsigned hi s = Some z -> (0 <= z <= hi)%Z.
Proof. apply within_range. Qed.

(** ** Separators, prefixes and suffixes *)
Fixpoint split_at_byte (sep : byte) (b : bytes) : option (bytes * bytes) :=
  match b with
  | [] => None
  | x :: b' =>
      if bool_decide (x = sep) then Some ([], b')
      else '(l, r) ← split_at_byte sep b'; Some (x :: l, r)
  end.
(** [str::split_once(c)] for an ASCII [c]. *)
Definition split_once (sep : byte) (s : string) : option (string * string) :=
  '(l, r) ← split_at_byte sep (as_bytes s); Some (of_bytes l, of_bytes r).
(** [str::split(c)]: always at least one piece. *)
Fixpoint split_bytes (sep : byte) (cur b : bytes) : list bytes :=
  match b with
  | [] => [cur]
  | x :: b' => if bool_decide (x = sep) then cur :: split_bytes sep [] b' else split_bytes sep (cur ++ [x]) b'
  end.
Definition split (sep : byte) (s : string) : list string := of_bytes <$> split_bytes sep [] (as_bytes s).
Definition str_starts_with (s p : string) : bool := starts_with (as_bytes s) (as_bytes p).
(** [str::strip_suffix]. *)
Definition ends_in (b p : bytes) : bool :=
  bool_decide (drop (length b - length p) b = p /\ length p <= length b).
Definition strip_suffix (p s : string) : option string :=
  let b := as_bytes s in
  if ends_in b (as_bytes p) then Some (of_bytes (take (length b - length (as_bytes p)) b)) else None.
(** [str::trim_end_matches(p)] for a non-empty [p]; each round shortens. *)
Fixpoint trim_end_matches_go (fuel : nat) (p s : string) : string :=
  match fuel with
  | O => s
  | S fuel' => match strip_suffix p s with Some s' => trim_end_matches_go fuel' p s' | None => s end
  end.
Definition trim_end_matches (p s : string) : string := trim_end_matches_go (String.length s) p s.

(** ** White space *)
(** The UTF-8 forms of the characters with the property White_Space. *)
Definition white : list bytes := map (fun z => [byte.of_Z z]) [9; 10; 11; 12; 13; 32]%Z.
Definition white_wide : list bytes :=
  map (map byte.of_Z)
    ([[194; 133]; [194; 160]; [225; 154; 128]; [226; 128; 168]; [226; 128; 169]; [226; 128; 175];
      [226; 129; 159]; [227; 128; 128]]
     ++ map (fun z => [226; 128; z]) [128; 129; 130; 131; 132; 133; 134; 135; 136; 137; 138])%Z.
Definition white_length (b : bytes) : nat :=
  match filter (fun w => starts_with b w = true) (white ++ white_wide) with
  | w :: _ => length w
  | [] => 0
  end.
Fixpoint trim_front (fuel : nat) (len : bytes -> nat) (b : bytes) : bytes :=
  match fuel with
  | O => b
  | S fuel' => match len b with O => b | n => trim_front fuel' len (drop n b) end
  end.
Definition white_length_rev (b : bytes) : nat :=
  match filter (fun w => starts_with b (reverse w) = true) (white ++ white_wide) with
  | w :: _ => length w
  | [] => 0
  end.
Definition trim (s : string) : string :=
  let b := as_bytes s in
  let b := trim_front (length b) white_length b in
  of_bytes (reverse (trim_front (length b) white_length_rev (reverse b))).

(** ** Characters *)
(** [str::chars] of a valid string, each as its bytes. *)
Fixpoint chars_aux (fuel : nat) (b : bytes) : list bytes :=
  match fuel, b with
  | S fuel', _ :: _ => let n := (utf8_step b).1 in take n b :: chars_aux fuel' (drop n b)
  | _, _ => []
  end.
Definition chars (s : string) : list bytes := chars_aux (length (as_bytes s)) (as_bytes s).

(** ** ASCII *)
Definition is_ascii_alphabetic (b : byte) : bool :=
  let x := byte.unsigned b in ((65 <=? x) && (x <=? 90) || (97 <=? x) && (x <=? 122))%Z.
Definition is_ascii_digit (b : byte) : bool := is_some (digit b).
Definition to_ascii_lowercase (s : string) : string :=
  of_bytes ((fun b => let x := byte.unsigned b in
    if ((65 <=? x) && (x <=? 90))%Z then byte.of_Z (x + 32) else b) <$> as_bytes s).

Example trim_ex : trim (of_bytes [Byte.x20; Byte.xc2; Byte.xa0; Byte.x61; Byte.x20; Byte.x62; Byte.x0a]) = "a b".
Proof. by vm_compute. Qed.

(** ** Decimal numbers *)
Definition dec (z : Z) : string := pretty (Z.to_N z).
Lemma digit_of_pretty x : (x < 10)%N -> digit (Ascii.byte_of_ascii (pretty_N_char x)) = Some (Z.of_N x).
Proof.
  intros Hx. assert (Hc : x ∈ [0;1;2;3;4;5;6;7;8;9]%N) by (rewrite !elem_of_cons; lia).
  rewrite !elem_of_cons in Hc.
  repeat destruct Hc as [->|Hc]; try (vm_compute; reflexivity). by apply not_elem_of_nil in Hc.
Qed.
(** Printing [x] in front of [s] and reading on. *)
Lemma digits_of_pretty x : exists k : nat, forall acc s,
  digits_value acc (as_bytes (pretty_N_go x s)) =
  digits_value (acc * 10 ^ Z.of_nat k + Z.of_N x) (as_bytes s).
Proof.
  induction (N.lt_wf_0 x) as [x _ IH]. destruct (decide (x = 0)%N) as [->|Hx].
  { exists 0. intros acc s. rewrite pretty_N_go_0. f_equal. cbn. lia. }
  destruct (IH (x / 10)%N) as [k Hk]; [apply N.div_lt; lia|]. exists (S k). intros acc s.
  rewrite pretty_N_go_step by lia. rewrite Hk.
  change (as_bytes (String ?c s)) with (Ascii.byte_of_ascii c :: as_bytes s).
  unfold as_bytes at 1. cbn [String.list_byte_of_string digits_value]. fold (as_bytes s).
  rewrite digit_of_pretty by (apply N.mod_lt; lia). cbn [mbind option_bind]. f_equal.
  rewrite Nat2Z.inj_succ, Z.pow_succ_r, N2Z.inj_mod, N2Z.inj_div by lia.
  pose proof (Z.div_mod (Z.of_N x) 10). lia.
Qed.
Lemma dec_digits z : (0 <= z)%Z -> digits_value 0 (as_bytes (dec z)) = Some z /\ as_bytes (dec z) <> [].
Proof.
  intros Hz. unfold dec, pretty, pretty_N. destruct (decide _) as [Hn|Hn].
  - replace z with 0%Z by lia. split; [reflexivity|done].
  - destruct (digits_of_pretty (Z.to_N z)) as [k Hk]. specialize (Hk 0%Z "").
    cbn [as_bytes String.list_byte_of_string digits_value] in Hk.
    replace (0 * 10 ^ Z.of_nat k + Z.of_N (Z.to_N z))%Z with z in Hk by lia.
    split; [exact Hk|]. intros E. rewrite E in Hk. cbn in Hk. injection Hk as Hk. lia.
Qed.
Lemma parse_unsigned_dec hi z : (0 <= z <= hi)%Z -> parse_unsigned hi (dec z) = Some z.
Proof.
  unfold parse_unsigned. intros Hz. destruct (dec_digits z) as [Hd Hne]; [lia|].
  destruct (as_bytes (dec z)) as [|x b]; [done|].
  case_bool_decide as Hx; [subst x; done|]. unfold unsigned_value. rewrite Hd. cbn.
  by rewrite (proj2 (Z.leb_le 0 z)), (proj2 (Z.leb_le z hi)) by lia.
Qed.
Lemma parse_u64_dec z : u64_ok z -> parse_u64 (dec z) = Some z.
Proof. unfold u64_ok, u64_max. intros Hz. apply parse_unsigned_dec. unfold u64_max. lia. Qed.
