(* ===== verification/Db.v ===== *)
(** * The database layer (src/massa-indexer/src/db.rs)

    Every method of [impl Db]: a reader is a function of the store, a writer
    returns the store after its (single, atomic) batch. [raw_clear] and
    [rebuild_secondary_indexes] write several batches. *)

From stdpp Require Import pretty.
From S2P Require Import Prelude Text Ids Keys Model Proto Codec Store.

(** Canonical keys of [CF_META] (module [meta_keys]) and the schema revision
    (schema.rs). *)
Definition meta_ROW : string := "row".
Definition meta_LAST_FINAL_SLOT : string := "last_final_slot".
Definition meta_LAST_CANDIDATE_SLOT : string := "last_candidate_slot".
Definition meta_SCHEMA_VERSION : string := "schema_version".
Definition SCHEMA_VERSION : Z := 2.

Inductive AsyncByAddr := AsyncSender | AsyncDestination.
Inductive DeferredByAddr := DeferredSender | DeferredTarget.

(** [str::parse::<u32>]: an optional [+], then decimal digits. *)
Fixpoint parse_digits (acc : Z) (b : bytes) : option Z :=
  match b with
  | [] => Some acc
  | x :: b' =>
      d ← digit x;
      let acc' := (acc * 10 + d)%Z in
      if (acc' <? 2 ^ 32)%Z then parse_digits acc' b' else None
  end.
Definition parse_u32 (b : bytes) : option Z :=
  match b with
  | [] => None
  | x :: b' =>
      if bool_decide (x = Byte.x2b) then
        match b' with [] => None | _ => parse_digits 0 b' end
      else parse_digits 0 b
  end.
(** [u32::to_string]. *)
Definition u32_to_string (z : Z) : string := pretty (Z.to_N z).

Section db.
Context `{Bs58, Base64, HexCrate, ProstStorage, RocksDB}.

Definition lift_codec {A} (r : result CodecError A) : result Error A :=
  map_err Error_from_codec r.
(** [match get_cf(..) { None => Ok(None), Some(raw) => Ok(Some(decode(&raw)?)) }]. *)
Definition read_row {A} (decode : bytes -> result CodecError A) (d : DB) (cf : Cf) (k : bytes)
  : result Error (option A) :=
  match get_cf d cf k with
  | None => Ok None
  | Some raw => x ← lift_codec (decode raw); Ok (Some x)
  end.

(** ** Schema version and meta rows *)
Definition ensure_schema_version (d : DB) : result Error DB :=
  match get_cf d CF_META (as_bytes meta_SCHEMA_VERSION) with
  | Some raw =>
      on_disk ← ok_or (ErrOther "cf_meta/schema_version is not a valid u32") (parse_u32 raw);
      if Z.eqb on_disk SCHEMA_VERSION then Ok d
      else Err (ErrOther "on-disk schema version does not match this build")
  | None =>
      Ok (db_write d [Put CF_META (as_bytes meta_SCHEMA_VERSION)
                        (as_bytes (u32_to_string SCHEMA_VERSION))])
  end.

Definition read_meta (d : DB) : result Error (option MetaRow) :=
  read_row decode_meta_row d CF_META (as_bytes meta_ROW).
Definition write_meta (d : DB) (row : MetaRow) : DB :=
  db_write d [Put CF_META (as_bytes meta_ROW) (encode_meta_row row)].
Definition update_last_final_slot (d : DB) (slot : Slot) : DB :=
  db_write d [Put CF_META (as_bytes meta_LAST_FINAL_SLOT) (encode_slot slot)].
Definition read_last_final_slot (d : DB) : result Error (option Slot) :=
  read_row decode_slot d CF_META (as_bytes meta_LAST_FINAL_SLOT).
Definition update_last_candidate_slot (d : DB) (slot : Slot) : DB :=
  db_write d [Put CF_META (as_bytes meta_LAST_CANDIDATE_SLOT) (encode_slot slot)].
Definition read_last_candidate_slot (d : DB) : result Error (option Slot) :=
  read_row decode_slot d CF_META (as_bytes meta_LAST_CANDIDATE_SLOT).
Definition meta_get_str (d : DB) (key : string) : option string :=
  from_utf8_lossy <$> get_cf d CF_META (as_bytes key).
Definition meta_put_str (d : DB) (key value : string) : DB :=
  db_write d [Put CF_META (as_bytes key) (as_bytes value)].

(** ** Slots *)
Definition read_slot (d : DB) (period thread : Z) : result Error (option SlotState) :=
  read_row decode_slot_state d CF_SLOT (slot_key period thread).
Definition write_slot (d : DB) (s : SlotState) : DB :=
  db_write d [Put CF_SLOT (slot_key (slot_period (ss_slot s)) (slot_thread (ss_slot s)))
                (encode_slot_state s)].
Definition lowest_known_period (d : DB) : option Z :=
  match iterator_cf d CF_SLOT Start with
  | [] => None
  | (k, _) :: _ => fst <$> decode_slot_key k
  end.
Definition slot_row (_ v : bytes) : result Error (option SlotState) :=
  s ← lift_codec (decode_slot_state v); Ok (Some s).
Definition iter_slots_desc (d : DB) (after : option bytes) (limit : nat)
  : result Error (Page SlotState) :=
  if bool_decide (limit = 0) then Ok Page_empty
  else
    page_loop (fun _ => true) slot_row after limit [] None
      (iterator_cf d CF_SLOT (FromReverse (default (slot_key u64_max 31) after))).
Fixpoint count_incomplete (streams : StreamsExpected) (n : Z) (l : list (bytes * bytes))
  : result Error Z :=
  match l with
  | [] => Ok n
  | (_, v) :: l' =>
      st ← lift_codec (decode_slot_state v);
      count_incomplete streams
        (if is_complete (ss_completeness st) (ss_is_miss st) streams then n else n + 1)%Z l'
  end.
Definition count_incomplete_slots (d : DB) (streams : StreamsExpected) : result Error Z :=
  count_incomplete streams 0 (iterator_cf d CF_SLOT Start).

(** ** Prefix scans over [.. ‖ id] indexes *)
Definition id_row {A} (from_key_bytes : bytes -> option A) (k _ : bytes)
  : result Error (option A) :=
  Ok ('(_, _, id_bytes) ← parse_idx_addr_slot_id k; from_key_bytes id_bytes).
Definition scan_prefix_forward_ids {A} (from_key_bytes : bytes -> option A) (d : DB) (cf : Cf)
    (prefix : bytes) (after : option bytes) (limit : nat) : result Error (Page A) :=
  if bool_decide (limit = 0) then Ok Page_empty
  else
    page_loop (fun k => starts_with k prefix) (id_row from_key_bytes) after limit [] None
      (iterator_cf d cf (FromForward (default prefix after))).

(** ** Blocks *)
Definition read_block (d : DB) (id : BlockId) : result Error (option StoredBlock) :=
  read_row decode_block d CF_BLOCK (id_as_bytes id).
Definition block_cand_key (b : StoredBlock) : bytes :=
  slot_key (slot_period (bl_slot b)) (slot_thread (bl_slot b)) ++ id_as_bytes (bl_id b).
Definition write_block (d : DB) (b : StoredBlock) : result Error DB :=
  raw ← lift_codec (encode_block b);
  Ok (db_write d
    [Put CF_BLOCK (id_as_bytes (bl_id b)) raw;
     Put IDX_BLOCK_BY_CREATOR
       (idx_block_by_creator (addr_as_bytes (bl_creator b)) (slot_period (bl_slot b))
          (slot_thread (bl_slot b)) (id_as_bytes (bl_id b))) [];
     Put CF_SLOT_CANDIDATE_BLOCK (block_cand_key b) []]).
Definition iter_blocks_by_creator (d : DB) (creator : Address) (after : option bytes)
    (limit : nat) : result Error (Page BlockId) :=
  scan_prefix_forward_ids BlockId_from_key_bytes d IDX_BLOCK_BY_CREATOR
    (idx_block_by_creator_prefix (addr_as_bytes creator)) after limit.

(** ** Endorsements *)
Definition read_endorsement (d : DB) (id : string) : result Error (option StoredEndorsement) :=
  id_parsed ← map_err ErrOther (EndorsementId_parse id);
  read_row decode_endorsement d CF_ENDORSEMENT (id_as_bytes id_parsed).
Definition write_endorsement (d : DB) (e : StoredEndorsement) : result Error DB :=
  endo_id ← map_err ErrOther (EndorsementId_parse (en_id e));
  if is_some (get_cf d CF_ENDORSEMENT (id_as_bytes endo_id)) then Ok d
  else
    raw ← lift_codec (encode_endorsement e);
    Ok (db_write d
      [Put CF_ENDORSEMENT (id_as_bytes endo_id) raw;
       Put IDX_ENDORSEMENT_BY_CREATOR
         (idx_block_by_creator (addr_as_bytes (en_content_creator_address e))
            (slot_period (en_slot e)) (slot_thread (en_slot e)) (id_as_bytes endo_id)) []]).
Definition iter_endorsements_by_creator (d : DB) (creator : Address) (after : option bytes)
    (limit : nat) : result Error (Page string) :=
  page ← scan_prefix_forward_ids EndorsementId_from_key_bytes d IDX_ENDORSEMENT_BY_CREATOR
           (idx_block_by_creator_prefix (addr_as_bytes creator)) after limit;
  Ok (mkPage (id_to_string <$> pg_items page) (pg_next_cursor page)).

(** ** Operations *)
Definition read_op (d : DB) (id : OperationId) : result Error (option StoredOperation) :=
  read_row decode_operation d CF_OP (id_as_bytes id).
Definition op_index_puts (o : StoredOperation) : list WriteOp :=
  match op_inclusions o with
  | [] => []
  | first :: _ =>
      let slot := inc_slot first in
      Put IDX_OP_BY_CREATOR
        (idx_op_by_creator (addr_as_bytes (op_creator o)) (slot_period slot) (slot_thread slot)
           (id_as_bytes (op_id o))) [] ::
      match op_target o with
      | Some target =>
          [Put IDX_OP_BY_TARGET
             (idx_op_by_target (addr_as_bytes target) (slot_period slot) (slot_thread slot)
                (id_as_bytes (op_id o))) []]
      | None => []
      end
  end.
Definition write_op (d : DB) (o : StoredOperation) : result Error DB :=
  raw ← lift_codec (encode_operation o);
  Ok (db_write d (Put CF_OP (id_as_bytes (op_id o)) raw :: op_index_puts o)).
Definition iter_ops_by_creator (d : DB) (creator : Address) (after : option bytes)
    (limit : nat) : result Error (Page OperationId) :=
  scan_prefix_forward_ids OperationId_from_key_bytes d IDX_OP_BY_CREATOR
    (idx_op_by_creator_prefix (addr_as_bytes creator)) after limit.
Definition iter_ops_by_target (d : DB) (target : Address) (after : option bytes)
    (limit : nat) : result Error (Page OperationId) :=
  scan_prefix_forward_ids OperationId_from_key_bytes d IDX_OP_BY_TARGET
    (idx_op_by_target_prefix (addr_as_bytes target)) after limit.

(** ** SC events *)
Definition event_index_keys (ev : StoredScEvent) : list (Cf * bytes) :=
  let p := slot_period (ev_slot ev) in let t := slot_thread (ev_slot ev) in
  ((fun em => (IDX_SC_EVENT_BY_EMITTER,
               idx_event_by_addr (addr_as_bytes em) p t (ev_index_in_slot ev)))
     <$> ev_emitter_addrs ev) ++
  ((fun ca => (IDX_SC_EVENT_BY_CALLER,
               idx_event_by_addr (addr_as_bytes ca) p t (ev_index_in_slot ev)))
     <$> ev_caller_addrs ev) ++
  match ev_op_id ev with
  | Some op => [(IDX_SC_EVENT_BY_OP,
                 idx_event_by_op (id_as_bytes op) p t (ev_index_in_slot ev))]
  | None => []
  end.
Definition put_empty (ck : Cf * bytes) : WriteOp := Put ck.1 ck.2 [].
Definition delete_key (ck : Cf * bytes) : WriteOp := Delete ck.1 ck.2.
Definition event_key (ev : StoredScEvent) : bytes :=
  sc_event_key (slot_period (ev_slot ev)) (slot_thread (ev_slot ev)) (ev_index_in_slot ev).
Definition write_sc_event (d : DB) (ev : StoredScEvent) : result Error DB :=
  raw ← lift_codec (encode_sc_event ev);
  Ok (db_write d (Put CF_SC_EVENT (event_key ev) raw :: (put_empty <$> event_index_keys ev))).

(** A secondary-index reader: [primary_key] of the index row, then the row it
    points at; rows that do not parse, are absent or do not decode are
    skipped. *)
Definition deref_row {A} (decode : bytes -> result CodecError A) (primary : Cf)
    (primary_key : bytes -> option bytes) (d : DB) (k _ : bytes) : result Error (option A) :=
  Ok (pk ← primary_key k; raw ← get_cf d primary pk; ok (decode raw)).

Definition iter_sc_events_with_prefix (d : DB) (idx_cf : Cf) (prefix : bytes)
    (after : option bytes) (limit : nat) : result Error (Page StoredScEvent) :=
  if bool_decide (limit = 0) then Ok Page_empty
  else
    page_loop (fun k => starts_with k prefix)
      (deref_row decode_sc_event CF_SC_EVENT
         (fun k => '(p, t, i) ← parse_idx_event k; Some (sc_event_key p t i)) d)
      after limit [] None (iterator_cf d idx_cf (FromForward (default prefix after))).
Definition iter_sc_events_by_op (d : DB) (op : OperationId) :=
  iter_sc_events_with_prefix d IDX_SC_EVENT_BY_OP (idx_event_by_op_prefix (id_as_bytes op)).
Definition iter_sc_events_by_emitter (d : DB) (addr : Address) :=
  iter_sc_events_with_prefix d IDX_SC_EVENT_BY_EMITTER
    (idx_event_by_addr_prefix (addr_as_bytes addr)).
Definition iter_sc_events_by_caller (d : DB) (addr : Address) :=
  iter_sc_events_with_prefix d IDX_SC_EVENT_BY_CALLER
    (idx_event_by_addr_prefix (addr_as_bytes addr)).

Definition iter_sc_events_for_slot (d : DB) (period thread : Z) (after : option bytes)
    (limit : nat) : result Error (Page StoredScEvent) :=
  if bool_decide (limit = 0) then Ok Page_empty
  else
    let prefix := slot_key period thread in
    page_loop (fun k => starts_with k prefix)
      (fun _ v => ev ← lift_codec (decode_sc_event v); Ok (Some ev))
      after limit [] None (iterator_cf d CF_SC_EVENT (FromForward (default prefix after))).

(** [for (k, v) in iter { if !k.starts_with(prefix) { break }; .. }]. *)
Definition slot_entries (d : DB) (cf : Cf) (period thread : Z) : list (bytes * bytes) :=
  take_while (fun kv => starts_with kv.1 (slot_key period thread))
    (iterator_cf d cf (FromForward (slot_key period thread))).

Definition clear_event_ops (kv : bytes * bytes) : list WriteOp :=
  match decode_sc_event kv.2 with
  | Ok ev => delete_key <$> event_index_keys ev
  | Err _ => []
  end ++ [Delete CF_SC_EVENT kv.1].
Definition clear_sc_events_for_slot (d : DB) (period thread : Z) : DB :=
  match slot_entries d CF_SC_EVENT period thread with
  | [] => d
  | l => db_write d (l ≫= clear_event_ops)
  end.

(** ** Denunciations *)
Definition hex_hash (s : string) : result Error bytes :=
  ok_or (ErrOther "hex hash") (hex_crate_decode s).
Definition denunciation_index_keys (d : StoredDenunciationEntry) (hash_key : bytes)
  : list (Cf * bytes) :=
  let p := slot_period (de_slot d) in let t := slot_thread (de_slot d) in
  match de_denounced_addr d with
  | Some addr =>
      [(IDX_DENUNCIATION_BY_ADDR, idx_denunciation_by_addr (addr_as_bytes addr) p t hash_key)]
  | None => []
  end ++ [(IDX_DENUNCIATION_RECENT, idx_denunciation_recent p t hash_key)].
Definition write_denunciation (db : DB) (d : StoredDenunciationEntry) : result Error DB :=
  hash_key ← hex_hash (de_hash d);
  match get_cf db CF_DENUNCIATION hash_key with
  | Some raw =>
      prev ← lift_codec (decode_denunciation_entry raw);
      if negb (is_some (de_included_block_id prev)) && is_some (de_included_block_id d) then
        let prev := mkDenunciationEntry (de_hash prev) (de_slot prev) (de_kind prev)
                      (de_denounced_addr prev) (de_denunciation prev)
                      (de_included_block_id d) (de_included_slot d)
                      (de_first_seen_ts_ms prev) in
        raw ← lift_codec (encode_denunciation_entry prev);
        Ok (db_write db [Put CF_DENUNCIATION hash_key raw])
      else Ok db
  | None =>
      raw ← lift_codec (encode_denunciation_entry d);
      Ok (db_write db
            (Put CF_DENUNCIATION hash_key raw ::
             (put_empty <$> denunciation_index_keys d hash_key)))
  end.
Definition read_denunciation (db : DB) (hash : string)
  : result Error (option StoredDenunciationEntry) :=
  hash_key ← hex_hash hash;
  read_row decode_denunciation_entry db CF_DENUNCIATION hash_key.
Definition iter_denunciations_by_addr (db : DB) (addr : Address) (after : option bytes)
    (limit : nat) : result Error (Page StoredDenunciationEntry) :=
  if bool_decide (limit = 0) then Ok Page_empty
  else
    let prefix := idx_denunciation_by_addr_prefix (addr_as_bytes addr) in
    page_loop (fun k => starts_with k prefix)
      (deref_row decode_denunciation_entry CF_DENUNCIATION
         (fun k => '(_, _, h) ← parse_idx_denunciation_by_addr k; Some h) db)
      after limit [] None
      (iterator_cf db IDX_DENUNCIATION_BY_ADDR (FromForward (default prefix after))).
(** [IteratorMode::From(a, Forward)] with a cursor, [Start] without. *)
Definition scan_mode (after : option bytes) : IteratorMode :=
  match after with Some a => FromForward a | None => Start end.
Definition iter_denunciations_recent (db : DB) (after : option bytes) (limit : nat)
  : result Error (Page StoredDenunciationEntry) :=
  if bool_decide (limit = 0) then Ok Page_empty
  else
    page_loop (fun _ => true)
      (deref_row decode_denunciation_entry CF_DENUNCIATION
         (fun k => '(_, _, h) ← parse_idx_denunciation_recent k; Some h) db)
      after limit [] None (iterator_cf db IDX_DENUNCIATION_RECENT (scan_mode after)).

(** ** Transfers *)
Definition addr_index_key (t : StoredTransfer) (who : option string) (tag : Z)
  : list (Cf * bytes) :=
  match s ← who; ok (Address_parse s) with
  | Some a =>
      [(IDX_TRANSFER_BY_ADDR,
        idx_transfer_by_addr (addr_as_bytes a) (slot_period (tr_slot t))
          (slot_thread (tr_slot t)) (tr_index_in_slot t) tag)]
  | None => []
  end.
Definition transfer_index_keys (t : StoredTransfer) : list (Cf * bytes) :=
  let p := slot_period (tr_slot t) in let th := slot_thread (tr_slot t) in
  addr_index_key t (tr_from t) 1 ++ addr_index_key t (tr_to t) 2 ++
  match s ← tr_operation_id t; ok (OperationId_parse s) with
  | Some o => [(IDX_TRANSFER_BY_OP,
                idx_transfer_by_op (id_as_bytes o) p th (tr_index_in_slot t))]
  | None => []
  end ++
  match s ← tr_block_id t; ok (BlockId_parse s) with
  | Some b => [(IDX_TRANSFER_BY_BLOCK,
                idx_transfer_by_block (id_as_bytes b) p th (tr_index_in_slot t))]
  | None => []
  end.
Definition transfer_row_key (t : StoredTransfer) : bytes :=
  transfer_key (slot_period (tr_slot t)) (slot_thread (tr_slot t)) (tr_index_in_slot t).
Definition write_transfer (d : DB) (t : StoredTransfer) : DB :=
  db_write d (Put CF_TRANSFER (transfer_row_key t) (encode_transfer t) ::
              (put_empty <$> transfer_index_keys t)).
Definition read_transfer (d : DB) (period thread index : Z)
  : result Error (option StoredTransfer) :=
  read_row decode_transfer d CF_TRANSFER (transfer_key period thread index).
Definition iter_transfers_for_slot (d : DB) (period thread : Z)
  : result Error (list StoredTransfer) :=
  try_map (fun kv => lift_codec (decode_transfer kv.2)) (slot_entries d CF_TRANSFER period thread).
Definition clear_transfer_ops (kv : bytes * bytes) : list WriteOp :=
  match decode_transfer kv.2 with
  | Ok t => delete_key <$> transfer_index_keys t
  | Err _ => []
  end ++ [Delete CF_TRANSFER kv.1].
Definition clear_transfers_for_slot (d : DB) (period thread : Z) : DB :=
  match slot_entries d CF_TRANSFER period thread with
  | [] => d
  | l => db_write d (l ≫= clear_transfer_ops)
  end.

Definition iter_transfers_via_idx (d : DB) (idx_cf : Cf) (prefix : bytes)
    (after : option bytes) (limit : nat) : result Error (Page StoredTransfer) :=
  if bool_decide (limit = 0) then Ok Page_empty
  else
    page_loop (fun k => starts_with k prefix)
      (deref_row decode_transfer CF_TRANSFER
         (fun k => '(p, t, i) ← parse_idx_id_slot_index k; Some (transfer_key p t i)) d)
      after limit [] None (iterator_cf d idx_cf (FromForward (default prefix after))).
Definition iter_transfers_by_op (d : DB) (op : OperationId) :=
  iter_transfers_via_idx d IDX_TRANSFER_BY_OP (idx_transfer_by_op_prefix (id_as_bytes op)).
Definition iter_transfers_by_block (d : DB) (b : BlockId) :=
  iter_transfers_via_idx d IDX_TRANSFER_BY_BLOCK (idx_transfer_by_block_prefix (id_as_bytes b)).

(** The loop of [iter_transfers_by_addr]: rows of a transfer already seen in
    this call move the cursor but yield nothing. *)
Fixpoint by_addr_loop (d : DB) (prefix : bytes) (after : option bytes) (limit : nat)
    (items : list StoredTransfer) (last_key : option bytes) (seen_keys : list (Z * Z * Z))
    (iter : list (bytes * bytes)) : Page StoredTransfer :=
  match iter with
  | [] => mkPage items None
  | (k, _) :: iter' =>
      if negb (starts_with k prefix) then mkPage items None
      else if bool_decide (after = Some k) then
        by_addr_loop d prefix after limit items last_key seen_keys iter'
      else if bool_decide (limit <= length items) then mkPage items last_key
      else
        match parse_idx_transfer_by_addr k with
        | None => by_addr_loop d prefix after limit items last_key seen_keys iter'
        | Some (p, t, i, _) =>
            if bool_decide ((p, t, i) ∈ seen_keys) then
              by_addr_loop d prefix after limit items (Some k) seen_keys iter'
            else
              match raw ← get_cf d CF_TRANSFER (transfer_key p t i); ok (decode_transfer raw) with
              | Some tr =>
                  by_addr_loop d prefix after limit (items ++ [tr]) (Some k)
                    ((p, t, i) :: seen_keys) iter'
              | None =>
                  by_addr_loop d prefix after limit items last_key ((p, t, i) :: seen_keys) iter'
              end
        end
  end.
Definition iter_transfers_by_addr (d : DB) (addr : Address) (after : option bytes)
    (limit : nat) : result Error (Page StoredTransfer) :=
  if bool_decide (limit = 0) then Ok Page_empty
  else
    let prefix := idx_transfer_by_addr_prefix (addr_as_bytes addr) in
    Ok (by_addr_loop d prefix after limit [] None []
          (iterator_cf d IDX_TRANSFER_BY_ADDR (FromForward (default prefix after)))).

(** ** Async messages *)
Definition idx_async_sender_key (sender_key : bytes) (id : string) : bytes :=
  sender_key ++ [Byte.x00] ++ as_bytes id.
Definition idx_async_dest_key (dest_key : bytes) (id : string) : bytes :=
  idx_async_sender_key dest_key id.
Definition addr_key_of (o : option Address) : option bytes := addr_as_bytes <$> o.
Definition last_slot_index_key (ls : Slot) (id : string) : bytes :=
  idx_by_rslot_id (slot_period ls) (slot_thread ls) (as_bytes id).

(** The stale index rows of [prev] when [now] replaces it. *)
Definition async_stale (prev now : StoredAsyncMsg) : list (Cf * bytes) :=
  match am_sender prev with
  | Some s =>
      if bool_decide (addr_key_of (am_sender prev) = addr_key_of (am_sender now)) then []
      else [(IDX_ASYNC_BY_SENDER, idx_async_sender_key (addr_as_bytes s) (am_id prev))]
  | None => []
  end ++
  match am_destination prev with
  | Some a =>
      if bool_decide (addr_key_of (am_destination prev) = addr_key_of (am_destination now)) then []
      else [(IDX_ASYNC_BY_DEST, idx_async_dest_key (addr_as_bytes a) (am_id prev))]
  | None => []
  end ++
  match am_last_slot prev with
  | Some ls =>
      if bool_decide (am_last_slot prev = am_last_slot now) then []
      else [(IDX_ASYNC_BY_LAST_SLOT, last_slot_index_key ls (am_id prev))]
  | None => []
  end.
Definition async_index_keys (m : StoredAsyncMsg) (id : string) : list (Cf * bytes) :=
  match am_sender m with
  | Some s => [(IDX_ASYNC_BY_SENDER, idx_async_sender_key (addr_as_bytes s) id)]
  | None => []
  end ++
  match am_destination m with
  | Some a => [(IDX_ASYNC_BY_DEST, idx_async_dest_key (addr_as_bytes a) id)]
  | None => []
  end ++
  match am_last_slot m with
  | Some ls => [(IDX_ASYNC_BY_LAST_SLOT, last_slot_index_key ls id)]
  | None => []
  end.
(** [Option<raw>.map(decode).transpose()?]. *)
Definition read_prev {A} (decode : bytes -> result CodecError A) (raw : option bytes)
  : result Error (option A) :=
  match raw with
  | None => Ok None
  | Some raw => x ← lift_codec (decode raw); Ok (Some x)
  end.
Definition write_async_msg (d : DB) (msg : StoredAsyncMsg) : result Error DB :=
  prev ← read_prev decode_async_msg (get_cf d CF_ASYNC_MSG (as_bytes (am_id msg)));
  let to_write :=
    match prev with
    | Some p =>
        if Z.eqb (am_first_seen_ts_ms p) 0 then msg
        else msg <| am_first_seen_ts_ms := am_first_seen_ts_ms p |>
    | None => msg
    end in
  Ok (db_write d
    (Put CF_ASYNC_MSG (as_bytes (am_id to_write)) (encode_async_msg to_write) ::
     match prev with
     | Some p => delete_key <$> async_stale p to_write
     | None => []
     end ++ (put_empty <$> async_index_keys to_write (am_id to_write)))).
Definition read_async_msg (d : DB) (id : string) : result Error (option StoredAsyncMsg) :=
  read_row decode_async_msg d CF_ASYNC_MSG (as_bytes id).
Definition delete_async_msg (d : DB) (id : string) : result Error DB :=
  match get_cf d CF_ASYNC_MSG (as_bytes id) with
  | None => Ok d
  | Some raw =>
      prev ← lift_codec (decode_async_msg raw);
      Ok (db_write d (Delete CF_ASYNC_MSG (as_bytes id) ::
                      (delete_key <$> async_index_keys prev id)))
  end.

(** Readers of [addr ‖ 0x00 ‖ id] indexes. *)
Definition iter_via_addr_id {A} (decode : bytes -> result CodecError A) (d : DB)
    (idx_cf primary : Cf) (addr : Address) (after : option bytes) (limit : nat)
  : result Error (Page A) :=
  if bool_decide (limit = 0) then Ok Page_empty
  else
    let prefix := addr_as_bytes addr ++ [Byte.x00] in
    page_loop (fun k => starts_with k prefix)
      (deref_row decode primary (fun k => Some (drop (length prefix) k)) d)
      after limit [] None (iterator_cf d idx_cf (FromForward (default prefix after))).
Definition iter_async_by_addr (d : DB) (addr : Address) (by_ : AsyncByAddr) :=
  iter_via_addr_id decode_async_msg d
    match by_ with
    | AsyncSender => IDX_ASYNC_BY_SENDER | AsyncDestination => IDX_ASYNC_BY_DEST
    end CF_ASYNC_MSG addr.
Definition iter_all {A} (decode : bytes -> result CodecError A) (cf : Cf) (d : DB)
    (after : option bytes) (limit : nat) : result Error (Page A) :=
  if bool_decide (limit = 0) then Ok Page_empty
  else
    page_loop (fun _ => true) (fun _ v => Ok (ok (decode v))) after limit [] None
      (iterator_cf d cf (scan_mode after)).
Definition iter_all_async := iter_all decode_async_msg CF_ASYNC_MSG.

(** The loop of [iter_by_last_slot]. *)
Fixpoint last_slot_loop {A} (decode : bytes -> result CodecError A) (d : DB) (primary : Cf)
    (prefix : bytes) (limit : nat) (out : list A) (iter : list (bytes * bytes)) : list A :=
  match iter with
  | [] => out
  | (k, _) :: iter' =>
      if negb (starts_with k prefix) then out
      else if bool_decide (limit <= length out) then out
      else
        match raw ← get_cf d primary (drop (length prefix) k); ok (decode raw) with
        | Some row => last_slot_loop decode d primary prefix limit (out ++ [row]) iter'
        | None => last_slot_loop decode d primary prefix limit out iter'
        end
  end.
Definition iter_by_last_slot {A} (decode : bytes -> result CodecError A) (d : DB)
    (idx_cf primary : Cf) (period thread : Z) (limit : nat) : list A :=
  if bool_decide (limit = 0) then []
  else
    let prefix := idx_by_rslot_prefix period thread in
    last_slot_loop decode d primary prefix limit []
      (iterator_cf d idx_cf (FromForward prefix)).
Definition iter_async_msgs_by_last_slot (d : DB) (period thread : Z) (limit : nat) :=
  iter_by_last_slot decode_async_msg d IDX_ASYNC_BY_LAST_SLOT CF_ASYNC_MSG period thread limit.
Definition iter_deferred_calls_by_last_slot (d : DB) (period thread : Z) (limit : nat) :=
  iter_by_last_slot decode_deferred_call d IDX_DEFERRED_BY_LAST_SLOT CF_DEFERRED_CALL
    period thread limit.

(** ** Deferred calls *)
Definition deferred_stale (prev now : StoredDeferredCall) : list (Cf * bytes) :=
  match dc_sender prev with
  | Some s =>
      if bool_decide (addr_key_of (dc_sender prev) = addr_key_of (dc_sender now)) then []
      else [(IDX_DEFERRED_BY_SENDER, idx_async_sender_key (addr_as_bytes s) (dc_id prev))]
  | None => []
  end ++
  match dc_target_address prev with
  | Some a =>
      if bool_decide (addr_key_of (dc_target_address prev) = addr_key_of (dc_target_address now))
      then []
      else [(IDX_DEFERRED_BY_TARGET, idx_async_sender_key (addr_as_bytes a) (dc_id prev))]
  | None => []
  end ++
  match dc_last_slot prev with
  | Some ls =>
      if bool_decide (dc_last_slot prev = dc_last_slot now) then []
      else [(IDX_DEFERRED_BY_LAST_SLOT, last_slot_index_key ls (dc_id prev))]
  | None => []
  end.
Definition deferred_index_keys (c : StoredDeferredCall) (id : string) : list (Cf * bytes) :=
  match dc_sender c with
  | Some s => [(IDX_DEFERRED_BY_SENDER, idx_async_sender_key (addr_as_bytes s) id)]
  | None => []
  end ++
  match dc_target_address c with
  | Some a => [(IDX_DEFERRED_BY_TARGET, idx_async_sender_key (addr_as_bytes a) id)]
  | None => []
  end ++
  match dc_last_slot c with
  | Some ls => [(IDX_DEFERRED_BY_LAST_SLOT, last_slot_index_key ls id)]
  | None => []
  end.
Definition write_deferred_call (d : DB) (call : StoredDeferredCall) : result Error DB :=
  prev ← read_prev decode_deferred_call (get_cf d CF_DEFERRED_CALL (as_bytes (dc_id call)));
  let to_write :=
    match prev with
    | Some p =>
        if Z.eqb (dc_first_seen_ts_ms p) 0 then call
        else call <| dc_first_seen_ts_ms := dc_first_seen_ts_ms p |>
    | None => call
    end in
  Ok (db_write d
    (Put CF_DEFERRED_CALL (as_bytes (dc_id to_write)) (encode_deferred_call to_write) ::
     match prev with
     | Some p => delete_key <$> deferred_stale p to_write
     | None => []
     end ++ (put_empty <$> deferred_index_keys to_write (dc_id to_write)))).
Definition read_deferred_call (d : DB) (id : string) : result Error (option StoredDeferredCall) :=
  read_row decode_deferred_call d CF_DEFERRED_CALL (as_bytes id).
Definition iter_deferred_by_addr (d : DB) (addr : Address) (by_ : DeferredByAddr) :=
  iter_via_addr_id decode_deferred_call d
    match by_ with
    | DeferredSender => IDX_DEFERRED_BY_SENDER | DeferredTarget => IDX_DEFERRED_BY_TARGET
    end CF_DEFERRED_CALL addr.
Definition iter_all_deferred := iter_all decode_deferred_call CF_DEFERRED_CALL.

(** ** Raw access *)
Definition cf_handle (name : string) : option Cf :=
  head (filter (fun c => cf_name c = name) ALL_CFS).
Definition cf (name : string) : result Error Cf :=
  ok_or (ErrOther ("unknown CF " +:+ name)) (cf_handle name).
Definition cf_exists (name : string) : bool := is_some (cf_handle name).
Definition raw_get (d : DB) (name : string) (key : bytes) : result Error (option bytes) :=
  c ← cf name; Ok (get_cf d c key).
Definition raw_page (d : DB) (name : string) (prefix after : option bytes) (limit : nat)
  : result Error (Page (bytes * bytes)) :=
  if bool_decide (limit = 0) then Ok Page_empty
  else
    c ← cf name;
    let start := match after with Some a => Some a | None => prefix end in
    page_loop (fun k => match prefix with Some p => starts_with k p | None => true end)
      (fun k v => Ok (Some (k, v))) after limit [] None (iterator_cf d c (scan_mode start)).

Definition collect_keys (d : DB) (c : Cf) : list bytes := (iterator_cf d c Start).*1.

(** One round of [raw_clear] deletes up to 4096 keys; [None]: out of fuel. *)
Definition CLEAR_BATCH : nat := 4096.
Fixpoint raw_clear_loop (fuel : nat) (d : DB) (c : Cf) (total : Z) : option (DB * Z) :=
  match fuel with
  | O => None
  | S fuel' =>
      let ks := take CLEAR_BATCH (collect_keys d c) in
      match ks with
      | [] => Some (d, total)
      | _ => raw_clear_loop fuel' (db_write d (Delete c <$> ks)) c
               (total + Z.of_nat (length ks))
      end
  end.
Definition raw_clear (d : DB) (c : Cf) : DB * Z :=
  default (d, 0%Z) (raw_clear_loop (S (length (collect_keys d c))) d c 0).

Record RebuildReport := mkReport {
  rr_cleared : list (string * Z);
  rr_replayed : list (string * Z);
}.

(** [for k in keys { if let Some(raw) = get(k)? { step; n += 1 } }]. *)
Fixpoint replay (c : Cf) (step : bytes -> bytes -> ST DB unit) (n : Z) (ks : list bytes)
  : ST DB (string * Z) :=
  match ks with
  | [] => mret (cf_name c, n)
  | k :: ks' =>
      d ← st_get;
      match get_cf d c k with
      | Some raw => step k raw ;; replay c step (n + 1)%Z ks'
      | None => replay c step n ks'
      end
  end.
Definition replay_cf (c : Cf) (step : bytes -> bytes -> ST DB unit) : ST DB (string * Z) :=
  d ← st_get; replay c step 0 (collect_keys d c).
Fixpoint clear_all (cs : list Cf) : ST DB (list (string * Z)) :=
  match cs with
  | [] => mret []
  | c :: cs' =>
      d ← st_get;
      let '(d', removed) := raw_clear d c in
      st_put d' ;;
      rest ← clear_all cs';
      mret ((cf_name c, removed) :: rest)
  end.

Definition replay_block (_ raw : bytes) : ST DB unit :=
  b ← st_lift (lift_codec (decode_block raw)); st_update (fun d => write_block d b).
Definition replay_endorsement (_ raw : bytes) : ST DB unit :=
  e ← st_lift (lift_codec (decode_endorsement raw));
  endo_id ← st_lift (map_err ErrOther (EndorsementId_parse (en_id e)));
  st_update (fun d => Ok (db_write d
    [Put IDX_ENDORSEMENT_BY_CREATOR
       (idx_endorsement_by_creator (addr_as_bytes (en_content_creator_address e))
          (slot_period (en_slot e)) (slot_thread (en_slot e)) (id_as_bytes endo_id)) []])).
Definition replay_op (_ raw : bytes) : ST DB unit :=
  o ← st_lift (lift_codec (decode_operation raw)); st_update (fun d => write_op d o).
Definition replay_transfer (_ raw : bytes) : ST DB unit :=
  t ← st_lift (lift_codec (decode_transfer raw)); st_update (fun d => Ok (write_transfer d t)).
Definition replay_event (_ raw : bytes) : ST DB unit :=
  e ← st_lift (lift_codec (decode_sc_event raw)); st_update (fun d => write_sc_event d e).
Definition replay_denunciation (k raw : bytes) : ST DB unit :=
  x ← st_lift (lift_codec (decode_denunciation_entry raw));
  st_update (fun d => Ok (db_write d (put_empty <$> denunciation_index_keys x k))).
Definition replay_async (_ raw : bytes) : ST DB unit :=
  m ← st_lift (lift_codec (decode_async_msg raw)); st_update (fun d => write_async_msg d m).
Definition replay_deferred (_ raw : bytes) : ST DB unit :=
  c ← st_lift (lift_codec (decode_deferred_call raw)); st_update (fun d => write_deferred_call d c).

Definition rebuild_secondary_indexes : ST DB RebuildReport :=
  cleared ← clear_all SECONDARY_INDEX_CFS;
  blocks ← replay_cf CF_BLOCK replay_block;
  endos ← replay_cf CF_ENDORSEMENT replay_endorsement;
  ops ← replay_cf CF_OP replay_op;
  transfers ← replay_cf CF_TRANSFER replay_transfer;
  events ← replay_cf CF_SC_EVENT replay_event;
  denos ← replay_cf CF_DENUNCIATION replay_denunciation;
  amsgs ← replay_cf CF_ASYNC_MSG replay_async;
  dcalls ← replay_cf CF_DEFERRED_CALL replay_deferred;
  mret (mkReport cleared [blocks; endos; ops; transfers; events; denos; amsgs; dcalls]).
End db.
