(* ===== verification/DbUpsert.v ===== *)
(** * Upserted rows and their secondary indexes

    [Db::write_async_msg] and [Db::write_deferred_call] follow one protocol: the
    index rows a message no longer has are deleted in the batch that writes the
    new ones. [UpsertRow] is what the protocol needs of a row type; the
    invariant "the indexes hold exactly the rows' keys" is proved against it,
    and the two row types of db.rs are its instances. *)

From S2P Require Import Prelude Ids Keys Model Proto Codec CodecLemmas Store Text Db.

Class UpsertRow (R : Type) := {
  ur_primary : Cf;
  ur_indexes : list Cf;
  ur_id : R -> string;
  ur_encode : R -> bytes;
  ur_decode : bytes -> result CodecError R;
  ur_wf : R -> Prop;
  ur_first_seen : R -> Z;
  ur_set_first_seen : Z -> R -> R;
  ur_keys : R -> list (Cf * bytes);
  ur_stale : R -> R -> list (Cf * bytes);
  ur_roundtrip r : ur_wf r -> ur_decode (ur_encode r) = Ok r;
  ur_keys_in r ck : ck ∈ ur_keys r -> ck.1 ∈ ur_indexes;
  ur_primary_notin : ur_primary ∉ ur_indexes;
  ur_keys_id r r' ck :
    ur_wf r -> ur_wf r' -> ck ∈ ur_keys r -> ck ∈ ur_keys r' -> ur_id r = ur_id r';
  ur_stale_spec p n ck :
    ur_wf p -> ur_wf n -> ur_id p = ur_id n ->
    ck ∈ ur_stale p n <-> ck ∈ ur_keys p /\ ck ∉ ur_keys n;
  ur_set_id z r : ur_id (ur_set_first_seen z r) = ur_id r;
  ur_set_keys z r : ur_keys (ur_set_first_seen z r) = ur_keys r;
  ur_set_wf z r : ur_wf r -> ur_wf (ur_set_first_seen z r);
}.

Section upsert.
Context `{RocksDB} {R : Type} `{UpsertRow R}.

Definition upsert_value (prev : option R) (r : R) : R :=
  match prev with
  | Some p => if Z.eqb (ur_first_seen p) 0 then r else ur_set_first_seen (ur_first_seen p) r
  | None => r
  end.
Definition upsert (d : DB) (r : R) : result Error DB :=
  prev ← read_prev ur_decode (get_cf d ur_primary (as_bytes (ur_id r)));
  let w := upsert_value prev r in
  Ok (db_write d
    (Put ur_primary (as_bytes (ur_id w)) (ur_encode w) ::
     match prev with Some p => delete_key <$> ur_stale p w | None => [] end ++
     (put_empty <$> ur_keys w))).
Definition remove (d : DB) (id : string) : result Error DB :=
  match get_cf d ur_primary (as_bytes id) with
  | None => Ok d
  | Some raw =>
      prev ← lift_codec (ur_decode raw);
      Ok (db_write d (Delete ur_primary (as_bytes id) :: (delete_key <$> ur_keys prev)))
  end.

(** The rows of the primary family, and the indexes holding exactly their keys. *)
Definition has_row (d : DB) (r : R) : Prop :=
  exists raw, get_cf d ur_primary (as_bytes (ur_id r)) = Some raw /\ ur_decode raw = Ok r.
Definition rows_ok (d : DB) : Prop :=
  forall id raw, get_cf d ur_primary (as_bytes id) = Some raw ->
    exists r, ur_decode raw = Ok r /\ ur_id r = id /\ ur_wf r.
Definition index_exact (d : DB) : Prop :=
  forall cf k, cf ∈ ur_indexes ->
    is_Some (get_cf d cf k) <-> exists r, has_row d r /\ (cf, k) ∈ ur_keys r.

Lemma batch_lookup_cons o ops cf k cur :
  batch_lookup (o :: ops) cf k cur = batch_lookup ops cf k (wop_lookup cf k cur o).
Proof. done. Qed.
Lemma batch_lookup_app ops1 ops2 cf k cur :
  batch_lookup (ops1 ++ ops2) cf k cur = batch_lookup ops2 cf k (batch_lookup ops1 cf k cur).
Proof. apply foldl_app. Qed.

Lemma batch_lookup_deletes l cf k cur :
  batch_lookup (delete_key <$> l) cf k cur = if decide ((cf, k) ∈ l) then None else cur.
Proof.
  revert cur. induction l as [|[c x] l IH]; intros cur; [done|].
  rewrite fmap_cons, batch_lookup_cons, IH. simpl.
  rewrite (decide_ext ((cf, k) ∈ (c, x) :: l) (c = cf /\ x = k \/ (cf, k) ∈ l))
    by (rewrite elem_of_cons; naive_solver).
  repeat case_decide; naive_solver.
Qed.

Lemma batch_lookup_puts l cf k cur :
  batch_lookup (put_empty <$> l) cf k cur = if decide ((cf, k) ∈ l) then Some [] else cur.
Proof.
  revert cur. induction l as [|[c x] l IH]; intros cur; [done|].
  rewrite fmap_cons, batch_lookup_cons, IH. simpl.
  rewrite (decide_ext ((cf, k) ∈ (c, x) :: l) (c = cf /\ x = k \/ (cf, k) ∈ l))
    by (rewrite elem_of_cons; naive_solver).
  repeat case_decide; naive_solver.
Qed.

Lemma index_not_primary cf : cf ∈ ur_indexes -> cf <> ur_primary.
Proof. intros Hin ->. by apply ur_primary_notin. Qed.

Lemma upsert_value_id prev r : ur_id (upsert_value prev r) = ur_id r.
Proof. unfold upsert_value. destruct prev; [|done]. case_match; [done|]. apply ur_set_id. Qed.
Lemma upsert_value_wf prev r : ur_wf r -> ur_wf (upsert_value prev r).
Proof. unfold upsert_value. destruct prev; [|done]. case_match; [done|]. apply ur_set_wf. Qed.

Definition prev_row (d : DB) (id : string) : option R :=
  raw ← get_cf d ur_primary (as_bytes id); ok (ur_decode raw).
Definition stale_keys (d : DB) (w : R) : list (Cf * bytes) :=
  match prev_row d (ur_id w) with Some p => ur_stale p w | None => [] end.

Lemma read_prev_row d id :
  rows_ok d ->
  read_prev ur_decode (get_cf d ur_primary (as_bytes id)) = Ok (prev_row d id).
Proof.
  intros Hok. unfold prev_row. destruct (get_cf d ur_primary (as_bytes id)) as [raw|] eqn:E; [|done].
  destruct (Hok _ _ E) as (r & Hr & _). simpl. by rewrite Hr.
Qed.

Lemma stale_in_index d w ck :
  rows_ok d -> ur_wf w -> ck ∈ stale_keys d w ->
  exists p, prev_row d (ur_id w) = Some p /\ ur_id p = ur_id w /\ ur_wf p /\
            ck ∈ ur_keys p /\ ck ∉ ur_keys w.
Proof.
  intros Hok Hw. unfold stale_keys, prev_row.
  destruct (get_cf d ur_primary (as_bytes (ur_id w))) as [raw|] eqn:E; simpl; [|set_solver].
  destruct (Hok _ _ E) as (p & Hp & Hid & Hwf). rewrite Hp. simpl.
  rewrite ur_stale_spec by done. naive_solver.
Qed.

(** The batch of an upsert, read back. *)
Lemma upsert_spec d r :
  rows_ok d -> ur_wf r ->
  let w := upsert_value (prev_row d (ur_id r)) r in
  exists d', upsert d r = Ok d' /\
    (forall id, get_cf d' ur_primary (as_bytes id) =
       if decide (id = ur_id r) then Some (ur_encode w)
       else get_cf d ur_primary (as_bytes id)) /\
    (forall cf k, cf <> ur_primary -> get_cf d' cf k =
       if decide ((cf, k) ∈ ur_keys w) then Some []
       else if decide ((cf, k) ∈ stale_keys d w) then None else get_cf d cf k).
Proof.
  intros Hok Hr w. unfold upsert. rewrite read_prev_row by done. cbn [mbind result_bind].
  fold w. eexists; split; [done|].
  assert (ur_id w = ur_id r) as Hid by apply upsert_value_id.
  assert (ur_wf w) as Hw by by apply upsert_value_wf.
  assert (match prev_row d (ur_id r) with
          | Some p => delete_key <$> ur_stale p w | None => [] end =
          delete_key <$> stale_keys d w) as ->.
  { unfold stale_keys. rewrite Hid. by destruct (prev_row d (ur_id r)). }
  split.
  - intros id. rewrite get_cf_write, batch_lookup_cons, batch_lookup_app, batch_lookup_puts.
    rewrite decide_False by (intros Hin%ur_keys_in; by apply ur_primary_notin).
    rewrite batch_lookup_deletes, decide_False.
    + simpl. rewrite Hid. apply decide_ext. split; [|naive_solver]. intros [_ E].
      by apply (inj as_bytes).
    + intros Hin. apply stale_in_index in Hin as (p & _ & _ & _ & Hin & _); [|done..].
      apply ur_keys_in in Hin. by apply ur_primary_notin.
  - intros cf k Hcf. rewrite get_cf_write, batch_lookup_cons, batch_lookup_app, batch_lookup_puts.
    rewrite batch_lookup_deletes. simpl. by rewrite (decide_False (P := _ = _ /\ _)) by naive_solver.
Qed.

Lemma upsert_rows_ok d r d' : rows_ok d -> ur_wf r -> upsert d r = Ok d' -> rows_ok d'.
Proof.
  intros Hok Hr E. destruct (upsert_spec d r Hok Hr) as (d1 & E1 & Hp & _).
  rewrite E in E1. injection E1 as <-. intros id raw. rewrite Hp.
  case_decide as Hid; [|apply Hok]. intros [= <-].
  eexists. rewrite ur_roundtrip by by apply upsert_value_wf.
  split; [done|]. split; [by rewrite upsert_value_id|by apply upsert_value_wf].
Qed.

Lemma has_row_upsert d r d' x :
  rows_ok d -> ur_wf r -> upsert d r = Ok d' ->
  has_row d' x <->
    if decide (ur_id x = ur_id r) then x = upsert_value (prev_row d (ur_id r)) r
    else has_row d x.
Proof.
  intros Hok Hr E. destruct (upsert_spec d r Hok Hr) as (d1 & E1 & Hp & _).
  rewrite E in E1. injection E1 as <-. unfold has_row. setoid_rewrite Hp.
  case_decide as Hid; [|done]. split.
  - intros (raw & [= <-] & Hx). rewrite ur_roundtrip in Hx by by apply upsert_value_wf. congruence.
  - intros ->. eexists. rewrite ur_roundtrip by by apply upsert_value_wf. done.
Qed.

Lemma has_row_wf d x : rows_ok d -> has_row d x -> ur_wf x.
Proof. intros Hok (raw & E & Hd). destruct (Hok _ _ E) as (r & Hr & _ & Hw). congruence. Qed.

Lemma has_row_prev d x : has_row d x -> prev_row d (ur_id x) = Some x.
Proof. intros (raw & E & Hd). unfold prev_row. rewrite E. simpl. by rewrite Hd. Qed.

Lemma prev_row_has d id p : rows_ok d -> prev_row d id = Some p -> has_row d p /\ ur_id p = id.
Proof.
  intros Hok. unfold prev_row. destruct (get_cf d ur_primary (as_bytes id)) as [raw|] eqn:E; [|done].
  destruct (Hok _ _ E) as (r & Hr & Hid & _). simpl. rewrite Hr. simpl. intros [= <-].
  split; [|done]. exists raw. by rewrite Hid.
Qed.

Lemma upsert_index_exact d r d' :
  rows_ok d -> ur_wf r -> index_exact d -> upsert d r = Ok d' -> index_exact d'.
Proof.
  intros Hok Hr Hidx E cf k Hcf. setoid_rewrite (has_row_upsert d r d' _ Hok Hr E).
  destruct (upsert_spec d r Hok Hr) as (d1 & E1 & _ & Hi).
  rewrite E in E1. injection E1 as <-. rewrite Hi by by apply index_not_primary.
  set (w := upsert_value _ r). assert (ur_id w = ur_id r) as Hid by apply upsert_value_id.
  assert (ur_wf w) as Hw by by apply upsert_value_wf.
  destruct (decide ((cf, k) ∈ ur_keys w)) as [Hin|Hnin].
  { split; [|done]. intros _. exists w. by rewrite decide_True. }
  destruct (decide ((cf, k) ∈ stale_keys d w)) as [Hst|Hnst].
  - split; [by intros []|]. intros (x & Hx & Hk). exfalso. case_decide as Hxid; [by subst x|].
    apply stale_in_index in Hst as (p & Hp & Hpid & Hpw & Hpk & _); [|done..].
    apply Hxid. rewrite <- Hid, <- Hpid.
    apply (ur_keys_id x p (cf, k)); [by eapply has_row_wf|done..].
  - rewrite (Hidx cf k Hcf). split; intros (x & Hx & Hk); exists x; split; try done.
    + case_decide as Hxid; [|done]. exfalso. apply Hnst. unfold stale_keys.
      rewrite Hid, <- Hxid, (has_row_prev d x Hx). apply ur_stale_spec; [|done| |done].
      * by eapply has_row_wf.
      * congruence.
    + case_decide as Hxid; [by subst x|done].
Qed.

(** Removing a row removes exactly its index rows. *)
Lemma remove_index_exact d id d' :
  rows_ok d -> index_exact d -> remove d id = Ok d' ->
  rows_ok d' /\ index_exact d' /\ get_cf d' ur_primary (as_bytes id) = None.
Proof.
  intros Hok Hidx. unfold remove.
  destruct (get_cf d ur_primary (as_bytes id)) as [raw|] eqn:E; [|intros [= <-]; done].
  destruct (Hok _ _ E) as (p & Hp & Hpid & Hpw). rewrite Hp. cbn. intros [= <-].
  set (d' := db_write d _).
  assert (has_row d p) as Hrow by (exists raw; by rewrite Hpid).
  assert (forall i, get_cf d' ur_primary (as_bytes i) =
            if decide (i = id) then None else get_cf d ur_primary (as_bytes i)) as HP.
  { intros i. unfold d'. rewrite get_cf_write, batch_lookup_cons, batch_lookup_deletes.
    rewrite decide_False by (intros Hin%ur_keys_in; by apply ur_primary_notin). simpl.
    apply decide_ext. split; [intros [_ Hi]; by apply (inj as_bytes)|naive_solver]. }
  assert (forall x, has_row d' x <-> has_row d x /\ ur_id x <> id) as HR.
  { intros x. unfold has_row. setoid_rewrite HP. case_decide; naive_solver. }
  split_and!.
  - intros i r. rewrite HP. case_decide; [done|]. apply Hok.
  - intros cf k Hcf. setoid_rewrite HR. unfold d'.
    rewrite get_cf_write, batch_lookup_cons, batch_lookup_deletes. simpl.
    rewrite (decide_False (P := _ = _ /\ _)) by (intros [-> _]; by apply ur_primary_notin).
    case_decide as Hin.
    + split; [by intros []|]. intros (x & [Hx Hne] & Hk). exfalso. apply Hne. rewrite <- Hpid.
      apply (ur_keys_id x p (cf, k)); [by eapply has_row_wf|done..].
    + rewrite (Hidx cf k Hcf). split; intros (x & Hx & Hk); exists x; [|naive_solver].
      split; [|done]. split; [done|]. intros Hxid. apply Hin.
      pose proof (has_row_prev d x Hx) as H1. pose proof (has_row_prev d p Hrow) as H2.
      rewrite Hxid in H1. rewrite Hpid in H2. congruence.
  - rewrite HP. by rewrite decide_True.
Qed.
End upsert.

(** ** The two row types *)

Lemma sender_key_inj (a a' : bytes) id id' :
  length a = length a' ->
  idx_async_sender_key a id = idx_async_sender_key a' id' -> a = a' /\ id = id'.
Proof.
  unfold idx_async_sender_key. intros Hl E. apply app_inj_1 in E as [-> E]; [|done].
  simpl in E. injection E as E. by apply (inj as_bytes) in E.
Qed.

Lemma last_slot_key_inj ls ls' id id' :
  Slot_ok ls -> Slot_ok ls' ->
  last_slot_index_key ls id = last_slot_index_key ls' id' -> ls = ls' /\ id = id'.
Proof.
  intros [H1 H2] [H3 H4] E. unfold last_slot_index_key, idx_by_rslot_id in E.
  apply app_inj_1 in E as [E1 E2]; [|by rewrite !rslot_key_length].
  apply rslot_key_inj in E1 as [Ep Et]; [|done..]. apply (inj as_bytes) in E2.
  destruct ls, ls'; simpl in *; by subst.
Qed.

(** The keys one optional field contributes, and its stale ones. *)
Definition field_keys {A} (cf : Cf) (key : A -> string -> bytes) (o : option A) (id : string)
  : list (Cf * bytes) :=
  match o with Some a => [(cf, key a id)] | None => [] end.
Definition field_stale {A B} `{EqDecision B} (cf : Cf) (key : A -> string -> bytes) (view : A -> B)
    (prev now : option A) (id : string) : list (Cf * bytes) :=
  match prev with
  | Some a => if bool_decide (view <$> prev = view <$> now) then [] else [(cf, key a id)]
  | None => []
  end.

Lemma elem_of_field_keys {A} cf (key : A -> string -> bytes) o id ck :
  ck ∈ field_keys cf key o id <-> exists a, o = Some a /\ ck = (cf, key a id).
Proof. destruct o; simpl; [|set_solver]. rewrite list_elem_of_singleton. naive_solver. Qed.

Lemma elem_of_field_stale {A B} `{EqDecision B} cf (key : A -> string -> bytes) (view : A -> B)
    (P : A -> Prop) prev now id ck :
  (forall a a', P a -> P a' -> key a id = key a' id <-> view a = view a') ->
  opt_wf P prev -> opt_wf P now ->
  ck ∈ field_stale cf key view prev now id <->
  ck ∈ field_keys cf key prev id /\ ck ∉ field_keys cf key now id.
Proof.
  intros Hinj Hp Hn. unfold field_stale, field_keys.
  destruct prev as [a|], now as [b|]; simpl in *; try case_bool_decide as E;
    rewrite ?list_elem_of_singleton; try set_solver.
  - injection E as E. apply Hinj in E; [|done..]. rewrite E. set_solver.
  - split; [|naive_solver]. intros ->. split; [done|]. intros [= E']. apply E. f_equal.
    by apply Hinj in E'.
Qed.

Section instances.
Context `{Bs58, Base64, HexCrate, ProstStorage}.

Lemma sender_key_view id a a' :
  Address_enc a -> Address_enc a' ->
  idx_async_sender_key (addr_as_bytes a) id = idx_async_sender_key (addr_as_bytes a') id <->
  addr_as_bytes a = addr_as_bytes a'.
Proof.
  intros [Ha _] [Ha' _]. split; [|by intros ->]. intros E.
  apply sender_key_inj in E; [tauto|]. unfold addr_as_bytes. by rewrite Ha, Ha'.
Qed.
Lemma last_slot_key_view id s s' :
  Slot_ok s -> Slot_ok s' -> last_slot_index_key s id = last_slot_index_key s' id <-> s = s'.
Proof. intros Hs Hs'. split; [|by intros ->]. intros E. by apply last_slot_key_inj in E as [-> _]. Qed.

(** Membership in a key list: one disjunct per index. *)
Lemma async_keys_alt m id :
  async_index_keys m id =
  field_keys IDX_ASYNC_BY_SENDER (fun a => idx_async_sender_key (addr_as_bytes a)) (am_sender m) id ++
  field_keys IDX_ASYNC_BY_DEST (fun a => idx_async_sender_key (addr_as_bytes a))
    (am_destination m) id ++
  field_keys IDX_ASYNC_BY_LAST_SLOT last_slot_index_key (am_last_slot m) id.
Proof. done. Qed.
Lemma async_stale_alt p n :
  async_stale p n =
  field_stale IDX_ASYNC_BY_SENDER (fun a => idx_async_sender_key (addr_as_bytes a)) addr_as_bytes
    (am_sender p) (am_sender n) (am_id p) ++
  field_stale IDX_ASYNC_BY_DEST (fun a => idx_async_sender_key (addr_as_bytes a)) addr_as_bytes
    (am_destination p) (am_destination n) (am_id p) ++
  field_stale IDX_ASYNC_BY_LAST_SLOT last_slot_index_key (fun x : Slot => x)
    (am_last_slot p) (am_last_slot n) (am_id p).
Proof.
  unfold async_stale, field_stale, addr_key_of.
  by destruct (am_sender p), (am_destination p), (am_last_slot p), (am_last_slot n).
Qed.

Lemma deferred_keys_alt c id :
  deferred_index_keys c id =
  field_keys IDX_DEFERRED_BY_SENDER (fun a => idx_async_sender_key (addr_as_bytes a))
    (dc_sender c) id ++
  field_keys IDX_DEFERRED_BY_TARGET (fun a => idx_async_sender_key (addr_as_bytes a))
    (dc_target_address c) id ++
  field_keys IDX_DEFERRED_BY_LAST_SLOT last_slot_index_key (dc_last_slot c) id.
Proof. done. Qed.
Lemma deferred_stale_alt p n :
  deferred_stale p n =
  field_stale IDX_DEFERRED_BY_SENDER (fun a => idx_async_sender_key (addr_as_bytes a))
    addr_as_bytes (dc_sender p) (dc_sender n) (dc_id p) ++
  field_stale IDX_DEFERRED_BY_TARGET (fun a => idx_async_sender_key (addr_as_bytes a))
    addr_as_bytes (dc_target_address p) (dc_target_address n) (dc_id p) ++
  field_stale IDX_DEFERRED_BY_LAST_SLOT last_slot_index_key (fun x : Slot => x)
    (dc_last_slot p) (dc_last_slot n) (dc_id p).
Proof.
  unfold deferred_stale, field_stale, addr_key_of.
  by destruct (dc_sender p), (dc_target_address p), (dc_last_slot p), (dc_last_slot n).
Qed.

(** Three index families per row type: an address, another address, a slot. *)
Definition three_keys (c1 c2 c3 : Cf) (a b : option Address) (s : option Slot) (id : string) :=
  field_keys c1 (fun a => idx_async_sender_key (addr_as_bytes a)) a id ++
  field_keys c2 (fun a => idx_async_sender_key (addr_as_bytes a)) b id ++
  field_keys c3 last_slot_index_key s id.
Definition three_stale (c1 c2 c3 : Cf) (a a' b b' : option Address) (s s' : option Slot)
    (id : string) :=
  field_stale c1 (fun a => idx_async_sender_key (addr_as_bytes a)) addr_as_bytes a a' id ++
  field_stale c2 (fun a => idx_async_sender_key (addr_as_bytes a)) addr_as_bytes b b' id ++
  field_stale c3 last_slot_index_key (fun x : Slot => x) s s' id.

Lemma field_keys_cf {A} cf (key : A -> string -> bytes) o id ck :
  ck ∈ field_keys cf key o id -> ck.1 = cf.
Proof. rewrite elem_of_field_keys. by intros (a & _ & ->). Qed.

Lemma three_stale_spec c1 c2 c3 a a' b b' s s' id ck :
  c1 <> c2 -> c1 <> c3 -> c2 <> c3 ->
  opt_wf Address_enc a -> opt_wf Address_enc a' -> opt_wf Address_enc b -> opt_wf Address_enc b' ->
  opt_wf Slot_ok s -> opt_wf Slot_ok s' ->
  ck ∈ three_stale c1 c2 c3 a a' b b' s s' id <->
  ck ∈ three_keys c1 c2 c3 a b s id /\ ck ∉ three_keys c1 c2 c3 a' b' s' id.
Proof.
  intros D12 D13 D23 Wa Wa' Wb Wb' Ws Ws'. unfold three_stale, three_keys.
  rewrite !elem_of_app.
  rewrite !(elem_of_field_stale _ _ _ Address_enc) by (done || apply sender_key_view).
  rewrite (elem_of_field_stale _ _ _ Slot_ok) by (done || apply last_slot_key_view).
  pose proof (field_keys_cf c1 (fun a => idx_async_sender_key (addr_as_bytes a)) a id ck).
  pose proof (field_keys_cf c1 (fun a => idx_async_sender_key (addr_as_bytes a)) a' id ck).
  pose proof (field_keys_cf c2 (fun a => idx_async_sender_key (addr_as_bytes a)) b id ck).
  pose proof (field_keys_cf c2 (fun a => idx_async_sender_key (addr_as_bytes a)) b' id ck).
  pose proof (field_keys_cf c3 last_slot_index_key s id ck).
  pose proof (field_keys_cf c3 last_slot_index_key s' id ck).
  intuition congruence.
Qed.

Lemma field_keys_sender_id cf o o' id id' ck :
  opt_wf Address_enc o -> opt_wf Address_enc o' ->
  ck ∈ field_keys cf (fun a => idx_async_sender_key (addr_as_bytes a)) o id ->
  ck ∈ field_keys cf (fun a => idx_async_sender_key (addr_as_bytes a)) o' id' -> id = id'.
Proof.
  rewrite !elem_of_field_keys. intros W W' (a & -> & ->) (a' & -> & [= E]).
  apply sender_key_inj in E; [tauto|]. unfold addr_as_bytes.
  by rewrite (proj1 W), (proj1 W').
Qed.

Lemma three_keys_id c1 c2 c3 a a' b b' s s' id id' ck :
  c1 <> c2 -> c1 <> c3 -> c2 <> c3 ->
  opt_wf Address_enc a -> opt_wf Address_enc a' -> opt_wf Address_enc b -> opt_wf Address_enc b' ->
  opt_wf Slot_ok s -> opt_wf Slot_ok s' ->
  ck ∈ three_keys c1 c2 c3 a b s id -> ck ∈ three_keys c1 c2 c3 a' b' s' id' -> id = id'.
Proof.
  intros D12 D13 D23 Wa Wa' Wb Wb' Ws Ws'. unfold three_keys. rewrite !elem_of_app.
  intros [K|[K|K]] [K'|[K'|K']];
    pose proof (field_keys_cf _ _ _ _ _ K) as E; pose proof (field_keys_cf _ _ _ _ _ K') as E';
    try (exfalso; congruence).
  - by apply (field_keys_sender_id c1 a a' id id' ck).
  - by apply (field_keys_sender_id c2 b b' id id' ck).
  - apply elem_of_field_keys in K as (x & -> & ->). apply elem_of_field_keys in K' as (y & -> & K').
    apply (f_equal snd) in K'. apply last_slot_key_inj in K'; [tauto|done..].
Qed.

Lemma three_keys_in c1 c2 c3 a b s id ck :
  ck ∈ three_keys c1 c2 c3 a b s id -> ck.1 ∈ [c1; c2; c3].
Proof.
  unfold three_keys. rewrite !elem_of_app. intros [K|[K|K]]; apply field_keys_cf in K as ->; set_solver.
Qed.

#[local] Obligation Tactic := idtac.
#[export] Program Instance async_upsert : UpsertRow StoredAsyncMsg := {|
  ur_primary := CF_ASYNC_MSG;
  ur_indexes := [IDX_ASYNC_BY_SENDER; IDX_ASYNC_BY_DEST; IDX_ASYNC_BY_LAST_SLOT];
  ur_id := am_id; ur_encode := encode_async_msg; ur_decode := decode_async_msg;
  ur_wf := StoredAsyncMsg_wf; ur_first_seen := am_first_seen_ts_ms;
  ur_set_first_seen z m := m <| am_first_seen_ts_ms := z |>;
  ur_keys m := async_index_keys m (am_id m);
  ur_stale := async_stale;
|}.
Next Obligation. intros m Hm. by apply async_msg_roundtrip, StoredAsyncMsg_wf_enc. Qed.
Next Obligation. intros r ck; cbv beta. rewrite async_keys_alt. apply three_keys_in. Qed.
Next Obligation. set_solver. Qed.
Next Obligation.
  intros r r' ck (W1 & W2 & _ & _ & _ & W3) (V1 & V2 & _ & _ & _ & V3); cbv beta. rewrite !async_keys_alt.
  by apply three_keys_id.
Qed.
Next Obligation.
  intros p n ck (W1 & W2 & _ & _ & _ & W3) (V1 & V2 & _ & _ & _ & V3) E; cbv beta.
  rewrite async_stale_alt, !async_keys_alt, <- E. by apply three_stale_spec.
Qed.
Next Obligation. by intros z []. Qed.
Next Obligation. by intros z []. Qed.
Next Obligation. by intros z []. Qed.

#[export] Program Instance deferred_upsert : UpsertRow StoredDeferredCall := {|
  ur_primary := CF_DEFERRED_CALL;
  ur_indexes := [IDX_DEFERRED_BY_SENDER; IDX_DEFERRED_BY_TARGET; IDX_DEFERRED_BY_LAST_SLOT];
  ur_id := dc_id; ur_encode := encode_deferred_call; ur_decode := decode_deferred_call;
  ur_wf := StoredDeferredCall_wf; ur_first_seen := dc_first_seen_ts_ms;
  ur_set_first_seen z m := m <| dc_first_seen_ts_ms := z |>;
  ur_keys m := deferred_index_keys m (dc_id m);
  ur_stale := deferred_stale;
|}.
Next Obligation. intros c Hc. by apply deferred_call_roundtrip, StoredDeferredCall_wf_enc. Qed.
Next Obligation. intros r ck; cbv beta. rewrite deferred_keys_alt. apply three_keys_in. Qed.
Next Obligation. set_solver. Qed.
Next Obligation.
  intros r r' ck (W1 & W2 & _ & _ & W3) (V1 & V2 & _ & _ & V3); cbv beta. rewrite !deferred_keys_alt.
  by apply three_keys_id.
Qed.
Next Obligation.
  intros p n ck (W1 & W2 & _ & _ & W3) (V1 & V2 & _ & _ & V3) E; cbv beta.
  rewrite deferred_stale_alt, !deferred_keys_alt, <- E. by apply three_stale_spec.
Qed.
Next Obligation. by intros z []. Qed.
Next Obligation. by intros z []. Qed.
Next Obligation. by intros z []. Qed.
End instances.

Section db_writers.
Context `{Bs58, Base64, HexCrate, ProstStorage, RocksDB}.

Lemma write_async_upsert d m : write_async_msg d m = upsert d m.
Proof. reflexivity. Qed.
Lemma write_deferred_upsert d c : write_deferred_call d c = upsert d c.
Proof. reflexivity. Qed.
End db_writers.
