(* ===== verification/DbSlotRows.v ===== *)
(** * Rows numbered inside a slot: SC events and transfers

    Both families are keyed [slot ‖ index], carry secondary indexes whose keys
    end in the row's coordinates, and are wiped slot by slot before being
    rewritten. [SlotRow] states what the code relies on; the invariants of
    writing and clearing, and the completeness of the index readers, are proved
    against it. *)

From S2P Require Import Prelude Ids Keys Model Proto Codec CodecLemmas Store Text Db DbUpsert.

Class SlotRow (R : Type) := {
  sr_primary : Cf;
  sr_indexes : list Cf;
  sr_slot : R -> Slot;
  sr_index : R -> Z;
  sr_encode : R -> result CodecError bytes;
  sr_decode : bytes -> result CodecError R;
  sr_wf : R -> Prop;
  sr_keys : R -> list (Cf * bytes);
  (** The coordinates an index key ends in. *)
  sr_parse : Cf -> bytes -> option (Z * Z * Z);
  sr_wf_slot r : sr_wf r -> Slot_ok (sr_slot r);
  sr_wf_index r : sr_wf r -> u32_ok (sr_index r);
  sr_roundtrip r : sr_wf r -> exists v, sr_encode r = Ok v /\ sr_decode v = Ok r;
  sr_keys_in r ck : ck ∈ sr_keys r -> ck.1 ∈ sr_indexes;
  sr_primary_notin : sr_primary ∉ sr_indexes;
  sr_keys_parse r ck : sr_wf r -> ck ∈ sr_keys r ->
    sr_parse ck.1 ck.2 = Some (slot_period (sr_slot r), slot_thread (sr_slot r), sr_index r);
}.

Section slot_rows.
Context `{RocksDB} {R : Type} `{SlotRow R}.

Definition sr_key (r : R) : bytes :=
  sc_event_key (slot_period (sr_slot r)) (slot_thread (sr_slot r)) (sr_index r).
Definition slot_write (d : DB) (r : R) : result Error DB :=
  raw ← lift_codec (sr_encode r);
  Ok (db_write d (Put sr_primary (sr_key r) raw :: (put_empty <$> sr_keys r))).
Definition cleared_keys (kv : bytes * bytes) : list (Cf * bytes) :=
  match sr_decode kv.2 with Ok r => sr_keys r | Err _ => [] end ++ [(sr_primary, kv.1)].
Definition slot_clear (d : DB) (period thread : Z) : DB :=
  match slot_entries d sr_primary period thread with
  | [] => d
  | l => db_write d (delete_key <$> (l ≫= cleared_keys))
  end.

Definition stored (d : DB) (r : R) : Prop :=
  exists raw, get_cf d sr_primary (sr_key r) = Some raw /\ sr_decode raw = Ok r.
Definition slot_rows_ok (d : DB) : Prop :=
  forall k raw, get_cf d sr_primary k = Some raw ->
    exists r, sr_decode raw = Ok r /\ k = sr_key r /\ sr_wf r.
Definition slot_index_exact (d : DB) : Prop :=
  forall cf k, cf ∈ sr_indexes ->
    is_Some (get_cf d cf k) <-> exists r, stored d r /\ (cf, k) ∈ sr_keys r.

Lemma sr_key_coord r :
  sr_wf r -> decode_slot_indexed_key (sr_key r) =
    Some (slot_period (sr_slot r), slot_thread (sr_slot r), sr_index r).
Proof.
  intros Hw. destruct (sr_wf_slot r Hw). apply decode_slot_indexed_key_build; try done.
  by apply sr_wf_index.
Qed.

Lemma stored_wf d r : slot_rows_ok d -> stored d r -> sr_wf r.
Proof. intros Hok (raw & E & Hd). destruct (Hok _ _ E) as (x & Hx & _ & Hw). congruence. Qed.

(** Rows sharing an index key share the primary key, hence are one row. *)
Lemma stored_key_inj d r r' : stored d r -> stored d r' -> sr_key r = sr_key r' -> r = r'.
Proof. intros (raw & E & Hd) (raw' & E' & Hd') K. rewrite K in E. congruence. Qed.

Lemma sr_keys_key r r' ck :
  sr_wf r -> sr_wf r' -> ck ∈ sr_keys r -> ck ∈ sr_keys r' -> sr_key r = sr_key r'.
Proof.
  intros W W' K K'. apply sr_keys_parse in K; [|done]. apply sr_keys_parse in K'; [|done].
  rewrite K in K'. injection K' as E1 E2 E3. unfold sr_key. by rewrite E1, E2, E3.
Qed.

Lemma sr_keys_not_primary r k : (sr_primary, k) ∉ sr_keys r.
Proof. intros Hin%sr_keys_in. by apply sr_primary_notin. Qed.

Lemma slot_write_spec d r :
  slot_rows_ok d -> slot_index_exact d -> sr_wf r -> get_cf d sr_primary (sr_key r) = None ->
  exists d', slot_write d r = Ok d' /\ slot_rows_ok d' /\ slot_index_exact d' /\
    (forall x, stored d' x <-> x = r \/ stored d x) /\
    (forall cf k, cf <> sr_primary -> cf ∉ sr_indexes -> get_cf d' cf k = get_cf d cf k).
Proof.
  intros Hok Hidx Hw Hfresh. destruct (sr_roundtrip r Hw) as (v & Ev & Dv).
  unfold slot_write. rewrite Ev. cbn. eexists; split; [done|]. set (d' := db_write d _).
  assert (forall k, get_cf d' sr_primary k =
    if decide (k = sr_key r) then Some v else get_cf d sr_primary k) as HP.
  { intros k. unfold d'. rewrite get_cf_write, batch_lookup_cons, batch_lookup_puts.
    rewrite decide_False by apply sr_keys_not_primary. simpl. apply decide_ext.
    split; [by intros [_ ->] | by intros ->]. }
  assert (forall x, stored d' x <-> x = r \/ stored d x) as HS.
  { intros x. unfold stored. setoid_rewrite HP. case_decide as E.
    - rewrite E, Hfresh. split; [intros (raw & [= <-] & Hx); left; congruence|].
      intros [-> | (raw & Hg & _)]; [eauto|done].
    - split; [by right|]. intros [-> |?]; done. }
  assert (forall cf k, cf <> sr_primary -> get_cf d' cf k =
    if decide ((cf, k) ∈ sr_keys r) then Some [] else get_cf d cf k) as HI.
  { intros cf k Hne. unfold d'. rewrite get_cf_write, batch_lookup_cons, batch_lookup_puts.
    simpl. by rewrite (decide_False (P := _ = _ /\ _)) by naive_solver. }
  split_and!; [| |done|].
  - intros k raw. rewrite HP. case_decide as E; [|apply Hok]. intros [= <-]. eauto.
  - intros cf k Hcf. setoid_rewrite HS.
    rewrite HI by (intros ->; by apply sr_primary_notin). case_decide as E.
    + split; [|done]. intros _. exists r. auto.
    + rewrite (Hidx cf k Hcf). naive_solver.
  - intros cf k H1 H2. rewrite HI by done. rewrite decide_False; [done|].
    intros Hin. by apply sr_keys_in in Hin.
Qed.

(** The rows of a slot, by index. *)
Lemma elem_of_slot_entries d period thread k v :
  (k, v) ∈ slot_entries d sr_primary period thread <->
  starts_with k (slot_key period thread) = true /\ get_cf d sr_primary k = Some v.
Proof.
  unfold slot_entries. rewrite filter_le_sw by (rewrite <- (app_nil_r (slot_key _ _)) at 1;
    apply starts_with_app).
  rewrite list_elem_of_filter, elem_of_prefix_entries. split; [tauto|].
  intros [Hs Hg]. split; [|done]. by apply prefix_le.
Qed.

Lemma sr_key_in_slot r s :
  sr_wf r -> Slot_ok s ->
  starts_with (sr_key r) (slot_key (slot_period s) (slot_thread s)) = true <-> sr_slot r = s.
Proof.
  intros Hw [Hp Ht]. destruct (sr_wf_slot r Hw) as [Hp' Ht']. unfold sr_key, sc_event_key.
  rewrite starts_with_app_same_length by (by rewrite !slot_key_length).
  rewrite bool_decide_eq_true. split; [|by intros ->].
  intros E. apply slot_key_inj in E as [E1 E2]; [|done..].
  destruct (sr_slot r), s; simpl in *; by subst.
Qed.

Lemma slot_clear_lookup d s cf k :
  get_cf (slot_clear d (slot_period s) (slot_thread s)) cf k =
  if decide ((cf, k) ∈ slot_entries d sr_primary (slot_period s) (slot_thread s) ≫= cleared_keys)
  then None else get_cf d cf k.
Proof.
  unfold slot_clear. destruct (slot_entries _ _ _ _) as [|x l] eqn:E; [done|].
  by rewrite get_cf_write, batch_lookup_deletes.
Qed.

Lemma elem_of_cleared d s cf k :
  slot_rows_ok d -> Slot_ok s ->
  (cf, k) ∈ slot_entries d sr_primary (slot_period s) (slot_thread s) ≫= cleared_keys <->
  exists r, stored d r /\ sr_slot r = s /\ ((cf, k) ∈ sr_keys r \/ (cf, k) = (sr_primary, sr_key r)).
Proof.
  intros Hok Hs. rewrite list_elem_of_bind. split.
  - intros ([k' v] & Hck & Hin). apply elem_of_slot_entries in Hin as [Hsw Hg].
    destruct (Hok _ _ Hg) as (r & Hr & -> & Hw). exists r.
    split; [by exists v|]. split; [by apply sr_key_in_slot|].
    unfold cleared_keys in Hck. simpl in Hck. rewrite Hr in Hck. set_solver.
  - intros (r & (raw & Hg & Hd) & Hsl & Hck). exists (sr_key r, raw).
    assert (sr_wf r) as Hw by (eapply stored_wf; [done|by exists raw]). split.
    + unfold cleared_keys. simpl. rewrite Hd. set_solver.
    + apply elem_of_slot_entries. split; [|done]. by apply sr_key_in_slot.
Qed.

(** Clearing a slot removes its rows with exactly their index rows. *)
Lemma slot_clear_spec d s :
  slot_rows_ok d -> slot_index_exact d -> Slot_ok s ->
  let d' := slot_clear d (slot_period s) (slot_thread s) in
  slot_rows_ok d' /\ slot_index_exact d' /\
  (forall r, stored d' r <-> stored d r /\ sr_slot r <> s) /\
  (forall cf k, cf <> sr_primary -> cf ∉ sr_indexes -> get_cf d' cf k = get_cf d cf k).
Proof.
  intros Hok Hidx Hs d'.
  pose proof (fun cf k => slot_clear_lookup d s cf k) as HG. fold d' in HG.
  pose proof (fun cf k => elem_of_cleared d s cf k Hok Hs) as HC.
  assert (forall r, stored d' r <-> stored d r /\ sr_slot r <> s) as HS.
  { intros r. unfold stored at 1. setoid_rewrite HG. split.
    - intros (raw & Hg & Hd). case_decide as Hin; [done|]. split; [by exists raw|].
      intros Hsl. apply Hin, HC. exists r. split; [by exists raw|]. auto.
    - intros [(raw & Hg & Hd) Hsl]. exists raw. split; [|done]. rewrite decide_False; [done|].
      rewrite HC. intros (x & Hx & Hxs & [Hk|Hk]).
      + by apply sr_keys_not_primary in Hk.
      + apply (f_equal snd) in Hk. apply Hsl. rewrite (stored_key_inj d r x); [done|by exists raw|done..]. }
  split_and!; [| |done|].
  - intros k raw. rewrite HG. case_decide; [done|]. apply Hok.
  - intros cf k Hcf. setoid_rewrite HS. rewrite HG. case_decide as Hin.
    + split; [by intros []|]. intros (x & [Hx Hxs] & Hk). exfalso. apply Hxs.
      apply HC in Hin as (y & Hy & Hys & [Hk'|[= -> ->]]).
      * rewrite (stored_key_inj d x y); [done..|].
        apply (sr_keys_key x y (cf, k)); [by eapply stored_wf..|done|done].
      * by apply sr_keys_not_primary in Hk.
    + rewrite (Hidx cf k Hcf). split; intros (x & Hx & Hk); exists x; [|naive_solver].
      split; [|done]. split; [done|]. intros Hxs. apply Hin, HC. eauto.
  - intros cf k H1 H2. rewrite HG, decide_False; [done|].
    rewrite HC. intros (x & _ & _ & [Hk%sr_keys_in|[= -> _]]); done.
Qed.

(** The rows an index lists under a prefix. *)
Definition index_rows (d : DB) (cf : Cf) (prefix : bytes) : list R :=
  rows (fun k _ =>
          '(p, t, i) ← sr_parse cf k;
          raw ← get_cf d sr_primary (sc_event_key p t i);
          ok (sr_decode raw)) (prefix_entries d cf prefix).

Lemma elem_of_index_rows d cf prefix r :
  slot_rows_ok d -> slot_index_exact d -> cf ∈ sr_indexes ->
  r ∈ index_rows d cf prefix <->
  stored d r /\ exists k, (cf, k) ∈ sr_keys r /\ starts_with k prefix = true.
Proof.
  intros Hok Hidx Hcf. unfold index_rows, rows. rewrite list_elem_of_omap. split.
  - intros ([k v] & Hin & Hrow). apply elem_of_prefix_entries in Hin as [Hs Hg]. simpl in Hrow.
    destruct (proj1 (Hidx cf k Hcf) (mk_is_Some _ _ Hg)) as (x & Hx & Hk).
    pose proof (sr_keys_parse x (cf, k) (stored_wf _ _ Hok Hx) Hk) as Hp. simpl in Hp.
    rewrite Hp in Hrow. simpl in Hrow. destruct Hx as (raw & Hg' & Hd).
    unfold sr_key in Hg'. rewrite Hg' in Hrow. simpl in Hrow. rewrite Hd in Hrow.
    simpl in Hrow. injection Hrow as ->. split; [by exists raw|by exists k].
  - intros [Hst (k & Hk & Hs)].
    destruct (proj2 (Hidx cf k Hcf) (ex_intro _ r (conj Hst Hk))) as [v Hv].
    exists (k, v). split; [by apply elem_of_prefix_entries|]. simpl.
    pose proof (sr_keys_parse r (cf, k) (stored_wf _ _ Hok Hst) Hk) as Hp. simpl in Hp.
    rewrite Hp. simpl. destruct Hst as (raw & Hg' & Hd). unfold sr_key in Hg'. rewrite Hg'.
    simpl. by rewrite Hd.
Qed.
End slot_rows.

(** ** The two families *)
Section instances.
Context `{Bs58, Base64, HexCrate, ProstStorage}.

Definition event_row_wf (e : StoredScEvent) : Prop :=
  StoredScEvent_wf e /\ u32_ok (ev_index_in_slot e).
Definition transfer_row_wf (t : StoredTransfer) : Prop :=
  StoredTransfer_wf t /\ u32_ok (tr_index_in_slot t).

#[local] Obligation Tactic := idtac.
#[export] Program Instance event_slot_row : SlotRow StoredScEvent := {|
  sr_primary := CF_SC_EVENT;
  sr_indexes := [IDX_SC_EVENT_BY_EMITTER; IDX_SC_EVENT_BY_CALLER; IDX_SC_EVENT_BY_OP];
  sr_slot := ev_slot; sr_index := ev_index_in_slot;
  sr_encode := encode_sc_event; sr_decode := decode_sc_event; sr_wf := event_row_wf;
  sr_keys := event_index_keys;
  sr_parse _ k := parse_idx_event k;
|}.
Next Obligation. by intros r [[]]. Qed.
Next Obligation. by intros r []. Qed.
Next Obligation. intros r []. by apply sc_event_roundtrip. Qed.
Next Obligation.
  intros r ck. cbv beta. unfold event_index_keys. rewrite !elem_of_app, !list_elem_of_fmap.
  intros [(a & -> & _)|[(a & -> & _)|Hin]]; simpl; [set_solver..|].
  destruct (ev_op_id r); set_solver.
Qed.
Next Obligation. set_solver. Qed.
Next Obligation.
  intros r ck [(Hs & _) Hi]. cbv beta. unfold event_index_keys. destruct Hs.
  rewrite !elem_of_app, !list_elem_of_fmap.
  intros [(a & -> & _)|[(a & -> & _)|Hin]]; simpl; [by apply parse_idx_event_build..|].
  destruct (ev_op_id r); [|set_solver]. apply list_elem_of_singleton in Hin as ->. simpl.
  by apply parse_idx_event_build.
Qed.

Definition transfer_parse (cf : Cf) (k : bytes) : option (Z * Z * Z) :=
  match cf with
  | IDX_TRANSFER_BY_ADDR => '(p, t, i, _) ← parse_idx_transfer_by_addr k; Some (p, t, i)
  | _ => parse_idx_id_slot_index k
  end.

Lemma elem_of_parsed {A} (o : option string) (parse : string -> result string A)
    (f : A -> Cf * bytes) ck :
  ck ∈ match s ← o; ok (parse s) with Some a => [f a] | None => [] end <->
  exists s a, o = Some s /\ parse s = Ok a /\ ck = f a.
Proof.
  split.
  - destruct o as [s|]; simpl; [|intros Hin; by apply elem_of_nil in Hin].
    destruct (parse s) as [a|] eqn:E; simpl; [|intros Hin; by apply elem_of_nil in Hin].
    intros ->%list_elem_of_singleton. eauto.
  - intros (s & a & -> & E & ->). simpl. rewrite E. simpl. by apply list_elem_of_singleton.
Qed.

Lemma elem_of_addr_index_key t who tag ck :
  ck ∈ addr_index_key t who tag <->
  exists s a, who = Some s /\ Address_parse s = Ok a /\
    ck = (IDX_TRANSFER_BY_ADDR,
          idx_transfer_by_addr (addr_as_bytes a) (slot_period (tr_slot t))
            (slot_thread (tr_slot t)) (tr_index_in_slot t) tag).
Proof. apply (elem_of_parsed who Address_parse (fun a => (IDX_TRANSFER_BY_ADDR, _))). Qed.

Lemma elem_of_transfer_keys t ck :
  ck ∈ transfer_index_keys t <->
  ck ∈ addr_index_key t (tr_from t) 1 \/ ck ∈ addr_index_key t (tr_to t) 2 \/
  (exists s o, tr_operation_id t = Some s /\ OperationId_parse s = Ok o /\
     ck = (IDX_TRANSFER_BY_OP, idx_transfer_by_op (id_as_bytes o) (slot_period (tr_slot t))
             (slot_thread (tr_slot t)) (tr_index_in_slot t))) \/
  (exists s b, tr_block_id t = Some s /\ BlockId_parse s = Ok b /\
     ck = (IDX_TRANSFER_BY_BLOCK, idx_transfer_by_block (id_as_bytes b) (slot_period (tr_slot t))
             (slot_thread (tr_slot t)) (tr_index_in_slot t))).
Proof.
  unfold transfer_index_keys. rewrite !elem_of_app. do 2 (apply or_iff_compat_l).
  by rewrite (elem_of_parsed (tr_operation_id t) OperationId_parse
                (fun o => (IDX_TRANSFER_BY_OP, _))),
             (elem_of_parsed (tr_block_id t) BlockId_parse (fun b => (IDX_TRANSFER_BY_BLOCK, _))).
Qed.

Lemma addr_key_length a s : Address_parse s = Ok a -> length (addr_as_bytes a) = ADDR_KEY_LEN.
Proof. intros E. apply Address_parse_wf in E as [[Hl _] _]. exact Hl. Qed.
Lemma id_key_length f (i : Id f) s : id_parse f s = Ok i -> length (id_as_bytes i) = ID_KEY_LEN.
Proof. intros E. apply id_parse_wf in E as [[Hl _] _]. exact Hl. Qed.

#[export] Program Instance transfer_slot_row : SlotRow StoredTransfer := {|
  sr_primary := CF_TRANSFER;
  sr_indexes := [IDX_TRANSFER_BY_ADDR; IDX_TRANSFER_BY_OP; IDX_TRANSFER_BY_BLOCK];
  sr_slot := tr_slot; sr_index := tr_index_in_slot;
  sr_encode t := Ok (encode_transfer t); sr_decode := decode_transfer;
  sr_wf := transfer_row_wf;
  sr_keys := transfer_index_keys;
  sr_parse := transfer_parse;
|}.
Next Obligation. by intros r [[]]. Qed.
Next Obligation. by intros r []. Qed.
Next Obligation. intros r []. eexists; split; [done|]. by apply transfer_roundtrip. Qed.
Next Obligation.
  intros r ck. cbv beta. rewrite elem_of_transfer_keys, !elem_of_addr_index_key.
  intros [(?&?&?&?& ->)|[(?&?&?&?& ->)|[(?&?&?&?& ->)|(?&?&?&?& ->)]]]; set_solver.
Qed.
Next Obligation. set_solver. Qed.
Next Obligation.
  intros r ck [[[Hp Ht] _] Hi]. cbv beta. rewrite elem_of_transfer_keys, !elem_of_addr_index_key.
  intros [(?&?&?&E& ->)|[(?&?&?&E& ->)|[(?&?&?&E& ->)|(?&?&?&E& ->)]]]; simpl.
  - rewrite parse_idx_transfer_by_addr_build; [done..|by eapply addr_key_length|done|by vm_compute].
  - rewrite parse_idx_transfer_by_addr_build; [done..|by eapply addr_key_length|done|by vm_compute].
  - apply parse_idx_id_slot_index_build; [done..|by eapply id_key_length|done].
  - apply parse_idx_id_slot_index_build; [done..|by eapply id_key_length|done].
Qed.
End instances.

Section db_slot_rows.
Context `{Bs58, Base64, HexCrate, ProstStorage, RocksDB}.

Lemma write_sc_event_alt d e : write_sc_event d e = slot_write d e.
Proof. reflexivity. Qed.
Lemma write_transfer_alt d t : Ok (write_transfer d t) = slot_write d t.
Proof. reflexivity. Qed.

Lemma bind_delete_keys {A} (f : A -> list (Cf * bytes)) (l : list A) :
  delete_key <$> (l ≫= f) = l ≫= (fun a => delete_key <$> f a).
Proof. induction l as [|a l IH]; [done|]. by rewrite !bind_cons, fmap_app, IH. Qed.
Lemma clear_event_ops_alt kv : clear_event_ops kv = delete_key <$> cleared_keys (R := StoredScEvent) kv.
Proof.
  unfold clear_event_ops, cleared_keys. rewrite fmap_app. simpl.
  by destruct (decode_sc_event kv.2).
Qed.
Lemma clear_transfer_ops_alt kv :
  clear_transfer_ops kv = delete_key <$> cleared_keys (R := StoredTransfer) kv.
Proof.
  unfold clear_transfer_ops, cleared_keys. rewrite fmap_app. simpl.
  by destruct (decode_transfer kv.2).
Qed.
Lemma clear_sc_events_alt d p t :
  clear_sc_events_for_slot d p t = slot_clear (R := StoredScEvent) d p t.
Proof.
  unfold clear_sc_events_for_slot, slot_clear. cbn [sr_primary event_slot_row]. destruct (slot_entries _ _ _ _) as [|kv l]; [done|].
  rewrite (bind_delete_keys _ (kv :: l)). f_equal. apply list_bind_ext; [|done]. apply clear_event_ops_alt.
Qed.
Lemma clear_transfers_alt d p t :
  clear_transfers_for_slot d p t = slot_clear (R := StoredTransfer) d p t.
Proof.
  unfold clear_transfers_for_slot, slot_clear. cbn [sr_primary transfer_slot_row]. destruct (slot_entries _ _ _ _) as [|kv l]; [done|].
  rewrite (bind_delete_keys _ (kv :: l)). f_equal. apply list_bind_ext; [|done]. apply clear_transfer_ops_alt.
Qed.
End db_slot_rows.
