(* ===== verification/DbProps.v ===== *)
(** * What db.rs guarantees

    Properties of the readers and writers of Db.v: pagination, index
    consistency, clearing, schema guard. *)

From S2P Require Import Prelude Ids Keys Model Proto Codec CodecLemmas Store Text Db DbUpsert.
From S2P Require Import DbSlotRows.

Section slots.
Context `{Bs58, Base64, HexCrate, ProstStorage, RocksDB}.

(** Every row of [cf_slot] was written by [write_slot]: it decodes, under its
    own key. Massa has 32 threads. *)
Definition slot_family_ok (d : DB) : Prop :=
  forall k v, get_cf d CF_SLOT k = Some v ->
    exists s, decode_slot_state v = Ok s /\ Slot_ok (ss_slot s) /\
      (slot_thread (ss_slot s) <= 31)%Z /\
      k = slot_key (slot_period (ss_slot s)) (slot_thread (ss_slot s)).

Definition slot_newer (s s' : SlotState) : Prop :=
  slot_cmp (slot_period (ss_slot s'), slot_thread (ss_slot s'))
           (slot_period (ss_slot s), slot_thread (ss_slot s)) = Lt.

Definition slot_value (v : bytes) : option SlotState := ok (decode_slot_state v).

Lemma slot_row_ok d k v :
  slot_family_ok d -> get_cf d CF_SLOT k = Some v -> slot_row k v = Ok (slot_value v).
Proof.
  intros Hok Hg. destruct (Hok k v Hg) as (s & Hs & _). unfold slot_row, slot_value. by rewrite Hs.
Qed.

Lemma slot_key_top s :
  Slot_ok s -> (slot_thread s <= 31)%Z ->
  bytes_le (slot_key (slot_period s) (slot_thread s)) (slot_key u64_max 31).
Proof.
  intros [Hp Ht] Hth. unfold bytes_le. rewrite slot_key_cmp by (done || by vm_compute).
  unfold slot_cmp, u64_ok, u64_max in *. simpl.
  destruct (Z.compare_spec (slot_period s) (2 ^ 64 - 1)); [|done|lia].
  destruct (Z.compare_spec (slot_thread s) 31); done || lia.
Qed.

Lemma slot_rows_sorted d (l : list (bytes * bytes)) :
  slot_family_ok d -> (forall k v, (k, v) ∈ l -> get_cf d CF_SLOT k = Some v) ->
  StronglySorted (on_key bytes_gt) l ->
  StronglySorted slot_newer (rows (fun _ v => slot_value v) l).
Proof.
  intros Hok Hin Hs. induction Hs as [|[k v] l Hs IH Hk]; [constructor|].
  assert (get_cf d CF_SLOT k = Some v) as Hg by (apply Hin; left).
  destruct (Hok k v Hg) as (s & Es & [Hp Ht] & _ & ->).
  unfold rows. simpl. unfold slot_value at 1. rewrite Es. simpl.
  constructor; [apply IH; intros; apply Hin; by right|].
  apply Forall_forall. intros s' Hs'. apply list_elem_of_omap in Hs' as ([k' v'] & Hin' & E').
  simpl in E'. rewrite Forall_forall in Hk. specialize (Hk _ Hin').
  destruct (Hok k' v') as (s1 & Es1 & [Hp' Ht'] & _ & ->); [apply Hin; by right|].
  unfold slot_value in E'. rewrite Es1 in E'. simpl in E'. injection E' as <-.
  unfold on_key, bytes_gt, bytes_lt in Hk. cbn [fst] in Hk. by rewrite slot_key_cmp in Hk.
Qed.

(** What a listing of some of the rows decodes to. *)
Lemma slot_rows_members d (l : list (bytes * bytes)) (P : bytes -> Prop) :
  slot_family_ok d -> (forall k v, (k, v) ∈ l <-> get_cf d CF_SLOT k = Some v /\ P k) ->
  forall s, s ∈ rows (fun _ v => slot_value v) l <->
    read_slot d (slot_period (ss_slot s)) (slot_thread (ss_slot s)) = Ok (Some s) /\
    Slot_ok (ss_slot s) /\ (slot_thread (ss_slot s) <= 31)%Z /\
    P (slot_key (slot_period (ss_slot s)) (slot_thread (ss_slot s))).
Proof.
  intros Hok Hl s. unfold rows. rewrite list_elem_of_omap. unfold read_slot, read_row. split.
  - intros ([k v] & [Hin HP]%Hl & Hv). simpl in Hv.
    destruct (Hok k v Hin) as (s' & Es & Hs & Ht & ->).
    unfold slot_value in Hv. rewrite Es in Hv. simpl in Hv. injection Hv as ->.
    rewrite Hin. simpl. by rewrite Es.
  - intros (Hr & Hs & Ht & HP).
    destruct (get_cf d CF_SLOT _) as [v|] eqn:Hg; [|done].
    exists (slot_key (slot_period (ss_slot s)) (slot_thread (ss_slot s)), v).
    split; [by apply Hl|]. simpl. unfold slot_value.
    destruct (decode_slot_state v); simpl in *; [|done]. congruence.
Qed.

(** Following the cursors of [iter_slots_desc] from the first page, with any
    page size, lists every stored slot exactly once, newest first, and the
    chain ends after at most one page per row. *)
Lemma iter_slots_desc_pages d limit :
  slot_family_ok d -> 0 < limit ->
  exists L,
    (forall fuel, length (iterator_cf d CF_SLOT Start) < fuel ->
       follow fuel (fun after => iter_slots_desc d after limit) None = Some (Ok L)) /\
    StronglySorted slot_newer L /\
    (forall s, s ∈ L <->
       read_slot d (slot_period (ss_slot s)) (slot_thread (ss_slot s)) = Ok (Some s) /\
       Slot_ok (ss_slot s) /\ (slot_thread (ss_slot s) <= 31)%Z).
Proof.
  intros Hok Hlim.
  set (top := slot_key u64_max 31).
  set (L0 := reverse (filter (fun kv => bytes_le kv.1 top) (iterator_cf d CF_SLOT Start))).
  assert (forall k v, (k, v) ∈ L0 <-> get_cf d CF_SLOT k = Some v) as HL0.
  { intros k v. unfold L0. rewrite elem_of_reverse, list_elem_of_filter, iterator_get. simpl.
    split; [tauto|]. intros Hg. split; [|done].
    destruct (Hok k v Hg) as (s & _ & Hs & Ht & ->). by apply slot_key_top. }
  exists (rows (fun _ v => slot_value v) L0). split_and!.
  - intros fuel Hf.
    rewrite (follow_ext _ (fun after => page_loop (fun _ => true) (fun _ v => Ok (slot_value v))
      after limit [] None (iterator_cf d CF_SLOT (FromReverse (default top after))))).
    + apply (follow_reverse (fun _ v => slot_value v) d CF_SLOT top); [done|].
      fold L0. unfold L0. rewrite length_reverse.
      eapply Nat.le_lt_trans; [apply length_filter|done].
    + intros after. unfold iter_slots_desc. rewrite bool_decide_eq_false_2 by lia.
      apply page_loop_ext. intros k v Hin. apply (slot_row_ok d k); [done|].
      rewrite iterator_reverse, elem_of_reverse, list_elem_of_filter, iterator_get in Hin.
      apply Hin.
  - apply (slot_rows_sorted d); [done|by intros k v; rewrite HL0|].
    apply (StronglySorted_reverse (on_key bytes_lt)), StronglySorted_filter,
      iterator_entries_sorted.
  - intros s. rewrite (slot_rows_members d L0 (fun _ => True)); [tauto|done|].
    intros k v. rewrite HL0. tauto.
Qed.
End slots.

Section indexes.
Context `{Bs58, Base64, HexCrate, ProstStorage, RocksDB}.

Definition hit_newer (a b : Z * Z * bytes) : Prop :=
  slot_cmp b.1 a.1 = Lt \/ (b.1 = a.1 /\ bytes_lt a.2 b.2).

Lemma starts_with_addr addr k :
  length addr = ADDR_KEY_LEN -> starts_with k addr = true ->
  forall p t id, parse_idx_addr_slot_id k = Some (p, t, id) ->
    k = idx_addr_slot_id addr p t id /\ length id = ID_KEY_LEN /\ u64_ok p /\ u8_ok t.
Proof.
  intros Ha Hs p t id Hp. apply parse_idx_addr_slot_id_inv in Hp as (a & -> & Hl & Hid & ?).
  unfold idx_addr_slot_id in *.
  rewrite starts_with_app_same_length, bool_decide_eq_true in Hs by congruence. by subst.
Qed.

Lemma slot_cmp_eq a b : slot_cmp a b = Eq -> a = b.
Proof.
  unfold slot_cmp. destruct a as [p t], b as [p' t']. cbn [fst snd].
  destruct (Z.compare_spec p p') as [->| |]; [|done..]. by intros ->%Z.compare_eq.
Qed.
Lemma index_hits_sorted addr (l : list (bytes * bytes)) :
  length addr = ADDR_KEY_LEN ->
  Forall (fun kv => starts_with kv.1 addr = true) l ->
  StronglySorted (on_key bytes_lt) l ->
  StronglySorted hit_newer (omap (fun kv => parse_idx_addr_slot_id kv.1) l).
Proof.
  intros Ha Hp Hs. induction Hs as [|[k v] l Hs IH Hk]; [constructor|].
  apply Forall_cons in Hp as [Hpk Hp]. simpl.
  destruct (parse_idx_addr_slot_id k) as [[[p t] id]|] eqn:E; [|by apply IH].
  constructor; [by apply IH|]. apply Forall_forall. intros [[p' t'] id'] Hin.
  apply list_elem_of_omap in Hin as ([k' v'] & Hin & E'). simpl in E'.
  rewrite Forall_forall in Hk, Hp. specialize (Hk _ Hin). specialize (Hp _ Hin).
  destruct (starts_with_addr addr k Ha Hpk p t id E) as (-> & _ & ? & ?).
  destruct (starts_with_addr addr k' Ha Hp p' t' id' E') as (-> & _ & ? & ?).
  unfold on_key, bytes_lt in Hk. cbn [fst] in Hk. rewrite idx_addr_slot_id_cmp in Hk by done.
  unfold hit_newer. cbn [fst snd]. destruct (slot_cmp (p', t') (p, t)) eqn:Ec; [right|by left|done].
  split; [by apply slot_cmp_eq|exact Hk].
Qed.

(** The address-keyed id indexes (blocks, operations and endorsements by
    address): following the cursors of [scan_prefix_forward_ids] yields the id
    of every index row of the address exactly once, newest slot first,
    whatever the page size. *)
Lemma scan_prefix_pages {A} (from_key_bytes : bytes -> option A) d cf addr limit fuel :
  length addr = ADDR_KEY_LEN -> 0 < limit ->
  length (prefix_entries d cf addr) < fuel ->
  exists hits : list (Z * Z * bytes),
    follow fuel (fun after => scan_prefix_forward_ids from_key_bytes d cf addr after limit) None =
      Some (Ok (omap (fun h => from_key_bytes h.2) hits)) /\
    StronglySorted hit_newer hits /\
    (forall p t id, (p, t, id) ∈ hits <->
       u64_ok p /\ u8_ok t /\ length id = ID_KEY_LEN /\
       is_Some (get_cf d cf (idx_addr_slot_id addr p t id))).
Proof.
  intros Ha Hlim Hf.
  exists (omap (fun kv => parse_idx_addr_slot_id kv.1) (prefix_entries d cf addr)). split_and!.
  - rewrite (follow_ext _ (fun after => page_loop (fun k => starts_with k addr)
      (fun k _ => Ok ('(_, _, id_bytes) ← parse_idx_addr_slot_id k; from_key_bytes id_bytes))
      after limit [] None (iterator_cf d cf (FromForward (default addr after))))).
    + rewrite follow_forward by done. do 2 f_equal. unfold rows. clear Hf.
      induction (prefix_entries d cf addr) as [|[k v] l IH]; [done|]. simpl.
      destruct (parse_idx_addr_slot_id k) as [[[p t] id]|]; simpl; [|by apply IH].
      destruct (from_key_bytes id); [f_equal|]; by apply IH.
    + intros after. unfold scan_prefix_forward_ids. by rewrite bool_decide_eq_false_2 by lia.
  - apply (index_hits_sorted addr); [done| |apply prefix_entries_sorted].
    apply Forall_forall. intros [k v] Hin%elem_of_prefix_entries. apply Hin.
  - intros p t id. rewrite list_elem_of_omap. split.
    + intros ([k v] & Hin%elem_of_prefix_entries & E). destruct Hin as [Hs Hg]. simpl in E.
      destruct (starts_with_addr addr k Ha Hs p t id E) as (-> & ? & ? & ?). eauto.
    + intros (? & ? & Hl & [v Hg]). exists (idx_addr_slot_id addr p t id, v). split.
      * apply elem_of_prefix_entries. split; [|done]. apply starts_with_app.
      * simpl. by apply parse_idx_addr_slot_id_build.
Qed.

Lemma op_index_key_prefix t op k :
  Id_wf op ->
  (IDX_TRANSFER_BY_OP, k) ∈ transfer_index_keys t ->
  starts_with k (id_as_bytes op) = true <->
  exists s, tr_operation_id t = Some s /\ OperationId_parse s = Ok op.
Proof.
  intros Hop. rewrite elem_of_transfer_keys, !elem_of_addr_index_key.
  intros [(?&?&?&?&E)|[(?&?&?&?&E)|[(s&o&Hs&Ho&E)|(?&?&?&?&E)]]]; try done.
  apply (f_equal snd) in E. simpl in E. subst k.
  unfold idx_transfer_by_op, idx_id_slot_index.
  pose proof (id_key_length _ _ _ Ho) as Hl.
  destruct (id_parse_wf _ _ _ Ho) as [Hwo _].
  rewrite starts_with_app_same_length by (rewrite Hl; symmetry; apply Hop).
  rewrite bool_decide_eq_true. split.
  - intros E. exists s. split; [done|]. by rewrite <- (Id_wf_inj o op).
  - intros (s' & Hs' & Ho'). congruence.
Qed.

(** Secondary index of transfers by operation: if the stored transfers and
    their index rows agree, following the cursors of [iter_transfers_by_op]
    returns exactly the stored transfers attributed to that operation. *)
Lemma iter_transfers_by_op_complete d op limit fuel :
  slot_rows_ok (R := StoredTransfer) d -> slot_index_exact (R := StoredTransfer) d ->
  Id_wf op -> 0 < limit ->
  length (prefix_entries d IDX_TRANSFER_BY_OP (id_as_bytes op)) < fuel ->
  exists L,
    follow fuel (fun after => iter_transfers_by_op d op after limit) None = Some (Ok L) /\
    forall t, t ∈ L <-> stored d t /\
      exists s, tr_operation_id t = Some s /\ OperationId_parse s = Ok op.
Proof.
  intros Hok Hidx Hop Hlim Hf.
  exists (index_rows (R := StoredTransfer) d IDX_TRANSFER_BY_OP (id_as_bytes op)). split.
  - rewrite (follow_ext _ (fun after => page_loop (fun k => starts_with k (id_as_bytes op))
      (fun k _ => Ok (pk ← ('(p, t, i) ← parse_idx_id_slot_index k; Some (transfer_key p t i));
         raw ← get_cf d CF_TRANSFER pk; ok (decode_transfer raw)))
      after limit [] None
      (iterator_cf d IDX_TRANSFER_BY_OP (FromForward (default (id_as_bytes op) after))))).
    + rewrite follow_forward by done. do 2 f_equal. apply rows_ext. intros k v. simpl.
      by destruct (parse_idx_id_slot_index k) as [[[]]|].
    + intros after. unfold iter_transfers_by_op, iter_transfers_via_idx.
      by rewrite bool_decide_eq_false_2 by lia.
  - intros t. rewrite elem_of_index_rows by (done || set_solver). split.
    + intros (Hst & k & Hk & Hs). split; [done|]. by eapply op_index_key_prefix.
    + intros (Hst & s & Hs & Ho). split; [done|].
      exists (idx_transfer_by_op (id_as_bytes op) (slot_period (tr_slot t))
                (slot_thread (tr_slot t)) (tr_index_in_slot t)).
      assert ((IDX_TRANSFER_BY_OP, idx_transfer_by_op (id_as_bytes op) (slot_period (tr_slot t))
                (slot_thread (tr_slot t)) (tr_index_in_slot t)) ∈ transfer_index_keys t) as Hin.
      { apply elem_of_transfer_keys. right. right. left. eauto. }
      split; [done|]. apply starts_with_app.
Qed.
End indexes.

Section writers.
Context `{Bs58, Base64, HexCrate, ProstStorage, RocksDB}.

Lemma upsert_read {R} `{UpsertRow R} d d' r :
  rows_ok d -> ur_wf r -> upsert d r = Ok d' ->
  forall id, read_row ur_decode d' ur_primary (as_bytes id) =
    if decide (id = ur_id r) then Ok (Some (upsert_value (prev_row d (ur_id r)) r))
    else read_row ur_decode d ur_primary (as_bytes id).
Proof.
  intros Hok Hr E id. destruct (upsert_spec d r Hok Hr) as (d1 & E1 & Hp & _).
  rewrite E in E1. injection E1 as <-. unfold read_row. rewrite Hp. case_decide; [|done].
  by rewrite ur_roundtrip by by apply upsert_value_wf.
Qed.

Lemma upsert_total {R} `{UpsertRow R} d r :
  rows_ok d -> ur_wf r -> index_exact d ->
  exists d', upsert d r = Ok d' /\ rows_ok d' /\ index_exact d' /\
    (forall cf k, cf <> ur_primary -> cf ∉ ur_indexes -> get_cf d' cf k = get_cf d cf k).
Proof.
  intros Hok Hr Hidx. destruct (upsert_spec d r Hok Hr) as (d' & E & _ & Hi).
  exists d'. split_and!; [done|by eapply upsert_rows_ok|by eapply upsert_index_exact|].
  intros cf k Hc Hn. rewrite Hi by done. rewrite decide_False.
  - rewrite decide_False; [done|]. intros Hin. apply stale_in_index in Hin as (p & _ & _ & _ & Hin & _);
      [|done|by apply upsert_value_wf]. by apply ur_keys_in in Hin.
  - intros Hin. by apply ur_keys_in in Hin.
Qed.

(** Upserting an async message keeps its three secondary indexes exact: they
    list, after the write, exactly the sender, destination and last-slot keys
    of the stored messages (stale rows of the old version are gone). The
    message reads back with the first-seen time of the first sighting, other
    messages and families are untouched. *)
Lemma write_async_msg_exact d m :
  rows_ok (R := StoredAsyncMsg) d -> index_exact (R := StoredAsyncMsg) d ->
  StoredAsyncMsg_wf m ->
  exists d', write_async_msg d m = Ok d' /\
    rows_ok (R := StoredAsyncMsg) d' /\ index_exact (R := StoredAsyncMsg) d' /\
    (forall id, read_async_msg d' id =
       if decide (id = am_id m) then
         Ok (Some (match read_async_msg d (am_id m) with
                   | Ok (Some p) =>
                       if Z.eqb (am_first_seen_ts_ms p) 0 then m
                       else m <| am_first_seen_ts_ms := am_first_seen_ts_ms p |>
                   | _ => m
                   end))
       else read_async_msg d id) /\
    (forall cf k, cf ∉ [CF_ASYNC_MSG; IDX_ASYNC_BY_SENDER; IDX_ASYNC_BY_DEST;
                        IDX_ASYNC_BY_LAST_SLOT] -> get_cf d' cf k = get_cf d cf k).
Proof.
  intros Hok Hidx Hm. destruct (upsert_total d m Hok Hm Hidx) as (d' & E & Hok' & Hidx' & Hf).
  exists d'. split_and!; [by rewrite write_async_upsert|done|done| |].
  - intros id. rewrite (upsert_read d d' m Hok Hm E id : read_async_msg d' id = _).
    change (ur_id m) with (am_id m). case_decide; [|done]. do 2 f_equal. unfold upsert_value, prev_row, read_async_msg, read_row.
    simpl. destruct (get_cf d CF_ASYNC_MSG _) as [raw|]; [|done]. simpl.
    by destruct (decode_async_msg raw).
  - intros cf k Hcf. rewrite !not_elem_of_cons in Hcf. apply Hf; simpl; [tauto|].
    rewrite !not_elem_of_cons. tauto.
Qed.

(** The same contract for deferred calls: sender, target and last-slot
    indexes stay exact through an upsert. *)
Lemma write_deferred_call_exact d c :
  rows_ok (R := StoredDeferredCall) d -> index_exact (R := StoredDeferredCall) d ->
  StoredDeferredCall_wf c ->
  exists d', write_deferred_call d c = Ok d' /\
    rows_ok (R := StoredDeferredCall) d' /\ index_exact (R := StoredDeferredCall) d' /\
    (forall id, read_deferred_call d' id =
       if decide (id = dc_id c) then
         Ok (Some (match read_deferred_call d (dc_id c) with
                   | Ok (Some p) =>
                       if Z.eqb (dc_first_seen_ts_ms p) 0 then c
                       else c <| dc_first_seen_ts_ms := dc_first_seen_ts_ms p |>
                   | _ => c
                   end))
       else read_deferred_call d id) /\
    (forall cf k, cf ∉ [CF_DEFERRED_CALL; IDX_DEFERRED_BY_SENDER; IDX_DEFERRED_BY_TARGET;
                        IDX_DEFERRED_BY_LAST_SLOT] -> get_cf d' cf k = get_cf d cf k).
Proof.
  intros Hok Hidx Hm. destruct (upsert_total d c Hok Hm Hidx) as (d' & E & Hok' & Hidx' & Hf).
  exists d'. split_and!; [by rewrite write_deferred_upsert|done|done| |].
  - intros id. rewrite (upsert_read d d' c Hok Hm E id : read_deferred_call d' id = _).
    change (ur_id c) with (dc_id c). case_decide; [|done]. do 2 f_equal. unfold upsert_value, prev_row, read_deferred_call, read_row.
    simpl. destruct (get_cf d CF_DEFERRED_CALL _) as [raw|]; [|done]. simpl.
    by destruct (decode_deferred_call raw).
  - intros cf k Hcf. rewrite !not_elem_of_cons in Hcf. apply Hf; simpl; [tauto|].
    rewrite !not_elem_of_cons. tauto.
Qed.

(** Clearing the SC events of a slot removes that slot's events and exactly
    their emitter, caller and operation index rows: the indexes stay exact,
    events of other slots and every other family are untouched. *)
Lemma clear_sc_events_exact d s :
  slot_rows_ok (R := StoredScEvent) d -> slot_index_exact (R := StoredScEvent) d -> Slot_ok s ->
  let d' := clear_sc_events_for_slot d (slot_period s) (slot_thread s) in
  slot_rows_ok (R := StoredScEvent) d' /\ slot_index_exact (R := StoredScEvent) d' /\
  (forall e, stored d' e <-> stored d e /\ ev_slot e <> s) /\
  (forall cf k, cf ∉ [CF_SC_EVENT; IDX_SC_EVENT_BY_EMITTER; IDX_SC_EVENT_BY_CALLER;
                      IDX_SC_EVENT_BY_OP] -> get_cf d' cf k = get_cf d cf k).
Proof.
  intros Hok Hidx Hs d'. unfold d'. rewrite clear_sc_events_alt.
  destruct (slot_clear_spec (R := StoredScEvent) d s Hok Hidx Hs) as (H1' & H2' & H3' & H4').
  split_and!; [done..|]. intros cf k Hcf. rewrite !not_elem_of_cons in Hcf.
  apply H4'; simpl; [tauto|]. rewrite !not_elem_of_cons. tauto.
Qed.

(** Clearing the transfers of a slot likewise removes that slot's transfers
    with their address, operation and block index rows, nothing else. *)
Lemma clear_transfers_exact d s :
  slot_rows_ok (R := StoredTransfer) d -> slot_index_exact (R := StoredTransfer) d -> Slot_ok s ->
  let d' := clear_transfers_for_slot d (slot_period s) (slot_thread s) in
  slot_rows_ok (R := StoredTransfer) d' /\ slot_index_exact (R := StoredTransfer) d' /\
  (forall t, stored d' t <-> stored d t /\ tr_slot t <> s) /\
  (forall cf k, cf ∉ [CF_TRANSFER; IDX_TRANSFER_BY_ADDR; IDX_TRANSFER_BY_OP;
                      IDX_TRANSFER_BY_BLOCK] -> get_cf d' cf k = get_cf d cf k).
Proof.
  intros Hok Hidx Hs d'. unfold d'. rewrite clear_transfers_alt.
  destruct (slot_clear_spec (R := StoredTransfer) d s Hok Hidx Hs) as (H1' & H2' & H3' & H4').
  split_and!; [done..|]. intros cf k Hcf. rewrite !not_elem_of_cons in Hcf.
  apply H4'; simpl; [tauto|]. rewrite !not_elem_of_cons. tauto.
Qed.

(** One round of [raw_clear] drops the first keys of the family. *)
Lemma clear_round d c n :
  iterator_cf (db_write d (Delete c <$> take n (collect_keys d c))) c Start =
  drop n (iterator_cf d c Start).
Proof.
  set (E := iterator_cf d c Start).
  assert (forall ks cf k cur, batch_lookup (Delete c <$> ks) cf k cur =
    if decide (cf = c /\ k ∈ ks) then None else cur) as HB.
  { induction ks as [|k' ks IH]; intros cf k cur.
    - by rewrite decide_False by (intros [_ Hin]; by apply elem_of_nil in Hin).
    - rewrite fmap_cons, batch_lookup_cons, IH. simpl.
      assert (cf = c /\ k ∈ k' :: ks <-> (cf = c /\ k = k') \/ (cf = c /\ k ∈ ks)) as Hiff.
      { rewrite elem_of_cons. intuition congruence. }
      repeat case_decide; first [done | exfalso; tauto]. }
  apply sorted_entries_unique; [apply iterator_sorted| |].
  - rewrite fmap_drop. unfold E. pose proof (iterator_sorted d c) as Hs. revert Hs.
    generalize (iterator_cf d c Start).*1 as l. clear. intros l Hs.
    revert n. induction Hs as [|k l Hs IH Hk]; intros [|n]; simpl; try constructor; auto.
  - intros [k v]. rewrite iterator_get, get_cf_write, HB. unfold collect_keys. fold E.
    pose proof (iterator_NoDup d c) as Hn. fold E in Hn. rewrite <- (take_drop n E), fmap_app in Hn.
    apply NoDup_app in Hn as (_ & Hdis & _). rewrite <- fmap_take.
    assert ((k, v) ∈ E <-> (k, v) ∈ take n E \/ (k, v) ∈ drop n E) as HE.
    { rewrite <- elem_of_app, take_drop. done. }
    unfold E in HE at 1. rewrite iterator_get in HE.
    case_decide as Hin.
    + split; [done|]. intros Hd. exfalso. destruct Hin as [_ Hin]. apply (Hdis k Hin).
      by apply (list_elem_of_fmap_2 fst) in Hd.
    + rewrite HE. split; [|by right]. intros [Ht|]; [|done]. exfalso. apply Hin. split; [done|].
      by apply (list_elem_of_fmap_2 fst) in Ht.
Qed.

Lemma raw_clear_loop_spec fuel d c total :
  length (collect_keys d c) < fuel ->
  exists d', raw_clear_loop fuel d c total =
      Some (d', total + Z.of_nat (length (collect_keys d c)))%Z /\
    iterator_cf d' c Start = [] /\
    forall cf k, cf <> c -> get_cf d' cf k = get_cf d cf k.
Proof.
  assert (0 < CLEAR_BATCH) as Hb by (apply Nat.ltb_lt; reflexivity).
  revert d total. induction fuel as [|fuel IH]; intros d total Hf; [lia|].
  cbn [raw_clear_loop].
  destruct (take CLEAR_BATCH (collect_keys d c)) as [|k ks] eqn:E.
  - assert (iterator_cf d c Start = []) as Hnil.
    { unfold collect_keys in E. destruct (iterator_cf d c Start); [done|].
      destruct CLEAR_BATCH; [lia|done]. }
    exists d. unfold collect_keys. rewrite Hnil. simpl. by rewrite Z.add_0_r.
  - rewrite <- E. set (d1 := db_write d _).
    assert (collect_keys d1 c = drop CLEAR_BATCH (collect_keys d c)) as Hk.
    { unfold d1, collect_keys at 1. rewrite clear_round. unfold collect_keys. by rewrite fmap_drop. }
    assert (length (take CLEAR_BATCH (collect_keys d c)) +
            length (collect_keys d1 c) = length (collect_keys d c)) as Hlen.
    { rewrite Hk, <- length_app, take_drop. done. }
    assert (0 < length (take CLEAR_BATCH (collect_keys d c))) by (rewrite E; simpl; lia).
    destruct (IH d1 (total + Z.of_nat (length (take CLEAR_BATCH (collect_keys d c))))%Z)
      as (d' & -> & Hnil & Hfr); [lia|].
    exists d'. split_and!; [f_equal; f_equal; lia|done|].
    intros cf k' Hcf. rewrite Hfr by done. apply get_cf_frame.
    rewrite <- list_fmap_compose. intros (x & [= -> _] & _)%list_elem_of_fmap. done.
Qed.

(** [raw_clear] terminates with the column family empty, reports the number
    of rows it held, and touches no other family, however many batches of
    4096 keys it takes. *)
Lemma raw_clear_empties d c :
  exists d', raw_clear d c = (d', Z.of_nat (length (iterator_cf d c Start))) /\
    (forall k, get_cf d' c k = None) /\
    forall cf k, cf <> c -> get_cf d' cf k = get_cf d cf k.
Proof.
  destruct (raw_clear_loop_spec (S (length (collect_keys d c))) d c 0)
    as (d' & E & Hnil & Hfr); [lia|].
  exists d'. split_and!; [|intros k|done].
  - unfold raw_clear. rewrite E. simpl. unfold collect_keys. by rewrite length_fmap.
  - destruct (get_cf d' c k) as [v|] eqn:G; [|done]. apply iterator_get in G.
    rewrite Hnil in G. by apply elem_of_nil in G.
Qed.
End writers.
