(* ===== verification/NodeMsg.v ===== *)
(** * Node messages (src/massa-proto/proto/commons/massa/model/v1, apis/massa/api/v1)

    The messages of the node's gRPC streams that ingest.rs reads, with the
    fields of their .proto files. Wire encoding of the two signed messages kept
    verbatim in the store is the class [NodeEncode]. *)

From S2P Require Import Prelude.

Record NodeSlot := mkNodeSlot { ns_period : Z; ns_thread : Z }.
Record NativeAmount := mkAmount { na_mantissa : Z; na_scale : Z }.

(** ** Blocks and operations *)
Record NodeTransaction := mkNodeTransaction {
  nt_recipient_address : string; nt_amount : option NativeAmount }.
Record BytesMapFieldEntry := mkBytesEntry { bme_key : bytes; bme_value : bytes }.
Record ExecuteSC := mkExecuteSC {
  es_data : bytes; es_max_coins : Z; es_max_gas : Z; es_datastore : list BytesMapFieldEntry }.
Record CallSC := mkCallSC {
  cs_target_address : string; cs_target_function : string; cs_parameter : bytes;
  cs_max_gas : Z; cs_coins : option NativeAmount }.
Inductive OperationTypeKind :=
| OtTransaction (tx : NodeTransaction)
| OtRollBuy (roll_count : Z)
| OtRollSell (roll_count : Z)
| OtExecuteSc (e : ExecuteSC)
| OtCallSc (c : CallSC).
Record OperationType := mkOperationType { ot_type : option OperationTypeKind }.
Record NodeOperation := mkNodeOperation {
  no_fee : option NativeAmount; no_expire_period : Z; no_op : option OperationType }.
Record SignedOperation := mkSignedOperation {
  so_content : option NodeOperation;
  so_signature : string;
  so_content_creator_pub_key : string;
  so_content_creator_address : string;
  so_secure_hash : string;
  so_serialized_size : Z;
}.
Record FilledOperationEntry := mkFilledOp {
  fo_operation_id : string; fo_operation : option SignedOperation }.

Record NodeEndorsement := mkNodeEndorsement {
  ne_slot : option NodeSlot; ne_index : Z; ne_endorsed_block : string }.
Record SignedEndorsement := mkSignedEndorsement {
  se_content : option NodeEndorsement;
  se_signature : string;
  se_content_creator_pub_key : string;
  se_content_creator_address : string;
  se_secure_hash : string;
  se_serialized_size : Z;
}.

Inductive DenunciationKind :=
| NdBlockHeader (public_key : string) (slot : option NodeSlot)
    (hash_1 hash_2 signature_1 signature_2 : string)
| NdEndorsement (public_key : string) (slot : option NodeSlot) (index : Z)
    (hash_1 hash_2 signature_1 signature_2 : string)
| NdAddress (address_denounced : string) (slot : option NodeSlot) (slashed : option NativeAmount).
Record NodeDenunciation := mkNodeDenunciation { nd_entry : option DenunciationKind }.

Record NodeBlockHeader := mkNodeBlockHeader {
  bh_current_version : Z;
  bh_announced_version : option Z;
  bh_slot : option NodeSlot;
  bh_parents : list string;
  bh_operations_hash : string;
  bh_endorsements : list SignedEndorsement;
  bh_denunciations : list NodeDenunciation;
}.
Record SignedBlockHeader := mkSignedBlockHeader {
  sh_content : option NodeBlockHeader;
  sh_signature : string;
  sh_content_creator_pub_key : string;
  sh_content_creator_address : string;
  sh_secure_hash : string;
  sh_serialized_size : Z;
}.
Record FilledBlock := mkFilledBlock {
  fb_header : option SignedBlockHeader; fb_operations : list FilledOperationEntry }.

Class NodeEncode := {
  encode_signed_operation : SignedOperation -> bytes;
  encode_signed_header : SignedBlockHeader -> bytes;
}.

(** ** Execution outputs *)
Record ScEventContext := mkEventContext {
  ec_call_stack : list string; ec_origin_operation_id : option string }.
Record ScExecutionEvent := mkExecEvent { xe_context : option ScEventContext; xe_data : bytes }.

Inductive Change (A : Type) := ChangeSet (a : A) | ChangeKeep.
Arguments ChangeSet {A}. Arguments ChangeKeep {A}.
Record SetOrKeep (A : Type) := mkSetOrKeep { sk_change : option (Change A) }.
Arguments mkSetOrKeep {A}. Arguments sk_change {A}.
(** [c.as_ref().and_then(|c| c.change.as_ref())] matched against [Set(v)]. *)
Definition set_value {A} (o : option (SetOrKeep A)) : option A :=
  c ← o; ch ← sk_change c; match ch with ChangeSet v => Some v | ChangeKeep => None end.

Record AsyncMessageTrigger := mkNodeTrigger {
  mt_address : string; mt_datastore_key : option bytes }.
Record AsyncMessage := mkAsyncMessage {
  ms_emission_slot : option NodeSlot;
  ms_sender : string;
  ms_destination : string;
  ms_handler : string;
  ms_max_gas : Z;
  ms_fee : option NativeAmount;
  ms_coins : option NativeAmount;
  ms_validity_start : option NodeSlot;
  ms_validity_end : option NodeSlot;
  ms_data : bytes;
  ms_trigger : option AsyncMessageTrigger;
  ms_can_be_executed : bool;
}.
Record AsyncMessageUpdate := mkAsyncUpdate {
  mu_emission_slot : option (SetOrKeep NodeSlot);
  mu_sender : option (SetOrKeep string);
  mu_destination : option (SetOrKeep string);
  mu_handler : option (SetOrKeep string);
  mu_max_gas : option (SetOrKeep Z);
  mu_fee : option (SetOrKeep Z);
  mu_coins : option (SetOrKeep Z);
  mu_validity_start : option (SetOrKeep NodeSlot);
  mu_validity_end : option (SetOrKeep NodeSlot);
  mu_data : option (SetOrKeep bytes);
  mu_trigger : option (SetOrKeep AsyncMessageTrigger);
  mu_can_be_executed : option (SetOrKeep bool);
}.
Inductive AsyncPoolMessage := CreatedMessage (m : AsyncMessage) | UpdatedMessage (u : AsyncMessageUpdate).
Record AsyncPoolChangeValue := mkPoolValue { pv_type : Z; pv_message : option AsyncPoolMessage }.
Record AsyncPoolChangeEntry := mkPoolEntry {
  pe_async_message_id : string; pe_value : option AsyncPoolChangeValue }.
Inductive AsyncPoolChangeType := PoolUnspecified | PoolSet | PoolUpdate | PoolDelete.
Definition AsyncPoolChangeType_try_from (i : Z) : option AsyncPoolChangeType :=
  match i with
  | 0 => Some PoolUnspecified | 1 => Some PoolSet | 2 => Some PoolUpdate | 3 => Some PoolDelete
  | _ => None
  end%Z.

(** The status number of an [ExecutedOpsChangeValue], when there is one. *)
Record ExecutedOpsChangeEntry := mkOpsEntry {
  oe_operation_id : string; oe_status : option Z }.

Record StateChanges := mkStateChanges {
  sc_async_pool_changes : list AsyncPoolChangeEntry;
  sc_executed_ops_changes : list ExecutedOpsChangeEntry;
  sc_execution_trail_hash_change : option (SetOrKeep string);
}.
Record ExecutionOutput := mkExecOutput {
  xo_slot : option NodeSlot;
  xo_block_id : option string;
  xo_events : list ScExecutionEvent;
  xo_state_changes : option StateChanges;
}.
Record SlotExecutionOutput := mkSlotExec {
  so_status : Z; so_execution_output : option ExecutionOutput }.

Inductive ExecutionOutputStatus := XsUnspecified | XsCandidate | XsFinal | XsUnknown.
Definition ExecutionOutputStatus_try_from (i : Z) : option ExecutionOutputStatus :=
  match i with
  | 0 => Some XsUnspecified | 1 => Some XsCandidate | 2 => Some XsFinal | 3 => Some XsUnknown
  | _ => None
  end%Z.

(** ** Transfers *)
Inductive NodeTransferValue :=
| NvRolls (n : Z) | NvCoins (a : NativeAmount) | NvDeferredCredits (a : NativeAmount).
Inductive DenunciationIndexEntry :=
| DixBlockHeader (slot : option NodeSlot) | DixEndorsement (slot : option NodeSlot) (index : Z).
Record DenunciationIndex := mkDenunciationIndex { dx_entry : option DenunciationIndexEntry }.
(** [value] is the [TransferValue] message's oneof, both options flattened. *)
Record ExecTransferInfo := mkTransferInfo {
  ti_id : string;
  ti_from_address : option string;
  ti_to_address : option string;
  ti_value : option (option NodeTransferValue);
  ti_origin : Z;
  ti_operation_id : option string;
  ti_async_msg_id : option string;
  ti_deferred_call_id : option string;
  ti_denunciation_index : option DenunciationIndex;
}.
Record TransfersResponse := mkTransfersResponse {
  tr_resp_slot : option NodeSlot;
  tr_resp_timestamp : Z;
  tr_resp_block_id : option string;
  tr_resp_transfers_info : list ExecTransferInfo;
}.
