(* ===== verification/World.v ===== *)
(** * The writer's world

    What the single writer task mutates: the store and the SSE hub. A handler
    is a computation of [ST World]; the hub is the log of the events broadcast
    on it (src/massa-indexer/src/sse.rs serialises them). *)

From S2P Require Import Prelude Model Store.

(** [SlotSseEvent] (ingest.rs). *)
Inductive SlotSseEvent :=
| SlotUpdated (s : SlotState)
| BlockSeen (b : StoredBlock)
| SlotFinalEvent (s : SlotState)
| OpSeen (o : StoredOperation)
| EventSeen (e : StoredScEvent)
| Heartbeat (server_time_ms : Z).

Section world.
Context `{RocksDB}.

Record World := mkWorld { w_db : DB; w_sse : list SlotSseEvent }.

Definition db_read {A} (f : DB -> result Error A) : ST World A := fun w => (f (w_db w), w).
Definition db_do (f : DB -> result Error DB) : ST World unit := fun w =>
  match f (w_db w) with
  | Ok d => (Ok tt, mkWorld d (w_sse w))
  | Err e => (Err e, w)
  end.
(** A write whose error is only logged. *)
Definition db_try (f : DB -> result Error DB) : ST World unit := fun w =>
  match f (w_db w) with
  | Ok d => (Ok tt, mkWorld d (w_sse w))
  | Err _ => (Ok tt, w)
  end.
Definition broadcast (ev : SlotSseEvent) : ST World unit := fun w =>
  (Ok tt, mkWorld (w_db w) (w_sse w ++ [ev])).

(** [if c { m }]. *)
Definition when (c : bool) (m : ST World unit) : ST World unit := if c then m else mret tt.
End world.
