(* ===== verification/Tables.v ===== *)
(** * Tables: primary column families as maps of rows

    A table is a column family whose values are encoded rows stored under a
    key the row determines. [rows_le R d d'] says that going from [d] to [d']
    the table stays consistent, loses no row, and moves every row along [R]:
    the shape of every safety property of the writer. *)

From S2P Require Import Prelude Ids Keys Model Proto Codec CodecLemmas CodecProps Store Db.

Class Table (A : Type) := {
  tb_cf : Cf;
  tb_key : A -> bytes;
  tb_encode : A -> result CodecError bytes;
  tb_decode : bytes -> result CodecError A;
  (** What an encoding of a row decodes to. *)
  tb_norm : A -> A;
  tb_wf : A -> Prop;
  tb_norm_key a : tb_key (tb_norm a) = tb_key a;
  tb_decode_wf v a : tb_decode v = Ok a -> tb_wf a;
  tb_encode_decodes a v : tb_wf a -> tb_encode a = Ok v -> tb_decode v = Ok (tb_norm a);
}.
#[global] Hint Mode Table ! : typeclass_instances.
Arguments tb_cf A {_}.

(** Two stores that agree on a column family. *)
Section same_cf.
Context `{RocksDB}.

Definition same_cf (c : Cf) (d d' : DB) : Prop := forall k, get_cf d' c k = get_cf d c k.
#[export] Instance same_cf_equiv c : Equivalence (same_cf c).
Proof.
  split; [by intros d k | intros d d' E k; by rewrite E |].
  intros d1 d2 d3 E1 E2 k. by rewrite E2, E1.
Qed.

#[export] Instance same_cf_preorder c : PreOrder (same_cf c).
Proof. split; apply _. Qed.

Definition wop_cf (o : WriteOp) : Cf := (wop_key o).1.
Lemma db_write_same_cf c d ops : c ∉ wop_cf <$> ops -> same_cf c d (db_write d ops).
Proof.
  intros Hc k. apply get_cf_frame. intros Hk. apply Hc.
  apply list_elem_of_fmap in Hk as (o & Ho & Hin). apply list_elem_of_fmap.
  exists o. unfold wop_cf. by rewrite <- Ho.
Qed.

(** A writer that only touches the column families [cfs]. *)
Definition writes_in (cfs : list Cf) (f : DB -> result Error DB) : Prop :=
  forall d d', f d = Ok d' -> forall c, c ∉ cfs -> same_cf c d d'.
End same_cf.

Section tables.
Context `{RocksDB} {A : Type} `{!Table A}.
Implicit Types (d : DB) (a b : A).

Definition row_at d (k : bytes) a : Prop :=
  exists v, get_cf d (tb_cf A) k = Some v /\ tb_decode v = Ok a.
Definition table_ok d : Prop := forall k a, row_at d k a -> k = tb_key a.

Definition rows_le (R : A -> A -> Prop) d d' : Prop :=
  table_ok d -> table_ok d' /\
  forall k a, row_at d k a -> exists a', row_at d' k a' /\ R a a'.

Lemma row_at_inj d k a b : row_at d k a -> row_at d k b -> a = b.
Proof. intros (v & Hv & Ha) (w & Hw & Hb). congruence. Qed.
Lemma row_at_wf d k a : row_at d k a -> tb_wf a.
Proof. intros (v & _ & Hv). by eapply tb_decode_wf. Qed.

(** A point read of the table. *)
Definition tb_read d (k : bytes) : result Error (option A) := read_row tb_decode d (tb_cf A) k.
Lemma tb_read_Some d k a : tb_read d k = Ok (Some a) <-> row_at d k a.
Proof.
  unfold tb_read, read_row, row_at. destruct (get_cf d (tb_cf A) k) as [v|].
  - destruct (tb_decode v) as [x|] eqn:E; simpl; split.
    + intros [= <-]. by exists v.
    + intros (w & [= <-] & Hw). congruence.
    + done.
    + intros (w & [= <-] & Hw). congruence.
  - split; [done|]. by intros (? & ? & ?).
Qed.
Lemma tb_read_None d k : tb_read d k = Ok None -> get_cf d (tb_cf A) k = None.
Proof.
  unfold tb_read, read_row. destruct (get_cf d (tb_cf A) k) as [v|]; [|done].
  by destruct (tb_decode v).
Qed.

(** [d'] is [d] with the row [a] put. *)
Definition puts_row a d d' : Prop :=
  exists v, tb_encode a = Ok v /\
    forall k, get_cf d' (tb_cf A) k = if bool_decide (k = tb_key a) then Some v else get_cf d (tb_cf A) k.
Lemma same_cf_row_at d d' k a : same_cf (tb_cf A) d d' -> row_at d' k a <-> row_at d k a.
Proof. intros E. unfold row_at. by rewrite E. Qed.

#[export] Instance rows_le_preorder R : PreOrder R -> PreOrder (rows_le R).
Proof.
  intros HR. split.
  - intros d Hok. split; [done|]. intros k a Ha. exists a. split; [done | reflexivity].
  - intros d1 d2 d3 H12 H23 Hok. destruct (H12 Hok) as [Hok2 L12].
    destruct (H23 Hok2) as [Hok3 L23]. split; [done|]. intros k a Ha.
    destruct (L12 k a Ha) as (b & Hb & Rab). destruct (L23 k b Hb) as (c & Hc & Rbc).
    exists c. split; [done | by etransitivity].
Qed.
Lemma same_cf_le R `{!Reflexive R} d d' : same_cf (tb_cf A) d d' -> rows_le R d d'.
Proof.
  intros E Hok. split.
  - intros k a. rewrite (same_cf_row_at d d') by done. apply Hok.
  - intros k a Ha. exists a. by rewrite (same_cf_row_at d d') by done.
Qed.
Lemma rows_le_mono (R R' : A -> A -> Prop) d d' :
  (forall a b, R a b -> R' a b) -> rows_le R d d' -> rows_le R' d d'.
Proof.
  intros HR L Hok. destruct (L Hok) as [Hok' Hl]. split; [done|].
  intros k a Ha. destruct (Hl k a Ha) as (b & ? & ?). eauto.
Qed.

(** Putting [a]: the row it replaces, if any, must go to [a] along [R]. *)
Lemma puts_row_le R `{!Reflexive R} a d d' :
  tb_wf a -> puts_row a d d' ->
  (table_ok d -> forall b, row_at d (tb_key a) b -> R b (tb_norm a)) -> rows_le R d d'.
Proof.
  intros Hw (v & Ev & Hget) HR Hok. specialize (HR Hok).
  assert (row_at d' (tb_key a) (tb_norm a)) as Hnew.
  { exists v. rewrite Hget, bool_decide_eq_true_2 by done. eauto using tb_encode_decodes. }
  assert (forall k b, k <> tb_key a -> row_at d' k b <-> row_at d k b) as Hold.
  { intros k b Hk. unfold row_at. by rewrite Hget, bool_decide_eq_false_2. }
  split.
  - intros k b Hb. destruct (decide (k = tb_key a)) as [->|Hk].
    + rewrite (row_at_inj _ _ _ _ Hb Hnew). by rewrite tb_norm_key.
    + apply Hok. by apply Hold.
  - intros k b Hb. destruct (decide (k = tb_key a)) as [->|Hk]; [by eauto|].
    exists b. by rewrite Hold.
Qed.
(** The read-modify-write step. *)
Lemma rmw_row_le R `{!Reflexive R} k b a d d' :
  row_at d k b -> tb_key a = tb_key b -> tb_wf a -> puts_row a d d' -> R b (tb_norm a) ->
  rows_le R d d'.
Proof.
  intros Hb Ek Hw Hp HR. eapply puts_row_le; [done..|]. intros Hok c.
  rewrite Ek, <- (Hok k b Hb). intros Hc. by rewrite (row_at_inj _ _ _ _ Hc Hb).
Qed.
(** The insertion of a row at a key where there is none. *)
Lemma fresh_row_le R `{!Reflexive R} a d d' :
  tb_wf a -> puts_row a d d' -> get_cf d (tb_cf A) (tb_key a) = None -> rows_le R d d'.
Proof.
  intros Hw Hp Hn. eapply puts_row_le; [done..|]. intros _ b (v & Hv & _). congruence.
Qed.
End tables.

Arguments table_ok {_} A {_} d.

Section instances.
Context `{Bs58, Base64, HexCrate, ProstStorage}.

#[export] Program Instance slot_table : Table SlotState := {|
  tb_cf := CF_SLOT;
  tb_key s := slot_key (slot_period (ss_slot s)) (slot_thread (ss_slot s));
  tb_encode s := Ok (encode_slot_state s);
  tb_decode := decode_slot_state;
  tb_norm := slot_norm;
  tb_wf := SlotState_enc |}.
Next Obligation. done. Qed.
Next Obligation. intros. by eapply SlotState_wf_enc, slot_state_decode_wf. Qed.
Next Obligation. intros a v Ha [= <-]. by apply slot_state_roundtrip_norm. Qed.

#[export] Program Instance block_table : Table StoredBlock := {|
  tb_cf := CF_BLOCK; tb_key b := id_as_bytes (bl_id b); tb_encode := encode_block;
  tb_decode := decode_block; tb_norm b := b; tb_wf := StoredBlock_enc |}.
Next Obligation. done. Qed.
Next Obligation. apply decode_block_enc. Qed.
Next Obligation. intros a v Ha Hv. by apply encode_block_decodes. Qed.

#[export] Program Instance op_table : Table StoredOperation := {|
  tb_cf := CF_OP; tb_key o := id_as_bytes (op_id o); tb_encode := encode_operation;
  tb_decode := decode_operation; tb_norm o := o; tb_wf := StoredOperation_enc |}.
Next Obligation. done. Qed.
Next Obligation. apply decode_operation_enc. Qed.
Next Obligation. intros a v Ha Hv. by apply encode_operation_decodes. Qed.

#[export] Program Instance async_table : Table StoredAsyncMsg := {|
  tb_cf := CF_ASYNC_MSG; tb_key m := as_bytes (am_id m); tb_encode m := Ok (encode_async_msg m);
  tb_decode := decode_async_msg; tb_norm m := m; tb_wf := StoredAsyncMsg_enc |}.
Next Obligation. done. Qed.
Next Obligation. apply decode_async_msg_enc. Qed.
Next Obligation. intros a v Ha [= <-]. by apply async_msg_roundtrip. Qed.

#[export] Program Instance deferred_table : Table StoredDeferredCall := {|
  tb_cf := CF_DEFERRED_CALL; tb_key c := as_bytes (dc_id c);
  tb_encode c := Ok (encode_deferred_call c); tb_decode := decode_deferred_call;
  tb_norm c := c; tb_wf := StoredDeferredCall_enc |}.
Next Obligation. done. Qed.
Next Obligation. apply decode_deferred_call_enc. Qed.
Next Obligation. intros a v Ha [= <-]. by apply deferred_call_roundtrip. Qed.
End instances.
