(* ===== verification/Reconcile.v ===== *)
(** * Reconciliation primitives and node-message decoding (src/massa-indexer/src/ingest.rs)

    The pure conversions of ingest.rs, and the two passes that derive
    async-pool and deferred-call rows from a slot's transfers (shared with
    peer/patch.rs). *)

From stdpp Require Import pretty.
From S2P Require Import Prelude Ids Keys Model Proto Codec Store Text Db NodeMsg World.

(** SHA-256 over the JSON form of a denunciation (crates sha2, serde_json). *)
Class DenunciationDigest := {
  denunciation_digest : StoredDenunciation -> bytes;
  denunciation_digest_length d : length (denunciation_digest d) = 32;
}.

(** ** Conversions *)
Definition node_slot (s : NodeSlot) : Slot := mkSlot (ns_period s) (as_u8 (ns_thread s)).

Definition hex_digit (n : Z) : byte :=
  byte.of_Z (if (n <? 10)%Z then 48 + n else 87 + n).
Definition hex_encode (b : bytes) : string :=
  of_bytes (b ≫= fun x => [hex_digit (Z.shiftr (byte.unsigned x) 4);
                           hex_digit (Z.land (byte.unsigned x) 0x0f)]).

Definition stringify_bytes (b : bytes) : string :=
  if utf8_valid b then of_bytes b else from_utf8_lossy b.

Definition native_amount_to_nmas (a : NativeAmount) : Z := na_mantissa a.

(** The node numbers its origins as the storage enum does. *)
Definition coin_origin_from_i32 (code : Z) : CoinOrigin :=
  if (0 <=? code)%Z && (code <=? 30)%Z then coin_origin_of_kind code
  else OtherOrigin (as_u32 code).

Definition is_zero_value (v : TransferValue) : bool :=
  match v with
  | TVCoins n | TVDeferredCredits n | TVRolls n => Z.eqb n 0
  | TVUnknown => true
  end.
Definition is_reward_origin (o : CoinOrigin) : bool :=
  match o with
  | BlockReward | EndorsementReward | EndorsedReward | Slash | DeferredCredit => true
  | _ => false
  end.
Definition is_op_child_origin (o : CoinOrigin) : bool :=
  match o with
  | AbiCallCoins | AbiTransferCoins | AbiTransferForCoins | AbiSendMsgCoins | AbiSendMsgFees
  | CreateScStorage | DatastoreStorage | SetBytecodeStorage => true
  | _ => false
  end.

Definition format_node_slot (s : option NodeSlot) : string :=
  match s with
  | Some s => "(" +:+ dec (ns_period s) +:+ "," +:+ dec (ns_thread s) +:+ ")"
  | None => "()"
  end.
Definition format_denunciation_index (idx : DenunciationIndex) : string :=
  match dx_entry idx with
  | Some (DixBlockHeader slot) => "block_header@" +:+ format_node_slot slot
  | Some (DixEndorsement slot index) =>
      "endorsement@" +:+ format_node_slot slot +:+ "#" +:+ dec index
  | None => "unknown"
  end.

Section decode.
Context `{Bs58, DenunciationDigest}.

Definition parse_addr (s : string) : option Address := ok (Address_parse s).
Definition parse_addr_opt (s : option string) : option Address := s ← s; parse_addr s.

(** ** Denunciations *)
Definition denunciation_hash (d : StoredDenunciation) : string :=
  hex_encode (denunciation_digest d).
Definition denunciation_slot (d : StoredDenunciation) : Slot :=
  match d with
  | DenBlockHeader _ slot _ _ _ _ | DenEndorsement _ slot _ _ _ _ _ | DenAddress _ slot _ => slot
  | DenUnknown => mkSlot 0 0
  end.
Definition denunciation_kind_label (d : StoredDenunciation) : string :=
  match d with
  | DenBlockHeader _ _ _ _ _ _ => "block_header"
  | DenEndorsement _ _ _ _ _ _ _ => "endorsement"
  | DenAddress _ _ _ => "address"
  | DenUnknown => "unknown"
  end.
Definition denunciation_target_address (d : StoredDenunciation) : option Address :=
  match d with DenAddress a _ _ => parse_addr a | _ => None end.
Definition decode_denunciation (d : NodeDenunciation) : StoredDenunciation :=
  let slot_or_zero s := default (mkSlot 0 0) (node_slot <$> s) in
  match nd_entry d with
  | Some (NdBlockHeader pk s h1 h2 s1 s2) => DenBlockHeader pk (slot_or_zero s) h1 h2 s1 s2
  | Some (NdEndorsement pk s i h1 h2 s1 s2) => DenEndorsement pk (slot_or_zero s) i h1 h2 s1 s2
  | Some (NdAddress a s slashed) =>
      DenAddress a (slot_or_zero s) (default 0%Z (na_mantissa <$> slashed))
  | None => DenUnknown
  end.

(** ** Endorsements *)
Definition node_decode_endorsement (se : SignedEndorsement) (including_block : BlockId)
    (including_slot : Slot) (now_ms : Z) : option StoredEndorsement :=
  content ← se_content se;
  slot_pb ← ne_slot content;
  creator ← parse_addr (se_content_creator_address se);
  Some {|
    en_id := se_secure_hash se; en_slot := node_slot slot_pb; en_index := ne_index content;
    en_endorsed_block_id := ne_endorsed_block content;
    en_content_creator_pub_key := se_content_creator_pub_key se;
    en_content_creator_address := creator;
    en_signature := se_signature se; en_serialized_size := se_serialized_size se;
    en_included_block_id := id_to_string including_block; en_included_slot := including_slot;
    en_first_seen_ts_ms := now_ms |}.

(** ** Operations *)
Definition classify_op (op_type : option OperationType)
  : OperationKind * option Address * OperationDetails :=
  match t ← op_type; ot_type t with
  | None => (OpUnknown, None, OperationDetails_default)
  | Some (OtTransaction tx) =>
      (OpTransaction, parse_addr (nt_recipient_address tx),
       OperationDetails_default
         <| od_amount_nmas := na_mantissa <$> nt_amount tx |>
         <| od_recipient_address := Some (nt_recipient_address tx) |>)
  | Some (OtRollBuy n) =>
      (OpRollBuyKind, None, OperationDetails_default <| od_roll_count := Some n |>)
  | Some (OtRollSell n) =>
      (OpRollSellKind, None, OperationDetails_default <| od_roll_count := Some n |>)
  | Some (OtExecuteSc e) =>
      (OpExecuteSc, None,
       OperationDetails_default
         <| od_bytecode_hex := Some (hex_encode (es_data e)) |>
         <| od_bytecode_size := Some (Z.of_nat (length (es_data e))) |>
         <| od_max_coins_nmas := Some (es_max_coins e) |>
         <| od_max_gas := Some (es_max_gas e) |>
         <| od_datastore_keys := Some (as_u32 (Z.of_nat (length (es_datastore e)))) |>
         <| od_datastore :=
              (fun x => mkDatastoreEntry (hex_encode (bme_key x)) (hex_encode (bme_value x)))
                <$> es_datastore e |>)
  | Some (OtCallSc c) =>
      (OpCallSc, parse_addr (cs_target_address c),
       OperationDetails_default
         <| od_target_address := Some (cs_target_address c) |>
         <| od_target_function := Some (cs_target_function c) |>
         <| od_parameter_hex := Some (hex_encode (cs_parameter c)) |>
         <| od_parameter_len := Some (Z.of_nat (length (cs_parameter c))) |>
         <| od_max_gas := Some (cs_max_gas c) |>
         <| od_coins_nmas := na_mantissa <$> cs_coins c |>)
  end.

(** ** Events *)
Definition extract_event_context (ev : ScExecutionEvent)
  : list Address * list Address * option OperationId :=
  match xe_context ev with
  | None => ([], [], None)
  | Some ctx =>
      let call_stack := omap parse_addr (ec_call_stack ctx) in
      (option_list (last call_stack), option_list (head call_stack),
       x ← ec_origin_operation_id ctx; ok (OperationId_parse x))
  end.

(** ** Async messages *)
Definition non_empty_hex (b : bytes) : option string :=
  if bool_decide (b = []) then None else Some (hex_encode b).
Definition non_empty (s : string) : option string := if str_is_empty s then None else Some s.
Definition node_trigger (t : AsyncMessageTrigger) : AsyncTrigger :=
  mkTrigger (mt_address t) (hex_encode <$> mt_datastore_key t).
Definition async_msg_from_proto (id : string) (msg : AsyncMessage) (slot : Slot) (now_ms : Z)
  : StoredAsyncMsg := {|
  am_id := id;
  am_sender := parse_addr (ms_sender msg);
  am_destination := parse_addr (ms_destination msg);
  am_handler := non_empty (ms_handler msg);
  am_coins_nmas := default 0%Z (na_mantissa <$> ms_coins msg);
  am_max_gas := ms_max_gas msg;
  am_fee_nmas := default 0%Z (na_mantissa <$> ms_fee msg);
  am_emission_slot := node_slot <$> ms_emission_slot msg;
  am_validity_start := node_slot <$> ms_validity_start msg;
  am_validity_end := node_slot <$> ms_validity_end msg;
  am_state := AmPending;
  am_last_slot := Some slot;
  am_data_hex := non_empty_hex (ms_data msg);
  am_trigger := node_trigger <$> ms_trigger msg;
  am_can_be_executed := ms_can_be_executed msg;
  am_first_seen_ts_ms := now_ms;
  am_last_updated_ts_ms := now_ms;
|}.
Definition apply_async_update (m : StoredAsyncMsg) (u : AsyncMessageUpdate) : StoredAsyncMsg := {|
  am_id := am_id m;
  am_sender := match set_value (mu_sender u) with Some v => parse_addr v | None => am_sender m end;
  am_destination :=
    match set_value (mu_destination u) with Some v => parse_addr v | None => am_destination m end;
  am_handler :=
    match set_value (mu_handler u) with Some v => non_empty v | None => am_handler m end;
  am_coins_nmas := default (am_coins_nmas m) (set_value (mu_coins u));
  am_max_gas := default (am_max_gas m) (set_value (mu_max_gas u));
  am_fee_nmas := default (am_fee_nmas m) (set_value (mu_fee u));
  am_emission_slot :=
    match set_value (mu_emission_slot u) with
    | Some v => Some (node_slot v) | None => am_emission_slot m end;
  am_validity_start :=
    match set_value (mu_validity_start u) with
    | Some v => Some (node_slot v) | None => am_validity_start m end;
  am_validity_end :=
    match set_value (mu_validity_end u) with
    | Some v => Some (node_slot v) | None => am_validity_end m end;
  am_state := am_state m;
  am_last_slot := am_last_slot m;
  am_data_hex :=
    match set_value (mu_data u) with Some v => non_empty_hex v | None => am_data_hex m end;
  am_trigger :=
    match set_value (mu_trigger u) with
    | Some t => Some (node_trigger t) | None => am_trigger m end;
  am_can_be_executed := default (am_can_be_executed m) (set_value (mu_can_be_executed u));
  am_first_seen_ts_ms := am_first_seen_ts_ms m;
  am_last_updated_ts_ms := am_last_updated_ts_ms m;
|}.
(** The row minted for an id first met outside a SET. *)
Definition async_stub (id : string) (state : AsyncMsgState) (slot : Slot) (now_ms : Z)
  : StoredAsyncMsg :=
  mkAsyncMsg id None None None 0 0 0 None None None state (Some slot) None None false
    now_ms now_ms.
Definition deferred_stub (id : string) (slot : Slot) (now_ms : Z) : StoredDeferredCall :=
  mkDeferredCall id None None None None 0 0 None None DcRegistered (Some slot) now_ms now_ms.

(** ** One transfer against its async message *)
Definition async_terminal_of (o : CoinOrigin) : option AsyncMsgState :=
  match o with
  | AsyncMsgCoins => Some AmExecuted
  | AsyncMsgCancel => Some AmCancelled
  | _ => None
  end.
Definition fill_none {A} (o new : option A) : option A :=
  match o with None => new | Some _ => o end.
Definition reconcile_async_row (existing : StoredAsyncMsg) (new_state : AsyncMsgState)
    (r : StoredTransfer) (slot : Slot) (now_ms : Z) : StoredAsyncMsg :=
  existing
    <| am_state := match am_state existing with
                   | AmPending | AmConsumed => new_state
                   | s => s
                   end |>
    <| am_sender := fill_none (am_sender existing) (parse_addr_opt (tr_from r)) |>
    <| am_destination := fill_none (am_destination existing) (parse_addr_opt (tr_to r)) |>
    <| am_coins_nmas :=
         match tr_value r with
         | TVCoins nmas => if Z.eqb (am_coins_nmas existing) 0 then nmas else am_coins_nmas existing
         | _ => am_coins_nmas existing
         end |>
    <| am_last_slot := Some slot |>
    <| am_last_updated_ts_ms := now_ms |>.

(** ** One transfer against its deferred call; [None]: unrelated origin *)
Definition deferred_is_terminal (s : DeferredCallState) : bool :=
  match s with DcExecuted | DcFailed | DcCancelled => true | DcRegistered => false end.
Definition deferred_transition (e : StoredDeferredCall) (r : StoredTransfer) (slot : Slot)
  : option (StoredDeferredCall * DeferredCallState) :=
  match tr_origin r with
  | DeferredCallRegister =>
      Some (e <| dc_registered_slot := fill_none (dc_registered_slot e) (Some slot) |>
              <| dc_sender := fill_none (dc_sender e) (parse_addr_opt (tr_from r)) |>,
            DcRegistered)
  | DeferredCallCoins =>
      Some (e <| dc_target_slot := fill_none (dc_target_slot e) (Some slot) |>
              <| dc_target_address := fill_none (dc_target_address e) (parse_addr_opt (tr_to r)) |>,
            DcExecuted)
  | DeferredCallFail => Some (e, DcFailed)
  | DeferredCallCancel => Some (e, DcCancelled)
  | DeferredCallStorageRefund => Some (e, dc_state e)
  | _ => None
  end.
Definition reconcile_deferred_row (e : StoredDeferredCall) (r : StoredTransfer) (slot : Slot)
    (now_ms : Z) : option StoredDeferredCall :=
  '(e, new_state) ← deferred_transition e r slot;
  let e := match tr_value r with
           | TVCoins nmas =>
               if (dc_coins_nmas e <? nmas)%Z then e <| dc_coins_nmas := nmas |> else e
           | _ => e
           end in
  let e := if deferred_is_terminal (dc_state e) then e else e <| dc_state := new_state |> in
  Some (e <| dc_last_slot := Some slot |> <| dc_last_updated_ts_ms := now_ms |>).
End decode.

(** ** The two passes *)
Section passes.
Context `{Bs58, Base64, HexCrate, ProstStorage, RocksDB}.

Definition reconcile_async_one (slot : Slot) (now_ms : Z) (r : StoredTransfer) : ST World unit :=
  match tr_async_msg_id r, async_terminal_of (tr_origin r) with
  | Some id, Some new_state =>
      existing ← db_read (fun d => read_async_msg d id);
      let existing := default (async_stub id new_state slot now_ms) existing in
      db_do (fun d => write_async_msg d (reconcile_async_row existing new_state r slot now_ms))
  | _, _ => mret tt
  end.
Definition reconcile_async_from_transfers (slot : Slot) (rows : list StoredTransfer) (now_ms : Z)
  : ST World unit := st_iter (reconcile_async_one slot now_ms) rows.

Definition reconcile_deferred_one (slot : Slot) (now_ms : Z) (r : StoredTransfer) : ST World unit :=
  match tr_deferred_call_id r with
  | None => mret tt
  | Some id =>
      existing ← db_read (fun d => read_deferred_call d id);
      match reconcile_deferred_row (default (deferred_stub id slot now_ms) existing) r slot now_ms with
      | Some row => db_do (fun d => write_deferred_call d row)
      | None => mret tt
      end
  end.
Definition reconcile_deferred_from_transfers (slot : Slot) (rows : list StoredTransfer)
    (now_ms : Z) : ST World unit := st_iter (reconcile_deferred_one slot now_ms) rows.
End passes.
