(* ===== verification/Sse.v ===== *)
(** * The SSE hub and its streams (src/massa-indexer/src/sse.rs, rest.rs)

    The hub numbers the frames it broadcasts and keeps the latest ones for clients
    that reconnect; a stream replays what its client missed, then subscribes and
    follows the live channel, while the hub goes on broadcasting. JSON (crate
    serde_json) is the class [SerdeJson], the receiving end of tokio's broadcast
    channel the class [BroadcastChannel]; the channel itself is the log of the
    frames sent on it. *)

From S2P Require Import Prelude Text Ids Keys Model Proto Codec Store Db.
From S2P Require Import NodeMsg World Reconcile.

Class SerdeJson := {
  Value : Type;
  event_to_string : SlotSseEvent -> option string;
  value_from_str : string -> option Value;
  value_get : Value -> string -> option Value;
  value_as_str : Value -> option string;
  value_to_string : Value -> string;
}.

Record SseFrame := mkFrame { sf_id : Z; sf_data : string }.
#[export] Instance SseFrame_eq_dec : EqDecision SseFrame.
Proof. solve_decision. Defined.
Record SseHub := mkHub {
  hub_next_id : Z;
  hub_ring : list SseFrame;
  hub_ring_capacity : nat;
  hub_sent : list SseFrame;
}.
Definition SseHub_new (capacity : nat) : SseHub := mkHub 1 [] capacity [].

(** [broadcast::channel::<SseFrame>(2048)]. *)
Definition CHANNEL_CAPACITY : nat := 2048.
(** A receiver is its position in the log of the frames sent; it starts at the end
    of the log. The documented behaviour of its [recv]: nothing while no frame is
    left; the frame at its position while the channel still holds it (the latest
    [CHANNEL_CAPACITY] at least); otherwise, the receiver lags, an error with the
    number of frames skipped, and it goes on from a later frame. *)
Class BroadcastChannel := {
  rx_recv : list SseFrame -> nat -> option (result Z SseFrame * nat);
  rx_pending sent n : length sent <= n -> rx_recv sent n = None;
  rx_held sent n f : sent !! n = Some f -> length sent <= n + CHANNEL_CAPACITY ->
    rx_recv sent n = Some (Ok f, S n);
  rx_next sent n : n < length sent ->
    (exists f, sent !! n = Some f /\ rx_recv sent n = Some (Ok f, S n)) \/
    (exists m, n < m <= length sent /\ rx_recv sent n = Some (Err (Z.of_nat (m - n)), m));
}.

Section hub.
Context `{SerdeJson, BroadcastChannel}.

Definition push_ring (capacity : nat) (frame : SseFrame) (ring : list SseFrame) : list SseFrame :=
  (if bool_decide (length ring = capacity) then tail ring else ring) ++ [frame].
Definition hub_broadcast (ev : SlotSseEvent) (h : SseHub) : SseHub :=
  match event_to_string ev with
  | None => h
  | Some data =>
      let frame := mkFrame (hub_next_id h) data in
      mkHub (wrapping_add_u64 (hub_next_id h) 1)
        (push_ring (hub_ring_capacity h) frame (hub_ring h)) (hub_ring_capacity h)
        (hub_sent h ++ [frame])
  end.
Definition replay_since (since : Z) (h : SseHub) : list SseFrame :=
  filter (fun f => (since < sf_id f)%Z) (hub_ring h).

(** ** One stream *)
Definition keep_frame (keep : Value -> bool) (f : SseFrame) : bool :=
  default true (keep <$> value_from_str (sf_data f)).
Definition newline : string := of_bytes [Byte.x0a].
Definition frame_chunk (f : SseFrame) : string :=
  "id: " +:+ dec (sf_id f) +:+ newline +:+ "data: " +:+ sf_data f +:+ newline +:+ newline.
Definition comment_chunk (text : string) : string := ": " +:+ text +:+ newline +:+ newline.
(** What a stream sends: a frame, or a comment. *)
Inductive SseChunk := FrameChunk (f : SseFrame) | Comment (text : string).
Definition render_chunk (c : SseChunk) : string :=
  match c with FrameChunk f => frame_chunk f | Comment text => comment_chunk text end.
Definition kept_chunk (keep : Value -> bool) (f : SseFrame) : list SseChunk :=
  if keep_frame keep f then [FrameChunk f] else [].

(** What happens around a stream's loop: the hub broadcasts an event, the loop
    polls its receiver, the heartbeat timer ticks, or the hub is gone (the loop
    leaves once it has read what was sent). *)
Inductive LiveStep := Broadcasts (ev : SlotSseEvent) | PollLive | HeartbeatTick | SourceClosed.
Record LiveStream := mkLive { lv_hub : SseHub; lv_rx : nat; lv_open : bool }.
Definition live_step (keep : Value -> bool) (step : LiveStep) (s : LiveStream)
  : list SseChunk * LiveStream :=
  let '(mkLive h n open) := s in
  match step with
  | Broadcasts ev => ([], mkLive (hub_broadcast ev h) n open)
  | PollLive =>
      if open then
        match rx_recv (hub_sent h) n with
        | Some (Ok f, n') => (kept_chunk keep f, mkLive h n' open)
        | Some (Err _, n') => ([Comment "lagged"], mkLive h n' open)
        | None => ([], s)
        end
      else ([], s)
  | HeartbeatTick => (if open then [Comment "hb"] else [], s)
  | SourceClosed => ([], mkLive h n (open && (n <? length (hub_sent h))))
  end.
Fixpoint live_chunks (keep : Value -> bool) (steps : list LiveStep) (s : LiveStream)
  : list SseChunk * LiveStream :=
  match steps with
  | [] => ([], s)
  | step :: steps' =>
      let '(out, s1) := live_step keep step s in
      let '(outs, s2) := live_chunks keep steps' s1 in (out ++ outs, s2)
  end.
(** [s.sse.subscribe()]. *)
Definition subscribe (h : SseHub) : LiveStream := mkLive h (length (hub_sent h)) true.

(** The [Last-Event-ID] header, when it is a number. *)
Definition last_event_id (header : option string) : option Z := v ← header; parse_u64 v.
Definition replay_chunks (header : option string) (keep : Value -> bool) (h : SseHub) : list SseChunk :=
  let replay := match last_event_id header with Some since => replay_since since h | None => [] end in
  replay ≫= kept_chunk keep.
(** One request: the hub when the replay is read, the hub when the receiver is
    opened (other tasks may broadcast in between), and what happens from then on.
    The body's chunks, and the stream and hub afterwards. *)
Definition sse_response (header : option string) (keep : Value -> bool) (at_replay at_subscribe : SseHub)
    (steps : list LiveStep) : list string * LiveStream :=
  let replay := replay_chunks header keep at_replay in
  let '(live, s) := live_chunks keep steps (subscribe at_subscribe) in
  (render_chunk <$> (replay ++ live), s).

(** ** The streams' filters *)
Definition frame_type (v : Value) : option string := t ← value_get v "type"; value_as_str t.
Definition type_among (names : list string) (v : Value) : bool :=
  match frame_type v with Some t => bool_decide (t ∈ names) | None => false end.
Definition stream_slots_keep : Value -> bool := type_among ["slot_updated"; "slot_final"; "heartbeat"].
Definition stream_blocks_keep : Value -> bool := type_among ["block_seen"; "heartbeat"].
Definition stream_final_keep : Value -> bool := type_among ["slot_final"; "heartbeat"].
Definition stream_operations_keep : Value -> bool := type_among ["op_seen"; "heartbeat"].
Definition str_contains (s p : string) : bool :=
  existsb (fun n => starts_with (drop n (as_bytes s)) (as_bytes p)) (seq 0 (S (String.length s))).
Definition stream_addr_keep (addr : string) (v : Value) : bool :=
  type_among ["heartbeat"] v || str_contains (value_to_string v) addr.
Definition mentions (wanted : option string) (v : Value) : bool :=
  match wanted with Some w => str_contains (value_to_string v) w | None => true end.
Definition stream_events_keep (emitter caller op_id : option string) (v : Value) : bool :=
  type_among ["heartbeat"] v ||
  (type_among ["event_seen"] v && mentions emitter v && mentions caller v && mentions op_id v).
End hub.
