(* ===== verification/Arbiter.v ===== *)
(** * The chain-linkage arbiter (src/massa-indexer/src/peer/patch.rs)

    Two FINAL verdicts for one slot are settled from the parent links of the
    neighbouring FINAL blocks. Every function here only reads the store. *)

From S2P Require Import Prelude Ids Keys Model Proto Codec Store Db.

Inductive Verdict := VMiss | VBlock (b : BlockId).
#[export] Instance Verdict_eq_dec : EqDecision Verdict.
Proof. solve_decision. Defined.

Definition Verdict_of_local (s : SlotState) : option Verdict :=
  if ss_is_miss s then Some VMiss else VBlock <$> ss_final_block_id s.
Definition Verdict_of_peer (resp : FinalSlotResponse) (final_block_id : option BlockId)
  : option Verdict :=
  if fr_is_miss resp then Some VMiss else VBlock <$> final_block_id.

Inductive Arbitration := AdoptPeer | KeepLocal | Inconclusive.
#[export] Instance Arbitration_eq_dec : EqDecision Arbitration.
Proof. solve_decision. Defined.

Definition LINKAGE_LOOKAROUND : Z := 512.
Definition PARENT_WALK : nat := 64.

(** [(period + 1)..=(period + LINKAGE_LOOKAROUND)] in release arithmetic, and
    [(lo..period).rev()]. *)
Definition range_inclusive (lo hi : Z) : list Z := seqZ lo (hi - lo + 1).
Definition periods_after (p : Z) : list Z :=
  range_inclusive (wrapping_add_u64 p 1) (wrapping_add_u64 p LINKAGE_LOOKAROUND).
Definition periods_before (p : Z) : list Z :=
  let lo := saturating_sub p LINKAGE_LOOKAROUND in reverse (seqZ lo (p - lo)).

Section arbiter.
Context `{Bs58, Base64, HexCrate, ProstStorage, RocksDB}.

(** The id of the FINAL block our rows name at a slot:
    [status == Final && !is_miss] and a block id. *)
Definition final_block_of (s : SlotState) : option BlockId :=
  if bool_decide (ss_status s <> SlotFinal) || ss_is_miss s then None else ss_final_block_id s.
Definition parent_in (thread : Z) (b : StoredBlock) : option BlockId :=
  bl_parents b !! Z.to_nat thread.

Fixpoint next_parent_loop (d : DB) (thread : Z) (ps : list Z) : result Error (option BlockId) :=
  match ps with
  | [] => Ok None
  | p :: ps' =>
      row ← read_slot d p thread;
      match s ← row; final_block_of s with
      | None => next_parent_loop d thread ps'
      | Some bid =>
          body ← read_block d bid;
          match body with
          | None => next_parent_loop d thread ps'
          | Some block => Ok (parent_in thread block)
          end
      end
  end.
Definition next_parent_link (d : DB) (slot : Slot) : result Error (option BlockId) :=
  next_parent_loop d (slot_thread slot) (periods_after (slot_period slot)).

Fixpoint prev_final_loop (d : DB) (thread : Z) (ps : list Z) : result Error (option BlockId) :=
  match ps with
  | [] => Ok None
  | p :: ps' =>
      row ← read_slot d p thread;
      match s ← row; final_block_of s with
      | None => prev_final_loop d thread ps'
      | Some bid => Ok (Some bid)
      end
  end.
Definition prev_final_block (d : DB) (slot : Slot) : result Error (option BlockId) :=
  prev_final_loop d (slot_thread slot) (periods_before (slot_period slot)).

Fixpoint dead_fork_loop (d : DB) (thread : Z) (prev : option BlockId) (ps : list Z)
  : result Error (option BlockId) :=
  match ps with
  | [] => Ok None
  | p :: ps' =>
      row ← read_slot d p thread;
      match s ← row; final_block_of s with
      | None => dead_fork_loop d thread prev ps'
      | Some bid =>
          body ← read_block d bid;
          match block ← body; parent_in thread block with
          | Some par =>
              if bool_decide (Some par <> prev) then Ok (Some par)
              else dead_fork_loop d thread (Some bid) ps'
          | None => dead_fork_loop d thread (Some bid) ps'
          end
      end
  end.
Definition dead_fork_anchor (d : DB) (slot : Slot) (local : Verdict)
  : result Error (option BlockId) :=
  prev ← match local with
         | VBlock b => Ok (Some b)
         | VMiss => prev_final_block d slot
         end;
  dead_fork_loop d (slot_thread slot) prev (periods_after (slot_period slot)).

Fixpoint reachable_loop (n : nat) (d : DB) (cur target : BlockId) (thread : Z)
  : result Error bool :=
  match n with
  | O => Ok false
  | S n' =>
      if bool_decide (cur = target) then Ok true
      else
        body ← read_block d cur;
        match block ← body; parent_in thread block with
        | None => Ok false
        | Some par => reachable_loop n' d par target thread
        end
  end.
Definition reachable_via_parents (d : DB) (anchor target : BlockId) (thread : Z)
  : result Error bool := reachable_loop PARENT_WALK d anchor target thread.

(** [parent]'s body is held and its slot is FINAL with another verdict. *)
Definition parent_is_dead (d : DB) (parent : BlockId) : result Error bool :=
  body ← read_block d parent;
  match body with
  | None => Ok false
  | Some pb =>
      row ← read_slot d (slot_period (bl_slot pb)) (slot_thread (bl_slot pb));
      match row with
      | None => Ok false
      | Some row =>
          Ok (bool_decide (ss_status row = SlotFinal) &&
              (ss_is_miss row || bool_decide (ss_final_block_id row <> Some parent)))
      end
  end.
Fixpoint any_parent_dead (d : DB) (parents : list BlockId) : result Error bool :=
  match parents with
  | [] => Ok false
  | p :: ps =>
      dead ← parent_is_dead d p;
      if dead : bool then Ok true else any_parent_dead d ps
  end.
Definition block_has_dead_parent (d : DB) (block : StoredBlock) : result Error bool :=
  any_parent_dead d (bl_parents block).

Definition arbitrate_in_dead_fork (d : DB) (slot : Slot) (local peer : Verdict)
    (anchor : BlockId) : result Error Arbitration :=
  match local, peer with
  | VBlock _, VMiss => Ok AdoptPeer
  | _, VBlock y =>
      if bool_decide (y = anchor) then Ok AdoptPeer
      else
        r ← reachable_via_parents d anchor y (slot_thread slot);
        Ok (if r : bool then AdoptPeer else Inconclusive)
  | VMiss, VMiss => Ok KeepLocal
  end.

(** Layer 1: what the immediate next block's parent link says. *)
Definition immediate_verdict (d : DB) (slot : Slot) (local peer : Verdict)
    (next_parent : BlockId) : result Error (option Arbitration) :=
  match local, peer with
  | VBlock x, VBlock y =>
      Ok (if bool_decide (next_parent = y) then Some AdoptPeer
          else if bool_decide (next_parent = x) then Some KeepLocal else None)
  | VMiss, VBlock y => Ok (if bool_decide (next_parent = y) then Some AdoptPeer else None)
  | VBlock x, VMiss =>
      if bool_decide (next_parent = x) then Ok (Some KeepLocal)
      else
        prev ← prev_final_block d slot;
        Ok (if bool_decide (prev = Some next_parent) then Some AdoptPeer else None)
  | VMiss, VMiss => Ok (Some KeepLocal)
  end.

(** Layer 0, the peer's side: it shipped the block it names, built on a dead
    parent. *)
Definition peer_block_dead (d : DB) (peer : Verdict) (peer_block : option StoredBlock)
  : result Error bool :=
  match peer, peer_block with
  | VBlock y, Some pb =>
      if bool_decide (bl_id pb = y) then block_has_dead_parent d pb else Ok false
  | _, _ => Ok false
  end.
Definition local_block_dead (d : DB) (local : Verdict) : result Error bool :=
  match local with
  | VMiss => Ok false
  | VBlock x =>
      body ← read_block d x;
      match body with Some lb => block_has_dead_parent d lb | None => Ok false end
  end.

Definition dead_fork_or (d : DB) (slot : Slot) (local peer : Verdict) (otherwise : Arbitration)
  : result Error Arbitration :=
  anchor ← dead_fork_anchor d slot local;
  match anchor with
  | Some anchor => arbitrate_in_dead_fork d slot local peer anchor
  | None => Ok otherwise
  end.

Definition arbitrate_verdicts (d : DB) (slot : Slot) (local peer : Verdict)
    (peer_block : option StoredBlock) : result Error Arbitration :=
  if bool_decide (local = peer) then Ok KeepLocal
  else
    peer_dead ← peer_block_dead d peer peer_block;
    if peer_dead : bool then Ok KeepLocal
    else
      local_dead ← local_block_dead d local;
      if local_dead : bool then Ok AdoptPeer
      else
        link ← next_parent_link d slot;
        match link with
        | None => Ok Inconclusive
        | Some next_parent =>
            immediate ← immediate_verdict d slot local peer next_parent;
            match immediate with
            | Some KeepLocal => dead_fork_or d slot local peer KeepLocal
            | Some a => Ok a
            | None => dead_fork_or d slot local peer Inconclusive
            end
        end.
End arbiter.
