(* ===== verification/Task.v ===== *)
(** * Background tasks that feed the writer (src/massa-indexer/src/legacy/oneshot.rs, repair.rs)

    The descending windows of slots the tasks sweep (peer/backfill.rs,
    legacy/oneshot.rs and repair.rs walk a window newest period first, threads
    ascending), and what the importer and the repair tasks share: they read the
    store, which the writer changes meanwhile, watch the writer's channel, send
    patches and keep a checkpoint. The store and the channel at the n-th look are
    arguments. *)

From S2P Require Import Prelude Ids Keys Model Proto Codec Store Db Arbiter.

Definition slots_desc (lo hi threads : Z) : list (Z * Z) :=
  p ← reverse (range_inclusive lo hi); (fun t => (p, t)) <$> seqZ 0 threads.

Lemma slots_desc_app lo mid hi threads :
  (lo <= mid <= hi + 1)%Z ->
  slots_desc lo hi threads = slots_desc mid hi threads ++ slots_desc lo (mid - 1) threads.
Proof.
  intros Hm. unfold slots_desc, range_inclusive.
  replace (hi - lo + 1)%Z with ((mid - 1 - lo + 1) + (hi - mid + 1))%Z by lia.
  rewrite seqZ_app, reverse_app, bind_app by lia.
  by replace (lo + (mid - 1 - lo + 1))%Z with mid by lia.
Qed.
Lemma slots_desc_nil lo hi threads : (hi < lo)%Z -> slots_desc lo hi threads = [].
Proof.
  intros Hl. unfold slots_desc, range_inclusive.
  by rewrite (seqZ_nil lo (hi - lo + 1)) by lia.
Qed.
Lemma elem_of_slots_desc lo hi threads p t :
  (p, t) ∈ slots_desc lo hi threads <-> (lo <= p <= hi)%Z /\ (0 <= t < threads)%Z.
Proof.
  unfold slots_desc, range_inclusive. rewrite list_elem_of_bind. split.
  - intros (p' & Hin & Hp). rewrite elem_of_reverse in Hp.
    apply list_elem_of_fmap in Hin as (t' & [= -> ->] & Ht).
    apply elem_of_seqZ in Hp, Ht. lia.
  - intros [Hp Ht]. exists p. split; [|apply elem_of_reverse, elem_of_seqZ; lia].
    apply list_elem_of_fmap. exists t. split; [done|]. apply elem_of_seqZ. lia.
Qed.
Lemma slots_desc_nodup lo hi threads : NoDup (slots_desc lo hi threads).
Proof.
  unfold slots_desc. assert (NoDup (reverse (range_inclusive lo hi))) as Hn
    by (rewrite reverse_Permutation; apply NoDup_seqZ).
  induction Hn as [|p l Hp Hn IH]; [apply NoDup_nil_2|]. rewrite bind_cons.
  apply NoDup_app; split_and!; [apply NoDup_fmap_2; [by intros ?? [= ->]|apply NoDup_seqZ]| |done].
  intros k Hk1 Hk2. apply list_elem_of_fmap in Hk1 as (t & -> & _).
  apply list_elem_of_bind in Hk2 as (p' & Hk & Hp'). apply list_elem_of_fmap in Hk as (t' & [= -> ->] & _).
  done.
Qed.

(** A task with its own resource [C]: how often it looked outside, the patches it
    sent (each an [Event::LegacyPatch]) and the checkpoints it wrote, in order. *)
Record Task (C : Type) := mkTask {
  tk_own : C;
  tk_tick : nat;
  tk_sent : list FinalSlotResponse;
  tk_checkpoints : list (string * string);
}.
Arguments mkTask {C}. Arguments tk_own {C}. Arguments tk_tick {C}.
Arguments tk_sent {C}. Arguments tk_checkpoints {C}.

Section task.
Context `{Bs58, Base64, HexCrate, ProstStorage, RocksDB} {C : Type}.
Context (store : nat -> DB) (closed : nat -> bool).

Definition look {A} (f : nat -> A) : ST (Task C) A := fun s =>
  (Ok (f (tk_tick s)), s <| tk_tick := S (tk_tick s) |>).
Definition look_db {A} (f : DB -> A) : ST (Task C) A := look (fun n => f (store n)).
Definition channel_closed : ST (Task C) bool := look closed.
Definition push_patch (resp : FinalSlotResponse) : ST (Task C) unit := fun s =>
  (Ok tt, s <| tk_sent := tk_sent s ++ [resp] |>).
(** [tx.send(Event::LegacyPatch(resp)).await.is_ok()]. *)
Definition send_patch (resp : FinalSlotResponse) : ST (Task C) bool :=
  gone ← look closed;
  if gone : bool then mret false else (push_patch resp;; mret true).
Definition put_checkpoint (key value : string) : ST (Task C) unit := fun s =>
  (Ok tt, s <| tk_checkpoints := tk_checkpoints s ++ [(key, value)] |>).
(** A call on the task's own resource; its failure is a value. *)
Definition on_own {E A} (m : C -> result E A * C) : ST (Task C) (result E A) := fun s =>
  let '(r, c) := m (tk_own s) in (Ok r, s <| tk_own := c |>).
End task.
