(* ===== verification/Patch.v ===== *)
(** * Patches from peers and from the legacy source (src/massa-indexer/src/peer/patch.rs)

    The handlers are computations of [ST World]: every store write is one
    batch, and an error leaves the writes made before it in place. *)

From S2P Require Import Prelude Ids Keys Model Proto Codec Store Db NodeMsg World Reconcile.
From S2P Require Import Arbiter.

Record PatchOutcome := mkOutcome {
  po_became_final : bool;
  po_block_applied : bool;
  po_exec_applied : bool;
  po_transfers_applied : bool;
  po_trail_mismatch : bool;
  po_empty : bool;
  po_divergence_repaired : bool;
  po_divergence_kept_local : bool;
}.
#[export] Instance PatchOutcome_eq_dec : EqDecision PatchOutcome.
Proof. solve_decision. Defined.
Definition PatchOutcome_default : PatchOutcome :=
  mkOutcome false false false false false false false false.

(** ** Pure steps on the slot row *)
Definition push_candidate (bid : BlockId) (s : SlotState) : SlotState :=
  if bool_decide (bid ∈ ss_candidate_block_ids s) then s
  else s <| ss_candidate_block_ids := ss_candidate_block_ids s ++ [bid] |>.
Definition set_completeness (f : SlotCompleteness -> SlotCompleteness) (s : SlotState)
  : SlotState := s <| ss_completeness := f (ss_completeness s) |>.
Definition non_empty_string (s : string) : option string :=
  if str_is_empty s then None else Some s.
Definition slot_lt (a b : Slot) : bool :=
  (slot_period a <? slot_period b)%Z ||
  (Z.eqb (slot_period a) (slot_period b) && (slot_thread a <? slot_thread b)%Z).

Section patch.
Context `{Bs58, Base64, HexCrate, ProstStorage, RocksDB, DenunciationDigest}.

(** [if final_block_id.is_empty() { None } else { BlockId::parse(..).ok() }]. *)
Definition response_block_id (resp : FinalSlotResponse) : option BlockId :=
  if str_is_empty (fr_final_block_id resp) then None
  else ok (BlockId_parse (fr_final_block_id resp)).
Definition response_op_ids (resp : FinalSlotResponse) : list OperationId :=
  omap (fun s => ok (OperationId_parse s)) (fr_executed_op_ids resp).

(** The FINAL verdict of [resp] written into a row that is not FINAL yet. *)
Definition promote_final (resp : FinalSlotResponse) (trail : option string)
    (final_block_id : option BlockId) (s : SlotState) : SlotState :=
  let s := s <| ss_status := SlotFinal |> <| ss_is_miss := fr_is_miss resp |> in
  let s := match trail with Some t => s <| ss_execution_trail_hash := Some t |> | None => s end in
  if fr_is_miss resp then s
  else
    match final_block_id with
    | Some bid => push_candidate bid (s <| ss_final_block_id := Some bid |>)
    | None => s
    end.

Definition read_slot_or_fresh (slot : Slot) (now_ms : Z) : ST World SlotState :=
  row ← db_read (fun d => read_slot d (slot_period slot) (slot_thread slot));
  mret (default (SlotState_fresh slot now_ms) row).
Definition put_slot (s : SlotState) : ST World unit := db_do (fun d => Ok (write_slot d s)).

Definition bump_last_final_slot (slot : Slot) : ST World unit :=
  prev ← db_read read_last_final_slot;
  match prev with
  | Some prev => when (slot_lt prev slot) (db_do (fun d => Ok (update_last_final_slot d slot)))
  | None => db_do (fun d => Ok (update_last_final_slot d slot))
  end.

(** ** Block statuses *)
Definition set_block_status (bid : BlockId) (new_status : BlockStatus) : ST World unit :=
  body ← db_read (fun d => read_block d bid);
  match body with
  | None => mret tt
  | Some b =>
      if bool_decide (bl_status b = new_status) then mret tt
      else db_do (fun d => write_block d (b <| bl_status := new_status |>))
  end.
Definition apply_finality_to_blocks (final_block_id : option BlockId) (candidates : list BlockId)
  : ST World unit :=
  st_iter (fun bid =>
    set_block_status bid (if bool_decide (Some bid = final_block_id) then BlockFinal else Discarded))
    candidates ;;
  match final_block_id with
  | Some bid => if bool_decide (bid ∈ candidates) then mret tt else set_block_status bid BlockFinal
  | None => mret tt
  end.

(** ** Parent-gap discovery *)
Definition ensure_parent_stub (slot : Slot) (now_ms : Z) : ST World unit :=
  if Z.eqb (slot_period slot) 0 then mret tt
  else
    let prev_period := (slot_period slot - 1)%Z in
    row ← db_read (fun d => read_slot d prev_period (slot_thread slot));
    match row with
    | Some _ => mret tt
    | None => put_slot (SlotState_fresh (mkSlot prev_period (slot_thread slot)) now_ms)
    end.

(** ** Parts *)
(** [for pb in list { let Some(x) = decode_or_warn(..) else { continue }; .. }]. *)
Definition each_decoded {P A} (decode : P -> result CodecError A) (f : A -> ST World unit)
  : list P -> ST World unit :=
  st_iter (fun p => match decode p with Ok a => f a | Err _ => mret tt end).

(** What a peer's operation row adds to the local one. *)
Definition merge_op (local op : StoredOperation) : StoredOperation :=
  let fill := negb (is_some (op_final_exec_status local)) && is_some (op_final_exec_status op) in
  let local :=
    if fill then
      local <| op_final_exec_status := op_final_exec_status op |>
            <| op_candidate_exec_status := op_final_exec_status op |>
    else local in
  if bool_decide (op_inclusions local = []) && negb (bool_decide (op_inclusions op = [])) then
    local <| op_inclusions := op_inclusions op |>
  else local.
Definition merge_op_changes (local op : StoredOperation) : bool :=
  (negb (is_some (op_final_exec_status local)) && is_some (op_final_exec_status op)) ||
  (bool_decide (op_inclusions local = []) && negb (bool_decide (op_inclusions op = []))).
Definition apply_peer_op (op : StoredOperation) : ST World unit :=
  local ← db_read (fun d => read_op d (op_id op));
  match local with
  | None => db_do (fun d => write_op d op)
  | Some local =>
      when (merge_op_changes local op) (db_do (fun d => write_op d (merge_op local op)))
  end.

Definition peer_denunciation_entry (block : StoredBlock) (now_ms : Z) (x : StoredDenunciation)
  : StoredDenunciationEntry := {|
  de_hash := denunciation_hash x;
  de_slot := denunciation_slot x;
  de_kind := denunciation_kind_label x;
  de_denounced_addr := denunciation_target_address x;
  de_denunciation := x;
  de_included_block_id := Some (bl_id block);
  de_included_slot := Some (denunciation_slot x);
  de_first_seen_ts_ms := now_ms |}.

Definition apply_block_part (resp : FinalSlotResponse) (now_ms : Z)
  : ST World (option StoredBlock) :=
  match pb ← fr_block resp; ok (block_from_peer_pb pb) with
  | None => mret None
  | Some block =>
      held ← db_read (fun d => read_block d (bl_id block));
      when (negb (is_some held)) (db_do (fun d => write_block d block)) ;;
      each_decoded operation_from_peer_pb apply_peer_op (fr_operations resp) ;;
      each_decoded endorsement_from_peer_pb
        (fun e => db_do (fun d => write_endorsement d e)) (fr_endorsements resp) ;;
      st_iter (fun x => db_try (fun d =>
        write_denunciation d (peer_denunciation_entry block now_ms x))) (bl_denunciations block) ;;
      mret (Some block)
  end.

Definition apply_exec_part (resp : FinalSlotResponse) : ST World unit :=
  db_do (fun d => Ok (clear_sc_events_for_slot d (fr_period resp) (as_u8 (fr_thread resp)))) ;;
  each_decoded sc_event_from_peer_pb
    (fun e => db_do (fun d => write_sc_event d e)) (fr_sc_events resp) ;;
  each_decoded async_msg_from_peer_pb
    (fun m => db_do (fun d => write_async_msg d m)) (fr_async_msgs resp).

Definition put_transfer (t : StoredTransfer) : ST World unit :=
  db_do (fun d => Ok (write_transfer d t)).
Definition decoded_transfers (resp : FinalSlotResponse) : list StoredTransfer :=
  omap (fun p => ok (transfer_from_peer_pb p)) (fr_transfers resp).
Definition apply_transfers_part (resp : FinalSlotResponse) (now_ms : Z) : ST World unit :=
  let slot := mkSlot (fr_period resp) (as_u8 (fr_thread resp)) in
  db_do (fun d => Ok (clear_transfers_for_slot d (slot_period slot) (slot_thread slot))) ;;
  each_decoded transfer_from_peer_pb put_transfer (fr_transfers resp) ;;
  each_decoded deferred_call_from_peer_pb
    (fun c => db_do (fun d => write_deferred_call d c)) (fr_deferred_calls resp) ;;
  reconcile_async_from_transfers slot (decoded_transfers resp) now_ms ;;
  reconcile_deferred_from_transfers slot (decoded_transfers resp) now_ms.

(** ** Replacing a FINAL verdict *)
Definition adopted_state (resp : FinalSlotResponse) (peer_block : option BlockId)
    (peer_trail : option string) (s : SlotState) : SlotState :=
  let final_block_id := if fr_is_miss resp then None else peer_block in
  let s := s <| ss_is_miss := fr_is_miss resp |> <| ss_final_block_id := final_block_id |> in
  let s := match final_block_id with Some bid => push_candidate bid s | None => s end in
  s <| ss_execution_trail_hash := peer_trail |>
    <| ss_executed_op_ids := [] |>
    <| ss_sc_event_count := 0%Z |>
    <| ss_completeness := mkCompleteness (fr_is_miss resp) false false false |>.
Definition adopt_peer_verdict (s : SlotState) (resp : FinalSlotResponse)
    (peer_block : option BlockId) (peer_trail : option string) : ST World SlotState :=
  match ss_final_block_id s with
  | Some old => set_block_status old Discarded
  | None => mret tt
  end ;;
  db_do (fun d => Ok (clear_sc_events_for_slot d (slot_period (ss_slot s))
                        (slot_thread (ss_slot s)))) ;;
  db_do (fun d => Ok (clear_transfers_for_slot d (slot_period (ss_slot s))
                        (slot_thread (ss_slot s)))) ;;
  mret (adopted_state resp peer_block peer_trail s).

Definition touch (now_ms : Z) (s : SlotState) : SlotState :=
  s <| ss_last_updated_ts_ms := now_ms |>.

(** ** Phases: each takes and returns the slot row and the outcome *)
Definition Phase : Type := SlotState * PatchOutcome.
Definition mark_body : SlotState -> SlotState :=
  set_completeness (fun c => c <| block_body_stored := true |>).

Definition legacy_verdict (resp : FinalSlotResponse) (s : SlotState) : Phase :=
  if bool_decide (ss_status s <> SlotFinal) then
    (promote_final resp None (response_block_id resp) s,
     PatchOutcome_default <| po_became_final := true |>)
  else (s, PatchOutcome_default).
Definition legacy_block_phase (resp : FinalSlotResponse) (now_ms : Z) (ph : Phase)
  : ST World Phase :=
  let '(s, out) := ph in
  '(s, out) ←
    (if is_some (fr_block resp) && negb (block_body_stored (ss_completeness s)) &&
        negb (fr_is_miss resp) then
       block ← apply_block_part resp now_ms;
       match block with
       | Some b => mret (mark_body (push_candidate (bl_id b) s), out <| po_block_applied := true |>)
       | None => mret (s, out)
       end
     else mret (s, out));
  mret (if fr_is_miss resp && ss_is_miss s then mark_body s else s, out).
Definition legacy_ops_phase (resp : FinalSlotResponse) (ph : Phase) : Phase :=
  let '(s, out) := ph in
  if bool_decide (ss_executed_op_ids s = []) && negb (bool_decide (fr_executed_op_ids resp = []))
  then (s <| ss_executed_op_ids := response_op_ids resp |>, out <| po_exec_applied := true |>)
  else (s, out).
Definition legacy_transfers_phase (resp : FinalSlotResponse) (ph : Phase) : ST World Phase :=
  let '(s, out) := ph in
  each_decoded transfer_from_peer_pb put_transfer (fr_transfers resp) ;;
  mret (s, if bool_decide (decoded_transfers resp = []) then out
           else out <| po_transfers_applied := true |>).

Definition apply_legacy_patch (resp : FinalSlotResponse) (now_ms : Z) : ST World PatchOutcome :=
  match u8_try_from (fr_thread resp) with
  | None => mret PatchOutcome_default
  | Some thread =>
      let slot := mkSlot (fr_period resp) thread in
      if negb (fr_final_known resp) then mret (PatchOutcome_default <| po_empty := true |>)
      else
        s ← read_slot_or_fresh slot now_ms;
        let '(s, out) := legacy_verdict resp s in
        when (po_became_final out) (bump_last_final_slot slot) ;;
        ph ← legacy_block_phase resp now_ms (s, out);
        '(s, out) ← legacy_transfers_phase resp (legacy_ops_phase resp ph);
        when (exec_output_final (ss_completeness s) && block_body_stored (ss_completeness s))
          (apply_finality_to_blocks (ss_final_block_id s) (ss_candidate_block_ids s)) ;;
        let s := touch now_ms s in
        put_slot s ;;
        ensure_parent_stub slot now_ms ;;
        broadcast (SlotUpdated s) ;;
        mret out
  end.

(** ** Peer patches *)
(** [(existing, incoming)] both present and different. *)
Definition trails_differ (existing incoming : option string) : bool :=
  match existing, incoming with
  | Some e, Some i => bool_decide (e <> i)
  | _, _ => false
  end.
(** The same verdict on both sides: [true] when the trail hashes disagree. *)
Definition same_verdict_trail (trail : option string) (s : SlotState) : SlotState * bool :=
  match ss_execution_trail_hash s, trail with
  | Some e, Some i => (s, bool_decide (e <> i))
  | None, _ => (s <| ss_execution_trail_hash := trail |>, false)
  | Some _, None => (s, false)
  end.

(** What the reconciliation of the verdict decides: go on with the parts, or
    stop after writing the row. *)
Inductive VerdictStep := Proceed (ph : Phase) | Stop (ph : Phase).

Definition settle_same (trail : option string) (s : SlotState) : VerdictStep :=
  let '(s, mismatch) := same_verdict_trail trail s in
  if mismatch : bool then Stop (s, PatchOutcome_default <| po_trail_mismatch := true |>)
  else Proceed (s, PatchOutcome_default).
Definition peer_verdict (resp : FinalSlotResponse) (slot : Slot) (s : SlotState)
  : ST World VerdictStep :=
  let trail := non_empty_string (fr_execution_trail_hash resp) in
  let bid := response_block_id resp in
  if bool_decide (ss_status s <> SlotFinal) then
    mret (Proceed (promote_final resp trail bid s,
                   PatchOutcome_default <| po_became_final := true |>))
  else
    match Verdict_of_local s, Verdict_of_peer resp bid with
    | Some lv, Some pv =>
        if bool_decide (lv = pv) then mret (settle_same trail s)
        else
          let peer_block := pb ← fr_block resp; ok (block_from_peer_pb pb) in
          a ← db_read (fun d => arbitrate_verdicts d slot lv pv peer_block);
          match a with
          | AdoptPeer =>
              s ← adopt_peer_verdict s resp bid trail;
              mret (Proceed (s, PatchOutcome_default <| po_divergence_repaired := true |>))
          | _ =>
              mret (Stop (s, PatchOutcome_default
                <| po_divergence_kept_local := true |>
                <| po_trail_mismatch := trails_differ (ss_execution_trail_hash s) trail |>))
          end
    | _, _ => mret (settle_same trail s)
    end.

Definition peer_block_phase (resp : FinalSlotResponse) (now_ms : Z) (ph : Phase)
  : ST World Phase :=
  let '(s, out) := ph in
  '(s, out) ←
    (if is_some (fr_block resp) && negb (fr_is_miss resp) then
       block ← apply_block_part resp now_ms;
       match block with
       | Some b =>
           let s := push_candidate (bl_id b) s in
           mret (if block_body_stored (ss_completeness s) then (s, out)
                 else (mark_body s, out <| po_block_applied := true |>))
       | None => mret (s, out)
       end
     else mret (s, out));
  mret (if fr_is_miss resp then mark_body s else s, out).

Definition honoured (resp : FinalSlotResponse) : FinalSlotParts :=
  default FinalSlotParts_default (fr_parts resp).
Definition exec_part_due (resp : FinalSlotResponse) : bool :=
  (negb (bool_decide (fr_executed_op_ids resp = [])) || (0 <? fr_sc_event_count resp)%Z
   || negb (bool_decide (fr_sc_events resp = [])) || negb (bool_decide (fr_async_msgs resp = [])))
  || (fr_completeness_known resp && fp_exec_output (honoured resp) && fr_has_exec_output resp).
Definition transfers_part_due (resp : FinalSlotResponse) : bool :=
  (negb (bool_decide (fr_transfers resp = [])) || negb (bool_decide (fr_deferred_calls resp = [])))
  || (fr_completeness_known resp && fp_transfers (honoured resp) && fr_has_transfers resp).

Definition peer_exec_row (resp : FinalSlotResponse) (s : SlotState) : SlotState :=
  let s := if bool_decide (ss_executed_op_ids s = [])
           then s <| ss_executed_op_ids := response_op_ids resp |> else s in
  set_completeness (fun c => c <| exec_output_final := true |>)
    (s <| ss_sc_event_count := fr_sc_event_count resp |>).
Definition peer_exec_phase (resp : FinalSlotResponse) (ph : Phase) : ST World Phase :=
  let '(s, out) := ph in
  if exec_part_due resp && negb (exec_output_final (ss_completeness s)) then
    apply_exec_part resp ;;
    mret (peer_exec_row resp s, out <| po_exec_applied := true |>)
  else mret (s, out).
Definition peer_transfers_phase (resp : FinalSlotResponse) (now_ms : Z) (ph : Phase)
  : ST World Phase :=
  let '(s, out) := ph in
  if transfers_part_due resp && negb (transfers_stored (ss_completeness s)) then
    apply_transfers_part resp now_ms ;;
    mret (set_completeness (fun c => c <| transfers_stored := true |>) s,
          out <| po_transfers_applied := true |>)
  else mret (s, out).

(** The parts, the block statuses, the row and the parent stub. *)
Definition peer_parts (resp : FinalSlotResponse) (slot : Slot) (now_ms : Z) (ph : Phase)
  : ST World PatchOutcome :=
  let became_final := po_became_final ph.2 in
  when became_final (bump_last_final_slot slot) ;;
  ph ← peer_block_phase resp now_ms ph;
  ph ← peer_exec_phase resp ph;
  '(s, out) ← peer_transfers_phase resp now_ms ph;
  apply_finality_to_blocks (ss_final_block_id s) (ss_candidate_block_ids s) ;;
  let s := touch now_ms s in
  put_slot s ;;
  ensure_parent_stub slot now_ms ;;
  when (became_final || po_divergence_repaired out) (broadcast (SlotFinalEvent s)) ;;
  broadcast (SlotUpdated s) ;;
  mret out.

Definition apply_peer_patch (resp : FinalSlotResponse) (now_ms : Z) : ST World PatchOutcome :=
  match u8_try_from (fr_thread resp) with
  | None => mret PatchOutcome_default
  | Some thread =>
      let slot := mkSlot (fr_period resp) thread in
      if negb (fr_final_known resp) then mret (PatchOutcome_default <| po_empty := true |>)
      else
        s ← read_slot_or_fresh slot now_ms;
        step ← peer_verdict resp slot s;
        match step with
        | Stop (s, out) => put_slot (touch now_ms s) ;; mret out
        | Proceed ph => peer_parts resp slot now_ms ph
        end
  end.

(** ** Operator-forced verdicts *)
Definition apply_forced_verdict (resp : FinalSlotResponse) (now_ms : Z) : ST World bool :=
  match u8_try_from (fr_thread resp) with
  | None => mret false
  | Some thread =>
      let slot := mkSlot (fr_period resp) thread in
      s ← read_slot_or_fresh slot now_ms;
      let peer_block := response_block_id resp in
      target ← st_lift (ok_or (ErrOther "forced verdict without block id")
                          (Verdict_of_peer resp peer_block));
      if bool_decide (ss_status s = SlotFinal /\ Verdict_of_local s = Some target) then mret false
      else
        s ← adopt_peer_verdict s resp peer_block (non_empty_string (fr_execution_trail_hash resp));
        let s := s <| ss_status := SlotFinal |> in
        apply_finality_to_blocks (ss_final_block_id s) (ss_candidate_block_ids s) ;;
        let s := touch now_ms s in
        put_slot s ;;
        broadcast (SlotFinalEvent s) ;;
        broadcast (SlotUpdated s) ;;
        mret true
  end.
End patch.
