(* ===== verification/Ingest.v ===== *)
(** * The ingestion state machine (src/massa-indexer/src/ingest.rs)

    The single writer: one handler per event kind, [handle], and the two-lane
    scheduler [step]. Handlers are computations of [ST World]; the clock
    reading of a handler is its [now_ms] argument; an error is logged by
    [handle], and the writes made before it stay. *)

From S2P Require Import Prelude Ids Keys Model Proto Codec Store Text Db NodeMsg World Reconcile.
From S2P Require Import Arbiter Patch.

Inductive Event :=
| EvBlock (fb : FilledBlock)
| EvExec (out : SlotExecutionOutput)
| EvTransfers (resp : TransfersResponse)
| EvPeerPatch (resp : FinalSlotResponse)
| EvLegacyPatch (resp : FinalSlotResponse)
| EvForcedVerdict (resp : FinalSlotResponse)
| EvTick.

(** [OperationExecutionStatus::try_from]: Success and Failed; anything else is
    skipped. *)
Definition exec_status_of (status : option Z) : option ExecStatus :=
  match default 0%Z status with
  | 1%Z => Some ExecOk
  | 2%Z => Some ExecFailed
  | _ => None
  end.

Section ingest.
Context `{Bs58, Base64, HexCrate, ProstStorage, RocksDB, DenunciationDigest, NodeEncode}.

(** ** E_BLOCK *)
Definition denunciation_entry (block_id : BlockId) (now_ms : Z) (x : StoredDenunciation)
  : StoredDenunciationEntry := {|
  de_hash := denunciation_hash x;
  de_slot := denunciation_slot x;
  de_kind := denunciation_kind_label x;
  de_denounced_addr := denunciation_target_address x;
  de_denunciation := x;
  de_included_block_id := Some block_id;
  de_included_slot := Some (denunciation_slot x);
  de_first_seen_ts_ms := now_ms |}.

(** The row minted for an operation first met in a block. *)
Definition new_operation (op_id : OperationId) (signed : SignedOperation) (slot : Slot)
    (now_ms : Z) : result Error StoredOperation :=
  content ← ok_or (ErrOther "op missing content") (so_content signed);
  let '(kind, target, details) := classify_op (no_op content) in
  creator ← map_err ErrOther (Address_parse (so_content_creator_address signed));
  Ok {| op_id := op_id; op_creator := creator; op_target := target; op_kind := kind;
        op_expire_period := no_expire_period content;
        op_fee_nmas := default 0%Z (na_mantissa <$> no_fee content);
        op_thread := slot_thread slot; op_inclusions := [];
        op_candidate_exec_status := None; op_final_exec_status := None;
        op_details := details; op_signature := so_signature signed;
        op_content_creator_pub_key := so_content_creator_pub_key signed;
        op_serialized_size := so_serialized_size signed;
        op_raw_signed_op_b64 := b64_encode (encode_signed_operation signed);
        op_first_seen_ts_ms := now_ms |}.
Definition record_inclusion (inc : OperationInclusion) (o : StoredOperation) : StoredOperation :=
  if bool_decide (inc ∈ op_inclusions o) then o
  else o <| op_inclusions := op_inclusions o ++ [inc] |>.

Definition filled_op_id (fo : FilledOperationEntry) : option (SignedOperation * OperationId) :=
  signed ← fo_operation fo;
  let s := if str_is_empty (fo_operation_id fo) then so_secure_hash signed
           else fo_operation_id fo in
  if str_is_empty s then None
  else op_id ← ok (OperationId_parse s); Some (signed, op_id).
Definition block_op (block_id : BlockId) (slot : Slot) (now_ms : Z)
    (fo : FilledOperationEntry) : ST World unit :=
  match filled_op_id fo with
  | None => mret tt
  | Some (signed, op_id) =>
      prior ← db_read (fun d => read_op d op_id);
      stored ← match prior with
               | Some s => mret s
               | None => st_lift (new_operation op_id signed slot now_ms)
               end;
      let stored := record_inclusion (mkInclusion slot block_id)
                      (stored <| op_thread := slot_thread slot |>) in
      db_do (fun d => write_op d stored) ;;
      broadcast (OpSeen stored)
  end.
Definition block_operation_ids (fb : FilledBlock) : list OperationId :=
  omap (fun fo => snd <$> filled_op_id fo) (fb_operations fb).

(** A block that arrives after its slot settled takes the settled status. *)
Definition initial_block_status (s : SlotState) (block_id : BlockId) : BlockStatus :=
  if bool_decide (ss_status s = SlotFinal) then
    if bool_decide (ss_final_block_id s = Some block_id) then BlockFinal else Discarded
  else SeenCandidate.
Definition merge_block (b : StoredBlock) (operation_ids : list OperationId)
    (endorsements : list StoredEndorsement) (denunciations : list StoredDenunciation)
    (initial : BlockStatus) : StoredBlock :=
  b <| bl_operation_ids := if bool_decide (bl_operation_ids b = []) then operation_ids
                           else bl_operation_ids b |>
    <| bl_endorsements := endorsements |>
    <| bl_endorsement_ids := en_id <$> endorsements |>
    <| bl_denunciations := denunciations |>
    <| bl_status := if bool_decide (bl_status b = SeenCandidate) then initial
                    else bl_status b |>.

(** The decoded header: what [handle_block] checks before its first write. *)
Record BlockHead := mkHead {
  hd_block_id : BlockId;
  hd_slot : Slot;
  hd_creator : Address;
  hd_header : SignedBlockHeader;
  hd_content : NodeBlockHeader;
}.
Definition block_head (fb : FilledBlock) : result Error BlockHead :=
  header ← ok_or (ErrOther "FilledBlock missing header") (fb_header fb);
  content ← ok_or (ErrOther "SignedBlockHeader missing content") (sh_content header);
  if str_is_empty (sh_secure_hash header) then Err (ErrOther "empty block id")
  else
    block_id ← map_err ErrOther (BlockId_parse (sh_secure_hash header));
    slot ← ok_or (ErrOther "block header missing slot") (bh_slot content);
    creator ← map_err ErrOther (Address_parse (sh_content_creator_address header));
    Ok (mkHead block_id (node_slot slot) creator header content).
Definition new_block (h : BlockHead) (operation_ids : list OperationId)
    (endorsements : list StoredEndorsement) (denunciations : list StoredDenunciation)
    (initial : BlockStatus) (now_ms : Z) : StoredBlock := {|
  bl_id := hd_block_id h; bl_slot := hd_slot h; bl_creator := hd_creator h;
  bl_parents := omap (fun p => ok (BlockId_parse p)) (bh_parents (hd_content h));
  bl_operation_ids := operation_ids;
  bl_endorsements := endorsements;
  bl_endorsement_ids := en_id <$> endorsements;
  bl_denunciations := denunciations;
  bl_current_version := bh_current_version (hd_content h);
  bl_announced_version := bh_announced_version (hd_content h);
  bl_operations_hash := bh_operations_hash (hd_content h);
  bl_signature := sh_signature (hd_header h);
  bl_content_creator_pub_key := sh_content_creator_pub_key (hd_header h);
  bl_serialized_size := sh_serialized_size (hd_header h);
  bl_raw_signed_header_b64 := b64_encode (encode_signed_header (hd_header h));
  bl_status := initial;
  bl_first_seen_ts_ms := now_ms |}.
Definition block_slot_row (block_id : BlockId) (now_ms : Z) (s : SlotState) : SlotState :=
  let s := touch now_ms (mark_body (push_candidate block_id s)) in
  if bool_decide (ss_status s = SlotUnknown) then s <| ss_status := SlotCandidate |> else s.

Definition handle_block (fb : FilledBlock) (now_ms : Z) : ST World unit :=
  h ← st_lift (block_head fb);
  let block_id := hd_block_id h in
  let slot := hd_slot h in
  let endorsements := omap (fun se => node_decode_endorsement se block_id slot now_ms)
                        (bh_endorsements (hd_content h)) in
  st_iter (fun e => db_do (fun d => write_endorsement d e)) endorsements ;;
  let denunciations := decode_denunciation <$> bh_denunciations (hd_content h) in
  st_iter (fun x => db_try (fun d =>
    write_denunciation d (denunciation_entry block_id now_ms x))) denunciations ;;
  st_iter (block_op block_id slot now_ms) (fb_operations fb) ;;
  let operation_ids := block_operation_ids fb in
  s ← read_slot_or_fresh slot now_ms;
  let initial := initial_block_status s block_id in
  prior ← db_read (fun d => read_block d block_id);
  let row := match prior with
             | Some b => merge_block b operation_ids endorsements denunciations initial
             | None => new_block h operation_ids endorsements denunciations initial now_ms
             end in
  db_do (fun d => write_block d row) ;;
  broadcast (BlockSeen row) ;;
  let s := block_slot_row block_id now_ms s in
  put_slot s ;;
  ensure_parent_stub slot now_ms ;;
  broadcast (SlotUpdated s).

(** ** E_EXEC *)
Definition exec_trail (x : ExecutionOutput) : option string :=
  sc ← xo_state_changes x; set_value (sc_execution_trail_hash_change sc).
Definition exec_events (slot : Slot) (status : SlotStatus) (x : ExecutionOutput)
  : list StoredScEvent :=
  imap (fun i ev =>
    let '(emitters, callers, op_id) := extract_event_context ev in
    mkScEvent slot (as_u32 (Z.of_nat i)) (stringify_bytes (xe_data ev)) emitters callers
      status op_id) (xo_events x).
(** The slot's event set, replaced: clear, then write and announce each. *)
Definition replace_events (slot : Slot) (evs : list StoredScEvent) : ST World unit :=
  db_do (fun d => Ok (clear_sc_events_for_slot d (slot_period slot) (slot_thread slot))) ;;
  st_iter (fun ev => db_do (fun d => write_sc_event d ev) ;; broadcast (EventSeen ev)) evs.
Definition exec_event_count (x : ExecutionOutput) : Z :=
  as_u32 (Z.of_nat (length (xo_events x))).

(** The execution status a frame gives a stored operation; [None]: no write. *)
Definition op_exec_update (is_final : bool) (status : ExecStatus) (o : StoredOperation)
  : option StoredOperation :=
  if is_final then
    match op_final_exec_status o with
    | Some _ => None
    | None => Some (o <| op_final_exec_status := Some status |>
                      <| op_candidate_exec_status := Some status |>)
    end
  else if bool_decide (op_candidate_exec_status o = Some status) then None
  else Some (o <| op_candidate_exec_status := Some status |>).
Definition apply_executed_op (is_final : bool) (e : ExecutedOpsChangeEntry) : ST World unit :=
  match op_id ← ok (OperationId_parse (oe_operation_id e));
        status ← exec_status_of (oe_status e); Some (op_id, status) with
  | None => mret tt
  | Some (op_id, status) =>
      row ← db_read (fun d => read_op d op_id);
      match o ← row; op_exec_update is_final status o with
      | Some o => db_do (fun d => write_op d o)
      | None => mret tt
      end
  end.
Definition apply_executed_ops_changes (is_final : bool) (l : list ExecutedOpsChangeEntry)
  : ST World (list OperationId) :=
  st_iter (apply_executed_op is_final) l ;;
  mret (omap (fun e => ok (OperationId_parse (oe_operation_id e))) l).

(** One entry of the async pool: the row to write, from the row held. *)
Definition pool_delete_state (s : AsyncMsgState) : AsyncMsgState :=
  match s with AmExecuted | AmCancelled => s | AmPending | AmConsumed => AmConsumed end.
Definition pool_row (slot : Slot) (now_ms : Z) (id : string) (v : AsyncPoolChangeValue)
    (held : option StoredAsyncMsg) : option StoredAsyncMsg :=
  let existing := default (async_stub id AmPending slot now_ms) held in
  let stamp m := m <| am_last_slot := Some slot |> <| am_last_updated_ts_ms := now_ms |> in
  match AsyncPoolChangeType_try_from (pv_type v), pv_message v with
  | Some PoolSet, Some (CreatedMessage m) => Some (async_msg_from_proto id m slot now_ms)
  | Some PoolUpdate, Some (UpdatedMessage u) => Some (stamp (apply_async_update existing u))
  | Some PoolDelete, _ =>
      Some (stamp (existing <| am_state := pool_delete_state (am_state existing) |>))
  | _, _ => None
  end.
(** [SET] writes without reading the row. *)
Definition pool_reads (v : AsyncPoolChangeValue) : bool :=
  match AsyncPoolChangeType_try_from (pv_type v), pv_message v with
  | Some PoolUpdate, Some (UpdatedMessage _) | Some PoolDelete, _ => true
  | _, _ => false
  end.
Definition apply_async_pool_change (slot : Slot) (now_ms : Z) (e : AsyncPoolChangeEntry)
  : ST World unit :=
  let id := pe_async_message_id e in
  if str_is_empty id then mret tt
  else
    match pe_value e with
    | None => mret tt
    | Some v =>
        held ← (if pool_reads v then db_read (fun d => read_async_msg d id) else mret None);
        match pool_row slot now_ms id v held with
        | Some row => db_do (fun d => write_async_msg d row)
        | None => mret tt
        end
    end.
Definition apply_async_pool_changes (slot : Slot) (l : list AsyncPoolChangeEntry) (now_ms : Z)
  : ST World unit := st_iter (apply_async_pool_change slot now_ms) l.

(** [if !op_ids.is_empty() && state.executed_op_ids.is_empty() { .. }]. *)
Definition fill_executed_ops (ids : list OperationId) (s : SlotState) : SlotState :=
  if negb (bool_decide (ids = [])) && bool_decide (ss_executed_op_ids s = [])
  then s <| ss_executed_op_ids := ids |> else s.
Definition exec_ops_step (x : ExecutionOutput) (is_final : bool) (s : SlotState)
  : ST World SlotState :=
  match xo_state_changes x with
  | None => mret s
  | Some sc =>
      ids ← apply_executed_ops_changes is_final (sc_executed_ops_changes sc);
      mret (fill_executed_ops ids s)
  end.
Definition exec_pool_step (x : ExecutionOutput) (slot : Slot) (now_ms : Z) : ST World unit :=
  match xo_state_changes x with
  | None => mret tt
  | Some sc => apply_async_pool_changes slot (sc_async_pool_changes sc) now_ms
  end.

Definition complete_final_exec_from_node (s : SlotState) (x : ExecutionOutput) (now_ms : Z)
  : ST World unit :=
  let slot := ss_slot s in
  let s := match ss_execution_trail_hash s with
           | None => s <| ss_execution_trail_hash := exec_trail x |>
           | Some _ => s
           end in
  replace_events slot (exec_events slot SlotFinal x) ;;
  let s := set_completeness (fun c => c <| exec_output_final := true |>)
             (s <| ss_sc_event_count := exec_event_count x |>) in
  s ← exec_ops_step x true s;
  exec_pool_step x slot now_ms ;;
  apply_finality_to_blocks (ss_final_block_id s) (ss_candidate_block_ids s) ;;
  let s := touch now_ms s in
  put_slot s ;;
  broadcast (SlotUpdated s).

Definition same_verdict (s : SlotState) (x : ExecutionOutput) : bool :=
  Bool.eqb (ss_is_miss s) (negb (is_some (xo_block_id x))) &&
  (ss_is_miss s ||
   bool_decide ((b ← xo_block_id x; ok (BlockId_parse b)) = ss_final_block_id s)).
(** What a FINAL frame does to the row of a slot that is FINAL already:
    nothing, unless it completes it. *)
Definition completes_final (s : SlotState) (x : ExecutionOutput) : bool :=
  negb (trails_differ (ss_execution_trail_hash s) (exec_trail x)) && same_verdict s x &&
  negb (exec_output_final (ss_completeness s)).

Definition exec_final_row (x : ExecutionOutput) (s : SlotState) : SlotState :=
  let s := set_completeness (fun c => c <| exec_output_final := true |>) s in
  let s := s <| ss_is_miss := negb (is_some (xo_block_id x)) |> in
  match b ← xo_block_id x; ok (BlockId_parse b) with
  | Some bid => s <| ss_final_block_id := Some bid |>
  | None => s
  end.
(** The frame on a slot that is not FINAL. *)
Definition apply_exec (slot : Slot) (x : ExecutionOutput) (is_final : bool) (s : SlotState)
    (now_ms : Z) : ST World unit :=
  let s := s <| ss_status := if is_final then SlotFinal else SlotCandidate |> in
  let s := match exec_trail x with
           | Some h => s <| ss_execution_trail_hash := Some h |> | None => s end in
  replace_events slot (exec_events slot (ss_status s) x) ;;
  let s := s <| ss_sc_event_count := exec_event_count x |> in
  let s := if is_final then exec_final_row x s
           else set_completeness (fun c => c <| exec_output_candidate := true |>) s in
  (if is_final then
     db_do (fun d => Ok (update_last_final_slot d slot)) ;;
     apply_finality_to_blocks (ss_final_block_id s) (ss_candidate_block_ids s)
   else db_do (fun d => Ok (update_last_candidate_slot d slot))) ;;
  s ← exec_ops_step x is_final s;
  when is_final (exec_pool_step x slot now_ms) ;;
  let s := touch now_ms s in
  put_slot s ;;
  when is_final (ensure_parent_stub slot now_ms) ;;
  when is_final (broadcast (SlotFinalEvent s)) ;;
  broadcast (SlotUpdated s).

Definition frame_status (out : SlotExecutionOutput) : ExecutionOutputStatus :=
  default XsUnspecified (ExecutionOutputStatus_try_from (so_status out)).
Definition handle_exec (out : SlotExecutionOutput) (now_ms : Z) : ST World unit :=
  x ← st_lift (ok_or (ErrOther "SlotExecutionOutput missing execution_output")
                 (so_execution_output out));
  slot_pb ← st_lift (ok_or (ErrOther "execution_output missing slot") (xo_slot x));
  let slot := node_slot slot_pb in
  match frame_status out with
  | XsUnspecified | XsUnknown => mret tt
  | status =>
      let is_final := match status with XsFinal => true | _ => false end in
      s ← read_slot_or_fresh slot now_ms;
      if bool_decide (ss_status s = SlotFinal) then
        when (is_final && completes_final s x) (complete_final_exec_from_node s x now_ms)
      else apply_exec slot x is_final s now_ms
  end.

(** ** E_TRANSFERS *)
Definition node_value (t : ExecTransferInfo) : TransferValue :=
  match v ← ti_value t; v with
  | Some (NvRolls n) => TVRolls n
  | Some (NvCoins a) => TVCoins (native_amount_to_nmas a)
  | Some (NvDeferredCredits a) => TVDeferredCredits (native_amount_to_nmas a)
  | None => TVUnknown
  end.
Definition transfer_row (slot : Slot) (resp : TransfersResponse) (now_ms : Z) (i : Z)
    (t : ExecTransferInfo) : StoredTransfer := {|
  tr_slot := slot; tr_index_in_slot := i; tr_id := ti_id t;
  tr_block_id := tr_resp_block_id resp; tr_block_timestamp_ms := tr_resp_timestamp resp;
  tr_from := ti_from_address t; tr_to := ti_to_address t;
  tr_value := node_value t; tr_origin := coin_origin_from_i32 (ti_origin t);
  tr_operation_id := ti_operation_id t; tr_async_msg_id := ti_async_msg_id t;
  tr_deferred_call_id := ti_deferred_call_id t;
  tr_denunciation_index := format_denunciation_index <$> ti_denunciation_index t;
  tr_is_final := true; tr_first_seen_ts_ms := now_ms |}.
(** Pass 1: drop the zero values, number the rest densely. *)
Fixpoint transfer_rows (slot : Slot) (resp : TransfersResponse) (now_ms next_idx : Z)
    (l : list ExecTransferInfo) : list StoredTransfer :=
  match l with
  | [] => []
  | t :: l' =>
      if is_zero_value (node_value t) then transfer_rows slot resp now_ms next_idx l'
      else transfer_row slot resp now_ms next_idx t ::
           transfer_rows slot resp now_ms (as_u32 (next_idx + 1)) l'
  end.
(** Pass 2: the active operation rides on the child transfers it emits. *)
Definition is_boundary (r : StoredTransfer) : bool :=
  is_some (tr_async_msg_id r) || is_some (tr_deferred_call_id r) ||
  is_some (tr_denunciation_index r) || is_reward_origin (tr_origin r).
Fixpoint attribute_ops (current_op : option string) (l : list StoredTransfer)
  : list StoredTransfer :=
  match l with
  | [] => []
  | r :: l' =>
      match tr_operation_id r with
      | Some op => r :: attribute_ops (Some op) l'
      | None =>
          if is_boundary r then r :: attribute_ops None l'
          else if is_op_child_origin (tr_origin r) then
            match current_op with
            | Some op => (r <| tr_operation_id := Some op |>) :: attribute_ops current_op l'
            | None => r :: attribute_ops current_op l'
            end
          else r :: attribute_ops current_op l'
      end
  end.
Definition mark_transfers : SlotState -> SlotState :=
  set_completeness (fun c => c <| transfers_stored := true |>).
Definition handle_transfers (resp : TransfersResponse) (now_ms : Z) : ST World unit :=
  slot_pb ← st_lift (ok_or (ErrOther "NewTransfersInfoServerResponse missing slot")
                       (tr_resp_slot resp));
  let slot := node_slot slot_pb in
  db_do (fun d => Ok (clear_transfers_for_slot d (slot_period slot) (slot_thread slot))) ;;
  let rows := attribute_ops None
                (transfer_rows slot resp now_ms 0 (tr_resp_transfers_info resp)) in
  st_iter put_transfer rows ;;
  reconcile_async_from_transfers slot rows now_ms ;;
  reconcile_deferred_from_transfers slot rows now_ms ;;
  row ← db_read (fun d => read_slot d (slot_period slot) (slot_thread slot));
  match row with
  | Some s =>
      if transfers_stored (ss_completeness s) then mret tt
      else
        let s := touch now_ms (mark_transfers s) in
        put_slot s ;; broadcast (SlotUpdated s)
  | None =>
      let s := mark_transfers (SlotState_fresh slot now_ms) in
      put_slot s ;; broadcast (SlotUpdated s)
  end.

(** ** Dispatch: errors are logged, the world keeps what was written *)
Definition dispatch (ev : Event) (now_ms : Z) : ST World unit :=
  match ev with
  | EvBlock fb => handle_block fb now_ms
  | EvExec out => handle_exec out now_ms
  | EvTransfers resp => handle_transfers resp now_ms
  | EvPeerPatch resp => apply_peer_patch resp now_ms ;; mret tt
  | EvLegacyPatch resp => apply_legacy_patch resp now_ms ;; mret tt
  | EvForcedVerdict resp => apply_forced_verdict resp now_ms ;; mret tt
  | EvTick => broadcast (Heartbeat now_ms)
  end.
Definition handle (ev : Event) (now_ms : Z) (w : World) : World := (dispatch ev now_ms w).2.

(** ** The two lanes *)
(** An mpsc receiver: what is queued, and whether every sender is gone. *)
Record Lane := mkLane { ln_queue : list Event; ln_closed : bool }.
Inductive Recv := RecvPending | RecvNone | RecvSome (ev : Event) (rest : Lane).
Definition recv_lane (rx : option Lane) : Recv :=
  match rx with
  | None => RecvPending
  | Some (mkLane [] true) => RecvNone
  | Some (mkLane [] false) => RecvPending
  | Some (mkLane (ev :: q) c) => RecvSome ev (mkLane q c)
  end.

Record Ingest := mkIngest {
  ig_world : World;
  ig_live : option Lane;
  ig_bulk : option Lane;
}.
(** What the biased [select!] finds: a branch ready, none ready ([step] stays
    suspended), or every branch disabled. *)
Inductive StepResult := StepTrue (i : Ingest) | StepPending | StepFalse.
Definition step (i : Ingest) (now_ms : Z) : StepResult :=
  match ig_live i, ig_bulk i with
  | None, None => StepFalse
  | _, _ =>
      match recv_lane (ig_live i) with
      | RecvSome ev rest =>
          StepTrue (mkIngest (handle ev now_ms (ig_world i)) (Some rest) (ig_bulk i))
      | RecvNone => StepTrue (mkIngest (ig_world i) None (ig_bulk i))
      | RecvPending =>
          match recv_lane (ig_bulk i) with
          | RecvSome ev rest =>
              StepTrue (mkIngest (handle ev now_ms (ig_world i)) (ig_live i) (Some rest))
          | RecvNone => StepTrue (mkIngest (ig_world i) (ig_live i) None)
          | RecvPending => StepPending
          end
      end
  end.
(** [while self.step().await {}], given the clock readings of its steps:
    [None] while [run] has not stopped. *)
Fixpoint run (i : Ingest) (clock : list Z) : option World :=
  match clock with
  | [] => None
  | t :: clock' =>
      match step i t with
      | StepTrue i' => run i' clock'
      | StepPending => run i clock'
      | StepFalse => Some (ig_world i)
      end
  end.
End ingest.
