(* ===== verification/Grpc.v ===== *)
(** * The node's gRPC client (src/massa-indexer/src/grpc.rs, metrics.rs)

    The subscription loops that feed the writer, the health they report, and the
    queries the REST layer forwards to the node. The node and the transport are
    the class [NodeRpc] for queries and, for a loop, the outcome of each of its
    attempts. Log lines are left out; a pause is recorded, not waited for. *)

From S2P Require Import Prelude Text Ids Keys Model Proto Codec Store Db.
From S2P Require Import NodeMsg World Reconcile Arbiter Patch Ingest.

(** ** Stream health (metrics.rs) *)
Inductive StreamKind := KBlocks | KExec | KTransfers.
Inductive StreamState := StIdle | StStreaming | StReconnecting | StUnimplemented.
#[export] Instance StreamKind_eq_dec : EqDecision StreamKind.
Proof. solve_decision. Defined.
#[export] Instance StreamState_eq_dec : EqDecision StreamState.
Proof. solve_decision. Defined.
Record StreamHealth := mkHealth { sh_enabled : bool; sh_state : StreamState; sh_last_event_ms : Z }.
Definition StreamHealth_new : StreamHealth := mkHealth false StIdle 0.
Definition stream_set_enabled (b : bool) (h : StreamHealth) : StreamHealth := h <| sh_enabled := b |>.
Definition stream_set_state (s : StreamState) (h : StreamHealth) : StreamHealth := h <| sh_state := s |>.
Definition stream_event (now_ms : Z) (h : StreamHealth) : StreamHealth :=
  h <| sh_last_event_ms := now_ms |> <| sh_state := StStreaming |>.
Definition streams_degraded (health : StreamKind -> StreamHealth) : bool :=
  existsb (fun k => sh_enabled (health k) && bool_decide (sh_state (health k) = StUnimplemented))
    [KBlocks; KExec; KTransfers].

(** ** Subscriptions *)
(** In milliseconds. *)
Definition BACKOFF_MIN : Z := 500.
Definition BACKOFF_MAX : Z := 30000.
Definition bump_backoff (d : Z) : Z := Z.min (d * 2) BACKOFF_MAX.

(** What comes of dialling the node and opening the stream. [clean]: the stream
    ended by itself rather than in error. *)
Inductive Attempt (M : Type) :=
| ConnectFailed
| RpcFailed (unimplemented : bool)
| Opened (messages : list M) (clean : bool).
Arguments ConnectFailed {M}.
Arguments RpcFailed {M} unimplemented.
Arguments Opened {M} messages clean.

Record Consumer := mkConsumer {
  cn_tick : nat;
  cn_health : StreamHealth;
  cn_slept : list Z;
  cn_sent : list Event;
}.
Definition Consumer_new : Consumer := mkConsumer 0 (mkHealth true StIdle 0) [] [].

Section consumer.
Context {M : Type} (make : M -> option Event).
Context (attempt : nat -> Attempt M) (closed : nat -> bool) (clock : nat -> Z).

Definition interact {A} (f : nat -> A) : ST Consumer A := fun s =>
  (Ok (f (cn_tick s)), s <| cn_tick := S (cn_tick s) |>).
Definition report (f : StreamHealth -> StreamHealth) : ST Consumer unit := fun s =>
  (Ok tt, s <| cn_health := f (cn_health s) |>).
Definition sleep (d : Z) : ST Consumer unit := fun s => (Ok tt, s <| cn_slept := cn_slept s ++ [d] |>).
Definition rep_state (st : StreamState) : ST Consumer unit := report (stream_set_state st).
Definition rep_event : ST Consumer unit := now ← interact clock; report (stream_event now).
Definition rpc_failed (unimplemented : bool) : ST Consumer unit :=
  rep_state (if unimplemented then StUnimplemented else StReconnecting).
Definition push_event (ev : Event) : ST Consumer unit := fun s =>
  (Ok tt, s <| cn_sent := cn_sent s ++ [ev] |>).
(** [tx.send(ev).await.is_err()]. *)
Definition tx_send_fails (ev : Event) : ST Consumer bool :=
  gone ← interact closed;
  if gone : bool then mret true else (push_event ev ;; mret false).
(** [false] when the writer's channel closed. *)
Fixpoint forward (messages : list M) : ST Consumer bool :=
  match messages with
  | [] => mret true
  | m :: messages' =>
      match make m with
      | Some ev =>
          rep_event ;;
          failed ← tx_send_fails ev;
          if failed : bool then mret false else forward messages'
      | None => forward messages'
      end
  end.
(** [sleep(backoff).await; backoff = bump_backoff(backoff)]. *)
Definition pause (backoff : Z) : ST Consumer Z := sleep backoff ;; mret (bump_backoff backoff).

(** One turn of [filled_blocks_loop] or [slot_exec_loop]: the next backoff. *)
Definition consumer_turn (backoff : Z) : ST Consumer (option Z) :=
  a ← interact attempt;
  match a with
  | ConnectFailed => rep_state StReconnecting ;; b ← pause backoff; mret (Some b)
  | RpcFailed unimplemented => rpc_failed unimplemented ;; b ← pause BACKOFF_MIN; mret (Some b)
  | Opened messages _ =>
      going ← forward messages;
      if going : bool
      then rep_state StReconnecting ;; b ← pause BACKOFF_MIN; mret (Some b)
      else mret None
  end.
Fixpoint consumer_loop (turns : nat) (backoff : Z) : ST Consumer (option Z) :=
  match turns with
  | O => mret (Some backoff)
  | S turns' =>
      next ← consumer_turn backoff;
      match next : option Z with
      | Some b => consumer_loop turns' b
      | None => mret None
      end
  end.

(** [transfers_info_loop]: a node that cannot serve the stream keeps the backoff
    growing; [unsupported] is [unsupported_since.is_some()]. *)
Definition transfers_turn (backoff : Z) (unsupported : bool) : ST Consumer (option (Z * bool)) :=
  a ← interact attempt;
  match a with
  | ConnectFailed => rep_state StReconnecting ;; b ← pause backoff; mret (Some (b, unsupported))
  | RpcFailed unimplemented =>
      let backoff := if unsupported then backoff else BACKOFF_MIN in
      rpc_failed unimplemented ;; b ← pause backoff; mret (Some (b, true))
  | Opened messages clean =>
      let backoff := if unsupported then backoff else BACKOFF_MIN in
      let got_any := negb (bool_decide (length messages = 0)) in
      going ← forward messages;
      if going : bool then
        if got_any then rep_state StReconnecting ;; b ← pause backoff; mret (Some (b, false))
        else if clean then
          rep_state StUnimplemented ;; b ← pause (bump_backoff backoff); mret (Some (b, true))
        else
          rep_state StReconnecting ;; b ← pause (bump_backoff backoff); mret (Some (b, unsupported))
      else mret None
  end.
Fixpoint transfers_loop (turns : nat) (backoff : Z) (unsupported : bool) : ST Consumer (option Z) :=
  match turns with
  | O => mret (Some backoff)
  | S turns' =>
      next ← transfers_turn backoff unsupported;
      match next : option (Z * bool) with
      | Some (b, u) => transfers_loop turns' b u
      | None => mret None
      end
  end.
End consumer.

(** A message of the block or execution stream may be empty. *)
Definition block_event (filled_block : option FilledBlock) : option Event := EvBlock <$> filled_block.
Definition exec_event (output : option SlotExecutionOutput) : option Event := EvExec <$> output.
Definition transfers_event (msg : TransfersResponse) : option Event := Some (EvTransfers msg).
Definition filled_blocks_loop attempt closed clock turns :=
  consumer_loop block_event attempt closed clock turns BACKOFF_MIN.
Definition slot_exec_loop attempt closed clock turns :=
  consumer_loop exec_event attempt closed clock turns BACKOFF_MIN.
Definition transfers_info_loop attempt closed clock turns :=
  transfers_loop transfers_event attempt closed clock turns BACKOFF_MIN false.
(** The consumers [run_consumers] spawns. *)
Definition spawned (blocks exec transfers : bool) : list StreamKind :=
  (if blocks then [KBlocks] else []) ++ (if exec then [KExec] else []) ++
  (if transfers then [KTransfers] else []).

(** ** Queries *)
Record NodeChainConfig := mkChainConfig {
  nc_genesis_timestamp_ms : Z; nc_t0_ms : Z; nc_thread_count : Z; nc_chain_id : Z }.
(** [CompactConfig] and [PublicStatus], the fields read. *)
Record CompactConfig := mkCompact {
  cc_genesis_timestamp : option Z; cc_t0 : option Z; cc_thread_count : Z }.
Record PublicStatus := mkStatus {
  ps_config : option CompactConfig; ps_chain_id : Z; ps_current_cycle : Z }.
Inductive QueryItem :=
| QBalanceFinal (a : string) | QBalanceCandidate (a : string)
| QRollsFinal (a : string) | QRollsCandidate (a : string)
| QDeferredCreditsFinal (a : string) | QDeferredCreditsCandidate (a : string)
| QCycleInfos (cycle : Z) (restrict : list string) | QBytecodeFinal (a : string).
Record CreditEntry := mkCredit { ce_slot : option NodeSlot; ce_amount : option NativeAmount }.
Record StakerEntry := mkStaker { se_address : string; se_active_rolls : option Z }.
Inductive ResponseItem :=
| RiAmount (a : NativeAmount) | RiRollCount (c : Z) | RiDeferredCredits (l : list CreditEntry)
| RiCycleInfos (stakers : list StakerEntry) | RiBytes (b : bytes) | RiOther.
(** One answer of [QueryState]: a result, possibly without an item, or an error. *)
Inductive QueryAnswer := AnswerResult (item : option ResponseItem) | AnswerError.
Record ReadOnlyCall := mkCall {
  rc_max_gas : Z; rc_target_address : string; rc_target_function : string; rc_parameter : bytes }.
Class NodeRpc := {
  node_connect : nat -> string -> result Error unit;
  node_status : nat -> result string (option PublicStatus);
  node_query_state : nat -> list QueryItem -> result string (list (option QueryAnswer));
  node_read_only_call : nat -> ReadOnlyCall -> result string (option bytes);
  node_now_ms : nat -> Z;
}.

Definition u128_max : Z := 2 ^ 128 - 1.
(** [None]: the power of ten wrapped to zero, a division by zero. *)
Definition native_amount_to_nmas (a : NativeAmount) : option Z :=
  if (na_scale a <=? 9)%Z
  then Some (Z.min u128_max (na_mantissa a * 10 ^ (9 - na_scale a)))
  else
    let d := (10 ^ (na_scale a - 9) mod 2 ^ 128)%Z in
    if Z.eqb d 0 then None else Some (na_mantissa a / d)%Z.
Record DeferredCreditEntry := mkCreditEntry { de_slot_period : Z; de_slot_thread : Z; de_nmas : string }.
(** [sort_by_key]: a stable sort. *)
Fixpoint insert_by {A} (le : A -> A -> bool) (x : A) (l : list A) : list A :=
  match l with
  | [] => [x]
  | y :: l' => if le x y then x :: l else y :: insert_by le x l'
  end.
Definition sort_by {A} (le : A -> A -> bool) (l : list A) : list A := foldr (insert_by le) [] l.
Definition credit_le (a b : DeferredCreditEntry) : bool :=
  (de_slot_period a <? de_slot_period b)%Z ||
  (Z.eqb (de_slot_period a) (de_slot_period b) && (de_slot_thread a <=? de_slot_thread b)%Z).
Definition u128_to_string (z : Z) : string := dec z.
Fixpoint credit_entries (l : list CreditEntry) : option (list DeferredCreditEntry) :=
  match l with
  | [] => Some []
  | e :: l' =>
      match ce_slot e with
      | None => credit_entries l'
      | Some slot =>
          nmas ← match ce_amount e with Some a => native_amount_to_nmas a | None => Some 0%Z end;
          rest ← credit_entries l';
          Some (if Z.eqb nmas 0 then rest
                else mkCreditEntry (ns_period slot) (ns_thread slot) (u128_to_string nmas) :: rest)
      end
  end.
Definition decode_deferred_credits (l : list CreditEntry) : option (list DeferredCreditEntry) :=
  sort_by credit_le <$> credit_entries l.
Record AddressNodeState := mkAddressState {
  an_address : string;
  an_final_balance_nmas : string;
  an_candidate_balance_nmas : string;
  an_final_rolls : Z;
  an_candidate_rolls : Z;
  an_active_rolls : Z;
  an_deferred_credits_final : list DeferredCreditEntry;
  an_deferred_credits_candidate : list DeferredCreditEntry;
  an_queried_at_ms : Z;
}.
(** What the answers so far amount to: balances, rolls, credits. *)
Record Tally := mkTally {
  ta_final : Z; ta_candidate : Z; ta_final_rolls : Z; ta_candidate_rolls : Z;
  ta_credits_final : list DeferredCreditEntry; ta_credits_candidate : list DeferredCreditEntry }.
Definition Tally_zero : Tally := mkTally 0 0 0 0 [] [].
(** The i-th answer; [None]: a panic. *)
Definition tally_answer (i : nat) (r : option QueryAnswer) (t : Tally) : option Tally :=
  match r with
  | Some (AnswerResult item) =>
      match i, item with
      | 0, Some (RiAmount a) => n ← native_amount_to_nmas a; Some (t <| ta_final := n |>)
      | 1, Some (RiAmount a) => n ← native_amount_to_nmas a; Some (t <| ta_candidate := n |>)
      | 2, Some (RiRollCount c) => Some (t <| ta_final_rolls := c |>)
      | 3, Some (RiRollCount c) => Some (t <| ta_candidate_rolls := c |>)
      | 4, Some (RiDeferredCredits w) =>
          l ← decode_deferred_credits w; Some (t <| ta_credits_final := l |>)
      | 5, Some (RiDeferredCredits w) =>
          l ← decode_deferred_credits w; Some (t <| ta_credits_candidate := l |>)
      | _, _ => Some t
      end
  | _ => Some t
  end.
Fixpoint tally_answers (i : nat) (rs : list (option QueryAnswer)) (t : Tally) : option Tally :=
  match rs with
  | [] => Some t
  | r :: rs' => t ← tally_answer i r t; tally_answers (S i) rs' t
  end.
(** The first staker entry of the address that carries its info. *)
Fixpoint active_rolls_in (addr : string) (l : list StakerEntry) : option Z :=
  match l with
  | [] => None
  | e :: l' =>
      if bool_decide (se_address e = addr) then
        match se_active_rolls e with Some n => Some n | None => active_rolls_in addr l' end
      else active_rolls_in addr l'
  end.
Fixpoint active_rolls_of (addr : string) (rs : list (option QueryAnswer)) : Z :=
  match rs with
  | [] => 0
  | Some (AnswerResult (Some (RiCycleInfos l))) :: rs' =>
      match active_rolls_in addr l with Some n => n | None => active_rolls_of addr rs' end
  | _ :: rs' => active_rolls_of addr rs'
  end.
Fixpoint first_bytecode (rs : list (option QueryAnswer)) : option bytes :=
  match rs with
  | [] => None
  | Some (AnswerResult (Some (RiBytes b))) :: _ => if bool_decide (b = []) then None else Some b
  | _ :: rs' => first_bytecode rs'
  end.

(** ** The name service *)
Definition MNS_MAINNET : string := "AS1q5hUfxLXNXLKsYQVXZLK7MPUZcWaNZZsK7e9QzqhGdAgLpUGT".
Definition MNS_BUILDNET : string := "AS12qKAVjU1nr66JSkQ6N4Lqu4iwuVc6rAbRTrxFoynPrPdP1sj3G".
Definition mns_contract_for_chain (chain_id : Z) : option string :=
  if Z.eqb chain_id 77658377 then Some MNS_MAINNET
  else if Z.eqb chain_id 77658366 then Some MNS_BUILDNET else None.
(** [u32::to_le_bytes], [u32::from_le_bytes]. *)
Definition le_u32 (z : Z) : bytes := reverse (to_be_bytes 4 z).
Definition from_le (b : bytes) : Z := from_be_bytes (reverse b).
Definition args_string (s : string) : bytes :=
  le_u32 (as_u32 (Z.of_nat (String.length s))) ++ as_bytes s.
Definition decode_sc_string (b : bytes) : option string :=
  if bool_decide (length b < 4) then None
  else
    let len := Z.to_nat (from_le (take 4 b)) in
    let payload := drop 4 b in
    if bool_decide (length payload < len) then None
    else from_utf8 (take len payload).
Definition dns_resolve_call (contract name : string) : ReadOnlyCall :=
  mkCall 1000000000 contract "dnsResolve" (args_string name).

Section queries.
Context `{NodeRpc}.
(** The state counts the interactions with the node. *)
Definition node {A} (f : nat -> A) : ST nat A := fun n => (Ok (f n), S n).
Definition node_try {A} (what : string) (f : nat -> result string A) : ST nat A :=
  r ← node f; st_lift (map_err (fun e => ErrOther (what +:+ ": " +:+ e)) r).
Definition connect_endpoint (url : string) : ST nat unit :=
  r ← node (fun n => node_connect n url); st_lift r.
Definition fetch_node_config (url : string) : ST nat (option NodeChainConfig) :=
  connect_endpoint url ;;
  status ← node_try "get_status" node_status;
  mret (s ← status; c ← ps_config s;
        Some (mkChainConfig (default 0%Z (cc_genesis_timestamp c)) (default 16000%Z (cc_t0 c))
                (Z.min (cc_thread_count c) 255) (ps_chain_id s))).
Definition fetch_active_rolls_for_cycle (addr : string) (cycle : Z) : ST nat Z :=
  r ← node (fun n => node_query_state n [QCycleInfos cycle [addr]]);
  mret match r with Ok rs => active_rolls_of addr rs | Err _ => 0%Z end.
Definition fetch_address_state (url addr : string) : ST nat AddressNodeState :=
  connect_endpoint url ;;
  status ← node node_status;
  rs ← node_try "query_state" (fun n => node_query_state n
         [QBalanceFinal addr; QBalanceCandidate addr; QRollsFinal addr; QRollsCandidate addr;
          QDeferredCreditsFinal addr; QDeferredCreditsCandidate addr]);
  t ← st_lift (ok_or (ErrOther "panic") (tally_answers 0 rs Tally_zero));
  active ← match status with
           | Ok (Some s) => fetch_active_rolls_for_cycle addr (ps_current_cycle s)
           | _ => mret 0%Z
           end;
  now ← node node_now_ms;
  mret (mkAddressState addr (u128_to_string (ta_final t)) (u128_to_string (ta_candidate t))
          (ta_final_rolls t) (ta_candidate_rolls t) active (ta_credits_final t)
          (ta_credits_candidate t) now).
Definition mns_resolve (url name : string) : ST nat (option string) :=
  if str_is_empty name then mret None
  else
    connect_endpoint url ;;
    status ← node_try "get_status" node_status;
    match (s ← status; mns_contract_for_chain (ps_chain_id s)) with
    | None => mret None
    | Some contract =>
        r ← node (fun n => node_read_only_call n (dns_resolve_call contract name));
        mret match r with
             | Ok (Some call_result) =>
                 if bool_decide (call_result = []) then None
                 else
                   let decoded := match decode_sc_string call_result with
                     | Some s => s
                     | None => trim (from_utf8_lossy call_result)
                     end in
                   if str_is_empty decoded then None else Some decoded
             | Ok None | Err _ => None
             end
    end.
Definition fetch_address_bytecode (url addr : string) : ST nat (option bytes) :=
  connect_endpoint url ;;
  rs ← node_try "query_state(bytecode)" (fun n => node_query_state n [QBytecodeFinal addr]);
  mret (first_bytecode rs).
End queries.
