(* ===== verification/WorldLogic.v ===== *)
(** * Reasoning about the writer

    [moves R m]: whatever its outcome, the computation [m] takes the store
    along [R]. For a preorder [R] this composes along binds and loops, so a
    handler is decomposed into its writes. Footprints say which column families
    each writer of db.rs touches. *)

From S2P Require Import Prelude Ids Keys Model Proto Codec CodecLemmas CodecProps Store Db.
From S2P Require Import Tables NodeMsg World Reconcile Arbiter Patch.

Section moves.
Context `{RocksDB}.
Implicit Types (R : DB -> DB -> Prop) (w : World).

Definition moves R {A} (m : ST World A) : Prop := forall w, R (w_db w) (w_db (m w).2).

(** At a state: what the two outcomes of [m] leave to show. *)
Lemma bind_at R {A B} (m : ST World A) (f : A -> ST World B) w0 w :
  (forall a w', m w = (Ok a, w') -> R (w_db w0) (w_db (f a w').2)) ->
  (forall e w', m w = (Err e, w') -> R (w_db w0) (w_db w')) ->
  R (w_db w0) (w_db ((m ≫= f) w).2).
Proof.
  intros HO HE. unfold mbind, ST_bind. destruct (m w) as [[a|e] w'] eqn:E; [by apply HO|].
  by eapply HE.
Qed.

Lemma bind_Ok_inv {A B} (m : ST World A) (f : A -> ST World B) w b w' :
  (m ≫= f) w = (Ok b, w') -> exists a w1, m w = (Ok a, w1) /\ f a w1 = (Ok b, w').
Proof. unfold mbind, ST_bind. destruct (m w) as [[a|e] w1]; [eauto | done]. Qed.

Lemma bind_run {A B} (m : ST World A) (f : A -> ST World B) w a w1 :
  m w = (Ok a, w1) -> (m ≫= f) w = f a w1.
Proof. intros E. unfold mbind, ST_bind. by rewrite E. Qed.

Context R `{!PreOrder R}.

Lemma moves_ret {A} (a : A) : moves R (mret a).
Proof. intros w. reflexivity. Qed.
Lemma moves_bind {A B} (m : ST World A) (f : A -> ST World B) :
  moves R m -> (forall a, moves R (f a)) -> moves R (m ≫= f).
Proof.
  intros Hm Hf w. apply bind_at.
  - intros a w' E. specialize (Hm w). rewrite E in Hm. etransitivity; [exact Hm | apply Hf].
  - intros e w' E. specialize (Hm w). by rewrite E in Hm.
Qed.
Lemma moves_iter {A} (f : A -> ST World unit) l :
  (forall a, a ∈ l -> moves R (f a)) -> moves R (st_iter f l).
Proof.
  induction l as [|a l IH]; intros Hf; [apply moves_ret|]. cbn [st_iter].
  apply moves_bind; [apply Hf; set_solver | intros _; apply IH; set_solver].
Qed.
Lemma moves_read {A} (f : DB -> result Error A) : moves R (db_read f).
Proof. intros w. reflexivity. Qed.
Lemma moves_lift {A} (r : result Error A) : moves R (st_lift r).
Proof. intros w. reflexivity. Qed.
Lemma moves_do (f : DB -> result Error DB) :
  (forall d d', f d = Ok d' -> R d d') -> moves R (db_do f).
Proof.
  intros Hf w. unfold db_do. destruct (f (w_db w)) eqn:E; [by apply Hf | reflexivity].
Qed.
Lemma moves_try (f : DB -> result Error DB) :
  (forall d d', f d = Ok d' -> R d d') -> moves R (db_try f).
Proof.
  intros Hf w. unfold db_try. destruct (f (w_db w)) eqn:E; [by apply Hf | reflexivity].
Qed.
(** A read and what is done with its result, from the state it was read in. *)
Lemma moves_read_at {X B} (f : DB -> result Error X) (k : X -> ST World B) :
  (forall d x sse, f d = Ok x -> R d (w_db (k x (mkWorld d sse)).2)) -> moves R (db_read f ≫= k).
Proof.
  intros Hk [d sse]. unfold mbind, ST_bind, db_read. cbn [w_db].
  destruct (f d) as [x|] eqn:E; [by apply Hk | reflexivity].
Qed.
Lemma do_at (f : DB -> result Error DB) d sse {B} (k : unit -> ST World B) :
  (forall d', f d = Ok d' -> R d d') -> (forall u, moves R (k u)) ->
  R d (w_db ((db_do f ≫= k) (mkWorld d sse)).2).
Proof.
  intros Hf Hk. unfold mbind, ST_bind, db_do. cbn [w_db]. destruct (f d) as [d'|]; [|reflexivity].
  etransitivity; [by apply Hf | apply (Hk tt (mkWorld d' sse))].
Qed.
Lemma do_last_at (f : DB -> result Error DB) d sse :
  (forall d', f d = Ok d' -> R d d') -> R d (w_db (db_do f (mkWorld d sse)).2).
Proof. intros Hf. unfold db_do. cbn [w_db]. destruct (f d) as [d'|]; [by apply Hf | reflexivity]. Qed.
Lemma moves_broadcast ev : moves R (broadcast ev).
Proof. intros w. reflexivity. Qed.
Lemma moves_when c m : (c = true -> moves R m) -> moves R (when c m).
Proof. destruct c; simpl; [auto | intros; apply moves_ret]. Qed.
Lemma moves_each_decoded {P A} (decode : P -> result CodecError A) (f : A -> ST World unit) l :
  (forall p a, decode p = Ok a -> moves R (f a)) -> moves R (each_decoded decode f l).
Proof.
  intros Hf. apply moves_iter. intros p _. destruct (decode p) eqn:E; [by eapply Hf | apply moves_ret].
Qed.
End moves.

Section keeps_after.
Context `{RocksDB}.
(** One more successful step of a handler, off the column family at hand. *)
Lemma keeps_after c {A} (m : ST World A) w a w1 d :
  moves (same_cf c) m -> m w = (Ok a, w1) -> same_cf c d (w_db w) -> same_cf c d (w_db w1).
Proof. intros Hm E Hd. specialize (Hm w). rewrite E in Hm. by etransitivity. Qed.
End keeps_after.

(** Decomposes a computation along its structure; leaves the writes. *)
Ltac moves_step :=
  match goal with
  | |- moves _ (mret _) => refine (moves_ret _ _)
  | |- moves _ (_ ≫= _) => refine (moves_bind _ _ _ _ _); [ | intros ?]
  | |- moves _ (st_iter _ _) => refine (moves_iter _ _ _ _); intros ? ?
  | |- moves _ (each_decoded _ _ _) => refine (moves_each_decoded _ _ _ _ _); intros ? ? ?
  | |- moves _ (db_read _) => refine (moves_read _ _)
  | |- moves _ (st_lift _) => refine (moves_lift _ _)
  | |- moves _ (broadcast _) => refine (moves_broadcast _ _)
  | |- moves _ (when _ _) => refine (moves_when _ _ _ _); intros ?
  | |- moves _ (db_do _) => refine (moves_do _ _ _); intros ? ? ?
  | |- moves _ (db_try _) => refine (moves_try _ _ _); intros ? ? ?
  | |- moves _ (match ?x with _ => _ end) => destruct x
  end.

(** ** Footprints of the writers of db.rs *)
Definition slot_cfs : list Cf := [CF_SLOT].
Definition meta_cfs : list Cf := [CF_META].
Definition block_cfs : list Cf := [CF_BLOCK; IDX_BLOCK_BY_CREATOR; CF_SLOT_CANDIDATE_BLOCK].
Definition endorsement_cfs : list Cf := [CF_ENDORSEMENT; IDX_ENDORSEMENT_BY_CREATOR].
Definition op_cfs : list Cf := [CF_OP; IDX_OP_BY_CREATOR; IDX_OP_BY_TARGET].
Definition event_cfs : list Cf :=
  [CF_SC_EVENT; IDX_SC_EVENT_BY_EMITTER; IDX_SC_EVENT_BY_CALLER; IDX_SC_EVENT_BY_OP].
Definition denunciation_cfs : list Cf :=
  [CF_DENUNCIATION; IDX_DENUNCIATION_BY_ADDR; IDX_DENUNCIATION_RECENT].
Definition transfer_cfs : list Cf :=
  [CF_TRANSFER; IDX_TRANSFER_BY_ADDR; IDX_TRANSFER_BY_OP; IDX_TRANSFER_BY_BLOCK].
Definition async_cfs : list Cf :=
  [CF_ASYNC_MSG; IDX_ASYNC_BY_SENDER; IDX_ASYNC_BY_DEST; IDX_ASYNC_BY_LAST_SLOT].
Definition deferred_cfs : list Cf :=
  [CF_DEFERRED_CALL; IDX_DEFERRED_BY_SENDER; IDX_DEFERRED_BY_TARGET; IDX_DEFERRED_BY_LAST_SLOT].

Section footprints.
Context `{Bs58, Base64, HexCrate, ProstStorage, RocksDB}.
Implicit Types (cfs : list Cf).

Lemma db_write_in cfs d ops c :
  (forall o, o ∈ ops -> wop_cf o ∈ cfs) -> c ∉ cfs -> same_cf c d (db_write d ops).
Proof.
  intros Hops Hc. apply db_write_same_cf. rewrite list_elem_of_fmap.
  intros (o & -> & Ho). by apply Hc, Hops.
Qed.
Lemma put_empty_in cfs (l : list (Cf * bytes)) o :
  (forall ck, ck ∈ l -> ck.1 ∈ cfs) -> o ∈ put_empty <$> l -> wop_cf o ∈ cfs.
Proof. intros Hl (ck & -> & Hck)%list_elem_of_fmap. exact (Hl ck Hck). Qed.
Lemma delete_key_in cfs (l : list (Cf * bytes)) o :
  (forall ck, ck ∈ l -> ck.1 ∈ cfs) -> o ∈ delete_key <$> l -> wop_cf o ∈ cfs.
Proof. intros Hl (ck & -> & Hck)%list_elem_of_fmap. exact (Hl ck Hck). Qed.

Lemma write_slot_in s : writes_in slot_cfs (fun d => Ok (write_slot d s)).
Proof.
  intros d d' [= <-] c. apply db_write_in. intros o [->|[]%elem_of_nil]%elem_of_cons. set_solver.
Qed.
Lemma update_last_final_in s : writes_in meta_cfs (fun d => Ok (update_last_final_slot d s)).
Proof.
  intros d d' [= <-] c. apply db_write_in. intros o [->|[]%elem_of_nil]%elem_of_cons. set_solver.
Qed.
Lemma update_last_candidate_in s :
  writes_in meta_cfs (fun d => Ok (update_last_candidate_slot d s)).
Proof.
  intros d d' [= <-] c. apply db_write_in. intros o [->|[]%elem_of_nil]%elem_of_cons. set_solver.
Qed.

Lemma write_block_in b : writes_in block_cfs (fun d => write_block d b).
Proof.
  intros d d' E c. unfold write_block in E. invert_binds E. injection E as <-.
  apply db_write_in. intros o Ho. set_unfold in Ho. destruct Ho as [->|[->|[->|[]]]]; set_solver.
Qed.
Lemma write_endorsement_in e : writes_in endorsement_cfs (fun d => write_endorsement d e).
Proof.
  intros d d' E c. unfold write_endorsement in E. invert_binds E. case_match; [by injection E as <-|].
  invert_binds E. injection E as <-.
  apply db_write_in. intros o Ho. set_unfold in Ho. destruct Ho as [->|[->|[]]]; set_solver.
Qed.
Lemma write_op_in o : writes_in op_cfs (fun d => write_op d o).
Proof.
  intros d d' E c. unfold write_op in E. invert_binds E. injection E as <-.
  apply db_write_in. intros x [->|Hx]%elem_of_cons; [set_solver|]. unfold op_index_puts in Hx.
  repeat case_match; set_unfold in Hx; destruct_or?; subst; set_solver.
Qed.

Lemma event_index_keys_in e ck : ck ∈ event_index_keys e -> ck.1 ∈ event_cfs.
Proof.
  unfold event_index_keys. rewrite !elem_of_app, !list_elem_of_fmap.
  intros [(? & -> & _)|[(? & -> & _)|Hck]]; [set_solver..|].
  case_match; set_unfold in Hck; destruct_or?; subst; set_solver.
Qed.
Lemma transfer_index_keys_in t ck : ck ∈ transfer_index_keys t -> ck.1 ∈ transfer_cfs.
Proof.
  unfold transfer_index_keys, addr_index_key. rewrite !elem_of_app. intros Hck.
  destruct_or! Hck; case_match; set_unfold in Hck; destruct_or?; subst; set_solver.
Qed.
Lemma denunciation_index_keys_in x h ck :
  ck ∈ denunciation_index_keys x h -> ck.1 ∈ denunciation_cfs.
Proof.
  unfold denunciation_index_keys. rewrite elem_of_app. intros Hck.
  destruct_or! Hck; try case_match; set_unfold in Hck; destruct_or?; subst; set_solver.
Qed.
Lemma async_keys_in m id ck : ck ∈ async_index_keys m id -> ck.1 ∈ async_cfs.
Proof.
  unfold async_index_keys. rewrite !elem_of_app. intros Hck.
  destruct_or! Hck; case_match; set_unfold in Hck; destruct_or?; subst; set_solver.
Qed.
Lemma async_stale_in p n ck : ck ∈ async_stale p n -> ck.1 ∈ async_cfs.
Proof.
  unfold async_stale. rewrite !elem_of_app. intros Hck.
  destruct_or! Hck; repeat case_match; set_unfold in Hck; destruct_or?; subst; set_solver.
Qed.
Lemma deferred_keys_in m id ck : ck ∈ deferred_index_keys m id -> ck.1 ∈ deferred_cfs.
Proof.
  unfold deferred_index_keys. rewrite !elem_of_app. intros Hck.
  destruct_or! Hck; case_match; set_unfold in Hck; destruct_or?; subst; set_solver.
Qed.
Lemma deferred_stale_in p n ck : ck ∈ deferred_stale p n -> ck.1 ∈ deferred_cfs.
Proof.
  unfold deferred_stale. rewrite !elem_of_app. intros Hck.
  destruct_or! Hck; repeat case_match; set_unfold in Hck; destruct_or?; subst; set_solver.
Qed.

Lemma write_sc_event_in e : writes_in event_cfs (fun d => write_sc_event d e).
Proof.
  intros d d' E c. unfold write_sc_event in E. invert_binds E. injection E as <-.
  apply db_write_in. intros x [->|Hx]%elem_of_cons; [set_solver|].
  eapply put_empty_in, Hx. apply event_index_keys_in.
Qed.
Lemma write_transfer_in t : writes_in transfer_cfs (fun d => Ok (write_transfer d t)).
Proof.
  intros d d' [= <-] c. apply db_write_in. intros x [->|Hx]%elem_of_cons; [set_solver|].
  eapply put_empty_in, Hx. apply transfer_index_keys_in.
Qed.
Lemma clear_events_in p t : writes_in event_cfs (fun d => Ok (clear_sc_events_for_slot d p t)).
Proof.
  intros d d' [= <-] c Hc. unfold clear_sc_events_for_slot.
  destruct (slot_entries d CF_SC_EVENT p t) as [|kv l]; [reflexivity|].
  apply (db_write_in event_cfs); [|done]. intros o (kv' & Ho & _)%list_elem_of_bind.
  unfold clear_event_ops in Ho. apply elem_of_app in Ho as [Ho|Ho]; [|set_solver].
  case_match; [|set_solver]. eapply delete_key_in, Ho. apply event_index_keys_in.
Qed.
Lemma clear_transfers_in p t :
  writes_in transfer_cfs (fun d => Ok (clear_transfers_for_slot d p t)).
Proof.
  intros d d' [= <-] c Hc. unfold clear_transfers_for_slot.
  destruct (slot_entries d CF_TRANSFER p t) as [|kv l]; [reflexivity|].
  apply (db_write_in transfer_cfs); [|done]. intros o (kv' & Ho & _)%list_elem_of_bind.
  unfold clear_transfer_ops in Ho. apply elem_of_app in Ho as [Ho|Ho]; [|set_solver].
  case_match; [|set_solver]. eapply delete_key_in, Ho. apply transfer_index_keys_in.
Qed.
Lemma write_denunciation_in x : writes_in denunciation_cfs (fun d => write_denunciation d x).
Proof.
  intros d d' E c. unfold write_denunciation in E. invert_binds E. case_match.
  - invert_binds E. case_match; [|by injection E as <-]. invert_binds E. injection E as <-.
    apply db_write_in. intros o [->|[]%elem_of_nil]%elem_of_cons. set_solver.
  - invert_binds E. injection E as <-. apply db_write_in.
    intros o [->|Ho]%elem_of_cons; [set_solver|].
    eapply put_empty_in, Ho. apply denunciation_index_keys_in.
Qed.
Lemma write_async_in m : writes_in async_cfs (fun d => write_async_msg d m).
Proof.
  intros d d' E c. unfold write_async_msg in E. invert_binds E. injection E as <-.
  apply db_write_in. intros o [->|Ho]%elem_of_cons; [set_solver|].
  apply elem_of_app in Ho as [Ho|Ho].
  - case_match; [|set_solver]. eapply delete_key_in, Ho. apply async_stale_in.
  - eapply put_empty_in, Ho. apply async_keys_in.
Qed.
Lemma write_deferred_in m : writes_in deferred_cfs (fun d => write_deferred_call d m).
Proof.
  intros d d' E c. unfold write_deferred_call in E. invert_binds E. injection E as <-.
  apply db_write_in. intros o [->|Ho]%elem_of_cons; [set_solver|].
  apply elem_of_app in Ho as [Ho|Ho].
  - case_match; [|set_solver]. eapply delete_key_in, Ho. apply deferred_stale_in.
  - eapply put_empty_in, Ho. apply deferred_keys_in.
Qed.
End footprints.
