(* ===== verification/HandlerFrames.v ===== *)
(** * Footprints of the handlers

    Which column families each piece of ingest.rs and peer/patch.rs leaves
    alone, and the rows the primary writers put. *)

From S2P Require Import Prelude Ids Keys Model Proto Codec CodecLemmas CodecProps Store Db.
From S2P Require Import Tables NodeMsg World Reconcile Arbiter Patch Ingest WorldLogic.

(** Decides [c ∉ cfs] on concrete column families. *)
Ltac cf_notin := apply (bool_decide_unpack _); vm_compute; exact I.
(** Closes [same_cf c d d'] from a writer equation and [c ∉ ..]. *)
Ltac frame_leaf :=
  match goal with
  | E : _ = Ok ?d' |- same_cf ?c ?d ?d' =>
      first
        [ apply (write_slot_in _ d d' E c) | apply (update_last_final_in _ d d' E c)
        | apply (update_last_candidate_in _ d d' E c) | apply (write_block_in _ d d' E c)
        | apply (write_endorsement_in _ d d' E c) | apply (write_op_in _ d d' E c)
        | apply (write_sc_event_in _ d d' E c) | apply (write_transfer_in _ d d' E c)
        | apply (clear_events_in _ _ d d' E c) | apply (clear_transfers_in _ _ d d' E c)
        | apply (write_denunciation_in _ d d' E c) | apply (write_async_in _ d d' E c)
        | apply (write_deferred_in _ d d' E c) ];
      (assumption || cf_notin || (rewrite ?not_elem_of_app in *; tauto))
  end.
Ltac frame := repeat moves_step; try frame_leaf.

Section frames.
Context `{Bs58, Base64, HexCrate, ProstStorage, RocksDB, DenunciationDigest, NodeEncode}.

#[local] Abbreviation keeps c := (moves (same_cf c)).

Lemma put_slot_keeps c s : c ∉ slot_cfs -> keeps c (put_slot s).
Proof. intros Hc. unfold put_slot. frame. Qed.
Lemma read_slot_keeps c slot now : keeps c (read_slot_or_fresh slot now).
Proof. unfold read_slot_or_fresh. frame. Qed.
Lemma bump_keeps c slot : c ∉ meta_cfs -> keeps c (bump_last_final_slot slot).
Proof. intros Hc. unfold bump_last_final_slot. frame. Qed.
Lemma set_block_status_keeps c bid st : c ∉ block_cfs -> keeps c (set_block_status bid st).
Proof. intros Hc. unfold set_block_status. frame. Qed.
Lemma apply_finality_keeps c fin cands :
  c ∉ block_cfs -> keeps c (apply_finality_to_blocks fin cands).
Proof.
  intros Hc. unfold apply_finality_to_blocks.
  repeat (moves_step || by apply set_block_status_keeps).
Qed.
Lemma parent_stub_keeps c slot now : c ∉ slot_cfs -> keeps c (ensure_parent_stub slot now).
Proof. intros Hc. unfold ensure_parent_stub. repeat (moves_step || by apply put_slot_keeps). Qed.

Lemma reconcile_async_keeps c slot rows now :
  c ∉ async_cfs -> keeps c (reconcile_async_from_transfers slot rows now).
Proof. intros Hc. unfold reconcile_async_from_transfers, reconcile_async_one. frame. Qed.
Lemma reconcile_deferred_keeps c slot rows now :
  c ∉ deferred_cfs -> keeps c (reconcile_deferred_from_transfers slot rows now).
Proof. intros Hc. unfold reconcile_deferred_from_transfers, reconcile_deferred_one. frame. Qed.

Lemma apply_block_part_keeps c resp now :
  c ∉ block_cfs ++ op_cfs ++ endorsement_cfs ++ denunciation_cfs ->
  keeps c (apply_block_part resp now).
Proof. intros Hc. unfold apply_block_part, apply_peer_op. frame. Qed.
Lemma apply_exec_part_keeps c resp :
  c ∉ event_cfs ++ async_cfs -> keeps c (apply_exec_part resp).
Proof. intros Hc. unfold apply_exec_part. frame. Qed.
Lemma apply_transfers_part_keeps c resp now :
  c ∉ transfer_cfs ++ async_cfs ++ deferred_cfs -> keeps c (apply_transfers_part resp now).
Proof.
  intros Hc. unfold apply_transfers_part, put_transfer. rewrite !not_elem_of_app in Hc.
  repeat (moves_step || (apply reconcile_async_keeps; tauto)
                     || (apply reconcile_deferred_keeps; tauto)); frame_leaf.
Qed.
Lemma adopt_keeps c s resp pb trail :
  c ∉ block_cfs ++ event_cfs ++ transfer_cfs -> keeps c (adopt_peer_verdict s resp pb trail).
Proof.
  intros Hc. unfold adopt_peer_verdict. rewrite !not_elem_of_app in Hc.
  repeat (moves_step || (apply set_block_status_keeps; tauto)); frame_leaf.
Qed.

Lemma block_op_keeps c bid slot now fo : c ∉ op_cfs -> keeps c (block_op bid slot now fo).
Proof. intros Hc. unfold block_op. frame. Qed.
Lemma replace_events_keeps c slot evs : c ∉ event_cfs -> keeps c (replace_events slot evs).
Proof. intros Hc. unfold replace_events. frame. Qed.
Lemma apply_executed_ops_keeps c fin l :
  c ∉ op_cfs -> keeps c (apply_executed_ops_changes fin l).
Proof. intros Hc. unfold apply_executed_ops_changes, apply_executed_op. frame. Qed.
Lemma exec_ops_keeps c x fin s : c ∉ op_cfs -> keeps c (exec_ops_step x fin s).
Proof.
  intros Hc. unfold exec_ops_step. repeat (moves_step || by apply apply_executed_ops_keeps).
Qed.
Lemma exec_pool_keeps c x slot now : c ∉ async_cfs -> keeps c (exec_pool_step x slot now).
Proof.
  intros Hc. unfold exec_pool_step, apply_async_pool_changes, apply_async_pool_change. frame.
Qed.

(** ** The row a primary writer puts *)
Lemma no_primary_in (cfs : list Cf) (ops : list WriteOp) c k :
  (forall o, o ∈ ops -> wop_cf o ∈ cfs) -> c ∉ cfs -> (c, k) ∉ wop_key <$> ops.
Proof.
  intros Hops Hc (o & Ho & Hin)%list_elem_of_fmap. apply Hc. specialize (Hops o Hin).
  unfold wop_cf in Hops. by rewrite <- Ho in Hops.
Qed.
Lemma put_then_lookup d c k v rest k' (cfs : list Cf) :
  (forall o, o ∈ rest -> wop_cf o ∈ cfs) -> c ∉ cfs ->
  get_cf (db_write d (Put c k v :: rest)) c k' =
  if bool_decide (k' = k) then Some v else get_cf d c k'.
Proof.
  intros Hr Hc. rewrite get_cf_write.
  change (batch_lookup (Put c k v :: rest) c k' (get_cf d c k'))
    with (batch_lookup rest c k' (wop_lookup c k' (get_cf d c k') (Put c k v))).
  rewrite batch_lookup_frame by by eapply no_primary_in. simpl.
  repeat case_decide; repeat case_bool_decide; first [done | exfalso; intuition congruence].
Qed.

Lemma write_slot_puts d s : puts_row s d (write_slot d s).
Proof.
  eexists; split; [done|]. intros k. apply (put_then_lookup _ _ _ _ _ _ []); set_solver.
Qed.
Lemma write_block_puts d b d' : write_block d b = Ok d' -> puts_row b d d'.
Proof.
  intros E. unfold write_block in E. destruct (encode_block b) as [v|] eqn:Ev; [|done].
  injection E as <-. exists v. split; [done|]. intros k.
  apply (put_then_lookup _ _ _ _ _ _ [IDX_BLOCK_BY_CREATOR; CF_SLOT_CANDIDATE_BLOCK]); [|set_solver].
  intros o Ho. set_unfold in Ho. destruct Ho as [->|[->|[]]]; set_solver.
Qed.
Lemma write_op_puts d o d' : write_op d o = Ok d' -> puts_row o d d'.
Proof.
  intros E. unfold write_op in E. destruct (encode_operation o) as [v|] eqn:Ev; [|done].
  injection E as <-. exists v. split; [done|]. intros k.
  apply (put_then_lookup _ _ _ _ _ _ [IDX_OP_BY_CREATOR; IDX_OP_BY_TARGET]); [|set_solver].
  intros x Hx. unfold op_index_puts in Hx.
  repeat case_match; set_unfold in Hx; destruct_or?; subst; set_solver.
Qed.
End frames.

(** A named piece of a handler off the column family at hand. *)
Ltac keeps_piece :=
  lazymatch goal with
  | |- moves _ (put_slot _) => apply put_slot_keeps; cf_notin
  | |- moves _ (read_slot_or_fresh _ _) => apply read_slot_keeps
  | |- moves _ (bump_last_final_slot _) => apply bump_keeps; cf_notin
  | |- moves _ (set_block_status _ _) => apply set_block_status_keeps; cf_notin
  | |- moves _ (apply_finality_to_blocks _ _) => apply apply_finality_keeps; cf_notin
  | |- moves _ (ensure_parent_stub _ _) => apply parent_stub_keeps; cf_notin
  | |- moves _ (reconcile_async_from_transfers _ _ _) => apply reconcile_async_keeps; cf_notin
  | |- moves _ (reconcile_deferred_from_transfers _ _ _) => apply reconcile_deferred_keeps; cf_notin
  | |- moves _ (apply_block_part _ _) => apply apply_block_part_keeps; cf_notin
  | |- moves _ (apply_exec_part _) => apply apply_exec_part_keeps; cf_notin
  | |- moves _ (apply_transfers_part _ _) => apply apply_transfers_part_keeps; cf_notin
  | |- moves _ (adopt_peer_verdict _ _ _ _) => apply adopt_keeps; cf_notin
  | |- moves _ (block_op _ _ _ _) => apply block_op_keeps; cf_notin
  | |- moves _ (replace_events _ _) => apply replace_events_keeps; cf_notin
  | |- moves _ (apply_executed_ops_changes _ _) => apply apply_executed_ops_keeps; cf_notin
  | |- moves _ (exec_ops_step _ _ _) => apply exec_ops_keeps; cf_notin
  | |- moves _ (exec_pool_step _ _ _) => apply exec_pool_keeps; cf_notin
  end.
