(* ===== verification/SlotSafety.v ===== *)
(** * How the writer moves slot rows

    First-final-wins, for every event: the verdict of a FINAL slot row, its
    trail hash, its completeness and its candidates only move forward, except
    where the chain-linkage arbiter or the operator replaces the verdict. *)

From S2P Require Import Prelude Ids Keys Model Proto Codec CodecLemmas CodecProps Store Db.
From S2P Require Import Tables NodeMsg World Reconcile Arbiter Patch Ingest WorldLogic.
From S2P Require Import HandlerFrames.

Definition status_rank (s : SlotStatus) : nat :=
  match s with SlotUnknown => 0 | SlotCandidate => 1 | SlotFinal => 2 end.

(** What no event ever undoes. *)
Definition slot_kept (s s' : SlotState) : Prop :=
  ss_slot s' = ss_slot s /\
  status_rank (ss_status s) <= status_rank (ss_status s') /\
  ss_candidate_block_ids s `prefix_of` ss_candidate_block_ids s' /\
  ss_first_seen_ts_ms s' = ss_first_seen_ts_ms s.
(** The forward moves of a row whose verdict nobody overrules. *)
Definition slot_le (s s' : SlotState) : Prop :=
  slot_kept s s' /\
  completeness_le (ss_completeness s) (ss_completeness s') /\
  (ss_status s = SlotFinal ->
   ss_is_miss s' = ss_is_miss s /\ ss_final_block_id s' = ss_final_block_id s /\
   (ss_execution_trail_hash s <> None ->
    ss_execution_trail_hash s' = ss_execution_trail_hash s)).
(** [P]: the keys whose verdict may be replaced. *)
Definition slot_moves (P : bytes -> Prop) (s s' : SlotState) : Prop :=
  slot_kept s s' /\
  (~ P (slot_key (slot_period (ss_slot s)) (slot_thread (ss_slot s))) -> slot_le s s').

#[export] Instance slot_kept_preorder : PreOrder slot_kept.
Proof.
  split; [by intros s|]. intros a b c (? & ? & ? & ?) (? & ? & ? & ?).
  unfold slot_kept; split_and!; [congruence | lia | by etransitivity | congruence].
Qed.
Lemma final_rank s s' :
  status_rank (ss_status s) <= status_rank (ss_status s') ->
  ss_status s = SlotFinal -> ss_status s' = SlotFinal.
Proof. intros Hr E. rewrite E in Hr. destruct (ss_status s'); simpl in *; done || lia. Qed.
#[export] Instance slot_le_preorder : PreOrder slot_le.
Proof.
  split; [by intros s|]. intros a b c (K1 & C1 & F1) (K2 & C2 & F2).
  split_and!; [by etransitivity | by etransitivity |]. intros E.
  destruct (F1 E) as (M1 & B1 & T1).
  destruct F2 as (M2 & B2 & T2); [eapply final_rank; [apply K1 | done]|].
  split_and!; [congruence | congruence |]. intros Hn. rewrite T2; auto. by rewrite T1.
Qed.
#[export] Instance slot_moves_preorder P : PreOrder (slot_moves P).
Proof.
  split; [by intros s|]. intros a b c [K1 L1] [K2 L2]. split; [by etransitivity|].
  intros HP. etransitivity; [by apply L1 | apply L2]. by rewrite (proj1 K1).
Qed.
Lemma slot_le_moves P s s' : slot_le s s' -> slot_moves P s s'.
Proof. intros Hs. split; [apply Hs | done]. Qed.

(** The local rewrites of the handlers, as forward moves. *)
Lemma touch_le now s : slot_le s (touch now s).
Proof. done. Qed.
Lemma push_candidate_kept bid s : slot_kept s (push_candidate bid s).
Proof.
  unfold push_candidate. case_bool_decide; [done|]. split_and!; try done. by eexists.
Qed.
Lemma push_candidate_le bid s : slot_le s (push_candidate bid s).
Proof.
  split; [apply push_candidate_kept|]. unfold push_candidate. by case_bool_decide.
Qed.
Lemma set_completeness_le f s :
  completeness_le (ss_completeness s) (f (ss_completeness s)) -> slot_le s (set_completeness f s).
Proof. intros Hf. done. Qed.
Lemma mark_body_le s : slot_le s (mark_body s).
Proof. by apply set_completeness_le. Qed.
Lemma fill_executed_le ids s : slot_le s (fill_executed_ops ids s).
Proof. unfold fill_executed_ops. by case_match. Qed.

Section slots.
Context `{Bs58, Base64, HexCrate, ProstStorage, RocksDB, DenunciationDigest, NodeEncode}.
Implicit Types (P : bytes -> Prop) (w : World) (d : DB) (s : SlotState).

(** A forward move that also keeps the row encodable. *)
Definition slot_step (R : SlotState -> SlotState -> Prop) s s' : Prop :=
  R s s' /\ (SlotState_enc s -> SlotState_enc s').
#[export] Instance slot_step_preorder R : PreOrder R -> PreOrder (slot_step R).
Proof.
  intros HR. split; [by split|]. intros a b c [R1 E1] [R2 E2].
  split; [by etransitivity | auto].
Qed.
Lemma slot_step_mono (R R' : SlotState -> SlotState -> Prop) s s' :
  (forall a b, R a b -> R' a b) -> slot_step R s s' -> slot_step R' s s'.
Proof. intros HR [Hs He]. split; auto. Qed.

Lemma touch_step now s : slot_step slot_le s (touch now s).
Proof. done. Qed.
Lemma push_candidate_enc bid s :
  Id_wf bid -> SlotState_enc s -> SlotState_enc (push_candidate bid s).
Proof.
  intros Hb (? & ? & ? & ?). unfold push_candidate. case_bool_decide; [done|].
  split_and!; simpl; try done. apply Forall_app. by rewrite Forall_singleton.
Qed.
Lemma push_candidate_step bid s : Id_wf bid -> slot_step slot_le s (push_candidate bid s).
Proof. split; [apply push_candidate_le | by apply push_candidate_enc]. Qed.
Lemma mark_body_step s : slot_step slot_le s (mark_body s).
Proof. split; [apply mark_body_le | done]. Qed.
Lemma mark_transfers_step s : slot_step slot_le s (mark_transfers s).
Proof. split; [by apply set_completeness_le | done]. Qed.

Lemma slot_norm_row s : SlotState_wf s -> slot_norm s = s.
Proof.
  intros (_ & _ & _ & Ht & _). destruct s as [? ? ? ? ? h]; unfold slot_norm; simpl in *.
  destruct h as [h|]; [|done]. f_equal. cbn. unfold constant, str_is_empty.
  rewrite bool_decide_eq_false_2; congruence.
Qed.
(** A stored row never holds an empty trail hash, so storing keeps the moves. *)
Lemma slot_le_norm s s' : SlotState_wf s -> slot_le s s' -> slot_le s (slot_norm s').
Proof.
  intros Hw (K & C & F). split_and!; [exact K | exact C |]. intros E.
  destruct (F E) as (M & B & T). split_and!; [done..|]. intros Hn.
  specialize (T Hn). destruct Hw as (_ & _ & _ & Ht & _).
  unfold slot_norm; simpl. rewrite T. destruct (ss_execution_trail_hash s) as [h|]; [|done].
  cbn. unfold constant, str_is_empty. rewrite bool_decide_eq_false_2; congruence.
Qed.
Lemma slot_moves_norm P s s' :
  SlotState_wf s -> slot_moves P s s' -> slot_moves P s (slot_norm s').
Proof. intros Hw [K L]. split; [exact K|]. intros HP. by apply slot_le_norm, L. Qed.

(** ** Reading a row, and putting its successor *)
Definition key_of (slot : Slot) : bytes := slot_key (slot_period slot) (slot_thread slot).
(** What [read_slot_or_fresh] hands out. *)
Definition slot_origin d (slot : Slot) s : Prop :=
  row_at d (key_of slot) s \/
  (get_cf d CF_SLOT (key_of slot) = None /\ exists now, s = SlotState_fresh slot now).

Lemma slot_origin_same d d' slot s :
  same_cf CF_SLOT d d' -> slot_origin d' slot s -> slot_origin d slot s.
Proof.
  intros E [Ho|[Hn Hs]]; [left | right].
  - by apply (same_cf_row_at d d').
  - by rewrite <- E.
Qed.
Lemma read_slot_Some d p t s : read_slot d p t = Ok (Some s) <-> row_at d (slot_key p t) s.
Proof. exact (tb_read_Some d (slot_key p t) s). Qed.
Lemma read_slot_None d p t : read_slot d p t = Ok None -> get_cf d CF_SLOT (slot_key p t) = None.
Proof. exact (tb_read_None (A := SlotState) d (slot_key p t)). Qed.
Lemma read_slot_or_fresh_at slot now w s w' :
  read_slot_or_fresh slot now w = (Ok s, w') -> w' = w /\ slot_origin (w_db w) slot s.
Proof.
  unfold read_slot_or_fresh. unfold mbind, ST_bind, db_read.
  destruct (read_slot _ _ _) as [[r|]|] eqn:E; simpl; intros [= <- <-]; split; [done | | done |].
  - left. by apply read_slot_Some.
  - right. split; [by apply read_slot_None in E | eauto].
Qed.
Lemma fresh_enc slot now : Slot_wf slot -> SlotState_enc (SlotState_fresh slot now).
Proof. intros Hs. by split_and!; simpl. Qed.
Lemma slot_row_wf d k s : row_at d k s -> SlotState_wf s.
Proof. intros (v & _ & Hv). exact (slot_state_decode_wf v s Hv). Qed.
Lemma slot_origin_enc d slot s : Slot_wf slot -> slot_origin d slot s -> SlotState_enc s.
Proof.
  intros Hs [Hr|[_ [now ->]]].
  - by apply SlotState_wf_enc, (slot_row_wf d (key_of slot)).
  - by apply fresh_enc.
Qed.

Lemma write_slot_le P d d' slot s s' :
  Slot_wf slot -> slot_origin d slot s -> same_cf CF_SLOT d d' ->
  slot_step (slot_moves P) s s' -> rows_le (slot_moves P) d (write_slot d' s').
Proof.
  intros Hslot Ho E [HR He]. pose proof (slot_origin_enc _ _ _ Hslot Ho) as Henc.
  assert (puts_row s' d (write_slot d' s')) as Hput.
  { destruct (write_slot_puts d' s') as (v & Hv & Hget). exists v. split; [done|].
    intros k. by rewrite Hget, E. }
  pose proof (proj1 (proj1 HR)) as Hkey. destruct Ho as [Hrow|[Hn [now ->]]].
  - eapply rmw_row_le; [apply _ | exact Hrow | | by apply He | done |].
    + simpl. by rewrite Hkey.
    + apply slot_moves_norm; [by eapply slot_row_wf | done].
  - apply (fresh_row_le _ s'); [by apply He | done |]. simpl. by rewrite Hkey.
Qed.

(** ** The shape of a handler: keep the slots, put one row, go on *)
#[local] Abbreviation sle P d d' := (rows_le (slot_moves P) d d').

Lemma bind_keeps_slot P {A B} (m : ST World A) (f : A -> ST World B) d w :
  moves (same_cf CF_SLOT) m -> same_cf CF_SLOT d (w_db w) ->
  (forall a w', m w = (Ok a, w') -> same_cf CF_SLOT d (w_db w') -> sle P d (w_db (f a w').2)) ->
  sle P d (w_db ((m ≫= f) w).2).
Proof.
  intros Hm E Hf. specialize (Hm w). change d with (w_db (mkWorld d [])). apply bind_at.
  - intros a w' Em. rewrite Em in Hm. apply Hf; [done|]. by etransitivity.
  - intros e w' Em. rewrite Em in Hm. apply (same_cf_le (A := SlotState)); [apply _|].
    by etransitivity.
Qed.
Lemma bind_read_slot P {B} slot now (f : SlotState -> ST World B) d w :
  same_cf CF_SLOT d (w_db w) ->
  (forall s, slot_origin d slot s -> sle P d (w_db (f s w).2)) ->
  sle P d (w_db ((read_slot_or_fresh slot now ≫= f) w).2).
Proof.
  intros E Hf. apply bind_keeps_slot; [apply read_slot_keeps | done |].
  intros s w' [-> Ho]%read_slot_or_fresh_at _. by apply Hf, (slot_origin_same _ (w_db w)).
Qed.
Lemma bind_put_slot P {B} slot s s' (f : unit -> ST World B) d w :
  Slot_wf slot -> slot_origin d slot s -> same_cf CF_SLOT d (w_db w) ->
  slot_step (slot_moves P) s s' ->
  (forall a, moves (rows_le (slot_moves P)) (f a)) ->
  sle P d (w_db ((put_slot s' ≫= f) w).2).
Proof.
  intros Hslot Ho E Hstep Hf. change (put_slot s' ≫= f) with (fun w => (put_slot s' ≫= f) w).
  unfold put_slot, db_do, mbind, ST_bind. etransitivity; [|apply Hf]. simpl.
  by eapply write_slot_le.
Qed.
Lemma keeps_slot_le P {A} (m : ST World A) :
  moves (same_cf CF_SLOT) m -> moves (rows_le (slot_moves P)) m.
Proof. intros Hm w. apply (same_cf_le (A := SlotState)); [apply _ | apply Hm]. Qed.

(** A stub never touches a row that is there. *)
Lemma parent_stub_le P slot now :
  Slot_wf slot -> moves (rows_le (slot_moves P)) (ensure_parent_stub slot now).
Proof.
  intros Hslot w. unfold ensure_parent_stub. case_match; [reflexivity|].
  unfold mbind, ST_bind, db_read.
  destruct (read_slot _ _ _) as [[r|]|] eqn:E; [reflexivity| |reflexivity]. simpl.
  set (prev := mkSlot _ _). eapply (write_slot_le P _ _ prev); [done | | reflexivity | reflexivity].
  right. split; [by apply read_slot_None in E | eauto].
Qed.
(** The parent of a slot on its thread. *)
Definition parent_slot (slot : Slot) : Slot := mkSlot (slot_period slot - 1) (slot_thread slot).
(** Gap closure: after the stub step the parent has a row, and the rows that
    were there are as they were. *)
Lemma parent_stub_run slot now w w' :
  ensure_parent_stub slot now w = (Ok tt, w') ->
  (slot_period slot <> 0%Z -> get_cf (w_db w') CF_SLOT (key_of (parent_slot slot)) <> None) /\
  forall k s, row_at (w_db w) k s -> row_at (w_db w') k s.
Proof.
  unfold ensure_parent_stub. destruct (Z.eqb_spec (slot_period slot) 0) as [E0|E0].
  { intros [= <-]. done. }
  intros (row & w1 & Hrow & E)%bind_Ok_inv. unfold db_read in Hrow. injection Hrow as Hrow <-.
  destruct row as [r|].
  - injection E as <-. split; [|done]. intros _. apply read_slot_Some in Hrow as (v & Hv & _).
    simpl in Hv. unfold key_of. simpl. by rewrite Hv.
  - apply read_slot_None in Hrow. injection E as <-. simpl w_db.
    destruct (write_slot_puts (w_db w) (SlotState_fresh (parent_slot slot) now)) as (v & _ & Hget).
    split.
    + intros _. simpl in Hget. unfold key_of. simpl. rewrite Hget.
      by rewrite bool_decide_eq_true_2.
    + intros k s (u & Hu & Hd). exists u. split; [|done]. simpl in Hget |- *. rewrite Hget.
      rewrite bool_decide_eq_false_2; [done|]. intros ->. simpl in Hu. congruence.
Qed.
(** A row put is read back, up to the codec's normal form. *)
Lemma put_slot_row s w w' :
  SlotState_enc s -> put_slot s w = (Ok tt, w') ->
  row_at (w_db w') (key_of (ss_slot s)) (slot_norm s).
Proof.
  intros He [= <-]. exists (encode_slot_state s). split; [|by apply slot_state_roundtrip_norm].
  destruct (write_slot_puts (w_db w) s) as (v & [= <-] & Hget). simpl in Hget |- *.
  unfold key_of. by rewrite Hget, bool_decide_eq_true_2.
Qed.
End slots.
