(* ===== verification/FirstFinal.v ===== *)
(** * First-final-wins, event by event *)

From S2P Require Import Prelude Ids Keys Model Proto Codec CodecLemmas CodecProps Store Db.
From S2P Require Import Tables NodeMsg World Reconcile Arbiter Patch Ingest WorldLogic.
From S2P Require Import HandlerFrames SlotSafety.

Section first_final.
Context `{Bs58, Base64, HexCrate, ProstStorage, RocksDB, DenunciationDigest, NodeEncode}.
Implicit Types (P : bytes -> Prop) (w : World) (d : DB) (s : SlotState).
#[local] Abbreviation sle P := (rows_le (slot_moves P)).
#[local] Abbreviation SLOT := CF_SLOT.

(** ** Values *)
Lemma node_slot_wf n : Slot_wf (node_slot n).
Proof. apply as_u8_range. Qed.
Lemma response_block_id_wf resp bid : response_block_id resp = Some bid -> Id_wf bid.
Proof.
  unfold response_block_id. case_match; [done|].
  destruct (BlockId_parse _) eqn:E; simpl; [|done]. intros [= <-]. by apply id_parse_wf in E as [].
Qed.
Lemma parsed_ids_wf {A} (f : A -> string) (l : list A) :
  Forall Id_wf (omap (fun x => ok (OperationId_parse (f x))) l).
Proof.
  apply Forall_forall. intros i (x & _ & E)%list_elem_of_omap.
  destruct (OperationId_parse (f x)) eqn:Ep; simpl in E; [|done]. injection E as <-.
  by apply id_parse_wf in Ep as [].
Qed.
Lemma fill_executed_step l s :
  slot_step slot_le s (fill_executed_ops (omap (fun e => ok (OperationId_parse (oe_operation_id e))) l) s).
Proof.
  split; [apply fill_executed_le|]. intros (? & ? & ? & ?). unfold fill_executed_ops.
  case_match; [|done]. split_and!; simpl; try done. unfold constant. apply parsed_ids_wf.
Qed.
Lemma exec_ops_step_at x fin s w s' w' :
  exec_ops_step x fin s w = (Ok s', w') -> slot_step slot_le s s'.
Proof.
  unfold exec_ops_step. case_match; [|by intros [= <- _]].
  unfold apply_executed_ops_changes, mbind, ST_bind.
  destruct (st_iter _ _ w) as [[[]|] w1]; [|done]. intros [= <- _]. apply fill_executed_step.
Qed.

(** ** Live events *)
(** Everything a put is followed by. *)
Ltac tail_le :=
  intros ?; repeat first [ apply parent_stub_le; assumption | moves_step ].

Lemma block_head_wf fb h : block_head fb = Ok h -> Id_wf (hd_block_id h) /\ Slot_wf (hd_slot h).
Proof.
  unfold block_head. intros E. invert_binds E. case_match; [done|]. invert_binds E.
  injection E as <-. split; simpl; [|apply node_slot_wf].
  match goal with Hp : map_err _ (BlockId_parse _) = _ |- _ =>
    apply map_err_ok in Hp; by apply id_parse_wf in Hp as [] end.
Qed.
Lemma raise_status_step st s :
  status_rank (ss_status s) <= status_rank st -> ss_status s <> SlotFinal ->
  slot_step slot_le s (s <| ss_status := st |>).
Proof. intros Hr Hn. split; [|done]. by split_and!. Qed.
Lemma block_slot_row_step bid now s : Id_wf bid -> slot_step slot_le s (block_slot_row bid now s).
Proof.
  intros Hb. unfold block_slot_row.
  set (s1 := touch now (mark_body (push_candidate bid s))).
  assert (slot_step slot_le s s1) as Hs1 by
    (etransitivity; [by apply push_candidate_step|];
     etransitivity; [apply mark_body_step | apply touch_step]).
  case_bool_decide as Hu; [|done]. etransitivity; [exact Hs1|].
  apply raise_status_step; rewrite Hu; simpl; [lia | done].
Qed.

Lemma handle_block_slots P fb now : moves (sle P) (handle_block fb now).
Proof.
  intros w. unfold handle_block.
  apply bind_keeps_slot; [apply (moves_lift _) | reflexivity |].
  intros h w1 Hh K1. unfold st_lift in Hh. injection Hh as Hh _.
  apply block_head_wf in Hh as [Hid Hslot].
  apply bind_keeps_slot; [frame | done |]. intros _ w2 _ K2.
  apply bind_keeps_slot; [frame | done |]. intros _ w3 _ K3.
  apply bind_keeps_slot; [moves_step; apply block_op_keeps; cf_notin | done |]. intros _ w4 _ K4.
  apply bind_read_slot; [done|]. intros s Ho.
  apply bind_keeps_slot; [frame | done |]. intros prior w5 _ K5.
  apply bind_keeps_slot; [frame | done |]. intros _ w6 _ K6.
  apply bind_keeps_slot; [frame | done |]. intros _ w7 _ K7.
  apply (bind_put_slot P (hd_slot h) s); [done..| |tail_le].
  eapply slot_step_mono; [apply slot_le_moves | by apply block_slot_row_step].
Qed.

(** ** Execution outputs *)
Lemma opt_trail_step (o : option string) s :
  ss_status s <> SlotFinal ->
  slot_step slot_le s
    match o with Some h => s <| ss_execution_trail_hash := Some h |> | None => s end.
Proof. intros Hn. destruct o; [|done]. split; [|done]. by split_and!. Qed.

(** The row a frame leaves on a slot that was not FINAL. *)
Lemma exec_final_row_enc x s : SlotState_enc s -> SlotState_enc (exec_final_row x s).
Proof.
  intros (? & ? & ? & ?). unfold exec_final_row. destruct (xo_block_id x) as [b|]; [|done]. simpl.
  destruct (BlockId_parse b) as [bid|] eqn:E; simpl; [|done].
  apply id_parse_wf in E as []. by split_and!.
Qed.
Lemma exec_final_row_fields x s :
  ss_slot (exec_final_row x s) = ss_slot s /\
  ss_status (exec_final_row x s) = ss_status s /\
  ss_candidate_block_ids (exec_final_row x s) = ss_candidate_block_ids s /\
  ss_first_seen_ts_ms (exec_final_row x s) = ss_first_seen_ts_ms s /\
  completeness_le (ss_completeness s) (ss_completeness (exec_final_row x s)).
Proof. unfold exec_final_row. by destruct (b ← xo_block_id x; ok (BlockId_parse b)). Qed.
(** While a row is not FINAL only the kept fields and the completeness bind. *)
Lemma not_final_step s s' :
  ss_status s <> SlotFinal -> ss_slot s' = ss_slot s ->
  status_rank (ss_status s) <= status_rank (ss_status s') ->
  ss_candidate_block_ids s' = ss_candidate_block_ids s ->
  ss_first_seen_ts_ms s' = ss_first_seen_ts_ms s ->
  completeness_le (ss_completeness s) (ss_completeness s') ->
  (SlotState_enc s -> SlotState_enc s') -> slot_step slot_le s s'.
Proof.
  intros Hn E1 Hr E2 E3 Hc He. split; [|done].
  split; [unfold slot_kept; by rewrite E1, E2, E3 | split; [done | by intros ?%Hn]].
Qed.

Lemma apply_exec_slots P slot x fin s now w :
  Slot_wf slot -> slot_origin (w_db w) slot s -> ss_status s <> SlotFinal ->
  sle P (w_db w) (w_db (apply_exec slot x fin s now w).2).
Proof.
  intros Hslot Ho Hn. unfold apply_exec.
  set (s1 := s <| ss_status := if fin then SlotFinal else SlotCandidate |>).
  set (s2 := match exec_trail x with
             | Some h => s1 <| ss_execution_trail_hash := Some h |> | None => s1 end).
  set (s3 := s2 <| ss_sc_event_count := exec_event_count x |>).
  set (s4 := if fin then exec_final_row x s3 else _).
  assert (slot_step slot_le s s4) as Hs4.
  { pose proof (exec_final_row_fields x s3) as (F1 & F2 & F3 & F4 & F5).
    assert (status_rank (ss_status s) <= status_rank (if fin then SlotFinal else SlotCandidate))
      by (destruct (ss_status s), fin; simpl; done || lia).
    apply not_final_step; [done|..]; subst s4 s3 s2 s1; destruct fin, (exec_trail x);
      rewrite ?F1, ?F2, ?F3, ?F4; try done;
      first [ intros Hs; by apply exec_final_row_enc | etransitivity; [|exact F5]; done ]. }
  clearbody s4.
  apply bind_keeps_slot; [apply replace_events_keeps; cf_notin | done |]. intros _ w1 _ K1.
  apply bind_keeps_slot; [| done |].
  { repeat (moves_step || (apply apply_finality_keeps; cf_notin)); frame_leaf. }
  intros _ w2 _ K2.
  apply bind_keeps_slot; [apply exec_ops_keeps; cf_notin | done |].
  intros s5 w3 Hs5%exec_ops_step_at K3.
  apply bind_keeps_slot; [moves_step; apply exec_pool_keeps; cf_notin | done |]. intros _ w4 _ K4.
  apply (bind_put_slot P slot s); [done..| |tail_le].
  eapply slot_step_mono; [apply slot_le_moves|]. etransitivity; [exact Hs4|].
  etransitivity; [exact Hs5 | apply touch_step].
Qed.

Lemma complete_final_slots P slot x s now w :
  Slot_wf slot -> slot_origin (w_db w) slot s ->
  sle P (w_db w) (w_db (complete_final_exec_from_node s x now w).2).
Proof.
  intros Hslot Ho. unfold complete_final_exec_from_node.
  set (s1 := match ss_execution_trail_hash s with
             | Some _ => s | None => s <| ss_execution_trail_hash := exec_trail x |> end).
  assert (slot_step slot_le s s1) as Hs1.
  { subst s1. destruct (ss_execution_trail_hash s) eqn:E; [done|].
    split; [|done]. by split_and!. }
  set (s2 := set_completeness _ (s1 <| ss_sc_event_count := _ |>)).
  assert (slot_step slot_le s s2) as Hs2 by (etransitivity; [exact Hs1 | done]).
  clearbody s2. clear s1 Hs1.
  apply bind_keeps_slot; [apply replace_events_keeps; cf_notin | done |]. intros _ w1 _ K1.
  apply bind_keeps_slot; [apply exec_ops_keeps; cf_notin | done |].
  intros s3 w2 Hs3%exec_ops_step_at K2.
  apply bind_keeps_slot; [apply exec_pool_keeps; cf_notin | done |]. intros _ w3 _ K3.
  apply bind_keeps_slot; [apply apply_finality_keeps; cf_notin | done |]. intros _ w4 _ K4.
  apply (bind_put_slot P slot s); [done..| |tail_le].
  eapply slot_step_mono; [apply slot_le_moves|]. etransitivity; [exact Hs2|].
  etransitivity; [exact Hs3 | apply touch_step].
Qed.

Lemma handle_exec_slots P out now : moves (sle P) (handle_exec out now).
Proof.
  intros w. unfold handle_exec.
  apply bind_keeps_slot; [apply (moves_lift _) | reflexivity |].
  intros x w1 Hx K1. injection Hx as _ ->.
  apply bind_keeps_slot; [apply (moves_lift _) | done |].
  intros sp w2 Hsp K2. injection Hsp as _ ->.
  assert (forall fin, sle P (w_db w2) (w_db ((s ← read_slot_or_fresh (node_slot sp) now;
     if bool_decide (ss_status s = SlotFinal) then
       when (fin && completes_final s x) (complete_final_exec_from_node s x now)
     else apply_exec (node_slot sp) x fin s now) w2).2)) as Hgo.
  { intros fin. apply bind_read_slot; [reflexivity|]. intros s Ho. case_bool_decide as Hf.
    - unfold when. case_match; [|reflexivity].
      eapply complete_final_slots; [apply node_slot_wf | done].
    - apply apply_exec_slots; [apply node_slot_wf | done..]. }
  destruct (frame_status out); [reflexivity | apply (Hgo false) | apply (Hgo true) | reflexivity].
Qed.

(** ** Transfers *)
Lemma handle_transfers_slots P resp now : moves (sle P) (handle_transfers resp now).
Proof.
  intros w. unfold handle_transfers.
  apply bind_keeps_slot; [apply (moves_lift _) | reflexivity |].
  intros sp w1 Hsp K1. injection Hsp as _ ->. pose proof (node_slot_wf sp) as Hslot.
  apply bind_keeps_slot; [frame | done |]. intros _ w2 _ K2.
  apply bind_keeps_slot; [unfold put_transfer; frame | done |]. intros _ w3 _ K3.
  apply bind_keeps_slot; [apply reconcile_async_keeps; cf_notin | done |]. intros _ w4 _ K4.
  apply bind_keeps_slot; [apply reconcile_deferred_keeps; cf_notin | done |]. intros _ w5 _ K5.
  apply bind_keeps_slot; [frame | done |]. intros row w6 Hrow K6.
  unfold db_read in Hrow. injection Hrow as Hrow <-. destruct row as [s|].
  - apply read_slot_Some in Hrow. case_match; [by apply (same_cf_le (A := SlotState)); [apply _|]|].
    apply (bind_put_slot P (node_slot sp) s); [done| |done| |tail_le].
    + left. by eapply (same_cf_row_at (A := SlotState) (w_db w1) (w_db w5)).
    + eapply slot_step_mono; [apply slot_le_moves|].
      etransitivity; [apply mark_transfers_step | apply touch_step].
  - apply read_slot_None in Hrow.
    apply (bind_put_slot P (node_slot sp) (SlotState_fresh (node_slot sp) now));
      [done| |done| |tail_le].
    + right. split; [|eauto]. by rewrite <- K5.
    + eapply slot_step_mono; [apply slot_le_moves | apply mark_transfers_step].
Qed.
End first_final.
