(* ===== verification/PatchSafety.v ===== *)
(** * First-final-wins under patches

    A peer patch replaces a FINAL verdict only where the arbiter proved the
    peer right; a legacy patch never; a forced verdict only at its own slot. *)

From S2P Require Import Prelude Ids Keys Model Proto Codec CodecLemmas CodecProps Store Db.
From S2P Require Import Tables NodeMsg World Reconcile Arbiter Patch Ingest WorldLogic.
From S2P Require Import HandlerFrames SlotSafety FirstFinal.

Section patch_slots.
Context `{Bs58, Base64, HexCrate, ProstStorage, RocksDB, DenunciationDigest, NodeEncode}.
Implicit Types (P : bytes -> Prop) (w : World) (d : DB) (s : SlotState).
#[local] Abbreviation sle P := (rows_le (slot_moves P)).

Lemma u8_slot_wf z t p : u8_try_from z = Some t -> Slot_wf (mkSlot p t).
Proof. by intros [-> Hu]%u8_try_from_Some. Qed.

(** ** Steps on the row *)
Lemma promote_final_step resp trail s :
  ss_status s <> SlotFinal ->
  slot_step slot_le s (promote_final resp trail (response_block_id resp) s).
Proof.
  intros Hn. unfold promote_final.
  set (s1 := s <| ss_status := SlotFinal |> <| ss_is_miss := fr_is_miss resp |>).
  set (s2 := match trail with Some t => s1 <| ss_execution_trail_hash := Some t |> | None => s1 end).
  assert (slot_step slot_le s s2) as Hs2.
  { apply not_final_step; [done|..]; subst s2 s1; destruct trail; try done;
      simpl; destruct (ss_status s); simpl; lia || done. }
  clearbody s2. case_match; [done|].
  destruct (response_block_id resp) as [bid|] eqn:Eb; [|done].
  apply response_block_id_wf in Eb. etransitivity; [|by apply push_candidate_step].
  destruct Hs2 as [(K & C & F) He]. split.
  - split_and!; try apply K; try apply C; by intros ?%Hn.
  - intros Hs. destruct (He Hs) as (? & ? & ? & ?). by split_and!.
Qed.
Lemma adopted_step resp trail s :
  slot_step slot_kept s (adopted_state resp (response_block_id resp) trail s).
Proof.
  unfold adopted_state. set (fin := if fr_is_miss resp then None else response_block_id resp).
  assert (opt_wf Id_wf fin) as Hfin.
  { subst fin. case_match; [done|]. destruct (response_block_id resp) eqn:E; [|done].
    by eapply response_block_id_wf. }
  set (s1 := s <| ss_is_miss := _ |> <| ss_final_block_id := fin |>).
  assert (slot_step slot_kept s s1) as Hs1.
  { split; [done|]. intros (? & ? & ? & ?). by split_and!. }
  clearbody s1. set (s2 := match fin with Some bid => push_candidate bid s1 | None => s1 end).
  assert (slot_step slot_kept s s2) as Hs2.
  { etransitivity; [exact Hs1|]. subst s2. destruct fin; [|done].
    eapply slot_step_mono; [|by apply push_candidate_step]. by intros ? ? []. }
  etransitivity; [exact Hs2|]. clearbody s2. split; [done|].
  intros (? & ? & ? & ?). by split_and!.
Qed.
Lemma same_verdict_trail_step trail s s' b :
  same_verdict_trail trail s = (s', b) -> slot_step slot_le s s'.
Proof.
  unfold same_verdict_trail. destruct (ss_execution_trail_hash s) eqn:E.
  - case_match; by intros [= <- _].
  - intros [= <- _]. split; [|done]. by split_and!.
Qed.
Lemma legacy_verdict_step resp s : slot_step slot_le s (legacy_verdict resp s).1.
Proof.
  unfold legacy_verdict. case_bool_decide; [|done]. by apply promote_final_step.
Qed.
Lemma legacy_ops_step resp ph : slot_step slot_le ph.1 (legacy_ops_phase resp ph).1.
Proof.
  destruct ph as [s out]. unfold legacy_ops_phase. case_match; [|done]. simpl.
  split; [done|]. intros (? & ? & ? & ?). split_and!; try done. apply parsed_ids_wf.
Qed.
Lemma peer_exec_row_step resp s : slot_step slot_le s (peer_exec_row resp s).
Proof.
  unfold peer_exec_row. case_bool_decide; [|by split].
  split; [done|]. intros (? & ? & ? & ?). split_and!; try done. apply parsed_ids_wf.
Qed.

(** ** Phases: they keep the slots and only move the row forward *)
(** An outcome's row. *)
Definition phase_step {A} (row : A -> SlotState) s (m : ST World A) : Prop :=
  moves (same_cf CF_SLOT) m /\ forall w a w', m w = (Ok a, w') -> slot_step slot_le s (row a).

Lemma apply_block_part_id resp now w b w' :
  apply_block_part resp now w = (Ok (Some b), w') -> Id_wf (bl_id b).
Proof.
  unfold apply_block_part. destruct (fr_block resp) as [pb|]; simpl; [|done].
  destruct (block_from_peer_pb pb) as [blk|] eqn:E; simpl; [|done].
  apply block_from_pb_enc in E as [Hid _].
  intros E. do 5 (apply bind_Ok_inv in E as (? & ? & _ & E)). by injection E as <- _.
Qed.

Lemma ret_phase s0 s (out : PatchOutcome) :
  slot_step slot_le s0 s -> phase_step fst s0 (mret (s, out)).
Proof. intros Hs. split; [apply (moves_ret _)|]. by intros w a w' [= <- _]. Qed.
Lemma bind_phase {A B} (row : B -> SlotState) s0 (m : ST World A) (f : A -> ST World B) :
  moves (same_cf CF_SLOT) m -> (forall a, (exists w w', m w = (Ok a, w')) -> phase_step row s0 (f a)) ->
  phase_step row s0 (m ≫= f).
Proof.
  intros Hm Hf. split.
  - intros w. apply bind_at.
    + intros a w' E. pose proof (Hm w) as Hw. rewrite E in Hw. etransitivity; [exact Hw|].
      apply Hf. eauto.
    + intros e w' E. pose proof (Hm w) as Hw. by rewrite E in Hw.
  - intros w b w'. unfold mbind, ST_bind. destruct (m w) as [[a|e] w1] eqn:E; [|done].
    apply Hf. eauto.
Qed.
Lemma chain_phase {B} s0 (m : ST World Phase) (f : Phase -> ST World B) (row : B -> SlotState) :
  phase_step fst s0 m ->
  (forall ph, slot_step slot_le s0 ph.1 -> phase_step row s0 (f ph)) ->
  phase_step row s0 (m ≫= f).
Proof.
  intros [Hm Hv] Hf. apply bind_phase; [done|]. intros ph (w & w' & E). apply Hf. by eapply Hv.
Qed.

Lemma block_part_phase resp now s0 s (f : StoredBlock -> Phase) out :
  slot_step slot_le s0 s ->
  (forall b, Id_wf (bl_id b) -> slot_step slot_le s0 (f b).1) ->
  phase_step fst s0
    (block ← apply_block_part resp now;
     match block with Some b => mret (f b) | None => mret (s, out) end).
Proof.
  intros Hs Hf. apply bind_phase; [apply apply_block_part_keeps; cf_notin|].
  intros [b|] (w & w' & E); [|by apply ret_phase].
  apply apply_block_part_id in E. destruct (f b) as [s' out'] eqn:Ef. apply ret_phase.
  specialize (Hf b E). by rewrite Ef in Hf.
Qed.
Lemma legacy_block_phase_step resp now ph : phase_step fst ph.1 (legacy_block_phase resp now ph).
Proof.
  destruct ph as [s out]. unfold legacy_block_phase. apply chain_phase.
  - case_match; [|by apply ret_phase].
    apply (block_part_phase resp now s s (fun b => (mark_body (push_candidate (bl_id b) s), _))); [done|].
    intros b Hb. simpl. etransitivity; [by apply push_candidate_step | apply mark_body_step].
  - intros [s1 out1] Hs1. apply ret_phase. case_match; [|done].
    etransitivity; [exact Hs1 | apply mark_body_step].
Qed.
Lemma peer_block_phase_step resp now ph : phase_step fst ph.1 (peer_block_phase resp now ph).
Proof.
  destruct ph as [s out]. unfold peer_block_phase. apply chain_phase.
  - case_match; [|by apply ret_phase].
    apply bind_phase; [apply apply_block_part_keeps; cf_notin|].
    intros [b|] (w & w' & E); [|by apply ret_phase]. apply apply_block_part_id in E.
    assert (slot_step slot_le s (push_candidate (bl_id b) s)) by by apply push_candidate_step.
    cbv zeta. case_match; apply ret_phase; [done|]. etransitivity; [done | apply mark_body_step].
  - intros [s1 out1] Hs1. apply ret_phase. case_match; [|done].
    etransitivity; [exact Hs1 | apply mark_body_step].
Qed.
Lemma legacy_transfers_phase_step resp ph : phase_step fst ph.1 (legacy_transfers_phase resp ph).
Proof.
  destruct ph as [s out]. unfold legacy_transfers_phase.
  apply bind_phase; [unfold put_transfer; frame|]. intros _ _. by apply ret_phase.
Qed.
Lemma peer_exec_phase_step resp ph : phase_step fst ph.1 (peer_exec_phase resp ph).
Proof.
  destruct ph as [s out]. unfold peer_exec_phase. case_match; [|by apply ret_phase].
  apply bind_phase; [apply apply_exec_part_keeps; cf_notin|]. intros _ _.
  apply ret_phase, peer_exec_row_step.
Qed.
Lemma peer_transfers_phase_step resp now ph : phase_step fst ph.1 (peer_transfers_phase resp now ph).
Proof.
  destruct ph as [s out]. unfold peer_transfers_phase. case_match; [|by apply ret_phase].
  apply bind_phase; [apply apply_transfers_part_keeps; cf_notin|]. intros _ _.
  apply ret_phase. split; [by apply set_completeness_le | done].
Qed.

(** ** The verdict step *)
(** The local row is FINAL with another verdict than the response's, and the
    arbiter sides with the response. *)
Definition arbiter_adopts d (resp : FinalSlotResponse) (slot : Slot) : bool :=
  match read_slot d (slot_period slot) (slot_thread slot) with
  | Ok (Some s) =>
      bool_decide (ss_status s = SlotFinal) &&
      match Verdict_of_local s, Verdict_of_peer resp (response_block_id resp) with
      | Some lv, Some pv =>
          bool_decide (lv <> pv) &&
          bool_decide (arbitrate_verdicts d slot lv pv
                         (pb ← fr_block resp; ok (block_from_peer_pb pb)) = Ok AdoptPeer)
      | _, _ => false
      end
  | _ => false
  end.
(** The keys whose FINAL verdict an event may replace. *)
Definition overruled d (ev : Event) (k : bytes) : Prop :=
  match ev with
  | EvPeerPatch resp =>
      exists t, u8_try_from (fr_thread resp) = Some t /\ k = slot_key (fr_period resp) t /\
                arbiter_adopts d resp (mkSlot (fr_period resp) t) = true
  | EvForcedVerdict resp =>
      exists t, u8_try_from (fr_thread resp) = Some t /\ k = slot_key (fr_period resp) t
  | _ => False
  end.

Definition step_row (v : VerdictStep) : SlotState :=
  match v with Proceed ph | Stop ph => ph.1 end.
Lemma settle_same_step trail s : slot_step slot_le s (step_row (settle_same trail s)).
Proof.
  unfold settle_same. destruct (same_verdict_trail trail s) as [s' b] eqn:E.
  apply same_verdict_trail_step in E. by destruct b.
Qed.
Lemma adopt_at s resp trail w s' w' :
  adopt_peer_verdict s resp (response_block_id resp) trail w = (Ok s', w') ->
  s' = adopted_state resp (response_block_id resp) trail s.
Proof.
  intros E. unfold adopt_peer_verdict in E.
  do 3 (apply bind_Ok_inv in E as (? & ? & _ & E)). by injection E as <- _.
Qed.
Lemma peer_verdict_keeps resp slot s : moves (same_cf CF_SLOT) (peer_verdict resp slot s).
Proof.
  unfold peer_verdict. repeat (moves_step || (apply adopt_keeps; cf_notin)).
Qed.
(** A row off the keys of [P] was not adopted. *)
Lemma peer_verdict_step P resp slot s w v w' :
  peer_verdict resp slot s w = (Ok v, w') ->
  (ss_status s = SlotFinal ->
   forall lv pv, Verdict_of_local s = Some lv ->
     Verdict_of_peer resp (response_block_id resp) = Some pv -> lv <> pv ->
     arbitrate_verdicts (w_db w) slot lv pv (pb ← fr_block resp; ok (block_from_peer_pb pb))
       = Ok AdoptPeer -> P (tb_key s)) ->
  slot_step (slot_moves P) s (step_row v).
Proof.
  intros E HP. unfold peer_verdict in E. case_bool_decide as Hf.
  { injection E as <- _. eapply slot_step_mono; [apply slot_le_moves|].
    by apply promote_final_step. }
  assert (ss_status s = SlotFinal) as HF by (destruct (ss_status s); done || (exfalso; by apply Hf)).
  assert (forall trail, slot_step (slot_moves P) s (step_row (settle_same trail s))) as Hsame.
  { intros trail. eapply slot_step_mono; [apply slot_le_moves | apply settle_same_step]. }
  destruct (Verdict_of_local s) as [lv|] eqn:El; [|by injection E as <- _].
  destruct (Verdict_of_peer _ _) as [pv|] eqn:Ep; [|by injection E as <- _].
  case_bool_decide as Hv; [by injection E as <- _|].
  apply bind_Ok_inv in E as (a & w1 & Ea & E). unfold db_read in Ea. injection Ea as Ea <-.
  destruct a; [|by injection E as <- _..].
  apply bind_Ok_inv in E as (s' & w1 & ->%adopt_at & E). injection E as <- _.
  destruct (adopted_step resp (non_empty_string (fr_execution_trail_hash resp)) s) as [K He].
  split; [split; [exact K|] | exact He]. intros Hn. exfalso. by eapply Hn, HP.
Qed.

(** ** The three patch handlers *)
#[local] Ltac tail_le :=
  intros ?; repeat first [ apply parent_stub_le; assumption | moves_step ].

Lemma apply_legacy_slots P resp now : moves (sle P) (apply_legacy_patch resp now).
Proof.
  intros w. unfold apply_legacy_patch. destruct (u8_try_from _) as [t|] eqn:Ht; [|reflexivity].
  pose proof (u8_slot_wf _ _ (fr_period resp) Ht) as Hslot.
  case_match; [reflexivity|].
  apply bind_read_slot; [reflexivity|]. intros s Ho.
  destruct (legacy_verdict resp s) as [s1 out1] eqn:Ev.
  assert (slot_step slot_le s s1) as M1 by (pose proof (legacy_verdict_step resp s); by rewrite Ev in *).
  apply bind_keeps_slot; [moves_step; apply bump_keeps; cf_notin | reflexivity |]. intros _ w1 _ K1.
  destruct (legacy_block_phase_step resp now (s1, out1)) as [Kb Vb].
  apply bind_keeps_slot; [exact Kb | done |]. intros ph2 w2 M2%Vb K2.
  pose proof (legacy_ops_step resp ph2) as M3.
  destruct (legacy_transfers_phase_step resp (legacy_ops_phase resp ph2)) as [Kt Vt].
  apply bind_keeps_slot; [exact Kt | done |]. intros [s4 out4] w3 M4%Vt K3.
  apply bind_keeps_slot; [moves_step; apply apply_finality_keeps; cf_notin | done |].
  intros _ w4 _ K4.
  apply (bind_put_slot P (mkSlot (fr_period resp) t) s); [done..| |tail_le].
  eapply slot_step_mono; [apply slot_le_moves|].
  etransitivity; [exact M1|]. etransitivity; [exact M2|]. etransitivity; [exact M3|].
  etransitivity; [exact M4 | apply touch_step].
Qed.

Lemma peer_parts_slots P resp slot now s ph d w :
  Slot_wf slot -> slot_origin d slot s -> same_cf CF_SLOT d (w_db w) ->
  slot_step (slot_moves P) s ph.1 ->
  sle P d (w_db (peer_parts resp slot now ph w).2).
Proof.
  intros Hslot Ho K0 M0. unfold peer_parts.
  apply bind_keeps_slot; [moves_step; apply bump_keeps; cf_notin | done |]. intros _ w1 _ K1.
  destruct (peer_block_phase_step resp now ph) as [Kb Vb].
  apply bind_keeps_slot; [exact Kb | done |]. intros ph2 w2 M2%Vb K2.
  destruct (peer_exec_phase_step resp ph2) as [Ke Ve].
  apply bind_keeps_slot; [exact Ke | done |]. intros ph3 w3 M3%Ve K3.
  destruct (peer_transfers_phase_step resp now ph3) as [Kt Vt].
  apply bind_keeps_slot; [exact Kt | done |]. intros [s4 out4] w4 M4%Vt K4.
  apply bind_keeps_slot; [apply apply_finality_keeps; cf_notin | done |]. intros _ w5 _ K5.
  apply (bind_put_slot P slot s); [done..| |tail_le].
  etransitivity; [exact M0|]. eapply slot_step_mono; [apply slot_le_moves|].
  etransitivity; [exact M2|]. etransitivity; [exact M3|].
  etransitivity; [exact M4 | apply touch_step].
Qed.
Lemma apply_peer_slots resp now w :
  table_ok SlotState (w_db w) ->
  sle (overruled (w_db w) (EvPeerPatch resp)) (w_db w) (w_db (apply_peer_patch resp now w).2).
Proof.
  intros Hok. unfold apply_peer_patch. destruct (u8_try_from _) as [t|] eqn:Ht; [|reflexivity].
  pose proof (u8_slot_wf _ _ (fr_period resp) Ht) as Hslot.
  case_match; [reflexivity|]. set (slot := mkSlot _ _) in *.
  apply bind_read_slot; [reflexivity|]. intros s Ho.
  apply bind_keeps_slot; [apply peer_verdict_keeps | reflexivity |]. intros v w1 Hv K1.
  eapply (peer_verdict_step (overruled (w_db w) (EvPeerPatch resp))) in Hv.
  2:{ intros HF lv pv El Ep Hne Ha. exists t. split; [done|].
      destruct Ho as [Hrow|[_ [? ->]]]; [|done].
      rewrite <- (Hok _ _ Hrow). split; [done|].
      unfold arbiter_adopts. apply (read_slot_Some _ (fr_period resp) t) in Hrow.
      cbn [slot_period slot_thread]. rewrite Hrow, bool_decide_eq_true_2 by done. rewrite El, Ep.
      by rewrite !bool_decide_eq_true_2. }
  destruct v as [ph|[s1 out]].
  - by eapply peer_parts_slots.
  - apply (bind_put_slot _ slot s); [done..| |tail_le].
    etransitivity; [exact Hv|]. eapply slot_step_mono; [apply slot_le_moves | apply touch_step].
Qed.

Lemma apply_forced_slots resp now w :
  table_ok SlotState (w_db w) ->
  sle (overruled (w_db w) (EvForcedVerdict resp)) (w_db w)
    (w_db (apply_forced_verdict resp now w).2).
Proof.
  intros Hok. unfold apply_forced_verdict. destruct (u8_try_from _) as [t|] eqn:Ht; [|reflexivity].
  pose proof (u8_slot_wf _ _ (fr_period resp) Ht) as Hslot. set (slot := mkSlot _ _) in *.
  apply bind_read_slot; [reflexivity|]. intros s Ho.
  apply bind_keeps_slot; [apply (moves_lift _) | reflexivity |]. intros target w1 _ K1.
  case_bool_decide; [by apply (same_cf_le (A := SlotState)); [apply _|]|].
  apply bind_keeps_slot; [apply adopt_keeps; cf_notin | done |].
  intros s1 w2 ->%adopt_at K2.
  apply bind_keeps_slot; [apply apply_finality_keeps; cf_notin | done |]. intros _ w3 _ K3.
  destruct (adopted_step resp (non_empty_string (fr_execution_trail_hash resp)) s)
    as [(K & Kr & Kc & Kt) He].
  apply (bind_put_slot _ slot s); [done..| |tail_le].
  split; [split|exact He].
  - split_and!; try done. simpl. destruct (ss_status s); simpl; lia.
  - intros Hn. destruct Ho as [Hrow|[_ [? ->]]].
    + exfalso. apply Hn. exists t. split; [done | symmetry; exact (Hok _ _ Hrow)].
    + exfalso. by apply Hn; exists t.
Qed.
End patch_slots.
