(* ===== verification/RowSafety.v ===== *)
(** * How the writer moves operation and block rows

    Every event: an operation keeps its body, its FINAL execution status once
    it has one, and its inclusion sites; a block keeps its header, and never
    becomes a candidate again. *)

From S2P Require Import Prelude Ids Keys Model Proto Codec CodecLemmas CodecProps Store Db.
From S2P Require Import Tables NodeMsg World Reconcile Arbiter Patch Ingest WorldLogic.
From S2P Require Import HandlerFrames SlotSafety FirstFinal PatchSafety.

(** ** Operations *)
(** The part of an operation no event changes. *)
Definition op_core (o : StoredOperation) : StoredOperation :=
  o <| op_thread := 0%Z |> <| op_inclusions := [] |> <| op_candidate_exec_status := None |>
    <| op_final_exec_status := None |>.
Definition op_le (o o' : StoredOperation) : Prop :=
  op_core o' = op_core o /\
  op_inclusions o `prefix_of` op_inclusions o' /\
  (forall st, op_final_exec_status o = Some st -> op_final_exec_status o' = Some st).
#[export] Instance op_le_preorder : PreOrder op_le.
Proof.
  split; [by intros o|]. intros a b c (E1 & P1 & F1) (E2 & P2 & F2).
  split_and!; [congruence | by etransitivity | auto].
Qed.

(** ** Blocks *)
Definition block_core (b : StoredBlock) : StoredBlock :=
  b <| bl_operation_ids := [] |> <| bl_endorsements := [] |> <| bl_endorsement_ids := [] |>
    <| bl_denunciations := [] |> <| bl_status := SeenCandidate |>.
Definition block_le (b b' : StoredBlock) : Prop :=
  block_core b' = block_core b /\
  (bl_operation_ids b <> [] -> bl_operation_ids b' = bl_operation_ids b) /\
  (bl_status b <> SeenCandidate -> bl_status b' <> SeenCandidate).
#[export] Instance block_le_preorder : PreOrder block_le.
Proof.
  split; [by intros b|]. intros a b c (E1 & O1 & S1) (E2 & O2 & S2).
  split_and!; [congruence | | auto]. intros Hn. rewrite O2; auto. by rewrite O1.
Qed.

Section rows.
Context `{Bs58, Base64, HexCrate, ProstStorage, RocksDB, DenunciationDigest, NodeEncode}.
Implicit Types (w : World) (d : DB).

Lemma moves_bind_val R `{!PreOrder R} {A B} (m : ST World A) (f : A -> ST World B) :
  moves R m -> (forall a, (exists w w', m w = (Ok a, w')) -> moves R (f a)) -> moves R (m ≫= f).
Proof.
  intros Hm Hf w. apply bind_at.
  - intros a w' E. specialize (Hm w). rewrite E in Hm. etransitivity; [exact Hm | apply Hf; eauto].
  - intros e w' E. specialize (Hm w). by rewrite E in Hm.
Qed.
Lemma keeps_moves {A} `{!Table A} (R : A -> A -> Prop) `{!PreOrder R} {X} (m : ST World X) :
  moves (same_cf (tb_cf A)) m -> moves (rows_le R) m.
Proof. intros Hm w. apply (same_cf_le (A := A)); [apply _ | apply Hm]. Qed.

(** ** Operation rows *)
Lemma read_op_Some d (id : OperationId) o : read_op d id = Ok (Some o) <-> row_at d (id_as_bytes id) o.
Proof. exact (tb_read_Some d (id_as_bytes id) o). Qed.
Lemma read_op_None d (id : OperationId) : read_op d id = Ok None -> get_cf d CF_OP (id_as_bytes id) = None.
Proof. exact (tb_read_None (A := StoredOperation) d (id_as_bytes id)). Qed.
Lemma op_row_enc d k (o : StoredOperation) : row_at d k o -> StoredOperation_enc o.
Proof. exact (row_at_wf d k o). Qed.

Lemma op_update_le d (id : OperationId) o o' d' :
  row_at d (id_as_bytes id) o -> op_id o' = op_id o ->
  (StoredOperation_enc o -> StoredOperation_enc o') -> op_le o o' ->
  write_op d o' = Ok d' -> rows_le op_le d d'.
Proof.
  intros Hr Eid He Hle Hw.
  eapply rmw_row_le; [apply _ | exact Hr | simpl; by rewrite Eid | | by apply write_op_puts | done].
  by eapply He, op_row_enc.
Qed.
Lemma op_insert_le d o d' :
  get_cf d CF_OP (id_as_bytes (op_id o)) = None -> StoredOperation_enc o ->
  write_op d o = Ok d' -> rows_le op_le d d'.
Proof. intros Hn He Hw. apply (fresh_row_le op_le o); [done | by apply write_op_puts | done]. Qed.

(** The read-modify-write of one operation. *)
Lemma op_rmw_moves {B} (id : OperationId) (f : option StoredOperation -> ST World B) :
  (forall o d, row_at d (id_as_bytes id) o -> forall sse, rows_le op_le d (w_db (f (Some o) (mkWorld d sse)).2)) ->
  (forall d, get_cf d CF_OP (id_as_bytes id) = None ->
     forall sse, rows_le op_le d (w_db (f None (mkWorld d sse)).2)) ->
  moves (rows_le op_le) (db_read (fun d => read_op d id) ≫= f).
Proof.
  intros HS HN. apply (moves_read_at _). intros d [o|] sse E.
  - by apply HS, read_op_Some.
  - by apply HN, read_op_None.
Qed.

Lemma op_exec_update_le fin st o o' :
  op_exec_update fin st o = Some o' ->
  op_le o o' /\ op_id o' = op_id o /\ (StoredOperation_enc o -> StoredOperation_enc o').
Proof.
  unfold op_exec_update. destruct fin.
  - destruct (op_final_exec_status o) eqn:E; [done|]. intros [= <-].
    split_and!; [split_and!; [by destruct o | done | by rewrite E] | by destruct o | done].
  - case_bool_decide; [done|]. intros [= <-].
    split_and!; [split_and!; [by destruct o | done | done] | by destruct o | done].
Qed.
Lemma apply_executed_op_moves fin e : moves (rows_le op_le) (apply_executed_op fin e).
Proof.
  unfold apply_executed_op. case_match; [|moves_step]. case_match.
  apply op_rmw_moves.
  - intros o d Hr sse. simpl. destruct (op_exec_update fin _ o) as [o'|] eqn:E; [|reflexivity].
    apply op_exec_update_le in E as (Hle & Hid & He). apply (do_last_at _).
    intros d' Hw. by eapply op_update_le.
  - intros d Hn sse. reflexivity.
Qed.

Lemma merge_op_le local op :
  StoredOperation_enc op ->
  op_le local (merge_op local op) /\ op_id (merge_op local op) = op_id local /\
  (StoredOperation_enc local -> StoredOperation_enc (merge_op local op)).
Proof.
  intros (_ & _ & _ & _ & Hi). unfold merge_op.
  destruct local as [? ? ? ? ? ? ? incs cand fin]; simpl.
  destruct (negb (is_some fin) && is_some (op_final_exec_status op)) eqn:Ef; simpl;
    case_match eqn:Ei; simpl; unfold constant;
    (split_and!; [split_and!; simpl; try done | done | intros (? & ? & ? & ? & ?); by split_and!]).
  all: try (apply andb_true_iff in Ef as [Ef _]; by destruct fin).
  all: apply andb_true_iff in Ei as [Ei%bool_decide_eq_true _]; subst; apply prefix_nil.
Qed.

Lemma operation_from_peer_enc p o : operation_from_peer_pb p = Ok o -> StoredOperation_enc o.
Proof. apply decode_operation_enc. Qed.
Lemma apply_peer_op_moves op :
  StoredOperation_enc op -> moves (rows_le op_le) (apply_peer_op op).
Proof.
  intros He. unfold apply_peer_op. apply op_rmw_moves.
  - intros o d Hr sse. unfold when. case_match; [|reflexivity]. apply (do_last_at _).
    intros d' Hw. destruct (merge_op_le o op He) as (Hle & Hid & Hm). by eapply op_update_le.
  - intros d Hn sse. apply (do_last_at _). intros d' Hw. by eapply op_insert_le.
Qed.

Lemma new_operation_enc op_id signed slot now o :
  Id_wf op_id -> Slot_wf slot -> new_operation op_id signed slot now = Ok o ->
  StoredOperation_enc o /\ Model.op_id o = op_id.
Proof.
  intros Hid Hslot E. unfold new_operation in E. apply result_bind_ok in E as (c & _ & E).
  destruct (classify_op (no_op c)) as [[kind target] details] eqn:Ec.
  apply result_bind_ok in E as (a & Ha%map_err_ok & E). injection E as <-.
  apply Address_parse_wf in Ha as [Ha _]. split; [|done].
  split_and!; simpl; [done | by apply Address_wf_enc | | done | constructor].
  assert (forall s, opt_wf Address_enc (parse_addr s)) as Hp.
  { intros s. unfold parse_addr. destruct (Address_parse s) eqn:Es; simpl; [|done].
    apply Address_parse_wf in Es as [Es _]. by apply Address_wf_enc. }
  unfold classify_op in Ec. repeat case_match; simplify_eq; try done; apply Hp.
Qed.
Lemma record_inclusion_le inc slot o :
  op_le o (record_inclusion inc (o <| op_thread := slot_thread slot |>)) /\
  op_id (record_inclusion inc (o <| op_thread := slot_thread slot |>)) = op_id o.
Proof.
  unfold record_inclusion. case_bool_decide.
  - split; [|by destruct o]. split_and!; [by destruct o | done | done].
  - split; [|by destruct o]. split_and!; [by destruct o | by eexists | done].
Qed.
Lemma record_inclusion_enc inc slot o :
  OperationInclusion_wf inc -> Slot_wf slot -> StoredOperation_enc o ->
  StoredOperation_enc (record_inclusion inc (o <| op_thread := slot_thread slot |>)).
Proof.
  intros Hi Hs (? & ? & ? & ? & ?). unfold record_inclusion. case_bool_decide.
  - by split_and!.
  - split_and!; try done. simpl. apply Forall_app. by rewrite Forall_singleton.
Qed.
Lemma filled_op_id_wf fo signed op_id : filled_op_id fo = Some (signed, op_id) -> Id_wf op_id.
Proof.
  unfold filled_op_id. destruct (fo_operation fo); simpl; [|done]. case_match; [done|].
  destruct (OperationId_parse _) eqn:E; simpl; [|done]. intros [= _ <-].
  by apply id_parse_wf in E as [].
Qed.
Lemma block_op_moves bid slot now fo :
  Id_wf bid -> Slot_wf slot -> moves (rows_le op_le) (block_op bid slot now fo).
Proof.
  intros Hb Hs. unfold block_op. destruct (filled_op_id fo) as [[signed id]|] eqn:Ef; [|moves_step].
  apply filled_op_id_wf in Ef. assert (OperationInclusion_wf (mkInclusion slot bid)) by done.
  apply op_rmw_moves.
  - intros o d Hr sse. unfold mret, ST_ret, mbind at 1, ST_bind at 1.
    set (o' := record_inclusion _ _).
    destruct (record_inclusion_le (mkInclusion slot bid) slot o) as [Hle Hid].
    apply (do_at _); [|intros; moves_step]. intros d' Hw.
    eapply op_update_le; [done | exact Hid | by apply record_inclusion_enc | exact Hle | exact Hw].
  - intros d Hn sse. unfold st_lift, mbind at 1, ST_bind at 1.
    destruct (new_operation id signed slot now) as [o|] eqn:En; [|reflexivity].
    apply new_operation_enc in En as [He Hid]; [|done..].
    destruct (record_inclusion_le (mkInclusion slot bid) slot o) as [_ Hid'].
    apply (do_at _); [|intros; moves_step]. intros d' Hw.
    eapply op_insert_le; [|by apply record_inclusion_enc | exact Hw]. by rewrite Hid', Hid.
Qed.

#[local] Ltac off_cf := apply keeps_moves; [apply _|]; keeps_piece.
#[local] Ltac rows_leaf :=
  match goal with
  | |- rows_le (A := ?A) ?R ?d ?d' =>
      apply (same_cf_le (A := A) R); simpl tb_cf; frame_leaf
  end.

Lemma exec_ops_moves x fin s : moves (rows_le op_le) (exec_ops_step x fin s).
Proof.
  unfold exec_ops_step, apply_executed_ops_changes.
  repeat (moves_step || apply apply_executed_op_moves).
Qed.
Lemma block_part_ops resp now : moves (rows_le op_le) (apply_block_part resp now).
Proof.
  unfold apply_block_part.
  repeat (moves_step ||
    lazymatch goal with |- moves _ (apply_peer_op _) =>
      apply apply_peer_op_moves; by eapply operation_from_peer_enc end);
    rows_leaf.
Qed.
#[local] Ltac off_op :=
  lazymatch goal with
  | |- moves _ (exec_ops_step _ _ _) => apply exec_ops_moves
  | |- moves _ (apply_block_part _ _) => apply block_part_ops
  | |- _ => off_cf
  end.
Lemma handle_block_ops fb now : moves (rows_le op_le) (handle_block fb now).
Proof.
  unfold handle_block. apply moves_bind_val; [apply _ | apply (moves_lift _) |].
  intros h (w & w' & Hh). injection Hh as Hh _. apply block_head_wf in Hh as [Hid Hslot].
  repeat first
    [ lazymatch goal with |- moves _ (block_op _ _ _ _) => by apply block_op_moves end
    | off_cf | moves_step ];
    rows_leaf.
Qed.
Lemma handle_exec_ops out now : moves (rows_le op_le) (handle_exec out now).
Proof.
  unfold handle_exec, complete_final_exec_from_node, apply_exec, when.
  repeat (off_op || moves_step); rows_leaf.
Qed.
Lemma handle_transfers_ops resp now : moves (rows_le op_le) (handle_transfers resp now).
Proof. unfold handle_transfers, put_transfer. repeat (off_cf || moves_step); rows_leaf. Qed.
Lemma apply_legacy_ops resp now : moves (rows_le op_le) (apply_legacy_patch resp now).
Proof.
  unfold apply_legacy_patch, legacy_block_phase, legacy_transfers_phase, put_transfer.
  repeat (off_op || moves_step); rows_leaf.
Qed.
Lemma apply_peer_ops resp now : moves (rows_le op_le) (apply_peer_patch resp now).
Proof.
  unfold apply_peer_patch, peer_verdict, peer_parts, peer_block_phase, peer_exec_phase,
    peer_transfers_phase.
  repeat (off_op || moves_step); rows_leaf.
Qed.
Lemma apply_forced_ops resp now : moves (rows_le op_le) (apply_forced_verdict resp now).
Proof. unfold apply_forced_verdict. repeat (off_cf || moves_step); rows_leaf. Qed.

(** ** Block rows *)
Lemma read_block_Some d (id : BlockId) b :
  read_block d id = Ok (Some b) <-> row_at d (id_as_bytes id) b.
Proof. exact (tb_read_Some d (id_as_bytes id) b). Qed.
Lemma read_block_None d (id : BlockId) :
  read_block d id = Ok None -> get_cf d CF_BLOCK (id_as_bytes id) = None.
Proof. exact (tb_read_None (A := StoredBlock) d (id_as_bytes id)). Qed.
Lemma block_update_le d (id : BlockId) b b' d' :
  row_at d (id_as_bytes id) b -> bl_id b' = bl_id b ->
  (StoredBlock_enc b -> StoredBlock_enc b') -> block_le b b' ->
  write_block d b' = Ok d' -> rows_le block_le d d'.
Proof.
  intros Hr Eid He Hle Hw.
  eapply rmw_row_le; [apply _ | exact Hr | simpl; by rewrite Eid | | by apply write_block_puts | done].
  exact (He (row_at_wf d (id_as_bytes id) b Hr)).
Qed.
Lemma block_insert_le d b d' :
  get_cf d CF_BLOCK (id_as_bytes (bl_id b)) = None -> StoredBlock_enc b ->
  write_block d b = Ok d' -> rows_le block_le d d'.
Proof. intros Hn He Hw. apply (fresh_row_le block_le b); [done | by apply write_block_puts | done]. Qed.
Lemma block_rmw_moves {B} (id : BlockId) (f : option StoredBlock -> ST World B) :
  (forall b d, row_at d (id_as_bytes id) b ->
     forall sse, rows_le block_le d (w_db (f (Some b) (mkWorld d sse)).2)) ->
  (forall d, get_cf d CF_BLOCK (id_as_bytes id) = None ->
     forall sse, rows_le block_le d (w_db (f None (mkWorld d sse)).2)) ->
  moves (rows_le block_le) (db_read (fun d => read_block d id) ≫= f).
Proof.
  intros HS HN. apply (moves_read_at _). intros d [b|] sse E.
  - by apply HS, read_block_Some.
  - by apply HN, read_block_None.
Qed.

Lemma set_block_status_moves bid st :
  st <> SeenCandidate -> moves (rows_le block_le) (set_block_status bid st).
Proof.
  intros Hst. unfold set_block_status. apply block_rmw_moves; [|reflexivity].
  intros b d Hr sse. case_bool_decide; [reflexivity|]. apply (do_last_at _).
  intros d' Hw. apply (block_update_le d bid b (b <| bl_status := st |>) d'); [done | by destruct b | done | | done].
  split_and!; [by destruct b | done | done].
Qed.
Lemma apply_finality_moves fin cands :
  moves (rows_le block_le) (apply_finality_to_blocks fin cands).
Proof.
  unfold apply_finality_to_blocks.
  repeat (moves_step || (apply set_block_status_moves; try case_bool_decide; done)).
Qed.

Lemma node_endorsements_enc l bid slot now :
  Slot_wf slot ->
  Forall StoredEndorsement_enc (omap (fun se => node_decode_endorsement se bid slot now) l).
Proof.
  intros Hs. apply Forall_forall. intros e (se & _ & E)%list_elem_of_omap.
  unfold node_decode_endorsement, parse_addr in E.
  destruct (se_content se) as [c|]; simpl in E; [|done].
  destruct (ne_slot c) as [sp|]; simpl in E; [|done].
  destruct (Address_parse _) eqn:Ea; simpl in E; [|done]. injection E as <-.
  apply Address_parse_wf in Ea as [Ea _].
  split_and!; simpl; [apply node_slot_wf | by apply Address_wf_enc | done].
Qed.
Lemma decode_denunciation_wf x : StoredDenunciation_wf (decode_denunciation x).
Proof.
  unfold decode_denunciation.
  assert (forall s : option NodeSlot, Slot_wf (default (mkSlot 0 0) (node_slot <$> s))) as Hs.
  { intros [s|]; simpl; [apply node_slot_wf | by unfold Slot_wf, u8_ok]. }
  destruct (nd_entry x) as [[]|]; simpl; auto.
Qed.
Lemma block_operation_ids_wf fb : Forall Id_wf (block_operation_ids fb).
Proof.
  apply Forall_forall. intros i (fo & _ & E)%list_elem_of_omap.
  destruct (filled_op_id fo) as [[signed id]|] eqn:Ef; simpl in E; [|done].
  injection E as <-. by eapply filled_op_id_wf.
Qed.
Lemma new_block_enc h ops endos dens st now fb :
  block_head fb = Ok h -> Forall Id_wf ops -> Forall StoredEndorsement_enc endos ->
  Forall StoredDenunciation_wf dens ->
  StoredBlock_enc (new_block h ops endos dens st now) /\
  bl_id (new_block h ops endos dens st now) = hd_block_id h.
Proof.
  intros Hh Ho He Hd. split; [|done]. destruct (block_head_wf fb h Hh) as [Hid Hslot].
  assert (Address_enc (hd_creator h)) as Ha.
  { unfold block_head in Hh. invert_binds Hh. case_match; [done|]. invert_binds Hh.
    injection Hh as <-. simpl.
    match goal with Hp : map_err _ (Address_parse _) = _ |- _ =>
      apply map_err_ok in Hp; apply Address_parse_wf in Hp as [Hp _]; by apply Address_wf_enc end. }
  split_and!; try done. simpl. apply Forall_forall. intros i (p & _ & E)%list_elem_of_omap.
  destruct (BlockId_parse p) eqn:Ep; simpl in E; [|done]. injection E as <-.
  by apply id_parse_wf in Ep as [].
Qed.
Lemma merge_block_le b ops endos dens st :
  Forall Id_wf ops -> Forall StoredEndorsement_enc endos -> Forall StoredDenunciation_wf dens ->
  block_le b (merge_block b ops endos dens st) /\
  (StoredBlock_enc b -> StoredBlock_enc (merge_block b ops endos dens st)).
Proof.
  intros Ho He Hd. split.
  - unfold merge_block. split_and!; [by destruct b | |]; simpl; unfold constant; intros Hn.
    + by rewrite bool_decide_eq_false_2.
    + by rewrite bool_decide_eq_false_2.
  - intros (? & ? & ? & ? & ? & ? & ?). split_and!; try done.
    simpl. unfold constant. by case_bool_decide.
Qed.

Lemma block_part_blocks resp now : moves (rows_le block_le) (apply_block_part resp now).
Proof.
  unfold apply_block_part. destruct (fr_block resp) as [pb|]; simpl; [|moves_step].
  destruct (block_from_peer_pb pb) as [b|] eqn:Eb; simpl; [|moves_step].
  apply block_from_pb_enc in Eb. apply block_rmw_moves.
  - intros b' d Hr sse.
    refine (moves_bind _ _ _ _ _ (mkWorld d sse)); [moves_step | intros _].
    1: done.
    unfold apply_peer_op. repeat moves_step; rows_leaf.
  - intros d Hn sse. simpl. apply (do_at _).
    + intros d' Hw. by eapply block_insert_le.
    + intros _. unfold apply_peer_op. repeat moves_step; rows_leaf.
Qed.

Lemma adopt_blocks s resp pb trail :
  moves (rows_le block_le) (adopt_peer_verdict s resp pb trail).
Proof. unfold adopt_peer_verdict. repeat (moves_step || (apply set_block_status_moves; done)); rows_leaf. Qed.
#[local] Ltac off_cf' :=
  lazymatch goal with
  | |- moves _ (apply_finality_to_blocks _ _) => apply apply_finality_moves
  | |- moves _ (set_block_status _ _) => apply set_block_status_moves; done
  | |- moves _ (apply_block_part _ _) => apply block_part_blocks
  | |- moves _ (adopt_peer_verdict _ _ _ _) => apply adopt_blocks
  | |- _ => off_cf
  end.

Lemma handle_block_blocks fb now : moves (rows_le block_le) (handle_block fb now).
Proof.
  unfold handle_block. apply moves_bind_val; [apply _ | apply (moves_lift _) |].
  intros h (w & w' & Hh). injection Hh as Hh _.
  destruct (block_head_wf fb h Hh) as [Hid Hslot].
  pose proof (node_endorsements_enc (bh_endorsements (hd_content h)) (hd_block_id h)
                (hd_slot h) now Hslot) as Hend.
  set (endos := omap _ _) in *.
  assert (Forall StoredDenunciation_wf (decode_denunciation <$> bh_denunciations (hd_content h)))
    as Hden by (apply Forall_fmap, Forall_true; intros; apply decode_denunciation_wf).
  pose proof (block_operation_ids_wf fb) as Hops.
  refine (moves_bind _ _ _ _ _); [repeat moves_step; rows_leaf | intros _].
  refine (moves_bind _ _ _ _ _); [repeat moves_step; rows_leaf | intros _].
  refine (moves_bind _ _ _ _ _); [repeat (off_cf || moves_step) | intros _].
  refine (moves_bind _ _ _ _ _); [off_cf | intros s].
  apply block_rmw_moves.
  - intros b d Hr sse. destruct (merge_block_le b (block_operation_ids fb) endos _
      (initial_block_status s (hd_block_id h)) Hops Hend Hden) as [Hle He].
    apply (do_at _); [|intros; repeat (off_cf || moves_step)].
    intros d' Hw.
    eapply (block_update_le d (hd_block_id h) b (merge_block b _ _ _ _));
      [exact Hr | by destruct b | exact He | exact Hle | exact Hw].
  - intros d Hn sse.
    destruct (new_block_enc h (block_operation_ids fb) endos _
      (initial_block_status s (hd_block_id h)) now fb Hh Hops Hend Hden) as [He Eid].
    apply (do_at _); [|intros; repeat (off_cf || moves_step)].
    intros d' Hw. eapply block_insert_le; [|exact He | exact Hw]. by rewrite Eid.
Qed.
Lemma handle_exec_blocks out now : moves (rows_le block_le) (handle_exec out now).
Proof.
  unfold handle_exec, complete_final_exec_from_node, apply_exec, when.
  repeat (off_cf' || moves_step); rows_leaf.
Qed.
Lemma handle_transfers_blocks resp now : moves (rows_le block_le) (handle_transfers resp now).
Proof. unfold handle_transfers, put_transfer. repeat (off_cf' || moves_step); rows_leaf. Qed.
Lemma apply_legacy_blocks resp now : moves (rows_le block_le) (apply_legacy_patch resp now).
Proof.
  unfold apply_legacy_patch, legacy_block_phase, legacy_transfers_phase, put_transfer.
  repeat (off_cf' || moves_step); rows_leaf.
Qed.
Lemma apply_peer_blocks resp now : moves (rows_le block_le) (apply_peer_patch resp now).
Proof.
  unfold apply_peer_patch, peer_verdict, peer_parts, peer_block_phase, peer_exec_phase,
    peer_transfers_phase.
  repeat (off_cf' || moves_step); rows_leaf.
Qed.
Lemma apply_forced_blocks resp now : moves (rows_le block_le) (apply_forced_verdict resp now).
Proof.
  unfold apply_forced_verdict. repeat (off_cf' || moves_step); rows_leaf.
Qed.
End rows.
