(* ===== verification/SlotReplace.v ===== *)
(** * Replacing the rows of a slot

    handle_exec and handle_transfers (src/massa-indexer/src/ingest.rs) rewrite
    a slot's events and transfers wholesale: wipe, then write the new rows.
    What the store holds afterwards, for any family of DbSlotRows.v. *)

From S2P Require Import Prelude Ids Keys Model Proto Codec CodecLemmas Store Db DbUpsert DbSlotRows.
From S2P Require Import World Reconcile Arbiter Patch NodeMsg Ingest WorldLogic Tables HandlerFrames.

Section replace.
Context `{RocksDB} {R : Type} `{SlotRow R}.
Implicit Types (d : DB) (r : R) (s : Slot).

Fixpoint slot_writes d (rows : list R) : result Error DB :=
  match rows with
  | [] => Ok d
  | r :: rows' => d' ← slot_write d r; slot_writes d' rows'
  end.

Lemma slot_writes_spec d rows :
  slot_rows_ok d -> slot_index_exact d -> Forall sr_wf rows -> NoDup (sr_key <$> rows) ->
  (forall r, r ∈ rows -> get_cf d sr_primary (sr_key r) = None) ->
  exists d', slot_writes d rows = Ok d' /\ slot_rows_ok d' /\ slot_index_exact d' /\
    (forall x, stored d' x <-> x ∈ rows \/ stored d x).
Proof.
  intros Hok Hidx Hw Hn Hf. revert d Hok Hidx Hf.
  induction rows as [|r rows IH]; intros d Hok Hidx Hf.
  { exists d. split_and!; [done..|]. intros x. set_solver. }
  apply Forall_cons in Hw as [Hr Hw]. rewrite fmap_cons in Hn. apply NoDup_cons in Hn as [Hnr Hn].
  destruct (slot_write_spec d r Hok Hidx Hr (Hf r ltac:(by left))) as (d1 & E1 & Hok1 & Hidx1 & Hs1 & _).
  destruct (IH Hw Hn d1 Hok1 Hidx1) as (d2 & E2 & Hok2 & Hidx2 & Hs2).
  { intros x Hx. destruct (get_cf d1 sr_primary (sr_key x)) as [raw|] eqn:G; [|done].
    destruct (Hok1 _ _ G) as (y & Hy & Ek & _). assert (stored d1 y) as [->|[raw' [G' _]]]%Hs1.
    - exists raw. by rewrite <- Ek.
    - exfalso. apply Hnr. rewrite <- Ek. by apply list_elem_of_fmap_2.
    - rewrite <- Ek, Hf in G' by by right. done. }
  exists d2. simpl. rewrite E1. simpl. rewrite E2. split_and!; [done..|].
  intros x. rewrite Hs2, Hs1, elem_of_cons. tauto.
Qed.

(** Rows of one slot with distinct indexes have distinct keys. *)
Lemma slot_keys_distinct s rows :
  Forall sr_wf rows -> Forall (fun r => sr_slot r = s) rows -> NoDup (sr_index <$> rows) ->
  NoDup (sr_key <$> rows).
Proof.
  intros Hw Hs Hn. rewrite Forall_forall in Hw.
  induction rows as [|r rows IH]; [constructor|]. rewrite fmap_cons in *.
  apply NoDup_cons in Hn as [Hnr Hn]. apply Forall_cons in Hs as [Hr Hs].
  constructor; [|apply IH; [set_solver|done|done]].
  intros (x & Ek & Hx)%list_elem_of_fmap. apply Hnr, list_elem_of_fmap. exists x. split; [|done].
  pose proof (sr_key_coord r (Hw r ltac:(set_solver))) as C1.
  pose proof (sr_key_coord x (Hw x ltac:(set_solver))) as C2. rewrite Ek, C2 in C1. congruence.
Qed.

(** Wipe the slot, write the rows. *)
Lemma slot_replace_spec d s rows :
  slot_rows_ok d -> slot_index_exact d -> Slot_ok s -> Forall sr_wf rows ->
  Forall (fun r => sr_slot r = s) rows -> NoDup (sr_index <$> rows) ->
  exists d', slot_writes (slot_clear d (slot_period s) (slot_thread s)) rows = Ok d' /\
    slot_rows_ok d' /\ slot_index_exact d' /\
    (forall x, stored d' x <-> x ∈ rows \/ (stored d x /\ sr_slot x <> s)).
Proof.
  intros Hok Hidx Hs Hw Hrs Hn.
  destruct (slot_clear_spec d s Hok Hidx Hs) as (Hok1 & Hidx1 & Hst & _).
  destruct (slot_writes_spec _ rows Hok1 Hidx1 Hw) as (d' & E & Hok' & Hidx' & Hst').
  - by eapply slot_keys_distinct.
  - intros r Hr. destruct (get_cf _ _ (sr_key r)) as [raw|] eqn:G; [|done]. exfalso.
    destruct (Hok1 _ _ G) as (y & Hy & Ek & Hwy).
    assert (stored (slot_clear d (slot_period s) (slot_thread s)) y) as Hy'
      by (exists raw; by rewrite <- Ek).
    apply Hst in Hy' as [_ Hns]. apply Hns.
    rewrite Forall_forall in Hw, Hrs. rewrite <- (Hrs r Hr).
    pose proof (sr_key_coord r (Hw r Hr)) as C1. pose proof (sr_key_coord y Hwy) as C2.
    rewrite Ek, C2 in C1. injection C1 as E1 E2 _.
    destruct (sr_slot y), (sr_slot r); simpl in *. congruence.
  - exists d'. split_and!; [done..|]. intros x. by rewrite Hst', Hst.
Qed.

(** Stores that agree on a family hold the same rows and indexes. *)
Lemma slot_family_same d d' :
  slot_rows_ok d -> slot_index_exact d ->
  (forall c, c ∈ sr_primary :: sr_indexes -> same_cf c d d') ->
  slot_rows_ok d' /\ slot_index_exact d' /\ (forall x, stored d' x <-> stored d x).
Proof.
  intros Hok Hidx Hs.
  assert (forall k, get_cf d' sr_primary k = get_cf d sr_primary k) as Hp by (apply Hs; by left).
  assert (forall x, stored d' x <-> stored d x) as Hst by (intros x; unfold stored; by rewrite Hp).
  split_and!; [|intros cf k Hcf|done].
  - intros k raw. rewrite Hp. apply Hok.
  - rewrite (Hs cf) by by right. rewrite (Hidx cf k Hcf). setoid_rewrite Hst. done.
Qed.
End replace.

(** The loops of the handlers are [slot_writes]. *)
Section loops.
Context `{Bs58, Base64, HexCrate, ProstStorage, RocksDB, DenunciationDigest, NodeEncode}.

Lemma put_transfers_run rows (w : World) d :
  slot_writes (R := StoredTransfer) (w_db w) rows = Ok d ->
  st_iter put_transfer rows w = (Ok tt, mkWorld d (w_sse w)).
Proof.
  revert w. induction rows as [|r rows IH]; intros w E; simpl in *.
  - injection E as <-. by destruct w.
  - exact (IH (mkWorld (write_transfer (w_db w) r) (w_sse w)) E).
Qed.
Lemma replace_events_run slot evs (w : World) d :
  slot_writes (R := StoredScEvent)
    (slot_clear (R := StoredScEvent) (w_db w) (slot_period slot) (slot_thread slot)) evs = Ok d ->
  replace_events slot evs w = (Ok tt, mkWorld d (w_sse w ++ (EventSeen <$> evs))).
Proof.
  rewrite <- clear_sc_events_alt. unfold replace_events. unfold mbind at 1, ST_bind at 1, db_do at 1.
  set (d0 := clear_sc_events_for_slot _ _ _). cbv beta iota.
  assert (forall d1 sse, slot_writes d1 evs = Ok d ->
    st_iter (fun ev => db_do (fun d => write_sc_event d ev) ;; broadcast (EventSeen ev)) evs
      (mkWorld d1 sse) = (Ok tt, mkWorld d (sse ++ (EventSeen <$> evs)))) as L; [|by apply L].
  clear d0. induction evs as [|e evs IH]; intros d1 sse E; cbn [slot_writes mbind result_bind] in E.
  - injection E as <-. simpl. by rewrite app_nil_r.
  - cbn [st_iter]. unfold mbind at 1, ST_bind at 1, mbind at 1, ST_bind at 1, db_do at 1.
    cbn [w_db w_sse]. change (write_sc_event d1 e) with (slot_write d1 e).
    destruct (slot_write d1 e) as [d2|]; [|done].
    cbn [broadcast w_db w_sse]. rewrite (IH d2) by done. by rewrite <- app_assoc.
Qed.
End loops.
