(* ===== verification/TransferProps.v ===== *)
(** * The transfers of a slot

    handle_transfers (src/massa-indexer/src/ingest.rs): what its two passes
    compute, and what the store holds after it. *)

From S2P Require Import Prelude Ids Keys Model Proto Codec CodecLemmas Store Db DbUpsert DbSlotRows.
From S2P Require Import World Reconcile Arbiter Patch NodeMsg Ingest WorldLogic Tables HandlerFrames.
From S2P Require Import SlotReplace.

(** ** The specification of the passes *)

(** The transfers that carry a value. *)
Definition carries_value (t : ExecTransferInfo) : Prop := is_zero_value (node_value t) = false.
#[export] Instance carries_value_dec t : Decision (carries_value t).
Proof. apply _. Defined.

(** What a row says about the active operation: a row with an operation id
    starts that operation, a boundary row ends it, others say nothing. *)
Definition op_anchor (r : StoredTransfer) : option (option string) :=
  match tr_operation_id r with
  | Some op => Some (Some op)
  | None => if is_boundary r then Some None else None
  end.
(** The operation active after the rows [l]: the nearest anchor's. *)
Definition active_op (l : list StoredTransfer) : option string := mjoin (last (omap op_anchor l)).
(** A child transfer without its own id inherits the active operation. *)
Definition inherits (r : StoredTransfer) : bool :=
  negb (is_some (tr_operation_id r)) && negb (is_boundary r) && is_op_child_origin (tr_origin r).
Definition attributed (l : list StoredTransfer) (i : nat) (r : StoredTransfer) : StoredTransfer :=
  if inherits r then r <| tr_operation_id := active_op (take i l) |> else r.

Section passes.
Implicit Types (r : StoredTransfer) (l : list StoredTransfer) (t : ExecTransferInfo).

Lemma set_op_id r o : tr_operation_id r = o -> r <| tr_operation_id := o |> = r.
Proof. by destruct r; simpl; intros ->. Qed.

Lemma attribute_ops_from l0 l :
  attribute_ops (active_op l0) l = imap (fun i r => attributed (l0 ++ l) (length l0 + i) r) l.
Proof.
  revert l0; induction l as [|r l IH]; intros l0; [done|].
  assert (imap (fun i r' => attributed (l0 ++ r :: l) (length l0 + S i) r') l =
          attribute_ops (active_op (l0 ++ [r])) l) as Etl.
  { rewrite IH. apply imap_ext. intros i x _. rewrite length_app, <- app_assoc. simpl.
    f_equal. lia. }
  cbn [attribute_ops imap]. unfold compose. rewrite Etl. rewrite Nat.add_0_r.
  assert (active_op (l0 ++ [r]) = default (active_op l0) (op_anchor r)) as ->.
  { unfold active_op. rewrite omap_app. simpl. destruct (op_anchor r); simpl.
    - by rewrite last_snoc.
    - by rewrite app_nil_r. }
  unfold attributed, inherits, op_anchor. rewrite take_app_length.
  destruct (tr_operation_id r) as [op|] eqn:Eop; [done|]. simpl.
  destruct (is_boundary r); [done|]. simpl.
  destruct (is_op_child_origin (tr_origin r)); [|done].
  destruct (active_op l0) as [op|] eqn:Ea; simpl; rewrite ?Ea; [done|].
  f_equal. symmetry. by apply (set_op_id r None).
Qed.

Lemma attribute_ops_all l : attribute_ops None l = imap (attributed l) l.
Proof. apply (attribute_ops_from []). Qed.

(** C11. Pass 2 of handle_transfers is the attribution rule: a child transfer that
    names no operation gets that of the nearest earlier row that names one,
    unless a reward, async, deferred or denunciation row lies between; every
    other row is unchanged. *)
Theorem attribute_ops_nearest l :
  attribute_ops None l = imap (attributed l) l.
Proof. apply attribute_ops_all. Qed.

Lemma transfer_rows_from slot resp now_ms (l : list ExecTransferInfo) n :
  u32_ok n -> (n + Z.of_nat (length l) < 2 ^ 32)%Z ->
  transfer_rows slot resp now_ms n l =
  imap (fun i t => transfer_row slot resp now_ms (n + Z.of_nat i) t) (filter carries_value l).
Proof.
  revert n; induction l as [|t l IH]; intros n Hn Hl; [done|]. simpl length in Hl.
  cbn [transfer_rows].
  destruct (is_zero_value (node_value t)) eqn:Ez.
  - rewrite filter_cons_False by (unfold carries_value; by rewrite Ez). apply IH; [done|lia].
  - rewrite filter_cons_True by done. simpl. rewrite Z.add_0_r. f_equal.
    unfold as_u32. rewrite Z.mod_small by (unfold u32_ok in *; lia).
    rewrite IH by (unfold u32_ok in *; lia). apply imap_ext. intros i x _. simpl. f_equal. lia.
Qed.

(** Pass 1 keeps exactly the transfers that carry a value, in order, and
    numbers them densely from zero. *)
Lemma transfer_rows_dense slot resp now_ms (l : list ExecTransferInfo) :
  (Z.of_nat (length l) < 2 ^ 32)%Z ->
  transfer_rows slot resp now_ms 0 l =
  imap (fun i t => transfer_row slot resp now_ms (Z.of_nat i) t) (filter carries_value l).
Proof. intros Hl. by apply transfer_rows_from. Qed.
End passes.

Section handler.
Context `{Bs58, Base64, HexCrate, ProstStorage, RocksDB, DenunciationDigest, NodeEncode}.

(** The rows of a frame. *)
Definition frame_rows (resp : TransfersResponse) (slot : Slot) (now_ms : Z) : list StoredTransfer :=
  attribute_ops None (transfer_rows slot resp now_ms 0 (tr_resp_transfers_info resp)).
(** A frame as the wire can carry it: field widths, and a count that fits. *)
Definition frame_ok (resp : TransfersResponse) (sp : NodeSlot) : Prop :=
  tr_resp_slot resp = Some sp /\ u64_ok (ns_period sp) /\
  (Z.of_nat (length (tr_resp_transfers_info resp)) < 2 ^ 32)%Z /\
  Forall (fun t => (- 2 ^ 31 <= ti_origin t < 2 ^ 31)%Z) (tr_resp_transfers_info resp).

Lemma coin_origin_not_other0 code :
  (- 2 ^ 31 <= code < 2 ^ 31)%Z -> coin_origin_from_i32 code <> OtherOrigin 0.
Proof.
  intros Hc. unfold coin_origin_from_i32. destruct (_ && _) eqn:E.
  - unfold coin_origin_of_kind. repeat (case_match; try done).
  - intros [= E0]. unfold as_u32 in E0.
    apply andb_false_iff in E. destruct (Z.le_gt_cases 0 code).
    + rewrite Z.mod_small in E0 by lia. lia.
    + rewrite <- (Z_mod_plus_full code 1), Z.mod_small in E0 by lia. lia.
Qed.
Lemma node_slot_ok sp : u64_ok (ns_period sp) -> Slot_ok (node_slot sp).
Proof. intros Hp. split; [done|]. apply as_u8_range. Qed.

Lemma frame_rows_lookup resp sp now_ms i r :
  frame_ok resp sp -> frame_rows resp (node_slot sp) now_ms !! i = Some r ->
  tr_slot r = node_slot sp /\ tr_index_in_slot r = Z.of_nat i /\
  i < length (tr_resp_transfers_info resp) /\ tr_origin r <> OtherOrigin 0.
Proof.
  intros (_ & Hp & Hl & Ho) E. unfold frame_rows in E.
  rewrite attribute_ops_all, transfer_rows_from, !list_lookup_imap in E by done.
  destruct (filter _ _ !! i) as [t|] eqn:Et; [|done]. simpl in E. injection E as <-.
  assert (t ∈ tr_resp_transfers_info resp) as Ht
    by by apply list_elem_of_lookup_2, list_elem_of_filter in Et as [_ ?].
  assert (i < length (tr_resp_transfers_info resp)) as Hi.
  { apply lookup_lt_Some in Et. pose proof (length_filter carries_value (tr_resp_transfers_info resp)).
    lia. }
  rewrite Forall_forall in Ho. pose proof (coin_origin_not_other0 _ (Ho t Ht)).
  unfold attributed. by case_match.
Qed.
Lemma frame_rows_wf resp sp now_ms :
  frame_ok resp sp ->
  Forall sr_wf (frame_rows resp (node_slot sp) now_ms) /\
  Forall (fun r => sr_slot r = node_slot sp) (frame_rows resp (node_slot sp) now_ms) /\
  NoDup (sr_index <$> frame_rows resp (node_slot sp) now_ms).
Proof.
  intros Hok. pose proof (fun i r => frame_rows_lookup resp sp now_ms i r Hok) as HL.
  destruct Hok as (_ & Hp & Hl & _). split_and!.
  - apply Forall_lookup_2. intros i r Hr. destruct (HL i r Hr) as (Es & Ei & Hi & Ho).
    split; [split; [rewrite Es; by apply node_slot_ok | done]|]. rewrite Ei. unfold u32_ok. lia.
  - apply Forall_lookup_2. intros i r Hr. by apply (HL i r Hr).
  - apply NoDup_alt. intros i j x Hi Hj. rewrite list_lookup_fmap in Hi, Hj.
    destruct (_ !! i) as [r|] eqn:Er in Hi; [|done]. destruct (_ !! j) as [r'|] eqn:Er' in Hj; [|done].
    apply HL in Er as (_ & Ei & _), Er' as (_ & Ej & _). simpl in Hi, Hj. unfold sr_index in *.
    simpl in *. injection Hi as Hi. injection Hj as Hj. lia.
Qed.

(** After the rows are written the handler leaves the transfer families alone. *)
Lemma transfers_tail c resp sp now_ms (w : World) d1 :
  c ∈ transfer_cfs -> tr_resp_slot resp = Some sp ->
  slot_writes (clear_transfers_for_slot (w_db w) (ns_period sp) (as_u8 (ns_thread sp)))
    (frame_rows resp (node_slot sp) now_ms) = Ok d1 ->
  same_cf c d1 (w_db (handle (EvTransfers resp) now_ms w)).
Proof.
  intros Hc Esp E1. unfold handle. cbn [dispatch]. unfold handle_transfers. rewrite Esp.
  rewrite (bind_run (st_lift _) _ w sp w) by reflexivity.
  set (w0 := mkWorld (clear_transfers_for_slot (w_db w) (ns_period sp) (as_u8 (ns_thread sp))) (w_sse w)).
  rewrite (bind_run (db_do _) _ w tt w0) by reflexivity.
  rewrite (bind_run (st_iter put_transfer _) _ w0 tt (mkWorld d1 (w_sse w)))
    by by apply (put_transfers_run _ w0).
  assert (c ∉ async_cfs /\ c ∉ deferred_cfs /\ c ∉ slot_cfs) as (Ha & Hd & Hs).
  { unfold transfer_cfs in Hc. rewrite !elem_of_cons, elem_of_nil in Hc.
    destruct Hc as [->|[->|[->|[->|[]]]]]; split_and!; cf_notin. }
  match goal with |- same_cf _ _ (w_db (?m _).2) => assert (moves (same_cf c) m) as Hm end;
    [|exact (Hm (mkWorld d1 (w_sse w)))].
  repeat (moves_step || by apply reconcile_async_keeps || by apply reconcile_deferred_keeps
          || by apply put_slot_keeps).
Qed.

(** C10. Whatever a transfers frame's handler returns, the store then holds for
    the frame's slot exactly the rows of its two passes, other slots' transfers
    are as before, and the address, operation and block indexes are exact. *)
Theorem handle_transfers_replaces resp sp now_ms (w : World) :
  frame_ok resp sp ->
  slot_rows_ok (R := StoredTransfer) (w_db w) -> slot_index_exact (R := StoredTransfer) (w_db w) ->
  let d' := w_db (handle (EvTransfers resp) now_ms w) in
  slot_rows_ok (R := StoredTransfer) d' /\ slot_index_exact (R := StoredTransfer) d' /\
  forall t, stored d' t <->
    t ∈ frame_rows resp (node_slot sp) now_ms \/
    (stored (w_db w) t /\ tr_slot t <> node_slot sp).
Proof.
  intros Hf Hok Hidx d'. destruct (frame_rows_wf resp sp now_ms Hf) as (Hw & Hs & Hn).
  destruct Hf as (Esp & Hp & _).
  destruct (slot_replace_spec (w_db w) (node_slot sp) _ Hok Hidx (node_slot_ok sp Hp) Hw Hs Hn)
    as (d1 & E1 & Hok1 & Hidx1 & Hst1).
  assert (forall c, c ∈ transfer_cfs -> same_cf c d1 d') as Hsame.
  { intros c Hc. apply (transfers_tail c resp sp now_ms w d1 Hc Esp).
    rewrite <- clear_transfers_alt in E1. exact E1. }
  destruct (slot_family_same d1 d') as (Hok' & Hidx' & Hst'); [done..| |].
  { intros c Hc. apply Hsame. unfold transfer_cfs. set_solver. }
  split_and!; [done..|]. intros t. by rewrite Hst', Hst1.
Qed.
End handler.
