(* ===== verification/ExecProps.v ===== *)
(** * Execution outputs

    handle_exec (src/massa-indexer/src/ingest.rs) on every branch: what a
    frame changes nothing for, and what a FINAL frame leaves in the store. *)

From S2P Require Import Prelude Ids Keys Model Proto Codec CodecLemmas CodecProps Store Text Db.
From S2P Require Import DbUpsert DbSlotRows Tables NodeMsg World Reconcile Arbiter Patch Ingest.
From S2P Require Import WorldLogic HandlerFrames SlotSafety FirstFinal SlotReplace.

(** Splits a computation that succeeded into its successful steps. *)
Ltac st_invert E :=
  let a := fresh "a" in let w1 := fresh "w" in let E1 := fresh "E" in
  apply bind_Ok_inv in E as (a & w1 & E1 & E); try st_invert E.

Section exec.
Context `{Bs58, Base64, HexCrate, ProstStorage, RocksDB, DenunciationDigest, NodeEncode}.
Implicit Types (w : World) (d : DB) (s : SlotState) (x : ExecutionOutput).

(** The frame [out] is about the slot [sp] with output [x]. *)
Definition exec_frame (out : SlotExecutionOutput) x (sp : NodeSlot) : Prop :=
  so_execution_output out = Some x /\ xo_slot x = Some sp.
(** The block a frame names, and the verdict it carries. *)
Definition frame_block x : option BlockId := b ← xo_block_id x; ok (BlockId_parse b).
Definition contradicts s x : Prop :=
  (exists h h', ss_execution_trail_hash s = Some h /\ exec_trail x = Some h' /\ h <> h') \/
  ss_is_miss s <> negb (is_some (xo_block_id x)) \/
  (ss_is_miss s = false /\ frame_block x <> ss_final_block_id s).

Lemma contradicts_not_completing s x : contradicts s x -> completes_final s x = false.
Proof.
  intros Hc. unfold completes_final. destruct Hc as [(h & h' & E & E' & Hne)|[Hm|[Hm Hb]]].
  - unfold trails_differ. rewrite E, E'. by rewrite bool_decide_eq_true_2.
  - apply andb_false_intro1, andb_false_intro2. unfold same_verdict.
    destruct (ss_is_miss s), (is_some (xo_block_id x)); simpl in *; done.
  - apply andb_false_intro1, andb_false_intro2. unfold same_verdict. rewrite Hm. simpl.
    apply andb_false_intro2. by apply bool_decide_eq_false_2.
Qed.

(** C6. A settled slot ignores what does not complete it: a candidate frame, a
    FINAL frame with another trail hash, miss flag or block, and a FINAL frame
    for a slot that already has its execution output leave the store and the
    event stream untouched. *)
Theorem handle_exec_ignored out x sp now_ms w s :
  exec_frame out x sp ->
  read_slot (w_db w) (ns_period sp) (as_u8 (ns_thread sp)) = Ok (Some s) ->
  ss_status s = SlotFinal ->
  (frame_status out <> XsFinal \/ contradicts s x \/ exec_output_final (ss_completeness s) = true) ->
  handle (EvExec out) now_ms w = w.
Proof.
  intros [Ex Es] Hr HF Hc. unfold handle. cbn [dispatch]. unfold handle_exec.
  rewrite Ex. rewrite (bind_run (st_lift _) _ w x w) by done.
  rewrite Es. rewrite (bind_run (st_lift _) _ w sp w) by done.
  assert (read_slot_or_fresh (node_slot sp) now_ms w = (Ok s, w)) as Hread.
  { unfold read_slot_or_fresh, mbind, ST_bind, db_read. cbn [node_slot slot_period slot_thread].
    by rewrite Hr. }
  destruct (frame_status out) eqn:Ef; [done| | |done];
    rewrite (bind_run _ _ w s w) by done; rewrite bool_decide_eq_true_2 by done; [done|].
  destruct Hc as [?|Hc]; [done|]. assert (completes_final s x = false) as ->; [|done].
  destruct Hc as [Hc|Hc]; [by apply contradicts_not_completing|].
  unfold completes_final. rewrite Hc. by rewrite andb_false_r.
Qed.
(** ** A FINAL frame on an open slot *)

(** What the row says after the frame. *)
Definition settled_by x s : Prop :=
  ss_status s = SlotFinal /\ ss_is_miss s = negb (is_some (xo_block_id x)) /\
  (forall b, frame_block x = Some b -> ss_final_block_id s = Some b) /\
  (forall h, exec_trail x = Some h -> h <> "" -> ss_execution_trail_hash s = Some h) /\
  ss_sc_event_count s = exec_event_count x /\ exec_output_final (ss_completeness s) = true.

Lemma settled_norm x s : settled_by x s -> settled_by x (slot_norm s).
Proof.
  intros (Hs & Hm & Hb & Ht & Hc & Hf). split_and!; try done. intros h Eh Hh. simpl.
  cbn. unfold constant. rewrite (Ht h Eh Hh). simpl. unfold str_is_empty.
  by rewrite bool_decide_eq_false_2.
Qed.
Lemma exec_final_row_settled x s :
  ss_status s = SlotFinal -> ss_sc_event_count s = exec_event_count x ->
  (forall h, exec_trail x = Some h -> ss_execution_trail_hash s = Some h) ->
  settled_by x (exec_final_row x s).
Proof.
  intros Hs Hc Ht. unfold exec_final_row, settled_by, frame_block.
  destruct (b ← xo_block_id x; ok (BlockId_parse b)) as [bid|]; simpl; split_and!; auto.
  by intros b [= ->].
Qed.
Lemma settled_step x l now s :
  settled_by x s -> settled_by x (touch now (fill_executed_ops l s)).
Proof. unfold fill_executed_ops. by case_match. Qed.

Lemma exec_events_wf slot status x :
  Slot_ok slot -> (Z.of_nat (length (xo_events x)) < 2 ^ 32)%Z ->
  Forall sr_wf (exec_events slot status x) /\
  Forall (fun r => sr_slot r = slot) (exec_events slot status x) /\
  NoDup (sr_index <$> exec_events slot status x).
Proof.
  intros Hs Hl.
  assert (forall i e, exec_events slot status x !! i = Some e ->
            event_row_wf e /\ ev_slot e = slot /\ ev_index_in_slot e = Z.of_nat i) as HL.
  { intros i e E. unfold exec_events in E. rewrite list_lookup_imap in E.
    destruct (xo_events x !! i) as [xe|] eqn:Ex; [|done]. simpl in E.
    apply lookup_lt_Some in Ex as Hi.
    assert (as_u32 (Z.of_nat i) = Z.of_nat i) as Ei by (unfold as_u32; rewrite Z.mod_small; lia).
    assert (forall l, Forall Address_enc (omap parse_addr l)) as Hall.
    { intros l. apply Forall_forall. intros a (y & _ & Ey)%list_elem_of_omap. unfold parse_addr in Ey.
      destruct (Address_parse y) eqn:Ep; [|done]. injection Ey as <-.
      by apply Address_wf_enc, (Address_parse_wf y). }
    destruct (extract_event_context xe) as [[ems cas] oid] eqn:Ec. injection E as <-. rewrite Ei.
    split_and!; [|done..]. split; [|simpl; unfold u32_ok; lia].
    unfold extract_event_context in Ec. destruct (xe_context xe) as [ctx|]; injection Ec as <- <- <-;
      [|by split_and!; simpl]. specialize (Hall (ec_call_stack ctx)).
    split_and!; simpl; [done| | |].
    - destruct (last _) eqn:El; constructor; [|constructor]. rewrite Forall_forall in Hall.
      by apply Hall, last_Some_elem_of.
    - destruct (omap _ _); simpl; constructor; [|constructor]. by apply Forall_cons in Hall as [].
    - destruct (ec_origin_operation_id ctx) as [o|]; simpl; [|done].
      destruct (OperationId_parse o) eqn:Eo; simpl; [|done]. by apply id_parse_wf in Eo as []. }
  split_and!.
  - apply Forall_lookup_2. intros i e E. by apply (HL i e).
  - apply Forall_lookup_2. intros i e E. by apply (HL i e).
  - apply NoDup_alt. intros i j n Hi Hj. rewrite list_lookup_fmap in Hi, Hj.
    destruct (_ !! i) as [e|] eqn:Ei in Hi; [|done]. destruct (_ !! j) as [e'|] eqn:Ej in Hj; [|done].
    apply HL in Ei as (_ & _ & Ei), Ej as (_ & _ & Ej). simpl in Hi, Hj. unfold sr_index in *.
    simpl in *. injection Hi as Hi. injection Hj as Hj. lia.
Qed.
(** Everything the handler does after it replaced the events. *)
Definition exec_tail slot x now_ms s : ST World unit :=
  (db_do (fun d => Ok (update_last_final_slot d slot)) ;;
   apply_finality_to_blocks (ss_final_block_id s) (ss_candidate_block_ids s)) ;;
  s ← exec_ops_step x true s;
  exec_pool_step x slot now_ms ;;
  put_slot (touch now_ms s) ;;
  ensure_parent_stub slot now_ms ;;
  broadcast (SlotFinalEvent (touch now_ms s)) ;;
  broadcast (SlotUpdated (touch now_ms s)).

Lemma exec_tail_keeps c slot x now_ms s :
  c ∈ event_cfs -> moves (same_cf c) (exec_tail slot x now_ms s).
Proof.
  intros Hc. unfold event_cfs in Hc. rewrite !elem_of_cons, elem_of_nil in Hc.
  destruct Hc as [->|[->|[->|[->|[]]]]]; unfold exec_tail;
    repeat (moves_step || keeps_piece); frame_leaf.
Qed.
Lemma exec_ops_step_run x fin s w s' w' :
  exec_ops_step x fin s w = (Ok s', w') -> exists l, s' = fill_executed_ops l s.
Proof.
  unfold exec_ops_step. case_match.
  - unfold apply_executed_ops_changes, mbind, ST_bind.
    destruct (st_iter _ _ w) as [[[]|] w1]; [|done]. intros [= <- _]. eauto.
  - intros [= <- _]. exists []. unfold fill_executed_ops. by rewrite bool_decide_eq_true_2.
Qed.
Lemma exec_tail_run slot x now_ms s w w' :
  Slot_wf slot -> SlotState_enc s -> settled_by x s -> key_of (ss_slot s) = key_of slot ->
  exec_tail slot x now_ms s w = (Ok tt, w') ->
  (exists s', row_at (w_db w') (key_of slot) s' /\ settled_by x s') /\
  read_last_final_slot (w_db w') = Ok (Some slot) /\
  (slot_period slot <> 0%Z -> get_cf (w_db w') CF_SLOT (key_of (parent_slot slot)) <> None).
Proof.
  intros Hslot Henc Hset Hkey E. unfold exec_tail in E.
  apply bind_Ok_inv in E as ([] & w2 & E2 & E).
  assert (same_cf CF_META (update_last_final_slot (w_db w) slot) (w_db w')) as Hmeta.
  { match type of E with ?m _ = _ => assert (moves (same_cf CF_META) m) as Hm end;
      [repeat (moves_step || keeps_piece)|].
    apply bind_Ok_inv in E2 as ([] & w1 & [= <-] & E2).
    eapply keeps_after; [exact Hm | exact E |].
    eapply keeps_after; [|exact E2|reflexivity]. keeps_piece. }
  apply bind_Ok_inv in E as (s1 & w3 & E3 & E).
  apply bind_Ok_inv in E as ([] & w4 & _ & E).
  apply bind_Ok_inv in E as ([] & w5 & E5 & E).
  apply bind_Ok_inv in E as ([] & w6 & E6 & E). injection E as <-. simpl w_db.
  pose proof (exec_ops_step_at _ _ _ _ _ _ E3) as [_ Henc1].
  apply exec_ops_step_run in E3 as (l & ->).
  apply put_slot_row in E5; [|by apply Henc1].
  apply parent_stub_run in E6 as [Hpar Hrows]. split_and!; [|simpl in Hmeta|exact Hpar].
  - eexists. split; [apply Hrows|].
    + assert (ss_slot (touch now_ms (fill_executed_ops l s)) = ss_slot s) as El
        by (unfold fill_executed_ops; by case_match).
      rewrite El, Hkey in E5. exact E5.
    + by apply settled_norm, settled_step.
  - unfold read_last_final_slot, read_row. rewrite Hmeta. unfold update_last_final_slot.
    rewrite (put_then_lookup _ _ _ _ _ _ []) by set_solver.
    rewrite bool_decide_eq_true_2 by done. by rewrite slot_row_roundtrip.
Qed.

(** C5. A FINAL frame settles an open slot. When its handler succeeds, the slot row
    reads back FINAL with the frame's miss flag, block, trail hash and event
    count, its execution output complete; the last-final marker names the slot;
    its parent on the thread has a row, so that no gap goes unseen; and the
    slot's events are exactly the frame's, the indexes exact. *)
Theorem handle_exec_settles out x sp now_ms w w' :
  exec_frame out x sp -> frame_status out = XsFinal ->
  u64_ok (ns_period sp) -> (Z.of_nat (length (xo_events x)) < 2 ^ 32)%Z ->
  table_ok SlotState (w_db w) ->
  slot_rows_ok (R := StoredScEvent) (w_db w) -> slot_index_exact (R := StoredScEvent) (w_db w) ->
  (forall s, read_slot (w_db w) (ns_period sp) (as_u8 (ns_thread sp)) = Ok (Some s) ->
    ss_status s <> SlotFinal) ->
  dispatch (EvExec out) now_ms w = (Ok tt, w') ->
  let slot := node_slot sp in
  (exists s, read_slot (w_db w') (slot_period slot) (slot_thread slot) = Ok (Some s) /\
    settled_by x s) /\
  read_last_final_slot (w_db w') = Ok (Some slot) /\
  (slot_period slot <> 0%Z -> read_slot (w_db w') (slot_period slot - 1) (slot_thread slot) <> Ok None) /\
  slot_index_exact (R := StoredScEvent) (w_db w') /\
  (forall ev, stored (w_db w') ev <->
    ev ∈ exec_events slot SlotFinal x \/ (stored (w_db w) ev /\ ev_slot ev <> slot)).
Proof.
  intros [Ex Es] Hst Hp Hl Htab Hok Hidx Hopen E slot.
  assert (Slot_ok slot) as Hslot by (split; [done | apply as_u8_range]).
  destruct (exec_events_wf slot SlotFinal x Hslot Hl) as (Hw & Hsl & Hn).
  destruct (slot_replace_spec (w_db w) slot _ Hok Hidx Hslot Hw Hsl Hn)
    as (d1 & E1 & Hok1 & Hidx1 & Hst1).
  cbn [dispatch] in E. unfold handle_exec in E. rewrite Ex in E.
  rewrite (bind_run (st_lift _) _ w x w) in E by done. rewrite Es in E.
  rewrite (bind_run (st_lift _) _ w sp w) in E by done. fold slot in E. rewrite Hst in E.
  apply bind_Ok_inv in E as (s & w1 & [-> Ho]%read_slot_or_fresh_at & E).
  rewrite bool_decide_eq_false_2 in E.
  2:{ destruct Ho as [Hrow|[_ [n ->]]]; [|done]. by apply (Hopen s), read_slot_Some. }
  assert (SlotState_enc s) as Henc by (eapply slot_origin_enc, Ho; apply Hslot).
  assert (key_of (ss_slot s) = key_of slot) as Hkey.
  { destruct Ho as [Hrow|[_ [n ->]]]; [|done]. symmetry. exact (Htab _ _ Hrow). }
  unfold apply_exec in E.
  set (s1 := match exec_trail x with Some h => _ | None => _ end) in E.
  assert (ss_status s1 = SlotFinal /\ ss_slot s1 = ss_slot s /\ SlotState_enc s1 /\
    forall h, exec_trail x = Some h -> ss_execution_trail_hash s1 = Some h) as (S1 & S2 & S3 & S4).
  { subst s1. destruct (exec_trail x); split_and!; (done || by intros h [= ->]). }
  rewrite S1 in E. rewrite (bind_run (replace_events _ _) _ w tt _ (replace_events_run _ _ _ _ E1)) in E.
  set (w1 := mkWorld d1 _) in E. cbv zeta in E.
  set (s2 := exec_final_row x _) in E.
  change (exec_tail slot x now_ms s2 w1 = (Ok tt, w')) in E.
  destruct (exec_tail_run slot x now_ms s2 w1 w') as (Hrow & Hlast & Hpar); [apply Hslot|..|done|].
  { by apply exec_final_row_enc. }
  { by apply exec_final_row_settled. }
  { subst s2. etransitivity; [|exact Hkey]. f_equal.
    etransitivity; [apply (proj1 (exec_final_row_fields x _)) | exact S2]. }
  destruct (slot_family_same (R := StoredScEvent) d1 (w_db w')) as (_ & Hidx' & Hst'); [done..| |].
  { intros c Hc. eapply keeps_after; [by apply (exec_tail_keeps c) | exact E | reflexivity]. }
  split_and!; [|done| |done|].
  - destruct Hrow as (s' & Hrow & Hs'). exists s'. split; [by apply read_slot_Some | done].
  - intros Hz Hr. apply read_slot_None in Hr. by apply Hpar.
  - intros ev. by rewrite Hst', Hst1.
Qed.
End exec.
