(* ===== verification/FinalityProps.v ===== *)
(** * Block statuses at finality

    apply_finality_to_blocks (src/massa-indexer/src/peer/patch.rs): what the
    verdict of a slot does to the rows of its candidate blocks. *)

From S2P Require Import Prelude Ids Keys Model Proto Codec CodecLemmas CodecProps Store Text Db.
From S2P Require Import Tables NodeMsg World Reconcile Arbiter Patch Ingest WorldLogic.
From S2P Require Import HandlerFrames SlotSafety FirstFinal PatchSafety RowSafety.

Section finality.
Context `{Bs58, Base64, HexCrate, ProstStorage, RocksDB, DenunciationDigest, NodeEncode}.
Implicit Types (w : World) (d : DB) (b : StoredBlock) (bid : BlockId).

(** The status a settled slot gives the block [bid]. *)
Definition settled_status (fin : option BlockId) bid : BlockStatus :=
  if bool_decide (Some bid = fin) then BlockFinal else Discarded.
Definition mark (fin : option BlockId) bid b : StoredBlock :=
  if bool_decide (bl_id b = bid) then b <| bl_status := settled_status fin bid |> else b.
(** The slot's verdict on a block row: candidates and the final block get their
    settled status, other blocks keep theirs. *)
Definition settle (fin : option BlockId) (cands : list BlockId) b : StoredBlock :=
  if bool_decide (bl_id b ∈ cands \/ Some (bl_id b) = fin)
  then b <| bl_status := settled_status fin (bl_id b) |> else b.

(** The rows of [d'] are those of [d], each rewritten by [f]. *)
Definition rows_mapped (f : StoredBlock -> StoredBlock) d d' : Prop :=
  forall k b', row_at d' k b' <-> exists b, row_at d k b /\ b' = f b.

Lemma rows_mapped_id d d' f :
  same_cf CF_BLOCK d d' -> (forall k b, row_at d k b -> f b = b) -> rows_mapped f d d'.
Proof.
  intros Hs Hf k b'. rewrite (same_cf_row_at d d') by exact Hs. split.
  - intros Hb. exists b'. split; [done|]. symmetry. by eapply Hf.
  - intros (b & Hb & ->). by rewrite (Hf k b Hb).
Qed.
Lemma rows_mapped_trans f g d d1 d2 :
  rows_mapped f d d1 -> rows_mapped g d1 d2 -> rows_mapped (fun b => g (f b)) d d2.
Proof.
  intros M1 M2 k b2. rewrite (M2 k b2). split.
  - intros (b1 & (b & Hb & ->)%M1 & ->). eauto.
  - intros (b & Hb & ->). exists (f b). split; [|done]. apply M1. eauto.
Qed.
Lemma rows_mapped_ext f g d d' :
  (forall k b, row_at d k b -> f b = g b) -> rows_mapped f d d' -> rows_mapped g d d'.
Proof.
  intros He Hm k b'. rewrite (Hm k b'). split; intros (b & Hb & ->); exists b;
    (split; [done|]); [|symmetry]; by eapply He.
Qed.

Lemma row_at_id d k b bid :
  table_ok StoredBlock d -> Id_wf bid -> row_at d k b ->
  k = id_as_bytes bid <-> bl_id b = bid.
Proof.
  intros Hok Hw Hb. rewrite (Hok k b Hb). simpl. split; [|by intros ->].
  apply Id_wf_inj; [|done]. by destruct (row_at_wf _ _ _ Hb) as (? & _).
Qed.

Lemma set_block_status_rows fin bid w w' :
  table_ok StoredBlock (w_db w) -> Id_wf bid ->
  set_block_status bid (settled_status fin bid) w = (Ok tt, w') ->
  rows_mapped (mark fin bid) (w_db w) (w_db w').
Proof.
  intros Hok Hw E. unfold set_block_status in E.
  apply bind_Ok_inv in E as (body & w1 & Hb & E). unfold db_read in Hb. injection Hb as Hb <-.
  destruct body as [b|].
  - apply read_block_Some in Hb.
    assert (bl_id b = bid) as Eb by by apply (row_at_id (w_db w) _ b bid Hok Hw Hb).
    case_bool_decide as Est.
    + injection E as <-. apply rows_mapped_id; [reflexivity|]. intros k b0 Hb0. unfold mark.
      case_bool_decide as E0; [|done].
      apply (row_at_id (w_db w) k b0 bid Hok Hw Hb0) in E0 as ->.
      rewrite (row_at_inj _ _ _ _ Hb0 Hb). rewrite <- Est. by destruct b.
    + unfold db_do in E. set (b1 := b <| bl_status := _ |>) in E.
      destruct (write_block (w_db w) b1) as [d'|] eqn:Ew; [|done]. injection E as <-. simpl.
      assert (StoredBlock_enc b1) as Henc by exact (row_at_wf _ _ _ Hb).
      pose proof (write_block_puts _ _ _ Ew) as (v & Ev & Hget).
      pose proof (tb_encode_decodes b1 v Henc Ev) as Hdec.
      assert (tb_key b1 = id_as_bytes bid) as Ek by (rewrite <- Eb; reflexivity).
      intros k b'. destruct (decide (k = id_as_bytes bid)) as [->|Hk].
      * split.
        -- intros (u & Hu & Hd). rewrite Hget, Ek, bool_decide_eq_true_2 in Hu by done.
           injection Hu as <-. rewrite Hdec in Hd. injection Hd as <-. exists b.
           split; [done|]. unfold mark. by rewrite bool_decide_eq_true_2.
        -- intros (b0 & Hb0 & ->). rewrite (row_at_inj _ _ _ _ Hb0 Hb). exists v.
           rewrite Hget, Ek, bool_decide_eq_true_2 by done. split; [done|].
           unfold mark. rewrite bool_decide_eq_true_2 by done. exact Hdec.
      * assert (forall x : StoredBlock, row_at d' k x <-> row_at (w_db w) k x) as Hsame.
        { intros x. unfold row_at. by rewrite Hget, Ek, bool_decide_eq_false_2. }
        rewrite Hsame. split.
        -- intros Hx. exists b'. split; [done|]. unfold mark. rewrite bool_decide_eq_false_2; [done|].
           by rewrite <- (row_at_id (w_db w) k b' bid Hok Hw Hx).
        -- intros (b0 & Hb0 & ->). unfold mark. rewrite bool_decide_eq_false_2; [done|].
           by rewrite <- (row_at_id (w_db w) k b0 bid Hok Hw Hb0).
  - injection E as <-. apply read_block_None in Hb. apply rows_mapped_id; [reflexivity|].
    intros k b0 Hb0. unfold mark. rewrite bool_decide_eq_false_2; [done|].
    rewrite <- (row_at_id (w_db w) k b0 bid Hok Hw Hb0). intros ->.
    destruct Hb0 as (v & Hv & _). simpl in Hv. congruence.
Qed.
Lemma mapped_table f d d' :
  (forall b, bl_id (f b) = bl_id b) -> table_ok StoredBlock d -> rows_mapped f d d' ->
  table_ok StoredBlock d'.
Proof.
  intros Hf Hok Hm k b' (b & Hb & ->)%Hm. rewrite (Hok k b Hb). simpl. by rewrite Hf.
Qed.
Lemma mark_id fin bid b : bl_id (mark fin bid b) = bl_id b.
Proof. unfold mark. by case_bool_decide. Qed.

Definition marks (fin : option BlockId) (cands : list BlockId) b : StoredBlock :=
  foldl (fun b bid => mark fin bid b) b cands.
Lemma marks_alt fin cands b :
  marks fin cands b =
  if bool_decide (bl_id b ∈ cands) then b <| bl_status := settled_status fin (bl_id b) |> else b.
Proof.
  unfold marks. revert b. induction cands as [|c cands IH]; intros b; [done|]. simpl.
  rewrite IH, mark_id. unfold mark. destruct (decide (bl_id b = c)) as [<-|Hc].
  - rewrite (bool_decide_eq_true_2 (bl_id b = bl_id b)) by done.
    rewrite (bool_decide_eq_true_2 (_ ∈ _ :: _)) by by left.
    case_bool_decide; [|done]. by destruct b.
  - rewrite (bool_decide_eq_false_2 (bl_id b = c)) by done.
    repeat case_bool_decide; set_solver.
Qed.

Lemma finality_iter fin cands w w' :
  Forall Id_wf cands -> table_ok StoredBlock (w_db w) ->
  st_iter (fun bid => set_block_status bid
    (if bool_decide (Some bid = fin) then BlockFinal else Discarded)) cands w = (Ok tt, w') ->
  rows_mapped (marks fin cands) (w_db w) (w_db w').
Proof.
  intros Hw. revert w. induction Hw as [|c cands Hc Hw IH]; intros w Hok E.
  - injection E as <-. by apply rows_mapped_id.
  - cbn [st_iter] in E. apply bind_Ok_inv in E as ([] & w1 & E1 & E).
    apply (set_block_status_rows fin) in E1 as M1; [|done|done].
    eapply (rows_mapped_trans (mark fin c) (marks fin cands)); [exact M1|].
    apply IH; [|exact E]. eapply mapped_table; [|exact Hok|exact M1]. intros b. apply mark_id.
Qed.

Lemma apply_finality_rows fin cands w w' :
  Forall Id_wf cands -> opt_wf Id_wf fin -> table_ok StoredBlock (w_db w) ->
  apply_finality_to_blocks fin cands w = (Ok tt, w') ->
  rows_mapped (settle fin cands) (w_db w) (w_db w').
Proof.
  intros Hc Hf Hok E. unfold apply_finality_to_blocks in E.
  apply bind_Ok_inv in E as ([] & w1 & E1 & E).
  apply finality_iter in E1 as M1; [|done|done].
  assert (table_ok StoredBlock (w_db w1)) as Hok1.
  { eapply mapped_table; [|exact Hok|exact M1]. intros b. rewrite marks_alt. by case_bool_decide. }
  assert (forall f, rows_mapped f (w_db w1) (w_db w') ->
    (forall b, f (marks fin cands b) = settle fin cands b) ->
    rows_mapped (settle fin cands) (w_db w) (w_db w')) as Hgo.
  { intros f Hm He. eapply rows_mapped_ext; [intros k b _; apply He|].
    exact (rows_mapped_trans _ _ _ _ _ M1 Hm). }
  assert ((forall b, Some (bl_id b) = fin -> bl_id b ∈ cands) ->
    (Ok tt : result Error unit, w1) = (Ok tt, w') ->
    rows_mapped (settle fin cands) (w_db w) (w_db w')) as Hsame.
  { intros Hin [= <-]. apply (Hgo id); [by apply rows_mapped_id|]. intros b. unfold id.
    rewrite marks_alt. unfold settle. repeat case_bool_decide; try done; [tauto|].
    destruct_or?; [done|]. exfalso. naive_solver. }
  destruct fin as [bid|].
  - case_bool_decide as Hin; [apply Hsame; [by intros b [= ->]|exact E]|].
    apply (Hgo (mark (Some bid) bid)).
    + apply set_block_status_rows; [done|done|]. unfold settled_status.
      rewrite bool_decide_eq_true_2 by done. exact E.
    + intros b. rewrite marks_alt. unfold settle, mark.
      destruct (decide (bl_id b = bid)) as [Eb|Hne].
      * rewrite (bool_decide_eq_false_2 (bl_id b ∈ cands)) by by rewrite Eb.
        rewrite !bool_decide_eq_true_2 by (rewrite ?Eb; auto). by rewrite Eb.
      * assert (bl_id (if bool_decide (bl_id b ∈ cands)
          then b <| bl_status := settled_status (Some bid) (bl_id b) |> else b) = bl_id b) as ->
          by by case_bool_decide.
        rewrite bool_decide_eq_false_2 by done.
        repeat case_bool_decide; try done; naive_solver.
  - apply Hsame; [by intros b|exact E].
Qed.

(** C8. When a slot settles, its verdict reaches exactly the blocks it concerns:
    the final block is marked final, the slot's other candidates discarded,
    every other block row is as it was, and no row appears or disappears. *)
Theorem finality_settles_blocks fin cands w w' :
  Forall Id_wf cands -> opt_wf Id_wf fin -> table_ok StoredBlock (w_db w) ->
  apply_finality_to_blocks fin cands w = (Ok tt, w') ->
  (forall k b', row_at (w_db w') k b' <-> exists b, row_at (w_db w) k b /\ b' = settle fin cands b) /\
  (forall c, c <> CF_BLOCK -> c <> IDX_BLOCK_BY_CREATOR -> c <> CF_SLOT_CANDIDATE_BLOCK ->
     same_cf c (w_db w) (w_db w')).
Proof.
  intros Hc Hf Hok E. split; [by apply apply_finality_rows|].
  intros c ? ? ?. eapply keeps_after; [|exact E|reflexivity].
  apply apply_finality_keeps. unfold block_cfs. set_solver.
Qed.
End finality.
