(* ===== verification/BlockProps.v ===== *)
(** * Incoming blocks

    handle_block (src/massa-indexer/src/ingest.rs): what the store records of a
    block once its handler succeeded. *)

From S2P Require Import Prelude Ids Keys Model Proto Codec CodecLemmas CodecProps Store Text Db.
From S2P Require Import Tables NodeMsg World Reconcile Arbiter Patch Ingest WorldLogic.
From S2P Require Import HandlerFrames SlotSafety FirstFinal PatchSafety RowSafety.

Section block.
Context `{Bs58, Base64, HexCrate, ProstStorage, RocksDB, DenunciationDigest, NodeEncode}.
Implicit Types (w : World) (d : DB) (s : SlotState) (fb : FilledBlock) (h : BlockHead).

(** The operation is stored and names the block among its inclusion sites. *)
Definition included d (inc : OperationInclusion) (id : OperationId) : Prop :=
  exists o, read_op d id = Ok (Some o) /\ inc ∈ op_inclusions o.

Lemma included_le d d' inc id :
  table_ok StoredOperation d -> rows_le op_le d d' -> included d inc id -> included d' inc id.
Proof.
  intros Hok Hle (o & Ho%read_op_Some & Hi). destruct (Hle Hok) as [_ Hr].
  destruct (Hr _ _ Ho) as (o' & Ho' & _ & Hp & _). exists o'. split; [by apply read_op_Some|].
  destruct Hp as [l ->]. apply elem_of_app. by left.
Qed.
Lemma included_same d d' inc id :
  same_cf CF_OP d d' -> included d inc id -> included d' inc id.
Proof.
  intros Hs (o & Ho & Hi). exists o. split; [|done]. revert Ho. unfold read_op, read_row.
  by rewrite Hs.
Qed.

Lemma record_inclusion_in inc o : inc ∈ op_inclusions (record_inclusion inc o).
Proof.
  unfold record_inclusion. case_bool_decide; [done|]. simpl. apply elem_of_app. right. by left.
Qed.
Lemma write_op_read d d' o :
  StoredOperation_enc o -> write_op d o = Ok d' -> read_op d' (op_id o) = Ok (Some o).
Proof.
  intros He E. apply read_op_Some. destruct (write_op_puts d o d' E) as (v & Ev & Hget).
  exists v. split; [by rewrite Hget, bool_decide_eq_true_2|].
  exact (tb_encode_decodes o v He Ev).
Qed.

(** One operation of the block. *)
Lemma block_op_run bid slot now fo signed id w w' :
  Id_wf bid -> Slot_wf slot -> table_ok StoredOperation (w_db w) ->
  filled_op_id fo = Some (signed, id) ->
  block_op bid slot now fo w = (Ok tt, w') -> included (w_db w') (mkInclusion slot bid) id.
Proof.
  intros Hb Hs Hok Ef E. unfold block_op in E. rewrite Ef in E. apply filled_op_id_wf in Ef.
  apply bind_Ok_inv in E as (prior & w1 & Hp & E). unfold db_read in Hp. injection Hp as Hp <-.
  apply bind_Ok_inv in E as (st & w2 & Hst & E).
  assert (w2 = w /\ op_id st = id /\ StoredOperation_enc st) as (-> & Eid & Henc).
  { destruct prior as [o|].
    - injection Hst as <- <-. apply read_op_Some in Hp. split; [done|].
      split; [|by eapply op_row_enc]. pose proof (Hok _ _ Hp) as Hk. simpl in Hk.
      pose proof (op_row_enc _ _ _ Hp) as (Hido & _). symmetry. by apply Id_wf_inj.
    - injection Hst as Hst <-. by apply (new_operation_enc id signed slot now) in Hst as []. }
  apply bind_Ok_inv in E as ([] & w3 & Hw & E). injection E as <-. simpl w_db.
  set (o' := record_inclusion _ _) in *.
  assert (op_id o' = id) as Eo 
    by (etransitivity; [apply (proj2 (record_inclusion_le _ slot st)) | done]).
  exists o'. split; [|apply record_inclusion_in].
  unfold db_do in Hw. destruct (write_op (w_db w) o') as [d'|] eqn:Ew; [|done]. injection Hw as <-.
  simpl. rewrite <- Eo. apply (write_op_read (w_db w)); [|done]. by apply record_inclusion_enc.
Qed.
Lemma block_ops_run bid slot now (l : list FilledOperationEntry) w w' :
  Id_wf bid -> Slot_wf slot -> table_ok StoredOperation (w_db w) ->
  st_iter (block_op bid slot now) l w = (Ok tt, w') ->
  forall id, id ∈ omap (fun fo => snd <$> filled_op_id fo) l ->
    included (w_db w') (mkInclusion slot bid) id.
Proof.
  intros Hb Hs. revert w. induction l as [|fo l IH]; intros w Hok E id Hid; [set_solver|].
  cbn [st_iter] in E. apply bind_Ok_inv in E as ([] & w1 & E1 & E).
  pose proof (block_op_moves bid slot now fo Hb Hs w) as Hm. rewrite E1 in Hm. simpl in Hm.
  destruct (Hm Hok) as [Hok1 _].
  assert (included (w_db w1) (mkInclusion slot bid) id \/
          id ∈ omap (fun fo => snd <$> filled_op_id fo) l) as [Hi|Hi].
  { apply list_elem_of_omap in Hid as (y & [->|Hy]%elem_of_cons & Ey).
    - left. destruct (filled_op_id fo) as [[signed i]|] eqn:Ef; [|done]. injection Ey as ->.
      exact (block_op_run bid slot now fo signed _ w w1 Hb Hs Hok Ef E1).
    - right. apply list_elem_of_omap. eauto. }
  - eapply included_le; [exact Hok1 | | exact Hi].
    assert (moves (rows_le op_le) (st_iter (block_op bid slot now) l)) as Hl
      by (apply moves_iter; [apply _|]; intros a _; by apply block_op_moves).
    specialize (Hl w1). by rewrite E in Hl.
  - by eapply IH.
Qed.
Lemma write_block_read d d' (b : StoredBlock) :
  StoredBlock_enc b -> write_block d b = Ok d' -> read_block d' (bl_id b) = Ok (Some b).
Proof.
  intros He E. apply read_block_Some. destruct (write_block_puts d b d' E) as (v & Ev & Hget).
  exists v. split; [by rewrite Hget, bool_decide_eq_true_2|].
  exact (tb_encode_decodes b v He Ev).
Qed.

(** What the block's row says, given the slot row [s] after the event. *)
Definition block_recorded fb h (prior : option StoredBlock) s (b : StoredBlock) : Prop :=
  bl_id b = hd_block_id h /\
  (ss_status s = SlotFinal -> bl_status b <> SeenCandidate) /\
  match prior with
  | Some b0 => block_le b0 b
  | None =>
      bl_slot b = hd_slot h /\ bl_creator b = hd_creator h /\
      bl_operation_ids b = block_operation_ids fb /\
      (bl_status b = BlockFinal <->
       ss_status s = SlotFinal /\ ss_final_block_id s = Some (hd_block_id h))
  end.
(** What the slot's row says. *)
Definition lists_block (bid : BlockId) s : Prop :=
  bid ∈ ss_candidate_block_ids s /\ block_body_stored (ss_completeness s) = true /\
  ss_status s <> SlotUnknown.

Lemma block_slot_row_fields bid now s :
  lists_block bid (block_slot_row bid now s) /\ ss_slot (block_slot_row bid now s) = ss_slot s /\
  ss_final_block_id (block_slot_row bid now s) = ss_final_block_id s /\
  (ss_status (block_slot_row bid now s) = SlotFinal <-> ss_status s = SlotFinal).
Proof.
  assert (bid ∈ ss_candidate_block_ids (push_candidate bid s)) as Hin.
  { unfold push_candidate. case_bool_decide; [done|]. simpl. apply elem_of_app. right. by left. }
  assert (forall s', s' = push_candidate bid s -> ss_slot s' = ss_slot s /\
    ss_final_block_id s' = ss_final_block_id s /\ ss_status s' = ss_status s) as Hp.
  { intros ? ->. unfold push_candidate. by case_bool_decide. }
  destruct (Hp _ eq_refl) as (P1 & P2 & P3). unfold block_slot_row. cbv zeta.
  generalize dependent (push_candidate bid s). intros p Hin _ P1 P2 P3.
  rewrite <- P1, <- P2, <- P3. clear P1 P2 P3. destruct p as [? st]. simpl in *.
  unfold lists_block.
  destruct st; [rewrite bool_decide_eq_true_2 by done | rewrite bool_decide_eq_false_2 by done..];
    split_and!; cbn; unfold constant; (done || by split).
Qed.

Lemma block_row_recorded fb h endos now s prior :
  let dens := decode_denunciation <$> bh_denunciations (hd_content h) in
  let initial := initial_block_status s (hd_block_id h) in
  let row := match prior with
             | Some b => merge_block b (block_operation_ids fb) endos dens initial
             | None => new_block h (block_operation_ids fb) endos dens initial now
             end in
  block_head fb = Ok h -> Forall StoredEndorsement_enc endos ->
  (forall b, prior = Some b -> StoredBlock_enc b /\ bl_id b = hd_block_id h) ->
  StoredBlock_enc row /\ block_recorded fb h prior (block_slot_row (hd_block_id h) now s) row.
Proof.
  intros dens initial row Hh Hend Hprior.
  assert (Forall StoredDenunciation_wf dens) as Hden
    by (apply Forall_fmap, Forall_true; intros; apply decode_denunciation_wf).
  pose proof (block_operation_ids_wf fb) as Hops.
  destruct (block_slot_row_fields (hd_block_id h) now s) as (_ & _ & Ef & Es).
  unfold block_recorded. rewrite Es, Ef. destruct prior as [b|]; subst row.
  - destruct (Hprior b eq_refl) as [Hb Eb].
    destruct (merge_block_le b _ endos dens initial Hops Hend Hden) as [Hle He].
    split; [by apply He|]. split_and!; [done| |done]. intros Hf. simpl. unfold constant.
    case_bool_decide; [|done]. subst initial. unfold initial_block_status.
    rewrite bool_decide_eq_true_2 by done. by case_match.
  - destruct (new_block_enc h _ endos dens initial now fb Hh Hops Hend Hden) as [He _].
    split; [done|]. subst initial. simpl. unfold initial_block_status. split_and!; try done.
    + intros Hf. rewrite bool_decide_eq_true_2 by done. by case_match.
    + repeat case_bool_decide; intuition congruence.
Qed.

(** The phases of a block's handler that succeeded. *)
Lemma handle_block_phases fb h now w w' :
  let slot := hd_slot h in
  let bid := hd_block_id h in
  let endos := omap (fun se => node_decode_endorsement se bid slot now) (bh_endorsements (hd_content h)) in
  let dens := decode_denunciation <$> bh_denunciations (hd_content h) in
  block_head fb = Ok h -> handle_block fb now w = (Ok tt, w') ->
  exists w2 w3 s prior d6 w6 w8 w9,
    let row := match prior with
               | Some b => merge_block b (block_operation_ids fb) endos dens (initial_block_status s bid)
               | None => new_block h (block_operation_ids fb) endos dens (initial_block_status s bid) now
               end in
    (forall c, c ∉ endorsement_cfs -> c ∉ denunciation_cfs -> same_cf c (w_db w) (w_db w2)) /\
    st_iter (block_op bid slot now) (fb_operations fb) w2 = (Ok tt, w3) /\
    slot_origin (w_db w3) slot s /\ read_block (w_db w3) bid = Ok prior /\
    write_block (w_db w3) row = Ok d6 /\ w_db w6 = d6 /\
    put_slot (block_slot_row bid now s) w6 = (Ok tt, w8) /\
    ensure_parent_stub slot now w8 = (Ok tt, w9) /\ w_db w9 = w_db w'.
Proof.
  intros slot bid endos dens Hh E. unfold handle_block in E. rewrite Hh in E.
  rewrite (bind_run (st_lift _) _ w h w) in E by done.
  apply bind_Ok_inv in E as ([] & w1 & E1 & E).
  apply bind_Ok_inv in E as ([] & w2 & E2 & E).
  apply bind_Ok_inv in E as ([] & w3 & E3 & E).
  apply bind_Ok_inv in E as (s & w4 & [-> Ho]%read_slot_or_fresh_at & E).
  apply bind_Ok_inv in E as (prior & w5 & Hprior & E).
  unfold db_read in Hprior. injection Hprior as Hprior <-.
  apply bind_Ok_inv in E as ([] & w6 & E6 & E).
  unfold db_do in E6. destruct (write_block (w_db w3) _) as [d6|] eqn:E7 in E6; [|done].
  injection E6 as <-.
  apply bind_Ok_inv in E as ([] & w7 & E6 & E).
  apply bind_Ok_inv in E as ([] & w8 & E8 & E).
  apply bind_Ok_inv in E as ([] & w9 & E9 & E).
  exists w2, w3, s, prior, d6, w7, w8, w9. split_and!; try done.
  - intros c ? ?. eapply keeps_after; [|exact E2|]; [frame|].
    eapply keeps_after; [|exact E1|reflexivity]. frame.
  - by injection E6 as <-.
  - by injection E as <-.
Qed.

(** C9. What an incoming block leaves behind when its handler succeeds: the block
    is readable under its id, as recorded before or as the header says, and is
    marked final exactly when its slot settled on it, never left a candidate of
    a settled slot; the slot's row lists it and its body; every operation it
    carries is stored with the block among its inclusion sites; and the slot's
    parent has a row. *)
Theorem handle_block_records fb h now_ms w w' :
  table_ok SlotState (w_db w) -> table_ok StoredBlock (w_db w) ->
  table_ok StoredOperation (w_db w) ->
  block_head fb = Ok h -> dispatch (EvBlock fb) now_ms w = (Ok tt, w') ->
  let slot := hd_slot h in let bid := hd_block_id h in
  (exists prior s b, read_block (w_db w) bid = Ok prior /\
    read_slot (w_db w') (slot_period slot) (slot_thread slot) = Ok (Some s) /\
    read_block (w_db w') bid = Ok (Some b) /\
    lists_block bid s /\ block_recorded fb h prior s b) /\
  (forall id, id ∈ block_operation_ids fb -> included (w_db w') (mkInclusion slot bid) id) /\
  (slot_period slot <> 0%Z -> read_slot (w_db w') (slot_period slot - 1) (slot_thread slot) <> Ok None).
Proof.
  intros Hts Htb Hto Hh E slot bid. destruct (block_head_wf fb h Hh) as [Hid Hslot].
  apply (handle_block_phases fb h) in E; [|done].
  destruct E as (w2 & w3 & s & prior & d6 & w6 & w8 & w9 & K2 & E3 & Ho & Hprior & E7 & E6 & E8 & E9 & Ew).
  fold slot bid in E3, Ho, Hprior, E7, E8, E9, Hid, Hslot. set (row := match prior with Some _ => _ | None => _ end) in E7.
  rewrite <- Ew.
  assert (forall c, c ∉ endorsement_cfs -> c ∉ denunciation_cfs -> c ∉ op_cfs ->
    same_cf c (w_db w) (w_db w3)) as K3.
  { intros c ? ? ?. eapply keeps_after; [|exact E3|by apply K2].
    apply moves_iter; [apply _|]. intros ? _. by apply block_op_keeps. }
  assert (forall c, c ∉ slot_cfs -> same_cf c d6 (w_db w9)) as K9.
  { intros c Hc. eapply keeps_after; [|exact E9|]; [by apply parent_stub_keeps|].
    rewrite <- E6. eapply keeps_after; [|exact E8|reflexivity]. by apply put_slot_keeps. }
  assert (forall c, c ∉ block_cfs -> same_cf c (w_db w3) d6) as K6
    by (intros c; exact (write_block_in row (w_db w3) d6 E7 c)).
  destruct (block_row_recorded fb h _ now_ms s prior Hh
    (node_endorsements_enc (bh_endorsements (hd_content h)) bid slot now_ms Hslot)) as [Henc Hrec].
  { intros b ->. apply read_block_Some in Hprior. split; [exact (row_at_wf _ _ _ Hprior)|].
    apply (same_cf_row_at (w_db w)) in Hprior; [|by apply K3; cf_notin].
    pose proof (Htb _ _ Hprior) as Hk. pose proof (row_at_wf _ _ _ Hprior) as (Hb & _).
    symmetry. by apply Id_wf_inj. }
  fold bid slot row in Henc, Hrec. destruct (block_slot_row_fields bid now_ms s) as (Hlist & Eslot & _).
  assert (slot_origin (w_db w) slot s) as Ho1 by (eapply slot_origin_same, Ho; apply K3; cf_notin).
  assert (key_of (ss_slot s) = key_of slot) as Hkey.
  { destruct Ho1 as [Hrow|[_ [n ->]]]; [|done]. symmetry. exact (Hts _ _ Hrow). }
  apply put_slot_row in E8.
  2:{ apply (block_slot_row_step bid now_ms s Hid). by eapply slot_origin_enc. }
  rewrite Eslot, Hkey in E8. apply parent_stub_run in E9 as [Hpar Hrows]. split_and!.
  - exists prior, (slot_norm (block_slot_row bid now_ms s)), row. split_and!.
    + rewrite <- Hprior. unfold read_block, read_row. by rewrite (K3 CF_BLOCK) by cf_notin.
    + by apply read_slot_Some, Hrows.
    + apply write_block_read in E7; [|done]. rewrite (proj1 Hrec : bl_id row = bid) in E7.
      revert E7. unfold read_block, read_row. by rewrite (K9 CF_BLOCK) by cf_notin.
    + exact Hlist.
    + exact Hrec.
  - intros id Hi. apply (included_same d6); [by apply K9; cf_notin|].
    apply (included_same (w_db w3)); [by apply K6; cf_notin|].
    eapply block_ops_run; [done|done| |exact E3|exact Hi].
    apply (same_cf_le (A := StoredOperation) op_le (w_db w)); [by apply K2; cf_notin | exact Hto].
  - intros Hz Hr. apply read_slot_None in Hr. by apply Hpar.
Qed.
End block.
