(* ===== verification/IngestProps.v ===== *)
(** * Correctness of the ingestion state machine

    What one event may do to the primary tables: the handlers' lemmas gathered over
    [handle], the shape in which the scheduler uses them. *)

From S2P Require Import Prelude Ids Keys Model Proto Codec CodecLemmas CodecProps Store Db NodeMsg.
From S2P Require Import World Tables Reconcile Arbiter Patch Ingest WorldLogic HandlerFrames.
From S2P Require Import SlotSafety FirstFinal PatchSafety RowSafety.

Section handle.
Context `{Bs58, Base64, HexCrate, ProstStorage, RocksDB, DenunciationDigest, NodeEncode}.
Implicit Types (w : World) (ev : Event).

(** Dropping a handler's result keeps its world. *)
Lemma drop_result {A} (m : ST World A) w : w_db ((m ;; mret tt) w).2 = w_db (m w).2.
Proof. unfold mbind, ST_bind. by destruct (m w) as [[]]. Qed.

Lemma handle_slots ev now_ms w :
  table_ok SlotState (w_db w) ->
  rows_le (slot_moves (overruled (w_db w) ev)) (w_db w) (w_db (handle ev now_ms w)).
Proof.
  intros Hok. unfold handle. destruct ev; simpl dispatch.
  - apply handle_block_slots.
  - apply handle_exec_slots.
  - apply handle_transfers_slots.
  - rewrite drop_result. by apply apply_peer_slots.
  - rewrite drop_result. apply apply_legacy_slots.
  - rewrite drop_result. by apply apply_forced_slots.
  - reflexivity.
Qed.
Lemma handle_ops ev now_ms w : rows_le op_le (w_db w) (w_db (handle ev now_ms w)).
Proof.
  unfold handle. destruct ev; simpl dispatch.
  - apply handle_block_ops.
  - apply handle_exec_ops.
  - apply handle_transfers_ops.
  - rewrite drop_result. apply apply_peer_ops.
  - rewrite drop_result. apply apply_legacy_ops.
  - rewrite drop_result. apply apply_forced_ops.
  - reflexivity.
Qed.
Lemma handle_blocks ev now_ms w : rows_le block_le (w_db w) (w_db (handle ev now_ms w)).
Proof.
  unfold handle. destruct ev; simpl dispatch.
  - apply handle_block_blocks.
  - apply handle_exec_blocks.
  - apply handle_transfers_blocks.
  - rewrite drop_result. apply apply_peer_blocks.
  - rewrite drop_result. apply apply_legacy_blocks.
  - rewrite drop_result. apply apply_forced_blocks.
  - reflexivity.
Qed.
(** A slot row nobody overrules only moves forward. *)
Lemma handle_slot_le ev now_ms w k s :
  table_ok SlotState (w_db w) -> ~ overruled (w_db w) ev k -> row_at (w_db w) k s ->
  table_ok SlotState (w_db (handle ev now_ms w)) /\
  exists s', row_at (w_db (handle ev now_ms w)) k s' /\ slot_le s s'.
Proof.
  intros Hok Hn Hs. destruct (handle_slots ev now_ms w Hok Hok) as [Hok' Hr]. split; [done|].
  destruct (Hr k s Hs) as (s' & Hs' & _ & L). exists s'. split; [done|]. apply L.
  by rewrite (Hok k s Hs) in Hn.
Qed.
End handle.

Section props.
Context `{Bs58, Base64, HexCrate, ProstStorage, RocksDB, DenunciationDigest, NodeEncode}.
Implicit Types (w : World) (d : DB).

(** C1. First-final-wins, for every event and every outcome of its handler:
    no slot row is lost or moved to another key; its status never goes back,
    its candidates and first-seen stamp stay; and unless the event overrules
    the row's verdict (a peer patch the arbiter sided with, or the operator's
    forced verdict, at that slot), its completeness only grows and, once
    FINAL, its miss flag, block id and trail hash are fixed. *)
Theorem handle_first_final_wins (ev : Event) (now_ms : Z) w :
  table_ok SlotState (w_db w) ->
  table_ok SlotState (w_db (handle ev now_ms w)) /\
  forall k s, row_at (w_db w) k s ->
    exists s', row_at (w_db (handle ev now_ms w)) k s' /\ slot_kept s s' /\
      (~ overruled (w_db w) ev k -> slot_le s s').
Proof.
  intros Hok.
  destruct (handle_slots ev now_ms w Hok Hok) as [Hok' Hrows]. split; [done|]. intros k s Hs.
  destruct (Hrows k s Hs) as (s' & Hs' & K & L). exists s'. split_and!; [done..|].
  intros Hn. apply L. by rewrite (Hok k s Hs) in Hn.
Qed.

(** C2. Every event keeps every operation row: its body never changes, its
    inclusion sites are only appended to, and a FINAL execution status is
    written once. *)
Theorem handle_ops_monotone (ev : Event) (now_ms : Z) w :
  table_ok StoredOperation (w_db w) ->
  table_ok StoredOperation (w_db (handle ev now_ms w)) /\
  forall k o, row_at (w_db w) k o ->
    exists o', row_at (w_db (handle ev now_ms w)) k o' /\ op_le o o'.
Proof. apply handle_ops. Qed.

(** C3. Every event keeps every block row: its header never changes, its
    operation list is fixed once it is known, and a block marked final or
    discarded is never a mere candidate again. *)
Theorem handle_blocks_monotone (ev : Event) (now_ms : Z) w :
  table_ok StoredBlock (w_db w) ->
  table_ok StoredBlock (w_db (handle ev now_ms w)) /\
  forall k b, row_at (w_db w) k b ->
    exists b', row_at (w_db (handle ev now_ms w)) k b' /\ block_le b b'.
Proof. apply handle_blocks. Qed.
End props.
