(* ===== verification/Scheduler.v ===== *)
(** * The two-lane scheduler

    [Ingest::step] and [Ingest::run] (src/massa-indexer/src/ingest.rs) against
    their environment: producers send on the live and the bulk lane, in any
    order, and drop their senders. [transition] interleaves them with the steps
    of the single writer; safety is by induction over its executions. *)

From S2P Require Import Prelude Ids Keys Model Proto Codec CodecLemmas CodecProps Store Db Tables.
From S2P Require Import NodeMsg World Reconcile Arbiter Patch Ingest WorldLogic HandlerFrames.
From S2P Require Import SlotSafety FirstFinal PatchSafety RowSafety IngestProps.

Section scheduler.
Context `{Bs58, Base64, HexCrate, ProstStorage, RocksDB, DenunciationDigest, NodeEncode}.
Implicit Types (i : Ingest) (w : World) (ev : Event) (rx : option Lane).

(** ** The environment *)
Definition send ev rx : option Lane :=
  match rx with Some (mkLane q false) => Some (mkLane (q ++ [ev]) false) | _ => rx end.
Definition hang_up rx : option Lane := (fun l => mkLane (ln_queue l) true) <$> rx.

(** The event the next step handles, if it handles one. *)
Definition next_event i : option Event :=
  match recv_lane (ig_live i) with
  | RecvSome ev _ => Some ev
  | RecvNone => None
  | RecvPending =>
      match recv_lane (ig_bulk i) with RecvSome ev _ => Some ev | _ => None end
  end.

Inductive transition : Ingest -> option Event -> Ingest -> Prop :=
| tr_send_live i ev :
    transition i None (mkIngest (ig_world i) (send ev (ig_live i)) (ig_bulk i))
| tr_send_bulk i ev :
    transition i None (mkIngest (ig_world i) (ig_live i) (send ev (ig_bulk i)))
| tr_hang_up_live i :
    transition i None (mkIngest (ig_world i) (hang_up (ig_live i)) (ig_bulk i))
| tr_hang_up_bulk i :
    transition i None (mkIngest (ig_world i) (ig_live i) (hang_up (ig_bulk i)))
| tr_step i now_ms i' :
    step i now_ms = StepTrue i' -> transition i (next_event i) i'.

(** An execution in which every handled event, at the world it meets,
    satisfies [P]. *)
Inductive execution (P : World -> Event -> Prop) : Ingest -> Ingest -> Prop :=
| ex_refl i : execution P i i
| ex_next i e i1 i2 :
    transition i e i1 -> (forall ev, e = Some ev -> P (ig_world i) ev) ->
    execution P i1 i2 -> execution P i i2.

(** Handling a sequence of events, each at its clock reading. *)
Definition handle_all (evs : list (Event * Z)) w : World :=
  foldl (fun w e => handle e.1 e.2 w) w evs.

(** A lane that still has a producer. *)
Definition lane_open rx : bool :=
  match rx with Some l => negb (ln_closed l) | None => false end.

(** ** Lemmas *)
Lemma step_world i now_ms i' :
  step i now_ms = StepTrue i' ->
  ig_world i' = match next_event i with
                | Some ev => handle ev now_ms (ig_world i) | None => ig_world i end.
Proof.
  unfold step, next_event. destruct i as [w l b]; simpl.
  destruct (recv_lane l) eqn:El, (recv_lane b) eqn:Eb, l, b; try done; by intros [= <-].
Qed.

Lemma transition_world i e i' :
  transition i e i' ->
  exists now_ms, ig_world i' = match e with
    | Some ev => handle ev now_ms (ig_world i) | None => ig_world i end.
Proof.
  destruct 1 as [| | | |i now_ms i' E]; try by exists 0%Z. exists now_ms. by apply step_world.
Qed.

(** Safety of the writer lifts from events to executions. *)
Lemma execution_keeps (I : World -> Prop) P i i' :
  (forall w ev now_ms, P w ev -> I w -> I (handle ev now_ms w)) ->
  execution P i i' -> I (ig_world i) -> I (ig_world i').
Proof.
  intros HP. induction 1 as [i|i e i1 i2 T He X IH]; [done|]. intros Hi. apply IH.
  destruct (transition_world _ _ _ T) as (now_ms & ->).
  destruct e as [ev|]; [|done]. by apply HP; [apply He|].
Qed.

Lemma lane_open_step i now_ms i' :
  step i now_ms = StepTrue i' ->
  lane_open (ig_live i) || lane_open (ig_bulk i) = true ->
  lane_open (ig_live i') || lane_open (ig_bulk i') = true.
Proof.
  unfold step. destruct i as [w [[[|e q] []]|] [[[|e' q'] []]|]]; simpl; try done; by intros [= <-].
Qed.

Lemma run_lane_live w q c b ts clock :
  length ts = length q ->
  run (mkIngest w (Some (mkLane q c)) b) (ts ++ clock) =
  run (mkIngest (handle_all (zip q ts) w) (Some (mkLane [] c)) b) clock.
Proof.
  revert w ts. induction q as [|ev q IH]; intros w [|t ts] E; try done. simpl.
  rewrite <- IH by by injection E. by destruct b as [[[|] []]|].
Qed.
Lemma run_lane_bulk w q c us clock :
  length us = length q ->
  run (mkIngest w None (Some (mkLane q c))) (us ++ clock) =
  run (mkIngest (handle_all (zip q us) w) None (Some (mkLane [] c))) clock.
Proof.
  revert w us. induction q as [|ev q IH]; intros w [|u us] E; try done. simpl.
  rewrite <- IH by by injection E. done.
Qed.

(** ** Properties *)

(** C12. First-final-wins along every execution: whatever the producers send, in
    whatever order, and however often the lanes preempt each other, a slot row
    only moves forward as long as no handled event overrules its verdict. *)
Theorem execution_first_final (k : bytes) (s : SlotState) i i' :
  table_ok SlotState (w_db (ig_world i)) ->
  execution (fun w ev => ~ overruled (w_db w) ev k) i i' ->
  row_at (w_db (ig_world i)) k s ->
  exists s', row_at (w_db (ig_world i')) k s' /\ slot_le s s'.
Proof.
  intros Hok X Hs.
  apply (execution_keeps (fun w => table_ok SlotState (w_db w) /\
    exists s', row_at (w_db w) k s' /\ slot_le s s') _ _ _) in X as [_ ?];
    [done| |split; [done|]; by exists s].
  intros w ev now_ms Hn [Hw (s1 & Hs1 & L1)].
  destruct (handle_slot_le ev now_ms w k s1 Hw Hn Hs1) as [Hw' (s2 & Hs2 & L2)].
  split; [done|]. exists s2. split; [done | by etransitivity].
Qed.

(** Strict priority: as long as the live lane has an event queued, a step
    handles its head and leaves the bulk lane alone. *)
Theorem step_live_first w ev q c b now_ms :
  step (mkIngest w (Some (mkLane (ev :: q) c)) b) now_ms =
  StepTrue (mkIngest (handle ev now_ms w) (Some (mkLane q c)) b).
Proof. by destruct b as [[[|] []]|]. Qed.

(** C13. [run] drains and stops: once every producer is gone it handles the live
    queue, then the bulk queue, each in order and exactly once, retires both
    lanes and returns. *)
Theorem run_drains w (live bulk : list Event) (ts us rest : list Z) (t1 t2 t3 : Z) :
  length ts = length live -> length us = length bulk ->
  run (mkIngest w (Some (mkLane live true)) (Some (mkLane bulk true)))
      (ts ++ t1 :: us ++ t2 :: t3 :: rest) =
  Some (handle_all (zip bulk us) (handle_all (zip live ts) w)).
Proof.
  intros Hl Hb. rewrite run_lane_live by done. cbn [run step recv_lane ig_live ig_bulk ig_world].
  rewrite run_lane_bulk by done. done.
Qed.

(** [run] serves as long as a producer is left: with an open lane it never
    returns, however many steps it takes. *)
Lemma run_serves i clock :
  lane_open (ig_live i) || lane_open (ig_bulk i) = true -> run i clock = None.
Proof.
  revert i. induction clock as [|t clock IH]; intros i Ho; [done|]. simpl.
  destruct (step i t) as [i'| |] eqn:E; [by apply IH; eapply lane_open_step | by apply IH |].
  unfold step in E. by destruct i as [w [[[|e q] []]|] [[[|e' q'] []]|]].
Qed.
End scheduler.
