(* ===== verification/Registry.v ===== *)
(** * The peer registry and the session bridge

    src/massa-indexer/src/peer/registry.rs: the routes known per logical peer,
    keyed by peer id, and the URLs suppressed after a failure.
    src/massa-indexer/src/peer/session.rs: the requests in flight on a
    SyncSession, correlated by id. Instants are milliseconds; an operation that
    reads the clock takes its reading. *)

From S2P Require Import Prelude Proto Codec.

(** ** registry.rs *)
Definition URL_DEMOTE_TTL : Z := 30 * 60 * 1000.

(** A bridge as the registry sees it: its id and the peer it was opened for. *)
Record SessionBridge := mkBridge { sb_bridge_id : Z; sb_peer_id : string }.
#[export] Instance SessionBridge_eq_dec : EqDecision SessionBridge.
Proof. solve_decision. Defined.

Record PeerRoutes := mkRoutes { rt_urls : list string; rt_sessions : list SessionBridge }.
Definition PeerRoutes_default : PeerRoutes := mkRoutes [] [].
#[export] Instance PeerRoutes_eq_dec : EqDecision PeerRoutes.
Proof. solve_decision. Defined.

Record PeerRegistry := mkRegistry {
  rg_inner : gmap string PeerRoutes;
  rg_demoted_urls : gmap string Z;
}.
Definition PeerRegistry_new : PeerRegistry := mkRegistry ∅ ∅.

Section registry.
Implicit Types (r : PeerRegistry) (e : PeerRoutes).

Definition has_any r : bool := negb (bool_decide (rg_inner r = ∅)).
(** The order of a HashMap's keys is unspecified; this is one of them. *)
Definition peer_ids r : list string := (map_to_list (rg_inner r)).*1.
Definition registry_get r (peer_id : string) : option PeerRoutes := rg_inner r !! peer_id.

Definition entry_or_default r (peer_id : string) : PeerRoutes :=
  default PeerRoutes_default (rg_inner r !! peer_id).
Definition put_entry r (peer_id : string) e : PeerRegistry :=
  mkRegistry (<[peer_id := e]> (rg_inner r)) (rg_demoted_urls r).

Definition push_url e (url : string) : PeerRoutes :=
  if bool_decide (url ∈ rt_urls e) then e else mkRoutes (rt_urls e ++ [url]) (rt_sessions e).
Definition push_session e (s : SessionBridge) : PeerRoutes :=
  if bool_decide (sb_bridge_id s ∈ sb_bridge_id <$> rt_sessions e) then e
  else mkRoutes (rt_urls e) (rt_sessions e ++ [s]).
Definition routes_empty e : bool :=
  bool_decide (rt_sessions e = []) && bool_decide (rt_urls e = []).

(** Expired demotions are forgotten by the look-up itself. *)
Definition is_demoted r (url : string) (now : Z) : PeerRegistry * bool :=
  let d := filter (fun kv : string * Z => (now < kv.2)%Z) (rg_demoted_urls r) in
  (mkRegistry (rg_inner r) d, is_some (d !! url)).
Definition add_url r (peer_id url : string) (now : Z) : PeerRegistry :=
  if str_is_empty peer_id || str_is_empty url then r
  else
    let '(r, demoted) := is_demoted r url now in
    if demoted : bool then r else put_entry r peer_id (push_url (entry_or_default r peer_id) url).
(** Keeps the entry only while it still has a route. *)
Definition put_or_remove r (peer_id : string) e : PeerRegistry :=
  if routes_empty e then mkRegistry (delete peer_id (rg_inner r)) (rg_demoted_urls r)
  else put_entry r peer_id e.
Definition remove_url r (peer_id url : string) (now : Z) : PeerRegistry :=
  if str_is_empty peer_id || str_is_empty url then r
  else
    let r := mkRegistry (rg_inner r) (<[url := (now + URL_DEMOTE_TTL)%Z]> (rg_demoted_urls r)) in
    match rg_inner r !! peer_id with
    | Some e =>
        put_or_remove r peer_id (mkRoutes (filter (fun u => u <> url) (rt_urls e)) (rt_sessions e))
    | None => r
    end.
Definition set_session r (peer_id : string) (session : SessionBridge) : PeerRegistry :=
  if str_is_empty peer_id then r
  else put_entry r peer_id (push_session (entry_or_default r peer_id) session).
Definition drop_bridge e (bridge_id : Z) : PeerRoutes :=
  mkRoutes (rt_urls e) (filter (fun s => sb_bridge_id s <> bridge_id) (rt_sessions e)).
Definition clear_session_by_id r (peer_id : string) (bridge_id : Z) : PeerRegistry :=
  match rg_inner r !! peer_id with
  | Some e => put_or_remove r peer_id (drop_bridge e bridge_id)
  | None => r
  end.
Definition clear_session_by_bridge_id r (bridge_id : Z) : PeerRegistry :=
  mkRegistry
    (omap (fun e => let e := drop_bridge e bridge_id in if routes_empty e then None else Some e)
       (rg_inner r))
    (rg_demoted_urls r).
Definition migrate_peer_id r (from to : string) : PeerRegistry :=
  if str_is_empty from || str_is_empty to || bool_decide (from = to) then r
  else
    match rg_inner r !! from with
    | None => r
    | Some old =>
        let r := mkRegistry (delete from (rg_inner r)) (rg_demoted_urls r) in
        put_entry r to
          (foldl push_session (foldl push_url (entry_or_default r to) (rt_urls old))
             (rt_sessions old))
    end.
End registry.

(** ** session.rs *)
(** What becomes of the waiter of a [get_final_slot]. *)
Inductive Resolution := Answered (resp : FinalSlotResponse) | Closed | Cancelled | TimedOut.

(** The waiters of one bridge, the process-wide correlation counter, and the
    outcome of every request that ended. *)
Record BridgeState := mkBridgeState {
  bs_next_corr : Z;
  bs_pending : gset Z;
  bs_resolved : list (Z * Resolution);
}.
Definition BridgeState_new (corr : Z) : BridgeState := mkBridgeState corr ∅ [].

Section session.
Implicit Types (b : BridgeState).

(** The id is taken and its waiter registered before the message is sent. *)
Definition request b : Z * BridgeState :=
  (bs_next_corr b,
   mkBridgeState (wrapping_add_u64 (bs_next_corr b) 1) ({[bs_next_corr b]} ∪ bs_pending b)
     (bs_resolved b)).
(** [pending.remove(&corr)]: a waiter that is gone already keeps its outcome. *)
Definition resolve b (corr : Z) (res : Resolution) : BridgeState :=
  if bool_decide (corr ∈ bs_pending b) then
    mkBridgeState (bs_next_corr b) (bs_pending b ∖ {[corr]}) (bs_resolved b ++ [(corr, res)])
  else b.
(** The send to the remote failed. *)
Definition send_failed b (corr : Z) : BridgeState := resolve b corr Closed.
(** An answer for nobody is dropped. *)
Definition complete b (id : Z) (resp : FinalSlotResponse) : BridgeState := resolve b id (Answered resp).
(** RPC_TIMEOUT elapsed. *)
Definition timed_out b (corr : Z) : BridgeState := resolve b corr TimedOut.
Definition fail_pending b : BridgeState :=
  mkBridgeState (bs_next_corr b) ∅
    (bs_resolved b ++ ((fun corr => (corr, Cancelled)) <$> elements (bs_pending b))).

(** What happens on a bridge, in the order of its locks; the label is the
    correlation id the step takes from the process-wide counter. Another bridge
    of the process may take one in between: the label of [bs_other] is the id
    lost to this bridge. *)
Inductive bridge_event := Requested (corr : Z) | Elsewhere (corr : Z) | Settled.
#[export] Instance bridge_event_eq_dec : EqDecision bridge_event.
Proof. solve_decision. Defined.
Inductive bridge_step : BridgeState -> bridge_event -> BridgeState -> Prop :=
| bs_request b : bridge_step b (Requested (request b).1) (request b).2
| bs_other b :
    bridge_step b (Elsewhere (bs_next_corr b))
      (mkBridgeState (wrapping_add_u64 (bs_next_corr b) 1) (bs_pending b) (bs_resolved b))
| bs_send_failed b corr : bridge_step b Settled (send_failed b corr)
| bs_complete b id resp : bridge_step b Settled (complete b id resp)
| bs_timed_out b corr : bridge_step b Settled (timed_out b corr)
| bs_fail_pending b : bridge_step b Settled (fail_pending b).

(** A run of a bridge, its events in order. *)
Inductive bridge_run (b : BridgeState) : list bridge_event -> BridgeState -> Prop :=
| br_start : bridge_run b [] b
| br_step es b1 e b2 : bridge_run b es b1 -> bridge_step b1 e b2 -> bridge_run b (es ++ [e]) b2.

(** The ids of this bridge's own requests, and the number of ids taken. *)
Definition requested (es : list bridge_event) : list Z :=
  omap (fun e => match e with Requested c => Some c | _ => None end) es.
Definition ids_taken (es : list bridge_event) : Z :=
  Z.of_nat (length (filter (fun e => e <> Settled) es)).
End session.

(** ** Registry steps *)
(** What the processes of an indexer do to the registry; each step carries the
    clock reading it makes. *)
Inductive registry_op :=
| AddUrl (peer_id url : string) | RemoveUrl (peer_id url : string)
| SetSession (peer_id : string) (s : SessionBridge)
| ClearSession (peer_id : string) (bridge_id : Z) | ClearBridge (bridge_id : Z)
| MigratePeer (from to : string).
Definition apply_registry_op (r : PeerRegistry) (now : Z) (op : registry_op) : PeerRegistry :=
  match op with
  | AddUrl p u => add_url r p u now
  | RemoveUrl p u => remove_url r p u now
  | SetSession p s => set_session r p s
  | ClearSession p b => clear_session_by_id r p b
  | ClearBridge b => clear_session_by_bridge_id r b
  | MigratePeer a b => migrate_peer_id r a b
  end.
Definition apply_registry_ops (r : PeerRegistry) (ops : list (Z * registry_op)) : PeerRegistry :=
  foldl (fun r e => apply_registry_op r e.1 e.2) r ops.
