(* ===== verification/RegistryProps.v ===== *)
(** * The registry and bridge invariants

    Every registry operation keeps the registry well-formed, a demoted URL
    stays unlisted while its demotion lasts, a closed bridge leaves no route,
    and a session bridge settles each of its requests at most once. *)

From S2P Require Import Prelude Proto Codec Registry.

(** ** Well-formed registries *)
Record routes_wf (e : PeerRoutes) : Prop := {
  rw_some : routes_empty e = false;
  rw_urls : NoDup (rt_urls e);
  rw_named : "" ∉ rt_urls e;
  rw_sessions : NoDup (sb_bridge_id <$> rt_sessions e);
}.
(** An entry of the registry has a route, and lists nothing twice. *)
Definition registry_wf (r : PeerRegistry) : Prop :=
  rg_inner r !! "" = None /\ map_Forall (fun _ e => routes_wf e) (rg_inner r).

Lemma routes_empty_true e : routes_empty e = true <-> rt_sessions e = [] /\ rt_urls e = [].
Proof. unfold routes_empty. rewrite andb_true_iff, !bool_decide_eq_true. done. Qed.
Lemma routes_empty_false e : routes_empty e = false <-> rt_sessions e <> [] \/ rt_urls e <> [].
Proof.
  rewrite <-not_true_iff_false, routes_empty_true.
  destruct (rt_sessions e), (rt_urls e); naive_solver.
Qed.

Lemma push_url_spec e u : rt_urls (push_url e u) = rt_urls e ++ (if bool_decide (u ∈ rt_urls e) then [] else [u]).
Proof. unfold push_url. case_bool_decide; [by rewrite app_nil_r|done]. Qed.
Lemma elem_of_push_url e u v : v ∈ rt_urls (push_url e u) <-> v ∈ rt_urls e \/ v = u.
Proof. rewrite push_url_spec. case_bool_decide; set_solver. Qed.
Lemma push_url_sessions e u : rt_sessions (push_url e u) = rt_sessions e.
Proof. unfold push_url. by case_bool_decide. Qed.
Lemma push_session_urls e s : rt_urls (push_session e s) = rt_urls e.
Proof. unfold push_session. by case_bool_decide. Qed.

(** Entries under construction: nothing listed twice. *)
Definition routes_pre (e : PeerRoutes) : Prop :=
  NoDup (rt_urls e) /\ "" ∉ rt_urls e /\ NoDup (sb_bridge_id <$> rt_sessions e).
Lemma routes_wf_pre e : routes_wf e <-> routes_pre e /\ routes_empty e = false.
Proof. unfold routes_pre. split; [intros []; eauto|intros [(?&?&?) ?]; by constructor]. Qed.

Lemma push_url_pre e u : routes_pre e -> u <> "" -> routes_pre (push_url e u).
Proof.
  intros (Hu&He&Hs) Hne. unfold push_url. case_bool_decide as Hin; [done|].
  split_and!; cbn; [|set_solver|done].
  apply NoDup_app; split_and!; [done|set_solver|apply NoDup_singleton].
Qed.
Lemma push_session_pre e s : routes_pre e -> routes_pre (push_session e s).
Proof.
  intros (Hu&He&Hs). unfold push_session. case_bool_decide as Hin; [done|].
  split_and!; cbn; [done..|]. rewrite fmap_app.
  apply NoDup_app; split_and!; [done|set_solver|apply NoDup_singleton].
Qed.
Lemma push_url_filled e u : routes_empty (push_url e u) = false.
Proof. apply routes_empty_false. right. intros E. pose proof (proj2 (elem_of_push_url e u u) (or_intror eq_refl)). rewrite E in *. set_solver. Qed.
Lemma push_session_filled e s : routes_empty (push_session e s) = false.
Proof.
  apply routes_empty_false. left. unfold push_session.
  case_bool_decide as Hin; [by destruct (rt_sessions e); [set_solver|]|cbn; by destruct (rt_sessions e)].
Qed.
Lemma foldl_push_url_pre us e : routes_pre e -> "" ∉ us -> routes_pre (foldl push_url e us).
Proof.
  induction us as [|u us IH] in e |- *; cbn; [done|]. intros He Hus.
  apply IH; [apply push_url_pre; set_solver|set_solver].
Qed.
Lemma foldl_push_session_pre ss e : routes_pre e -> routes_pre (foldl push_session e ss).
Proof. induction ss as [|s ss IH] in e |- *; cbn; [done|]. intros He. by apply IH, push_session_pre. Qed.
Lemma elem_of_foldl_push_url us e v :
  v ∈ rt_urls (foldl push_url e us) <-> v ∈ rt_urls e \/ v ∈ us.
Proof.
  induction us as [|u us IH] in e |- *; cbn; [set_solver|]. rewrite IH, elem_of_push_url. set_solver.
Qed.
Lemma foldl_push_session_urls ss e : rt_urls (foldl push_session e ss) = rt_urls e.
Proof. induction ss as [|s ss IH] in e |- *; cbn; [done|]. by rewrite IH, push_session_urls. Qed.
Lemma elem_of_push_session e s i :
  i ∈ sb_bridge_id <$> rt_sessions (push_session e s)
  <-> i ∈ sb_bridge_id <$> rt_sessions e \/ i = sb_bridge_id s.
Proof. unfold push_session. case_bool_decide; cbn; [|rewrite fmap_app]; set_solver. Qed.
Lemma elem_of_foldl_push_session ss e i :
  i ∈ sb_bridge_id <$> rt_sessions (foldl push_session e ss)
  <-> i ∈ sb_bridge_id <$> rt_sessions e \/ i ∈ sb_bridge_id <$> ss.
Proof.
  induction ss as [|s ss IH] in e |- *; cbn; [set_solver|]. rewrite IH, elem_of_push_session. set_solver.
Qed.
Lemma foldl_push_url_sessions us e : rt_sessions (foldl push_url e us) = rt_sessions e.
Proof. induction us as [|u us IH] in e |- *; cbn; [done|]. by rewrite IH, push_url_sessions. Qed.

(** The merged entry of [migrate_peer_id] has a route when either part has. *)
Lemma merged_filled e old :
  routes_empty old = false ->
  routes_empty (foldl push_session (foldl push_url e (rt_urls old)) (rt_sessions old)) = false.
Proof.
  rewrite !routes_empty_false. intros Hold.
  destruct (rt_sessions old) as [|s ss] eqn:Es.
  - right. rewrite foldl_push_session_urls. destruct Hold as [|Hu]; [done|].
    destruct (rt_urls old) as [|u us]; [done|]. intros E.
    pose proof (proj2 (elem_of_foldl_push_url (u :: us) e u)) as Hin. rewrite E in Hin. set_solver.
  - left. intros E.
    pose proof (proj2 (elem_of_foldl_push_session (s :: ss) (foldl push_url e (rt_urls old))
                  (sb_bridge_id s))) as Hin.
    rewrite E in Hin. set_solver.
Qed.

Section wf.
Implicit Types (r : PeerRegistry) (e : PeerRoutes).

Lemma registry_wf_routes r p e : registry_wf r -> rg_inner r !! p = Some e -> routes_wf e.
Proof. intros [_ Hr] Hp. by eapply Hr. Qed.
Lemma entry_or_default_pre r p : registry_wf r -> routes_pre (entry_or_default r p).
Proof.
  intros Hr. unfold entry_or_default. destruct (rg_inner r !! p) as [e|] eqn:Hp; cbn.
  - by eapply routes_wf_pre, registry_wf_routes.
  - split_and!; cbn; [apply NoDup_nil_2|set_solver|apply NoDup_nil_2].
Qed.
Lemma demoted_irrelevant r d : registry_wf (mkRegistry (rg_inner r) d) <-> registry_wf r.
Proof. done. Qed.
Lemma put_entry_wf r p e : registry_wf r -> p <> "" -> routes_wf e -> registry_wf (put_entry r p e).
Proof.
  intros [Hk Hr] Hp He. split; cbn.
  - by rewrite lookup_insert_ne.
  - by apply map_Forall_insert_2.
Qed.
Lemma delete_entry_wf r p d : registry_wf r -> registry_wf (mkRegistry (delete p (rg_inner r)) d).
Proof.
  intros [Hk Hr]. split; cbn; [rewrite lookup_delete_None; by right|by apply map_Forall_delete].
Qed.
Lemma put_or_remove_wf r p e :
  registry_wf r -> p <> "" -> routes_pre e -> registry_wf (put_or_remove r p e).
Proof.
  intros Hr Hp He. unfold put_or_remove. destruct (routes_empty e) eqn:Hne.
  - by apply delete_entry_wf.
  - apply put_entry_wf; [done..|]. by apply routes_wf_pre.
Qed.
Lemma lookup_named r p e : registry_wf r -> rg_inner r !! p = Some e -> p <> "".
Proof. intros [Hk _] Hp ->. congruence. Qed.
Lemma drop_bridge_pre e i : routes_pre e -> routes_pre (drop_bridge e i).
Proof.
  intros (?&?&Hs). split_and!; cbn; [done..|].
  eapply sublist_NoDup; [done|apply fmap_sublist, sublist_filter].
Qed.
End wf.

(** ** What a bridge or a URL reaches *)
Definition lists_url (r : PeerRegistry) (url : string) : Prop :=
  exists p e, rg_inner r !! p = Some e /\ url ∈ rt_urls e.
Definition routes_bridge (r : PeerRegistry) (i : Z) : Prop :=
  exists p e, rg_inner r !! p = Some e /\ i ∈ sb_bridge_id <$> rt_sessions e.

Section steps.
Implicit Types (r : PeerRegistry) (e : PeerRoutes).

Lemma is_demoted_wf r u now : registry_wf (is_demoted r u now).1 <-> registry_wf r.
Proof. done. Qed.
Lemma str_nonempty s : str_is_empty s = false -> s <> "".
Proof. by destruct s. Qed.

Lemma add_url_wf r p u now : registry_wf r -> registry_wf (add_url r p u now).
Proof.
  intros Hr. unfold add_url. destruct (str_is_empty p || str_is_empty u) eqn:He; [done|].
  apply orb_false_iff in He as [Hp%str_nonempty Hu%str_nonempty].
  destruct (is_demoted r u now) as [r' []] eqn:Hd; injection Hd as <- _; [done|].
  apply put_entry_wf; [done..|]. apply routes_wf_pre. split; [|apply push_url_filled].
  apply push_url_pre; [by apply entry_or_default_pre|done].
Qed.
Lemma remove_url_wf r p u now : registry_wf r -> registry_wf (remove_url r p u now).
Proof.
  intros Hr. unfold remove_url. destruct (_ || _); [done|]. cbn.
  destruct (rg_inner r !! p) as [e|] eqn:Hp; [|done].
  apply put_or_remove_wf; [done|by eapply lookup_named|].
  pose proof (proj1 (proj1 (routes_wf_pre e) (registry_wf_routes r p e Hr Hp))) as (Hu&Hne&Hs).
  split_and!; cbn; [by apply NoDup_filter|intros Hin%list_elem_of_filter; naive_solver|done].
Qed.
Lemma set_session_wf r p s : registry_wf r -> registry_wf (set_session r p s).
Proof.
  intros Hr. unfold set_session. destruct (str_is_empty p) eqn:Hp; [done|].
  apply put_entry_wf; [done|by apply str_nonempty|]. apply routes_wf_pre.
  split; [by apply push_session_pre, entry_or_default_pre|apply push_session_filled].
Qed.
Lemma clear_session_wf r p i : registry_wf r -> registry_wf (clear_session_by_id r p i).
Proof.
  intros Hr. unfold clear_session_by_id. destruct (rg_inner r !! p) as [e|] eqn:Hp; [|done].
  apply put_or_remove_wf; [done|by eapply lookup_named|].
  apply drop_bridge_pre. by eapply routes_wf_pre, registry_wf_routes.
Qed.
Lemma clear_bridge_lookup r i p :
  rg_inner (clear_session_by_bridge_id r i) !! p =
  (e ← rg_inner r !! p;
   if routes_empty (drop_bridge e i) then None else Some (drop_bridge e i)).
Proof. cbn. rewrite lookup_omap. by destruct (rg_inner r !! p). Qed.
Lemma clear_bridge_wf r i : registry_wf r -> registry_wf (clear_session_by_bridge_id r i).
Proof.
  intros Hr. split.
  - rewrite clear_bridge_lookup. by rewrite (proj1 Hr).
  - intros p e'. rewrite clear_bridge_lookup. destruct (rg_inner r !! p) as [e|] eqn:Hp; cbn; [|done].
    destruct (routes_empty (drop_bridge e i)) eqn:He; [done|]. intros [= <-].
    apply routes_wf_pre. split; [|done]. apply drop_bridge_pre. by eapply routes_wf_pre, registry_wf_routes.
Qed.
Lemma migrate_wf r a b : registry_wf r -> registry_wf (migrate_peer_id r a b).
Proof.
  intros Hr. unfold migrate_peer_id.
  destruct (str_is_empty a || str_is_empty b || bool_decide (a = b)) eqn:Hc; [done|].
  apply orb_false_iff in Hc as [[_ Hb%str_nonempty]%orb_false_iff _].
  destruct (rg_inner r !! a) as [old|] eqn:Ha; [|done].
  pose proof (registry_wf_routes r a old Hr Ha) as Hold.
  assert (Hr' : registry_wf (mkRegistry (delete a (rg_inner r)) (rg_demoted_urls r)))
    by by apply delete_entry_wf.
  apply put_entry_wf; [done..|]. apply routes_wf_pre. split.
  - apply foldl_push_session_pre, foldl_push_url_pre; [by apply entry_or_default_pre|apply Hold].
  - by apply merged_filled, Hold.
Qed.

Lemma apply_registry_op_wf r now op : registry_wf r -> registry_wf (apply_registry_op r now op).
Proof.
  destruct op; cbn; auto using add_url_wf, remove_url_wf, set_session_wf, clear_session_wf,
    clear_bridge_wf, migrate_wf.
Qed.

(** A demotion that has not expired at [until] and a URL nobody lists. *)
Definition suppressed r (url : string) (until : Z) : Prop :=
  (exists t, rg_demoted_urls r !! url = Some t /\ until <= t)%Z /\ ~ lists_url r url.

Lemma lists_put r p e u :
  lists_url (put_entry r p e) u -> u ∈ rt_urls e \/ lists_url r u.
Proof.
  intros (q&e'&Hq&Hu). cbn in Hq. apply lookup_insert_Some in Hq as [[-> ->]|[_ Hq]]; [by left|].
  right. by exists q, e'.
Qed.
Lemma lists_delete r p d u : lists_url (mkRegistry (delete p (rg_inner r)) d) u -> lists_url r u.
Proof. intros (q&e&Hq&Hu). cbn in Hq. apply lookup_delete_Some in Hq as [_ Hq]. by exists q, e. Qed.
Lemma lists_put_or_remove r p e u :
  lists_url (put_or_remove r p e) u -> u ∈ rt_urls e \/ lists_url r u.
Proof. unfold put_or_remove. destruct (routes_empty e); [intros ?%lists_delete; by right|apply lists_put]. Qed.
Lemma entry_or_default_listed r p u : u ∈ rt_urls (entry_or_default r p) -> lists_url r u.
Proof.
  unfold entry_or_default. destruct (rg_inner r !! p) as [e|] eqn:Hp; cbn; [by exists p, e|set_solver].
Qed.

(** Only [add_url] lists a URL that was listed nowhere. *)
Lemma step_lists r now op u :
  lists_url (apply_registry_op r now op) u ->
  lists_url r u \/ exists p, op = AddUrl p u /\ (is_demoted r u now).2 = false.
Proof.
  destruct op as [p u'|p u'|p s|p i|i|a b]; cbn.
  - unfold add_url. destruct (_ || _); [by left|].
    destruct (is_demoted r u' now) as [r' []] eqn:Hd; injection Hd as <- Hd; [by left|].
    intros [Hin%elem_of_push_url|?]%lists_put; [|by left].
    destruct Hin as [Hin| ->]; [left; by apply entry_or_default_listed in Hin|].
    right. exists p. by rewrite <-Hd.
  - unfold remove_url. destruct (_ || _); [by left|]. cbn.
    destruct (rg_inner r !! p) as [e|] eqn:Hp; [|by left].
    intros [[_ Hin]%list_elem_of_filter|?]%lists_put_or_remove; left; [by exists p, e|done].
  - unfold set_session. destruct (str_is_empty p); [by left|].
    intros [Hin|?]%lists_put; left; [|done].
    rewrite push_session_urls in Hin. by apply entry_or_default_listed in Hin.
  - unfold clear_session_by_id. destruct (rg_inner r !! p) as [e|] eqn:Hp; [|by left].
    intros [Hin|?]%lists_put_or_remove; left; [by exists p, e|done].
  - intros (q&e'&Hq&Hu). rewrite clear_bridge_lookup in Hq.
    destruct (rg_inner r !! q) as [e|] eqn:Hr; [|done]. cbn in Hq.
    destruct (routes_empty _); [done|]. injection Hq as <-. left. by exists q, e.
  - unfold migrate_peer_id. destruct (_ || _ || _); [by left|].
    destruct (rg_inner r !! a) as [old|] eqn:Ha; [|by left].
    intros [Hin|?%lists_delete]%lists_put; left; [|done].
    rewrite foldl_push_session_urls, elem_of_foldl_push_url in Hin.
    destruct Hin as [Hin|Hin]; [|by exists a, old].
    apply entry_or_default_listed, lists_delete in Hin. done.
Qed.
Lemma step_demotion r now op u t :
  rg_demoted_urls r !! u = Some t -> (now < t)%Z ->
  exists t', rg_demoted_urls (apply_registry_op r now op) !! u = Some t' /\
    (t' = t \/ t' = now + URL_DEMOTE_TTL)%Z.
Proof.
  intros Hu Hnow.
  assert (Hsame : forall r', rg_demoted_urls r' !! u = Some t -> exists t', rg_demoted_urls r' !! u = Some t' /\
    (t' = t \/ t' = now + URL_DEMOTE_TTL)%Z) by eauto.
  destruct op as [p u'|p u'|p s|p i|i|a b]; cbn.
  - unfold add_url. destruct (_ || _); [by eauto|]. cbn.
    assert (filter (fun kv : string * Z => (now < kv.2)%Z) (rg_demoted_urls r) !! u = Some t)
      by by apply map_lookup_filter_Some_2.
    destruct (is_some _); cbn; eauto.
  - unfold remove_url. destruct (_ || _); [by eauto|]. cbn.
    assert (exists t', <[u':=(now + URL_DEMOTE_TTL)%Z]> (rg_demoted_urls r) !! u = Some t' /\
      (t' = t \/ t' = now + URL_DEMOTE_TTL)%Z).
    { destruct (decide (u' = u)) as [->|]; [rewrite lookup_insert_eq; eauto|].
      rewrite lookup_insert_ne by done. eauto. }
    destruct (rg_inner r !! p); [|done]. unfold put_or_remove. by destruct (routes_empty _).
  - unfold set_session. by destruct (str_is_empty p); eauto.
  - unfold clear_session_by_id. destruct (rg_inner r !! p); [|by eauto].
    unfold put_or_remove. by destruct (routes_empty _); eauto.
  - by eauto.
  - unfold migrate_peer_id. destruct (_ || _ || _); [by eauto|].
    by destruct (rg_inner r !! a); eauto.
Qed.
Lemma step_suppressed r now op u until :
  suppressed r u until -> (until - URL_DEMOTE_TTL <= now < until)%Z ->
  suppressed (apply_registry_op r now op) u until.
Proof.
  intros [(t&Ht&Hle) Hno] Hnow. split.
  - destruct (step_demotion r now op u t Ht ltac:(lia)) as (t'&Ht'&Hor). exists t'. split; [done|lia].
  - intros [?|(p&->&Hd)]%step_lists; [done|]. unfold is_demoted in Hd. cbn in Hd.
    assert (filter (fun kv : string * Z => (now < kv.2)%Z) (rg_demoted_urls r) !! u = Some t) as Hf.
    { apply map_lookup_filter_Some_2; [done|cbn; lia]. }
    rewrite Hf in Hd. done.
Qed.
End steps.

(** C27. Whatever the indexer does to the registry, starting empty: no entry is
    keyed by the empty id, every entry has a URL or a session, and no entry
    lists a URL or a bridge twice (nor the empty URL). *)
Theorem registry_stays_wf (ops : list (Z * registry_op)) :
  registry_wf (apply_registry_ops PeerRegistry_new ops).
Proof.
  unfold apply_registry_ops.
  assert (Hr : registry_wf PeerRegistry_new) by (split; [done|apply map_Forall_empty]).
  generalize dependent PeerRegistry_new.
  induction ops as [|op ops IH]; intros r Hr; cbn; [done|]. by apply IH, apply_registry_op_wf.
Qed.

(** A URL dropped after a failure stays out: when no other entry lists it,
    nothing the indexer does in the next [URL_DEMOTE_TTL] milliseconds (the
    peers re-advertising it, entries migrating, sessions coming and going)
    lists it again. *)
Lemma demoted_url_stays_out r p url now ops :
  p <> "" -> url <> "" -> ~ lists_url (remove_url r p url now) url ->
  Forall (fun e : Z * registry_op => (now <= e.1 < now + URL_DEMOTE_TTL)%Z) ops ->
  ~ lists_url (apply_registry_ops (remove_url r p url now) ops) url.
Proof.
  intros Hp Hu Hno Hops.
  assert (Hs : suppressed (remove_url r p url now) url (now + URL_DEMOTE_TTL)).
  { split; [|done]. exists (now + URL_DEMOTE_TTL)%Z. split; [|done].
    unfold remove_url. destruct p, url; [done..|]. cbn.
    destruct (rg_inner r !! _); [unfold put_or_remove; destruct (routes_empty _)|];
      cbn; apply lookup_insert_eq. }
  clear Hno. unfold apply_registry_ops.
  generalize dependent (remove_url r p url now).
  induction Hops as [|[n op] ops Hn _ IH]; intros r' Hs; cbn; [apply Hs|].
  apply IH. cbn in Hn. apply step_suppressed; [done|lia].
Qed.

(** When a bridge closes, no entry routes through it any more, and every
    entry keeps its URLs and its other bridges in order; an entry left without
    a route disappears. *)
Lemma closed_bridge_unrouted r i p :
  ~ routes_bridge (clear_session_by_bridge_id r i) i /\
  rt_urls (entry_or_default (clear_session_by_bridge_id r i) p) = rt_urls (entry_or_default r p) /\
  rt_sessions (entry_or_default (clear_session_by_bridge_id r i) p) =
    filter (fun s => sb_bridge_id s <> i) (rt_sessions (entry_or_default r p)) /\
  (forall e, registry_get (clear_session_by_bridge_id r i) p = Some e -> routes_empty e = false).
Proof.
  unfold entry_or_default, registry_get. rewrite clear_bridge_lookup. split_and!.
  - intros (q&e'&Hq&Hi). rewrite clear_bridge_lookup in Hq.
    destruct (rg_inner r !! q) as [e|]; [|done]. cbn in Hq.
    destruct (routes_empty _); [done|]. injection Hq as <-. cbn in Hi.
    apply list_elem_of_fmap in Hi as (s&->&[Hs _]%list_elem_of_filter). done.
  - destruct (rg_inner r !! p) as [e|]; [|done]. cbn.
    destruct (routes_empty (drop_bridge e i)) eqn:He; [|done]. cbn.
    apply routes_empty_true in He as [_ He]. cbn in He. by rewrite He.
  - destruct (rg_inner r !! p) as [e|]; [|done]. cbn.
    destruct (routes_empty (drop_bridge e i)) eqn:He; [|done]. cbn.
    apply routes_empty_true in He as [He _]. by cbn in He.
  - intros e. destruct (rg_inner r !! p) as [e0|]; [|done]. cbn.
    destruct (routes_empty (drop_bridge e0 i)) eqn:He; [done|]. by intros [= <-].
Qed.

(** ** The bridge *)
(** After the events [es] of a bridge created when the counter stood at [c0]:
    the requests in flight and the requests ended partition the requests made,
    and none ended twice. *)
Record bridge_inv (c0 : Z) (es : list bridge_event) (b : BridgeState) : Prop := {
  bi_next : bs_next_corr b = (c0 + ids_taken es)%Z;
  bi_below : Forall (fun c => c < bs_next_corr b)%Z (requested es);
  bi_nodup : NoDup (requested es);
  bi_once : NoDup (bs_resolved b).*1;
  bi_split : forall c, c ∈ requested es <-> c ∈ bs_pending b \/ c ∈ (bs_resolved b).*1;
  bi_disjoint : forall c, c ∈ bs_pending b -> c ∉ (bs_resolved b).*1;
}.

Lemma ids_taken_app es e :
  ids_taken (es ++ [e]) = (ids_taken es + if decide (e = Settled) then 0 else 1)%Z.
Proof.
  unfold ids_taken. rewrite filter_app, length_app.
  rewrite filter_cons, filter_nil.
  destruct (decide (e <> Settled)), (decide (e = Settled)); try done; cbn [length]; lia.
Qed.
Lemma ids_taken_settled es : ids_taken (es ++ [Settled]) = ids_taken es.
Proof. rewrite ids_taken_app, decide_True by done. lia. Qed.
Lemma ids_taken_id es e : e <> Settled -> ids_taken (es ++ [e]) = (ids_taken es + 1)%Z.
Proof. intros He. by rewrite ids_taken_app, decide_False by done. Qed.
Lemma ids_taken_mono es e : (0 <= ids_taken es <= ids_taken (es ++ [e]))%Z.
Proof. rewrite ids_taken_app. unfold ids_taken at 1. destruct (decide _); unfold ids_taken; lia. Qed.
Lemma requested_app es e : requested (es ++ [e]) = requested es ++ requested [e].
Proof. apply omap_app. Qed.
Lemma requested_settled es : requested (es ++ [Settled]) = requested es.
Proof. rewrite requested_app. apply app_nil_r. Qed.

(** One waiter leaves [pending] with a resolution. *)
Lemma resolve_inv c0 es b corr res :
  bridge_inv c0 es b -> bridge_inv c0 (es ++ [Settled]) (resolve b corr res).
Proof.
  intros [Hn Hb Hnd Ho Hs Hd]. unfold resolve. case_bool_decide as Hin.
  2:{ constructor; rewrite ?requested_settled, ?ids_taken_settled; cbn; done. }
  assert (Hfr : corr ∉ (bs_resolved b).*1) by by apply Hd.
  constructor; rewrite ?requested_settled, ?ids_taken_settled; cbn.
  - lia.
  - done.
  - done.
  - rewrite fmap_app. apply NoDup_app; split_and!; [done|set_solver|apply NoDup_singleton].
  - intros c. rewrite fmap_app, Hs. destruct (decide (c = corr)) as [->|]; set_solver.
  - intros c. rewrite fmap_app. specialize (Hd c). set_solver.
Qed.
Lemma fresh_requested es c n : Forall (fun c => c < n)%Z (requested es) -> (n <= c)%Z -> c ∉ requested es.
Proof. intros Hb Hc Hin. rewrite Forall_forall in Hb. specialize (Hb c Hin). lia. Qed.

Lemma cancelled_ids (p : gset Z) :
  ((fun corr => (corr, Cancelled)) <$> elements p).*1 = elements p.
Proof. rewrite <-list_fmap_compose. apply list_fmap_id. Qed.

Lemma bridge_step_inv c0 es b e b' :
  (0 <= c0)%Z -> (c0 + ids_taken (es ++ [e]) < 2 ^ 64)%Z ->
  bridge_inv c0 es b -> bridge_step b e b' -> bridge_inv c0 (es ++ [e]) b'.
Proof.
  intros Hc0 Hbound Hinv Hstep. pose proof (ids_taken_mono es e) as Hm.
  assert (Hwrap : e <> Settled ->
    wrapping_add_u64 (bs_next_corr b) 1 = (c0 + ids_taken (es ++ [e]))%Z /\
    (ids_taken (es ++ [e]) = ids_taken es + 1)%Z).
  { intros He. rewrite (bi_next _ _ _ Hinv). unfold wrapping_add_u64.
    rewrite ids_taken_id in * by done. split; [rewrite Z.mod_small; lia|done]. }
  destruct Hstep as [b|b|b corr|b id resp|b corr|b].
  - pose proof (fresh_requested es (bs_next_corr b) _ (bi_below _ _ _ Hinv) ltac:(lia)) as Hfr.
    destruct Hinv as [Hn Hb Hnd Ho Hs Hd]. destruct (Hwrap ltac:(done)) as [Hnext Htaken].
    constructor; rewrite ?requested_app; cbn.
    + done.
    + rewrite Hnext. apply Forall_app. split.
      * eapply Forall_impl; [exact Hb|]. cbv beta. lia.
      * repeat constructor. lia.
    + apply NoDup_app; split_and!; [done|set_solver|apply NoDup_singleton].
    + done.
    + intros c. specialize (Hs c). set_solver.
    + intros c [->%elem_of_singleton|Hc]%elem_of_union Hr; [apply Hfr, Hs; by right|by eapply Hd].
  - destruct Hinv as [Hn Hb Hnd Ho Hs Hd]. destruct (Hwrap ltac:(done)) as [Hnext Htaken].
    constructor; rewrite ?requested_app; cbn; rewrite ?app_nil_r; try done.
    rewrite Hnext. eapply Forall_impl; [exact Hb|]. cbv beta. lia.
  - by apply resolve_inv.
  - by apply resolve_inv.
  - by apply resolve_inv.
  - destruct Hinv as [Hn Hb Hnd Ho Hs Hd].
    constructor; rewrite ?requested_settled, ?ids_taken_settled; cbn; rewrite ?fmap_app, ?cancelled_ids; try done.
    + apply NoDup_app; split_and!; [done| |apply NoDup_elements].
      intros c Hc Hc'%elem_of_elements. by eapply Hd.
    + intros c. rewrite Hs, elem_of_app, elem_of_elements. set_solver.
Qed.

(** C26. Every [get_final_slot] of a session bridge ends at most once: along any
    run of a bridge (requests, answers in any order, unknown ids, time-outs,
    failed sends, the connection closing), while the 64-bit correlation counter
    does not wrap, the ids it took are distinct, a request still has its waiter
    exactly when it has no outcome, and no request has two outcomes; once the
    connection closed every request made has exactly one. *)
Theorem bridge_settles_once c0 es b :
  (0 <= c0)%Z -> (c0 + ids_taken es < 2 ^ 64)%Z -> bridge_run (BridgeState_new c0) es b ->
  NoDup (requested es) /\ NoDup (bs_resolved b).*1 /\
  (forall c, c ∈ requested es <-> c ∈ bs_pending b \/ c ∈ (bs_resolved b).*1) /\
  (forall c, c ∈ bs_pending b -> c ∉ (bs_resolved b).*1) /\
  (bs_resolved (fail_pending b)).*1 ≡ₚ requested es.
Proof.
  intros Hc0 Hbound Hrun.
  assert (Hinv : forall es' b', (c0 + ids_taken es' < 2 ^ 64)%Z ->
    bridge_run (BridgeState_new c0) es' b' -> bridge_inv c0 es' b').
  { intros es' b' Hb' Hrun'. induction Hrun' as [|es1 b1 e b2 Hr IH Hs].
    - constructor; cbn; try apply NoDup_nil_2; [unfold ids_taken; cbn; lia|constructor|set_solver..].
    - pose proof (ids_taken_mono es1 e). eapply bridge_step_inv; [done|done| |done]. apply IH. lia. }
  pose proof (Hinv _ _ Hbound Hrun) as [Hn Hb Hnd Ho Hs Hd]. split_and!; [done..|].
  cbn. rewrite fmap_app, cancelled_ids. apply NoDup_Permutation; [|done|].
  - apply NoDup_app; split_and!; [done| |apply NoDup_elements].
    intros c Hc Hc'%elem_of_elements. by eapply Hd.
  - intros c. rewrite elem_of_app, elem_of_elements, Hs. naive_solver.
Qed.

(** ** Witnesses *)
Lemma demoted_url_stays_out_witness :
  ~ lists_url (apply_registry_ops
      (remove_url (add_url PeerRegistry_new "p" "u" 0) "p" "u" 5)
      [(6%Z, AddUrl "p" "u"); (7%Z, AddUrl "q" "v"); (8%Z, MigratePeer "q" "p")]) "u".
Proof.
  apply demoted_url_stays_out; [done|done| |by repeat constructor].
  intros (q&e&Hq&_). vm_compute in Hq. destruct q; discriminate Hq.
Defined.

Lemma bridge_settles_once_witness :
  exists b, bridge_run (BridgeState_new 1) [Requested 1; Elsewhere 2; Requested 3; Settled] b /\
    (bs_resolved (fail_pending b)).*1 ≡ₚ [1%Z; 3%Z].
Proof.
  assert (Hr : exists b, bridge_run (BridgeState_new 1)
    ([Requested 1; Elsewhere 2; Requested 3] ++ [Settled]) b).
  { eexists. eapply br_step; [|apply (bs_complete _ 3 FinalSlotResponse_default)].
    change [Requested 1; Elsewhere 2; Requested 3]
      with ((([] ++ [Requested 1]) ++ [Elsewhere 2]) ++ [Requested 3]).
    eapply br_step; [eapply br_step; [eapply br_step; [apply br_start|]|]|].
    - apply (bs_request (BridgeState_new 1)).
    - apply (bs_other (request (BridgeState_new 1)).2).
    - refine (bs_request _). }
  destruct Hr as [b Hr]. exists b. split; [exact Hr|].
  refine (proj2 (proj2 (proj2 (proj2 (bridge_settles_once 1 _ _ _ _ Hr)))));
    vm_compute; [intros [=]|done].
Defined.
