(* ===== verification/PeerService.v ===== *)
(** * The peer gRPC service (src/massa-indexer/src/peer/service.rs)

    What this indexer answers to its peers. The transport (tonic), the clock
    and the session loop's channels are left out: an RPC is a function of the
    store, the registry and the request. *)

From S2P Require Import Prelude Ids Keys Model Proto Codec Store Text Db Registry.

(** ** The messages of peer.proto *)
Record HealthRequest := mkHealthRequest {
  hq_caller_peer_id : string; hq_caller_network : string; hq_advertise_url : string }.
Record HealthResponse := mkHealthResponse {
  hr_peer_id : string;
  hr_network : string;
  hr_build_version : string;
  hr_last_final_period : Z;
  hr_last_final_thread : Z;
  hr_now_ms : Z;
  hr_schema_version : Z;
}.
Record FinalSlotRequest := mkSlotRequest {
  rq_period : Z; rq_thread : Z; rq_parts : option FinalSlotParts }.
Record StreamFinalSlotsRequest := mkStreamRequest {
  sr_from_period : Z; sr_from_thread : Z; sr_to_period : Z; sr_to_thread : Z;
  sr_parts : option FinalSlotParts; sr_limit : Z }.
Record SessionHello := mkHello {
  hl_peer_id : string; hl_network : string; hl_build_version : string;
  hl_schema_version : Z; hl_advertise_url : string }.
Inductive SessionBody :=
| BodyHello (h : SessionHello) | BodySlotRequest (req : FinalSlotRequest)
| BodySlotResponse (resp : FinalSlotResponse).
Record SessionMessage := mkSessionMessage { sm_id : Z; sm_body : option SessionBody }.

(** [tonic::Status]. *)
Inductive Status :=
| InvalidArgument (msg : string) | FailedPrecondition (msg : string) | Internal (e : Error).

Definition make_hello (peer_id network build_version : string) (schema_version : Z)
    (advertise_url : string) : SessionMessage :=
  mkSessionMessage 0
    (Some (BodyHello (mkHello peer_id network build_version schema_version advertise_url))).

Section service.
Context `{Bs58, Base64, HexCrate, ProstStorage, RocksDB}.
Implicit Types (d : DB) (s : SlotState) (parts : FinalSlotParts).

Record PeerService := mkService {
  ps_db : DB;
  ps_peer_id : string;
  ps_network : string;
  ps_build_version : string;
  ps_advertise_url : string;
  ps_registry : PeerRegistry;
  ps_stream_limit_cap : Z;
}.
Definition PeerService_new (db : DB) (peer_id network build_version advertise_url : string)
    (registry : PeerRegistry) : PeerService :=
  mkService db peer_id network build_version advertise_url registry 512.

(** ** Response building *)
(** [Option::expect]: the panic ends the call. *)
Definition expect {A} (o : option A) : result Error A := ok_or (ErrOther "expect") o.
(** [match encode(x) { Ok(pb) => push(pb), Err(e) => warn!(..) }]. *)
Definition encoded {A P} (encode : A -> result CodecError P) (l : list A) : list P :=
  omap (fun a => ok (encode a)) l.

Definition unknown_slot (period thread : Z) : FinalSlotResponse :=
  FinalSlotResponse_default <| fr_period := period |> <| fr_thread := thread |>.

Definition response_head s parts : FinalSlotResponse := {|
  fr_period := slot_period (ss_slot s); fr_thread := slot_thread (ss_slot s);
  fr_final_known := true; fr_is_miss := ss_is_miss s;
  fr_execution_trail_hash := default "" (ss_execution_trail_hash s);
  fr_block := None; fr_operations := []; fr_endorsements := []; fr_sc_events := [];
  fr_executed_op_ids := []; fr_sc_event_count := 0; fr_async_msgs := []; fr_transfers := [];
  fr_deferred_calls := [];
  fr_final_block_id := default "" (id_to_string <$> ss_final_block_id s);
  fr_completeness_known := true;
  fr_has_block_body := ss_is_miss s || block_body_stored (ss_completeness s);
  fr_has_exec_output := exec_output_final (ss_completeness s);
  fr_has_transfers := transfers_stored (ss_completeness s);
  fr_parts := Some parts |}.

(** [for op_id in &block.operation_ids { if let Some(op) = db.read_op(op_id)? { .. } }]. *)
Definition read_ops d (ids : list OperationId) : result Error (list StoredOperation) :=
  match try_map (read_op d) ids with
  | Ok ops => Ok (omap (fun o : option StoredOperation => o) ops)
  | Err e => Err e
  end.
Definition block_part d s (resp : FinalSlotResponse) : result Error FinalSlotResponse :=
  match ss_final_block_id s with
  | None => Ok resp
  | Some bid =>
      body ← read_block d bid;
      match body with
      | None => Ok resp
      | Some block =>
          ops ← read_ops d (bl_operation_ids block);
          Ok (resp <| fr_block := ok (block_to_peer_pb block) |>
                   <| fr_endorsements := encoded endorsement_to_peer_pb (bl_endorsements block) |>
                   <| fr_operations := encoded operation_to_peer_pb ops |>)
      end
  end.

Definition ROW_CAP : nat := Z.to_nat 10000.
Definition exec_part d s (resp : FinalSlotResponse) : result Error FinalSlotResponse :=
  let p := slot_period (ss_slot s) in let t := slot_thread (ss_slot s) in
  events ← iter_sc_events_for_slot d p t None ROW_CAP;
  msgs ← try_map (fun m => expect (async_msg_to_peer_pb m))
           (iter_async_msgs_by_last_slot d p t ROW_CAP);
  Ok (resp <| fr_executed_op_ids := map id_to_string (ss_executed_op_ids s) |>
           <| fr_sc_event_count := ss_sc_event_count s |>
           <| fr_sc_events := encoded sc_event_to_peer_pb (pg_items events) |>
           <| fr_async_msgs := msgs |>).
Definition transfers_part d s (resp : FinalSlotResponse) : result Error FinalSlotResponse :=
  let p := slot_period (ss_slot s) in let t := slot_thread (ss_slot s) in
  rows ← iter_transfers_for_slot d p t;
  rows ← try_map (fun t => expect (transfer_to_peer_pb t)) rows;
  calls ← try_map (fun c => expect (deferred_call_to_peer_pb c))
            (iter_deferred_calls_by_last_slot d p t ROW_CAP);
  Ok (resp <| fr_transfers := rows |> <| fr_deferred_calls := calls |>).

Definition build_final_slot_response_from_state d s parts : result Error FinalSlotResponse :=
  if bool_decide (ss_status s <> SlotFinal) then
    Ok (unknown_slot (slot_period (ss_slot s)) (slot_thread (ss_slot s)))
  else
    let resp := response_head s parts in
    resp ← (if fp_block parts && negb (ss_is_miss s) then block_part d s resp else Ok resp);
    resp ← (if fp_exec_output parts then exec_part d s resp else Ok resp);
    if fp_transfers parts then transfers_part d s resp else Ok resp.
Definition build_final_slot_response d (period thread : Z) parts
  : result Error FinalSlotResponse :=
  row ← read_slot d period thread;
  match row with
  | None => Ok (unknown_slot period thread)
  | Some s => build_final_slot_response_from_state d s parts
  end.

(** ** The RPCs *)
Definition get_health (self : PeerService) (caller : HealthRequest) (now_ms : Z)
  : result Status (HealthResponse * PeerRegistry) :=
  let registry :=
    if negb (str_is_empty (hq_caller_peer_id caller)) &&
       negb (bool_decide (hq_caller_peer_id caller = ps_peer_id self)) &&
       (str_is_empty (hq_caller_network caller) ||
        bool_decide (hq_caller_network caller = ps_network self)) &&
       negb (str_is_empty (hq_advertise_url caller))
    then add_url (ps_registry self) (hq_caller_peer_id caller) (hq_advertise_url caller) now_ms
    else ps_registry self in
  last ← map_err Internal (read_last_final_slot (ps_db self));
  let last := default (mkSlot 0 0) last in
  Ok ({| hr_peer_id := ps_peer_id self; hr_network := ps_network self;
         hr_build_version := ps_build_version self;
         hr_last_final_period := slot_period last; hr_last_final_thread := slot_thread last;
         hr_now_ms := now_ms; hr_schema_version := SCHEMA_VERSION |}, registry).

Definition get_final_slot (self : PeerService) (r : FinalSlotRequest)
  : result Status FinalSlotResponse :=
  let parts := default FinalSlotParts_default (rq_parts r) in
  thread ← ok_or (InvalidArgument "thread > 255") (u8_try_from (rq_thread r));
  map_err Internal (build_final_slot_response (ps_db self) (rq_period r) thread parts).

(** [(u64, u8)] tuples compare lexicographically. *)
Definition pos_lt (a b : Z * Z) : bool :=
  (a.1 <? b.1)%Z || ((a.1 =? b.1)%Z && (a.2 <? b.2)%Z).
Definition slot_pos (s : SlotState) : Z * Z := (slot_period (ss_slot s), slot_thread (ss_slot s)).
(** What the blocking task sends: a response per FINAL slot until the range's
    lower end, or an error and nothing after it. *)
Fixpoint stream_slots d parts (from : Z * Z) (l : list SlotState)
  : list (result Status FinalSlotResponse) :=
  match l with
  | [] => []
  | s :: l' =>
      if pos_lt (slot_pos s) from then []
      else if bool_decide (ss_status s <> SlotFinal) then stream_slots d parts from l'
      else
        match build_final_slot_response_from_state d s parts with
        | Ok resp => Ok resp :: stream_slots d parts from l'
        | Err e => [Err (Internal e)]
        end
  end.
Definition stream_final_slots (self : PeerService) (r : StreamFinalSlotsRequest)
  : result Status (list (result Status FinalSlotResponse)) :=
  let parts := default FinalSlotParts_default (sr_parts r) in
  from_thread ← ok_or (InvalidArgument "from_thread > 255") (u8_try_from (sr_from_thread r));
  to_thread ← ok_or (InvalidArgument "to_thread > 255") (u8_try_from (sr_to_thread r));
  let from := (sr_from_period r, from_thread) in
  let to := (sr_to_period r, to_thread) in
  if pos_lt to from then Err (InvalidArgument "from > to")
  else
    let cap := ps_stream_limit_cap self in
    let limit := Z.to_nat (if Z.eqb (sr_limit r) 0 then cap else Z.min (sr_limit r) cap) in
    let after := slot_key to.1 to.2 ++ [Byte.x00] in
    Ok match iter_slots_desc (ps_db self) (Some after) limit with
       | Ok page => stream_slots (ps_db self) parts from (pg_items page)
       | Err e => [Err (Internal e)]
       end.

(** ** SyncSession *)
(** The checks on the first message of a caller. *)
Definition session_hello (self : PeerService) (first : option SessionMessage)
  : result Status SessionHello :=
  first ← ok_or (InvalidArgument "sync session: empty stream") first;
  match sm_body first with
  | Some (BodyHello h) =>
      if str_is_empty (hl_peer_id h) then Err (InvalidArgument "sync session: empty peer_id")
      else if negb (str_is_empty (hl_network h)) &&
              negb (bool_decide (hl_network h = ps_network self)) then
        Err (FailedPrecondition "sync session: network mismatch")
      else if bool_decide (hl_peer_id h = ps_peer_id self) then
        Err (InvalidArgument "sync session: self-dial refused")
      else Ok h
  | _ => Err (InvalidArgument "sync session: first message must be SessionHello")
  end.
(** Opening: the caller's URL and the bridge are registered. *)
Definition sync_session (self : PeerService) (first : option SessionMessage) (bridge_id now_ms : Z)
  : result Status (SessionMessage * PeerRegistry) :=
  h ← session_hello self first;
  let r := ps_registry self in
  let r := if str_is_empty (hl_advertise_url h) then r
           else add_url r (hl_peer_id h) (hl_advertise_url h) now_ms in
  Ok (make_hello (ps_peer_id self) (ps_network self) (ps_build_version self) SCHEMA_VERSION
        (ps_advertise_url self),
      set_session r (hl_peer_id h) (mkBridge bridge_id (hl_peer_id h))).
(** The answer to a [SlotRequest] of the other side; [None]: no answer. *)
Definition serve_slot_request d (msg_id : Z) (req : FinalSlotRequest) : option SessionMessage :=
  let parts := default FinalSlotParts_default (rq_parts req) in
  thread ← u8_try_from (rq_thread req);
  let resp := match build_final_slot_response d (rq_period req) thread parts with
              | Ok r => r
              | Err _ => unknown_slot (rq_period req) (rq_thread req)
              end in
  Some (mkSessionMessage msg_id (Some (BodySlotResponse resp))).
(** One message read by the loop of an inbound session: the answer it sends
    back, and the bridge. [None] is a message without a body. *)
Definition session_inbound d (bridge : BridgeState) (msg : SessionMessage)
  : option SessionMessage * BridgeState :=
  match sm_body msg with
  | Some (BodySlotRequest req) => (serve_slot_request d (sm_id msg) req, bridge)
  | Some (BodySlotResponse resp) => (None, complete bridge (sm_id msg) resp)
  | Some (BodyHello _) | None => (None, bridge)
  end.
(** The loop ended: the waiters are cancelled and the bridge unregistered. *)
Definition session_closed (r : PeerRegistry) (bridge : BridgeState) (bridge_id : Z)
  : PeerRegistry * BridgeState :=
  (clear_session_by_bridge_id r bridge_id, fail_pending bridge).
End service.
