(* ===== verification/StreamProps.v ===== *)
(** * StreamFinalSlots serves the range

    The stream of peer/service.rs: which slots of the requested range a call
    sends, in what order, and how many. *)

From S2P Require Import Prelude Ids Keys Model Proto Codec CodecLemmas Store Text Db DbSlotRows.
From S2P Require Import DbProps Registry PeerService.

(** A page holds the first [limit] rows of its scan. *)
Lemma page_loop_items {A} (row : bytes -> bytes -> option A) limit items last_key l :
  length items <= limit ->
  exists cur, page_loop (fun _ => true) (fun k v => Ok (row k v)) None limit items last_key l =
    Ok (mkPage (take limit (items ++ rows row l)) cur).
Proof.
  induction l as [|[k v] l IH] in items, last_key |- *; intros Hl; cbn.
  - unfold rows. cbn. rewrite app_nil_r, take_ge by done. by eexists.
  - rewrite (bool_decide_eq_false_2 (None = Some k)) by done. case_bool_decide.
    + rewrite take_app_le, take_ge by lia. by eexists.
    + unfold rows. cbn. destruct (row k v) as [a|]; cbn; [|by apply IH].
      destruct (IH (items ++ [a]) (Some k)) as [cur ->]; [rewrite length_app; cbn; lia|].
      exists cur. by rewrite <-app_assoc.
Qed.

Lemma take_length_le {A} n (l : list A) : length (take n l) <= n.
Proof. rewrite length_take. lia. Qed.
Lemma StronglySorted_take {A} (R : A -> A -> Prop) n (l : list A) :
  StronglySorted R l -> StronglySorted R (take n l).
Proof.
  intros Hs. induction Hs as [|a l Hs IH Ha] in n |- *; destruct n as [|n]; cbn; constructor; [done|].
  by apply Forall_take.
Qed.
(** The cut keeps an initial segment whose members are all it can hold. *)
Lemma take_filter_prefix {A} (R : A -> A -> Prop) (P : A -> Prop) `{!forall a, Decision (P a)} n l :
  StronglySorted R l -> (forall a b, R a b -> P b -> P a) -> length (filter P l) <= n ->
  filter P (take n l) = filter P l.
Proof.
  intros Hs HP Hn. rewrite <-(take_drop n l) at 2. rewrite filter_app.
  enough (filter P (drop n l) = []) as -> by by rewrite app_nil_r.
  destruct (filter P (drop n l)) as [|b bs] eqn:E; [done|exfalso].
  assert (Hb : b ∈ filter P (drop n l)) by (rewrite E; left).
  apply list_elem_of_filter in Hb as [HPb Hb].
  assert (Hall : Forall P (take n l)).
  { apply Forall_forall. intros a Ha. apply (HP a b); [|done].
    rewrite <-(take_drop n l) in Hs. clear E HPb Hn HP.
    induction (take n l) as [|x xs IH]; [by apply not_elem_of_nil in Ha|].
    cbn in Hs. apply StronglySorted_inv in Hs as [Hs Hx].
    apply elem_of_cons in Ha as [->|Ha]; [|by apply IH].
    rewrite Forall_forall in Hx. apply Hx, elem_of_app. by right. }
  assert (Hlen : length (filter P l) = length (take n l) + length (b :: bs)).
  { rewrite <-(take_drop n l) at 1. by rewrite filter_app, length_app, (list_filter_all P _ Hall), E. }
  rewrite length_take in Hlen. cbn in Hlen.
  destruct (decide (n < length l)); [lia|].
  rewrite drop_ge in Hb by lia. by apply not_elem_of_nil in Hb.
Qed.

Section stream.
Context `{Bs58, Base64, HexCrate, ProstStorage, RocksDB}.
Implicit Types (d : DB) (s : SlotState) (parts : FinalSlotParts).

(** A row the store holds for the slot it names. *)
Definition slot_row_of d s : Prop :=
  read_slot d (slot_period (ss_slot s)) (slot_thread (ss_slot s)) = Ok (Some s) /\
  Slot_ok (ss_slot s) /\ (slot_thread (ss_slot s) <= 31)%Z.
Definition at_or_below (s : SlotState) (to : Z * Z) : Prop := slot_cmp (slot_pos s) to <> Gt.
Definition wanted (from : Z * Z) (s : SlotState) : Prop :=
  ss_status s = SlotFinal /\ pos_lt (slot_pos s) from = false.
#[export] Instance wanted_dec from s : Decision (wanted from s).
Proof. unfold wanted. apply _. Defined.
Definition answers d parts s (o : result Status FinalSlotResponse) : Prop :=
  exists resp, o = Ok resp /\ build_final_slot_response_from_state d s parts = Ok resp.

Lemma pos_lt_cmp a b : pos_lt a b = true <-> slot_cmp a b = Lt.
Proof.
  unfold pos_lt, slot_cmp. destruct (Z.compare_spec a.1 b.1), (Z.compare_spec a.2 b.2);
    rewrite orb_true_iff, andb_true_iff, !Z.ltb_lt, Z.eqb_eq; split; try done; lia.
Qed.
Lemma slot_cmp_lt_trans a b c : slot_cmp a b = Lt -> slot_cmp b c = Lt -> slot_cmp a c = Lt.
Proof.
  rewrite <-!pos_lt_cmp. unfold pos_lt.
  rewrite !orb_true_iff, !andb_true_iff, !Z.ltb_lt, !Z.eqb_eq. lia.
Qed.
(** Newest first: below the range's lower end the stream is over. *)
Lemma newer_lt from s s' :
  slot_newer s s' -> pos_lt (slot_pos s) from = true -> pos_lt (slot_pos s') from = true.
Proof. rewrite !pos_lt_cmp. unfold slot_newer, slot_pos. intros. by eapply slot_cmp_lt_trans. Qed.

Lemma stream_slots_served d parts from l :
  StronglySorted slot_newer l ->
  (forall s, s ∈ l -> wanted from s ->
     exists resp, build_final_slot_response_from_state d s parts = Ok resp) ->
  Forall2 (answers d parts) (filter (wanted from) l) (stream_slots d parts from l).
Proof.
  intros Hs Hok. induction Hs as [|s l Hs IH Hl]; cbn [stream_slots]; [constructor|].
  assert (IH' : Forall2 (answers d parts) (filter (wanted from) l) (stream_slots d parts from l)).
  { apply IH. intros s' Hin. apply Hok. by right. }
  destruct (pos_lt (slot_pos s) from) eqn:Hp.
  - assert (filter (wanted from) (s :: l) = []) as ->; [|constructor].
    apply list_filter_none. constructor; [intros [_ Hw]; congruence|].
    eapply Forall_impl; [exact Hl|]. intros s' Hn [_ Hw]. pose proof (newer_lt from s s' Hn Hp). congruence.
  - case_bool_decide as Hf.
    + rewrite filter_cons_False; [done|]. by intros [? _].
    + assert (Hw : wanted from s) by (split; [by destruct (ss_status s)|done]).
      rewrite filter_cons_True by done.
      destruct (Hok s ltac:(left) Hw) as [resp Hr]. rewrite Hr. constructor; [|done]. by exists resp.
Qed.

(** The cursor passed to [iter_slots_desc] starts the scan at [to] itself. *)
Lemma below_cursor p t p' t' :
  u64_ok p -> u8_ok t -> u64_ok p' -> u8_ok t' ->
  bytes_le (slot_key p t) (slot_key p' t' ++ [Byte.x00]) <-> slot_cmp (p, t) (p', t') <> Gt.
Proof.
  intros. unfold bytes_le. rewrite <-(app_nil_r (slot_key p t)).
  rewrite bytes_cmp_app by by rewrite !slot_key_length. rewrite slot_key_cmp by done.
  cbn. by destruct (slot_cmp (p, t) (p', t')).
Qed.

(** The rows at or below [to], newest first. *)
Lemma page_below d p t limit :
  slot_family_ok d -> u64_ok p -> u8_ok t ->
  exists L cur,
    iter_slots_desc d (Some (slot_key p t ++ [Byte.x00])) limit = Ok (mkPage (take limit L) cur) /\
    StronglySorted slot_newer L /\
    (forall s, s ∈ L <-> slot_row_of d s /\ at_or_below s (p, t)).
Proof.
  intros Hok Hp Ht. set (cursor := slot_key p t ++ [Byte.x00]).
  set (L0 := iterator_cf d CF_SLOT (FromReverse cursor)).
  assert (HL0 : forall k v, (k, v) ∈ L0 <-> get_cf d CF_SLOT k = Some v /\ bytes_le k cursor).
  { intros k v. unfold L0. rewrite iterator_reverse, elem_of_reverse, list_elem_of_filter, iterator_get.
    cbn. tauto. }
  assert (Hnc : forall v, (cursor, v) ∉ L0).
  { intros v [Hg _]%HL0. destruct (Hok _ _ Hg) as (s & _ & _ & _ & E).
    apply (f_equal length) in E. unfold cursor in E. rewrite length_app, !slot_key_length in E. done. }
  exists (rows (fun _ v => slot_value v) L0).
  assert (Hpage : exists cur, iter_slots_desc d (Some cursor) limit =
    Ok (mkPage (take limit (rows (fun _ v => slot_value v) L0)) cur)).
  { unfold iter_slots_desc. case_bool_decide as Hl; [subst limit; by eexists|]. cbn [default].
    fold L0.
    rewrite (page_loop_ext _ slot_row (fun _ v => Ok (slot_value v))).
    - rewrite page_loop_region. unfold region.
      assert (forall l, take_while (fun _ : bytes * bytes => true) l = l) as ->
        by (induction l as [|x l IHl]; cbn; congruence).
      rewrite list_filter_all.
      + destruct (page_loop_items (fun _ v => slot_value v) limit [] None L0) as [cur Hc];
          [cbn; lia|]. exists cur. exact Hc.
      + apply Forall_forall. intros [k v] Hin. cbn. intros [= <-]. by eapply Hnc.
    - intros k v [Hg _]%HL0. by apply (slot_row_ok d k). }
  destruct Hpage as [cur Hpage]. exists cur. split_and!; [done| |].
  - apply (slot_rows_sorted d); [done|by intros k v [? _]%HL0|].
    unfold L0. rewrite iterator_reverse.
    apply (StronglySorted_reverse (on_key bytes_lt)), StronglySorted_filter, iterator_entries_sorted.
  - intros s. rewrite (slot_rows_members d L0 (fun k => bytes_le k cursor) Hok HL0).
    unfold slot_row_of, at_or_below, slot_pos. split.
    + intros (Hr & [Hsp Hst] & Hth & Hle). split_and!; try done.
      by apply (below_cursor _ _ p t).
    + intros ((Hr & [Hsp Hst] & Hth) & Hle). split_and!; try done.
      by apply (below_cursor _ _ p t).
Qed.

(** C21. [stream_final_slots] answers a well-formed range: looking at the newest
    rows at or below the upper end, at most as many as the request's limit and
    the service's cap allow, it sends the response of every FINAL one down to
    the lower end, newest first and each once; when the store holds no more
    rows of the range than that, every FINAL slot of the range is sent. *)
Theorem stream_serves_range self r :
  let d := ps_db self in
  let from := (sr_from_period r, sr_from_thread r) in
  let to := (sr_to_period r, sr_to_thread r) in
  let parts := default FinalSlotParts_default (sr_parts r) in
  let limit := Z.to_nat (if Z.eqb (sr_limit r) 0 then ps_stream_limit_cap self
                         else Z.min (sr_limit r) (ps_stream_limit_cap self)) in
  slot_family_ok d ->
  u8_ok (sr_from_thread r) -> u8_ok (sr_to_thread r) -> u64_ok (sr_to_period r) ->
  pos_lt to from = false ->
  (forall s, slot_row_of d s -> ss_status s = SlotFinal ->
     exists resp, build_final_slot_response_from_state d s parts = Ok resp) ->
  exists L out,
    stream_final_slots self r = Ok out /\
    StronglySorted slot_newer L /\
    (forall s, s ∈ L <-> slot_row_of d s /\ at_or_below s to) /\
    Forall2 (answers d parts) (filter (wanted from) (take limit L)) out /\
    length out <= limit /\
    (length (filter (fun s => pos_lt (slot_pos s) from = false) L) <= limit ->
     Forall2 (answers d parts) (filter (wanted from) L) out).
Proof.
  intros d from to parts limit Hok Hft Htt Htp Hord Hbuild.
  destruct (page_below d (sr_to_period r) (sr_to_thread r) limit Hok Htp Htt)
    as (L & cur & Hpage & Hsort & HL).
  exists L, (stream_slots d parts from (take limit L)).
  assert (Hserved : Forall2 (answers d parts) (filter (wanted from) (take limit L))
    (stream_slots d parts from (take limit L))).
  { apply stream_slots_served; [by apply StronglySorted_take|].
    intros s Hin%elem_of_take [Hf _]. destruct Hin as (i & Hi%list_elem_of_lookup_2 & _).
    apply Hbuild; [by apply HL|done]. }
  split_and!; try done.
  - unfold stream_final_slots. rewrite !u8_try_from_ok by done. cbn -[slot_key app].
    fold from to. rewrite Hord. fold d limit parts. by rewrite Hpage.
  - rewrite <-(Forall2_length _ _ _ Hserved).
    etrans; [apply length_filter|apply take_length_le].
  - intros Hn. enough (filter (wanted from) L = filter (wanted from) (take limit L)) as -> by done.
    assert (Hsplit : forall l : list SlotState, filter (wanted from) l =
      filter (fun s => ss_status s = SlotFinal) (filter (fun s => pos_lt (slot_pos s) from = false) l)).
    { intros l. rewrite list_filter_filter. by apply list_filter_iff. }
    rewrite !Hsplit. rewrite (take_filter_prefix slot_newer _ limit L); try done.
    intros a b Hab Hb. destruct (pos_lt (slot_pos a) from) eqn:Ha; [|done].
    pose proof (newer_lt from a b Hab Ha). congruence.
Qed.
End stream.
