(* ===== verification/Client.v ===== *)
(** * The outbound peer pool (src/massa-indexer/src/peer/client.rs)

    Which peers and routes a fetch tries, in what order, and what it does to the
    shared registry. The tonic channels, the remote peers and the clock are the
    class [Network]: what the n-th interaction with the outside gives back. One
    task's calls are a computation of [ST Client]; every RPC is logged. *)

From S2P Require Import Prelude Ids Keys Proto Codec Store Db Registry PeerService.

(** ** Data *)
Record PeerConfig := mkPeerConfig { pc_name : string; pc_url : string }.
Record LocalPeerIdentity := mkLocal {
  lp_peer_id : string; lp_network : string; lp_build_version : string; lp_advertise_url : string }.
Record HealthSnapshot := mkSnapshot { hs_resp : HealthResponse; hs_at : Z }.

(** A handle: the cached channel is only present or not; the task of an open
    SyncSession is its flag. *)
Record PeerHandle := mkHandle {
  ph_cfg : PeerConfig;
  ph_client : bool;
  ph_last_health : option HealthSnapshot;
  ph_remote_peer_id : option string;
  ph_session_started : bool;
  ph_open_sync_session : bool;
}.

Definition HEALTH_CACHE_TTL : Z := 30 * 1000.

(** One concrete transport to a logical peer. *)
Inductive PeerRoute := UnaryUrl (url : string) | Session (s : SessionBridge).
(** What reading a range stream gives: a message, an error, or nothing within
    the time-out; the end of the list is the clean end of the stream. *)
Inductive StreamItem := StreamMsg (resp : FinalSlotResponse) | StreamError (e : string) | Stalled.

(** The n-th interaction: clock readings (milliseconds, nanoseconds), connecting,
    the RPCs of a connected channel, opening a session, and a slot request over
    an open session. An error is its display. *)
Class Network := {
  net_now : nat -> Z;
  net_now_ns : nat -> Z;
  net_connect : nat -> string -> result string unit;
  net_health : nat -> string -> HealthRequest -> result string HealthResponse;
  net_slot : nat -> string -> FinalSlotRequest -> result string FinalSlotResponse;
  net_stream : nat -> string -> StreamFinalSlotsRequest -> result string (list StreamItem);
  net_session : nat -> string -> SessionMessage -> result string unit;
  net_bridge : nat -> SessionBridge -> FinalSlotRequest -> result string FinalSlotResponse;
}.

(** What was asked of the network, and the answers of the slot requests; the
    peers and routes a fetch turns to are noted as it does. *)
Inductive Rpc :=
| TryPeer (peer_id : string)
| TryRoute (peer_id : string) (route : PeerRoute)
| RpcConnect (url : string)
| RpcHealth (url : string)
| RpcSlot (route : PeerRoute) (req : FinalSlotRequest) (ans : result string FinalSlotResponse)
| RpcStream (url : string) (req : StreamFinalSlotsRequest)
| RpcSession (url : string).

(** The pool with the registry it shares, the process-wide bridge counter, the
    number of interactions so far and their log. *)
Record Client := mkClient {
  cl_peers : list PeerHandle;
  cl_dynamic : gmap string PeerHandle;
  cl_registry : PeerRegistry;
  cl_local : LocalPeerIdentity;
  cl_expected_network : string;
  cl_route_rr : Z;
  cl_bridge_ids : Z;
  cl_tick : nat;
  cl_log : list Rpc;
}.

(** A handle of the pool: a configured one, or the one made for a URL. *)
Inductive HandleRef := Static (i : nat) | Dynamic (url : string).

Section client.
Context `{Network}.
Implicit Types (h : PeerHandle) (r : HandleRef) (c : Client).

(** ** Steps *)
(** A computation that cannot fail for the caller: its outcome as a value. *)
Definition attempt {A} (m : ST Client A) : ST Client (result Error A) := fun c =>
  let '(res, c') := m c in (Ok res, c').
Definition gets {A} (f : Client -> A) : ST Client A := fun c => (Ok (f c), c).
Definition modify (f : Client -> Client) : ST Client unit := fun c => (Ok tt, f c).
Definition fail {A} (e : Error) : ST Client A := st_lift (Err e).
(** One interaction: the answer of the current tick. *)
Definition ask {A} (f : nat -> A) : ST Client A := fun c =>
  (Ok (f (cl_tick c)), c <| cl_tick := S (cl_tick c) |>).
Definition log (e : Rpc) : ST Client unit := modify (fun c => c <| cl_log := cl_log c ++ [e] |>).
Definition on_registry (f : PeerRegistry -> PeerRegistry) : ST Client unit :=
  modify (fun c => c <| cl_registry := f (cl_registry c) |>).
(** Registry operations that read the clock. *)
Definition registry_add_url (peer_id url : string) : ST Client unit :=
  now ← ask net_now; on_registry (fun g => add_url g peer_id url now).
Definition registry_remove_url (peer_id url : string) : ST Client unit :=
  now ← ask net_now; on_registry (fun g => remove_url g peer_id url now).

Definition handle_default : PeerHandle := mkHandle (mkPeerConfig "" "") false None None false false.
Definition get_handle r : ST Client PeerHandle := gets (fun c =>
  match r with
  | Static i => default handle_default (cl_peers c !! i)
  | Dynamic url => default handle_default (cl_dynamic c !! url)
  end).
Definition put_handle r (f : PeerHandle -> PeerHandle) : ST Client unit := modify (fun c =>
  match r with
  | Static i => c <| cl_peers := alter f i (cl_peers c) |>
  | Dynamic url => c <| cl_dynamic := alter f url (cl_dynamic c) |>
  end).

(** ** PeerHandle *)
Definition PeerHandle_new (cfg : PeerConfig) (open_sync_session : bool) : PeerHandle :=
  mkHandle cfg false None None false open_sync_session.

Definition connect r : ST Client unit :=
  h ← get_handle r;
  if ph_client h then mret tt
  else
    let url := pc_url (ph_cfg h) in
    log (RpcConnect url);;
    res ← ask (fun n => net_connect n url);
    match res with
    | Err e => fail (ErrOther ("peer connect " +:+ url +:+ ": " +:+ e))
    | Ok _ => put_handle r (fun h => h <| ph_client := true |>)
    end.
Definition drop_client r : ST Client unit := put_handle r (fun h => h <| ph_client := false |>).
Definition health_request (l : LocalPeerIdentity) : HealthRequest :=
  mkHealthRequest (lp_peer_id l) (lp_network l) (lp_advertise_url l).

(** Opens the outbound session unless one runs; the task serving it runs on its
    own (see [outbound_message] and [outbound_closed]). *)
Definition ensure_sync_session r : ST Client unit :=
  h ← get_handle r;
  if negb (ph_open_sync_session h) then mret tt
  else if ph_session_started h then mret tt
  else
    put_handle r (fun h => h <| ph_session_started := true |>);;
    conn ← attempt (connect r);
    match conn with
    | Err _ => put_handle r (fun h => h <| ph_session_started := false |>)
    | Ok _ =>
        l ← gets cl_local;
        h ← get_handle r;
        let hello := make_hello (lp_peer_id l) (lp_network l) (lp_build_version l) SCHEMA_VERSION
          (lp_advertise_url l) in
        let remote := default (pc_name (ph_cfg h)) (ph_remote_peer_id h) in
        id ← gets cl_bridge_ids;
        modify (fun c => c <| cl_bridge_ids := wrapping_add_u64 (cl_bridge_ids c) 1 |>);;
        on_registry (fun g => set_session g remote (mkBridge id remote));;
        log (RpcSession (pc_url (ph_cfg h)));;
        res ← ask (fun n => net_session n (pc_url (ph_cfg h)) hello);
        match res with
        | Ok _ => mret tt
        | Err _ =>
            on_registry (fun g => clear_session_by_id g remote id);;
            put_handle r (fun h => h <| ph_session_started := false |>);;
            drop_client r
        end
    end.

(** A probe that answered: the remote's real id replaces its aliases. *)
Definition learn_peer r (resp : HealthResponse) : ST Client unit :=
  if str_is_empty (hr_peer_id resp) then mret tt
  else
    h ← get_handle r;
    let id := hr_peer_id resp in
    put_handle r (fun h => h <| ph_remote_peer_id := Some id |>);;
    match ph_remote_peer_id h with
    | Some old => on_registry (fun g => migrate_peer_id g old id)
    | None => mret tt
    end;;
    (if bool_decide (pc_name (ph_cfg h) <> id)
     then on_registry (fun g => migrate_peer_id g (pc_name (ph_cfg h)) id) else mret tt);;
    registry_add_url id (pc_url (ph_cfg h)).
Definition probe_health r : ST Client HealthResponse :=
  connect r;;
  h ← get_handle r;
  l ← gets cl_local;
  log (RpcHealth (pc_url (ph_cfg h)));;
  res ← ask (fun n => net_health n (pc_url (ph_cfg h)) (health_request l));
  match res with
  | Err e =>
      drop_client r;;
      fail (ErrOther ("peer " +:+ pc_name (ph_cfg h) +:+ " get_health: " +:+ e))
  | Ok resp =>
      learn_peer r resp;;
      now ← ask net_now;
      put_handle r (fun h => h <| ph_last_health := Some (mkSnapshot resp now) |>);;
      ensure_sync_session r;;
      mret resp
  end.
(** The last answer serves while it is fresh. *)
Definition health r : ST Client HealthResponse :=
  h ← get_handle r;
  match ph_last_health h with
  | Some snap =>
      now ← ask net_now;
      if (now - hs_at snap <? HEALTH_CACHE_TTL)%Z then
        ensure_sync_session r;; mret (hs_resp snap)
      else probe_health r
  | None => probe_health r
  end.

Definition handle_final_slot r (req : FinalSlotRequest) : ST Client FinalSlotResponse :=
  connect r;;
  h ← get_handle r;
  let url := pc_url (ph_cfg h) in
  res ← ask (fun n => net_slot n url req);
  log (RpcSlot (UnaryUrl url) req res);;
  match res with
  | Ok resp => mret resp
  | Err e =>
      drop_client r;;
      fail (ErrOther ("peer " +:+ pc_name (ph_cfg h) +:+ " get_final_slot: " +:+ e))
  end.
Definition handle_stream r (req : StreamFinalSlotsRequest) : ST Client (list StreamItem) :=
  connect r;;
  h ← get_handle r;
  let url := pc_url (ph_cfg h) in
  log (RpcStream url req);;
  res ← ask (fun n => net_stream n url req);
  match res with
  | Ok items => mret items
  | Err e =>
      drop_client r;;
      fail (ErrOther ("peer " +:+ pc_name (ph_cfg h) +:+ " stream_final_slots: " +:+ e))
  end.
End client.

(** ** Orders *)
(** Fisher-Yates with the code's linear congruential generator. *)
Definition next_seed (seed : Z) : Z :=
  ((seed * 6364136223846793005 + 1442695040888963407) mod 2 ^ 64)%Z.
Definition swap {A} (l : list A) (i j : nat) : list A :=
  match l !! i, l !! j with
  | Some a, Some b => <[i := b]> (<[j := a]> l)
  | _, _ => l
  end.
Fixpoint shuffle_from {A} (i : nat) (seed : Z) (l : list A) : list A :=
  match i with
  | O => l
  | S i' =>
      let seed := next_seed seed in
      let j := Z.to_nat (Z.shiftr seed 33 mod Z.of_nat (i + 1)) in
      shuffle_from i' seed (swap l i j)
  end.
Definition shuffle {A} (now_ns : Z) (l : list A) : list A :=
  shuffle_from (length l - 1) (now_ns mod 2 ^ 64) l.
(** [routes[(start + i) % routes.len()]] for [i] from 0. *)
Definition rotated {A} (start : nat) (l : list A) : list A :=
  omap (fun i => l !! ((start + i) mod length l)) (seq 0 (length l)).
(** [if !l.iter().any(|y| y == &x) { l.push(x) }]. *)
Definition push_new (l : list string) (x : string) : list string :=
  if bool_decide (x ∈ l) then l else l ++ [x].

Section pool.
Context `{Network}.
Implicit Types (h : PeerHandle) (r : HandleRef) (c : Client).

(** ** PeerPool *)
Fixpoint add_peers (cfgs : list PeerConfig) : ST Client unit :=
  match cfgs with
  | [] => mret tt
  | cfg :: cfgs' =>
      registry_add_url (pc_name cfg) (pc_url cfg);;
      modify (fun c => c <| cl_peers := cl_peers c ++ [PeerHandle_new cfg true] |>);;
      add_peers cfgs'
  end.
Definition PeerPool_new (peers : list PeerConfig) (local : LocalPeerIdentity)
    (registry : PeerRegistry) (expected_network : string) : Client :=
  (add_peers peers (mkClient [] ∅ registry local expected_network 0 1 0 [])).2.
Definition PeerPool_is_empty c : bool :=
  bool_decide (length (cl_peers c) = 0) && negb (has_any (cl_registry c)).

(** [peer.learned_peer_id().unwrap_or(peer.cfg.name)]. *)
Definition peer_name h : string := default (pc_name (ph_cfg h)) (ph_remote_peer_id h).
Definition serves h (peer_id : string) : bool :=
  bool_decide (peer_name h = peer_id) || bool_decide (pc_name (ph_cfg h) = peer_id).
Definition static_refs : ST Client (list nat) := gets (fun c => seq 0 (length (cl_peers c))).

(** The order of the CLI's diagnostics. *)
Definition shuffled c (now_ns : Z) : list PeerHandle := shuffle now_ns (cl_peers c).

(** One round of [maintain_sessions]: whether a peer answered. *)
Fixpoint maintain_round (l : list nat) (any_ok : bool) : ST Client bool :=
  match l with
  | [] => mret any_ok
  | i :: l' =>
      res ← attempt (health (Static i));
      match res with
      | Ok _ => ensure_sync_session (Static i);; maintain_round l' true
      | Err _ => maintain_round l' any_ok
      end
  end.
Definition BACKOFF_BASE : Z := 2000.
Definition BACKOFF_MAX : Z := 30000.
(** The pause before the next round. *)
Definition maintain_pause (backoff : Z) : ST Client Z :=
  l ← static_refs;
  any_ok ← maintain_round l false;
  mret (if any_ok || bool_decide (l = []) then BACKOFF_BASE
        else Z.min (backoff * 2) BACKOFF_MAX).

Fixpoint best_final (l : list nat) (best : option Z) : ST Client (option Z) :=
  match l with
  | [] => mret best
  | i :: l' =>
      res ← attempt (health (Static i));
      net ← gets cl_expected_network;
      best_final l'
        match res with
        | Ok resp =>
            if bool_decide (hr_network resp = net) || str_is_empty net
            then Some (match best with
                       | Some b => Z.max b (hr_last_final_period resp)
                       | None => hr_last_final_period resp
                       end)
            else best
        | Err _ => best
        end
  end.
Definition best_remote_final_period : ST Client (option Z) :=
  l ← static_refs; best_final l None.

Fixpoint refresh_all (l : list nat) : ST Client unit :=
  match l with
  | [] => mret tt
  | i :: l' => attempt (health (Static i));; refresh_all l'
  end.
(** The ids of the configured peers, and the names a learned id replaced. *)
Definition static_ids (local : string) (peers : list PeerHandle) : list string * list string :=
  foldl (fun '(logical, aliases) h =>
    match ph_remote_peer_id h with
    | Some learned =>
        (if bool_decide (learned <> local) && negb (str_is_empty learned)
         then push_new logical learned else logical, pc_name (ph_cfg h) :: aliases)
    | None =>
        (if bool_decide (pc_name (ph_cfg h) <> local) && negb (str_is_empty (pc_name (ph_cfg h)))
         then push_new logical (pc_name (ph_cfg h)) else logical, aliases)
    end) ([], []) peers.
Definition all_ids (local : string) (peers : list PeerHandle) (registered : list string)
  : list string :=
  let '(logical, aliases) := static_ids local peers in
  foldl (fun logical id =>
    if bool_decide (id ∈ aliases) then logical
    else if bool_decide (id <> local) && negb (str_is_empty id) then push_new logical id
    else logical) logical registered.
Definition logical_peer_ids : ST Client (list string) :=
  l ← static_refs;
  refresh_all l;;
  ids ← gets (fun c => all_ids (lp_peer_id (cl_local c)) (cl_peers c) (peer_ids (cl_registry c)));
  seed ← ask net_now_ns;
  mret (shuffle seed ids).

(** ** Routes *)
(** Configured URLs first, then the registry's, each once. *)
Definition unary_urls c (peer_id : string) : list string :=
  foldl push_new
    (foldl push_new [] ((fun h => pc_url (ph_cfg h)) <$> filter (fun h => serves h peer_id) (cl_peers c)))
    (rt_urls (entry_or_default (cl_registry c) peer_id)).
Definition peer_routes c (peer_id : string) : list PeerRoute :=
  (UnaryUrl <$> unary_urls c peer_id)
  ++ (Session <$> rt_sessions (entry_or_default (cl_registry c) peer_id)).
Definition is_static c (url : string) : bool :=
  bool_decide (url ∈ (fun h => pc_url (ph_cfg h)) <$> cl_peers c).
(** Takes the next start index. *)
Definition next_start (n : nat) : ST Client nat :=
  rr ← gets cl_route_rr;
  modify (fun c => c <| cl_route_rr := wrapping_add_u64 (cl_route_rr c) 1 |>);;
  mret (Z.to_nat rr mod n).
(** A URL of the configuration is never demoted. *)
Definition demote_unless_static (peer_id url : string) : ST Client unit :=
  static ← gets (fun c => is_static c url);
  if static : bool then mret tt else registry_remove_url peer_id url.

(** The unary-only handle of a URL, made when there is none. *)
Definition dynamic_handle (peer_id url : string) : ST Client unit :=
  known ← gets (fun c => is_some (cl_dynamic c !! url));
  if known : bool then mret tt
  else
    registry_add_url peer_id url;;
    modify (fun c => c <| cl_dynamic := <[url := PeerHandle_new (mkPeerConfig peer_id url) false]>
                                          (cl_dynamic c) |>).
Definition handle_for_url (peer_id url : string) : ST Client HandleRef :=
  dynamic_handle peer_id url;;
  net ← gets cl_expected_network;
  if str_is_empty net then mret (Dynamic url)
  else
    resp ← health (Dynamic url);
    if bool_decide (hr_network resp <> net)
    then fail (ErrOther ("peer " +:+ peer_id +:+ " network mismatch: " +:+ hr_network resp))
    else mret (Dynamic url).
Definition unary_via_url (peer_id url : string) (req : FinalSlotRequest)
  : ST Client FinalSlotResponse :=
  r ← handle_for_url peer_id url;
  handle_final_slot r req.
Definition bridge_final_slot (s : SessionBridge) (req : FinalSlotRequest)
  : ST Client FinalSlotResponse :=
  res ← ask (fun n => net_bridge n s req);
  log (RpcSlot (Session s) req res);;
  match res with Ok resp => mret resp | Err e => fail (ErrOther e) end.
Definition via_route (peer_id : string) (route : PeerRoute) (req : FinalSlotRequest)
  : ST Client FinalSlotResponse :=
  match route with
  | UnaryUrl url => unary_via_url peer_id url req
  | Session s => bridge_final_slot s req
  end.

(** ** Fetching a slot *)
(** What a refused or failed search ends with. *)
Definition end_search {A} (last_err : option Error) : ST Client (option A) :=
  match last_err with Some e => fail e | None => mret None end.
(** The routes in order: the first FINAL answer ends the search. *)
Fixpoint try_routes (peer_id : string) (req : FinalSlotRequest) (reached : bool)
    (last_err : option Error) (routes : list PeerRoute) : ST Client (option FinalSlotResponse) :=
  match routes with
  | [] => if reached then mret None else end_search last_err
  | route :: routes' =>
      log (TryRoute peer_id route);;
      res ← attempt (via_route peer_id route req);
      match res with
      | Ok resp =>
          if fr_final_known resp then mret (Some resp)
          else try_routes peer_id req true last_err routes'
      | Err e =>
          match route with
          | UnaryUrl url => demote_unless_static peer_id url
          | Session _ => mret tt
          end;;
          try_routes peer_id req reached (Some e) routes'
      end
  end.
(** Probes the configured handles of the peer: [false] on a wrong network. *)
Fixpoint right_network (peer_id : string) (l : list nat) : ST Client bool :=
  match l with
  | [] => mret true
  | i :: l' =>
      h ← get_handle (Static i);
      if negb (serves h peer_id) then right_network peer_id l'
      else
        net ← gets cl_expected_network;
        res ← attempt (health (Static i));
        match res with
        | Ok resp =>
            if negb (str_is_empty net) && bool_decide (hr_network resp <> net) then mret false
            else right_network peer_id l'
        | Err _ => right_network peer_id l'
        end
  end.
Definition slot_request (period thread : Z) (parts : FinalSlotParts) : FinalSlotRequest :=
  mkSlotRequest period thread (Some parts).
Definition fetch_from_logical_peer (peer_id : string) (period thread : Z) (parts : FinalSlotParts)
  : ST Client (option FinalSlotResponse) :=
  l ← static_refs;
  net_ok ← right_network peer_id l;
  if negb net_ok then mret None
  else
    routes ← gets (fun c => peer_routes c peer_id);
    if bool_decide (length routes = 0) then mret None
    else
      start ← next_start (length routes);
      try_routes peer_id (slot_request period thread parts) false None (rotated start routes).
(** Every logical peer, each at most once, until one answers FINAL. *)
Fixpoint try_peers (period thread : Z) (parts : FinalSlotParts) (tried : gset string)
    (last_err : option Error) (ids : list string) : ST Client (option FinalSlotResponse) :=
  match ids with
  | [] => end_search last_err
  | id :: ids' =>
      if bool_decide (id ∈ tried) then try_peers period thread parts tried last_err ids'
      else
        let tried := {[id]} ∪ tried in
        log (TryPeer id);;
        res ← attempt (fetch_from_logical_peer id period thread parts);
        match res with
        | Ok (Some resp) =>
            if fr_final_known resp then mret (Some resp)
            else try_peers period thread parts tried last_err ids'
        | Ok None => try_peers period thread parts tried last_err ids'
        | Err e => try_peers period thread parts tried (Some e) ids'
        end
  end.
Definition fetch_final_slot (period thread : Z) (parts : FinalSlotParts)
  : ST Client (option FinalSlotResponse) :=
  ids ← logical_peer_ids;
  if bool_decide (length ids = 0) then mret None else try_peers period thread parts ∅ None ids.

(** ** Range streams *)
Fixpoint try_streams (peer_id : string) (req : StreamFinalSlotsRequest) (last_err : option Error)
    (urls : list string) : ST Client (list StreamItem) :=
  match urls with
  | [] => fail (default (ErrOther ("peer " +:+ peer_id +:+ ": range stream failed")) last_err)
  | url :: urls' =>
      opened ← attempt (handle_for_url peer_id url);
      match opened with
      | Err e => try_streams peer_id req (Some e) urls'
      | Ok r =>
          res ← attempt (handle_stream r req);
          match res with
          | Ok items => mret items
          | Err e =>
              demote_unless_static peer_id url;;
              try_streams peer_id req (Some e) urls'
          end
      end
  end.
Definition stream_range_from_peer (peer_id : string) (req : StreamFinalSlotsRequest)
  : ST Client (list StreamItem) :=
  urls ← gets (fun c => unary_urls c peer_id);
  if bool_decide (length urls = 0)
  then fail (ErrOther ("peer " +:+ peer_id +:+ ": no unary route for range stream"))
  else
    start ← next_start (length urls);
    try_streams peer_id req None (rotated start urls).
End pool.

(** ** The task of an outbound session *)
Section outbound.
Context `{Bs58, Base64, HexCrate, ProstStorage, RocksDB, Network}.

(** A hello of the remote names it: aliases migrate to the announced id. *)
Definition outbound_hello (r : HandleRef) (peer_id : string) (hl : SessionHello)
  : ST Client string :=
  if negb (str_is_empty (hl_peer_id hl)) && bool_decide (hl_peer_id hl <> peer_id) then
    h ← get_handle r;
    on_registry (fun g => migrate_peer_id g peer_id (hl_peer_id hl));;
    on_registry (fun g => migrate_peer_id g (pc_name (ph_cfg h)) (hl_peer_id hl));;
    (if str_is_empty (hl_advertise_url hl) then mret tt
     else registry_add_url (hl_peer_id hl) (hl_advertise_url hl));;
    put_handle r (fun h => h <| ph_remote_peer_id := Some (hl_peer_id hl) |>);;
    mret (hl_peer_id hl)
  else mret peer_id.
(** One message read by the task: the remote's current id, the answer sent
    back, and the bridge. *)
Definition outbound_message (d : DB) (r : HandleRef) (peer_id : string) (bridge : BridgeState)
    (msg : SessionMessage) : ST Client (string * option SessionMessage * BridgeState) :=
  match sm_body msg with
  | Some (BodyHello hl) => id ← outbound_hello r peer_id hl; mret (id, None, bridge)
  | Some (BodySlotRequest req) => mret (peer_id, serve_slot_request d (sm_id msg) req, bridge)
  | Some (BodySlotResponse resp) => mret (peer_id, None, complete bridge (sm_id msg) resp)
  | None => mret (peer_id, None, bridge)
  end.
(** The session ended: waiters cancelled, bridge unregistered, channel dropped. *)
Definition outbound_closed (r : HandleRef) (bridge_id : Z) (bridge : BridgeState)
  : ST Client BridgeState :=
  on_registry (fun g => clear_session_by_bridge_id g bridge_id);;
  put_handle r (fun h => h <| ph_client := false |> <| ph_session_started := false |>);;
  mret (fail_pending bridge).
End outbound.
