(* ===== verification/ClientSteps.v ===== *)
(** * Reasoning about the peer pool

    [steps R m]: whatever its outcome, [m] takes the pool along [R]; the class
    [ClientRel] states what [R] must allow, and every operation of Client.v
    then follows it. *)

From S2P Require Import Prelude Ids Keys Proto Codec Store Db Registry RegistryProps PeerService.
From S2P Require Import Client.

(** ** Relations the pool's steps follow *)
Definition static_urls (c : Client) : list string := (fun h => pc_url (ph_cfg h)) <$> cl_peers c.

Section steps.
Implicit Types (R : Client -> Client -> Prop) (c : Client).

Definition steps R {A} (m : ST Client A) : Prop := forall c, R c (m c).2.

(** The moves of the pool: ticks, the log, counters, handles (their configuration
    never changes), registry operations (a static URL is never removed). *)
Class ClientRel R := {
  cr_preorder :: PreOrder R;
  cr_tick c n : R c (c <| cl_tick := n |>);
  cr_log c l : R c (c <| cl_log := l |>);
  cr_rr c z : R c (c <| cl_route_rr := z |>);
  cr_ids c z : R c (c <| cl_bridge_ids := z |>);
  cr_dynamic c d : R c (c <| cl_dynamic := d |>);
  cr_peer c f i : (forall h, ph_cfg (f h) = ph_cfg h) -> R c (c <| cl_peers := alter f i (cl_peers c) |>);
  cr_registry c now op :
    (forall p u, op = RemoveUrl p u -> is_static c u = false) ->
    R c (c <| cl_registry := apply_registry_op (cl_registry c) now op |>);
}.

Context `{Network} R `{!ClientRel R}.

Lemma steps_ret {A} (a : A) : steps R (mret a).
Proof. intros c. reflexivity. Qed.
Lemma steps_fail {A} e : steps R (fail (A := A) e).
Proof. intros c. reflexivity. Qed.
Lemma steps_bind {A B} (m : ST Client A) (f : A -> ST Client B) :
  steps R m -> (forall a, steps R (f a)) -> steps R (m ≫= f).
Proof.
  intros Hm Hf c. specialize (Hm c). unfold mbind, ST_bind.
  destruct (m c) as [[a|e] c'] eqn:E; cbn in *; [|done]. etrans; [exact Hm | apply Hf].
Qed.
Lemma steps_gets_bind {A B} (g : Client -> A) (f : A -> ST Client B) :
  (forall c, R c (f (g c) c).2) -> steps R (gets g ≫= f).
Proof. intros Hf c. apply Hf. Qed.
Lemma steps_attempt {A} (m : ST Client A) : steps R m -> steps R (attempt m).
Proof. intros Hm c. specialize (Hm c). unfold attempt. by destruct (m c). Qed.
Lemma steps_gets {A} (g : Client -> A) : steps R (gets g).
Proof. intros c. reflexivity. Qed.
Lemma steps_ask {A} (f : nat -> A) : steps R (ask f).
Proof. intros c. apply cr_tick. Qed.
Lemma steps_log e : steps R (log e).
Proof. intros c. apply cr_log. Qed.
Lemma steps_op now op :
  (forall p u, op <> RemoveUrl p u) -> steps R (on_registry (fun g => apply_registry_op g now op)).
Proof. intros Hop c. apply cr_registry. intros p u ->. by destruct (Hop p u). Qed.
Lemma steps_add p u : steps R (registry_add_url p u).
Proof. apply steps_bind; [apply steps_ask | intros now]. by apply (steps_op now (AddUrl p u)). Qed.
Lemma steps_migrate a b : steps R (on_registry (fun g => migrate_peer_id g a b)).
Proof. by apply (steps_op 0 (MigratePeer a b)). Qed.
Lemma steps_set_session p s : steps R (on_registry (fun g => set_session g p s)).
Proof. by apply (steps_op 0 (SetSession p s)). Qed.
Lemma steps_clear p i : steps R (on_registry (fun g => clear_session_by_id g p i)).
Proof. by apply (steps_op 0 (ClearSession p i)). Qed.
Lemma steps_put_handle r f : (forall h, ph_cfg (f h) = ph_cfg h) -> steps R (put_handle r f).
Proof. intros Hf c. destruct r; [by apply cr_peer | apply cr_dynamic]. Qed.
Lemma steps_get_handle r : steps R (get_handle r).
Proof. apply steps_gets. Qed.
Lemma steps_next_start n : steps R (next_start n).
Proof.
  apply steps_bind; [apply steps_gets | intros rr]. apply steps_bind; [|intros _; apply steps_ret].
  intros c. apply cr_rr.
Qed.
Lemma steps_next_bridge :
  steps R (modify (fun c => c <| cl_bridge_ids := wrapping_add_u64 (cl_bridge_ids c) 1 |>)).
Proof. intros c. apply cr_ids. Qed.
(** The guard of the demotion is read from the pool it acts on. *)
Lemma steps_demote p u : steps R (demote_unless_static p u).
Proof.
  apply steps_gets_bind. intros c. destruct (is_static c u) eqn:Hs; [reflexivity|].
  set (c1 := c <| cl_tick := S (cl_tick c) |>).
  change (R c (c1 <| cl_registry :=
    apply_registry_op (cl_registry c1) (net_now (cl_tick c)) (RemoveUrl p u) |>)).
  etrans; [apply (cr_tick c)|]. apply cr_registry.
  by intros ? ? [= <- <-].
Qed.
End steps.

Create HintDb steps discriminated.
#[export] Hint Resolve steps_ret steps_fail steps_attempt steps_gets steps_ask steps_log steps_add
  steps_migrate steps_set_session steps_clear steps_get_handle steps_next_start steps_next_bridge
  steps_demote : steps.
#[export] Hint Constants Opaque : steps.
#[export] Hint Variables Opaque : steps.
Ltac steps_go :=
  repeat match goal with
  | |- steps _ (_ ≫= _) => apply steps_bind; [apply _ | | intros ?]
  | |- steps _ (put_handle _ _) => by apply steps_put_handle
  | |- steps _ (attempt _) => apply steps_attempt
  | |- steps _ (match ?x with _ => _ end) => destruct x
  | |- steps _ _ => solve [eauto with steps]
  end.

Section operations.
Context `{Network} R `{!ClientRel R}.

Lemma steps_connect r : steps R (connect r).
Proof. unfold connect. steps_go. Qed.
Lemma steps_drop r : steps R (drop_client r).
Proof. unfold drop_client. steps_go. Qed.
End operations.
#[export] Hint Resolve steps_connect steps_drop : steps.

Section sessions.
Context `{Network} R `{!ClientRel R}.
Lemma steps_ensure r : steps R (ensure_sync_session r).
Proof. unfold ensure_sync_session. steps_go. Qed.
Lemma steps_learn r resp : steps R (learn_peer r resp).
Proof. unfold learn_peer. steps_go. Qed.
End sessions.
#[export] Hint Resolve steps_ensure steps_learn : steps.

Section pool.
Context `{Network} R `{!ClientRel R}.
Lemma steps_probe r : steps R (probe_health r).
Proof. unfold probe_health. steps_go. Qed.
#[local] Hint Resolve steps_probe : steps.
Lemma steps_health r : steps R (health r).
Proof. unfold health. steps_go. Qed.
#[local] Hint Resolve steps_health : steps.
Lemma steps_static_refs : steps R static_refs.
Proof. apply steps_gets, _. Qed.
#[local] Hint Resolve steps_static_refs : steps.
Lemma steps_maintain_round l any_ok : steps R (maintain_round l any_ok).
Proof. induction l as [|i l IH] in any_ok |- *; cbn [maintain_round]; steps_go; apply IH. Qed.
Lemma steps_best l best : steps R (best_final l best).
Proof. induction l as [|i l IH] in best |- *; cbn [best_final]; steps_go; apply IH. Qed.
Lemma steps_refresh l : steps R (refresh_all l).
Proof. induction l as [|i l IH]; cbn [refresh_all]; steps_go. Qed.
#[local] Hint Resolve steps_refresh steps_maintain_round steps_best : steps.
Lemma steps_maintain backoff : steps R (maintain_pause backoff).
Proof. unfold maintain_pause. steps_go. Qed.
Lemma steps_best_remote : steps R best_remote_final_period.
Proof. unfold best_remote_final_period. steps_go. Qed.
Lemma steps_ids : steps R logical_peer_ids.
Proof. unfold logical_peer_ids. steps_go. Qed.
Lemma steps_dynamic p u : steps R (dynamic_handle p u).
Proof. unfold dynamic_handle. steps_go. intros c. apply cr_dynamic. Qed.
#[local] Hint Resolve steps_dynamic steps_ids : steps.
Lemma steps_handle_for_url p u : steps R (handle_for_url p u).
Proof. unfold handle_for_url. steps_go. Qed.
Lemma steps_handle_slot r req : steps R (handle_final_slot r req).
Proof. unfold handle_final_slot. steps_go. Qed.
Lemma steps_handle_stream r req : steps R (handle_stream r req).
Proof. unfold handle_stream. steps_go. Qed.
#[local] Hint Resolve steps_handle_for_url steps_handle_slot steps_handle_stream : steps.
Lemma steps_via p route req : steps R (via_route p route req).
Proof. destruct route; cbn [via_route]; unfold unary_via_url, bridge_final_slot; steps_go. Qed.
#[local] Hint Resolve steps_via : steps.
Lemma steps_end_search {A} e : steps R (end_search (A := A) e).
Proof. unfold end_search. steps_go. Qed.
#[local] Hint Resolve steps_end_search : steps.
Lemma steps_try_routes p req reached e routes : steps R (try_routes p req reached e routes).
Proof.
  induction routes as [|route routes IH] in reached, e |- *; cbn [try_routes]; steps_go; apply IH.
Qed.
Lemma steps_right_network p l : steps R (right_network p l).
Proof. induction l as [|i l IH]; cbn [right_network]; steps_go; apply IH. Qed.
#[local] Hint Resolve steps_try_routes steps_right_network : steps.
Lemma steps_fetch_logical p per t parts : steps R (fetch_from_logical_peer p per t parts).
Proof. unfold fetch_from_logical_peer. steps_go. Qed.
#[local] Hint Resolve steps_fetch_logical : steps.
Lemma steps_try_peers per t parts tried e ids : steps R (try_peers per t parts tried e ids).
Proof. induction ids as [|id ids IH] in tried, e |- *; cbn [try_peers]; steps_go; apply IH. Qed.
#[local] Hint Resolve steps_try_peers : steps.
Lemma steps_fetch per t parts : steps R (fetch_final_slot per t parts).
Proof. unfold fetch_final_slot. steps_go. Qed.
Lemma steps_try_streams p req e urls : steps R (try_streams p req e urls).
Proof. induction urls as [|url urls IH] in e |- *; cbn [try_streams]; steps_go; apply IH. Qed.
#[local] Hint Resolve steps_try_streams : steps.
Lemma steps_stream p req : steps R (stream_range_from_peer p req).
Proof. unfold stream_range_from_peer. steps_go. Qed.
End pool.
#[export] Hint Resolve steps_health steps_static_refs steps_refresh steps_handle_for_url steps_via
  steps_try_routes steps_right_network steps_fetch_logical steps_fetch steps_stream steps_maintain
  steps_best_remote steps_ids : steps.

(** ** The registry under the pool *)
Definition wf_kept (c c' : Client) : Prop :=
  registry_wf (cl_registry c) -> registry_wf (cl_registry c').
#[export] Instance wf_rel : ClientRel wf_kept.
Proof.
  unfold wf_kept. split; try by intros.
  - split; [by intros c | intros c1 c2 c3; auto].
  - intros c now op _ Hr. by apply apply_registry_op_wf.
Qed.

(** Configured URLs stay configured and undemoted. *)
Definition static_kept (c c' : Client) : Prop :=
  static_urls c' = static_urls c /\
  forall u, u ∈ static_urls c -> rg_demoted_urls (cl_registry c) !! u = None ->
    rg_demoted_urls (cl_registry c') !! u = None.
Lemma op_undemoted g now op u :
  rg_demoted_urls g !! u = None -> (forall p, op <> RemoveUrl p u) ->
  rg_demoted_urls (apply_registry_op g now op) !! u = None.
Proof.
  intros Hu Hop. destruct op as [p u'|p u'|p s|p i|i|a b]; cbn.
  - unfold add_url. destruct (_ || _); [done|]. cbn.
    assert (Hf : filter (fun kv : string * Z => (now < kv.2)%Z) (rg_demoted_urls g) !! u = None)
      by by apply map_lookup_filter_None_2; left.
    by destruct (is_some _).
  - unfold remove_url. destruct (_ || _); [done|]. cbn.
    assert (Hi : <[u' := (now + URL_DEMOTE_TTL)%Z]> (rg_demoted_urls g) !! u = None).
    { rewrite lookup_insert_ne; [done|]. intros ->. by apply (Hop p). }
    destruct (rg_inner g !! p); [unfold put_or_remove; destruct (routes_empty _)|]; done.
  - unfold set_session. by destruct (str_is_empty p).
  - unfold clear_session_by_id. destruct (rg_inner g !! p); [|done].
    unfold put_or_remove. by destruct (routes_empty _).
  - done.
  - unfold migrate_peer_id. destruct (_ || _ || _); [done|]. by destruct (rg_inner g !! a).
Qed.
#[export] Instance static_rel : ClientRel static_kept.
Proof.
  split; try by intros.
  - split; [by intros c | intros c1 c2 c3 [E1 H1] [E2 H2]]. split; [congruence|].
    intros u Hu Hn. apply H2; [by rewrite E1|]. by apply H1.
  - intros c f i Hf. split; [|by intros]. unfold static_urls. cbn. unfold constant.
    apply list_eq. intros j. rewrite !list_lookup_fmap.
    destruct (decide (i = j)) as [<-|Hne].
    + rewrite list_lookup_alter_eq. destruct (cl_peers c !! i); cbn; [|done]. by rewrite Hf.
    + by rewrite list_lookup_alter_ne by done.
  - intros c now op Hop. split; [done|]. intros u Hu Hn. cbn. apply op_undemoted; [done|].
    intros p ->. specialize (Hop p u eq_refl). unfold is_static in Hop.
    rewrite bool_decide_eq_false in Hop. done.
Qed.
