(* ===== verification/ClientProps.v ===== *)
(** * What the peer pool guarantees

    The order and completeness of the logical peers, which routes a fetch
    tries and what it returns, and that configured URLs are never suppressed.
    [emits m Q]: what [m] adds to the log of RPCs. *)

From S2P Require Import Prelude Ids Keys Proto Codec Store Db Registry RegistryProps PeerService.
From S2P Require Import Client ClientSteps.

(** ** Orders *)
Lemma swap_perm {A} (l : list A) i j : swap l i j ≡ₚ l.
Proof.
  unfold swap. destruct (l !! i) as [a|] eqn:Hi; [|done]. destruct (l !! j) as [b|] eqn:Hj; [|done].
  apply Permutation_inj. split; [by rewrite !length_insert|].
  exists (fun k => if decide (k = i) then j else if decide (k = j) then i else k). split.
  - intros k k'. repeat case_decide; congruence.
  - intros k. pose proof (lookup_lt_Some _ _ _ Hi). pose proof (lookup_lt_Some _ _ _ Hj).
    repeat case_decide; subst.
    + rewrite list_lookup_insert_eq; [done|by rewrite length_insert].
    + rewrite list_lookup_insert_ne, list_lookup_insert_eq by done. congruence.
    + by rewrite !list_lookup_insert_ne.
Qed.
Lemma shuffle_from_perm {A} i seed (l : list A) : shuffle_from i seed l ≡ₚ l.
Proof.
  induction i as [|i IH] in seed, l |- *; cbn [shuffle_from]; [done|]. by rewrite IH, swap_perm.
Qed.
Lemma shuffle_perm {A} now (l : list A) : shuffle now l ≡ₚ l.
Proof. apply shuffle_from_perm. Qed.

(** A rotation is the list from [start] on, then its beginning. *)
Lemma omap_lookup_seq {A} (l : list A) f n m :
  (forall i, n <= i < n + m -> exists a, l !! f i = Some a) ->
  length (omap (fun i => l !! f i) (seq n m)) = m /\
  forall i, i < m -> omap (fun i => l !! f i) (seq n m) !! i = l !! f (n + i).
Proof.
  induction m as [|m IH] in n |- *; intros Hf; cbn; [split; [done | lia]|].
  destruct (Hf n ltac:(lia)) as [a Ha]. rewrite Ha. destruct (IH (S n)) as [Hl Hi].
  { intros i Hi. apply Hf. lia. }
  cbn. rewrite Hl. split; [done|]. intros [|i] Hlt; cbn; [by rewrite Nat.add_0_r|].
  rewrite Hi by lia. f_equal. f_equal. lia.
Qed.
Lemma rotated_perm {A} start (l : list A) : rotated start l ≡ₚ l.
Proof.
  destruct l as [|x l0] eqn:El; [done|]. rewrite <-El. set (n := length l).
  assert (Hn : 0 < n) by (unfold n; rewrite El; cbn; lia).
  destruct (omap_lookup_seq l (fun i => (start + i) mod n) 0 n) as [Hlen Hlook].
  { intros i _. apply lookup_lt_is_Some_2, Nat.mod_upper_bound. lia. }
  apply Permutation_inj. unfold rotated. fold n. split; [exact Hlen|].
  exists (fun i => if decide (i < n) then (start + i) mod n else i). split.
  - intros i j. repeat case_decide; intros E; [| | |done].
    + pose proof (Nat.div_mod (start + i) n ltac:(lia)). pose proof (Nat.div_mod (start + j) n ltac:(lia)).
      rewrite E in *. assert ((start + i) / n = (start + j) / n) by nia. nia.
    + pose proof (Nat.mod_upper_bound (start + i) n). lia.
    + pose proof (Nat.mod_upper_bound (start + j) n). lia.
  - intros i. case_decide as Hi; [by rewrite Hlook|].
    rewrite !lookup_ge_None_2; [done|unfold n in *; lia|]. rewrite Hlen. lia.
Qed.

(** ** Logical peers *)
Lemma elem_of_push_new l x y : y ∈ push_new l x <-> y ∈ l \/ y = x.
Proof. unfold push_new. case_bool_decide; set_solver. Qed.
Lemma push_new_nodup l x : NoDup l -> NoDup (push_new l x).
Proof.
  intros Hl. unfold push_new. case_bool_decide; [done|].
  apply NoDup_app; split_and!; [done|set_solver|apply NoDup_singleton].
Qed.
Lemma foldl_push_new l xs y : y ∈ foldl push_new l xs <-> y ∈ l \/ y ∈ xs.
Proof. induction xs as [|x xs IH] in l |- *; cbn; [set_solver|]. rewrite IH, elem_of_push_new. set_solver. Qed.
Lemma foldl_push_new_nodup l xs : NoDup l -> NoDup (foldl push_new l xs).
Proof. induction xs as [|x xs IH] in l |- *; cbn; [done|]. intros. by apply IH, push_new_nodup. Qed.

(** An id worth asking: not the local one, not the empty one. *)
Definition askable (local id : string) : Prop := id <> local /\ id <> "".
Lemma askable_spec local id :
  bool_decide (id <> local) && negb (str_is_empty id) = true <-> askable local id.
Proof.
  unfold askable. rewrite andb_true_iff, bool_decide_eq_true, negb_true_iff. destruct id; cbn; split; intros []; split; done.
Qed.

Lemma static_ids_spec local peers :
  let '(logical, aliases) := static_ids local peers in
  NoDup logical /\
  (forall id, id ∈ logical <-> askable local id /\ exists h, h ∈ peers /\ peer_name h = id) /\
  (forall id, id ∈ aliases <->
     exists h, h ∈ peers /\ pc_name (ph_cfg h) = id /\ ph_remote_peer_id h <> None).
Proof.
  unfold static_ids. induction peers as [|h peers IH] using rev_ind.
  { cbn. split; [apply NoDup_nil_2|]. split; intros id; split; [set_solver.. | set_solver |].
    intros (h & Hh & _). set_solver. }
  rewrite foldl_app. cbn [foldl]. destruct (foldl _ _ peers) as [logical aliases].
  destruct IH as (Hn & Hl & Ha).
  assert (Hpush : forall x, NoDup (if bool_decide (x <> local) && negb (str_is_empty x)
      then push_new logical x else logical) /\
    forall id, id ∈ (if bool_decide (x <> local) && negb (str_is_empty x)
      then push_new logical x else logical) <-> id ∈ logical \/ (id = x /\ askable local id)).
  { intros x. destruct (bool_decide (x <> local) && negb (str_is_empty x)) eqn:E.
    - apply askable_spec in E. split; [by apply push_new_nodup|]. intros id.
      rewrite elem_of_push_new. naive_solver.
    - split; [done|]. intros id. split; [by left|]. intros [?|[-> Hx]]; [done|].
      apply askable_spec in Hx. congruence. }
  assert (Hname : forall id, (exists h', h' ∈ peers ++ [h] /\ peer_name h' = id) <->
    (exists h', h' ∈ peers /\ peer_name h' = id) \/ peer_name h = id) by set_solver.
  assert (Hal : forall id, (exists h', h' ∈ peers ++ [h] /\ pc_name (ph_cfg h') = id /\
      ph_remote_peer_id h' <> None) <->
    (exists h', h' ∈ peers /\ pc_name (ph_cfg h') = id /\ ph_remote_peer_id h' <> None) \/
    (pc_name (ph_cfg h) = id /\ ph_remote_peer_id h <> None)) by set_solver.
  destruct (ph_remote_peer_id h) as [learned|] eqn:Er; cbn.
  - destruct (Hpush learned) as [Hp1 Hp2]. split; [done|]. split; intros id.
    + rewrite Hp2, Hl, Hname. assert (peer_name h = learned) as -> by (unfold peer_name; by rewrite Er).
      naive_solver.
    + rewrite elem_of_cons, Ha, Hal. naive_solver.
  - destruct (Hpush (pc_name (ph_cfg h))) as [Hp1 Hp2]. split; [done|]. split; intros id.
    + rewrite Hp2, Hl, Hname.
      assert (peer_name h = pc_name (ph_cfg h)) as -> by (unfold peer_name; by rewrite Er).
      naive_solver.
    + rewrite Ha, Hal. naive_solver.
Qed.
Lemma all_ids_spec local peers registered :
  let alias id := exists h, h ∈ peers /\ pc_name (ph_cfg h) = id /\ ph_remote_peer_id h <> None in
  NoDup (all_ids local peers registered) /\
  forall id, id ∈ all_ids local peers registered <->
    askable local id /\
    ((exists h, h ∈ peers /\ peer_name h = id) \/ (id ∈ registered /\ ~ alias id)).
Proof.
  intros alias. unfold all_ids. pose proof (static_ids_spec local peers) as Hs.
  destruct (static_ids local peers) as [logical aliases]. destruct Hs as (Hn & Hl & Ha).
  induction registered as [|x registered IH] using rev_ind.
  { cbn. split; [done|]. intros id. rewrite Hl. set_solver. }
  rewrite foldl_app. cbn [foldl]. destruct IH as [IHn IHm].
  set (acc := foldl _ logical registered) in *. unfold alias in *. case_bool_decide as Hx.
  - split; [done|]. intros id. rewrite IHm, elem_of_app, list_elem_of_singleton. apply Ha in Hx.
    split; [naive_solver|]. intros (?&[?|[[?| ->] ?]]); [tauto|tauto|done].
  - rewrite Ha in Hx. destruct (bool_decide (x <> local) && negb (str_is_empty x)) eqn:E.
    + apply askable_spec in E. split; [by apply push_new_nodup|]. intros id.
      rewrite elem_of_push_new, IHm, elem_of_app, list_elem_of_singleton. split; [|naive_solver].
      intros [?| ->]; [naive_solver|]. split; [done|]. right. split; [by right|done].
    + split; [done|]. intros id. rewrite IHm, elem_of_app, list_elem_of_singleton.
      split; [naive_solver|]. intros (Hk&[?|[[?| ->] ?]]); [naive_solver..|].
      apply askable_spec in Hk. congruence.
Qed.

(** ** What a call logs *)
Section emits.
Context `{Network}.
Implicit Types (new : list Rpc).

Definition emits {A} (m : ST Client A) (Q : result Error A -> list Rpc -> Prop) : Prop :=
  forall c, exists new, cl_log (m c).2 = cl_log c ++ new /\ Q (m c).1 new.

Lemma emits_silent {A} (m : ST Client A) (Q : result Error A -> list Rpc -> Prop) :
  (forall c, cl_log (m c).2 = cl_log c) -> (forall c, Q (m c).1 []) -> emits m Q.
Proof. intros Hl HQ c. exists []. by rewrite app_nil_r. Qed.
Lemma emits_bind {A B} (m : ST Client A) (f : A -> ST Client B) Q1 Q :
  emits m Q1 ->
  (forall a, emits (f a) (fun r new2 => forall new1, Q1 (Ok a) new1 -> Q r (new1 ++ new2))) ->
  (forall e new1, Q1 (Err e) new1 -> Q (Err e) new1) ->
  emits (m ≫= f) Q.
Proof.
  intros Hm Hf He c. destruct (Hm c) as (new1 & Hl1 & HQ1). unfold mbind, ST_bind.
  destruct (m c) as [[a|e] c1]; cbn in *.
  - destruct (Hf a c1) as (new2 & Hl2 & HQ2). exists (new1 ++ new2).
    rewrite Hl2, Hl1, <-app_assoc. auto.
  - exists new1. auto.
Qed.
Lemma emits_conseq {A} (m : ST Client A) (Q Q' : result Error A -> list Rpc -> Prop) :
  emits m Q -> (forall r new, Q r new -> Q' r new) -> emits m Q'.
Proof. intros Hm HQ c. destruct (Hm c) as (new & Hl & Hq). exists new. auto. Qed.
Lemma emits_attempt {A} (m : ST Client A) Q :
  emits m Q -> emits (attempt m) (fun r new => exists a, r = Ok a /\ Q a new).
Proof.
  intros Hm c. destruct (Hm c) as (new & Hl & Hq). exists new. unfold attempt.
  destruct (m c) as [r c1]; cbn in *. eauto.
Qed.

(** Calls that ask no slot and turn to nobody. *)
Definition not_slot (e : Rpc) : Prop :=
  match e with RpcSlot _ _ _ | TryPeer _ | TryRoute _ _ => False | _ => True end.
Definition quiet {A} (m : ST Client A) : Prop := emits m (fun _ new => Forall not_slot new).
Lemma quiet_silent {A} (m : ST Client A) : (forall c, cl_log (m c).2 = cl_log c) -> quiet m.
Proof. intros Hm. by apply emits_silent. Qed.
Lemma quiet_log e : not_slot e -> quiet (log e).
Proof. intros He c. exists [e]. split; [done|]. by repeat constructor. Qed.
Lemma quiet_bind {A B} (m : ST Client A) (f : A -> ST Client B) :
  quiet m -> (forall a, quiet (f a)) -> quiet (m ≫= f).
Proof.
  intros Hm Hf. eapply emits_bind; [exact Hm| |done]. intros a.
  eapply emits_conseq; [apply Hf|]. intros r new2 H2 new1 H1. by apply Forall_app.
Qed.
Lemma quiet_attempt {A} (m : ST Client A) : quiet m -> quiet (attempt m).
Proof. intros Hm. eapply emits_conseq; [by apply emits_attempt|]. by intros r new (a & _ & ?). Qed.
Lemma quiet_put_handle r f : quiet (put_handle r f).
Proof. apply quiet_silent. intros c. by destruct r. Qed.
End emits.

Ltac quiet_go :=
  repeat match goal with
  | |- quiet (_ ≫= _) => apply quiet_bind; [|intros ?]
  | |- quiet (attempt _) => apply quiet_attempt
  | |- quiet (put_handle _ _) => apply quiet_put_handle
  | |- quiet (log _) => by apply quiet_log
  | |- quiet (match ?x with _ => _ end) => destruct x
  | |- quiet _ => solve [eauto with quiet | by apply quiet_silent]
  end.
Create HintDb quiet discriminated.
#[export] Hint Constants Opaque : quiet.

Section quiet.
Context `{Network}.
Lemma quiet_connect r : quiet (connect r).
Proof. unfold connect. quiet_go. Qed.
#[local] Hint Resolve quiet_connect : quiet.
Lemma quiet_drop r : quiet (drop_client r).
Proof. apply quiet_put_handle. Qed.
#[local] Hint Resolve quiet_drop : quiet.
Lemma quiet_ensure r : quiet (ensure_sync_session r).
Proof. unfold ensure_sync_session. quiet_go. Qed.
#[local] Hint Resolve quiet_ensure : quiet.
Lemma quiet_add_url p u : quiet (registry_add_url p u).
Proof. unfold registry_add_url. quiet_go. Qed.
#[local] Hint Resolve quiet_add_url : quiet.
Lemma quiet_learn r resp : quiet (learn_peer r resp).
Proof. unfold learn_peer. quiet_go. Qed.
#[local] Hint Resolve quiet_learn : quiet.
Lemma quiet_probe r : quiet (probe_health r).
Proof. unfold probe_health. quiet_go. Qed.
#[local] Hint Resolve quiet_probe : quiet.
Lemma quiet_health r : quiet (health r).
Proof. unfold health. quiet_go. Qed.
#[local] Hint Resolve quiet_health : quiet.
Lemma quiet_refresh l : quiet (refresh_all l).
Proof. induction l; cbn [refresh_all]; quiet_go; done. Qed.
#[local] Hint Resolve quiet_refresh : quiet.
Lemma quiet_ids : quiet logical_peer_ids.
Proof. unfold logical_peer_ids, static_refs. quiet_go. Qed.
Lemma quiet_demote p u : quiet (demote_unless_static p u).
Proof. unfold demote_unless_static, registry_remove_url. quiet_go. Qed.
Lemma quiet_handle_for_url p u : quiet (handle_for_url p u).
Proof. unfold handle_for_url, dynamic_handle, fail. quiet_go. Qed.
Lemma quiet_right_network p l : quiet (right_network p l).
Proof. induction l; cbn [right_network]; quiet_go; done. Qed.
End quiet.
#[export] Hint Resolve quiet_connect quiet_drop quiet_ids quiet_demote quiet_handle_for_url
  quiet_right_network quiet_health : quiet.

(** ** The answers of a fetch *)
(** The FINAL answers among the slot requests of a log, the requests, and the
    peers and routes turned to. *)
Definition final_answers (new : list Rpc) : list FinalSlotResponse :=
  omap (fun e => match e with
                 | RpcSlot _ _ (Ok resp) => if fr_final_known resp then Some resp else None
                 | _ => None
                 end) new.
Definition requests (new : list Rpc) : list FinalSlotRequest :=
  omap (fun e => match e with RpcSlot _ req _ => Some req | _ => None end) new.
Definition tried_routes (new : list Rpc) : list (string * PeerRoute) :=
  omap (fun e => match e with TryRoute id route => Some (id, route) | _ => None end) new.
Definition tried_peers (new : list Rpc) : list string :=
  omap (fun e => match e with TryPeer id => Some id | _ => None end) new.

(** The FINAL answer a search ends with. *)
Definition found (res : result Error (option FinalSlotResponse)) : list FinalSlotResponse :=
  match res with Ok (Some resp) => [resp] | _ => [] end.

Lemma not_slot_silent new : Forall not_slot new ->
  final_answers new = [] /\ requests new = [] /\ tried_routes new = [] /\ tried_peers new = [].
Proof.
  induction 1 as [|e new He _ IH]; [done|]. destruct e; cbn in *; done.
Qed.
Lemma final_answers_app n1 n2 : final_answers (n1 ++ n2) = final_answers n1 ++ final_answers n2.
Proof. apply omap_app. Qed.
Lemma requests_app n1 n2 : requests (n1 ++ n2) = requests n1 ++ requests n2.
Proof. apply omap_app. Qed.
Lemma tried_routes_app n1 n2 : tried_routes (n1 ++ n2) = tried_routes n1 ++ tried_routes n2.
Proof. apply omap_app. Qed.
Lemma tried_peers_app n1 n2 : tried_peers (n1 ++ n2) = tried_peers n1 ++ tried_peers n2.
Proof. apply omap_app. Qed.

Section answers.
Context `{Network}.

Lemma emits_ret {A} (a : A) (Q : result Error A -> list Rpc -> Prop) : Q (Ok a) [] -> emits (mret a) Q.
Proof. intros HQ. by apply emits_silent. Qed.
Lemma emits_log {A} e (f : unit -> ST Client A) Q :
  emits (f tt) (fun r new => Q r (e :: new)) -> emits (log e ≫= f) Q.
Proof.
  intros Hf c. destruct (Hf (log e c).2) as (new & Hl & HQ). exists (e :: new).
  split; [|exact HQ]. change (cl_log (f tt (log e c).2).2 = cl_log c ++ e :: new).
  rewrite Hl. change (cl_log (log e c).2) with (cl_log c ++ [e]). by rewrite <-app_assoc.
Qed.
Lemma emits_gets {A B} (g : Client -> A) (f : A -> ST Client B) Q :
  (forall a, emits (f a) Q) -> emits (gets g ≫= f) Q.
Proof. intros Hf c. apply (Hf (g c) c). Qed.
(** A prefix that asks nothing. *)
Lemma emits_quiet_bind {A B} (m : ST Client A) (f : A -> ST Client B) Q :
  quiet m -> (forall e new, Forall not_slot new -> Q (Err e) new) ->
  (forall a, emits (f a) (fun r new => forall new1, Forall not_slot new1 -> Q r (new1 ++ new))) ->
  emits (m ≫= f) Q.
Proof. intros Hm He Hf. by eapply emits_bind. Qed.

(** One route: at most one request, whose answer is the outcome. *)
Definition one_answer (req : FinalSlotRequest) (res : result Error FinalSlotResponse)
    (new : list Rpc) : Prop :=
  final_answers new =
    match res with Ok resp => if fr_final_known resp then [resp] else [] | Err _ => [] end /\
  Forall (fun r => r = req) (requests new) /\ tried_routes new = [] /\ tried_peers new = [].
Lemma silent_answer req e new : Forall not_slot new -> one_answer req (Err e) new.
Proof. intros (Hf & Hr & Ht & Hp)%not_slot_silent. unfold one_answer. by rewrite Hf, Hr, Ht, Hp. Qed.
Lemma one_answer_app req res n1 n2 :
  Forall not_slot n1 -> one_answer req res n2 -> one_answer req res (n1 ++ n2).
Proof.
  intros (Hf & Hr & Ht & Hp)%not_slot_silent Ho. unfold one_answer.
  by rewrite final_answers_app, requests_app, tried_routes_app, tried_peers_app, Hf, Hr, Ht, Hp.
Qed.

Lemma handle_slot_answer r req : emits (handle_final_slot r req) (one_answer req).
Proof.
  unfold handle_final_slot. apply emits_quiet_bind; [apply quiet_connect|by intros; apply silent_answer|].
  intros _. apply emits_gets. intros h c.
  set (url := pc_url (ph_cfg h)). exists [RpcSlot (UnaryUrl url) req (net_slot (cl_tick c) url req)].
  unfold mbind, ST_bind. cbn.
  destruct (net_slot (cl_tick c) url req) as [resp|e]; cbn.
  - split; [done|]. intros new1 Hn. apply one_answer_app; [done|].
    split; [cbn; by destruct (fr_final_known resp)|]. by repeat constructor.
  - split; [by destruct r|]. intros new1 Hn. apply one_answer_app; [done|]. by repeat constructor.
Qed.
Lemma bridge_answer s req : emits (bridge_final_slot s req) (one_answer req).
Proof.
  intros c. exists [RpcSlot (Session s) req (net_bridge (cl_tick c) s req)].
  unfold bridge_final_slot, mbind, ST_bind. cbn.
  destruct (net_bridge (cl_tick c) s req) as [resp|e]; cbn; split; try done.
  - split; [cbn; by destruct (fr_final_known resp)|]. by repeat constructor.
  - by repeat constructor.
Qed.
Lemma via_answer p route req : emits (via_route p route req) (one_answer req).
Proof.
  destruct route as [url|s]; cbn [via_route]; [|apply bridge_answer].
  apply emits_quiet_bind; [apply quiet_handle_for_url|by intros; apply silent_answer|].
  intros r. eapply emits_conseq; [apply handle_slot_answer|]. intros res new Ho new1 Hn.
  by apply one_answer_app.
Qed.

(** A search along [routes]: it ends at the first FINAL answer, or has tried them all. *)
Definition searched (p : string) (req : FinalSlotRequest) (routes : list PeerRoute)
    (res : result Error (option FinalSlotResponse)) (new : list Rpc) : Prop :=
  final_answers new = found res /\ Forall (fun r => r = req) (requests new) /\
  tried_peers new = [] /\ tried_routes new `prefix_of` ((fun route => (p, route)) <$> routes) /\
  (found res = [] -> tried_routes new = (fun route => (p, route)) <$> routes).

Lemma searched_none p req res : found res = [] -> searched p req [] res [].
Proof. intros Hr. unfold searched. rewrite Hr. by split_and!. Qed.
Lemma searched_next p req route routes res1 res n1 n2 :
  one_answer req res1 n1 ->
  match res1 with Ok resp => fr_final_known resp = false | Err _ => True end ->
  searched p req routes res n2 -> searched p req (route :: routes) res (TryRoute p route :: n1 ++ n2).
Proof.
  intros (Hf & Hr & Ht & Hp) Hno (Hf2 & Hr2 & Hp2 & Ht2 & Ha2). unfold searched. cbn.
  rewrite final_answers_app, requests_app, tried_routes_app, tried_peers_app, Hf, Ht, Hp.
  split_and!; [|by apply Forall_app|done|by apply prefix_cons|].
  - rewrite Hf2. destruct res1 as [resp|e]; [by rewrite Hno|done].
  - intros Hn. by rewrite Ha2.
Qed.
Lemma emits_total (m : ST Client unit) :
  quiet m -> (forall c, (m c).1 = Ok tt) -> emits m (fun r new => r = Ok tt /\ Forall not_slot new).
Proof. intros Hq Ht c. destruct (Hq c) as (new & Hl & Hn). exists new. auto. Qed.
Lemma demote_total p u c : (demote_unless_static p u c).1 = Ok tt.
Proof.
  unfold demote_unless_static, gets, mbind, ST_bind. by destruct (is_static c u).
Qed.
Lemma try_routes_searched p req reached e routes :
  emits (try_routes p req reached e routes) (searched p req routes).
Proof.
  induction routes as [|route routes IH] in reached, e |- *; cbn [try_routes].
  - unfold end_search. destruct reached, e; apply emits_silent; try done; intros; by apply searched_none.
  - apply emits_log. eapply emits_bind; [by apply emits_attempt, via_answer| |by intros e' n (a & [=] & _)].
    intros res. destruct res as [resp|e1].
    + destruct (fr_final_known resp) eqn:Hf.
      * apply emits_ret. intros n1 (a & [= <-] & (Hf1 & Hr1 & Ht1 & Hp1)). rewrite Hf in Hf1.
        change (searched p req (route :: routes) (Ok (Some resp)) ([TryRoute p route] ++ n1 ++ [])).
        rewrite app_nil_r. unfold searched.
        rewrite final_answers_app, requests_app, tried_routes_app, tried_peers_app, Hf1, Ht1, Hp1.
        split_and!; try done. apply prefix_cons, prefix_nil.
      * eapply emits_conseq; [apply IH|]. intros r n2 Hs n1 (a & [= <-] & Ho).
        by eapply searched_next.
    + eapply emits_bind with (Q1 := fun r new => r = Ok tt /\ Forall not_slot new).
      * apply emits_total; destruct route; [apply quiet_demote|by apply quiet_silent|apply demote_total|done].
      * intros []. eapply emits_conseq; [apply IH|]. intros r n2 Hs n0 [_ Hn0] n1 (a & [= <-] & Ho).
        rewrite app_assoc. apply (searched_next p req route routes (Err e1)); [|done|exact Hs].
        destruct Ho as (Hf1 & Hr1 & Ht1 & Hp1). apply not_slot_silent in Hn0 as (Hf0 & Hr0 & Ht0 & Hp0).
        unfold one_answer.
        rewrite final_answers_app, requests_app, tried_routes_app, tried_peers_app, Hf0, Hr0, Ht0, Hp0,
          !app_nil_r. done.
      * intros e2 n0 [Hx ?]. done.
Qed.
End answers.

Section fetch.
Context `{Network}.

Lemma unary_urls_nodup c p : NoDup (unary_urls c p).
Proof. apply foldl_push_new_nodup, foldl_push_new_nodup, NoDup_nil_2. Qed.
(** The routes of a peer are distinct when the registry is well-formed. *)
Lemma peer_routes_nodup c p : registry_wf (cl_registry c) -> NoDup (peer_routes c p).
Proof.
  intros Hr. apply (entry_or_default_pre _ p) in Hr as (_ & _ & Hs). unfold peer_routes.
  apply NoDup_app; split_and!.
  - apply NoDup_fmap_2; [by intros ?? [= ->]|apply unary_urls_nodup].
  - intros route Hu Hv. apply list_elem_of_fmap in Hu as (? & -> & _).
    by apply list_elem_of_fmap in Hv as (? & [=] & _).
  - apply NoDup_fmap_2; [by intros ?? [= ->]|]. by eapply NoDup_fmap_1.
Qed.

(** At a pool: what a peer's search adds to the log. *)
Definition peer_searched (p : string) (req : FinalSlotRequest)
    (res : result Error (option FinalSlotResponse)) (new : list Rpc) : Prop :=
  final_answers new = found res /\ Forall (fun r => r = req) (requests new) /\
  tried_peers new = [] /\ NoDup (tried_routes new) /\
  Forall (fun t : string * PeerRoute => t.1 = p) (tried_routes new).
Lemma peer_searched_quiet p req res new :
  found res = [] -> Forall not_slot new -> peer_searched p req res new.
Proof.
  intros Hr (Hf & Hq & Ht & Hp)%not_slot_silent. unfold peer_searched.
  rewrite Hf, Hq, Ht, Hp, Hr. split_and!; try done. apply NoDup_nil_2.
Qed.
Lemma fetch_logical_searched p period thread parts c :
  registry_wf (cl_registry c) ->
  exists new, cl_log (fetch_from_logical_peer p period thread parts c).2 = cl_log c ++ new /\
    peer_searched p (slot_request period thread parts)
      (fetch_from_logical_peer p period thread parts c).1 new.
Proof.
  intros Hwf. unfold fetch_from_logical_peer, static_refs.
  set (l := seq 0 (length (cl_peers c))).
  destruct (quiet_right_network p l c) as (n1 & Hl1 & Hn1).
  pose proof (steps_right_network wf_kept p l c Hwf) as Hwf1.
  unfold gets, mbind, ST_bind. fold l.
  destruct (right_network p l c) as [[ok|e] c1]; cbn [fst snd] in *.
  2:{ exists n1. split; [done|]. by apply peer_searched_quiet. }
  destruct ok; cbn [negb]; [|exists n1; split; [done|by apply peer_searched_quiet]].
  case_bool_decide as Hlen; [exists n1; split; [done|by apply peer_searched_quiet]|].
  set (routes := peer_routes c1 p) in *. unfold next_start, gets, modify, mbind, ST_bind. cbn [fst snd].
  set (c2 := c1 <| cl_route_rr := _ |>). set (start := Z.to_nat _ mod _).
  unfold mret, ST_ret.
  destruct (try_routes_searched p (slot_request period thread parts) false None (rotated start routes) c2)
    as (n2 & Hl2 & Hf & Hq & Hp & Hpre & _).
  exists (n1 ++ n2). change (cl_log c2) with (cl_log c1) in Hl2. unfold ST in *.
  rewrite Hl2, Hl1, <-app_assoc. split; [done|].
  apply not_slot_silent in Hn1 as (Hf1 & Hq1 & Ht1 & Hp1). unfold peer_searched.
  rewrite final_answers_app, requests_app, tried_peers_app, tried_routes_app, Hf1, Hq1, Ht1, Hp1.
  split_and!; try done; destruct Hpre as [k Hk].
  - assert (NoDup ((fun route => (p, route)) <$> rotated start routes)) as Hnd.
    { apply NoDup_fmap_2; [by intros ?? [= ->]|]. rewrite rotated_perm. by apply peer_routes_nodup. }
    rewrite Hk in Hnd. by apply NoDup_app in Hnd as [? _].
  - assert (Forall (fun t : string * PeerRoute => t.1 = p) ((fun route => (p, route)) <$> rotated start routes)) as Hall.
    { apply Forall_fmap, Forall_forall. done. }
    rewrite Hk in Hall. by apply Forall_app in Hall as [? _].
Qed.

(** Turning to [ids] in order, each peer once, each of its routes once. *)
Definition peers_searched (req : FinalSlotRequest) (ids : list string)
    (res : result Error (option FinalSlotResponse)) (new : list Rpc) : Prop :=
  final_answers new = found res /\ Forall (fun r => r = req) (requests new) /\
  tried_peers new `prefix_of` ids /\ (found res = [] -> tried_peers new = ids) /\
  NoDup (tried_routes new) /\
  Forall (fun t : string * PeerRoute => t.1 ∈ ids) (tried_routes new).

Lemma try_peers_searched period thread parts tried e ids c :
  registry_wf (cl_registry c) -> NoDup ids -> (forall id, id ∈ ids -> id ∉ tried) ->
  exists new, cl_log (try_peers period thread parts tried e ids c).2 = cl_log c ++ new /\
    peers_searched (slot_request period thread parts) ids
      (try_peers period thread parts tried e ids c).1 new.
Proof.
  induction ids as [|id ids IH] in tried, e, c |- *; intros Hwf Hnd Hfr; cbn [try_peers].
  { exists []. rewrite app_nil_r. unfold end_search. split; [by destruct e|].
    unfold peers_searched. destruct e; split_and!; try done; apply NoDup_nil_2. }
  apply NoDup_cons in Hnd as [Hid Hnd].
  rewrite bool_decide_eq_false_2 by (apply Hfr; left).
  unfold mbind, ST_bind, log, modify. set (c1 := c <| cl_log := _ |>).
  assert (registry_wf (cl_registry c1)) as Hwf1 by exact Hwf.
  destruct (fetch_logical_searched id period thread parts c1 Hwf1) as (n1 & Hl1 & Hf1 & Hq1 & Hp1 & Hn1 & Ha1).
  pose proof (steps_fetch_logical wf_kept id period thread parts c1 Hwf1) as Hwf2.
  unfold attempt. destruct (fetch_from_logical_peer id period thread parts c1) as [r1 c2].
  cbn [fst snd] in *. change (cl_log c1) with (cl_log c ++ [TryPeer id]) in Hl1.
  assert (Hnext : forall e', found r1 = [] ->
    exists new, cl_log (try_peers period thread parts ({[id]} ∪ tried) e' ids c2).2 = cl_log c ++ new /\
      peers_searched (slot_request period thread parts) (id :: ids)
        (try_peers period thread parts ({[id]} ∪ tried) e' ids c2).1 new).
  { intros e' Hr1. destruct (IH ({[id]} ∪ tried) e' c2 Hwf2 Hnd) as (n2 & Hl2 & Hf2 & Hq2 & Hp2 & Hall2 & Hn2 & Ha2).
    { intros id' Hin. assert (id' ∉ tried) by (apply Hfr; by right). set_solver. }
    exists ([TryPeer id] ++ n1 ++ n2). rewrite Hl2, Hl1, <-!app_assoc. split; [done|].
    unfold peers_searched.
    rewrite !final_answers_app, !requests_app, !tried_peers_app, !tried_routes_app, Hf1, Hp1, Hr1.
    split_and!; [done|by repeat apply Forall_app_2|by apply prefix_cons| | |].
    - intros Hr. by rewrite Hall2.
    - change (NoDup (tried_routes n1 ++ tried_routes n2)). apply NoDup_app; split_and!; [done| |done].
      intros t Ht1 Ht2. rewrite Forall_forall in Ha1, Ha2. apply Hid.
      rewrite <-(Ha1 t Ht1). by apply Ha2.
    - change (Forall (fun t : string * PeerRoute => t.1 ∈ id :: ids) (tried_routes n1 ++ tried_routes n2)).
      apply Forall_app. split; (eapply Forall_impl; [eassumption|]); cbn.
      + intros t ->. by left.
      + intros t ?. by right. }
  destruct r1 as [[resp|]|e1]; [|by apply Hnext..].
  destruct (fr_final_known resp) eqn:Hk.
  - exists ([TryPeer id] ++ n1). unfold mret, ST_ret. cbn [fst snd]. rewrite Hl1, <-app_assoc. split; [done|]. unfold peers_searched.
    rewrite final_answers_app, requests_app, tried_peers_app, tried_routes_app, Hf1, Hp1.
    split_and!; try done; [apply prefix_cons, prefix_nil|].
    eapply Forall_impl; [exact Ha1|]. intros t ->. by left.
  - exfalso. assert (resp ∈ final_answers n1) as Hin by (rewrite Hf1; left).
    apply list_elem_of_omap in Hin as (x & _ & Hx). destruct x; try done.
    destruct ans as [resp'|]; [|done]. destruct (fr_final_known resp') eqn:E; [|done]. congruence.
Qed.

Lemma refresh_all_ok l c : exists c', refresh_all l c = (Ok tt, c').
Proof.
  induction l as [|i l IH] in c |- *; [by eexists|]. cbn [refresh_all].
  unfold mbind, ST_bind, attempt. destruct (health (Static i) c) as [? c']. apply IH.
Qed.
(** The ids are those of the pool after the probes, in a random order. *)
Lemma ids_run c :
  exists c' ids, refresh_all (seq 0 (length (cl_peers c))) c = (Ok tt, c') /\
    (logical_peer_ids c).1 = Ok ids /\
    ids ≡ₚ all_ids (lp_peer_id (cl_local c')) (cl_peers c') (peer_ids (cl_registry c')).
Proof.
  destruct (refresh_all_ok (seq 0 (length (cl_peers c))) c) as [c' E]. exists c'. eexists.
  split; [exact E|]. unfold logical_peer_ids, static_refs, gets, ask, mbind, ST_bind. rewrite E.
  split; [reflexivity | apply shuffle_perm].
Qed.

(** C24. [fetch_final_slot] turns to the logical peers one after the other, each
    at most once, and along each route of a peer at most once; every request
    is for the slot and parts asked; it stops at the first FINAL answer and
    returns it, and gives up only when every peer was tried and no answer was
    FINAL. *)
Theorem fetch_asks_each_once period thread parts c :
  registry_wf (cl_registry c) ->
  exists ids new,
    (logical_peer_ids c).1 = Ok ids /\ NoDup ids /\
    cl_log (fetch_final_slot period thread parts c).2 = cl_log c ++ new /\
    final_answers new = found (fetch_final_slot period thread parts c).1 /\
    Forall (fun req => req = slot_request period thread parts) (requests new) /\
    tried_peers new `prefix_of` ids /\
    (found (fetch_final_slot period thread parts c).1 = [] -> tried_peers new = ids) /\
    NoDup (tried_routes new).
Proof.
  intros Hwf. unfold fetch_final_slot.
  destruct (quiet_ids c) as (n1 & Hl1 & Hn1). pose proof (steps_ids wf_kept c Hwf) as Hwf1.
  destruct (ids_run c) as (c' & ids & _ & Hids & Hperm).
  assert (NoDup ids) as Hnd by (rewrite Hperm; apply all_ids_spec).
  exists ids. unfold mbind, ST_bind. destruct (logical_peer_ids c) as [r1 c1]. cbn [fst snd] in *.
  subst r1. case_bool_decide as Hlen.
  - exists n1. assert (ids = []) as -> by by destruct ids.
    apply not_slot_silent in Hn1 as (Hf1 & Hq1 & Ht1 & Hp1). cbn. rewrite Hf1, Hq1, Ht1, Hp1.
    split_and!; try done; apply NoDup_nil_2.
  - destruct (try_peers_searched period thread parts ∅ None ids c1 Hwf1 Hnd) as
      (n2 & Hl2 & Hf2 & Hq2 & Hp2 & Hall2 & Hn2 & _); [set_solver|].
    exists (n1 ++ n2). rewrite Hl2, Hl1, <-app_assoc.
    apply not_slot_silent in Hn1 as (Hf1 & Hq1 & Ht1 & Hp1).
    rewrite final_answers_app, requests_app, tried_peers_app, tried_routes_app, Hf1, Hq1, Ht1, Hp1.
    by split_and!.
Qed.

(** The logical peers are distinct, never the local indexer itself nor an
    empty id, and none that can be reached is missing: every configured peer
    under its learned id (or its configured name until it is learned) and
    every registered id that no learned id replaced. *)
Lemma logical_peers_complete c :
  exists c' ids,
    refresh_all (seq 0 (length (cl_peers c))) c = (Ok tt, c') /\
    (logical_peer_ids c).1 = Ok ids /\ NoDup ids /\
    forall id, id ∈ ids <->
      askable (lp_peer_id (cl_local c')) id /\
      ((exists h, h ∈ cl_peers c' /\ peer_name h = id) \/
       (id ∈ peer_ids (cl_registry c') /\
        ~ exists h, h ∈ cl_peers c' /\ pc_name (ph_cfg h) = id /\ ph_remote_peer_id h <> None)).
Proof.
  destruct (ids_run c) as (c' & ids & E & Hids & Hperm). exists c', ids.
  destruct (all_ids_spec (lp_peer_id (cl_local c')) (cl_peers c') (peer_ids (cl_registry c'))) as [Hn Hm].
  split_and!; [done|done|by rewrite Hperm|]. intros id. rewrite Hperm. apply Hm.
Qed.

(** What the tasks of the pool run. *)
Inductive pool_call :=
| CallFetch (period thread : Z) (parts : FinalSlotParts)
| CallStream (peer_id : string) (req : StreamFinalSlotsRequest)
| CallMaintain (backoff : Z) | CallBestRemote.
Definition run_call (call : pool_call) (c : Client) : Client :=
  match call with
  | CallFetch p t parts => (fetch_final_slot p t parts c).2
  | CallStream id req => (stream_range_from_peer id req c).2
  | CallMaintain b => (maintain_pause b c).2
  | CallBestRemote => (best_remote_final_period c).2
  end.
Lemma run_calls_rel R `{!ClientRel R} calls c : R c (foldl (fun c call => run_call call c) c calls).
Proof.
  induction calls as [|call calls IH] in c |- *; cbn; [reflexivity|]. etrans; [|apply IH].
  destruct call; cbn [run_call].
  - apply (steps_fetch R).
  - apply (steps_stream R).
  - apply (steps_maintain R).
  - apply (steps_best_remote R).
Qed.

(** C25. A configured peer is never suppressed: whatever fetches, streams and
    probes do, and however they fail, no URL of the configuration is demoted,
    so it can always be tried again. *)
Theorem static_never_demoted calls c url :
  url ∈ static_urls c -> rg_demoted_urls (cl_registry c) !! url = None ->
  let c' := foldl (fun c call => run_call call c) c calls in
  static_urls c' = static_urls c /\ rg_demoted_urls (cl_registry c') !! url = None.
Proof. intros Hu Hn c'. destruct (run_calls_rel static_kept calls c) as [Hs Hd]. auto. Qed.
End fetch.
