(* ===== verification/GrpcProps.v ===== *)
(** * What the node client guarantees

    A subscription forwards every event of every stream it opens, in order and
    once, for as long as the writer listens, with pauses that stay within their
    bounds; amounts are converted exactly; a name survives its trip to the name
    service's encoding. *)

From S2P Require Import Prelude Text Ids Keys Model Proto Codec Store Db.
From S2P Require Import NodeMsg World Reconcile Arbiter Patch Ingest Grpc.

Section consumer.
Context {M : Type} (make : M -> option Event).
Context (attempt : nat -> Attempt M) (closed : nat -> bool) (clock : nat -> Z).
Implicit Types (s : Consumer) (a : Attempt M).

(** The events of an attempt, and whether it reached the node. *)
Definition events_of a : list Event :=
  match a with Opened messages _ => omap make messages | _ => [] end.
Definition reached a : Prop := a <> ConnectFailed.
Definition pause_ok (d : Z) : Prop := (BACKOFF_MIN <= d <= BACKOFF_MAX)%Z.
Lemma bump_ok d : pause_ok d -> pause_ok (bump_backoff d).
Proof. unfold pause_ok, bump_backoff, BACKOFF_MIN, BACKOFF_MAX. lia. Qed.
Lemma min_ok : pause_ok BACKOFF_MIN.
Proof. unfold pause_ok, BACKOFF_MIN, BACKOFF_MAX. lia. Qed.

(** [forward] hands on the events, or a part of them when the channel closes. *)
Definition handed (all : list Event) (going : bool) s s' : Prop :=
  cn_tick s <= cn_tick s' /\ cn_slept s' = cn_slept s /\
  if going then cn_sent s' = cn_sent s ++ all
  else exists new, cn_sent s' = cn_sent s ++ new /\ new `prefix_of` all.
Lemma forward_hands messages :
  runs (forward make closed clock messages) (handed (omap make messages)).
Proof.
  induction messages as [|m messages IH]; cbn [forward].
  { apply runs_ret. intros s. unfold handed. by rewrite app_nil_r. }
  cbn [omap list_omap]. destruct (make m) as [ev|]; [|exact IH].
  eapply (runs_bind _ _ (fun _ s s' => cn_tick s <= cn_tick s' /\ cn_slept s' = cn_slept s /\ cn_sent s' = cn_sent s)).
  { intros s. do 2 eexists. split; [reflexivity|]. cbn. unfold constant. auto with lia. }
  intros _. eapply (runs_bind _ _ (fun (failed : bool) s s' => cn_tick s <= cn_tick s' /\ cn_slept s' = cn_slept s /\
    cn_sent s' = if failed then cn_sent s else cn_sent s ++ [ev])).
  { intros s. unfold tx_send_fails, interact, mbind, ST_bind. cbn.
    destruct (closed (cn_tick s)); do 2 eexists; (split; [reflexivity|]); cbn; unfold constant; auto with lia. }
  intros failed. destruct failed.
  - apply runs_ret. intros s2 s1 (T2 & L2 & E2) s (T1 & L1 & E1). split; [lia|]. split; [congruence|].
    exists []. rewrite app_nil_r. split; [congruence|apply prefix_nil].
  - eapply runs_conseq; [exact IH|]. intros going s2 s3 (T3 & L3 & E3) s1 (T2 & L2 & E2) s (T1 & L1 & E1).
    split; [lia|]. split; [congruence|]. rewrite E2, E1 in E3. destruct going.
    + by rewrite E3, <-app_assoc.
    + destruct E3 as (new & -> & Hp). exists (ev :: new). rewrite <-app_assoc. split; [done|].
      by apply prefix_cons.
Qed.

(** One turn: its attempt, its pause and the backoff it leaves. *)
Definition turned {B} (ok : B -> Prop) (next : option B) s s' : Prop :=
  exists n, cn_tick s <= n < cn_tick s' /\
    match next with
    | Some b => ok b /\ cn_sent s' = cn_sent s ++ events_of (attempt n) /\
        exists d, cn_slept s' = cn_slept s ++ [d] /\ pause_ok d
    | None => cn_slept s' = cn_slept s /\
        exists new, cn_sent s' = cn_sent s ++ new /\ new `prefix_of` events_of (attempt n)
    end.
(** The first step of a turn, and a turn's report and pause. *)
Lemma interact_runs {A} (f : nat -> A) : runs (interact f) (fun v s s' =>
  v = f (cn_tick s) /\ cn_tick s' = S (cn_tick s) /\ cn_slept s' = cn_slept s /\ cn_sent s' = cn_sent s).
Proof. intros s. do 2 eexists. split; [reflexivity|]. by destruct s. Qed.
Lemma pauses_runs {B} st d (b : Z -> B) :
  runs (rep_state st ;; x ← pause d; mret (Some (b x))) (fun next s s' =>
    next = Some (b (bump_backoff d)) /\ cn_tick s' = cn_tick s /\ cn_slept s' = cn_slept s ++ [d] /\
    cn_sent s' = cn_sent s).
Proof. intros s. do 2 eexists. split; [reflexivity|]. by destruct s. Qed.
Lemma paused {B} (ok : B -> Prop) st d (b : Z -> B) a evs :
  pause_ok d -> ok (b (bump_backoff d)) -> events_of a = evs ->
  runs (rep_state st ;; x ← pause d; mret (Some (b x))) (fun next s1 s' => forall s,
    a = attempt (cn_tick s) -> cn_tick s < cn_tick s1 -> cn_slept s1 = cn_slept s ->
    cn_sent s1 = cn_sent s ++ evs -> turned ok next s s').
Proof.
  intros Hd Hb He. eapply runs_conseq; [apply pauses_runs|].
  intros next s1 s' (-> & T & L & E) s -> Ht Hl Hs. exists (cn_tick s). split; [lia|]. split; [done|].
  split; [congruence|]. exists d. split; [congruence|done].
Qed.
Lemma opened_turns {B} (ok : B -> Prop) messages clean (k : ST Consumer (option B)) :
  runs k (fun next s2 s' => forall s, attempt (cn_tick s) = Opened messages clean -> cn_tick s < cn_tick s2 ->
    cn_slept s2 = cn_slept s -> cn_sent s2 = cn_sent s ++ omap make messages -> turned ok next s s') ->
  runs (going ← forward make closed clock messages; if going : bool then k else mret None)
    (fun next s1 s' => forall s, Opened messages clean = attempt (cn_tick s) ->
       cn_tick s < cn_tick s1 -> cn_slept s1 = cn_slept s -> cn_sent s1 = cn_sent s -> turned ok next s s').
Proof.
  intros Hk. eapply runs_bind; [apply forward_hands|]. intros going. destruct going.
  - eapply runs_conseq; [exact Hk|]. intros next s2 s' Hn s1 (T & L & E) s Ha Ht Hl Hs.
    apply Hn; [done|lia|congruence..].
  - apply runs_ret. intros s2 s1 (T & L & new & E & Hp) s Ha Ht Hl Hs.
    exists (cn_tick s). split; [lia|]. split; [congruence|]. exists new. rewrite <-Ha. split; [congruence|done].
Qed.
Lemma consumer_turn_turns b :
  pause_ok b -> runs (consumer_turn make attempt closed clock b) (turned pause_ok).
Proof.
  intros Hb. unfold consumer_turn. eapply runs_bind; [apply interact_runs|]. intros a.
  destruct a as [|u|messages clean].
  - eapply runs_conseq; [apply (paused pause_ok _ b (fun x => x) ConnectFailed []); [done|by apply bump_ok|done]|].
    intros next s1 s' Hn s (Ha & T & L & E). apply Hn; [done|lia|done|by rewrite app_nil_r].
  - eapply runs_conseq; [apply (paused pause_ok _ BACKOFF_MIN (fun x => x) (RpcFailed u) []);
      [apply min_ok|apply bump_ok, min_ok|done]|].
    intros next s1 s' Hn s (Ha & T & L & E). apply Hn; [done|lia|done|by rewrite app_nil_r].
  - eapply runs_conseq; [apply (opened_turns pause_ok messages clean)|].
    + eapply runs_conseq; [apply (paused pause_ok _ BACKOFF_MIN (fun x => x) (Opened messages clean));
        [apply min_ok|apply bump_ok, min_ok|reflexivity]|]. intros next s2 s' Hn s Ha. by apply Hn.
    + intros next s1 s' Hn s (Ha & T & L & E). apply Hn; [done|lia|done..].
Qed.
Lemma transfers_turn_turns b u :
  pause_ok b -> runs (transfers_turn make attempt closed clock b u) (turned (fun next : Z * bool => pause_ok next.1)).
Proof.
  intros Hb. unfold transfers_turn. eapply runs_bind; [apply interact_runs|]. intros a.
  set (b' := if u then b else BACKOFF_MIN).
  assert (pause_ok b') as Hb' by (subst b'; destruct u; [done|apply min_ok]).
  destruct a as [|un|messages clean].
  - eapply runs_conseq; [apply (paused (fun next => pause_ok next.1) _ b (fun x => (x, u)) ConnectFailed []); [done|by apply bump_ok|done]|].
    intros next s1 s' Hn s (Ha & T & L & E). apply Hn; [done|lia|done|by rewrite app_nil_r].
  - eapply runs_conseq; [apply (paused (fun next => pause_ok next.1) _ b' (fun x => (x, true)) (RpcFailed un) []);
      [done|by apply bump_ok|done]|].
    intros next s1 s' Hn s (Ha & T & L & E). apply Hn; [done|lia|done|by rewrite app_nil_r].
  - set (k := if negb (bool_decide (length messages = 0))
              then rep_state StReconnecting ;; x ← pause b'; mret (Some (x, false))
              else if clean then rep_state StUnimplemented ;; x ← pause (bump_backoff b'); mret (Some (x, true))
              else rep_state StReconnecting ;; x ← pause (bump_backoff b'); mret (Some (x, u))).
    eapply runs_conseq; [apply (opened_turns (fun next => pause_ok next.1) messages clean k)|].
    + pose proof (bump_ok b' Hb') as Hb2. subst k.
      assert (Hk : forall st d b0 (m : ST Consumer (option (Z * bool))),
        m = (rep_state st ;; x ← pause d; mret (Some (x, b0))) -> pause_ok d ->
        runs m (fun next s2 s' => forall s, attempt (cn_tick s) = Opened messages clean ->
          cn_tick s < cn_tick s2 -> cn_slept s2 = cn_slept s -> cn_sent s2 = cn_sent s ++ omap make messages ->
          turned (fun next => pause_ok next.1) next s s')).
      { intros st d b0 m -> Hd. eapply runs_conseq;
          [apply (paused (fun next : Z * bool => pause_ok next.1) st d (fun x => (x, b0)) (Opened messages clean));
           [done|by apply bump_ok|reflexivity]|].
        intros next s2 s' Hn s Ha. by apply Hn. }
      destruct (negb _); [|destruct clean]; eapply Hk; done.
    + intros next s1 s' Hn s (Ha & T & L & E). apply Hn; [done|lia|done..].
Qed.

(** A run of turns: the attempts made, in order. *)
Definition delivered (turns : nat) (going : bool) s s' : Prop :=
  cn_tick s <= cn_tick s' /\ exists ticks, StronglySorted lt ticks /\ Forall (fun n => cn_tick s <= n < cn_tick s') ticks /\
    length ticks <= turns /\
    let all := concat (events_of ∘ attempt <$> ticks) in
    (exists ds, cn_slept s' = cn_slept s ++ ds /\ Forall pause_ok ds) /\
    if going then length ticks = turns /\ cn_sent s' = cn_sent s ++ all
    else exists new, cn_sent s' = cn_sent s ++ new /\ new `prefix_of` all.
Lemma delivered_none s : delivered 0 true s s.
Proof.
  split; [done|]. exists []. split; [apply SSorted_nil|]. split; [apply Forall_nil_2|]. split; [done|].
  split; [exists []; by rewrite app_nil_r|]. split; [done|]. cbn. by rewrite app_nil_r.
Qed.
Lemma delivered_last {B} (ok : B -> Prop) turns s s' : turned ok None s s' -> delivered (S turns) false s s'.
Proof.
  intros (n & Hn & Hl & new & E & Hp). split; [lia|]. exists [n].
  split; [apply SSorted_cons; [apply SSorted_nil|apply Forall_nil_2]|]. split; [by apply Forall_singleton|].
  split; [cbn; lia|]. split; [exists []; by rewrite app_nil_r|].
  exists new. cbn. by rewrite app_nil_r.
Qed.
Lemma delivered_cons {B} (ok : B -> Prop) b turns going s s1 s' :
  turned ok (Some b) s s1 -> delivered turns going s1 s' -> delivered (S turns) going s s'.
Proof.
  intros (n & Hn & _ & E1 & d & L1 & Hd) (Ht & ticks & Hs & Hf & Hl & (ds & L2 & Hds) & Hg).
  split; [lia|]. exists (n :: ticks).
  split; [apply SSorted_cons; [done|eapply Forall_impl; [exact Hf|cbn; lia]]|].
  split; [constructor; [lia|eapply Forall_impl; [exact Hf|cbn; lia]]|]. split; [cbn; lia|].
  split; [exists (d :: ds); rewrite L2, L1, <-app_assoc; split; [done|by constructor]|].
  cbn [fmap list_fmap concat]. destruct going.
  - destruct Hg as [<- E2]. split; [done|]. by rewrite E2, E1, <-app_assoc.
  - destruct Hg as (new & E2 & Hp). exists (events_of (attempt n) ++ new).
    rewrite E2, E1, <-app_assoc. split; [done|]. by apply prefix_app.
Qed.
Lemma loop_delivers {B} (ok : B -> Prop) (turn : B -> ST Consumer (option B))
    (loop : nat -> B -> ST Consumer (option Z)) (last : B -> Z) :
  (forall b, ok b -> runs (turn b) (turned ok)) ->
  (forall b, loop 0 b = mret (Some (last b))) ->
  (forall turns b s, loop (S turns) b s = (next ← turn b;
                   match next with Some b' => loop turns b' | None => mret None end) s) ->
  forall turns b, ok b -> runs (loop turns b) (fun fin => delivered turns (bool_decide (is_Some fin))).
Proof.
  intros Hturn H0 HS turns. induction turns as [|turns IH]; intros b Hb s.
  { rewrite H0. do 2 eexists. split; [reflexivity|]. rewrite bool_decide_true by done. apply delivered_none. }
  rewrite HS. destruct (Hturn b Hb s) as (next & s1 & E & Ht). unfold mbind, ST_bind. rewrite E.
  destruct next as [b'|].
  - pose proof Ht as (n & _ & Hb' & _). destruct (IH b' Hb' s1) as (fin & s' & E' & Hd).
    exists fin, s'. split; [done|]. by eapply delivered_cons.
  - exists None, s1. split; [done|]. rewrite bool_decide_false by (by intros [? ?]). by eapply delivered_last.
Qed.
Lemma consumer_loop_delivers turns b :
  pause_ok b ->
  runs (consumer_loop make attempt closed clock turns b) (fun fin => delivered turns (bool_decide (is_Some fin))).
Proof.
  apply (loop_delivers pause_ok (consumer_turn make attempt closed clock)
           (consumer_loop make attempt closed clock) (fun b => b)); [|done..].
  intros b0. apply consumer_turn_turns.
Qed.
Lemma transfers_loop_delivers turns b u :
  pause_ok b ->
  runs (transfers_loop make attempt closed clock turns b u)
    (fun fin => delivered turns (bool_decide (is_Some fin))).
Proof.
  intros Hb.
  apply (loop_delivers (fun next : Z * bool => pause_ok next.1)
           (fun next => transfers_turn make attempt closed clock next.1 next.2)
           (fun turns next => transfers_loop make attempt closed clock turns next.1 next.2) fst) with (b := (b, u));
    [|done| |done].
  - intros [b0 u0]. apply transfers_turn_turns.
  - intros n [b0 u0]. cbn [transfers_loop fst snd]. unfold mbind, ST_bind. intros s.
    destruct (transfers_turn _ _ _ _ _ _ s) as [[[[? ?]|]|?] ?]; reflexivity.
Qed.
End consumer.

(** ** Amounts *)
Definition amount_in_range (a : NativeAmount) : Prop :=
  (0 <= na_mantissa a < 2 ^ 64)%Z /\ (0 <= na_scale a < 2 ^ 32)%Z.
(** The power of ten the division uses never wraps before a scale of 48, and is
    zero from a scale of 137 on: a multiple of [2 ^ 128]. *)
Lemma pow10_fits n : (0 <= n <= 38)%Z -> (10 ^ n mod 2 ^ 128 = 10 ^ n)%Z.
Proof.
  intros Hn. apply Z.mod_small. split; [apply Z.pow_nonneg; lia|].
  eapply Z.le_lt_trans; [apply (Z.pow_le_mono_r 10 n 38); lia|]. by vm_compute.
Qed.
Lemma pow10_wraps n : (128 <= n)%Z -> (10 ^ n mod 2 ^ 128 = 0)%Z.
Proof.
  intros Hn. replace n with (128 + (n - 128))%Z by lia. rewrite Z.pow_add_r by lia.
  replace (10 ^ 128)%Z with (5 ^ 128 * 2 ^ 128)%Z by (by vm_compute).
  replace (5 ^ 128 * 2 ^ 128 * 10 ^ (n - 128))%Z with (5 ^ 128 * 10 ^ (n - 128) * 2 ^ 128)%Z by ring.
  apply Z.mod_mul. by vm_compute.
Qed.

(** In between it is larger than any mantissa. *)
Lemma pow10_large n : (39 <= n < 128)%Z -> (2 ^ 64 <= 10 ^ n mod 2 ^ 128)%Z.
Proof.
  intros Hn.
  assert (forallb (fun k => (2 ^ 64 <=? 10 ^ Z.of_nat k mod 2 ^ 128)%Z) (seq 39 89) = true) as Hall by (by vm_compute).
  rewrite forallb_forall in Hall. specialize (Hall (Z.to_nat n)). rewrite Z2Nat.id in Hall by lia.
  apply Z.leb_le, Hall, in_seq. lia.
Qed.

(** ** Names *)
Lemma le_u32_length z : length (le_u32 z) = 4.
Proof. unfold le_u32. by rewrite length_reverse, to_be_bytes_length. Qed.
Lemma from_le_u32 z : u32_ok z -> from_le (le_u32 z) = z.
Proof. intros Hz. unfold from_le, le_u32. by rewrite reverse_involutive, from_to_be_bytes_4. Qed.
Lemma as_bytes_length s : length (as_bytes s) = String.length s.
Proof.
  unfold as_bytes, String.list_byte_of_string. rewrite length_map.
  induction s as [|c s IH]; cbn; [done|by rewrite IH].
Qed.
Lemma decode_args_string s :
  utf8_valid (as_bytes s) = true -> (Z.of_nat (String.length s) < 2 ^ 32)%Z ->
  decode_sc_string (args_string s) = Some s.
Proof.
  intros Hv Hl. unfold decode_sc_string, args_string.
  assert (u32_ok (Z.of_nat (String.length s))) as Hok by (unfold u32_ok; lia).
  replace (as_u32 (Z.of_nat (String.length s))) with (Z.of_nat (String.length s))
    by (unfold as_u32; rewrite Z.mod_small; [done|exact Hok]).
  rewrite bool_decide_false by (rewrite length_app, le_u32_length; lia).
  rewrite (take_app_length' _ _ 4), (drop_app_length' _ _ 4) by (by rewrite le_u32_length).
  rewrite from_le_u32, Nat2Z.id by done.
  rewrite bool_decide_false by (rewrite as_bytes_length; lia).
  rewrite <-as_bytes_length, firstn_all. unfold from_utf8. by rewrite Hv, of_as_bytes.
Qed.

(** ** Theorems *)
(** C15. From the moment it starts, and whatever becomes of its attempts, each
    subscription loop hands the writer the events of the streams it opened, all
    of them, in order and once; if the writer's channel closes, the loop ends
    having handed on a prefix of them. Every pause between two attempts lasts
    between half a second and thirty seconds. *)
Theorem subscriptions_forward_everything {M} (attempt : nat -> Attempt M) closed clock turns s :
  (forall make, exists fin s', consumer_loop make attempt closed clock turns BACKOFF_MIN s = (Ok fin, s') /\
     delivered make attempt turns (bool_decide (is_Some fin)) s s') /\
  (forall make, exists fin s', transfers_loop make attempt closed clock turns BACKOFF_MIN false s = (Ok fin, s') /\
     delivered make attempt turns (bool_decide (is_Some fin)) s s').
Proof.
  split; intros make.
  - by apply consumer_loop_delivers, min_ok.
  - by apply transfers_loop_delivers, min_ok.
Qed.

(** C33. A native amount of the node, a mantissa and a number of decimals, is
    shown as the exact number of nMAS it stands for, rounded down, for every
    scale up to 136, although the power of ten wraps around beyond a scale of
    47; from 137 on the power is zero and the division panics. At the node's own
    scale it is the mantissa, as the ingestion takes it. *)
Theorem node_amounts_exact a :
  amount_in_range a ->
  native_amount_to_nmas a =
    (if (na_scale a <? 137)%Z then Some (na_mantissa a * 10 ^ 9 / 10 ^ na_scale a)%Z else None) /\
  (na_scale a = 9%Z -> native_amount_to_nmas a = Some (Reconcile.native_amount_to_nmas a)).
Proof.
  destruct a as [m k]. unfold amount_in_range, native_amount_to_nmas, Reconcile.native_amount_to_nmas. cbn.
  intros [Hm Hk]. assert (Hexact : (k <= 9)%Z ->
    Z.min u128_max (m * 10 ^ (9 - k)) = (m * 10 ^ 9 / 10 ^ k)%Z).
  { intros Hk9. replace 9%Z with (9 - k + k)%Z at 2 by lia. rewrite Z.pow_add_r, Z.mul_assoc by lia.
    rewrite Z.div_mul by (apply Z.pow_nonzero; lia). apply Z.min_r.
    pose proof (Z.pow_le_mono_r 10 (9 - k) 9 ltac:(lia) ltac:(lia)) as Hp.
    pose proof (Z.pow_nonneg 10 (9 - k) ltac:(lia)). unfold u128_max. nia. }
  split.
  - destruct (Z.leb_spec k 9) as [H9|H9].
    { rewrite Hexact by done. by destruct (Z.ltb_spec k 137); [|lia]. }
    assert (m * 10 ^ 9 / 10 ^ k = m / 10 ^ (k - 9))%Z as ->.
    { replace k with (k - 9 + 9)%Z at 1 by lia. rewrite Z.pow_add_r by lia.
      apply Z.div_mul_cancel_r; apply Z.pow_nonzero; lia. }
    destruct (Z.ltb_spec k 137) as [H137|H137].
    + destruct (decide (k - 9 <= 38)%Z) as [Hs|Hs].
      * rewrite pow10_fits by lia. destruct (Z.eqb_spec (10 ^ (k - 9)) 0) as [E|_]; [|done].
        by apply Z.pow_nonzero in E; [|lia..].
      * pose proof (pow10_large (k - 9) ltac:(lia)) as Hl. destruct (Z.eqb_spec (10 ^ (k - 9) mod 2 ^ 128) 0); [lia|].
        rewrite !Z.div_small; [done| |lia]. split; [lia|].
        eapply Z.lt_le_trans; [|apply (Z.pow_le_mono_r 10 39); lia]. eapply Z.lt_trans; [apply Hm|]. by vm_compute.
    + rewrite pow10_wraps by lia. done.
  - intros ->. cbn. rewrite Hexact by lia. by rewrite Z.div_mul.
Qed.

(** A name resolves to the owner the name service answers with: the call
    carries the name in the contract's encoding, which decodes to it, and a
    non-empty answer in that encoding comes back as the string it encodes. *)
Lemma names_resolve `{NodeRpc} url name owner s status contract n :
  node_connect n url = Ok tt -> node_status (S n) = Ok (Some status) ->
  mns_contract_for_chain (ps_chain_id status) = Some contract ->
  name <> ""%string -> owner <> ""%string -> Forall (fun t => utf8_valid (as_bytes t) = true /\
    (Z.of_nat (String.length t) < 2 ^ 32)%Z) [name; owner] ->
  node_read_only_call (S (S n)) (dns_resolve_call contract name) = Ok (Some (args_string owner)) ->
  s = S (S (S n)) ->
  mns_resolve url name n = (Ok (Some owner), s) /\
  decode_sc_string (rc_parameter (dns_resolve_call contract name)) = Some name.
Proof.
  intros Hc Hs Hk Hn Ho Hf Hr ->. apply Forall_cons_1 in Hf as [[Hvn Hln] Hf].
  apply Forall_cons_1 in Hf as [[Hvo Hlo] _]. split; [|by apply decode_args_string].
  assert (str_is_empty name = false) as En by (by apply bool_decide_eq_false).
  assert (str_is_empty owner = false) as Eo by (by apply bool_decide_eq_false).
  unfold mns_resolve. rewrite En. unfold connect_endpoint, node_try, node, mbind, ST_bind, st_lift.
  rewrite Hc. cbn. rewrite Hs. cbn. unfold mbind, option_bind. rewrite Hk, Hr.
  rewrite bool_decide_false.
  - by rewrite decode_args_string, Eo.
  - intros E. apply (f_equal length) in E. unfold args_string in E.
    rewrite length_app, le_u32_length in E. cbn in E. lia.
Qed.
