(* ===== verification/Backfill.v ===== *)
(** * The backfill walker (src/massa-indexer/src/peer/backfill.rs)

    One task that walks the slots from the head down to period 0, asks peers
    for what the store misses and ships the answers to the writer as peer
    patches. The store the task reads ([store]) and the channel to the writer
    ([closed]) are functions of the tick: the writer changes them between any
    two reads. Pauses, metrics and log lines are left out. *)

From S2P Require Import Prelude Ids Keys Model Proto Codec Store Db Arbiter Task Registry PeerService.
From S2P Require Import Client.

(** ** Configuration *)
(** Durations in milliseconds. *)
Record BackfillConfig := mkBackfillConfig {
  bc_rate_limit : Z;
  bc_wrap_pause : Z;
  bc_idle_pause : Z;
  bc_expected_streams : StreamsExpected;
  bc_parts : FinalSlotParts;
  bc_thread_count : Z;
  bc_range_periods : Z;
  bc_range_limit : Z;
  bc_range_sparse_threshold : Z;
  bc_apply_pause : Z;
  bc_apply_bandwidth : Z;
  bc_stale_candidate_periods : Z;
  bc_recent_incomplete_periods : Z;
  bc_recheck_ranges : list (Z * Z);
  bc_max_remote_head_lead : Z;
  bc_recheck_sweeps : Z;
}.
Definition BackfillConfig_default : BackfillConfig := {|
  bc_rate_limit := 20; bc_wrap_pause := 30000; bc_idle_pause := 5000;
  bc_expected_streams := StreamsExpected_all; bc_parts := mkParts true true true;
  bc_thread_count := 32; bc_range_periods := 16; bc_range_limit := 512;
  bc_range_sparse_threshold := 24; bc_apply_pause := 2; bc_apply_bandwidth := 2000000;
  bc_stale_candidate_periods := 64; bc_recent_incomplete_periods := 1350;
  bc_recheck_ranges := []; bc_max_remote_head_lead := 50000; bc_recheck_sweeps := 3 |}.

Record SweepCtx := mkSweep { sw_head : Z; sw_recheck_ranges : list (Z * Z) }.
Definition in_recheck (sweep : SweepCtx) (period : Z) : bool :=
  existsb (fun r : Z * Z => (r.1 <=? period)%Z && (period <=? r.2)%Z) (sw_recheck_ranges sweep).

(** ** What to ask for *)
Inductive FetchReason := Gap | StaleCandidate | SuspiciousMiss | RecentIncomplete | Recheck.
#[export] Instance FetchReason_eq_dec : EqDecision FetchReason.
Proof. solve_decision. Defined.

(** The operator's parts a peer may be asked for. *)
Definition enabled_parts (enabled : StreamsExpected) (requestable : FinalSlotParts) : FinalSlotParts :=
  mkParts (st_filled_blocks enabled && fp_block requestable)
          (st_slot_execution_outputs enabled && fp_exec_output requestable)
          (st_transfers enabled && fp_transfers requestable).
Definition all_enabled (enabled : StreamsExpected) (requestable : FinalSlotParts)
  : option FinalSlotParts :=
  let parts := enabled_parts enabled requestable in
  if fp_block parts || fp_exec_output parts || fp_transfers parts then Some parts else None.

Definition needs_fetch (row : option SlotState) (cfg : BackfillConfig) (sweep : SweepCtx)
  : option (FinalSlotParts * FetchReason) :=
  let enabled := bc_expected_streams cfg in
  let requestable := bc_parts cfg in
  let everything reason := (fun p => (p, reason)) <$> all_enabled enabled requestable in
  match row with
  | None => everything Gap
  | Some s =>
      let age := saturating_sub (sw_head sweep) (slot_period (ss_slot s)) in
      match ss_status s with
      | SlotUnknown => everything Gap
      | SlotCandidate =>
          if (bc_stale_candidate_periods cfg <=? age)%Z then everything StaleCandidate else None
      | SlotFinal =>
          let c := ss_completeness s in
          if in_recheck sweep (slot_period (ss_slot s)) then everything Recheck
          else if negb (ss_is_miss s) && negb (block_body_stored c) then everything Gap
          else if ss_is_miss s && negb (bool_decide (ss_candidate_block_ids s = []))
          then everything SuspiciousMiss
          else if (age <=? bc_recent_incomplete_periods cfg)%Z then
            let parts := mkParts false
              (st_slot_execution_outputs enabled && fp_exec_output requestable &&
               negb (exec_output_final c))
              (st_transfers enabled && fp_transfers requestable && negb (transfers_stored c)) in
            if fp_exec_output parts || fp_transfers parts then Some (parts, RecentIncomplete)
            else None
          else None
      end
  end.

(** A FINAL answer a parts-only pull could apply nothing of. *)
Definition response_is_empty_for_parts (resp : FinalSlotResponse) : bool :=
  let has_payload :=
    is_some (fr_block resp) || negb (bool_decide (length (fr_operations resp) = 0))
    || negb (bool_decide (length (fr_sc_events resp) = 0))
    || negb (bool_decide (length (fr_executed_op_ids resp) = 0))
    || negb (bool_decide (length (fr_async_msgs resp) = 0))
    || negb (bool_decide (length (fr_transfers resp) = 0))
    || negb (bool_decide (length (fr_deferred_calls resp) = 0)) in
  if has_payload then false
  else
    let honoured := default FinalSlotParts_default (fr_parts resp) in
    let asserted := fr_completeness_known resp &&
      ((fp_exec_output honoured && fr_has_exec_output resp)
       || (fp_transfers honoured && fr_has_transfers resp)
       || (fp_block honoured && fr_has_block_body resp)) in
    negb asserted.

(** ** The walker *)
(** The pool it shares, the patches it shipped, in order, and the slots its
    sweeps looked at. *)
Record Walker := mkWalker {
  wk_client : Client;
  wk_sent : list FinalSlotResponse;
  wk_scanned : list (Z * Z);
}.

Section backfill.
Context `{Bs58, Base64, HexCrate, ProstStorage, RocksDB, Network}.
(** The store and the writer's channel at each tick. *)
Context (store : nat -> DB) (closed : nat -> bool).
Implicit Types (cfg : BackfillConfig) (sweep : SweepCtx) (needy : list (Z * Z)).

Definition pool {A} (m : ST Client A) : ST Walker A := fun w =>
  let '(r, c) := m (wk_client w) in (r, w <| wk_client := c |>).
Definition try_pool {A} (m : ST Client A) : ST Walker (result Error A) := pool (attempt m).
Definition tx_is_closed : ST Walker bool := pool (ask closed).
Definition ship (resp : FinalSlotResponse) : ST Walker unit := fun w =>
  (Ok tt, w <| wk_sent := wk_sent w ++ [resp] |>).
(** [tx.send(Event::PeerPatch(resp)).await.is_ok()]. *)
Definition tx_send (resp : FinalSlotResponse) : ST Walker bool :=
  gone ← pool (ask closed);
  if gone : bool then mret false else (ship resp;; mret true).
Definition read_row (p t : Z) : ST Walker (result Error (option SlotState)) :=
  pool (ask (fun n => read_slot (store n) p t)).
Definition scanned (p t : Z) : ST Walker unit := fun w =>
  (Ok tt, w <| wk_scanned := wk_scanned w ++ [(p, t)] |>).

(** The slots of a window, newest period first, threads ascending. *)
Definition window_slots cfg (win_lo win_hi : Z) : list (Z * Z) :=
  slots_desc win_lo win_hi (bc_thread_count cfg).
Fixpoint scan_slots cfg sweep (slots : list (Z * Z)) : ST Walker (list (Z * Z)) :=
  match slots with
  | [] => mret []
  | (p, t) :: slots' =>
      scanned p t;;
      row ← read_row p t;
      needy ← scan_slots cfg sweep slots';
      mret match row with
           | Ok row => if is_some (needs_fetch row cfg sweep) then (p, t) :: needy else needy
           | Err _ => needy
           end
  end.

(** ** The bulk path *)
(** The messages of one stream: what is still missing afterwards, [None] when
    the channel closed. *)
Fixpoint apply_stream (skip_empty : bool) (remaining : gset (Z * Z)) (items : list StreamItem)
  : ST Walker (option (gset (Z * Z))) :=
  match items with
  | StreamMsg resp :: items' =>
      match u8_try_from (fr_thread resp) with
      | Some t =>
          let k := (fr_period resp, t) in
          if negb (fr_final_known resp) || negb (bool_decide (k ∈ remaining))
             || (skip_empty && response_is_empty_for_parts resp)
          then apply_stream skip_empty remaining items'
          else
            sent ← tx_send resp;
            if sent : bool then apply_stream skip_empty (remaining ∖ {[k]}) items' else mret None
      | None => apply_stream skip_empty remaining items'
      end
  | [] | StreamError _ :: _ | Stalled :: _ => mret (Some remaining)
  end.
Definition range_request cfg (win_lo win_hi : Z) : StreamFinalSlotsRequest :=
  mkStreamRequest win_lo 0 win_hi (saturating_sub (bc_thread_count cfg) 1)
    (Some (enabled_parts (bc_expected_streams cfg) (bc_parts cfg))) (bc_range_limit cfg).
Fixpoint fill_from_peers (skip_empty : bool) (req : StreamFinalSlotsRequest)
    (remaining : gset (Z * Z)) (ids : list string) : ST Walker (option (gset (Z * Z))) :=
  match ids with
  | [] => mret (Some remaining)
  | id :: ids' =>
      if bool_decide (remaining = ∅) then mret (Some remaining)
      else
        gone ← tx_is_closed;
        if gone : bool then mret None
        else
          stream ← try_pool (stream_range_from_peer id req);
          match stream with
          | Err _ => fill_from_peers skip_empty req remaining ids'
          | Ok items =>
              left ← apply_stream skip_empty remaining items;
              match left with
              | None => mret None
              | Some remaining => fill_from_peers skip_empty req remaining ids'
              end
          end
  end.
(** What no peer supplied of [needy]; [None] when the channel closed. *)
Definition range_fill_window_opts cfg (win_lo win_hi : Z) needy (skip_empty : bool)
  : ST Walker (option (list (Z * Z))) :=
  ids ← pool logical_peer_ids;
  left ← fill_from_peers skip_empty (range_request cfg win_lo win_hi) (list_to_set needy) ids;
  mret ((fun remaining => filter (fun k => k ∈ remaining) needy) <$> (left : option (gset (Z * Z)))).
Definition range_fill_window cfg (win_lo win_hi : Z) needy : ST Walker (option (list (Z * Z))) :=
  range_fill_window_opts cfg win_lo win_hi needy false.

(** ** One slot *)
(** [false] when the channel closed. *)
Definition visit_slot cfg sweep (p t : Z) : ST Walker bool :=
  row ← read_row p t;
  match row with
  | Err _ => mret true
  | Ok row =>
      match needs_fetch row cfg sweep with
      | None => mret true
      | Some (needed, _) =>
          res ← try_pool (fetch_final_slot p t needed);
          match res with
          | Ok (Some resp) => if fr_final_known resp then tx_send resp else mret true
          | Ok None | Err _ => mret true
          end
      end
  end.
Fixpoint visit_slots cfg sweep (slots : list (Z * Z)) : ST Walker bool :=
  match slots with
  | [] => mret true
  | (p, t) :: slots' =>
      ok ← visit_slot cfg sweep p t;
      if ok : bool then visit_slots cfg sweep slots' else mret false
  end.

(** ** A sweep *)
Definition dense cfg needy : bool := (bc_range_sparse_threshold cfg <=? Z.of_nat (length needy))%Z.
(** One window: scan, bulk path when dense, slot by slot for what is sparse. *)
Definition visit_window cfg sweep (win_lo win_hi : Z) : ST Walker bool :=
  needy ← scan_slots cfg sweep (window_slots cfg win_lo win_hi);
  left ← (if negb (bool_decide (needy = [])) && dense cfg needy
          then range_fill_window cfg win_lo win_hi needy
          else mret (Some needy));
  match left : option (list (Z * Z)) with
  | None => mret false
  | Some needy =>
      if negb (bool_decide (needy = [])) && negb (dense cfg needy)
      then visit_slots cfg sweep needy else mret true
  end.
Definition window_lo cfg (period : Z) : Z :=
  saturating_sub period (saturating_sub (bc_range_periods cfg) 1).

Inductive SweepEnd := ReachedGenesis | ChannelClosed | OutOfFuel.
Fixpoint sweep_loop (fuel : nat) cfg sweep (period : Z) : ST Walker SweepEnd :=
  match fuel with
  | O => mret OutOfFuel
  | S fuel' =>
      gone ← tx_is_closed;
      if gone : bool then mret ChannelClosed
      else
        let win_lo := window_lo cfg period in
        ok ← visit_window cfg sweep win_lo period;
        if negb ok then mret ChannelClosed
        else if Z.eqb win_lo 0 then mret ReachedGenesis
        else sweep_loop fuel' cfg sweep (win_lo - 1)
  end.

(** ** The outer loop *)
(** The operator's ranges still offered, and for how many sweeps. *)
Record Armed := mkArmed { ar_ranges : list (Z * Z); ar_sweeps_left : Z }.
Definition arm cfg : Armed :=
  mkArmed (bc_recheck_ranges cfg)
    (if bool_decide (bc_recheck_ranges cfg = []) then 0 else bc_recheck_sweeps cfg).
Definition after_sweep (a : Armed) : Armed :=
  if bool_decide (ar_ranges a = []) then a
  else
    let left := saturating_sub (ar_sweeps_left a) 1 in
    mkArmed (if Z.eqb left 0 then [] else ar_ranges a) left.
(** Follows the highest period a peer reports, within the allowed lead. *)
Definition sweep_head cfg (local_head : Z) (remote : option Z) : Z :=
  match remote with
  | Some remote =>
      if (local_head <? remote)%Z
      then Z.min remote (saturating_add_u64 local_head (bc_max_remote_head_lead cfg))
      else local_head
  | None => local_head
  end.
Definition sweep_fuel (head : Z) : nat := S (Z.to_nat head).
(** One turn of the loop; [None]: the worker stops. *)
Definition backfill_turn cfg (a : Armed) : ST Walker (option Armed) :=
  gone ← tx_is_closed;
  if gone : bool then mret None
  else
    empty ← pool (gets PeerPool_is_empty);
    if empty : bool then mret (Some a)
    else
      local ← pool (ask (fun n => read_last_final_slot (store n)));
      match local with
      | Ok (Some s) =>
          remote ← pool best_remote_final_period;
          let head := sweep_head cfg (slot_period s) remote in
          fin ← sweep_loop (sweep_fuel head) cfg (mkSweep head (ar_ranges a)) head;
          match fin with
          | ReachedGenesis => mret (Some (after_sweep a))
          | ChannelClosed | OutOfFuel => mret None
          end
      | Ok None | Err _ => mret (Some a)
      end.
Fixpoint backfill_turns (n : nat) cfg (a : Armed) : ST Walker (option Armed) :=
  match n with
  | O => mret (Some a)
  | S n' =>
      a ← backfill_turn cfg a;
      match a with Some a => backfill_turns n' cfg a | None => mret None end
  end.
Definition run_backfill (n : nat) cfg : ST Walker (option Armed) := backfill_turns n cfg (arm cfg).
End backfill.
