(* ===== verification/BackfillProps.v ===== *)
(** * What the backfill walker guarantees

    A sweep looks at every slot once and ends;
    the bulk path ships only FINAL answers it misses, each once; the predicate
    that decides what to ask for is characterised. *)

From S2P Require Import Prelude Ids Keys Model Proto Codec Store Db Arbiter Task Registry PeerService.
From S2P Require Import Client ClientSteps ClientProps Backfill.

(** ** Computations that return *)
(** A filter is decided on the members. *)
Lemma filter_members {A} (P Q : A -> Prop) `{!forall a, Decision (P a), !forall a, Decision (Q a)}
    (l : list A) :
  (forall a, a ∈ l -> P a <-> Q a) -> filter P l = filter Q l.
Proof.
  induction l as [|a l IH]; intros E; [done|]. rewrite !filter_cons, IH by set_solver.
  specialize (E a ltac:(by left)). do 2 case_decide; tauto.
Qed.

Section client_returns.
Context `{Network}.
Lemma returns_attempt {A} (m : ST Client A) : returns (attempt m).
Proof. intros c. unfold attempt. destruct (m c) as [r c']. by exists r, c'. Qed.
Lemma returns_gets {A} (g : Client -> A) : returns (gets g).
Proof. intros c. by exists (g c), c. Qed.
Lemma ids_returns : returns logical_peer_ids.
Proof.
  intros c. destruct (ids_run c) as (_ & ids & _ & E & _). exists ids, (logical_peer_ids c).2.
  split; [|done]. rewrite <-E. by destruct (logical_peer_ids c).
Qed.
Lemma best_returns : returns best_remote_final_period.
Proof.
  apply returns_bind; [apply returns_gets|]. intros l. generalize (None : option Z).
  induction l as [|i l IH]; intros best; cbn [best_final]; [by apply runs_ret|].
  apply returns_bind; [apply returns_attempt|]. intros res.
  apply returns_bind; [apply returns_gets|]. intros net. apply IH.
Qed.
End client_returns.

Section walker.
Context `{Bs58, Base64, HexCrate, ProstStorage, RocksDB, Network}.
Context (store : nat -> DB) (closed : nat -> bool).
Implicit Types (w : Walker) (cfg : BackfillConfig) (needy : list (Z * Z)).

(** Calls that neither ship a patch nor look at a slot. *)
Definition idle w w' : Prop := wk_sent w' = wk_sent w /\ wk_scanned w' = wk_scanned w.
Lemma pool_idle {A} (m : ST Client A) : returns m -> runs (pool m) (fun _ => idle).
Proof.
  intros Hm w. destruct (Hm (wk_client w)) as (a & c & E & _).
  exists a, (w <| wk_client := c |>). unfold pool. rewrite E. done.
Qed.
Lemma try_pool_idle {A} (m : ST Client A) : runs (try_pool m) (fun _ => idle).
Proof. apply pool_idle, returns_attempt. Qed.
Lemma ask_idle {A} (f : nat -> A) : runs (pool (ask f)) (fun _ => idle).
Proof. apply pool_idle. intros c. by eexists _, _. Qed.
Lemma idle_bind {A B} (m : ST Walker A) (f : A -> ST Walker B) (Q : B -> Walker -> Walker -> Prop) :
  runs m (fun _ => idle) -> (forall b w w1 w2, idle w w1 -> Q b w1 w2 -> Q b w w2) ->
  (forall a, runs (f a) Q) -> runs (m ≫= f) Q.
Proof.
  intros Hm HQ Hf. eapply runs_bind; [exact Hm|]. intros a. eapply runs_conseq; [apply Hf|]. eauto.
Qed.

(** [Q] of what was shipped, nothing looked at. *)
Definition ships (Q : list FinalSlotResponse -> Prop) w w' : Prop :=
  exists sent, wk_sent w' = wk_sent w ++ sent /\ wk_scanned w' = wk_scanned w /\ Q sent.
Lemma idle_ships (Q : list FinalSlotResponse -> Prop) w w' : idle w w' -> Q [] -> ships Q w w'.
Proof. intros [Hs Hn] HQ. exists []. by rewrite app_nil_r. Qed.
Lemma idle_then_ships (Q : list FinalSlotResponse -> Prop) w w1 w2 : idle w w1 -> ships Q w1 w2 -> ships Q w w2.
Proof. intros [Hs Hn] (sent & E & En & HQ). exists sent. split_and!; congruence. Qed.

(** ** The bulk path *)
Definition resp_key (resp : FinalSlotResponse) : Z * Z := (fr_period resp, fr_thread resp).
(** An answer the bulk path may ship for the slots it misses. *)
Definition shippable (skip_empty : bool) (missing : gset (Z * Z)) (resp : FinalSlotResponse) : Prop :=
  fr_final_known resp = true /\ resp_key resp ∈ missing /\
  (skip_empty = true -> response_is_empty_for_parts resp = false).
(** [sent] shipped out of [before], leaving [rest]: each missing slot at most once. *)
Definition shipped (skip_empty : bool) (before : gset (Z * Z)) (rest : option (gset (Z * Z)))
    (sent : list FinalSlotResponse) : Prop :=
  Forall (shippable skip_empty before) sent /\ NoDup (resp_key <$> sent) /\
  match rest with
  | Some rest => rest = before ∖ list_to_set (resp_key <$> sent)
  | None => True
  end.

Lemma shipped_nothing (skip : bool) (before : gset (Z * Z)) : shipped skip before (Some before) [].
Proof. split_and!; [constructor|apply NoDup_nil_2|symmetry; apply difference_empty_L]. Qed.
Lemma shippable_mono (skip : bool) (X Y : gset (Z * Z)) resp :
  X ⊆ Y -> shippable skip X resp -> shippable skip Y resp.
Proof. intros Hs (?&?&?). split_and!; [done|set_solver|done]. Qed.
(** Shipping from what an earlier part left. *)
Lemma shipped_app (skip : bool) (before mid : gset (Z * Z)) rest s1 s2 :
  shipped skip before (Some mid) s1 -> shipped skip mid rest s2 -> shipped skip before rest (s1 ++ s2).
Proof.
  intros (Hf1 & Hn1 & ->) (Hf2 & Hn2 & Hl). split_and!.
  - apply Forall_app. split; [done|]. eapply Forall_impl; [exact Hf2|]. intros r.
    apply shippable_mono. intros k. rewrite elem_of_difference. tauto.
  - rewrite fmap_app. apply NoDup_app; split_and!; [done| |done]. intros k Hk1 Hk2.
    apply list_elem_of_fmap in Hk2 as (r & -> & Hr). rewrite Forall_forall in Hf2.
    destruct (Hf2 r Hr) as (_ & [_ Hno]%elem_of_difference & _).
    by apply Hno, elem_of_list_to_set.
  - destruct rest as [rest|]; [|done]. rewrite Hl, fmap_app, list_to_set_app_L, difference_difference_l_L. done.
Qed.
Lemma shipped_one (skip : bool) (before : gset (Z * Z)) resp :
  shippable skip before resp -> shipped skip before (Some (before ∖ {[resp_key resp]})) [resp].
Proof.
  intros Hr. split_and!; [by apply Forall_singleton|apply NoDup_singleton|]. cbn.
  by rewrite union_empty_r_L.
Qed.
Lemma ships_app (skip : bool) (before mid : gset (Z * Z)) rest w w1 w2 :
  ships (shipped skip before (Some mid)) w w1 -> ships (shipped skip mid rest) w1 w2 ->
  ships (shipped skip before rest) w w2.
Proof.
  intros (s1 & E1 & N1 & H1') (s2 & E2 & N2 & H2'). exists (s1 ++ s2).
  split_and!; [by rewrite E2, E1, <-app_assoc|congruence|by eapply shipped_app].
Qed.

Lemma apply_stream_ships skip before items :
  runs (apply_stream closed skip before items) (fun rest => ships (shipped skip before rest)).
Proof.
  induction items as [|item items IH] in before |- *; cbn [apply_stream].
  { apply runs_ret. intros w. apply idle_ships; [done|apply shipped_nothing]. }
  destruct item as [resp|e|].
  2,3: apply runs_ret; intros w; apply idle_ships; [done|apply shipped_nothing].
  destruct (u8_try_from (fr_thread resp)) as [t|] eqn:Ht; [|apply IH].
  apply u8_try_from_Some in Ht as [-> _].
  destruct (_ || _ || _) eqn:Hc; [apply IH|].
  apply orb_false_iff in Hc as [[Hfin Hin]%orb_false_iff Hemp].
  apply negb_false_iff in Hfin, Hin. apply bool_decide_eq_true in Hin.
  assert (shippable skip before resp) as Hr.
  { split_and!; [done|done|]. intros ->. done. }
  eapply runs_bind with (Q1 := fun (ok : bool) w w' =>
    if ok then ships (shipped skip before (Some (before ∖ {[resp_key resp]}))) w w' else idle w w').
  - eapply runs_bind; [apply ask_idle|]. intros gone. destruct gone.
    + by apply runs_ret.
    + intros w. exists true, (w <| wk_sent := wk_sent w ++ [resp] |>). split; [done|]. intros w0 [Hs Hn].
      exists [resp]. cbn. unfold constant. rewrite Hs. split_and!; [done|done|by apply shipped_one].
  - intros ok. destruct ok.
    + eapply runs_conseq; [apply IH|]. intros rest w1 w2 H2' w Hw. by eapply ships_app.
    + apply runs_ret. intros w1 w Hw. apply idle_ships; [done|].
      split_and!; [constructor|apply NoDup_nil_2|done].
Qed.
Lemma fill_ships skip req before ids :
  runs (fill_from_peers closed skip req before ids) (fun rest => ships (shipped skip before rest)).
Proof.
  induction ids as [|id ids IH] in before |- *; cbn [fill_from_peers].
  { apply runs_ret. intros w. apply idle_ships; [done|apply shipped_nothing]. }
  case_bool_decide as He.
  { apply runs_ret. intros w. apply idle_ships; [done|apply shipped_nothing]. }
  assert (Hi : forall rest w w1 w2, idle w w1 -> ships (shipped skip before rest) w1 w2 ->
    ships (shipped skip before rest) w w2) by (intros; by eapply idle_then_ships).
  apply idle_bind; [apply ask_idle|done|]. intros gone. destruct gone.
  { apply runs_ret. intros w. apply idle_ships; [done|].
    split_and!; [constructor|apply NoDup_nil_2|done]. }
  apply idle_bind; [apply try_pool_idle|done|]. intros stream. destruct stream as [items|e]; [|apply IH].
  eapply runs_bind; [apply apply_stream_ships|]. intros rest. destruct rest as [rest|].
  - eapply runs_conseq; [apply IH|]. intros rest' w1 w2 H2' w Hw. by eapply ships_app.
  - by apply runs_ret; intros w1 w Hw.
Qed.

(** C23. The bulk path of the walker always returns; whatever the peers stream, it
    ships only FINAL answers for slots it was missing, each slot at most once
    (none empty of the requested parts when told to skip those); unless the
    writer's channel closes, the slots it reports rest over are exactly the
    missing ones it shipped no answer for. *)
Theorem range_fill_ships_missing cfg win_lo win_hi needy skip w :
  exists rest w' sent,
    range_fill_window_opts closed cfg win_lo win_hi needy skip w = (Ok rest, w') /\
    wk_sent w' = wk_sent w ++ sent /\ wk_scanned w' = wk_scanned w /\
    Forall (shippable skip (list_to_set needy)) sent /\ NoDup (resp_key <$> sent) /\
    forall l, rest = Some l -> l = filter (fun k => k ∉ resp_key <$> sent) needy.
Proof.
  destruct (pool_idle logical_peer_ids ids_returns w) as (ids & w1 & E1 & [Hs1 Hn1]).
  destruct (fill_ships skip (range_request cfg win_lo win_hi) (list_to_set needy) ids w1)
    as (rest & w2 & E2 & sent & Hs2 & Hn2 & Hf & Hnd & Hl).
  exists ((fun remaining : gset (Z * Z) => filter (fun k => k ∈ remaining) needy) <$> rest), w2, sent.
  split_and!; [|congruence|congruence|done|done|].
  - unfold range_fill_window_opts, mbind, ST_bind. rewrite E1, E2. done.
  - destruct rest as [rest|]; cbn; [|done]. intros l [= <-]. subst rest.
    apply filter_members. intros k Hk. rewrite elem_of_difference, !elem_of_list_to_set. tauto.
Qed.
(** ** A sweep *)
(** [seen] was looked at. *)
Definition looks (seen : list (Z * Z)) w w' : Prop := wk_scanned w' = wk_scanned w ++ seen.
Lemma idle_looks w w' : idle w w' -> looks [] w w'.
Proof. intros [_ Hn]. unfold looks. by rewrite app_nil_r. Qed.
Lemma looks_app s1 s2 w w1 w2 : looks s1 w w1 -> looks s2 w1 w2 -> looks (s1 ++ s2) w w2.
Proof. unfold looks. intros E1 E2. by rewrite E2, E1, <-app_assoc. Qed.
Lemma ships_looks Q w w' : ships Q w w' -> looks [] w w'.
Proof. intros (sent & _ & Hn & _). unfold looks. by rewrite app_nil_r. Qed.
(** Composition of steps that always look at the same slots. *)
Lemma looks_bind {A B} (m : ST Walker A) (f : A -> ST Walker B) s1 s2 :
  runs m (fun _ => looks s1) -> (forall a, runs (f a) (fun _ => looks s2)) ->
  runs (m ≫= f) (fun _ => looks (s1 ++ s2)).
Proof.
  intros Hm Hf. eapply runs_bind; [exact Hm|]. intros a. eapply runs_conseq; [apply Hf|].
  intros b w1 w2 H2' w H1'. by eapply looks_app.
Qed.
Lemma looks_end {A} (m : ST Walker A) s : runs m (fun _ => looks (s ++ [])) -> runs m (fun _ => looks s).
Proof. by rewrite app_nil_r. Qed.
Lemma looks_ret {A} (a : A) : runs (mret a) (fun _ => looks []).
Proof. apply runs_ret. intros w. unfold looks. by rewrite app_nil_r. Qed.
Lemma looks_idle {A} (m : ST Walker A) : runs m (fun _ => idle) -> runs m (fun _ => looks []).
Proof. intros Hm. eapply runs_conseq; [exact Hm|]. intros a. apply idle_looks. Qed.

Lemma scan_looks cfg sweep slots :
  runs (scan_slots store cfg sweep slots) (fun _ => looks slots).
Proof.
  induction slots as [|[p t] slots IH]; cbn [scan_slots]; [apply looks_ret|].
  apply (looks_bind _ _ [(p, t)] slots).
  { intros w. exists tt, (w <| wk_scanned := wk_scanned w ++ [(p, t)] |>). done. }
  intros []. apply (looks_bind _ _ [] slots); [by apply looks_idle, ask_idle|]. intros row.
  apply looks_end. apply (looks_bind _ _ slots []); [exact IH|]. intros needy. apply looks_ret.
Qed.
Lemma tx_send_looks resp : runs (tx_send closed resp) (fun _ => looks []).
Proof.
  apply (looks_bind _ _ [] []); [by apply looks_idle, ask_idle|]. intros gone.
  destruct gone; [apply looks_ret|].
  intros w. exists true, (w <| wk_sent := wk_sent w ++ [resp] |>). split; [done|].
  unfold looks. by rewrite app_nil_r.
Qed.
Lemma visit_slot_looks cfg sweep p t : runs (visit_slot store closed cfg sweep p t) (fun _ => looks []).
Proof.
  apply (looks_bind _ _ [] []); [by apply looks_idle, ask_idle|]. intros row.
  destruct row as [row|e]; [|apply looks_ret].
  destruct (needs_fetch row cfg sweep) as [[needed reason]|]; [|apply looks_ret].
  apply (looks_bind _ _ [] []); [by apply looks_idle, try_pool_idle|]. intros res.
  destruct res as [[resp|]|e]; [|apply looks_ret..].
  destruct (fr_final_known resp); [apply tx_send_looks | apply looks_ret].
Qed.
Lemma visit_slots_looks cfg sweep slots : runs (visit_slots store closed cfg sweep slots) (fun _ => looks []).
Proof.
  induction slots as [|[p t] slots IH]; cbn [visit_slots]; [apply looks_ret|].
  apply (looks_bind _ _ [] []); [apply visit_slot_looks|]. intros ok. destruct ok; [exact IH|apply looks_ret].
Qed.
Lemma range_fill_opts_looks cfg lo hi needy skip :
  runs (range_fill_window_opts closed cfg lo hi needy skip) (fun _ => looks []).
Proof.
  apply (looks_bind _ _ [] []); [by apply looks_idle, pool_idle, ids_returns|]. intros ids.
  apply (looks_bind _ _ [] []); [|intros rest; apply looks_ret].
  eapply runs_conseq; [apply fill_ships|]. intros rest w w'. apply ships_looks.
Qed.
Lemma range_fill_looks cfg lo hi needy :
  runs (range_fill_window closed cfg lo hi needy) (fun _ => looks []).
Proof. apply range_fill_opts_looks. Qed.
Lemma visit_window_looks cfg sweep lo hi :
  runs (visit_window store closed cfg sweep lo hi) (fun _ => looks (window_slots cfg lo hi)).
Proof.
  apply looks_end. apply (looks_bind _ _ (window_slots cfg lo hi) []); [apply scan_looks|]. intros needy.
  apply (looks_bind _ _ [] []).
  { destruct (_ && _); [apply range_fill_looks|apply looks_ret]. }
  intros rest. destruct rest as [rest|]; [|apply looks_ret].
  destruct (_ && _); [apply visit_slots_looks|apply looks_ret].
Qed.

(** Windows follow each other without gap or overlap. *)
Lemma window_slots_app cfg lo mid hi :
  (lo <= mid <= hi + 1)%Z ->
  window_slots cfg lo hi = window_slots cfg mid hi ++ window_slots cfg lo (mid - 1).
Proof. apply slots_desc_app. Qed.
Lemma elem_of_window cfg lo hi p t :
  (p, t) ∈ window_slots cfg lo hi <-> (lo <= p <= hi)%Z /\ (0 <= t < bc_thread_count cfg)%Z.
Proof. apply elem_of_slots_desc. Qed.
Lemma window_nodup cfg lo hi : NoDup (window_slots cfg lo hi).
Proof. apply slots_desc_nodup. Qed.

(** From [hi] down to [lo], and to 0 when the sweep is not cut short. *)
Definition swept cfg (hi : Z) (e : SweepEnd) w w' : Prop :=
  exists lo, (0 <= lo <= hi + 1)%Z /\ looks (window_slots cfg lo hi) w w' /\
    match e with ReachedGenesis => lo = 0%Z | ChannelClosed => True | OutOfFuel => False end.
Lemma window_lo_range cfg p : (0 <= p)%Z -> (0 <= window_lo cfg p <= p)%Z.
Proof. unfold window_lo, saturating_sub. lia. Qed.
Lemma sweep_loop_swept fuel cfg sweep p :
  (0 <= p)%Z -> Z.to_nat p < fuel ->
  runs (sweep_loop store closed fuel cfg sweep p) (swept cfg p).
Proof.
  induction fuel as [|fuel IH] in p |- *; intros Hp Hf; [lia|]. cbn [sweep_loop].
  pose proof (window_lo_range cfg p Hp) as Hlo.
  assert (Hnone : forall w, looks (window_slots cfg (p + 1) p) w w).
  { intros w. unfold looks, window_slots.
    by rewrite slots_desc_nil, app_nil_r by lia. }
  eapply runs_bind; [by apply looks_idle, ask_idle|]. intros gone. destruct gone.
  { apply runs_ret. intros w1 w H1'. exists (p + 1)%Z. split; [lia|]. split; [|done].
    eapply (looks_app []); [exact H1'|apply Hnone]. }
  eapply runs_bind; [apply visit_window_looks|]. intros ok. destruct ok; cbn [negb].
  - destruct (Z.eqb_spec (window_lo cfg p) 0) as [E|Hne].
    + apply runs_ret. intros w2 w1 H2' w H1'. exists 0%Z. split; [lia|]. split; [|done].
      rewrite <-E. by apply (looks_app [] _ w w1).
    + eapply runs_conseq; [apply IH; lia|].
      intros e w2 w3 (lo & Hr & H3' & He) w1 H2' w H1'. exists lo. split; [lia|]. split; [|done].
      rewrite (window_slots_app cfg lo (window_lo cfg p) p) by lia.
      eapply (looks_app []); [exact H1'|]. by eapply looks_app.
  - apply runs_ret. intros w2 w1 H2' w H1'. exists (window_lo cfg p). split; [lia|]. split; [|done].
    by apply (looks_app [] _ w w1).
Qed.

(** C22. A sweep ends, whatever the store, the peers and the channel do meanwhile:
    unless the channel closes, it looked at every slot from the head's period
    down to period 0, each exactly once, newest period first; cut short, at
    every slot down to some period. *)
Theorem sweep_looks_at_every_slot cfg sweep head w :
  (0 <= head)%Z ->
  exists e w' lo,
    sweep_loop store closed (sweep_fuel head) cfg sweep head w = (Ok e, w') /\
    e <> OutOfFuel /\ (e = ReachedGenesis -> lo = 0%Z) /\
    wk_scanned w' = wk_scanned w ++ window_slots cfg lo head /\
    NoDup (window_slots cfg lo head) /\
    forall p t, (p, t) ∈ window_slots cfg lo head <->
      (lo <= p <= head)%Z /\ (0 <= t < bc_thread_count cfg)%Z.
Proof.
  intros Hh. destruct (sweep_loop_swept (sweep_fuel head) cfg sweep head Hh ltac:(unfold sweep_fuel; lia) w)
    as (e & w' & E & lo & _ & Hl & He).
  exists e, w', lo. split_and!; [done|by intros ->|by intros ->|done|apply window_nodup|].
  intros p t. apply elem_of_window.
Qed.
End walker.

(** ** The predicate *)
(** A slot the walker leaves alone: nothing may be asked, or the row is a fresh
    candidate, or a FINAL one outside the operator's ranges, with its body (a
    miss without candidate blocks needs none) and either old or not missing a
    part that may be asked. *)
Definition at_rest (row : option SlotState) (cfg : BackfillConfig) (sweep : SweepCtx) : Prop :=
  let asked := enabled_parts (bc_expected_streams cfg) (bc_parts cfg) in
  asked = FinalSlotParts_default \/
  exists s, row = Some s /\
    let age := saturating_sub (sw_head sweep) (slot_period (ss_slot s)) in
    let c := ss_completeness s in
    (ss_status s = SlotCandidate /\ (age < bc_stale_candidate_periods cfg)%Z) \/
    (ss_status s = SlotFinal /\
     (forall lo hi, (lo, hi) ∈ sw_recheck_ranges sweep -> ~ (lo <= slot_period (ss_slot s) <= hi)%Z) /\
     (if ss_is_miss s then ss_candidate_block_ids s = [] else block_body_stored c = true) /\
     ((bc_recent_incomplete_periods cfg < age)%Z \/
      ((fp_exec_output asked = true -> exec_output_final c = true) /\
       (fp_transfers asked = true -> transfers_stored c = true)))).

Lemma in_recheck_false sweep p :
  in_recheck sweep p = false <->
  forall lo hi, (lo, hi) ∈ sw_recheck_ranges sweep -> ~ (lo <= p <= hi)%Z.
Proof.
  unfold in_recheck. rewrite <-not_true_iff_false, existsb_exists. split.
  - intros Hno lo hi Hin Hp. apply Hno. exists (lo, hi). split; [by apply list_elem_of_In|].
    cbn. by rewrite andb_true_iff, !Z.leb_le.
  - intros Hno ([lo hi] & Hin & Hb%andb_true_iff). cbn in Hb. rewrite !Z.leb_le in Hb.
    by apply (Hno lo hi); [apply list_elem_of_In|].
Qed.
Lemma all_enabled_cases e q :
  (all_enabled e q = None /\ enabled_parts e q = FinalSlotParts_default) \/
  (all_enabled e q = Some (enabled_parts e q) /\ enabled_parts e q <> FinalSlotParts_default).
Proof.
  unfold all_enabled. destruct (enabled_parts e q) as [[] [] []]; cbn; (by left) || (by right).
Qed.
Definition parts_le (p q : FinalSlotParts) : Prop :=
  (fp_block p = true -> fp_block q = true) /\ (fp_exec_output p = true -> fp_exec_output q = true) /\
  (fp_transfers p = true -> fp_transfers q = true).

(** An outcome of the predicate where [asked] may be asked and [rest] says the slot
    is at rest. *)
Definition asks (asked : FinalSlotParts) (rest : Prop) (o : option (FinalSlotParts * FetchReason)) : Prop :=
  (forall parts reason, o = Some (parts, reason) -> parts <> FinalSlotParts_default /\ parts_le parts asked) /\
  (o = None <-> asked = FinalSlotParts_default \/ rest).
Lemma asks_everything e q reason (rest : Prop) :
  ~ rest -> asks (enabled_parts e q) rest ((fun p => (p, reason)) <$> all_enabled e q).
Proof.
  intros Hr. unfold asks. destruct (all_enabled_cases e q) as [[-> Hd]|[-> Hd]]; cbn.
  - split; [done|]. split; [by left|done].
  - split; [|split; [done|naive_solver]]. intros parts reason' [= <- _]. by split.
Qed.
Lemma asks_nothing asked (rest : Prop) : rest -> asks asked rest None.
Proof. intros Hr. split; [done|]. split; [by right|done]. Qed.
(** The last test: recent, with only the wanted parts missing. *)
Lemma asks_incomplete asked c :
  let parts := mkParts false (fp_exec_output asked && negb (exec_output_final c))
                 (fp_transfers asked && negb (transfers_stored c)) in
  asks asked ((fp_exec_output asked = true -> exec_output_final c = true) /\
              (fp_transfers asked = true -> transfers_stored c = true))
    (if fp_exec_output parts || fp_transfers parts then Some (parts, RecentIncomplete) else None).
Proof.
  destruct asked as [b x t], c as [body ex cand tr]. unfold asks, parts_le, FinalSlotParts_default. cbn.
  destruct x, ex, t, tr; cbn; (split; [intros ?? [= <- <-] || intros ?? [=]; by split_and!|]);
    (split; [by auto || done|]); try done; intros [E|[E1 E2]]; try congruence;
    first [by specialize (E1 eq_refl)|by specialize (E2 eq_refl)].
Qed.
#[export] Instance asks_proper asked : Proper (iff ==> eq ==> iff) (asks asked).
Proof. intros rest rest' Hr o ? <-. unfold asks. by rewrite Hr. Qed.
(** A FINAL row at rest. *)
Definition final_rest (cfg : BackfillConfig) sweep (s : SlotState) : Prop :=
  let asked := enabled_parts (bc_expected_streams cfg) (bc_parts cfg) in
  let c := ss_completeness s in
  (forall lo hi, (lo, hi) ∈ sw_recheck_ranges sweep -> ~ (lo <= slot_period (ss_slot s) <= hi)%Z) /\
  (if ss_is_miss s then ss_candidate_block_ids s = [] else block_body_stored c = true) /\
  ((bc_recent_incomplete_periods cfg < saturating_sub (sw_head sweep) (slot_period (ss_slot s)))%Z \/
   ((fp_exec_output asked = true -> exec_output_final c = true) /\
    (fp_transfers asked = true -> transfers_stored c = true))).
Lemma asks_final cfg sweep s :
  ss_status s = SlotFinal ->
  asks (enabled_parts (bc_expected_streams cfg) (bc_parts cfg)) (final_rest cfg sweep s)
    (needs_fetch (Some s) cfg sweep).
Proof.
  intros Hs. unfold needs_fetch, final_rest. rewrite Hs. rewrite <-in_recheck_false.
  set (asked := enabled_parts _ _).
  destruct (in_recheck sweep _); [by apply asks_everything; intros (? & _)|].
  destruct (ss_is_miss s); cbn [negb andb].
  - case_bool_decide as Hc; cbn [negb]; [|by apply asks_everything; intros (_ & ? & _)].
    destruct (Z.leb_spec (saturating_sub (sw_head sweep) (slot_period (ss_slot s)))
      (bc_recent_incomplete_periods cfg)) as [Hage|Hage]; [|by apply asks_nothing; split_and!; [..|left]].
    eapply asks_proper; [|reflexivity|exact (asks_incomplete asked (ss_completeness s))].
    split; [intros (_ & _ & [?|?]); [lia|done]|]. intros Hx. split; [done|]. split; [done|]. by right.
  - destruct (block_body_stored _); cbn [negb]; [|by apply asks_everything; intros (_ & ? & _)].
    destruct (Z.leb_spec (saturating_sub (sw_head sweep) (slot_period (ss_slot s)))
      (bc_recent_incomplete_periods cfg)) as [Hage|Hage]; [|by apply asks_nothing; split_and!; [..|left]].
    eapply asks_proper; [|reflexivity|exact (asks_incomplete asked (ss_completeness s))].
    split; [intros (_ & _ & [?|?]); [lia|done]|]. intros Hx. split; [done|]. split; [done|]. by right.
Qed.
Lemma asks_spec row cfg sweep :
  asks (enabled_parts (bc_expected_streams cfg) (bc_parts cfg))
    (match row with
     | None => False
     | Some s =>
         (ss_status s = SlotCandidate /\
          (saturating_sub (sw_head sweep) (slot_period (ss_slot s)) < bc_stale_candidate_periods cfg)%Z) \/
         (ss_status s = SlotFinal /\ final_rest cfg sweep s)
     end) (needs_fetch row cfg sweep).
Proof.
  destruct row as [s|]; [|by apply asks_everything; intros []]. destruct (ss_status s) eqn:Hs.
  - unfold needs_fetch. rewrite Hs. apply asks_everything. by intros [[? _]|[? _]].
  - unfold needs_fetch. rewrite Hs. destruct (Z.leb_spec (bc_stale_candidate_periods cfg)
      (saturating_sub (sw_head sweep) (slot_period (ss_slot s)))) as [Hage|Hage].
    + apply asks_everything. intros [[_ ?]|[? _]]; [lia|done].
    + apply asks_nothing. by left.
  - eapply asks_proper; [|reflexivity|by apply asks_final]. split; [by intros [[? _]|[_ ?]]|by right].
Qed.

(** What [needs_fetch] asks for: never a part the operator disabled or peers
    cannot be asked, and never nothing; and it leaves a slot alone exactly when
    the slot is at rest. *)
Lemma needs_fetch_spec row cfg sweep :
  (forall parts reason, needs_fetch row cfg sweep = Some (parts, reason) ->
     parts <> FinalSlotParts_default /\
     parts_le parts (enabled_parts (bc_expected_streams cfg) (bc_parts cfg))) /\
  (needs_fetch row cfg sweep = None <-> at_rest row cfg sweep).
Proof.
  destruct (asks_spec row cfg sweep) as [Hp Hn]. split; [exact Hp|]. rewrite Hn. unfold at_rest.
  destruct row as [s|]; [|naive_solver]. split; [intros [?|?]; [by left|right; by exists s]|].
  intros [?|(s' & [= <-] & ?)]; [by left|by right].
Qed.
