(* ===== verification/PeerProps.v ===== *)
(** * Replication between peers

    A FINAL slot served by build_final_slot_response (peer/service.rs) and
    applied by apply_peer_patch (peer/patch.rs) to a store that has no row for
    it: what the replica then holds. *)

From S2P Require Import Prelude Ids Keys Model Proto Codec CodecLemmas CodecProps Store Text Db.
From S2P Require Import DbUpsert DbSlotRows Tables NodeMsg World Reconcile Arbiter Patch Ingest.
From S2P Require Import WorldLogic HandlerFrames SlotSafety FirstFinal PatchSafety RowSafety.
From S2P Require Import SlotReplace FinalityProps Registry PeerService StreamProps.

(** ** Listing the rows of a slot *)
Section listing.
Context `{RocksDB} {R : Type} `{SlotRow R}.
Implicit Types (d : DB) (r : R) (s : Slot).

Lemma slot_entries_prefix d p t :
  slot_entries d sr_primary p t = prefix_entries d sr_primary (slot_key p t).
Proof.
  assert (starts_with (slot_key p t) (slot_key p t) = true) as Hs
    by (rewrite <- (app_nil_r (slot_key p t)) at 1; apply starts_with_app).
  unfold slot_entries. rewrite filter_le_sw by done.
  apply list_filter_all. apply Forall_forall. intros [k v] Hk%elem_of_prefix_entries.
  apply prefix_le, Hk.
Qed.

(** Rows of one slot, by their position in it. *)
Definition index_lt (r r' : R) : Prop := (sr_index r < sr_index r')%Z.
Lemma index_lt_nodup (rows : list R) : StronglySorted index_lt rows -> NoDup (sr_index <$> rows).
Proof.
  induction 1 as [|r rows _ IH Hr]; [constructor|]. rewrite fmap_cons. constructor; [|done].
  intros (r' & E & Hin)%list_elem_of_fmap. rewrite Forall_forall in Hr. specialize (Hr _ Hin).
  unfold index_lt in Hr. lia.
Qed.
Lemma sr_key_lt r r' :
  sr_wf r -> sr_wf r' -> sr_slot r = sr_slot r' -> bytes_lt (sr_key r) (sr_key r') -> index_lt r r'.
Proof.
  intros Hw Hw' Es. unfold bytes_lt, sr_key, sc_event_key. rewrite Es, bytes_cmp_app by done.
  rewrite bytes_cmp_refl, bytes_cmp_from_be by done.
  rewrite !from_to_be_bytes_4 by by apply sr_wf_index. apply Z.compare_lt_iff.
Qed.
Lemma rows_in_order s (l : list (bytes * bytes)) (rows : list R) :
  Forall2 (fun kv r => kv.1 = sr_key r /\ sr_wf r /\ sr_slot r = s) l rows ->
  StronglySorted entry_lt l -> StronglySorted index_lt rows.
Proof.
  induction 1 as [|kv r l rows (Ek & Hw & Es) Hl IH]; [constructor|].
  intros [Hs Hlt]%StronglySorted_inv. constructor; [by apply IH|].
  apply Forall_forall. intros r' (i & Hi)%list_elem_of_lookup.
  destruct (Forall2_lookup_r _ _ _ _ _ Hl Hi) as (kv' & Ekv & Ek' & Hw' & Es').
  apply sr_key_lt; [done|done|congruence|]. rewrite <-Ek, <-Ek'.
  rewrite Forall_forall in Hlt. apply Hlt. by eapply list_elem_of_lookup_2.
Qed.

(** The rows a slot's entries decode to are the stored rows of the slot. *)
Lemma slot_rows_listed d s :
  slot_rows_ok d -> Slot_ok s ->
  exists rows : list R,
    Forall2 (fun kv r => sr_decode kv.2 = Ok r)
      (slot_entries d sr_primary (slot_period s) (slot_thread s)) rows /\
    (forall r, r ∈ rows <-> stored d r /\ sr_slot r = s) /\
    Forall sr_wf rows /\ Forall (fun r => sr_slot r = s) rows /\ StronglySorted index_lt rows.
Proof.
  intros Hok Hs. set (l := slot_entries _ _ _ _).
  assert (exists rows, Forall2 (fun kv r => sr_decode kv.2 = Ok r /\ kv.1 = sr_key r /\ sr_wf r /\
    stored d r /\ sr_slot r = s) l rows) as (rows & Hrows).
  { assert (forall kv, kv ∈ l -> exists r, sr_decode kv.2 = Ok r /\ kv.1 = sr_key r /\ sr_wf r /\
      stored d r /\ sr_slot r = s) as Hl.
    { intros [k v] Hin. apply elem_of_slot_entries in Hin as [Hst Hg].
      destruct (Hok k v Hg) as (r & Hr & -> & Hw). exists r. split_and!; try done.
      - by exists v.
      - by apply (sr_key_in_slot r s). }
    clearbody l. induction l as [|kv l IH]; [by exists []|].
    destruct (Hl kv ltac:(by left)) as (r & Hr). destruct IH as (rows & Hrows).
    { intros kv' Hin. apply Hl. by right. }
    exists (r :: rows). by constructor. }
  exists rows. split_and!.
  - eapply Forall2_impl; [exact Hrows|]. by intros kv r (? & _).
  - intros r. split.
    + intros (i & Hi)%list_elem_of_lookup. destruct (Forall2_lookup_r _ _ _ _ _ Hrows Hi)
        as (kv & _ & _ & _ & _ & ? & ?). done.
    + intros [(v & Hg & Hd) Es]. assert ((sr_key r, v) ∈ l) as Hin.
      { apply elem_of_slot_entries. split; [|done]. destruct (Hok _ _ Hg) as (x & Hx & _ & Hw).
        assert (x = r) as -> by congruence. by apply sr_key_in_slot. }
      apply list_elem_of_lookup in Hin as (i & Hi).
      destruct (Forall2_lookup_l _ _ _ _ _ Hrows Hi) as (x & Hx & Hdx & _).
      simpl in Hdx. apply list_elem_of_lookup. exists i. congruence.
  - apply Forall_forall. intros r (i & Hi)%list_elem_of_lookup.
    destruct (Forall2_lookup_r _ _ _ _ _ Hrows Hi) as (kv & _ & _ & _ & ? & _). done.
  - apply Forall_forall. intros r (i & Hi)%list_elem_of_lookup.
    destruct (Forall2_lookup_r _ _ _ _ _ Hrows Hi) as (kv & _ & _ & _ & _ & _ & ?). done.
  - pose proof (prefix_entries_sorted d sr_primary (slot_key (slot_period s) (slot_thread s))) as Hl.
    rewrite <-slot_entries_prefix in Hl. fold l in Hl. apply (rows_in_order s l); [|exact Hl].
    eapply Forall2_impl; [exact Hrows|]. by intros kv r (_ & ? & ? & _ & ?).
Qed.
End listing.

Section serving.
Context `{Bs58, Base64, HexCrate, ProstStorage, RocksDB}.
Implicit Types (d : DB) (s : Slot).

(** ** Rows survive the peer messages *)
Lemma sc_event_peer_roundtrip e :
  StoredScEvent_wf e ->
  exists p, sc_event_to_peer_pb e = Ok p /\ sc_event_from_peer_pb p = Ok e.
Proof.
  intros Hw. destruct (sc_event_roundtrip e Hw) as (v & Ev & Dv).
  unfold sc_event_to_peer_pb, sc_event_from_peer_pb. rewrite Ev. simpl.
  unfold encode_sc_event in Ev. injection Ev as <-. rewrite prost_decode_encode. simpl. eauto.
Qed.
Lemma transfer_peer_roundtrip t :
  StoredTransfer_wf t ->
  exists p, transfer_to_peer_pb t = Some p /\ transfer_from_peer_pb p = Ok t.
Proof.
  intros Hw. pose proof (transfer_roundtrip t Hw) as Dv.
  unfold transfer_to_peer_pb, transfer_from_peer_pb. unfold encode_transfer in *.
  rewrite prost_decode_encode. eauto.
Qed.
Lemma async_peer_total m : is_Some (async_msg_to_peer_pb m).
Proof. unfold async_msg_to_peer_pb, encode_async_msg. rewrite prost_decode_encode. eauto. Qed.
Lemma deferred_peer_total c : is_Some (deferred_call_to_peer_pb c).
Proof. unfold deferred_call_to_peer_pb, encode_deferred_call. rewrite prost_decode_encode. eauto. Qed.

Lemma expect_total {A P} (f : A -> option P) (l : list A) :
  (forall a, is_Some (f a)) ->
  exists ps, try_map (fun a => expect (f a)) l = Ok ps /\ Forall2 (fun p a => f a = Some p) ps l.
Proof.
  intros Hf. induction l as [|a l (ps & E & Hps)]; [by exists []|].
  destruct (Hf a) as [p Hp]. exists (p :: ps). simpl. rewrite Hp. simpl. rewrite E. by split; [|constructor].
Qed.
Lemma try_map_Forall2 {E A B} (f : A -> result E B) (l : list A) (l' : list B) :
  Forall2 (fun a b => f a = Ok b) l l' -> try_map f l = Ok l'.
Proof. induction 1 as [|a b l l' Eab _ IH]; [done|]. simpl. by rewrite Eab, IH. Qed.

Lemma encoded_all {A P} (to_pb : A -> result CodecError P) (from_pb : P -> result CodecError A) l :
  (forall a, a ∈ l -> exists p, to_pb a = Ok p /\ from_pb p = Ok a) ->
  Forall2 (fun p a => from_pb p = Ok a) (encoded to_pb l) l.
Proof.
  intros Hl. unfold encoded. induction l as [|a l IH]; [constructor|]. simpl.
  destruct (Hl a ltac:(by left)) as (p & Ep & Ef). rewrite Ep. simpl.
  constructor; [done|]. apply IH. intros x Hx. apply Hl. by right.
Qed.

(** ** What the readers of a slot hand out *)
Lemma events_page d s limit rows :
  slot_rows_ok (R := StoredScEvent) d -> 0 < limit ->
  Forall2 (fun kv r => decode_sc_event kv.2 = Ok r)
    (slot_entries d CF_SC_EVENT (slot_period s) (slot_thread s)) rows ->
  exists c, iter_sc_events_for_slot d (slot_period s) (slot_thread s) None limit = Ok (mkPage (take limit rows) c).
Proof.
  intros Hok Hl Hrows. unfold iter_sc_events_for_slot. rewrite bool_decide_eq_false_2 by lia.
  cbv zeta. cbn [default]. unfold slot_entries in Hrows. set (it := iterator_cf _ _ _) in *.
  set (p := slot_key _ _) in *. set (dec := fun (_ : bytes) v => ok (decode_sc_event v)).
  rewrite (page_loop_ext _ _ (fun k v => Ok (dec k v))).
  2:{ intros k v Hin. subst it. rewrite iterator_forward, list_elem_of_filter in Hin.
      destruct Hin as [_ Hg%iterator_get]. destruct (Hok k v Hg) as (r & Hr & _).
      unfold dec. simpl in Hr. by rewrite Hr. }
  rewrite page_loop_region.
  assert (region (fun k => starts_with k p) None it =
          take_while (fun kv => starts_with kv.1 p) it) as ->
    by (unfold region; apply list_filter_all, Forall_forall; by intros).
  set (l := take_while _ it) in *.
  assert (forall l rows, Forall2 (fun kv r => decode_sc_event kv.2 = Ok r) l rows ->
    Store.rows dec l = rows) as El.
  { unfold Store.rows, dec. clear. induction 1 as [|[k v] r l rows E _ IH]; [done|]. simpl in *.
    rewrite E. simpl. f_equal. exact IH. }
  destruct (page_loop_items dec limit [] None l) as [c E]; [cbn; lia|]. exists c.
  by rewrite E, (El l rows Hrows).
Qed.
Lemma transfers_listed d s rows :
  Forall2 (fun kv r => decode_transfer kv.2 = Ok r)
    (slot_entries d CF_TRANSFER (slot_period s) (slot_thread s)) rows ->
  iter_transfers_for_slot d (slot_period s) (slot_thread s) = Ok rows.
Proof.
  intros Hrows. unfold iter_transfers_for_slot. apply try_map_Forall2.
  eapply Forall2_impl; [exact Hrows|]. intros kv r E. simpl. by rewrite E.
Qed.

(** ** The response for a FINAL slot *)
Definition all_parts : FinalSlotParts := mkParts true true true.
Definition shipped_block (resp : FinalSlotResponse) : option StoredBlock :=
  pb ← fr_block resp; ok (block_from_peer_pb pb).
(** What a response of all parts says of the row [s], and the rows it carries. *)
Record served (s : SlotState) (resp : FinalSlotResponse) (evs : list StoredScEvent)
    (trs : list StoredTransfer) : Prop := {
  sv_period : fr_period resp = slot_period (ss_slot s);
  sv_thread : fr_thread resp = slot_thread (ss_slot s);
  sv_final_known : fr_final_known resp = true;
  sv_is_miss : fr_is_miss resp = ss_is_miss s;
  sv_trail : fr_execution_trail_hash resp = default "" (ss_execution_trail_hash s);
  sv_final_block : fr_final_block_id resp = default "" (id_to_string <$> ss_final_block_id s);
  sv_known : fr_completeness_known resp = true;
  sv_exec : fr_has_exec_output resp = exec_output_final (ss_completeness s);
  sv_transfers_flag : fr_has_transfers resp = transfers_stored (ss_completeness s);
  sv_parts : fr_parts resp = Some all_parts;
  sv_ops : fr_executed_op_ids resp = id_to_string <$> ss_executed_op_ids s;
  sv_count : fr_sc_event_count resp = ss_sc_event_count s;
  sv_events : Forall2 (fun p e => sc_event_from_peer_pb p = Ok e) (fr_sc_events resp) evs;
  sv_transfers : Forall2 (fun p t => transfer_from_peer_pb p = Ok t) (fr_transfers resp) trs;
}.

Lemma block_part_fields d (s : SlotState) resp resp' :
  block_part d s resp = Ok resp' ->
  resp' = resp <| fr_block := fr_block resp' |> <| fr_operations := fr_operations resp' |>
               <| fr_endorsements := fr_endorsements resp' |> /\
  forall bid b, ss_final_block_id s = Some bid -> read_block d bid = Ok (Some b) ->
    fr_block resp' = ok (block_to_peer_pb b).
Proof.
  unfold block_part. destruct (ss_final_block_id s) as [bid|].
  - intros E. apply result_bind_ok in E as (body & Eb & E). destruct body as [b|].
    + apply result_bind_ok in E as (ops & _ & E). injection E as <-. split; [by destruct resp|].
      intros bid' b' [= <-]. rewrite Eb. by intros [= <-].
    + injection E as <-. split; [by destruct resp|]. intros bid' b' [= <-]. by rewrite Eb.
  - intros [= <-]. split; [by destruct resp|]. done.
Qed.

Lemma serve_final d (s : SlotState) resp :
  slot_rows_ok (R := StoredScEvent) d -> slot_rows_ok (R := StoredTransfer) d ->
  Slot_ok (ss_slot s) -> ss_status s = SlotFinal ->
  build_final_slot_response_from_state d s all_parts = Ok resp ->
  exists evs trs, served s resp (take ROW_CAP evs) trs /\
    (forall e, e ∈ evs <-> stored d e /\ ev_slot e = ss_slot s) /\
    (forall t, t ∈ trs <-> stored d t /\ tr_slot t = ss_slot s) /\
    Forall sr_wf evs /\ StronglySorted index_lt evs /\ Forall sr_wf trs /\ StronglySorted index_lt trs /\
    (ss_is_miss s = false -> forall bid b, ss_final_block_id s = Some bid ->
       read_block d bid = Ok (Some b) -> fr_block resp = ok (block_to_peer_pb b)).
Proof.
  intros He Ht Hs HF E.
  destruct (slot_rows_listed (R := StoredScEvent) d (ss_slot s) He Hs)
    as (evs & Levs & Hevs & Wevs & _ & Nevs).
  destruct (slot_rows_listed (R := StoredTransfer) d (ss_slot s) Ht Hs)
    as (trs & Ltrs & Htrs & Wtrs & _ & Ntrs).
  exists evs, trs. unfold build_final_slot_response_from_state in E.
  rewrite bool_decide_eq_false_2 in E by (rewrite HF; auto).
  apply result_bind_ok in E as (r1 & E1 & E). cbn [fp_exec_output fp_transfers all_parts] in E.
  apply result_bind_ok in E as (r2 & E2 & E3).
  assert (r1 = (response_head s all_parts) <| fr_block := fr_block r1 |>
     <| fr_operations := fr_operations r1 |> <| fr_endorsements := fr_endorsements r1 |> /\
    (ss_is_miss s = false -> forall bid b, ss_final_block_id s = Some bid ->
       read_block d bid = Ok (Some b) -> fr_block r1 = ok (block_to_peer_pb b))) as [Er1 Hb].
  { cbn [fp_block all_parts andb] in E1. destruct (ss_is_miss s) eqn:Em; simpl in E1.
    - injection E1 as <-. split; [done|]. by intros.
    - apply block_part_fields in E1 as [? ?]. split; [done|]. by intros _. }
  unfold exec_part in E2.
  destruct (events_page d (ss_slot s) ROW_CAP evs He) as (c & Epage); [unfold ROW_CAP; lia|exact Levs|].
  rewrite Epage in E2. apply result_bind_ok in E2 as (pg & [= <-] & E2). cbn [pg_items] in E2.
  apply result_bind_ok in E2 as (msgs & _ & E2). injection E2 as <-.
  unfold transfers_part in E3. rewrite (transfers_listed d (ss_slot s) trs Ltrs) in E3.
  apply result_bind_ok in E3 as (trs' & [= <-] & E3).
  assert (exists ps, try_map (fun t => expect (transfer_to_peer_pb t)) trs = Ok ps /\
    Forall2 (fun p t => transfer_from_peer_pb p = Ok t) ps trs) as (ps & Eps & Hps).
  { clear -Wtrs. induction Wtrs as [|t trs Hw _ (ps & E & Hps)]; [by exists []|].
    destruct (transfer_peer_roundtrip t (proj1 Hw)) as (p & Ep & Ef). exists (p :: ps).
    simpl. rewrite Ep. simpl. rewrite E. by split; [|constructor]. }
  rewrite Eps in E3. apply result_bind_ok in E3 as (? & [= <-] & E3).
  apply result_bind_ok in E3 as (calls & _ & E3). injection E3 as <-.
  split_and!; try done. rewrite Er1. split; try done. simpl.
  apply encoded_all. intros e (i & Hin%list_elem_of_lookup_2 & _)%elem_of_take. rewrite Forall_forall in Wevs.
  by apply sc_event_peer_roundtrip, Wevs.
Qed.
End serving.
