(* ===== verification/ReplicaProps.v ===== *)
(** * Convergence of replicas

    What apply_peer_patch (peer/patch.rs) leaves in a store that had no row for
    a slot, when it applies the response a peer serves for it. *)

From S2P Require Import Prelude Ids Keys Model Proto Codec CodecLemmas CodecProps Store Text Db.
From S2P Require Import DbUpsert DbSlotRows Tables NodeMsg World Reconcile Arbiter Patch Ingest.
From S2P Require Import WorldLogic HandlerFrames SlotSafety FirstFinal PatchSafety RowSafety.
From S2P Require Import SlotReplace FinalityProps Registry PeerService StreamProps PeerProps.

Section replica.
Context `{Bs58, Base64, HexCrate, ProstStorage, RocksDB, DenunciationDigest, NodeEncode}.
Implicit Types (w : World) (d : DB) (s : SlotState) (resp : FinalSlotResponse).

(** ** Loops over decoded parts *)
Lemma each_decoded_iter {P A} (decode : P -> result CodecError A) (f : A -> ST World unit) ps l w :
  Forall2 (fun p a => decode p = Ok a) ps l -> each_decoded decode f ps w = st_iter f l w.
Proof.
  intros Hl. revert w. unfold each_decoded. induction Hl as [|p a ps l E _ IH]; intros w; [done|].
  cbn [st_iter]. unfold mbind, ST_bind. rewrite E. destruct (f a w) as [[[]|] w1]; [apply IH | done].
Qed.
Lemma write_events_run evs w d :
  slot_writes (R := StoredScEvent) (w_db w) evs = Ok d ->
  st_iter (fun e => db_do (fun d => write_sc_event d e)) evs w = (Ok tt, mkWorld d (w_sse w)).
Proof.
  revert w. induction evs as [|e evs IH]; intros w E; cbn [slot_writes mbind result_bind] in E.
  - injection E as <-. by destruct w.
  - cbn [st_iter]. unfold mbind at 1, ST_bind at 1, db_do at 1.
    change (write_sc_event (w_db w) e) with (slot_write (w_db w) e).
    destruct (slot_write (w_db w) e) as [d2|]; [|done]. by rewrite (IH (mkWorld d2 (w_sse w))).
Qed.

(** ** The parts *)
(** The store's rows of a family are consistent. *)
Definition family_ok (R : Type) `{SlotRow R} d : Prop :=
  slot_rows_ok (R := R) d /\ slot_index_exact (R := R) d.
(** Afterwards the slot holds exactly [rows]. *)
Definition family_replaced {R : Type} `{SlotRow R} d d' (slot : Slot) (rows : list R) : Prop :=
  family_ok R d' /\ forall r, stored d' r <-> r ∈ rows \/ (stored d r /\ sr_slot r <> slot).
Definition rows_of_slot {R : Type} `{SlotRow R} (slot : Slot) (rows : list R) : Prop :=
  Forall sr_wf rows /\ Forall (fun r => sr_slot r = slot) rows /\ NoDup (sr_index <$> rows).

Lemma family_replaced_same {R : Type} `{SlotRow R} d d1 d2 slot (rows : list R) :
  family_replaced d d1 slot rows ->
  (forall c, c ∈ sr_primary :: sr_indexes -> same_cf c d1 d2) -> family_replaced d d2 slot rows.
Proof.
  intros ((Ho & Hi) & Hst) Hs. destruct (slot_family_same d1 d2 Ho Hi Hs) as (Ho' & Hi' & Hst').
  split; [done|]. intros r. by rewrite Hst', Hst.
Qed.
Lemma family_ok_same (R : Type) `{SlotRow R} d d' :
  family_ok R d -> (forall c, c ∈ sr_primary :: sr_indexes -> same_cf c d d') ->
  family_ok R d' /\ forall r : R, stored d' r <-> stored d r.
Proof. intros [Ho Hi] Hs. destruct (slot_family_same d d' Ho Hi Hs) as (? & ? & ?). done. Qed.

(** What copying a slot's rows from an answer leaves: they replace the slot's
    when the answer has some or calls the part complete ([due]), and the rows of
    the other slots are as they were. *)
Definition slot_copied {R : Type} `{SlotRow R} d d' (slot : Slot) (due : bool) (rows : list R) : Prop :=
  family_ok R d' /\
  (due = true \/ rows <> [] -> forall r, sr_slot r = slot -> stored d' r <-> r ∈ rows) /\
  forall r, sr_slot r <> slot -> stored d' r <-> stored d r.
Lemma replaced_copied {R : Type} `{SlotRow R} d d' slot due (rows : list R) :
  Forall (fun r => sr_slot r = slot) rows ->
  family_replaced d d' slot rows -> slot_copied d d' slot due rows.
Proof.
  intros Hr [Hok Hst]. rewrite Forall_forall in Hr. split_and!; [done| |].
  - intros _ r Es. rewrite Hst. naive_solver.
  - intros r Es. rewrite Hst. naive_solver.
Qed.
Lemma unchanged_copied {R : Type} `{SlotRow R} d d' slot due (rows : list R) :
  ~ (due = true \/ rows <> []) ->
  (family_ok R d' /\ forall r : R, stored d' r <-> stored d r) -> slot_copied d d' slot due rows.
Proof. intros Hn [Hok Hst]. split_and!; [done | by intros | by intros r _]. Qed.

Lemma exec_part_rows resp slot evs w w' :
  fr_period resp = slot_period slot -> as_u8 (fr_thread resp) = slot_thread slot -> Slot_ok slot ->
  family_ok StoredScEvent (w_db w) ->
  Forall2 (fun p e => sc_event_from_peer_pb p = Ok e) (fr_sc_events resp) evs ->
  rows_of_slot slot evs -> apply_exec_part resp w = (Ok tt, w') ->
  family_replaced (w_db w) (w_db w') slot evs.
Proof.
  intros Ep Et Hs [Ho Hi] Hdec (Hw & Hsl & Hn) E.
  destruct (slot_replace_spec (w_db w) slot evs Ho Hi Hs Hw Hsl Hn) as (d1 & E1 & Ho1 & Hi1 & Hst).
  unfold apply_exec_part in E. rewrite Ep, Et in E.
  apply bind_Ok_inv in E as ([] & w1 & [= <-] & E).
  apply bind_Ok_inv in E as ([] & w2 & E2 & E).
  rewrite (each_decoded_iter _ _ _ evs) in E2 by done.
  rewrite (write_events_run evs _ d1) in E2 by (simpl; rewrite clear_sc_events_alt; exact E1).
  injection E2 as <-. apply (family_replaced_same _ d1).
  - split; [by split | exact Hst].
  - intros c Hc. eapply keeps_after; [|exact E|reflexivity].
    assert (c ∉ async_cfs) by (revert c Hc; apply (Forall_forall (fun c => c ∉ async_cfs));
      apply (bool_decide_unpack _); vm_compute; exact I).
    frame.
Qed.
Lemma transfers_part_rows resp slot trs now w w' :
  fr_period resp = slot_period slot -> as_u8 (fr_thread resp) = slot_thread slot -> Slot_ok slot ->
  family_ok StoredTransfer (w_db w) ->
  Forall2 (fun p t => transfer_from_peer_pb p = Ok t) (fr_transfers resp) trs ->
  rows_of_slot slot trs -> apply_transfers_part resp now w = (Ok tt, w') ->
  family_replaced (w_db w) (w_db w') slot trs.
Proof.
  intros Ep Et Hs [Ho Hi] Hdec (Hw & Hsl & Hn) E.
  destruct (slot_replace_spec (w_db w) slot trs Ho Hi Hs Hw Hsl Hn) as (d1 & E1 & Ho1 & Hi1 & Hst).
  unfold apply_transfers_part in E. cbv zeta in E. cbn [slot_period slot_thread] in E.
  rewrite Ep, Et in E. apply bind_Ok_inv in E as ([] & w1 & [= <-] & E).
  apply bind_Ok_inv in E as ([] & w2 & E2 & E).
  rewrite (each_decoded_iter _ _ _ trs) in E2 by done.
  rewrite (put_transfers_run trs _ d1) in E2 by (simpl; rewrite clear_transfers_alt; exact E1).
  injection E2 as <-. apply (family_replaced_same _ d1).
  - split; [by split | exact Hst].
  - intros c Hc. eapply keeps_after; [|exact E|reflexivity].
    assert (c ∉ async_cfs /\ c ∉ deferred_cfs) as [? ?].
    { revert c Hc. apply (Forall_forall (fun c => c ∉ async_cfs /\ c ∉ deferred_cfs)).
      apply (bool_decide_unpack _); vm_compute; exact I. }
    repeat (moves_step || by apply reconcile_async_keeps || by apply reconcile_deferred_keeps).
    frame_leaf.
Qed.

(** A block the replica did not hold is stored as shipped. *)
Lemma block_part_row resp now b w o w' :
  shipped_block resp = Some b -> StoredBlock_enc b ->
  read_block (w_db w) (bl_id b) = Ok None ->
  apply_block_part resp now w = (Ok o, w') ->
  row_at (w_db w') (id_as_bytes (bl_id b)) b.
Proof.
  intros Hb He Hn E. unfold apply_block_part in E. unfold shipped_block in Hb. rewrite Hb in E.
  apply bind_Ok_inv in E as (held & w1 & Hheld & E). unfold db_read in Hheld.
  injection Hheld as Hheld <-. rewrite Hn in Hheld. injection Hheld as <-.
  apply bind_Ok_inv in E as ([] & w2 & Hw & E). unfold when, db_do in Hw. simpl in Hw.
  destruct (write_block (w_db w) b) as [d|] eqn:Ew; [|done]. injection Hw as <-.
  apply (same_cf_row_at d (w_db w')).
  - change d with (w_db (mkWorld d (w_sse w))). eapply keeps_after; [|exact E|reflexivity].
    unfold apply_peer_op. frame.
  - destruct (write_block_puts (w_db w) b d Ew) as (v & Ev & Hget). exists v.
    split; [by rewrite Hget, bool_decide_eq_true_2|]. exact (tb_encode_decodes b v He Ev).
Qed.

(** ** The phases, on the row *)
(** What a peer's verdict settles, beside the candidates and the body bit. *)
Definition verdict_view s :=
  (ss_slot s, ss_status s, ss_is_miss s, ss_final_block_id s, ss_execution_trail_hash s,
   ss_executed_op_ids s, ss_sc_event_count s, exec_output_final (ss_completeness s),
   transfers_stored (ss_completeness s)).
Lemma push_candidate_view bid s : verdict_view (push_candidate bid s) = verdict_view s.
Proof. unfold push_candidate. by case_bool_decide. Qed.
Lemma mark_body_view s : verdict_view (mark_body s) = verdict_view s.
Proof. done. Qed.

Lemma peer_block_phase_view resp now s out w ph w' :
  peer_block_phase resp now (s, out) w = (Ok ph, w') -> verdict_view ph.1 = verdict_view s.
Proof.
  unfold peer_block_phase. intros E. apply bind_Ok_inv in E as ([s1 out1] & w1 & E1 & E).
  injection E as <- <-. assert (verdict_view s1 = verdict_view s) as Hv.
  { case_match; [|by injection E1 as <- <- <-].
    apply bind_Ok_inv in E1 as (ob & w2 & _ & E1). destruct ob as [b|]; [|by injection E1 as <- <- <-].
    injection E1 as E1 <-. rewrite <- (push_candidate_view (bl_id b) s).
    case_match; by injection E1 as <- <-. }
  cbn [fst]. destruct (fr_is_miss resp); exact Hv.
Qed.
Lemma peer_block_phase_stored resp now s out b w ph w' :
  shipped_block resp = Some b -> StoredBlock_enc b -> fr_is_miss resp = false ->
  read_block (w_db w) (bl_id b) = Ok None ->
  peer_block_phase resp now (s, out) w = (Ok ph, w') ->
  row_at (w_db w') (id_as_bytes (bl_id b)) b.
Proof.
  intros Hb He Hm Hn E. unfold peer_block_phase in E.
  apply bind_Ok_inv in E as ([s1 out1] & w1 & E1 & E). injection E as _ <-.
  assert (is_some (fr_block resp) = true) as Hs.
  { unfold shipped_block in Hb. by destruct (fr_block resp). }
  rewrite Hs, Hm in E1. cbn [andb negb] in E1.
  apply bind_Ok_inv in E1 as (o & w2 & E2 & E1).
  assert (w1 = w2) as -> by (destruct o; by injection E1).
  by eapply block_part_row.
Qed.

Lemma peer_exec_phase_run resp s out w ph w' :
  peer_exec_phase resp (s, out) w = (Ok ph, w') ->
  (exec_part_due resp && negb (exec_output_final (ss_completeness s)) = true /\
   ph.1 = peer_exec_row resp s /\ apply_exec_part resp w = (Ok tt, w')) \/
  (exec_part_due resp && negb (exec_output_final (ss_completeness s)) = false /\
   ph.1 = s /\ w' = w).
Proof.
  unfold peer_exec_phase. destruct (_ && _) eqn:Ed; intros E.
  - left. apply bind_Ok_inv in E as ([] & w1 & E1 & E). by injection E as <- <-.
  - right. by injection E as <- <-.
Qed.
Lemma peer_transfers_phase_run resp now s out w ph w' :
  peer_transfers_phase resp now (s, out) w = (Ok ph, w') ->
  (transfers_part_due resp && negb (transfers_stored (ss_completeness s)) = true /\
   ph.1 = mark_transfers s /\ apply_transfers_part resp now w = (Ok tt, w')) \/
  (transfers_part_due resp && negb (transfers_stored (ss_completeness s)) = false /\
   ph.1 = s /\ w' = w).
Proof.
  unfold peer_transfers_phase. destruct (_ && _) eqn:Ed; intros E.
  - left. apply bind_Ok_inv in E as ([] & w1 & E1 & E). by injection E as <- <-.
  - right. by injection E as <- <-.
Qed.

(** ** The response, read back *)
Lemma served_block_id s resp evs trs :
  served s resp evs trs -> SlotState_wf s -> response_block_id resp = ss_final_block_id s.
Proof.
  intros Hs (_ & Hb & _). unfold response_block_id. rewrite (sv_final_block _ _ _ _ Hs).
  destruct (ss_final_block_id s) as [bid|]; [|done]. simpl.
  assert (BlockId_parse (id_to_string bid) = Ok bid) as Ep by by apply id_parse_of_wf.
  unfold str_is_empty. case_bool_decide as E0; [|by rewrite Ep].
  rewrite E0 in Ep. by unfold BlockId_parse, id_parse, decode_single_family in Ep.
Qed.
Lemma served_op_ids s resp evs trs :
  served s resp evs trs -> SlotState_wf s -> response_op_ids resp = ss_executed_op_ids s.
Proof.
  intros Hs (_ & _ & _ & _ & Ho). unfold response_op_ids. rewrite (sv_ops _ _ _ _ Hs).
  induction Ho as [|i l Hi _ IH]; [done|]. simpl.
  assert (OperationId_parse (id_to_string i) = Ok i) as -> by by apply id_parse_of_wf.
  simpl. f_equal. exact IH.
Qed.
Lemma served_trail s resp evs trs :
  served s resp evs trs -> SlotState_wf s ->
  non_empty_string (fr_execution_trail_hash resp) = ss_execution_trail_hash s.
Proof.
  intros Hs (_ & _ & _ & Ht & _). rewrite (sv_trail _ _ _ _ Hs). unfold non_empty_string, str_is_empty.
  destruct (ss_execution_trail_hash s) as [h|]; [|done]. simpl.
  case_bool_decide; [by subst | done].
Qed.

(** ** The replica *)
(** What the replica's row says of the served row [s]. *)
Definition replicates s s' : Prop :=
  ss_slot s' = ss_slot s /\ ss_status s' = SlotFinal /\ ss_is_miss s' = ss_is_miss s /\
  (ss_is_miss s = false -> ss_final_block_id s' = ss_final_block_id s) /\
  ss_execution_trail_hash s' = ss_execution_trail_hash s /\
  (exec_output_final (ss_completeness s) = true ->
     ss_executed_op_ids s' = ss_executed_op_ids s /\
     ss_sc_event_count s' = ss_sc_event_count s /\ exec_output_final (ss_completeness s') = true) /\
  (transfers_stored (ss_completeness s) = true -> transfers_stored (ss_completeness s') = true).
Definition promoted resp s now : SlotState :=
  promote_final resp (ss_execution_trail_hash s) (ss_final_block_id s) (SlotState_fresh (ss_slot s) now).

Lemma promoted_view s resp evs trs now :
  served s resp evs trs ->
  verdict_view (promoted resp s now) =
    (ss_slot s, SlotFinal, ss_is_miss s,
     (if ss_is_miss s then None else ss_final_block_id s), ss_execution_trail_hash s, [], 0%Z,
     false, false).
Proof.
  intros Hs. unfold promoted, promote_final. rewrite (sv_is_miss _ _ _ _ Hs).
  destruct (ss_execution_trail_hash s), (ss_is_miss s), (ss_final_block_id s);
    rewrite ?push_candidate_view; done.
Qed.
Lemma promoted_enc s resp now :
  SlotState_wf s -> SlotState_enc (promoted resp s now).
Proof.
  intros Hw. destruct Hw as (H1' & H2' & _). unfold promoted, promote_final.
  destruct (ss_execution_trail_hash s), (fr_is_miss resp), (ss_final_block_id s) as [bid|];
    try (apply push_candidate_enc; [done|]); by split_and!; simpl.
Qed.

(** The row after the three parts, from the row [s1] the block phase left. *)
Lemma parts_replicate s resp evs trs now s1 s2 s3 :
  served s resp evs trs -> SlotState_wf s ->
  verdict_view s1 = verdict_view (promoted resp s now) ->
  (s2 = if exec_part_due resp then peer_exec_row resp s1 else s1) ->
  (s3 = if transfers_part_due resp then mark_transfers s2 else s2) ->
  replicates s s3.
Proof.
  intros Hs Hw Hv -> ->. rewrite (promoted_view s resp evs trs now Hs) in Hv.
  assert (exec_output_final (ss_completeness s) = true -> exec_part_due resp = true) as He.
  { intros Ec. unfold exec_part_due, honoured. rewrite (sv_known _ _ _ _ Hs), (sv_parts _ _ _ _ Hs).
    rewrite (sv_exec _ _ _ _ Hs), Ec. apply orb_true_r. }
  assert (transfers_stored (ss_completeness s) = true -> transfers_part_due resp = true) as Ht.
  { intros Ec. unfold transfers_part_due, honoured. rewrite (sv_known _ _ _ _ Hs), (sv_parts _ _ _ _ Hs).
    rewrite (sv_transfers_flag _ _ _ _ Hs), Ec. apply orb_true_r. }
  unfold verdict_view in Hv. injection Hv as V1 V2 V3 V4 V5 V6 V7 V8 V9.
  assert (exec_part_due resp = true -> let s2 := peer_exec_row resp s1 in
    verdict_view s2 = (ss_slot s, SlotFinal, ss_is_miss s, (if ss_is_miss s then None else ss_final_block_id s),
      ss_execution_trail_hash s, ss_executed_op_ids s, ss_sc_event_count s, true, false)) as Hx.
  { intros _. unfold peer_exec_row. rewrite V6, bool_decide_eq_true_2 by done.
    unfold verdict_view. destruct s1. simpl in *. unfold constant.
    rewrite (served_op_ids s resp evs trs Hs Hw), (sv_count _ _ _ _ Hs). subst.
    destruct ss_completeness. simpl in *. by subst. }
  set (s2 := if exec_part_due resp then _ else _).
  assert (ss_slot s2 = ss_slot s /\ ss_status s2 = SlotFinal /\ ss_is_miss s2 = ss_is_miss s /\
    (ss_is_miss s = false -> ss_final_block_id s2 = ss_final_block_id s) /\
    ss_execution_trail_hash s2 = ss_execution_trail_hash s /\
    (exec_output_final (ss_completeness s) = true ->
       ss_executed_op_ids s2 = ss_executed_op_ids s /\
       ss_sc_event_count s2 = ss_sc_event_count s /\ exec_output_final (ss_completeness s2) = true))
    as (X1 & X2 & X3 & X4 & X5 & X6).
  { subst s2. destruct (exec_part_due resp) eqn:Ed.
    - specialize (Hx eq_refl). unfold verdict_view in Hx. cbv zeta in Hx.
      generalize dependent (peer_exec_row resp s1). intros s2 Hx.
      injection Hx as X1 X2 X3 X4 X5 X6 X7 X8 X9.
      split_and!; try done. intros Em. by rewrite X4, Em.
    - split_and!; try done; [intros Em; by rewrite V4, Em | intros Ec; by specialize (He Ec)]. }
  clearbody s2. destruct (transfers_part_due resp) eqn:Ed.
  - by split_and!.
  - split_and!; try done. intros Ec. by specialize (Ht Ec).
Qed.

(** A patch on a slot without a row goes straight to its parts. *)
Lemma patch_fresh s resp evs trs now w o w' :
  served s resp evs trs -> SlotState_wf s -> Slot_ok (ss_slot s) ->
  read_slot (w_db w) (slot_period (ss_slot s)) (slot_thread (ss_slot s)) = Ok None ->
  apply_peer_patch resp now w = (Ok o, w') ->
  exists out, po_became_final out = true /\
    peer_parts resp (ss_slot s) now (promoted resp s now, out) w = (Ok o, w').
Proof.
  intros Hs Hw [Hp Ht] Hn E. unfold apply_peer_patch in E.
  rewrite (sv_thread _ _ _ _ Hs), u8_try_from_ok, (sv_final_known _ _ _ _ Hs) in E by done.
  cbn [negb] in E. rewrite (sv_period _ _ _ _ Hs) in E.
  assert (mkSlot (slot_period (ss_slot s)) (slot_thread (ss_slot s)) = ss_slot s) as Eslot
    by by destruct (ss_slot s).
  rewrite Eslot in E.
  assert (read_slot_or_fresh (ss_slot s) now w = (Ok (SlotState_fresh (ss_slot s) now), w)) as Hr.
  { unfold read_slot_or_fresh, mbind, ST_bind, db_read. by rewrite Hn. }
  rewrite (bind_run _ _ w _ w Hr) in E. clear Hr.
  unfold peer_verdict in E. rewrite bool_decide_eq_true_2 in E by done. cbv zeta in E.
  rewrite (bind_run (mret _) _ w _ w eq_refl) in E.
  rewrite (served_trail s resp evs trs Hs Hw), (served_block_id s resp evs trs Hs Hw) in E.
  eexists; split; [|exact E]. done.
Qed.

(** The steps of the parts, on a row that can be stored. *)
Lemma peer_parts_steps resp slot now s0 out w o w' :
  Slot_wf slot -> SlotState_enc s0 -> ss_slot s0 = slot ->
  peer_parts resp slot now (s0, out) w = (Ok o, w') ->
  exists w1 ph1 w2 ph2 w3 ph3 w4 w5,
    (forall c, c ∉ meta_cfs -> same_cf c (w_db w) (w_db w1)) /\
    peer_block_phase resp now (s0, out) w1 = (Ok ph1, w2) /\
    peer_exec_phase resp ph1 w2 = (Ok ph2, w3) /\
    peer_transfers_phase resp now ph2 w3 = (Ok ph3, w4) /\
    apply_finality_to_blocks (ss_final_block_id ph3.1) (ss_candidate_block_ids ph3.1) w4 = (Ok tt, w5) /\
    slot_step slot_le s0 ph3.1 /\
    row_at (w_db w') (key_of slot) (slot_norm (touch now ph3.1)) /\
    (forall c, c ∉ slot_cfs -> same_cf c (w_db w5) (w_db w')).
Proof.
  intros Hslot He Es E. unfold peer_parts in E. cbn [snd] in E.
  apply bind_Ok_inv in E as ([] & w1 & E1 & E).
  apply bind_Ok_inv in E as (ph1 & w2 & E2 & E).
  apply bind_Ok_inv in E as (ph2 & w3 & E3 & E).
  apply bind_Ok_inv in E as ([s3 out3] & w4 & E4 & E).
  apply bind_Ok_inv in E as ([] & w5 & E5 & E).
  apply bind_Ok_inv in E as ([] & w6 & E6 & E).
  apply bind_Ok_inv in E as ([] & w7 & E7 & E).
  assert (w_db w' = w_db w7) as Ew.
  { unfold when in E. destruct (po_became_final out || _).
    - by apply bind_Ok_inv in E as ([] & w8 & [= <-] & [= _ <-]).
    - by apply bind_Ok_inv in E as ([] & w8 & [= <-] & [= _ <-]). }
  assert (slot_step slot_le s0 s3) as Hstep.
  { etransitivity; [|etransitivity].
    - exact (proj2 (peer_block_phase_step resp now (s0, out)) _ _ _ E2).
    - exact (proj2 (peer_exec_phase_step resp ph1) _ _ _ E3).
    - exact (proj2 (peer_transfers_phase_step resp now ph2) _ _ _ E4). }
  exists w1, ph1, w2, ph2, w3, (s3, out3), w4, w5. cbn [fst]. split_and!; try done.
  - intros c Hc. eapply keeps_after; [|exact E1|reflexivity].
    apply moves_when; [apply _|]. intros _. by apply bump_keeps.
  - rewrite Ew. apply parent_stub_run in E7 as [_ Hrows]. apply Hrows.
    apply put_slot_row in E6; [|by apply Hstep].
    assert (ss_slot (touch now s3) = slot) as Ek; [|by rewrite Ek in E6].
    rewrite <- Es. apply Hstep.
  - rewrite Ew. intros c Hc. eapply keeps_after; [|exact E7|]; [by apply parent_stub_keeps|].
    eapply keeps_after; [|exact E6|reflexivity]. by apply put_slot_keeps.
Qed.

Lemma block_phase_keeps c resp now ph :
  c ∉ block_cfs ++ op_cfs ++ endorsement_cfs ++ denunciation_cfs ->
  moves (same_cf c) (peer_block_phase resp now ph).
Proof.
  intros Hc. destruct ph as [s out]. unfold peer_block_phase.
  repeat (moves_step || by apply apply_block_part_keeps).
Qed.
Lemma exec_phase_keeps c resp ph :
  c ∉ event_cfs ++ async_cfs -> moves (same_cf c) (peer_exec_phase resp ph).
Proof.
  intros Hc. destruct ph as [s out]. unfold peer_exec_phase.
  repeat (moves_step || by apply apply_exec_part_keeps).
Qed.
Lemma transfers_phase_keeps c resp now ph :
  c ∉ transfer_cfs ++ async_cfs ++ deferred_cfs -> moves (same_cf c) (peer_transfers_phase resp now ph).
Proof.
  intros Hc. destruct ph as [s out]. unfold peer_transfers_phase.
  repeat (moves_step || by apply apply_transfers_part_keeps).
Qed.

(** [same_cf] along a column family's path through the parts. *)
Ltac parts_same := repeat first
  [ reflexivity
  | eassumption
  | match goal with
    | E : peer_transfers_phase _ _ _ _ = (Ok _, ?w) |- same_cf _ _ (w_db ?w) =>
        eapply keeps_after; [apply transfers_phase_keeps; cf_notin | exact E |]
    | E : peer_exec_phase _ _ _ = (Ok _, ?w) |- same_cf _ _ (w_db ?w) =>
        eapply keeps_after; [apply exec_phase_keeps; cf_notin | exact E |]
    | E : peer_block_phase _ _ _ _ = (Ok _, ?w) |- same_cf _ _ (w_db ?w) =>
        eapply keeps_after; [apply block_phase_keeps; cf_notin | exact E |]
    | E : apply_finality_to_blocks _ _ _ = (Ok _, ?w) |- same_cf _ _ (w_db ?w) =>
        eapply keeps_after; [apply apply_finality_keeps; cf_notin | exact E |]
    | K : forall c, c ∉ slot_cfs -> same_cf c (w_db ?w) (w_db ?w') |- same_cf ?c _ (w_db ?w') =>
        transitivity (w_db w); [|apply (K c); cf_notin]
    | K : forall c, c ∉ meta_cfs -> same_cf c (w_db ?w) (w_db ?w1) |- same_cf ?c _ (w_db ?w1) =>
        transitivity (w_db w); [|apply (K c); cf_notin]
    end ].
(** The same for every column family of a slot's rows. *)
Ltac family_same :=
  let c := fresh "c" in let Hc := fresh "Hc" in
  intros c Hc; cbn in Hc; rewrite !elem_of_cons, elem_of_nil in Hc;
  destruct_or! Hc; subst c; parts_same.

Section steps.
Context (s : SlotState) (resp : FinalSlotResponse) (evs : list StoredScEvent)
  (trs : list StoredTransfer) (now : Z) (out : PatchOutcome).
Context (w w1 w2 w3 w4 w5 w' : World) (ph1 ph2 ph3 : Phase).
Context (Hs : served s resp evs trs) (Hwf : SlotState_wf s) (Hslot : Slot_ok (ss_slot s)).
Context (Hevs : rows_of_slot (ss_slot s) evs) (Htrs : rows_of_slot (ss_slot s) trs).
Context (K1 : forall c, c ∉ meta_cfs -> same_cf c (w_db w) (w_db w1)).
Context (E2 : peer_block_phase resp now (promoted resp s now, out) w1 = (Ok ph1, w2)).
Context (E3 : peer_exec_phase resp ph1 w2 = (Ok ph2, w3)).
Context (E4 : peer_transfers_phase resp now ph2 w3 = (Ok ph3, w4)).
Context (E5 : apply_finality_to_blocks (ss_final_block_id ph3.1) (ss_candidate_block_ids ph3.1) w4
              = (Ok tt, w5)).
Context (K6 : forall c, c ∉ slot_cfs -> same_cf c (w_db w5) (w_db w')).

Lemma steps_slot :
  fr_period resp = slot_period (ss_slot s) /\ as_u8 (fr_thread resp) = slot_thread (ss_slot s).
Proof.
  rewrite (sv_period _ _ _ _ Hs), (sv_thread _ _ _ _ Hs). split; [done|]. apply as_u8_id, Hslot.
Qed.
Lemma steps_view1 : verdict_view ph1.1 = verdict_view (promoted resp s now).
Proof. exact (peer_block_phase_view _ _ _ _ _ _ _ E2). Qed.
Lemma steps_flags :
  exec_output_final (ss_completeness ph1.1) = false /\
  transfers_stored (ss_completeness ph2.1) = false.
Proof.
  pose proof steps_view1 as Hv. rewrite (promoted_view s resp evs trs now Hs) in Hv.
  unfold verdict_view in Hv. destruct ph1 as [s1 o1]. cbn [fst] in *.
  injection Hv as _ _ _ _ _ _ _ V8 V9. split; [done|].
  destruct (peer_exec_phase_run _ _ _ _ _ _ E3) as [(_ & -> & _)|(_ & -> & _)]; [|done].
  unfold peer_exec_row. by case_bool_decide.
Qed.
Lemma steps_replicate : replicates s ph3.1.
Proof.
  destruct steps_flags as [F1 F2]. pose proof steps_view1 as Hv.
  destruct ph1 as [s1 o1], ph2 as [s2 o2]. cbn [fst] in *.
  refine (parts_replicate s resp evs trs now s1 s2 ph3.1 Hs Hwf Hv _ _).
  - destruct (peer_exec_phase_run _ _ _ _ _ _ E3) as [(Hd & Er & _)|(Hd & Er & _)]; cbn [fst] in Er;
      rewrite F1, andb_true_r in Hd; by rewrite Hd.
  - destruct (peer_transfers_phase_run _ _ _ _ _ _ _ E4) as [(Hd & Er & _)|(Hd & Er & _)];
      rewrite F2, andb_true_r in Hd; by rewrite Hd.
Qed.

Lemma steps_exec_due :
  exec_output_final (ss_completeness s) = true \/ evs <> [] -> exec_part_due resp = true.
Proof.
  unfold exec_part_due, honoured. intros [Hx|Hne].
  - rewrite (sv_known _ _ _ _ Hs), (sv_parts _ _ _ _ Hs), (sv_exec _ _ _ _ Hs), Hx. apply orb_true_r.
  - rewrite (bool_decide_eq_false_2 (fr_sc_events resp = [])); [by rewrite !orb_true_r|].
    pose proof (sv_events _ _ _ _ Hs) as Hl. intros Ee. rewrite Ee in Hl. by apply Forall2_nil_inv_l in Hl.
Qed.
Lemma steps_transfers_due :
  transfers_stored (ss_completeness s) = true \/ trs <> [] -> transfers_part_due resp = true.
Proof.
  unfold transfers_part_due, honoured. intros [Hx|Hne].
  - rewrite (sv_known _ _ _ _ Hs), (sv_parts _ _ _ _ Hs), (sv_transfers_flag _ _ _ _ Hs), Hx. apply orb_true_r.
  - rewrite (bool_decide_eq_false_2 (fr_transfers resp = [])); [done|].
    pose proof (sv_transfers _ _ _ _ Hs) as Hl. intros Ee. rewrite Ee in Hl. by apply Forall2_nil_inv_l in Hl.
Qed.

Lemma steps_events :
  family_ok StoredScEvent (w_db w) ->
  slot_copied (w_db w) (w_db w') (ss_slot s) (exec_output_final (ss_completeness s)) evs.
Proof.
  intros Hok. destruct steps_flags as [F1 _]. destruct steps_slot as [Ep Et].
  destruct (family_ok_same StoredScEvent (w_db w) (w_db w2) Hok) as [Hok2 Hst]; [family_same|].
  destruct ph1 as [s1 o1]. cbn [fst] in *.
  destruct (peer_exec_phase_run _ _ _ _ _ _ E3) as [(_ & _ & Ea)|(Hd & _ & Ew)].
  - destruct (exec_part_rows resp (ss_slot s) evs w2 w3 Ep Et Hslot Hok2 (sv_events _ _ _ _ Hs) Hevs Ea)
      as [Hok3 Hst3].
    apply replaced_copied; [apply Hevs|]. apply (family_replaced_same _ (w_db w3)); [|family_same].
    split; [exact Hok3|]. intros e. by rewrite Hst3, Hst.
  - rewrite F1, andb_true_r in Hd. apply unchanged_copied.
    { intros Hc. by rewrite (steps_exec_due Hc) in Hd. }
    rewrite Ew in *. apply family_ok_same; [exact Hok | family_same].
Qed.
Lemma steps_transfers :
  family_ok StoredTransfer (w_db w) ->
  slot_copied (w_db w) (w_db w') (ss_slot s) (transfers_stored (ss_completeness s)) trs.
Proof.
  intros Hok. destruct steps_flags as [_ F2]. destruct steps_slot as [Ep Et].
  destruct (family_ok_same StoredTransfer (w_db w) (w_db w3) Hok) as [Hok3 Hst]; [family_same|].
  destruct ph2 as [s2 o2]. cbn [fst] in *.
  destruct (peer_transfers_phase_run _ _ _ _ _ _ _ E4) as [(_ & _ & Ea)|(Hd & _ & Ew)].
  - destruct (transfers_part_rows resp (ss_slot s) trs now w3 w4 Ep Et Hslot Hok3
      (sv_transfers _ _ _ _ Hs) Htrs Ea) as [Hok4 Hst4].
    apply replaced_copied; [apply Htrs|]. apply (family_replaced_same _ (w_db w4)); [|family_same].
    split; [exact Hok4|]. intros e. by rewrite Hst4, Hst.
  - rewrite F2, andb_true_r in Hd. apply unchanged_copied.
    { intros Hc. by rewrite (steps_transfers_due Hc) in Hd. }
    rewrite Ew in *. apply family_ok_same; [exact Hok | family_same].
Qed.

(** The block table up to the block statuses, and the settling of them. *)
Lemma steps_block_rows :
  table_ok StoredBlock (w_db w) ->
  rows_le block_le (w_db w1) (w_db w4) /\ table_ok StoredBlock (w_db w4) /\
  same_cf CF_BLOCK (w_db w2) (w_db w4) /\
  rows_mapped (settle (ss_final_block_id ph3.1) (ss_candidate_block_ids ph3.1)) (w_db w4) (w_db w5).
Proof.
  intros Hok.
  assert (same_cf CF_BLOCK (w_db w) (w_db w1)) as S1 by (apply K1; cf_notin).
  assert (same_cf CF_BLOCK (w_db w2) (w_db w4)) as S2 by parts_same.
  assert (moves (rows_le block_le) (peer_block_phase resp now (promoted resp s now, out))) as Hm2.
  { unfold peer_block_phase. repeat (moves_step || apply block_part_blocks). }
  specialize (Hm2 w1). rewrite E2 in Hm2. cbn [snd] in Hm2.
  assert (rows_le block_le (w_db w1) (w_db w4)) as Hle.
  { etransitivity; [exact Hm2|]. by apply (same_cf_le (A := StoredBlock) block_le). }
  assert (table_ok StoredBlock (w_db w4)) as Hok4.
  { apply Hle. by apply (same_cf_le (A := StoredBlock) block_le (w_db w) (w_db w1)). }
  split_and!; [done..|].
  assert (SlotState_enc ph3.1) as (_ & Hfe & Hce & _).
  { pose proof (promoted_enc s resp now Hwf) as Hp.
    apply (peer_transfers_phase_step resp now ph2) in E4.
    apply (peer_exec_phase_step resp ph1) in E3.
    apply (peer_block_phase_step resp now (promoted resp s now, out)) in E2.
    by apply E4, E3, E2. }
  by apply apply_finality_rows in E5.
Qed.
(** A row of the final block is settled as final. *)
Lemma steps_settled b :
  table_ok StoredBlock (w_db w) -> ss_is_miss s = false ->
  ss_final_block_id s = Some (bl_id b) -> row_at (w_db w4) (id_as_bytes (bl_id b)) b ->
  read_block (w_db w') (bl_id b) = Ok (Some (b <| bl_status := BlockFinal |>)).
Proof.
  intros Hok Hm Hf Hrow. destruct (steps_block_rows Hok) as (_ & _ & _ & Hset).
  apply read_block_Some, (same_cf_row_at (w_db w5)); [apply K6; cf_notin|].
  apply Hset. exists b. split; [exact Hrow|]. unfold settle, settled_status.
  pose proof steps_replicate as (_ & _ & _ & Hfin & _). rewrite (Hfin Hm), Hf.
  rewrite !bool_decide_eq_true_2 by auto. done.
Qed.

Lemma steps_block b :
  table_ok StoredBlock (w_db w) -> ss_is_miss s = false ->
  ss_final_block_id s = Some (bl_id b) -> shipped_block resp = Some b -> StoredBlock_enc b ->
  read_block (w_db w) (bl_id b) = Ok None ->
  read_block (w_db w') (bl_id b) = Ok (Some (b <| bl_status := BlockFinal |>)).
Proof.
  intros Hok Hm Hf Hb He Hn.
  assert (read_block (w_db w1) (bl_id b) = Ok None) as Hn1.
  { revert Hn. unfold read_block, read_row. by rewrite (K1 CF_BLOCK) by cf_notin. }
  apply steps_settled; [done..|]. apply (same_cf_row_at (w_db w2)); [by apply steps_block_rows|].
  eapply peer_block_phase_stored; [exact Hb|exact He| |exact Hn1|exact E2].
  by rewrite (sv_is_miss _ _ _ _ Hs).
Qed.
Lemma steps_held b :
  table_ok StoredBlock (w_db w) -> ss_is_miss s = false ->
  ss_final_block_id s = Some (bl_id b) -> read_block (w_db w) (bl_id b) = Ok (Some b) ->
  exists b', read_block (w_db w') (bl_id b) = Ok (Some b') /\ bl_status b' = BlockFinal /\
    block_le b b'.
Proof.
  intros Hok Hm Hf Hb. destruct (steps_block_rows Hok) as (Hle & _ & _ & _).
  assert (same_cf CF_BLOCK (w_db w) (w_db w1)) as S1 by (apply K1; cf_notin).
  apply read_block_Some, (same_cf_row_at (w_db w) (w_db w1) (A := StoredBlock)) in Hb; [|exact S1].
  destruct Hle as [_ Hle]; [by apply (same_cf_le (A := StoredBlock) block_le (w_db w) (w_db w1))|].
  destruct (Hle _ _ Hb) as (b' & Hb' & (Hc & Ho & Hst)).
  assert (bl_id b' = bl_id b) as Eid by by apply (f_equal bl_id) in Hc; destruct b, b'.
  exists (b' <| bl_status := BlockFinal |>). rewrite <-Eid in *. split_and!; [|done|].
  - by apply steps_settled.
  - split_and!; [|exact Ho|done]. by rewrite <-Hc.
Qed.
End steps.

(** The stored form of a row replicates what the row does. *)
Lemma normal_replicates s s' now :
  SlotState_wf s -> replicates s s' -> replicates s (slot_norm (touch now s')).
Proof.
  intros (_ & _ & _ & Htl & _) (R1 & R2 & R3 & R4 & R5 & R6 & R7). split_and!; try done.
  rewrite <- R5 in *. destruct s' as [? ? ? ? ? [h|]]; [|done]. simpl in *. unfold constant. simpl.
  unfold str_is_empty. rewrite bool_decide_eq_false_2; [done|]. congruence.
Qed.
(** The rows of a slot that are copied are rows of the slot. *)
Lemma rows_of_slot_sorted {R : Type} `{SlotRow R} slot (rows : list R) (P : R -> Prop) n :
  (forall r, r ∈ rows <-> P r /\ sr_slot r = slot) -> Forall sr_wf rows ->
  StronglySorted index_lt rows -> rows_of_slot slot (take n rows).
Proof.
  intros Hin Hw Hs. split_and!.
  - by apply Forall_take.
  - apply Forall_take, Forall_forall. intros r Hr. by apply Hin.
  - by apply index_lt_nodup, StronglySorted_take.
Qed.

(** C7. A peer's answer converges. What a peer serves for a FINAL slot, applied to
    a store that has no row for it. The replica's row carries the peer's verdict
    (miss flag, block, trail hash) and, where the peer's execution output or
    transfers are complete, the executed operations, the event count and the same
    flags. The slot's events become the first ROW_CAP (10,000) of the peer's, in
    the order of their index: all of them when it has no more, and when it has
    more the rest is missing although the row says complete (service.rs:420). Its
    transfers become the peer's, all of them. (Both unless the peer has none and
    does not call the part complete, when nothing is shipped.) Rows of other slots
    stay, the indexes stay exact. The final block is the peer's, marked final, if
    it was not held; a held one keeps its body and operations and is marked
    final. *)
Theorem replica_converges d s resp now_ms w w' :
  family_ok StoredScEvent d -> family_ok StoredTransfer d ->
  read_slot d (slot_period (ss_slot s)) (slot_thread (ss_slot s)) = Ok (Some s) ->
  Slot_ok (ss_slot s) -> ss_status s = SlotFinal ->
  build_final_slot_response d (slot_period (ss_slot s)) (slot_thread (ss_slot s)) all_parts = Ok resp ->
  family_ok StoredScEvent (w_db w) -> family_ok StoredTransfer (w_db w) ->
  table_ok StoredBlock (w_db w) ->
  read_slot (w_db w) (slot_period (ss_slot s)) (slot_thread (ss_slot s)) = Ok None ->
  dispatch (EvPeerPatch resp) now_ms w = (Ok tt, w') ->
  (exists s', read_slot (w_db w') (slot_period (ss_slot s)) (slot_thread (ss_slot s)) = Ok (Some s') /\
     replicates s s') /\
  (exists evs : list StoredScEvent, StronglySorted index_lt evs /\
     (forall e, e ∈ evs <-> stored d e /\ ev_slot e = ss_slot s) /\
     slot_copied (w_db w) (w_db w') (ss_slot s) (exec_output_final (ss_completeness s))
       (take ROW_CAP evs)) /\
  (exists trs : list StoredTransfer, StronglySorted index_lt trs /\
     (forall t, t ∈ trs <-> stored d t /\ tr_slot t = ss_slot s) /\
     slot_copied (w_db w) (w_db w') (ss_slot s) (transfers_stored (ss_completeness s)) trs) /\
  (forall b, ss_is_miss s = false -> ss_final_block_id s = Some (bl_id b) ->
     (read_block d (bl_id b) = Ok (Some b) -> StoredBlock_wf b ->
      read_block (w_db w) (bl_id b) = Ok None ->
      read_block (w_db w') (bl_id b) = Ok (Some (b <| bl_status := BlockFinal |>))) /\
     (read_block (w_db w) (bl_id b) = Ok (Some b) ->
      exists b', read_block (w_db w') (bl_id b) = Ok (Some b') /\ bl_status b' = BlockFinal /\
        block_le b b')).
Proof.
  intros [He _] [Ht _] Hd Hslot HF Hresp Hev Htr Htab Hn E.
  assert (SlotState_wf s) as Hwf by (apply read_slot_Some in Hd; by eapply slot_row_wf).
  unfold build_final_slot_response in Hresp. rewrite Hd in Hresp.
  apply result_bind_ok in Hresp as (row & [= <-] & Hresp). cbv beta iota in Hresp.
  destruct (serve_final d s resp He Ht Hslot HF Hresp)
    as (evs & trs & Hs & Levs & Ltrs & Wevs & Nevs & Wtrs & Ntrs & Hblock).
  pose proof (rows_of_slot_sorted (ss_slot s) evs _ ROW_CAP Levs Wevs Nevs) as Revs.
  pose proof (rows_of_slot_sorted (ss_slot s) trs _ (length trs) Ltrs Wtrs Ntrs) as Rtrs.
  rewrite take_ge in Rtrs by done.
  cbn [dispatch] in E. apply bind_Ok_inv in E as (o & w0 & E & [= <-]).
  destruct (patch_fresh s resp _ trs now_ms w o w0 Hs Hwf Hslot Hn E) as (out & _ & Eparts).
  destruct (peer_parts_steps resp (ss_slot s) now_ms (promoted resp s now_ms) out w o w0)
    as (w1 & ph1 & w2 & ph2 & w3 & ph3 & w4 & w5 & K1 & E2 & E3 & E4 & E5 & _ & Hrow & K6).
  { apply Hslot. } { by apply promoted_enc. }
  { pose proof (promoted_view s resp _ trs now_ms Hs) as Hv. unfold verdict_view in Hv. congruence. }
  { exact Eparts. }
  split_and!.
  - eexists. split; [by apply read_slot_Some|]. eapply normal_replicates; [exact Hwf|].
    eapply steps_replicate; eassumption.
  - exists evs. split_and!; [done | exact Levs |]. eapply steps_events; eassumption.
  - exists trs. split_and!; [done | exact Ltrs |]. eapply steps_transfers; eassumption.
  - intros b Hm Hf. split.
    + intros Hrb Hbw Hnb. destruct (block_pb_roundtrip b Hbw) as (pb & Epb & Dpb).
      assert (shipped_block resp = Some b) as Hsb.
      { unfold shipped_block. rewrite (Hblock Hm _ _ Hf Hrb), Epb. simpl. by rewrite Dpb. }
      eapply steps_block; try eassumption. by apply (read_block_Some d (bl_id b)), row_at_wf in Hrb.
    + intros Hb. eapply steps_held; eassumption.
Qed.
End replica.
