(* ===== verification/Ddb.v ===== *)
(** * The DynamoDB client (src/massa-indexer/src/legacy/{ddb,sigv4,config,mod}.rs)

    Attribute values and items, the request signature, the three calls and their
    error mapping. The HTTP exchange (crate reqwest), JSON (serde_json), SHA-256
    and HMAC (sha2, hmac) and the clock are the class [AwsOutside]: what the n-th
    interaction with the outside gives back. *)

From S2P Require Import Prelude Text Ids Keys Model Proto Codec Store Db.
From S2P Require Import NodeMsg World Reconcile.

(** ** Attribute values *)
Inductive AttributeValue := mkAttr {
  av_s : option string;
  av_n : option string;
  av_b : option string;
  av_bool : option bool;
  av_null : option bool;
  av_m : option (gmap string AttributeValue);
  av_l : option (list AttributeValue);
}.
Definition Item : Type := gmap string AttributeValue.
Definition AttributeValue_default : AttributeValue := mkAttr None None None None None None None.
Definition s_str (s : string) : AttributeValue := mkAttr (Some s) None None None None None None.
Definition n_num (n : Z) : AttributeValue := mkAttr None (Some (dec n)) None None None None None.
Definition av_as_str (v : AttributeValue) : option string := av_s v.
Definition av_as_num (v : AttributeValue) : option string := av_n v.
Definition av_bytes `{Base64} (v : AttributeValue) : option bytes := s ← av_b v; b64_decode s.

(** ** Configuration *)
Record LegacyDdbCfg := mkLegacyCfg {
  lc_region : string;
  lc_access_key_id : string;
  lc_secret_access_key : string;
  lc_session_token : string;
  lc_blocks_table : string;
  lc_operations_table : string;
  lc_endorsements_table : string;
  lc_max_period : option Z;
  lc_rate_limit_ms : Z;
  lc_connect_timeout_ms : Z;
  lc_request_timeout_ms : Z;
}.
Definition endpoint (c : LegacyDdbCfg) : string :=
  "https://dynamodb." +:+ lc_region c +:+ ".amazonaws.com".
Definition within_window (c : LegacyDdbCfg) (period : Z) : bool :=
  match lc_max_period c with Some max => (period <=? max)%Z | None => true end.

(** ** The descending slot key of the legacy tables *)
Definition u32_max : Z := 2 ^ 32 - 1.
Definition saturating_mul_u64 (a b : Z) : Z := Z.min u64_max (a * b).
Definition point_in_time (period thread : Z) : Z :=
  let combined := Z.min (saturating_add_u64 (saturating_mul_u64 period 100) thread) u32_max in
  u32_max - combined.
Definition point_in_time_to_slot (pit : Z) : Slot :=
  let combined := (u32_max - pit)%Z in
  mkSlot (combined / 100) (as_u8 (combined mod 100)).

(** ** Time of a request *)
(** [as i32]. *)
Definition as_i32 (z : Z) : Z := ((z + 2 ^ 31) mod 2 ^ 32 - 2 ^ 31)%Z.
Definition epoch_to_utc (secs : Z) : Z * Z * Z * Z * Z * Z :=
  (let s := Z.max secs 0 in
   let day := s / 86400 in
   let r := s mod 86400 in
   let hour := r / 3600 in
   let minute := (r / 60) mod 60 in
   let second := r mod 60 in
   let z := day + 719468 in
   let era := (if 0 <=? z then z else z - 146096) / 146097 in
   let doe := z - era * 146097 in
   let yoe := (doe - doe / 1460 + doe / 36524 - doe / 146096) / 365 in
   let y := yoe + era * 400 in
   let doy := doe - (365 * yoe + yoe / 4 - yoe / 100) in
   let mp := (5 * doy + 2) / 153 in
   let d := doy - (153 * mp + 2) / 5 + 1 in
   let m := if mp <? 10 then mp + 3 else mp - 9 in
   let y := if m <=? 2 then y + 1 else y in
   (as_i32 y, m, d, hour, minute, second))%Z.

(** [{:0n}] of a non-negative integer. *)
Fixpoint zeros (n : nat) : string :=
  match n with O => "" | S n' => "0" +:+ zeros n' end.
Definition padded (n : nat) (z : Z) : string :=
  zeros (n - String.length (dec z)) +:+ dec z.
Record Now := mkNow { now_amz_date : string; now_date : string }.
Definition now_of_secs (secs : Z) : Now :=
  let '(year, month, day, hour, minute, second) := epoch_to_utc secs in
  let date := padded 4 year +:+ padded 2 month +:+ padded 2 day in
  mkNow (date +:+ "T" +:+ padded 2 hour +:+ padded 2 minute +:+ padded 2 second +:+ "Z") date.

(** ** Requests and answers *)
Inductive DdbError := DdbStatus (code : Z) (body : string) | DdbTransport (msg : string) | DdbParse (msg : string).
Record GetItemRequest := mkGetItem { gi_table : string; gi_key : Item }.
Record QueryRequest := mkQuery {
  qr_table_name : string;
  qr_index_name : option string;
  qr_key_condition_expression : string;
  qr_expression_attribute_names : gmap string string;
  qr_expression_attribute_values : Item;
  qr_limit : option Z;
  qr_exclusive_start_key : option Item;
  qr_scan_index_forward : option bool;
  qr_consistent_read : option bool;
}.
Record BatchGetRequest := mkBatchGet { bg_request_items : gmap string (list Item) }.
Inductive DdbRequest := ReqGetItem (r : GetItemRequest) | ReqQuery (r : QueryRequest) | ReqBatchGet (r : BatchGetRequest).
Record GetItemOutput := mkGetItemOutput { go_item : option Item }.
Record QueryOutput := mkQueryOutput {
  qo_items : list Item; qo_last_evaluated_key : option Item; qo_count : Z }.
Record BatchGetItemOutput := mkBatchOutput {
  bo_responses : gmap string (list Item); bo_unprocessed_keys : gmap string (list Item) }.

Record HttpRequest := mkHttp { hq_url : string; hq_headers : list (string * string); hq_body : bytes }.
(** Sending the request may fail, and so may reading the body of the answer. *)
Record HttpResponse := mkHttpResp { hr_status : Z; hr_body : result string bytes }.

Class AwsOutside := {
  http_post : nat -> HttpRequest -> result string HttpResponse;
  unix_secs : nat -> Z;
  unix_millis : nat -> Z;
  request_to_json : DdbRequest -> result string bytes;
  get_item_of_json : bytes -> result string GetItemOutput;
  query_of_json : bytes -> result string QueryOutput;
  batch_of_json : bytes -> result string BatchGetItemOutput;
  sha256 : bytes -> bytes;
  hmac_sha256 : bytes -> bytes -> bytes;
}.

(** ** Signature V4 *)
Section sigv4.
Context `{AwsOutside}.

Definition sha256_hex (b : bytes) : string := hex_encode (sha256 b).
Record SignInput := mkSignInput {
  si_access_key_id : string; si_secret_access_key : string; si_session_token : string;
  si_region : string; si_host : string; si_target : string; si_body : bytes;
  si_amz_date : string; si_date : string;
}.
Record SignedHeaders := mkSigned {
  sg_authorization : string; sg_amz_date : string; sg_amz_target : string;
  sg_amz_content_sha256 : string; sg_host : string; sg_session_token : option string;
}.
Definition nl : string := String (Ascii.ascii_of_nat 10) "".
Definition SERVICE : string := "dynamodb".
(** The signed headers in the order they are listed, with their values. *)
Definition canonical_list (i : SignInput) : list (string * string) :=
  [("content-type", "application/x-amz-json-1.0"); ("host", si_host i);
   ("x-amz-content-sha256", sha256_hex (si_body i)); ("x-amz-date", si_amz_date i)]
  ++ (if str_is_empty (si_session_token i) then []
      else [("x-amz-security-token", si_session_token i)])
  ++ [("x-amz-target", si_target i)].
Definition canonical_headers (i : SignInput) : string :=
  foldr (fun h acc => h.1 +:+ ":" +:+ h.2 +:+ nl +:+ acc) "" (canonical_list i).
Fixpoint join (sep : string) (l : list string) : string :=
  match l with [] => "" | [x] => x | x :: l' => x +:+ sep +:+ join sep l' end.
Definition signed_header_names (i : SignInput) : string := join ";" (canonical_list i).*1.
Definition canonical_request (i : SignInput) : string :=
  "POST" +:+ nl +:+ "/" +:+ nl +:+ nl +:+ canonical_headers i +:+ nl +:+
  signed_header_names i +:+ nl +:+ sha256_hex (si_body i).
Definition credential_scope (i : SignInput) : string :=
  si_date i +:+ "/" +:+ si_region i +:+ "/" +:+ SERVICE +:+ "/aws4_request".
Definition string_to_sign (i : SignInput) : string :=
  "AWS4-HMAC-SHA256" +:+ nl +:+ si_amz_date i +:+ nl +:+ credential_scope i +:+ nl +:+
  sha256_hex (as_bytes (canonical_request i)).
Definition signing_key (i : SignInput) : bytes :=
  let k_date := hmac_sha256 (as_bytes ("AWS4" +:+ si_secret_access_key i)) (as_bytes (si_date i)) in
  let k_region := hmac_sha256 k_date (as_bytes (si_region i)) in
  let k_service := hmac_sha256 k_region (as_bytes SERVICE) in
  hmac_sha256 k_service (as_bytes "aws4_request").
Definition sign (i : SignInput) : SignedHeaders :=
  let signature := hex_encode (hmac_sha256 (signing_key i) (as_bytes (string_to_sign i))) in
  {| sg_authorization :=
       "AWS4-HMAC-SHA256 Credential=" +:+ si_access_key_id i +:+ "/" +:+ credential_scope i +:+
       ", SignedHeaders=" +:+ signed_header_names i +:+ ", Signature=" +:+ signature;
     sg_amz_date := si_amz_date i; sg_amz_target := si_target i;
     sg_amz_content_sha256 := sha256_hex (si_body i); sg_host := si_host i;
     sg_session_token := non_empty (si_session_token i) |}.
End sigv4.

(** ** The client *)
(** Its configuration with the host it derives, the number of interactions so
    far and the requests sent, with what came back. *)
Record Ddb := mkDdb {
  dd_cfg : LegacyDdbCfg;
  dd_tick : nat;
  dd_log : list (DdbRequest * result DdbError bytes);
}.
(** Code of the legacy module: fallible, with the client's state. *)
Definition DD (E A : Type) : Type := Ddb -> result E A * Ddb.
#[export] Instance DD_ret E : MRet (DD E) := fun A a s => (Ok a, s).
#[export] Instance DD_bind E : MBind (DD E) := fun A B f m s =>
  match m s with (Ok a, s') => f a s' | (Err e, s') => (Err e, s') end.
Definition dd_lift {E A} (r : result E A) : DD E A := fun s => (r, s).
(** The [From] conversion of [?]. *)
Definition dd_map_err {E F A} (f : E -> F) (m : DD E A) : DD F A := fun s =>
  let '(r, s') := m s in (map_err f r, s').
Definition dd_ask {E A} (f : nat -> A) : DD E A := fun s =>
  (Ok (f (dd_tick s)), s <| dd_tick := S (dd_tick s) |>).
Definition dd_gets {E A} (f : LegacyDdbCfg -> A) : DD E A := fun s => (Ok (f (dd_cfg s)), s).

(** Notes an answer and gives it. *)
Definition dd_note (req : DdbRequest) (r : result DdbError bytes) : DD DdbError bytes := fun s =>
  (r, s <| dd_log := dd_log s ++ [(req, r)] |>).

Section client.
Context `{AwsOutside}.

Definition strip_prefix (p s : string) : option string :=
  if String.prefix p s
  then Some (String.substring (String.length p) (String.length s - String.length p) s) else None.
Definition ddb_host (c : LegacyDdbCfg) : string :=
  let e := endpoint c in
  match strip_prefix "https://" e with
  | Some h => h
  | None => default e (strip_prefix "http://" e)
  end.
Definition call_target (r : DdbRequest) : string :=
  match r with
  | ReqGetItem _ => "DynamoDB_20120810.GetItem"
  | ReqQuery _ => "DynamoDB_20120810.Query"
  | ReqBatchGet _ => "DynamoDB_20120810.BatchGetItem"
  end.
Definition signed_request (c : LegacyDdbCfg) (target : string) (body : bytes) (now : Now)
  : HttpRequest :=
  let signed := sign {|
    si_access_key_id := lc_access_key_id c; si_secret_access_key := lc_secret_access_key c;
    si_session_token := lc_session_token c; si_region := lc_region c; si_host := ddb_host c;
    si_target := target; si_body := body;
    si_amz_date := now_amz_date now; si_date := now_date now |} in
  mkHttp (endpoint c)
    ([("Content-Type", "application/x-amz-json-1.0"); ("X-Amz-Date", sg_amz_date signed);
      ("X-Amz-Target", sg_amz_target signed);
      ("X-Amz-Content-Sha256", sg_amz_content_sha256 signed);
      ("Authorization", sg_authorization signed); ("Host", sg_host signed)]
     ++ match sg_session_token signed with
        | Some t => [("X-Amz-Security-Token", t)] | None => [] end) body.
Definition is_success (status : Z) : bool := (200 <=? status)%Z && (status <? 300)%Z.
(** What the answer of the exchange is to the caller. *)
Definition answer_body (target : string) (r : result string HttpResponse) : result DdbError bytes :=
  match r with
  | Err e => Err (DdbTransport ("post " +:+ target +:+ ": " +:+ e))
  | Ok resp =>
      match hr_body resp with
      | Err e => Err (DdbTransport ("read body " +:+ target +:+ ": " +:+ e))
      | Ok b =>
          if is_success (hr_status resp) then Ok b
          else Err (DdbStatus (hr_status resp) (stringify_bytes b))
      end
  end.
Definition call (req : DdbRequest) : DD DdbError bytes :=
  body ← dd_lift (map_err (fun e => DdbParse ("serialise request: " +:+ e)) (request_to_json req));
  secs ← dd_ask unix_secs;
  cfg ← dd_gets id;
  answer ← dd_ask (fun n => http_post n (signed_request cfg (call_target req) body (now_of_secs secs)));
  dd_note req (answer_body (call_target req) answer).
Definition get_item (table : string) (key : Item) : DD DdbError GetItemOutput :=
  raw ← call (ReqGetItem (mkGetItem table key));
  dd_lift (map_err (fun e => DdbParse ("get_item: " +:+ e)) (get_item_of_json raw)).
Definition query (req : QueryRequest) : DD DdbError QueryOutput :=
  raw ← call (ReqQuery req);
  dd_lift (map_err (fun e => DdbParse ("query: " +:+ e)) (query_of_json raw)).
Definition batch_get (table : string) (keys : list Item) : DD DdbError BatchGetItemOutput :=
  raw ← call (ReqBatchGet (mkBatchGet {[ table := keys ]}));
  dd_lift (map_err (fun e => DdbParse ("batch_get: " +:+ e)) (batch_of_json raw)).
End client.
