(* ===== verification/Config.v ===== *)
(** * Configuration (src/massa-indexer/src/config.rs)

    The sections with their defaults, the environment overrides applied on top of
    the file, and the validation. The TOML reader (crates toml, serde) and the
    file are arguments of [load]; so is the environment. *)

From S2P Require Import Prelude Text Ids Keys Model Proto Codec Store Db.
From S2P Require Import NodeMsg World Reconcile Ddb.

Record General := mkGeneral { gn_network : string }.
Record NodeCfg := mkNodeCfg { nd_grpc_url : string; nd_connect_timeout_ms : Z; nd_keepalive_ms : Z }.
Record DbCfg := mkDbCfg { db_path : string; db_compression : string; db_write_buffer_size_mb : Z }.
Record RestCfg := mkRestCfg {
  rs_bind : string;
  rs_cors : list string;
  rs_sse_ring_buffer_size : Z;
  rs_sse_heartbeat_secs : Z;
  rs_default_page_size : Z;
  rs_max_page_size : Z;
}.
Record PeerCfg := mkPeerCfg {
  pr_enabled : bool;
  pr_bind : string;
  pr_peer_id : string;
  pr_advertise_url : string;
  pr_peers : gmap string string;
  pr_scan_interval_ms : Z;
  pr_stale_candidate_periods : Z;
  pr_recent_incomplete_periods : Z;
}.
Record Streams := mkStreamsCfg {
  sm_filled_blocks : bool; sm_slot_execution_outputs : bool; sm_transfers : bool }.
Record LegacyDdb := mkLegacyDdb {
  ld_enabled : bool;
  ld_region : string;
  ld_access_key_id : string;
  ld_secret_access_key : string;
  ld_session_token : string;
  ld_blocks_table : string;
  ld_operations_table : string;
  ld_endorsements_table : string;
  ld_max_period : option Z;
  ld_min_period : option Z;
  ld_rate_limit_ms : Z;
  ld_concurrency : Z;
  ld_connect_timeout_ms : Z;
  ld_request_timeout_ms : Z;
}.
Record ReconstructTransfers := mkReconstructCfg {
  rt_enabled : bool; rt_from_period : Z; rt_to_period : Z }.
Record PullParts := mkPullCfg {
  pc_enabled : bool;
  pc_from_period : Z;
  pc_to_period : Z;
  pc_block : bool;
  pc_exec_output : bool;
  pc_transfers : bool;
  pc_require_sc_ops : bool;
}.
Record LegacySubTransfers := mkLegacySubCfg {
  lt_enabled : bool; lt_from_period : Z; lt_to_period : Z }.
Record RepairCfg := mkRepairCfg {
  rp_recheck_periods : list (Z * Z);
  rp_force_miss : list (Z * Z);
  rp_reconstruct_transfers : ReconstructTransfers;
  rp_pull_parts : list PullParts;
  rp_legacy_sub_transfers : LegacySubTransfers;
}.
Record Config := mkConfig {
  cfg_general : General;
  cfg_node : NodeCfg;
  cfg_db : DbCfg;
  cfg_rest : RestCfg;
  cfg_peer : PeerCfg;
  cfg_streams : Streams;
  cfg_legacy_ddb : LegacyDdb;
  cfg_repair : RepairCfg;
}.

(** ** Defaults *)
Definition HARD_MAX_PAGE_SIZE : Z := 100.
Definition Peer_default : PeerCfg := mkPeerCfg true "127.0.0.1:9443" "" "" ∅ 50 64 1350.
Definition Streams_default : Streams := mkStreamsCfg true true true.
Definition LegacyDdb_default : LegacyDdb :=
  mkLegacyDdb false "eu-west-3" "" "" "" "BlocksMainnet" "OperationsMainnet" "EndorsementsMainnet"
    None None 50 1 5000 15000.
Definition Repair_default : RepairCfg :=
  mkRepairCfg [] [] (mkReconstructCfg false 0 0) [] (mkLegacySubCfg false 0 0).
(** An empty [rest] table. *)
Definition Rest_defaults : RestCfg := mkRestCfg "0.0.0.0:8080" ["*"] 10000 20 25 HARD_MAX_PAGE_SIZE.

(** ** Environment overrides *)
Definition parse_bool (v : string) : bool :=
  bool_decide (to_ascii_lowercase v ∈ ["1"; "true"; "yes"; "on"]).
(** [parse(&v, var)?]; the text of the number parser's error is not modelled. *)
Definition parse (hi : Z) (v var : string) : result Error Z :=
  ok_or (ErrConfig ("parse " +:+ var +:+ "=" +:+ v)) (parse_unsigned hi v).

(** [var = value] pieces of the peers variable; every piece needs its sign, and the
    error for one without shows the piece, which is not modelled. *)
Definition equals : byte := Byte.x3d.
Definition comma : byte := Byte.x2c.
Fixpoint insert_peers (parts : list string) (peers : gmap string string)
  : result Error (gmap string string) :=
  match parts with
  | [] => Ok peers
  | part :: parts' =>
      if str_is_empty (trim part) then insert_peers parts' peers
      else
        match split_once equals (trim part) with
        | None => Err (ErrConfig "INDEXER_PEER_PEERS: missing '='")
        | Some (name, url) => insert_peers parts' (<[trim name := trim url]> peers)
        end
  end.

Section env.
Context (env : string -> option string).
Definition over (var : string) (f : string -> Config -> result Error Config) (c : Config)
  : result Error Config :=
  match env var with Some v => f v c | None => Ok c end.
(** A field replaced by the text, by a flag or by a number. *)
Definition over_str (var : string) (f : string -> Config -> Config) : Config -> result Error Config :=
  over var (fun v c => Ok (f v c)).
Definition over_bool (var : string) (f : bool -> Config -> Config) : Config -> result Error Config :=
  over var (fun v c => Ok (f (parse_bool v) c)).
Definition over_num (var : string) (f : Z -> Config -> Config) : Config -> result Error Config :=
  over var (fun v c => n ← parse u64_max v var; Ok (f n c)).
Definition on_node (f : NodeCfg -> NodeCfg) (c : Config) : Config := c <| cfg_node := f (cfg_node c) |>.
Definition on_db (f : DbCfg -> DbCfg) (c : Config) : Config := c <| cfg_db := f (cfg_db c) |>.
Definition on_rest (f : RestCfg -> RestCfg) (c : Config) : Config := c <| cfg_rest := f (cfg_rest c) |>.
Definition on_peer (f : PeerCfg -> PeerCfg) (c : Config) : Config := c <| cfg_peer := f (cfg_peer c) |>.
Definition on_streams (f : Streams -> Streams) (c : Config) : Config :=
  c <| cfg_streams := f (cfg_streams c) |>.
Definition on_legacy (f : LegacyDdb -> LegacyDdb) (c : Config) : Config :=
  c <| cfg_legacy_ddb := f (cfg_legacy_ddb c) |>.
Definition apply_env (c : Config) : result Error Config :=
  c ← over_str "INDEXER_GENERAL_NETWORK" (fun v c => c <| cfg_general := mkGeneral v |>) c;
  c ← over_str "INDEXER_NODE_GRPC_URL" (fun v => on_node (fun n => n <| nd_grpc_url := v |>)) c;
  c ← over_num "INDEXER_NODE_CONNECT_TIMEOUT_MS"
        (fun v => on_node (fun n => n <| nd_connect_timeout_ms := v |>)) c;
  c ← over_str "INDEXER_DB_PATH" (fun v => on_db (fun d => d <| db_path := v |>)) c;
  c ← over_str "INDEXER_REST_BIND" (fun v => on_rest (fun r => r <| rs_bind := v |>)) c;
  c ← over_str "INDEXER_REST_CORS"
        (fun v => on_rest (fun r => r <| rs_cors := trim <$> split comma v |>)) c;
  c ← over_num "INDEXER_REST_SSE_HEARTBEAT_SECS"
        (fun v => on_rest (fun r => r <| rs_sse_heartbeat_secs := v |>)) c;
  c ← over_str "INDEXER_PEER_BIND" (fun v => on_peer (fun p => p <| pr_bind := v |>)) c;
  c ← over_str "INDEXER_PEER_ID" (fun v => on_peer (fun p => p <| pr_peer_id := v |>)) c;
  c ← over_bool "INDEXER_PEER_ENABLED" (fun v => on_peer (fun p => p <| pr_enabled := v |>)) c;
  c ← over_bool "INDEXER_STREAMS_FILLED_BLOCKS"
        (fun v => on_streams (fun s => s <| sm_filled_blocks := v |>)) c;
  c ← over_bool "INDEXER_STREAMS_SLOT_EXECUTION_OUTPUTS"
        (fun v => on_streams (fun s => s <| sm_slot_execution_outputs := v |>)) c;
  c ← over_bool "INDEXER_STREAMS_TRANSFERS"
        (fun v => on_streams (fun s => s <| sm_transfers := v |>)) c;
  c ← over "INDEXER_PEER_PEERS" (fun v c =>
        peers ← insert_peers (split comma v) ∅;
        Ok (on_peer (fun p => p <| pr_peers := peers |>) c)) c;
  c ← over_bool "INDEXER_LEGACY_DDB_ENABLED" (fun v => on_legacy (fun l => l <| ld_enabled := v |>)) c;
  c ← over_str "INDEXER_LEGACY_DDB_REGION" (fun v => on_legacy (fun l => l <| ld_region := v |>)) c;
  c ← over_str "INDEXER_LEGACY_DDB_ACCESS_KEY_ID"
        (fun v => on_legacy (fun l => l <| ld_access_key_id := v |>)) c;
  c ← over_str "INDEXER_LEGACY_DDB_SECRET_ACCESS_KEY"
        (fun v => on_legacy (fun l => l <| ld_secret_access_key := v |>)) c;
  c ← over_str "INDEXER_LEGACY_DDB_SESSION_TOKEN"
        (fun v => on_legacy (fun l => l <| ld_session_token := v |>)) c;
  c ← over_num "INDEXER_LEGACY_DDB_MAX_PERIOD"
        (fun v => on_legacy (fun l => l <| ld_max_period := Some v |>)) c;
  c ← over_num "INDEXER_LEGACY_DDB_MIN_PERIOD"
        (fun v => on_legacy (fun l => l <| ld_min_period := Some v |>)) c;
  c ← over_num "INDEXER_LEGACY_DDB_RATE_LIMIT_MS"
        (fun v => on_legacy (fun l => l <| ld_rate_limit_ms := v |>)) c;
  c ← over_num "INDEXER_LEGACY_DDB_CONCURRENCY"
        (fun v => on_legacy (fun l => l <| ld_concurrency := v |>)) c;
  c ← over_str "INDEXER_LEGACY_DDB_BLOCKS_TABLE"
        (fun v => on_legacy (fun l => l <| ld_blocks_table := v |>)) c;
  c ← over_str "INDEXER_LEGACY_DDB_OPERATIONS_TABLE"
        (fun v => on_legacy (fun l => l <| ld_operations_table := v |>)) c;
  over_str "INDEXER_LEGACY_DDB_ENDORSEMENTS_TABLE"
    (fun v => on_legacy (fun l => l <| ld_endorsements_table := v |>)) c.

(** ** Validation *)
Definition blank (s : string) : bool := str_is_empty (trim s).
(** [if bad { return Err(..) }]. *)
Definition reject_if (bad : bool) (msg : string) : result Error unit :=
  if bad then Err (ErrConfig msg) else Ok tt.
Definition validate_recheck (r : Z * Z) : result Error unit :=
  reject_if (r.2 <? r.1)%Z ("repair.recheck_periods: range [" +:+ dec r.1 +:+ ", " +:+ dec r.2 +:+ "] has lo > hi").
(** [to = 0] stands for the head. *)
Definition empty_range (from to : Z) : bool := negb (Z.eqb to 0) && (to <? from)%Z.
Definition validate_pull (pp : PullParts) : result Error unit :=
  if negb (pc_enabled pp) then Ok tt
  else
    reject_if (empty_range (pc_from_period pp) (pc_to_period pp)) "repair.pull_parts: from_period > to_period" ;;
    reject_if (negb (pc_block pp || pc_exec_output pp || pc_transfers pp))
      "repair.pull_parts: select at least one of block / exec_output / transfers".
Definition validate_sub_transfers (ls : LegacySubTransfers) (ld : LegacyDdb) : result Error unit :=
  if negb (lt_enabled ls) then Ok tt
  else
    reject_if (empty_range (lt_from_period ls) (lt_to_period ls))
      "repair.legacy_sub_transfers: from_period > to_period" ;;
    reject_if (blank (ld_access_key_id ld) || blank (ld_secret_access_key ld))
      "repair.legacy_sub_transfers needs legacy_ddb credentials (INDEXER_LEGACY_DDB_* env)".
Definition validate_legacy (ld : LegacyDdb) : result Error unit :=
  if negb (ld_enabled ld) then Ok tt
  else
    reject_if (blank (ld_access_key_id ld)) "legacy_ddb.access_key_id is required when legacy_ddb.enabled = true" ;;
    reject_if (blank (ld_secret_access_key ld))
      "legacy_ddb.secret_access_key is required when legacy_ddb.enabled = true" ;;
    reject_if (blank (ld_region ld)) "legacy_ddb.region must not be empty".
Fixpoint check_all {A} (f : A -> result Error unit) (l : list A) : result Error unit :=
  match l with
  | [] => Ok tt
  | a :: l' => f a ;; check_all f l'
  end.
Definition validate (c : Config) : result Error unit :=
  reject_if (blank (gn_network (cfg_general c))) "general.network must not be empty" ;;
  reject_if (negb (str_starts_with (nd_grpc_url (cfg_node c)) "http"))
    ("node.grpc_url must be http(s)://…, got " +:+ nd_grpc_url (cfg_node c)) ;;
  reject_if (blank (db_path (cfg_db c))) "db.path must not be empty" ;;
  reject_if (rs_max_page_size (cfg_rest c) <? rs_default_page_size (cfg_rest c))%Z
    "rest.max_page_size < rest.default_page_size" ;;
  reject_if (HARD_MAX_PAGE_SIZE <? rs_max_page_size (cfg_rest c))%Z "rest.max_page_size must be <= 100" ;;
  reject_if (pr_stale_candidate_periods (cfg_peer c) <? 8)%Z
    "peer.stale_candidate_periods must be >= 8 (live candidates finalise within a few periods)" ;;
  check_all validate_recheck (rp_recheck_periods (cfg_repair c)) ;;
  let rt := rp_reconstruct_transfers (cfg_repair c) in
  reject_if (rt_enabled rt && empty_range (rt_from_period rt) (rt_to_period rt))
    "repair.reconstruct_transfers: from_period > to_period" ;;
  check_all validate_pull (rp_pull_parts (cfg_repair c)) ;;
  validate_sub_transfers (rp_legacy_sub_transfers (cfg_repair c)) (cfg_legacy_ddb c) ;;
  validate_legacy (cfg_legacy_ddb c).

(** [Config::load], the file's text and the TOML reader given. *)
Definition load (toml : string -> option Config) (raw : option string) : result Error Config :=
  raw ← ok_or (ErrConfig "read") raw;
  c ← ok_or (ErrConfig "parse TOML") (toml raw);
  c ← apply_env c;
  validate c ;;
  Ok c.
End env.

(** ** Projections other components take *)
Definition expected (s : Streams) : StreamsExpected :=
  mkStreams (sm_filled_blocks s) (sm_slot_execution_outputs s) (sm_transfers s).
Definition from_section (s : LegacyDdb) : LegacyDdbCfg :=
  mkLegacyCfg (ld_region s) (ld_access_key_id s) (ld_secret_access_key s) (ld_session_token s)
    (ld_blocks_table s) (ld_operations_table s) (ld_endorsements_table s) (ld_max_period s)
    (ld_rate_limit_ms s) (ld_connect_timeout_ms s) (ld_request_timeout_ms s).
