(* ===== verification/Rest.v ===== *)
(** * The REST API (src/massa-indexer/src/rest.rs)

    The handlers as functions of the configuration, the store and the request.
    A handler that may write (the lazy repair of a block's status) threads the
    store. Routing, JSON rendering and headers are axum's and serde's; base64url
    is the class [UrlBase64]. A request is modelled on its own: the store changes
    under it only by its own writes. *)

From stdpp Require Import gmap.
From S2P Require Import Prelude Text Ids Keys Model Proto Codec Store Db.
From S2P Require Import NodeMsg World Reconcile Arbiter Patch Ingest Grpc Ddb Config.

(** ** Errors *)
Inductive ApiErr := NotFound (detail : string) | Bad (detail : string) | Internal (detail : string).
#[export] Instance ApiErr_eq_dec : EqDecision ApiErr.
Proof. solve_decision. Defined.
Record Problem := mkProblem { pb_type : string; pb_title : string; pb_status : Z; pb_detail : string }.
Definition ApiErr_status (e : ApiErr) : Z :=
  match e with NotFound _ => 404 | Bad _ => 400 | Internal _ => 500 end.
Definition ApiErr_into_response (e : ApiErr) : Problem :=
  let '(title, detail) := match e with
    | NotFound d => ("Not Found", d) | Bad d => ("Bad Request", d) | Internal d => ("Internal Error", d)
    end in
  mkProblem ("/errors/" +:+ dec (ApiErr_status e)) title (ApiErr_status e) detail.
Definition ApiErr_from (e : Error) : ApiErr :=
  match e with
  | ErrNotFound => NotFound "not found"
  | ErrBadRequest m => Bad m
  | other => Internal (Error_display other)
  end.
(** A request that is not answered: refused, or its task panicked. *)
Inductive Failure := Rejected (e : ApiErr) | Panicked.
#[export] Instance Failure_eq_dec : EqDecision Failure.
Proof. solve_decision. Defined.

Definition Api (S A : Type) : Type := S -> result Failure A * S.
#[export] Instance Api_ret S : MRet (Api S) := fun A a s => (Ok a, s).
#[export] Instance Api_bind S : MBind (Api S) := fun A B f m s =>
  match m s with
  | (Ok a, s') => f a s'
  | (Err e, s') => (Err e, s')
  end.
Definition api_get {S} : Api S S := fun s => (Ok s, s).
Definition api_lift {S A} (r : result Failure A) : Api S A := fun s => (r, s).
Definition api_st {S A} (m : ST S A) : Api S A := fun s =>
  let '(r, s') := m s in (map_err (fun e => Rejected (ApiErr_from e)) r, s').
(** [.map_err(ApiErr::from)?], [.map_err(ApiErr::Bad)?], [.ok_or_else(NotFound)?]. *)
Definition or_internal {A} (r : result Error A) : result Failure A :=
  map_err (fun e => Rejected (ApiErr_from e)) r.
Definition or_bad {A} (r : result string A) : result Failure A := map_err (fun m => Rejected (Bad m)) r.
Definition or_not_found {A} (what : string) (o : option A) : result Failure A :=
  ok_or (Rejected (NotFound what)) o.
(** [for id in ids { if let Some(row) = read(id)? { out.push(row) } }]. *)
Fixpoint read_each {K A} (read : K -> result Error (option A)) (ids : list K) : result Failure (list A) :=
  match ids with
  | [] => Ok []
  | id :: ids' =>
      o ← or_internal (read id);
      rest ← read_each read ids';
      Ok (match o with Some row => row :: rest | None => rest end)
  end.

(** ** Pages *)
Class UrlBase64 := {
  url_safe_encode : bytes -> string;
  url_safe_decode : string -> result string bytes;
  url_safe_decode_encode b : url_safe_decode (url_safe_encode b) = Ok b;
  url_safe_encode_nonempty b : b <> [] -> url_safe_encode b <> "";
}.
Record Envelope (T : Type) := mkEnvelope {
  ev_network : string; ev_has_more : bool; ev_cursor_next : option string; ev_data : T }.
Arguments mkEnvelope {T}. Arguments ev_network {T}. Arguments ev_has_more {T}.
Arguments ev_cursor_next {T}. Arguments ev_data {T}.
Record PageQ := mkPageQ { pq_limit : option Z; pq_cursor : option string }.
Record SlotsRangeQ := mkSlotsRangeQ {
  sq_from_period : option Z; sq_from_thread : option Z; sq_page : PageQ }.
Record RecentOpsQ := mkRecentOpsQ { oq_page : PageQ; oq_max_slots : option Z }.
(** [AddrOpsQ], [AddrEventsQ], [AddrAsyncQ], [AddrDeferredQ]. *)
Record RoleQ := mkRoleQ { rq_role : option string; rq_page : PageQ }.

Definition clamp (x lo hi : Z) : Z := Z.min (Z.max x lo) hi.
Definition effective_max_page_size (cfg : Config) : Z :=
  clamp (rs_max_page_size (cfg_rest cfg)) 1 HARD_MAX_PAGE_SIZE.
Definition limit_of (cfg : Config) (p : PageQ) : nat :=
  Z.to_nat (clamp (default (rs_default_page_size (cfg_rest cfg)) (pq_limit p)) 1
              (effective_max_page_size cfg)).
Definition network_of (cfg : Config) : string := gn_network (cfg_general cfg).
Definition Envelope_new {T} (cfg : Config) (data : T) : Envelope T :=
  mkEnvelope (network_of cfg) false None data.

Section pages.
Context `{UrlBase64}.
Definition encode_cursor (raw : bytes) : string := url_safe_encode raw.
Definition decode_cursor (s : string) : result Failure (option bytes) :=
  if str_is_empty s then Ok None
  else or_bad (map_err (fun e => "invalid cursor: " +:+ e) (Some <$> url_safe_decode s)).
Definition with_cursor {T} (cursor : option bytes) (e : Envelope T) : Envelope T :=
  match cursor with
  | Some raw => mkEnvelope (ev_network e) true (Some (encode_cursor raw)) (ev_data e)
  | None => e
  end.
Definition after (p : PageQ) : result Failure (option bytes) :=
  match pq_cursor p with Some s => decode_cursor s | None => Ok None end.
Definition page_envelope {T} (cfg : Config) (p : Page T) : Envelope (list T) :=
  with_cursor (pg_next_cursor p) (Envelope_new cfg (pg_items p)).
(** The cursor of the lists embedded in a block: an index, little-endian. *)
Definition offset_of (p : PageQ) : result Failure nat :=
  a ← after p;
  match a with
  | Some b => if length b =? 4 then Ok (Z.to_nat (from_le b)) else Err (Rejected (Bad "invalid cursor"))
  | None => Ok 0
  end.
Definition offset_cursor (end_ total : nat) : option bytes :=
  if end_ <? total then Some (le_u32 (as_u32 (Z.of_nat end_))) else None.
(** [l[start..end]] of a list. *)
Definition slice {A} (start end_ : nat) (l : list A) : option (list A) :=
  if (start <=? end_) && (end_ <=? length l) then Some (take (end_ - start) (drop start l)) else None.
End pages.

(** ** Merged lists of transfers *)
Definition transfer_pos (t : StoredTransfer) : Z * Z * Z :=
  (slot_period (tr_slot t), slot_thread (tr_slot t), tr_index_in_slot t).
Definition or_insert (m : gmap (Z * Z * Z) StoredTransfer) (t : StoredTransfer) :=
  match m !! transfer_pos t with Some _ => m | None => <[transfer_pos t := t]> m end.
Definition newest_first (x y : StoredTransfer) : bool :=
  let '(p, t, i) := transfer_pos x in let '(p', t', i') := transfer_pos y in
  (p' <? p)%Z || (Z.eqb p p' && ((t' <? t)%Z || (Z.eqb t t' && (i' <=? i)%Z))).
Definition paginate_transfers_union (a b : list StoredTransfer) (limit : nat) : list StoredTransfer :=
  take limit (sort_by newest_first (map_to_list (foldl or_insert ∅ (a ++ b))).*2).

(** The blocks a slot row names: candidates, then the final one if it is not among them. *)
Definition slot_block_ids (s : SlotState) : list BlockId :=
  ss_candidate_block_ids s ++
  match ss_final_block_id s with
  | Some fid => if bool_decide (fid ∈ ss_candidate_block_ids s) then [] else [fid]
  | None => []
  end.

Section handlers.
Context `{Bs58, Base64, HexCrate, ProstStorage, RocksDB, UrlBase64, DenunciationDigest}.
Context (cfg : Config).

(** ** Single rows *)
(** [let _ = db.write_block(block)]. *)
Definition self_heal (b : StoredBlock) : ST DB unit := fun d =>
  (Ok tt, match write_block d b with Ok d' => d' | Err _ => d end).
Definition resolve_block_status (b : StoredBlock) : ST DB StoredBlock :=
  match bl_status b with
  | BlockFinal | Discarded => mret b
  | SeenCandidate =>
      d ← st_get;
      slot ← st_lift (read_slot d (slot_period (bl_slot b)) (slot_thread (bl_slot b)));
      match slot : option SlotState with
      | None => mret b
      | Some s =>
          if negb (bool_decide (ss_status s = SlotFinal)) then mret b
          else
            let new_status :=
              if bool_decide (ss_final_block_id s = Some (bl_id b)) then BlockFinal else Discarded in
            if bool_decide (bl_status b = new_status) then mret b
            else self_heal (b <| bl_status := new_status |>) ;; mret (b <| bl_status := new_status |>)
      end
  end.
Definition block_by_id (id : string) : Api DB (Envelope StoredBlock) :=
  bid ← api_lift (or_bad (BlockId_parse id));
  d ← api_get;
  o ← api_lift (or_internal (read_block d bid));
  row ← api_lift (or_not_found "block" o);
  row ← api_st (resolve_block_status row);
  mret (Envelope_new cfg row).

Section readers.
Context (d : DB).
Definition op_by_id (id : string) : result Failure (Envelope StoredOperation) :=
  oid ← or_bad (OperationId_parse id);
  o ← or_internal (read_op d oid);
  row ← or_not_found "operation" o;
  Ok (Envelope_new cfg row).
Definition slot_by_coords (period thread : Z) : result Failure (Envelope SlotState) :=
  o ← or_internal (read_slot d period thread);
  row ← or_not_found "slot" o;
  Ok (Envelope_new cfg row).
Definition endorsement_by_id (id : string) : result Failure (Envelope StoredEndorsement) :=
  o ← or_internal (read_endorsement d id);
  e ← or_not_found "endorsement" o;
  Ok (Envelope_new cfg e).
Definition denunciation_by_hash (hash : string) : result Failure (Envelope StoredDenunciationEntry) :=
  o ← or_internal (read_denunciation d hash);
  e ← or_not_found "denunciation" o;
  Ok (Envelope_new cfg e).
Definition async_by_id (id : string) : result Failure (Envelope StoredAsyncMsg) :=
  o ← or_internal (read_async_msg d id);
  row ← or_not_found ("async message " +:+ id +:+ " not indexed") o;
  Ok (Envelope_new cfg row).
Definition deferred_by_id (id : string) : result Failure (Envelope StoredDeferredCall) :=
  o ← or_internal (read_deferred_call d id);
  row ← or_not_found ("deferred call " +:+ id +:+ " not indexed") o;
  Ok (Envelope_new cfg row).

(** ** Pages of one index *)
Definition paged {T} (p : PageQ) (scan : option bytes -> nat -> result Error (Page T))
  : result Failure (Envelope (list T)) :=
  a ← after p;
  page ← or_internal (scan a (limit_of cfg p));
  Ok (page_envelope cfg page).
Definition slot_events (period thread : Z) (p : PageQ) : result Failure (Envelope (list StoredScEvent)) :=
  paged p (iter_sc_events_for_slot d period thread).
Definition op_transfers (id : string) (p : PageQ) : result Failure (Envelope (list StoredTransfer)) :=
  a ← after p;
  op_id ← or_bad (OperationId_parse id);
  page ← or_internal (iter_transfers_by_op d op_id a (limit_of cfg p));
  Ok (page_envelope cfg page).
Definition addr_transfers (addr : string) (p : PageQ) : result Failure (Envelope (list StoredTransfer)) :=
  a ← after p;
  ad ← or_bad (Address_parse addr);
  page ← or_internal (iter_transfers_by_addr d ad a (limit_of cfg p));
  Ok (page_envelope cfg page).
Definition op_events (id : string) (p : PageQ) : result Failure (Envelope (list StoredScEvent)) :=
  a ← after p;
  op_id ← or_bad (OperationId_parse id);
  page ← or_internal (iter_sc_events_by_op d op_id a (limit_of cfg p));
  Ok (page_envelope cfg page).
Definition denunciations_recent (p : PageQ) : result Failure (Envelope (list StoredDenunciationEntry)) :=
  paged p (iter_denunciations_recent d).
Definition addr_denunciations (addr : string) (p : PageQ)
  : result Failure (Envelope (list StoredDenunciationEntry)) :=
  ad ← or_bad (Address_parse addr);
  paged p (iter_denunciations_by_addr d ad).
Definition async_list (p : PageQ) : result Failure (Envelope (list StoredAsyncMsg)) :=
  paged p (iter_all_async d).
Definition deferred_list (p : PageQ) : result Failure (Envelope (list StoredDeferredCall)) :=
  paged p (iter_all_deferred d).
Definition addr_events (addr : string) (q : RoleQ) : result Failure (Envelope (list StoredScEvent)) :=
  ad ← or_bad (Address_parse addr);
  paged (rq_page q)
    (if bool_decide (default "emitter" (rq_role q) = "caller") then iter_sc_events_by_caller d ad
     else iter_sc_events_by_emitter d ad).
Definition addr_async (addr : string) (q : RoleQ) : result Failure (Envelope (list StoredAsyncMsg)) :=
  ad ← or_bad (Address_parse addr);
  a ← after (rq_page q);
  let role := default "sender" (rq_role q) in
  by_ ← (if bool_decide (role ∈ ["destination"; "dest"]) then Ok AsyncDestination
         else if bool_decide (role = "sender") then Ok AsyncSender
         else Err (Rejected (Bad ("role must be sender|destination, got " +:+ role))));
  page ← or_internal (iter_async_by_addr d ad by_ a (limit_of cfg (rq_page q)));
  Ok (page_envelope cfg page).
Definition addr_deferred (addr : string) (q : RoleQ) : result Failure (Envelope (list StoredDeferredCall)) :=
  ad ← or_bad (Address_parse addr);
  a ← after (rq_page q);
  let role := default "sender" (rq_role q) in
  by_ ← (if bool_decide (role = "target") then Ok DeferredTarget
         else if bool_decide (role = "sender") then Ok DeferredSender
         else Err (Rejected (Bad ("role must be sender|target, got " +:+ role))));
  page ← or_internal (iter_deferred_by_addr d ad by_ a (limit_of cfg (rq_page q)));
  Ok (page_envelope cfg page).
(** An index of ids, each id then looked up. *)
Definition paged_ids {K T} (p : PageQ) (scan : option bytes -> nat -> result Error (Page K))
    (read : K -> result Error (option T)) : result Failure (Envelope (list T)) :=
  a ← after p;
  page ← or_internal (scan a (limit_of cfg p));
  out ← read_each read (pg_items page);
  Ok (with_cursor (pg_next_cursor page) (Envelope_new cfg out)).
Definition ops_by_addr (addr : string) (q : RoleQ) : result Failure (Envelope (list StoredOperation)) :=
  ad ← or_bad (Address_parse addr);
  paged_ids (rq_page q)
    (if bool_decide (default "creator" (rq_role q) ∈ ["target"; "recipient"])
     then iter_ops_by_target d ad else iter_ops_by_creator d ad) (read_op d).
Definition received_ops_by_addr (addr : string) (p : PageQ)
  : result Failure (Envelope (list StoredOperation)) :=
  ad ← or_bad (Address_parse addr);
  paged_ids p (iter_ops_by_target d ad) (read_op d).
Definition addr_endorsements (addr : string) (p : PageQ)
  : result Failure (Envelope (list StoredEndorsement)) :=
  ad ← or_bad (Address_parse addr);
  paged_ids p (iter_endorsements_by_creator d ad) (read_endorsement d).
(** The scan excludes its cursor: one byte after the slot's key, so that the slot is included. *)
Definition slots_range (q : SlotsRangeQ) : result Failure (Envelope (list SlotState)) :=
  a ← match pq_cursor (sq_page q) with
      | Some s => decode_cursor s
      | None =>
          Ok (p ← sq_from_period q; Some (slot_key p (default 31%Z (sq_from_thread q)) ++ [Byte.x00]))
      end;
  page ← or_internal (iter_slots_desc d a (limit_of cfg (sq_page q)));
  Ok (page_envelope cfg page).

(** ** Unions *)
(** The transfers of each operation, up to the limit each. *)
Definition transfers_of_ops (limit : nat) (ops : list OperationId) : result Failure (list StoredTransfer) :=
  pages ← try_map (fun op => or_internal (iter_transfers_by_op d op None limit)) ops;
  Ok (pages ≫= pg_items).
Definition slot_transfers (period thread : Z) (p : PageQ) : result Failure (Envelope (list StoredTransfer)) :=
  let limit := limit_of cfg p in
  in_slot ← or_internal (iter_transfers_for_slot d period thread);
  st ← or_internal (read_slot d period thread);
  blocks ← match st with Some s => read_each (read_block d) (slot_block_ids s) | None => Ok [] end;
  extras ← transfers_of_ops limit (blocks ≫= bl_operation_ids);
  Ok (Envelope_new cfg (paginate_transfers_union in_slot extras limit)).
Definition block_transfers (id : string) (p : PageQ) : result Failure (Envelope (list StoredTransfer)) :=
  let limit := limit_of cfg p in
  block_id ← or_bad (BlockId_parse id);
  in_block ← or_internal (iter_transfers_by_block d block_id None limit);
  o ← or_internal (read_block d block_id);
  block ← or_not_found "block" o;
  extras ← transfers_of_ops limit (bl_operation_ids block);
  Ok (Envelope_new cfg (paginate_transfers_union (pg_items in_block) extras limit)).

(** ** The lists embedded in a block *)
Definition block_of (id : string) : result Failure StoredBlock :=
  bid ← or_bad (BlockId_parse id);
  o ← or_internal (read_block d bid);
  or_not_found "block" o.
(** The slice panics when the cursor points past the end. *)
Definition block_operations (id : string) (p : PageQ) : result Failure (Envelope (list StoredOperation)) :=
  start_idx ← offset_of p;
  block ← block_of id;
  let total := length (bl_operation_ids block) in
  let end_ := Nat.min (start_idx + limit_of cfg p) total in
  ids ← ok_or Panicked (slice start_idx end_ (bl_operation_ids block));
  out ← read_each (read_op d) ids;
  Ok (with_cursor (offset_cursor end_ total) (Envelope_new cfg out)).
Definition block_endorsements (id : string) (p : PageQ)
  : result Failure (Envelope (list StoredEndorsement)) :=
  start_idx ← offset_of p;
  block ← block_of id;
  let total := length (bl_endorsements block) in
  let end_ := Nat.min (start_idx + limit_of cfg p) total in
  out ← (if total <=? start_idx then Ok [] else ok_or Panicked (slice start_idx end_ (bl_endorsements block)));
  Ok (with_cursor (offset_cursor end_ total) (Envelope_new cfg out)).
Fixpoint denunciation_entries (seen : list string) (l : list StoredDenunciation)
  : result Failure (list StoredDenunciationEntry) :=
  match l with
  | [] => Ok []
  | x :: l' =>
      let hash := denunciation_hash x in
      if bool_decide (hash ∈ seen) then denunciation_entries seen l'
      else
        o ← or_internal (read_denunciation d hash);
        rest ← denunciation_entries (hash :: seen) l';
        Ok (match o with Some entry => entry :: rest | None => rest end)
  end.
Definition block_denunciations (id : string) (p : PageQ)
  : result Failure (Envelope (list StoredDenunciationEntry)) :=
  start_idx ← offset_of p;
  block ← block_of id;
  let total := length (bl_denunciations block) in
  let end_ := Nat.min (start_idx + limit_of cfg p) total in
  ds ← (if start_idx <? total then ok_or Panicked (slice start_idx end_ (bl_denunciations block)) else Ok []);
  out ← denunciation_entries [] ds;
  Ok (with_cursor (offset_cursor end_ total) (Envelope_new cfg out)).
End readers.
End handlers.
