(* ===== verification/RestWalk.v ===== *)
(** * REST handlers that walk the slots (src/massa-indexer/src/rest.rs)

    The recent operations and blocks, found by walking the slots downwards, and
    the reports: charts and CSV exports. The crate csv and the JSON writer are the
    class [Writers]; a chart's value is kept as the fraction the source rounds to
    a float. *)

From stdpp Require Import gmap strings.
From S2P Require Import Prelude Text Ids Keys Model Proto Codec Store Db.
From S2P Require Import NodeMsg World Reconcile Arbiter Patch Ingest Grpc Ddb Config Rest.

Section walk.
Context `{Bs58, Base64, HexCrate, ProstStorage, RocksDB, UrlBase64}.

(** ** The walk [recent_operations] and [blocks_recent] share *)
(** [visit]: what a slot adds; [full]: the page has its [limit] rows. *)
Section slots.
Context {W : Type} (visit : SlotState -> W -> Api DB W) (full : W -> bool).
Context (max_slots batch_max : nat).
(** [break 'outer] with the key of the slot just finished. *)
Fixpoint walk_page (slots : list SlotState) (scanned : nat) (w : W) : Api DB (nat * W * option bytes) :=
  match slots with
  | [] => mret (scanned, w, None)
  | slot_state :: slots' =>
      w' ← visit slot_state w;
      if full w' then
        mret (S scanned, w', Some (slot_key (slot_period (ss_slot slot_state)) (slot_thread (ss_slot slot_state))))
      else walk_page slots' (S scanned) w'
  end.
(** After the loop: a walk cut by [max_slots] hands out where it stands. *)
Definition walk_end (cursor : option bytes) (scanned : nat) (w : W) : W * option bytes :=
  (w, if max_slots <=? scanned then cursor else None).
Fixpoint walk_slots (fuel : nat) (cursor : option bytes) (scanned : nat) (w : W)
  : Api DB (W * option bytes) :=
  match fuel with
  | O => mret (walk_end cursor scanned w)
  | S fuel' =>
      if scanned <? max_slots then
        d ← api_get;
        page ← api_lift (or_internal (iter_slots_desc d cursor (Nat.min (max_slots - scanned) batch_max)));
        match pg_items page with
        | [] => mret (walk_end cursor scanned w)
        | items =>
            r ← walk_page items scanned w;
            match r : nat * W * option bytes with
            | (scanned', w', Some c) => mret (w', Some c)
            | (scanned', w', None) =>
                match pg_next_cursor page with
                | None => mret (walk_end None scanned' w')
                | Some c => walk_slots fuel' (Some c) scanned' w'
                end
            end
        end
      else mret (walk_end cursor scanned w)
  end.
(** Every page that is not the last visits a slot, so [max_slots] rounds are enough. *)
Definition walk (cursor : option bytes) (w : W) : Api DB (W * option bytes) :=
  walk_slots (S max_slots) cursor 0 w.
End slots.

Definition in_store {A} (f : DB -> result Error A) : Api DB A := d ← api_get; api_lift (or_internal (f d)).
Fixpoint api_fold {X W} (f : X -> W -> Api DB W) (l : list X) (w : W) : Api DB W :=
  match l with
  | [] => mret w
  | x :: l' => w' ← f x w; api_fold f l' w'
  end.
(** [seen] and [out] of the source's loops. *)
Record Walked (A : Type) := mkWalked { wk_seen : gset string; wk_out : list A }.
Arguments mkWalked {A}. Arguments wk_seen {A}. Arguments wk_out {A}.

Definition visit_op (op_id : OperationId) (w : Walked StoredOperation) : Api DB (Walked StoredOperation) :=
  if bool_decide (id_to_string op_id ∈ wk_seen w) then mret w
  else
    o ← in_store (fun d => read_op d op_id);
    mret (mkWalked ({[id_to_string op_id]} ∪ wk_seen w)
            (wk_out w ++ match o : option StoredOperation with Some op => [op] | None => [] end)).
Definition visit_block_ops (bid : BlockId) (w : Walked StoredOperation) : Api DB (Walked StoredOperation) :=
  o ← in_store (fun d => read_block d bid);
  match o : option StoredBlock with
  | None => mret w
  | Some block => api_fold visit_op (bl_operation_ids block) w
  end.
Definition visit_slot_ops (s : SlotState) : Walked StoredOperation -> Api DB (Walked StoredOperation) :=
  api_fold visit_block_ops (slot_block_ids s).
Definition recent_operations (cfg : Config) (q : RecentOpsQ) : Api DB (Envelope (list StoredOperation)) :=
  let limit := limit_of cfg (oq_page q) in
  let max_slots := Z.to_nat (clamp (default 256%Z (oq_max_slots q)) 1 4096) in
  a ← api_lift (after (oq_page q));
  r ← walk visit_slot_ops (fun w => limit <=? length (wk_out w)) max_slots 64 a (mkWalked ∅ []);
  mret (with_cursor r.2 (Envelope_new cfg (take limit (wk_out r.1)))).

Definition visit_block (bid : BlockId) (w : Walked StoredBlock) : Api DB (Walked StoredBlock) :=
  if bool_decide (id_to_string bid ∈ wk_seen w) then mret w
  else
    let seen := {[id_to_string bid]} ∪ wk_seen w in
    o ← in_store (fun d => read_block d bid);
    match o : option StoredBlock with
    | None => mret (mkWalked seen (wk_out w))
    | Some b => b ← api_st (resolve_block_status b); mret (mkWalked seen (wk_out w ++ [b]))
    end.
Definition visit_slot_blocks (s : SlotState) : Walked StoredBlock -> Api DB (Walked StoredBlock) :=
  api_fold visit_block (slot_block_ids s).
Definition blocks_recent (cfg : Config) (p : PageQ) : Api DB (Envelope (list StoredBlock)) :=
  let limit := limit_of cfg p in
  a ← api_lift (after p);
  r ← walk visit_slot_blocks (fun w => limit <=? length (wk_out w)) 4096 128 a (mkWalked ∅ []);
  mret (with_cursor r.2 (Envelope_new cfg (take limit (wk_out r.1)))).

(** Blocks by creator, their status repaired on the way. *)
Definition push_resolved (id : BlockId) (out : list StoredBlock) : Api DB (list StoredBlock) :=
  o ← in_store (fun d => read_block d id);
  match o : option StoredBlock with
  | None => mret out
  | Some b => b ← api_st (resolve_block_status b); mret (out ++ [b])
  end.
Definition blocks_by_addr (cfg : Config) (addr : string) (p : PageQ) : Api DB (Envelope (list StoredBlock)) :=
  a ← api_lift (or_bad (Address_parse addr));
  c ← api_lift (after p);
  page ← in_store (fun d => iter_blocks_by_creator d a c (limit_of cfg p));
  out ← api_fold push_resolved (pg_items page) [];
  mret (with_cursor (pg_next_cursor page) (Envelope_new cfg out)).
End walk.
Arguments mkWalked {A}. Arguments wk_seen {A}. Arguments wk_out {A}.

(** ** Charts *)
Definition wrap_i64 (z : Z) : Z := ((z + 2 ^ 63) mod 2 ^ 64 - 2 ^ 63)%Z.
Record ChartQ := mkChartQ { cq_window_secs : option Z; cq_bucket_secs : option Z }.
Definition chart_resolve (q : ChartQ) : Z * Z :=
  let window := clamp (default 3600%Z (cq_window_secs q)) 60 (7 * 24 * 3600) in
  let bucket := clamp (default (Z.max (window / 120) 10) (cq_bucket_secs q)) 10 window in
  (window, bucket).
(** A point's value, [cp_num / cp_den]; zero when the denominator is. *)
Record ChartPoint := mkPoint { cp_ts_ms : Z; cp_num : Z; cp_den : Z }.
Definition slot_ts_ms (slot : Slot) (genesis_ts_ms t0_ms thread_count : Z) : Z :=
  let tc := Z.max thread_count 1 in
  wrap_i64 (wrap_i64 (genesis_ts_ms + wrap_i64 (wrap_i64 (slot_period slot) * t0_ms)) +
            Z.quot (wrap_i64 (slot_thread slot * t0_ms)) tc).

Section charts.
Context `{Bs58, Base64, HexCrate, ProstStorage, RocksDB}.
Context (d : DB) (now : Z).
Definition chain_params : Z * Z * Z :=
  match ok (read_meta d) with
  | Some (Some m) => (mr_genesis_timestamp_ms m, mr_t0_ms m, mr_thread_count m)
  | _ => (0, 16000, 32)%Z
  end.
Definition fetch_recent_slots (cap : nat) : result Failure (list SlotState) :=
  p ← or_internal (iter_slots_desc d None cap); Ok (pg_items p).
Definition n_buckets (window bucket : Z) : nat := Z.to_nat (Z.max (Z.quot (window + bucket - 1) bucket) 1).
(** The bucket of a slot of the window; [None] outside it. *)
Definition bucket_of (window bucket : Z) (sl : SlotState) : option nat :=
  let '(gen_ms, t0_ms, tc) := chain_params in
  let ts := slot_ts_ms (ss_slot sl) gen_ms t0_ms tc in
  let from_ms := (now - window * 1000)%Z in
  if (ts <? from_ms)%Z || (now <? ts)%Z then None
  else
    let idx := Z.to_nat (Z.quot (ts - from_ms) (bucket * 1000)) in
    if idx <? n_buckets window bucket then Some idx else None.
(** [vec![zero; n_buckets]] updated by each slot in turn. *)
Definition tally {A} (window bucket : Z) (zero : A) (f : SlotState -> A -> A) (slots : list SlotState) : list A :=
  foldl (fun acc sl => match bucket_of window bucket sl with Some i => alter (f sl) i acc | None => acc end)
    (replicate (n_buckets window bucket) zero) slots.
Definition points {A} (window bucket : Z) (value : A -> Z * Z) (acc : list A) : list ChartPoint :=
  imap (fun i a => mkPoint (now - window * 1000 + Z.of_nat i * (bucket * 1000)) (value a).1 (value a).2) acc.
Definition chart {A} (cfg : Config) (q : ChartQ) (zero : A) (f : SlotState -> A -> A) (value : Z -> A -> Z * Z)
  : result Failure (Envelope (list ChartPoint)) :=
  let '(window, bucket) := chart_resolve q in
  slots ← fetch_recent_slots (Z.to_nat 20000);
  Ok (Envelope_new cfg (points window bucket (value bucket) (tally window bucket zero f slots))).
Definition count_ops (sl : SlotState) (c : Z) : Z := c + Z.of_nat (length (ss_executed_op_ids sl)).
Definition chart_throughput (cfg : Config) (q : ChartQ) :=
  chart cfg q 0%Z count_ops (fun bucket c => (c, bucket)).
Definition count_blocks (sl : SlotState) (bt : Z * Z) : Z * Z :=
  (bt.1 + Z.of_nat (length (slot_block_ids sl)), bt.2 + 1)%Z.
Definition chart_blocks_per_slot (cfg : Config) (q : ChartQ) :=
  chart cfg q (0, 0)%Z count_blocks (fun _ bt => bt).
Definition count_lag (sl : SlotState) (sc : Z * Z) : Z * Z :=
  let '(gen_ms, t0_ms, tc) := chain_params in
  if bool_decide (ss_status sl = SlotFinal) then
    (wrap_i64 (sc.1 + Z.max (wrap_i64 (ss_last_updated_ts_ms sl - slot_ts_ms (ss_slot sl) gen_ms t0_ms tc)) 0),
     sc.2 + 1)%Z
  else sc.
Definition chart_finality_lag (cfg : Config) (q : ChartQ) :=
  chart cfg q (0, 0)%Z count_lag (fun _ sc => (sc.1, sc.2 * 1000)%Z).
Definition creators_of (sl : SlotState) : list string :=
  omap (fun op_id => match ok (read_op d op_id) with
                     | Some (Some op) => Some (addr_to_string (op_creator op))
                     | _ => None
                     end) (ss_executed_op_ids sl).
Definition add_creators (sl : SlotState) (set : gset string) : gset string := list_to_set (creators_of sl) ∪ set.
Definition chart_active_addresses (cfg : Config) (q : ChartQ) :=
  chart cfg q (∅ : gset string) add_creators (fun _ set => (Z.of_nat (size set), 1)%Z).
End charts.

(** ** Exports *)
Class Writers := {
  csv_write : list (list string) -> result string bytes;
  origin_to_json : CoinOrigin -> option string;
  bundle_to_json : string -> StoredOperation -> list StoredTransfer -> list StoredScEvent -> result string bytes;
}.
Record ExportRangeQ := mkExportQ { xq_from_period : option Z; xq_to_period : option Z; xq_limit : option Z }.
Definition in_period_range (q : ExportRangeQ) (period : Z) : bool :=
  match xq_from_period q with Some fp => (fp <=? period)%Z | None => true end &&
  match xq_to_period q with Some tp => (period <=? tp)%Z | None => true end.
Definition bool_to_string (b : bool) : string := if b then "true" else "false".
(** [format!("{:?}", status).to_lowercase()]. *)
Definition status_word (s : SlotStatus) : string :=
  match s with SlotUnknown => "unknown" | SlotCandidate => "candidate" | SlotFinal => "final" end.
Definition transfers_header : list string :=
  ["period"; "thread"; "index"; "kind"; "amount_nmas_or_rolls"; "origin"; "from"; "to";
   "operation_id"; "async_msg_id"; "deferred_call_id"; "block_id"].
Definition slots_header : list string :=
  ["period"; "thread"; "status"; "is_miss"; "final_block_id"; "candidate_count"; "executed_ops"; "sc_events"].

Section exports.
Context `{Bs58, Base64, HexCrate, ProstStorage, RocksDB, Writers}.
Context (d : DB).
Fixpoint export_loop (fuel : nat) (a : Address) (cap : nat) (cursor : option bytes)
    (transfers : list StoredTransfer) : result Failure (list StoredTransfer) :=
  match fuel with
  | O => Ok transfers
  | S fuel' =>
      if length transfers <? cap then
        page ← or_internal (iter_transfers_by_addr d a cursor
                 (Nat.min (Z.to_nat 10000) (cap - length transfers)));
        match pg_items page with
        | [] => Ok transfers
        | items =>
            match pg_next_cursor page with
            | Some c => export_loop fuel' a cap (Some c) (transfers ++ items)
            | None => Ok (transfers ++ items)
            end
        end
      else Ok transfers
  end.
Definition transfer_record (t : StoredTransfer) : list string :=
  let '(kind, amt) := match tr_value t with
    | TVCoins n => ("coins", dec n) | TVRolls n => ("rolls", dec n)
    | TVDeferredCredits n => ("deferred_credits", dec n) | TVUnknown => ("unknown", "0")
    end in
  let quote := of_bytes [Byte.x22] in
  [dec (slot_period (tr_slot t)); dec (slot_thread (tr_slot t)); dec (tr_index_in_slot t); kind; amt;
   default (quote +:+ "unknown" +:+ quote) (origin_to_json (tr_origin t));
   default EmptyString (tr_from t); default EmptyString (tr_to t); default EmptyString (tr_operation_id t);
   default EmptyString (tr_async_msg_id t); default EmptyString (tr_deferred_call_id t);
   default EmptyString (tr_block_id t)].
Definition write_csv (records : list (list string)) : result Failure bytes :=
  map_err (fun e => Rejected (Internal ("csv flush: " +:+ e))) (csv_write records).
Definition export_addr_transfers_csv (addr : string) (q : ExportRangeQ) : result Failure bytes :=
  a ← or_bad (Address_parse addr);
  let cap := Z.to_nat (Z.min (default 100000%Z (xq_limit q)) 500000) in
  transfers ← export_loop cap a cap None [];
  write_csv (transfers_header ::
    (transfer_record <$> filter (fun t => in_period_range q (slot_period (tr_slot t)) = true) transfers)).
Definition slot_record (sl : SlotState) : list string :=
  [dec (slot_period (ss_slot sl)); dec (slot_thread (ss_slot sl)); status_word (ss_status sl);
   bool_to_string (ss_is_miss sl); default EmptyString (id_to_string <$> ss_final_block_id sl);
   dec (Z.of_nat (length (ss_candidate_block_ids sl))); dec (Z.of_nat (length (ss_executed_op_ids sl)));
   dec (ss_sc_event_count sl)].
Definition export_slots_csv (q : ExportRangeQ) : result Failure bytes :=
  slots ← fetch_recent_slots d (Z.to_nat (Z.min (default 10000%Z (xq_limit q)) 100000));
  write_csv (slots_header ::
    (slot_record <$> filter (fun sl => in_period_range q (slot_period (ss_slot sl)) = true) slots)).
Definition export_op_json (cfg : Config) (id : string) : result Failure bytes :=
  oid ← or_bad (OperationId_parse (trim_end_matches ".json" id));
  o ← or_internal (read_op d oid);
  op ← or_not_found "operation" o;
  transfers ← or_internal (iter_transfers_by_op d oid None (Z.to_nat 10000));
  events ← or_internal (iter_sc_events_by_op d oid None (Z.to_nat 10000));
  map_err (fun e => Rejected (Internal ("json: " +:+ e)))
    (bundle_to_json (network_of cfg) op (pg_items transfers) (pg_items events)).
End exports.
