(* ===== verification/RestSearch.v ===== *)
(** * Search and node queries of the REST API (src/massa-indexer/src/rest.rs)

    How a query is classified and answered, name resolution, and the proxied
    node queries. These handlers read one store and count their interactions with
    the node. *)

From S2P Require Import Prelude Text Ids Keys Model Proto Codec Store Db.
From S2P Require Import NodeMsg World Reconcile Arbiter Patch Ingest Grpc Ddb Config Rest.

Inductive QueryKind := QkBlock | QkOperation | QkAddress | QkSlot (p t : Z) | QkMnsName (name : string) | QkUnknown.
#[export] Instance QueryKind_eq_dec : EqDecision QueryKind.
Proof. solve_decision. Defined.

(** Letters, digits, [-] and [_]; one letter at least. A byte of a multi-byte
    character is none of these. *)
Definition label_byte (b : byte) : bool :=
  is_ascii_alphabetic b || is_ascii_digit b || bool_decide (b = Byte.x2d) || bool_decide (b = Byte.x5f).
Definition is_dns_friendly (q : string) : bool :=
  let b := as_bytes q in
  if str_is_empty q || (64 <? length b) then false
  else forallb label_byte b && existsb is_ascii_alphabetic b.

(** The separators [, / space :], in the order they are tried. *)
Definition separators : list byte := [Byte.x2c; Byte.x2f; Byte.x20; Byte.x3a].
Definition slot_of (q : string) (sep : byte) : option (Z * Z) :=
  '(a, b) ← split_once sep q;
  p ← parse_u64 (trim a);
  t ← parse_u8 (trim b);
  Some (p, t).
Fixpoint slot_query (q : string) (seps : list byte) : option (Z * Z) :=
  match seps with
  | [] => None
  | sep :: seps' => match slot_of q sep with Some pt => Some pt | None => slot_query q seps' end
  end.
Definition classify (q : string) : QueryKind * string :=
  match slot_query q separators with
  | Some (p, t) => (QkSlot p t, EmptyString)
  | None =>
      if str_starts_with q "B" then (QkBlock, q)
      else if str_starts_with q "O" then (QkOperation, q)
      else if str_starts_with q "AU" || str_starts_with q "AS" then (QkAddress, q)
      else
        match n ← trim <$> strip_suffix ".massa" q; if str_is_empty n then None else Some n with
        | Some name => (QkMnsName name, EmptyString)
        | None => if is_dns_friendly q then (QkMnsName q, EmptyString) else (QkUnknown, q)
        end
  end.

Inductive SearchHit :=
| HitBlock (hit : option StoredBlock)
| HitOperation (hit : option StoredOperation)
| HitAddress (address : Address) (mns_name : option string) (blocks : list BlockId) (ops : list OperationId)
| HitSlot (period thread : Z) (hit : option SlotState).

Section search.
Context `{Bs58, Base64, HexCrate, ProstStorage, RocksDB, NodeRpc}.
Context (cfg : Config) (d : DB).
Definition node_url : string := nd_grpc_url (cfg_node cfg).
(** The outcome of a node query, its failure kept as a value. *)
Definition outcome {A} (m : ST nat A) : Api nat (result Error A) := fun n => let '(r, n') := m n in (Ok r, n').
Definition ending {A} (e : ApiErr) : Api nat A := api_lift (Err (Rejected e)).
Definition address_hit (a : Address) (mns_name : option string) : result Failure SearchHit :=
  blocks ← or_internal (iter_blocks_by_creator d a None 5);
  ops ← or_internal (iter_ops_by_creator d a None 5);
  Ok (HitAddress a mns_name (pg_items blocks) (pg_items ops)).
Definition search_name (name : string) : Api nat SearchHit :=
  r ← outcome (mns_resolve node_url name);
  match r with
  | Ok (Some resolved) =>
      match Address_parse resolved with
      | Ok a => api_lift (address_hit a (Some (name +:+ ".massa")))
      | Err e => ending (Bad ("MNS '" +:+ name +:+ ".massa' resolved to a non-address value: " +:+ e))
      end
  | Ok None => ending (NotFound ("MNS '" +:+ name +:+ ".massa' not registered"))
  | Err e => ending (Internal ("MNS lookup for '" +:+ name +:+ ".massa' failed: " +:+ Error_display e))
  end.
Definition search (q0 : string) : Api nat (Envelope SearchHit) :=
  let q := trim q0 in
  let '(kind, value) := classify q in
  body ← match kind with
         | QkBlock =>
             api_lift (id ← or_bad (BlockId_parse value);
                       row ← or_internal (read_block d id); Ok (HitBlock row))
         | QkOperation =>
             api_lift (id ← or_bad (OperationId_parse value);
                       row ← or_internal (read_op d id); Ok (HitOperation row))
         | QkAddress => api_lift (a ← or_bad (Address_parse value); address_hit a None)
         | QkSlot p t => api_lift (row ← or_internal (read_slot d p t); Ok (HitSlot p t row))
         | QkMnsName name => search_name name
         | QkUnknown => ending (Bad ("could not classify query: " +:+ q))
         end;
  mret (Envelope_new cfg body).
Definition mns_resolve_handler (raw : string) : Api nat (Envelope (string * Address)) :=
  let raw := trim raw in
  let name := trim (default raw (strip_suffix ".massa" raw)) in
  if str_is_empty name then ending (Bad "name cannot be empty")
  else
    r ← outcome (mns_resolve node_url name);
    match r with
    | Ok (Some resolved) =>
        match Address_parse resolved with
        | Ok a => mret (Envelope_new cfg (name +:+ ".massa", a))
        | Err e => ending (Internal ("MNS contract returned non-address value '" +:+ resolved +:+ "': " +:+ e))
        end
    | Ok None => ending (NotFound ("MNS '" +:+ name +:+ ".massa' not registered"))
    | Err e => ending (Internal ("MNS lookup failed: " +:+ Error_display e))
    end.
Definition addr_node_state (addr : string) : Api nat (Envelope AddressNodeState) :=
  api_lift (or_bad (Address_parse addr)) ;;
  r ← outcome (fetch_address_state node_url addr);
  match r with
  | Ok st => mret (Envelope_new cfg st)
  | Err e => ending (Internal ("node query failed: " +:+ Error_display e))
  end.
(** The file name and the bytes served. *)
Definition addr_bytecode (addr : string) : Api nat (string * bytes) :=
  parsed ← api_lift (or_bad (Address_parse addr));
  if negb (str_starts_with addr "AS")
  then ending (NotFound (addr +:+ " is not a smart-contract address (AS" +:+ of_bytes [Byte.xe2; Byte.x80; Byte.xa6] +:+ ")"))
  else
    r ← outcome (fetch_address_bytecode node_url addr);
    match r with
    | Ok (Some b) => mret (addr_to_string parsed +:+ ".wasm", b)
    | Ok None => ending (NotFound ("no bytecode at address " +:+ addr_to_string parsed))
    | Err e => ending (Internal ("node query failed: " +:+ Error_display e))
    end.
End search.

(** ** Health *)
(** Status code, reasons and last FINAL slot of [ready]. *)
Definition ready `{Bs58, Base64, HexCrate, ProstStorage, RocksDB} (d : DB) : Z * list string * option Slot :=
  match ok (read_last_final_slot d) with
  | Some (Some slot) => (200%Z, [], Some slot)
  | _ => (503%Z, ["no final slot yet"], None)
  end.
Definition health_status (health : StreamKind -> StreamHealth) : string :=
  if streams_degraded health then "degraded" else "ok".
(** [metrics_layer] of the router: requests answered, requests failed. *)
Definition count_response (status : Z) (counters : Z * Z) : Z * Z :=
  if ((200 <=? status) && (status <? 400))%Z then (counters.1 + 1, counters.2)%Z else (counters.1, counters.2 + 1)%Z.

Example classify_slot_ex : classify "42, 5" = (QkSlot 42 5, EmptyString).
Proof. by vm_compute. Qed.
Example classify_name_ex : classify "foo-bar.massa" = (QkMnsName "foo-bar", EmptyString).
Proof. by vm_compute. Qed.
