(* ===== verification/Metrics.v ===== *)
(** * Metrics and status routes

    The counters of metrics.rs and the Prometheus text rendered from them, and the
    routes of rest.rs that report how the indexer is doing. The handlers that
    advance the counters are modelled without them. Printed uptimes and RocksDB's
    row estimates are arguments. A string is its UTF-8 bytes: the characters
    escaped in a label are ASCII, so escaping goes byte by byte. *)

From S2P Require Import Prelude Text Ids Keys Model Proto Codec Store Db.
From S2P Require Import NodeMsg World Reconcile Arbiter Patch Ingest Grpc Registry PeerService.
From S2P Require Import Client Backfill Ddb Config Rest RestSearch.

Record Metrics := mkMetrics {
  ingest_blocks_total : Z;
  ingest_exec_outputs_total : Z;
  ingest_transfers_total : Z;
  ingest_peer_patches_total : Z;
  ingest_legacy_patches_total : Z;
  ingest_events_dropped_total : Z;
  slots_finalized_total : Z;
  slots_missed_total : Z;
  rest_requests_total : Z;
  rest_errors_total : Z;
  sse_connections_open : Z;
  sse_connections_total : Z;
  backfill_rpcs_total : Z;
  backfill_slots_filled_total : Z;
  backfill_passes_total : Z;
  backfill_range_streams_total : Z;
  backfill_stale_candidates_total : Z;
  backfill_suspicious_misses_total : Z;
  backfill_recent_incomplete_total : Z;
  backfill_recheck_total : Z;
  peer_promoted_final_total : Z;
  peer_divergence_repaired_total : Z;
  peer_divergence_kept_local_total : Z;
  repair_slots_scanned_total : Z;
  repair_transfers_reconstructed_total : Z;
  repair_pull_slots_applied_total : Z;
  legacy_ddb_rpcs_total : Z;
  legacy_ddb_slots_filled_total : Z;
  legacy_ddb_errors_total : Z;
  stream_health : StreamKind -> StreamHealth;
}.
Definition Metrics_default : Metrics :=
  mkMetrics 0 0 0 0 0 0 0 0 0 0 0 0 0 0 0 0 0 0 0 0 0 0 0 0 0 0 0 0 0
    (fun _ => StreamHealth_new).
Definition StreamKind_ALL : list StreamKind := [KBlocks; KExec; KTransfers].
Definition kind_label (k : StreamKind) : string :=
  match k with KBlocks => "blocks" | KExec => "exec" | KTransfers => "transfers" end.
Definition StreamState_from_u8 (v : Z) : StreamState :=
  if Z.eqb v 1 then StStreaming else if Z.eqb v 2 then StReconnecting
  else if Z.eqb v 3 then StUnimplemented else StIdle.
(** [state as u8]. *)
Definition state_code (s : StreamState) : Z :=
  match s with StIdle => 0 | StStreaming => 1 | StReconnecting => 2 | StUnimplemented => 3 end.
Definition state_label (s : StreamState) : string :=
  match s with
  | StIdle => "idle" | StStreaming => "streaming" | StReconnecting => "reconnecting" | StUnimplemented => "unimplemented"
  end.

(** What a slot handed to the peers counts as. *)
Definition count (r : FetchReason) (m : Metrics) : Metrics :=
  match r with
  | Gap => m
  | StaleCandidate => m <| backfill_stale_candidates_total := wrapping_add_u64 (backfill_stale_candidates_total m) 1 |>
  | SuspiciousMiss => m <| backfill_suspicious_misses_total := wrapping_add_u64 (backfill_suspicious_misses_total m) 1 |>
  | RecentIncomplete => m <| backfill_recent_incomplete_total := wrapping_add_u64 (backfill_recent_incomplete_total m) 1 |>
  | Recheck => m <| backfill_recheck_total := wrapping_add_u64 (backfill_recheck_total m) 1 |>
  end.

(** ** The text exposition: each function returns what it appends *)
Definition LF : byte := Byte.x0a.
Definition line_end : string := of_bytes [LF].
Definition push_help (name help : string) : string := "# HELP " +:+ name +:+ " " +:+ help +:+ line_end.
Definition push_type (name kind : string) : string := "# TYPE " +:+ name +:+ " " +:+ kind +:+ line_end.
Definition counter (name help : string) (v : Z) : string :=
  push_help name help +:+ push_type name "counter" +:+ name +:+ " " +:+ dec v +:+ line_end.
Definition gauge (name help : string) (v : Z) : string :=
  push_help name help +:+ push_type name "gauge" +:+ name +:+ " " +:+ dec v +:+ line_end.
Definition escape_byte (x : byte) : bytes :=
  if bool_decide (x = Byte.x5c) then [Byte.x5c; Byte.x5c]
  else if bool_decide (x = Byte.x22) then [Byte.x5c; Byte.x22]
  else if bool_decide (x = LF) then [Byte.x5c; Byte.x6e]
  else [x].
Definition escape_label (s : string) : string := of_bytes (as_bytes s ≫= escape_byte).
Definition quote_mark : string := of_bytes [Byte.x22].
Definition label_value (name value : string) : string := name +:+ "=" +:+ quote_mark +:+ value +:+ quote_mark.
Definition bool_text (b : bool) : string := if b then "true" else "false".
(** An [i64] in decimal. *)
Definition dec_i64 (z : Z) : string := if (z <? 0)%Z then "-" +:+ dec (- z) else dec z.
Definition state_sample (m : Metrics) (k : StreamKind) : string :=
  let h := stream_health m k in
  "massa_indexer_stream_state{" +:+ label_value "stream" (kind_label k) +:+ "," +:+
  label_value "enabled" (bool_text (sh_enabled h)) +:+ "} " +:+ dec (state_code (sh_state h)) +:+ line_end.
Definition last_event_sample (m : Metrics) (k : StreamKind) : string :=
  "massa_indexer_stream_last_event_ms{" +:+ label_value "stream" (kind_label k) +:+ "} " +:+
  dec_i64 (sh_last_event_ms (stream_health m k)) +:+ line_end.
Definition str_concat (l : list string) : string := foldr String.append "" l.
(** [uptime]: the seconds since the start, printed with three decimals. *)
Definition render (m : Metrics) (uptime build_version network : string) : string :=
  str_concat
    ([push_help "massa_indexer_build_info" "Static build metadata.";
      push_type "massa_indexer_build_info" "gauge";
      "massa_indexer_build_info{" +:+ label_value "version" (escape_label build_version) +:+ "," +:+
        label_value "network" (escape_label network) +:+ "} 1" +:+ line_end;
      push_help "massa_indexer_uptime_seconds" "Seconds since indexer start.";
      push_type "massa_indexer_uptime_seconds" "gauge";
      "massa_indexer_uptime_seconds " +:+ uptime +:+ line_end;
      counter "massa_indexer_ingest_blocks_total" "Blocks applied by the ingest worker." (ingest_blocks_total m);
      counter "massa_indexer_ingest_exec_outputs_total" "Slot execution outputs applied by the ingest worker." (ingest_exec_outputs_total m);
      counter "massa_indexer_ingest_transfers_total" "Transfer batches applied by the ingest worker." (ingest_transfers_total m);
      counter "massa_indexer_ingest_peer_patches_total" "Peer backfill patches applied." (ingest_peer_patches_total m);
      counter "massa_indexer_ingest_legacy_patches_total" "Legacy-DDB fallback patches applied." (ingest_legacy_patches_total m);
      counter "massa_indexer_ingest_events_dropped_total" "Ingest events rejected before reaching the write path." (ingest_events_dropped_total m);
      counter "massa_indexer_slots_finalized_total" "Slots observed transitioning to FINAL." (slots_finalized_total m);
      counter "massa_indexer_slots_missed_total" "FINAL slots with no produced block." (slots_missed_total m);
      counter "massa_indexer_rest_requests_total" "Successful REST requests served." (rest_requests_total m);
      counter "massa_indexer_rest_errors_total" "REST requests answered with an error status." (rest_errors_total m);
      gauge "massa_indexer_sse_connections_open" "Currently-open SSE subscribers." (sse_connections_open m);
      counter "massa_indexer_sse_connections_total" "SSE subscribers accepted since boot." (sse_connections_total m);
      counter "massa_indexer_backfill_rpcs_total" "Peer RPC calls issued by the backfill worker." (backfill_rpcs_total m);
      counter "massa_indexer_backfill_slots_filled_total" "Slots patched from a peer response." (backfill_slots_filled_total m);
      counter "massa_indexer_backfill_passes_total" "Backfill scan passes completed." (backfill_passes_total m);
      counter "massa_indexer_backfill_range_streams_total" "Bulk StreamFinalSlots range calls issued by the backfill worker." (backfill_range_streams_total m);
      counter "massa_indexer_backfill_stale_candidates_total" "Stale Candidate rows (restart holes) handed to peers for a FINAL verdict." (backfill_stale_candidates_total m);
      counter "massa_indexer_backfill_suspicious_misses_total" "FINAL miss rows with a seen block body re-offered to peers." (backfill_suspicious_misses_total m);
      counter "massa_indexer_backfill_recent_incomplete_total" "Recent FINAL slots re-asked for missing exec/transfers parts." (backfill_recent_incomplete_total m);
      counter "massa_indexer_backfill_recheck_total" "Slots re-queried because of an operator recheck range." (backfill_recheck_total m);
      counter "massa_indexer_peer_promoted_final_total" "Local non-FINAL slot rows promoted to FINAL by a peer patch." (peer_promoted_final_total m);
      counter "massa_indexer_peer_divergence_repaired_total" "Divergent FINAL verdicts repaired using chain linkage." (peer_divergence_repaired_total m);
      counter "massa_indexer_peer_divergence_kept_local_total" "Divergent FINAL verdicts where the local view was kept." (peer_divergence_kept_local_total m);
      counter "massa_indexer_repair_slots_scanned_total" "Slots examined by one-shot repair tasks." (repair_slots_scanned_total m);
      counter "massa_indexer_repair_transfers_reconstructed_total" "Transfer rows reconstructed locally from executed operations." (repair_transfers_reconstructed_total m);
      counter "massa_indexer_repair_pull_slots_applied_total" "Slots whose missing parts were pulled from peers by a repair range." (repair_pull_slots_applied_total m);
      push_help "massa_indexer_stream_state" "Node stream state: 0 idle, 1 streaming, 2 reconnecting, 3 unimplemented.";
      push_type "massa_indexer_stream_state" "gauge"] ++
     (state_sample m <$> StreamKind_ALL) ++
     [push_help "massa_indexer_stream_last_event_ms" "Wall-clock millis of the last frame received per node stream (0 = never).";
      push_type "massa_indexer_stream_last_event_ms" "gauge"] ++
     (last_event_sample m <$> StreamKind_ALL) ++
     [counter "massa_indexer_legacy_ddb_rpcs_total" "DDB queries issued by the legacy fallback." (legacy_ddb_rpcs_total m);
      counter "massa_indexer_legacy_ddb_slots_filled_total" "Slots reconstructed from legacy DDB." (legacy_ddb_slots_filled_total m);
      counter "massa_indexer_legacy_ddb_errors_total" "Errors raised while consulting legacy DDB." (legacy_ddb_errors_total m)]).

(** ** The routes *)
Record StreamReport := mkStreamReport { sp_enabled : bool; sp_state : string; sp_last_event_ms : Z }.
Record HealthBody := mkHealthBody {
  hb_status : string; hb_network : string; hb_uptime_secs : Z; hb_build_version : string;
  hb_streams : list (string * StreamReport) }.
Definition health (cfg : Config) (m : Metrics) (uptime_secs : Z) (build_version : string) : HealthBody :=
  mkHealthBody (health_status (stream_health m)) (gn_network (cfg_general cfg)) uptime_secs build_version
    ((fun k => let h := stream_health m k in
       (kind_label k, mkStreamReport (sh_enabled h) (state_label (sh_state h)) (sh_last_event_ms h))) <$> StreamKind_ALL).

(** [estimate]: RocksDB's [estimate-num-keys] of a column family. *)
Definition approx_row_counts (estimate : Cf -> option Z) : list (string * Z) :=
  (fun c => (cf_name c, default 0%Z (estimate c))) <$> ALL_CFS.
Record StatusBody := mkStatus {
  sb_network : string; sb_build_version : string; sb_uptime_secs : Z; sb_last_final_slot : option Slot;
  sb_last_candidate_slot : option Slot; sb_row_counts : list (string * Z); sb_node_grpc_url : string;
  sb_meta : option MetaRow }.
Definition status `{Bs58, Base64, HexCrate, ProstStorage, RocksDB} (cfg : Config) (d : DB) (estimate : Cf -> option Z)
    (uptime_secs : Z) (build_version : string) : result Failure (Envelope StatusBody) :=
  last_final ← or_internal (read_last_final_slot d);
  last_candidate ← or_internal (read_last_candidate_slot d);
  meta ← or_internal (read_meta d);
  Ok (Envelope_new cfg (mkStatus (gn_network (cfg_general cfg)) build_version uptime_secs last_final last_candidate
    (approx_row_counts estimate) (nd_grpc_url (cfg_node cfg)) meta)).

Record BackfillBody := mkBackfill {
  bb_enabled : bool; bb_peers_configured : Z; bb_scan_interval_ms : Z; bb_total_slots_estimate : Z;
  bb_passes_total : Z; bb_rpcs_total : Z; bb_slots_filled_total : Z; bb_stale_candidates_total : Z;
  bb_suspicious_misses_total : Z; bb_recent_incomplete_total : Z; bb_recheck_total : Z;
  bb_peer_promoted_final_total : Z; bb_divergence_repaired_total : Z; bb_divergence_kept_local_total : Z;
  bb_repair_slots_scanned_total : Z; bb_repair_transfers_reconstructed_total : Z; bb_repair_pull_slots_applied_total : Z }.
Definition total_slots_estimate (estimate : Cf -> option Z) : Z :=
  default 0%Z (snd <$> head (filter (fun kv => kv.1 = "cf_slot") (approx_row_counts estimate))).
Definition backfill_status (cfg : Config) (m : Metrics) (estimate : Cf -> option Z) : Envelope BackfillBody :=
  let peers_configured := Z.of_nat (size (pr_peers (cfg_peer cfg))) in
  Envelope_new cfg (mkBackfill (pr_enabled (cfg_peer cfg) && (0 <? peers_configured)%Z) peers_configured
    (pr_scan_interval_ms (cfg_peer cfg)) (total_slots_estimate estimate)
    (backfill_passes_total m) (backfill_rpcs_total m) (backfill_slots_filled_total m) (backfill_stale_candidates_total m)
    (backfill_suspicious_misses_total m) (backfill_recent_incomplete_total m) (backfill_recheck_total m)
    (peer_promoted_final_total m) (peer_divergence_repaired_total m) (peer_divergence_kept_local_total m)
    (repair_slots_scanned_total m) (repair_transfers_reconstructed_total m) (repair_pull_slots_applied_total m)).
(** Status, content type and body. *)
Definition metrics_scrape (cfg : Config) (m : Metrics) (uptime build_version : string) : Z * string * string :=
  (200%Z, "text/plain; version=0.0.4; charset=utf-8", render m uptime build_version (gn_network (cfg_general cfg))).

(** ** Labels *)
(** Reading an escaped label back. *)
Fixpoint unescape (b : bytes) : bytes :=
  match b with
  | [] => []
  | x :: l =>
      if bool_decide (x = Byte.x5c) then
        match l with
        | [] => b
        | y :: b' => (if bool_decide (y = Byte.x6e) then LF else y) :: unescape b'
        end
      else x :: unescape l
  end.
Lemma unescape_plain x b : x <> Byte.x5c -> unescape (x :: b) = x :: unescape b.
Proof. intros Hx. cbn [unescape]. by rewrite bool_decide_eq_false_2. Qed.
Lemma escape_byte_cases x :
  (exists y, escape_byte x = [Byte.x5c; y] /\ y <> LF /\ (if bool_decide (y = Byte.x6e) then LF else y) = x) \/
  (escape_byte x = [x] /\ x <> Byte.x5c /\ x <> LF).
Proof.
  unfold escape_byte. destruct (bool_decide_reflect (x = Byte.x5c)) as [->|?]; [left; by eexists|].
  destruct (bool_decide_reflect (x = Byte.x22)) as [->|?]; [left; by eexists|].
  destruct (bool_decide_reflect (x = LF)) as [->|?]; [left; by eexists|]. by right.
Qed.
(** No text can end its line early, or be taken for another. *)
Lemma escape_label_safe s :
  LF ∉ as_bytes (escape_label s) /\ unescape (as_bytes (escape_label s)) = as_bytes s.
Proof.
  unfold escape_label. rewrite as_of_bytes. induction (as_bytes s) as [|x b [IHn IHu]].
  { split; [apply not_elem_of_nil|done]. }
  rewrite bind_cons. destruct (escape_byte_cases x) as [(y & -> & Hy & Ex)|(-> & Hx & Hl)]; cbn [app].
  - rewrite !not_elem_of_cons. split; [done|]. cbn [unescape]. rewrite bool_decide_eq_true_2 by done. by rewrite IHu, Ex.
  - rewrite not_elem_of_cons. split; [done|]. by rewrite unescape_plain, IHu.
Qed.
(** The estimate shown is the one of the slot rows. *)
Lemma total_slots_of_slots estimate : total_slots_estimate estimate = default 0%Z (estimate CF_SLOT).
Proof. reflexivity. Qed.
