(* ===== verification/RestProps.v ===== *)
(** * What the REST handlers guarantee

    Limits stay within their bounds; a cursor survives the trip through the
    client; merged transfers are the newest of the union; the lists of a block are
    paged exactly, or the request panics; the buckets of a chart cut its window
    into consecutive intervals, and each adds up the slots of its own. *)

From stdpp Require Import gmap sorting.
From S2P Require Import Prelude Ids Keys Model Proto Codec CodecLemmas Store Text Db DbSlotRows.
From S2P Require Import DbProps NodeMsg World Reconcile Arbiter Patch Ingest Grpc GrpcProps Ddb.
From S2P Require Import Config Rest RestWalk.

(** ** Sorting *)
Section sorting.
Context {A : Type} (le : A -> A -> bool).
Context (le_total : forall x y, le x y = false -> le y x = true).
Context (le_trans : forall x y z, le x y = true -> le y z = true -> le x z = true).
Lemma insert_by_perm x l : insert_by le x l ≡ₚ x :: l.
Proof.
  induction l as [|y l IH]; cbn [insert_by]; [done|]. destruct (le x y); [done|].
  rewrite IH. apply Permutation_swap.
Qed.
Lemma sort_by_perm l : sort_by le l ≡ₚ l.
Proof.
  induction l as [|x l IH]; [done|]. cbn [sort_by foldr]. rewrite insert_by_perm. by apply Permutation_cons.
Qed.
Lemma insert_by_sorted x l :
  StronglySorted (fun a b => le a b = true) l -> StronglySorted (fun a b => le a b = true) (insert_by le x l).
Proof.
  induction 1 as [|y l Hs IH Hy]; cbn [insert_by]; [apply SSorted_cons; [apply SSorted_nil|apply Forall_nil_2]|].
  destruct (le x y) eqn:E.
  - apply SSorted_cons; [by apply SSorted_cons|]. constructor; [done|].
    eapply Forall_impl; [exact Hy|]. cbn. intros z. by apply le_trans.
  - apply SSorted_cons; [done|]. rewrite insert_by_perm. constructor; [by apply le_total|done].
Qed.
Lemma sort_by_sorted l : StronglySorted (fun a b => le a b = true) (sort_by le l).
Proof. induction l as [|x l IH]; [apply SSorted_nil|]. by apply insert_by_sorted. Qed.
End sorting.

(** ** The union of two lists of transfers *)
(** The order on positions, newest first, and strictly so. *)
Definition pos_newer (x y : StoredTransfer) : Prop :=
  let '(p, t, i) := transfer_pos x in let '(p', t', i') := transfer_pos y in
  (p' < p \/ p = p' /\ (t' < t \/ t = t' /\ i' < i))%Z.
Lemma newest_first_true x y : newest_first x y = true <-> pos_newer x y \/ transfer_pos x = transfer_pos y.
Proof.
  unfold newest_first, pos_newer. destruct (transfer_pos x) as [[p t] i], (transfer_pos y) as [[p' t'] i'].
  split.
  - rewrite !orb_true_iff, !andb_true_iff, !orb_true_iff, !andb_true_iff, !Z.ltb_lt, !Z.eqb_eq, Z.leb_le.
    intros Hc. destruct (decide (i = i')) as [->|Hi]; [|lia].
    destruct Hc as [Hp|[-> [Ht|[-> _]]]]; [lia..|by right].
  - rewrite !orb_true_iff, !andb_true_iff, !orb_true_iff, !andb_true_iff, !Z.ltb_lt, !Z.eqb_eq, Z.leb_le.
    intros [Hc|[= -> -> ->]]; lia.
Qed.
Lemma newest_first_total x y : newest_first x y = false -> newest_first y x = true.
Proof.
  intros Hf. apply newest_first_true. assert (~ (newest_first x y = true)) as Hn by (by rewrite Hf).
  rewrite newest_first_true in Hn. revert Hn. unfold pos_newer.
  destruct (transfer_pos x) as [[p t] i], (transfer_pos y) as [[p' t'] i']. intros Hn.
  destruct (decide ((p, t, i) = (p', t', i'))) as [<-|Hne]; [by right|]. left.
  destruct (Z.lt_trichotomy p p') as [?|[->|?]]; [lia| |lia].
  destruct (Z.lt_trichotomy t t') as [?|[->|?]]; [lia| |lia].
  destruct (Z.lt_trichotomy i i') as [?|[->|?]]; [lia|done|lia].
Qed.
Lemma newest_first_trans x y z : newest_first x y = true -> newest_first y z = true -> newest_first x z = true.
Proof.
  rewrite !newest_first_true. unfold pos_newer.
  destruct (transfer_pos x) as [[p t] i], (transfer_pos y) as [[p' t'] i'], (transfer_pos z) as [[p'' t''] i''].
  intros [H1|[= -> -> ->]] [H2|[= -> -> ->]]; [left; lia|by left..|by right].
Qed.

(** The map keeps the first transfer of each position. *)
Definition first_at (l : list StoredTransfer) (t : StoredTransfer) : Prop :=
  exists l1 l2, l = l1 ++ t :: l2 /\ transfer_pos t ∉ transfer_pos <$> l1.
Lemma or_insert_all l : forall m t,
  foldl or_insert m l !! transfer_pos t = Some t <->
  m !! transfer_pos t = Some t \/ m !! transfer_pos t = None /\ first_at l t.
Proof.
  induction l as [|x l IH]; intros m t; cbn [foldl].
  { split; [by left|]. intros [?|[_ (l1 & ? & E & _)]]; [done|by destruct l1]. }
  rewrite IH. unfold or_insert. destruct (m !! transfer_pos x) as [y|] eqn:Ex.
  - split; (intros [Hm|[Hm Hf]]; [by left|right]); (split; [done|]); destruct Hf as (l1 & l2 & E & Hn).
    + exists (x :: l1), l2. rewrite E. split; [done|]. rewrite fmap_cons, not_elem_of_cons. split; [congruence|done].
    + destruct l1 as [|x' l1]; injection E as -> ->; [congruence|].
      exists l1, l2. rewrite fmap_cons, not_elem_of_cons in Hn. naive_solver.
  - destruct (decide (transfer_pos t = transfer_pos x)) as [Et|Hne].
    + rewrite Et, lookup_insert_eq, Ex. split.
      * intros [[= ->]|[? _]]; [|done]. right. split; [done|]. exists [], l. split; [done|apply not_elem_of_nil].
      * intros [?|[_ (l1 & l2 & E & Hn)]]; [done|]. left. destruct l1 as [|x' l1]; injection E as -> ->; [done|].
        rewrite fmap_cons, not_elem_of_cons in Hn. naive_solver.
    + rewrite lookup_insert_ne by done. split; (intros [Hm|[Hm (l1 & l2 & E & Hn)]]; [by left|right]);
        (split; [done|]).
      * exists (x :: l1), l2. rewrite E. split; [done|]. rewrite fmap_cons, not_elem_of_cons. done.
      * destruct l1 as [|x' l1]; injection E as -> ->; [done|].
        exists l1, l2. rewrite fmap_cons, not_elem_of_cons in Hn. naive_solver.
Qed.
Lemma or_insert_keys l : forall m,
  (forall k t, m !! k = Some t -> transfer_pos t = k) ->
  forall k t, foldl or_insert m l !! k = Some t -> transfer_pos t = k.
Proof.
  induction l as [|x l IH]; intros m Hm; [done|]. cbn [foldl]. apply IH. unfold or_insert.
  destruct (m !! transfer_pos x); [done|]. intros k t. rewrite lookup_insert. case_decide; [by intros [= ->]|apply Hm].
Qed.
Definition union_values (l : list StoredTransfer) : list StoredTransfer := (map_to_list (foldl or_insert ∅ l)).*2.
Lemma union_values_members l t : t ∈ union_values l <-> first_at l t.
Proof.
  pose proof (or_insert_all l ∅ t) as Hall. rewrite lookup_empty in Hall.
  unfold union_values. rewrite list_elem_of_fmap. split.
  - intros ([k t'] & -> & Hk%elem_of_map_to_list). cbn in *.
    pose proof (or_insert_keys l ∅ (fun _ _ E => match lookup_empty_Some _ _ E with end) _ _ Hk) as <-.
    apply Hall in Hk as [?|[_ ?]]; done.
  - intros Hf. exists (transfer_pos t, t). split; [done|]. apply elem_of_map_to_list, Hall. by right.
Qed.
Lemma union_values_pos l : NoDup (transfer_pos <$> union_values l).
Proof.
  unfold union_values. rewrite <-list_fmap_compose.
  replace ((transfer_pos ∘ snd) <$> map_to_list (foldl or_insert ∅ l)) with (map_to_list (foldl or_insert ∅ l)).*1.
  - apply NoDup_fst_map_to_list.
  - apply list_fmap_ext. intros i [k t] Hi%list_elem_of_lookup_2%elem_of_map_to_list. cbn. symmetry.
    by eapply (or_insert_keys l ∅ (fun _ _ E => match lookup_empty_Some _ _ E with end)).
Qed.
Lemma first_exists l t : t ∈ l -> exists t', first_at l t' /\ transfer_pos t' = transfer_pos t.
Proof.
  induction l as [|x l IH]; [by intros ?%not_elem_of_nil|]. intros Hin.
  destruct (decide (transfer_pos x = transfer_pos t)) as [E|Hne].
  { exists x. split; [|done]. exists [], l. split; [done|apply not_elem_of_nil]. }
  apply elem_of_cons in Hin as [->|Hin]; [done|].
  destruct (IH Hin) as (t' & (l1 & l2 & -> & Hn) & Et). exists t'. split; [|done].
  exists (x :: l1), l2. rewrite fmap_cons, not_elem_of_cons. split; [done|]. split; congruence.
Qed.
Lemma strictly_sorted l :
  NoDup (transfer_pos <$> l) -> StronglySorted (fun a b => newest_first a b = true) l -> StronglySorted pos_newer l.
Proof.
  induction l as [|x l IH]; intros Hn Hs; [apply SSorted_nil|].
  rewrite fmap_cons in Hn. apply NoDup_cons in Hn as [Hx Hn]. apply StronglySorted_inv in Hs as [Hs Hf].
  apply SSorted_cons; [by apply IH|]. apply Forall_forall. intros y Hy.
  rewrite Forall_forall in Hf. destruct (proj1 (newest_first_true _ _) (Hf y Hy)) as [?|E]; [done|].
  destruct Hx. rewrite E. by apply list_elem_of_fmap_2.
Qed.
(** C31. The merged page of two lists of transfers holds no position twice, is in
    strictly decreasing order of period, thread and index, has at most [limit]
    rows, each the first of its position in the two lists put end to end; and a
    transfer of the lists whose position is not on the page is older than the
    whole page, which is then full. *)
Theorem transfers_union_newest a b limit :
  let u := paginate_transfers_union a b limit in
  length u <= limit /\ StronglySorted pos_newer u /\ (forall t, t ∈ u -> first_at (a ++ b) t) /\
  (forall t, t ∈ a ++ b ->
     (exists t', t' ∈ u /\ transfer_pos t' = transfer_pos t) \/
     length u = limit /\ Forall (fun t' => pos_newer t' t) u).
Proof.
  intros u. set (all := sort_by newest_first (union_values (a ++ b))).
  assert (all ≡ₚ union_values (a ++ b)) as Hp by apply sort_by_perm.
  assert (StronglySorted pos_newer all) as Hs.
  { apply strictly_sorted; [rewrite Hp; apply union_values_pos|].
    apply sort_by_sorted; [apply newest_first_total|apply newest_first_trans]. }
  assert (all = u ++ drop limit all) as Eall by (symmetry; apply take_drop).
  split; [subst u; unfold paginate_transfers_union; rewrite length_take; lia|]. rewrite Eall in Hs.
  split; [by eapply StronglySorted_app_1_l|]. split.
  - intros t Ht. apply union_values_members. rewrite <-Hp, Eall. apply elem_of_app. by left.
  - intros t (t' & Hf & Et)%first_exists. apply union_values_members in Hf.
    rewrite <-Hp, Eall in Hf. apply elem_of_app in Hf as [Hu|Hd]; [left; eauto|]. right. split.
    + subst u. unfold paginate_transfers_union. fold (union_values (a ++ b)). fold all.
      rewrite length_take. apply Nat.min_l. assert (0 < length (drop limit all)) as Hl
        by (destruct (drop limit all); [by apply not_elem_of_nil in Hd|cbn; lia]). rewrite length_drop in Hl. lia.
    + apply Forall_forall. intros x Hx. pose proof (StronglySorted_app_1_elem_of _ _ _ _ _ Hs Hx Hd) as Hn.
      unfold pos_newer in *. by rewrite Et in Hn.
Qed.

(** ** Limits and cursors *)
Lemma limit_bounds cfg p : 1 <= limit_of cfg p <= Z.to_nat (effective_max_page_size cfg) /\
  (1 <= effective_max_page_size cfg <= HARD_MAX_PAGE_SIZE)%Z.
Proof. unfold limit_of, effective_max_page_size, clamp, HARD_MAX_PAGE_SIZE. lia. Qed.
Lemma limit_exact cfg p n : pq_limit p = Some n -> (1 <= n <= effective_max_page_size cfg)%Z ->
  limit_of cfg p = Z.to_nat n.
Proof. intros E Hn. unfold limit_of, clamp. rewrite E. cbn. f_equal. lia. Qed.
Section cursors.
Context `{UrlBase64}.
Lemma cursor_roundtrip raw : raw <> [] -> decode_cursor (encode_cursor raw) = Ok (Some raw).
Proof.
  intros Hne. unfold decode_cursor, encode_cursor.
  assert (str_is_empty (url_safe_encode raw) = false) as -> by (by apply bool_decide_eq_false, url_safe_encode_nonempty).
  unfold or_bad. by rewrite url_safe_decode_encode.
Qed.
Lemma after_returned raw limit : raw <> [] -> after (mkPageQ limit (Some (encode_cursor raw))) = Ok (Some raw).
Proof. apply cursor_roundtrip. Qed.
Lemma offset_returned end_ limit :
  (Z.of_nat end_ < 2 ^ 32)%Z ->
  offset_of (mkPageQ limit (Some (encode_cursor (le_u32 (as_u32 (Z.of_nat end_)))))) = Ok end_.
Proof.
  intros Hlt. unfold offset_of. rewrite after_returned by (intros E; apply (f_equal length) in E; by rewrite le_u32_length in E).
  unfold mbind, result_bind. rewrite le_u32_length, Nat.eqb_refl.
  assert (u32_ok (Z.of_nat end_)) as Hok by (unfold u32_ok; lia).
  replace (as_u32 (Z.of_nat end_)) with (Z.of_nat end_) by (unfold as_u32; rewrite Z.mod_small; [done|exact Hok]).
  by rewrite from_le_u32, Nat2Z.id.
Qed.
End cursors.

(** ** The lists of a block *)
(** A client following the cursors of a handler. *)
Fixpoint follow_pages {T} (fuel : nat) (handler : PageQ -> result Failure (Envelope (list T)))
    (limit : option Z) (cursor : option string) : option (result Failure (list T)) :=
  match fuel with
  | O => None
  | S fuel' =>
      match handler (mkPageQ limit cursor) with
      | Err e => Some (Err e)
      | Ok e =>
          match ev_cursor_next e with
          | None => Some (Ok (ev_data e))
          | Some c => (fun r => rest ← r; Ok (ev_data e ++ rest)) <$> follow_pages fuel' handler limit (Some c)
          end
      end
  end.
Lemma slice_within {A} (start n : nat) (l : list A) :
  start <= length l -> slice start (Nat.min (start + n) (length l)) l = Some (take n (drop start l)).
Proof.
  intros Hs. unfold slice.
  assert ((start <=? Nat.min (start + n) (length l)) && (Nat.min (start + n) (length l) <=? length l) = true) as ->
    by (apply andb_true_iff; split; apply Nat.leb_le; lia).
  f_equal. destruct (le_lt_dec (start + n) (length l)) as [Hle|Hlt].
  - f_equal. lia.
  - rewrite !take_ge; [done|rewrite length_drop; lia..].
Qed.
Lemma slice_beyond {A} (start n : nat) (l : list A) :
  length l < start -> slice start (Nat.min (start + n) (length l)) l = None.
Proof. intros Hs. unfold slice. by rewrite (proj2 (Nat.leb_gt start _)) by lia. Qed.
Lemma read_each_app {K A} (read : K -> result Error (option A)) l1 l2 :
  read_each read (l1 ++ l2) = (a ← read_each read l1; b ← read_each read l2; Ok (a ++ b)).
Proof.
  induction l1 as [|k l1 IH]; cbn [read_each app].
  { unfold mbind, result_bind. by destruct (read_each read l2). }
  rewrite IH. unfold mbind, result_bind. destruct (or_internal (read k)) as [o|]; [|done].
  destruct (read_each read l1); [|done]. destruct (read_each read l2); [|done]. by destruct o.
Qed.

Section embedded.
Context `{Bs58, Base64, HexCrate, ProstStorage, RocksDB, UrlBase64, DenunciationDigest}.
Context (cfg : Config) (d : DB).
(** Following offset cursors takes a list apart and puts it together. *)
Lemma follow_offsets {X T} (limit : option Z) (l : list X) (page : list X -> result Failure (list T))
    (handler : PageQ -> result Failure (Envelope (list T))) :
  (forall l1 l2, page (l1 ++ l2) = (a ← page l1; b ← page l2; Ok (a ++ b))) ->
  (Z.of_nat (length l) < 2 ^ 32)%Z ->
  (forall p start, offset_of p = Ok start -> start <= length l ->
     handler p = (out ← page (take (limit_of cfg p) (drop start l));
       Ok (with_cursor (offset_cursor (Nat.min (start + limit_of cfg p) (length l)) (length l)) (Envelope_new cfg out)))) ->
  forall fuel start cursor, offset_of (mkPageQ limit cursor) = Ok start -> start <= length l ->
    length l - start < fuel ->
    follow_pages fuel handler limit cursor = Some (page (drop start l)).
Proof.
  intros Happ Hlen Hh. induction fuel as [|fuel IH]; intros start cursor Hc Hs Hf; [lia|].
  cbn [follow_pages]. rewrite (Hh _ start Hc Hs). destruct (limit_bounds cfg (mkPageQ limit cursor)) as [[Hn _] _].
  set (n := limit_of cfg (mkPageQ limit cursor)) in *.
  assert (page (drop start l) = (a ← page (take n (drop start l)); b ← page (drop n (drop start l)); Ok (a ++ b)))
    as -> by (rewrite <-Happ; by rewrite take_drop).
  unfold offset_cursor. destruct (Nat.ltb_spec (Nat.min (start + n) (length l)) (length l)) as [Hlt|Hge].
  - unfold mbind, result_bind. destruct (page (take n (drop start l))) as [out|e]; [|done].
    cbn [with_cursor ev_cursor_next ev_data Envelope_new].
    rewrite (IH (start + n)) by (lia || (rewrite <-offset_returned with (limit := limit);
      [do 3 f_equal; do 4 f_equal; lia|lia])). rewrite drop_drop. cbn. by destruct (page _).
  - rewrite (drop_ge (drop start l) n) by (rewrite length_drop; lia).
    unfold mbind, result_bind. destruct (page (take n (drop start l))) as [out|e] eqn:E; [|done].
    cbn [with_cursor ev_cursor_next ev_data Envelope_new].
    pose proof (Happ (take n (drop start l)) []) as Hnil. rewrite app_nil_r, E in Hnil.
    unfold mbind, result_bind in Hnil. destruct (page []) as [b|]; [|done]. injection Hnil as Hnil. by rewrite <-Hnil.
Qed.
Lemma block_operations_exact id b p start :
  block_of d id = Ok b -> offset_of p = Ok start ->
  block_operations cfg d id p =
  if start <=? length (bl_operation_ids b) then
    out ← read_each (read_op d) (take (limit_of cfg p) (drop start (bl_operation_ids b)));
    Ok (with_cursor (offset_cursor (Nat.min (start + limit_of cfg p) (length (bl_operation_ids b)))
          (length (bl_operation_ids b))) (Envelope_new cfg out))
  else Err Panicked.
Proof.
  intros Hb Hs. unfold block_operations. rewrite Hs. unfold mbind, result_bind. rewrite Hb.
  destruct (Nat.leb_spec start (length (bl_operation_ids b))).
  - by rewrite slice_within.
  - by rewrite slice_beyond.
Qed.
Lemma block_endorsements_exact id b p start :
  block_of d id = Ok b -> offset_of p = Ok start ->
  block_endorsements cfg d id p =
  Ok (with_cursor (offset_cursor (Nat.min (start + limit_of cfg p) (length (bl_endorsements b)))
        (length (bl_endorsements b)))
      (Envelope_new cfg (take (limit_of cfg p) (drop start (bl_endorsements b))))).
Proof.
  intros Hb Hs. unfold block_endorsements. rewrite Hs. unfold mbind, result_bind. rewrite Hb.
  destruct (Nat.leb_spec (length (bl_endorsements b)) start).
  - by rewrite drop_ge, take_nil.
  - by rewrite slice_within by lia.
Qed.
(** C30. A client that follows the cursors of a stored block's operations, or of
    its endorsements, with any page size, is given each of them once, in the
    block's order, the operations as the store holds them. A cursor past the end
    of the list ends the endorsements but panics for the operations, whatever the
    limit. *)
Theorem block_lists_paged id b limit fuel :
  block_of d id = Ok b ->
  (Z.of_nat (length (bl_operation_ids b)) < 2 ^ 32)%Z -> (Z.of_nat (length (bl_endorsements b)) < 2 ^ 32)%Z ->
  length (bl_operation_ids b) < fuel -> length (bl_endorsements b) < fuel ->
  follow_pages fuel (block_operations cfg d id) limit None = Some (read_each (read_op d) (bl_operation_ids b)) /\
  follow_pages fuel (block_endorsements cfg d id) limit None = Some (Ok (bl_endorsements b)) /\
  (forall p start, offset_of p = Ok start ->
     (block_operations cfg d id p = Err Panicked <-> length (bl_operation_ids b) < start) /\
     block_endorsements cfg d id p <> Err Panicked).
Proof.
  intros Hb Hlo Hle Hfo Hfe. split_and!.
  - rewrite (follow_offsets limit (bl_operation_ids b) (read_each (read_op d))) with (start := 0);
      [by rewrite drop_0|apply read_each_app|done| |done|lia|lia].
    intros p start Hs Hle'. rewrite (block_operations_exact id b p start Hb Hs). by rewrite (proj2 (Nat.leb_le _ _)).
  - rewrite (follow_offsets limit (bl_endorsements b) (fun l => Ok l)) with (start := 0);
      [by rewrite drop_0|done|done| |done|lia|lia].
    intros p start Hs _. by rewrite (block_endorsements_exact id b p start Hb Hs).
  - intros p start Hs. rewrite (block_operations_exact id b p start Hb Hs), (block_endorsements_exact id b p start Hb Hs).
    split; [|done]. destruct (Nat.leb_spec start (length (bl_operation_ids b))) as [Hle'|Hlt].
    + split; [|lia]. unfold mbind, result_bind.
      destruct (read_each _ _) as [?|e] eqn:E; [done|]. intros [= ->]. exfalso. revert E.
      generalize (take (limit_of cfg p) (drop start (bl_operation_ids b))). intros l.
      induction l as [|k l IH]; cbn [read_each]; [done|]. unfold mbind, result_bind.
      destruct (read_op d k) as [o|]; cbn; [|done]. by destruct (read_each (read_op d) l).
    + done.
Qed.
End embedded.

(** ** Pages of the store, through the API *)
(** A cursor is a key the scan has met. *)
Lemma page_loop_cursor {A} keep (row : bytes -> bytes -> result Error (option A)) after limit items last l p c :
  page_loop keep row after limit items last l = Ok p -> pg_next_cursor p = Some c ->
  last = Some c \/ exists v, (c, v) ∈ l /\ keep c = true.
Proof.
  induction l as [|[k v] l IH] in items, last |- *; cbn [page_loop]; [intros [= <-]; done|].
  destruct (keep k) eqn:Ek; cbn [negb]; [|by intros [= <-]].
  assert (forall items last, page_loop keep row after limit items last l = Ok p -> pg_next_cursor p = Some c ->
    last = Some c \/ exists w, (c, w) ∈ (k, v) :: l /\ keep c = true) as Hrest.
  { intros i o E Ec. destruct (IH i o E Ec) as [|(w & Hin & Hk)]; [by left|right]. exists w. split; [by right|done]. }
  case_bool_decide; [by apply Hrest|]. case_bool_decide; [intros [= <-] Ec; by left|].
  unfold mbind, result_bind. destruct (row k v) as [[a|]|e]; [|by apply Hrest|done].
  intros E Ec. destruct (Hrest _ _ E Ec) as [[= ->]|]; [|by right]. right. exists v. split; [by left|done].
Qed.

Section client.
Context `{Bs58, Base64, HexCrate, ProstStorage, RocksDB, UrlBase64}.
Context (cfg : Config) (d : DB).
Lemma slots_cursor after limit p c : slot_family_ok d ->
  iter_slots_desc d after limit = Ok p -> pg_next_cursor p = Some c -> c <> [].
Proof.
  intros Hok. unfold iter_slots_desc. case_bool_decide; [by intros [= <-]|]. intros E Ec.
  destruct (page_loop_cursor _ _ _ _ _ _ _ _ _ E Ec) as [|(v & Hin & _)]; [done|].
  rewrite iterator_reverse, elem_of_reverse, list_elem_of_filter, iterator_get in Hin. destruct Hin as [_ Hg].
  destruct (Hok c v Hg) as (s & _ & _ & _ & ->). intros E0. apply (f_equal length) in E0.
  by rewrite slot_key_length in E0.
Qed.
Lemma ids_cursor {A} (from_key_bytes : bytes -> option A) c addr after limit p k : addr <> [] ->
  scan_prefix_forward_ids from_key_bytes d c addr after limit = Ok p -> pg_next_cursor p = Some k -> k <> [].
Proof.
  intros Ha. unfold scan_prefix_forward_ids. case_bool_decide; [by intros [= <-]|]. intros E Ec ->.
  destruct (page_loop_cursor _ _ _ _ _ _ _ _ _ E Ec) as [|(v & _ & Hk)]; [done|].
  by destruct addr.
Qed.
(** Cursors through the client: following a handler is following its scan. *)
Lemma follow_transparent {X T} (scan : option bytes -> nat -> result Error (Page X))
    (conv : list X -> result Failure (list T)) (handler : PageQ -> result Failure (Envelope (list T))) limit :
  (forall l1 l2, conv (l1 ++ l2) = (a ← conv l1; b ← conv l2; Ok (a ++ b))) ->
  (forall a n p c, scan a n = Ok p -> pg_next_cursor p = Some c -> c <> []) ->
  (forall p a, after p = Ok a -> handler p = (page ← or_internal (scan a (limit_of cfg p));
     out ← conv (pg_items page); Ok (with_cursor (pg_next_cursor page) (Envelope_new cfg out)))) ->
  forall fuel a cursor l, after (mkPageQ limit cursor) = Ok a ->
    follow fuel (fun a => scan a (limit_of cfg (mkPageQ limit None))) a = Some (Ok l) ->
    follow_pages fuel handler limit cursor = Some (conv l).
Proof.
  intros Happ Hcur Hh. induction fuel as [|fuel IH]; intros a cursor l Ha Hf; [done|].
  cbn [follow follow_pages] in Hf |- *. rewrite (Hh _ a Ha).
  change (limit_of cfg (mkPageQ limit cursor)) with (limit_of cfg (mkPageQ limit None)).
  destruct (scan a _) as [page|e] eqn:Es; [|done]. unfold mbind, result_bind. cbn [or_internal map_err].
  destruct (pg_next_cursor page) as [c|] eqn:Ec.
  - destruct (follow fuel _ (Some c)) as [[rest|e]|] eqn:Ef; [|done..]. injection Hf as <-.
    rewrite Happ. unfold mbind, result_bind. destruct (conv (pg_items page)) as [out|e]; [|done].
    cbn [with_cursor ev_cursor_next ev_data Envelope_new].
    rewrite (IH (Some c) _ rest); [| |exact Ef].
    + cbn. by destruct (conv rest).
    + apply after_returned. by eapply Hcur.
  - injection Hf as <-. by destruct (conv (pg_items page)).
Qed.
(** The rows of an address's id index, newest slot first. *)
Definition lists_index (c : Cf) (a : Address) (hits : list (Z * Z * bytes)) : Prop :=
  StronglySorted hit_newer hits /\
  (forall p t id, (p, t, id) ∈ hits <->
     u64_ok p /\ u8_ok t /\ length id = ID_KEY_LEN /\
     is_Some (get_cf d c (idx_addr_slot_id (addr_as_bytes a) p t id))).
Definition hit_ops (hits : list (Z * Z * bytes)) : list OperationId :=
  omap (fun h => OperationId_from_key_bytes h.2) hits.
Lemma ops_followed c a limit fuel handler :
  length (addr_as_bytes a) = ADDR_KEY_LEN -> length (iterator_cf d c Start) < fuel ->
  (forall p, handler p =
     paged_ids cfg p (scan_prefix_forward_ids OperationId_from_key_bytes d c (addr_as_bytes a)) (read_op d)) ->
  exists hits, follow_pages fuel handler limit None = Some (read_each (read_op d) (hit_ops hits)) /\ lists_index c a hits.
Proof.
  intros Ha Hfuel Hh. destruct (limit_bounds cfg (mkPageQ limit None)) as [[Hl _] _].
  destruct (scan_prefix_pages OperationId_from_key_bytes d c (addr_as_bytes a) (limit_of cfg (mkPageQ limit None)) fuel)
    as (hits & Hf & Hs & Hin); [done|lia| |].
  { eapply Nat.le_lt_trans, Hfuel. apply length_filter. }
  exists hits. split; [|by split].
  eapply follow_transparent; [apply read_each_app| | |done|exact Hf].
  - intros after n p k. apply ids_cursor. intros E. by rewrite E in Ha.
  - intros p k Hk. rewrite Hh. unfold paged_ids. by rewrite Hk.
Qed.
Lemma slots_followed limit fuel :
  slot_family_ok d -> (forall c, length (iterator_cf d c Start) < fuel) ->
  exists L, follow_pages fuel (fun p => slots_range cfg d (mkSlotsRangeQ None None p)) limit None = Some (Ok L) /\
    StronglySorted slot_newer L /\
    (forall s, s ∈ L <->
       read_slot d (slot_period (ss_slot s)) (slot_thread (ss_slot s)) = Ok (Some s) /\
       Slot_ok (ss_slot s) /\ (slot_thread (ss_slot s) <= 31)%Z).
Proof.
  intros Hok Hfuel. destruct (limit_bounds cfg (mkPageQ limit None)) as [[Hl _] _].
  destruct (iter_slots_desc_pages d (limit_of cfg (mkPageQ limit None)) Hok) as (L & Hf & Hs & Hin); [lia|].
  exists L. split; [|by split].
  rewrite (follow_transparent (fun a n => iter_slots_desc d a n) (fun l => Ok l))
    with (a := None) (l := L); [done|done| | |done|by apply Hf].
  - intros a n p c. by apply slots_cursor.
  - intros p a Ha. unfold slots_range. cbn [sq_page sq_from_period].
    unfold after in Ha. destruct (pq_cursor p); [by rewrite Ha|]. by injection Ha as <-.
Qed.
End client.

Section charts.
Context `{Bs58, Base64, HexCrate, ProstStorage, RocksDB}.
Context (d : DB) (now : Z).
Implicit Types (sl : SlotState) (slots : list SlotState).

Definition time_of sl : Z :=
  let '(gen_ms, t0_ms, tc) := chain_params d in slot_ts_ms (ss_slot sl) gen_ms t0_ms tc.
(** The [i]-th interval of the window; the last one ends with it. *)
Definition in_bucket (window bucket : Z) (i : nat) sl : Prop :=
  (now - window * 1000 + Z.of_nat i * (bucket * 1000) <= time_of sl <
   now - window * 1000 + Z.of_nat (S i) * (bucket * 1000) /\ time_of sl <= now)%Z.
#[export] Instance in_bucket_dec window bucket i sl : Decision (in_bucket window bucket i sl).
Proof. unfold in_bucket. apply _. Defined.
Lemma bucket_of_spec window bucket sl i :
  (0 < bucket)%Z ->
  bucket_of d now window bucket sl = Some i <-> in_bucket window bucket i sl /\ i < n_buckets window bucket.
Proof.
  intros Hb. unfold bucket_of, in_bucket, time_of. destruct (chain_params d) as [[gen_ms t0_ms] tc].
  set (ts := slot_ts_ms (ss_slot sl) gen_ms t0_ms tc). set (from := (now - window * 1000)%Z).
  destruct (Z.ltb_spec ts from) as [?|Hf]; cbn [orb].
  { split; [done|]. intros [? _]. lia. }
  destruct (Z.ltb_spec now ts) as [?|Hn]; [split; [done|]; intros [? _]; lia|].
  rewrite Z.quot_div_nonneg by lia. set (b := (bucket * 1000)%Z).
  assert (0 < b)%Z as Hb' by lia. pose proof (Z.div_pos (ts - from) b ltac:(lia) Hb') as Hq.
  destruct (Nat.ltb_spec (Z.to_nat ((ts - from) / b)) (n_buckets window bucket)) as [Hi|Hi].
  - split.
    + intros [= <-]. rewrite Nat2Z.inj_succ, Z2Nat.id by done. split; [|done]. Z.to_euclidean_division_equations; nia.
    + intros [[[Hlo Hhi] _] _]. f_equal. rewrite <-(Nat2Z.id i). f_equal. symmetry.
      apply (Z.div_unique _ _ _ (ts - from - Z.of_nat i * b)); lia.
  - split; [done|]. intros [[[Hlo Hhi] _] Hlt]. exfalso.
    assert (Z.of_nat i = (ts - from) / b)%Z as E
      by (apply (Z.div_unique _ _ _ (ts - from - Z.of_nat i * b)); lia).
    rewrite <-E, Nat2Z.id in Hi. lia.
Qed.
Lemma tally_length {A} window bucket (zero : A) f slots : length (tally d now window bucket zero f slots) = n_buckets window bucket.
Proof.
  unfold tally. assert (forall acc : list A, length (foldl (fun acc sl => match bucket_of d now window bucket sl with
    | Some i => alter (f sl) i acc | None => acc end) acc slots) = length acc) as ->; [|apply length_replicate].
  induction slots as [|sl slots IH]; intros acc; [done|]. cbn [foldl]. rewrite IH. case_match; [apply length_alter|done].
Qed.
(** A bucket folds the slots that fall in it, in their order. *)
Lemma tally_lookup {A} window bucket (zero : A) f slots i :
  i < n_buckets window bucket ->
  tally d now window bucket zero f slots !! i =
  Some (foldl (fun a sl => if decide (bucket_of d now window bucket sl = Some i) then f sl a else a) zero slots).
Proof.
  intros Hi. unfold tally.
  assert (forall (acc : list A) a, acc !! i = Some a ->
    foldl (fun acc sl => match bucket_of d now window bucket sl with Some i => alter (f sl) i acc | None => acc end) acc slots !! i =
    Some (foldl (fun a sl => if decide (bucket_of d now window bucket sl = Some i) then f sl a else a) a slots)) as Hg.
  { induction slots as [|sl slots IH]; intros acc a Ha; [done|]. cbn [foldl]. apply IH.
    destruct (bucket_of d now window bucket sl) as [j|] eqn:Ej; [|by rewrite decide_False by congruence].
    destruct (decide (Some j = Some i)) as [[= ->]|Hne].
    - rewrite list_lookup_alter_eq, Ha. done.
    - rewrite list_lookup_alter_ne by congruence. done. }
  apply Hg. by rewrite lookup_replicate_2.
Qed.
Lemma resolved_bounds q : let '(window, bucket) := chart_resolve q in (60 <= window <= 604800 /\ 10 <= bucket <= window)%Z.
Proof. unfold chart_resolve, clamp. lia. Qed.
Lemma n_buckets_exact window bucket : (0 < bucket <= window)%Z ->
  (Z.of_nat (n_buckets window bucket) * bucket >= window /\ Z.of_nat (n_buckets window bucket - 1) * bucket < window)%Z.
Proof.
  intros Hb. unfold n_buckets. rewrite Z.quot_div_nonneg by lia.
  assert (1 <= (window + bucket - 1) / bucket)%Z as Hone by (apply Z.div_le_lower_bound; lia).
  rewrite Nat2Z.inj_sub, Z2Nat.id by lia. Z.to_euclidean_division_equations; nia.
Qed.
Lemma count_ops_sum (P : SlotState -> Prop) `{!forall sl, Decision (P sl)} slots c :
  foldl (fun a sl => if decide (P sl) then count_ops sl a else a) c slots =
  (c + Z.of_nat (length (filter P slots ≫= ss_executed_op_ids)))%Z.
Proof.
  induction slots as [|sl slots IH] in c |- *; cbn [foldl]; [cbn; lia|]. rewrite IH, filter_cons.
  destruct (decide (P sl)); [|done]. cbn [mbind list_bind]. rewrite length_app. unfold count_ops. lia.
Qed.
(** They end with the window exactly when the bucket divides it. *)
Lemma n_buckets_divide window bucket : (0 < bucket <= window)%Z ->
  (Z.of_nat (n_buckets window bucket) * bucket = window)%Z <-> (bucket | window)%Z.
Proof.
  intros Hb. pose proof (n_buckets_exact window bucket Hb) as [Hhi Hlo].
  split; [intros <-; apply Z.divide_factor_r|]. intros [k ->].
  assert (0 < k)%Z by nia. destruct (n_buckets _ _) as [|n]; [nia|]. cbn [Nat.sub] in Hlo.
  rewrite Nat.sub_0_r in Hlo. apply Z.mul_lt_mono_pos_r in Hlo; [|lia].
  apply Z.ge_le, Z.mul_le_mono_pos_r in Hhi; [|lia]. f_equal. lia.
Qed.
(** The points of a chart, bucket by bucket. *)
Lemma chart_points cfg q slots :
  fetch_recent_slots d (Z.to_nat 20000) = Ok slots ->
  let '(window, bucket) := chart_resolve q in
  exists e, chart_throughput d now cfg q = Ok e /\ length (ev_data e) = n_buckets window bucket /\
    forall i, i < length (ev_data e) ->
      ev_data e !! i = Some (mkPoint (now - window * 1000 + Z.of_nat i * (bucket * 1000))
        (Z.of_nat (length (filter (in_bucket window bucket i) slots ≫= ss_executed_op_ids))) bucket).
Proof.
  intros Hf. unfold chart_throughput, chart. pose proof (resolved_bounds q) as Hb.
  destruct (chart_resolve q) as [window bucket]. rewrite Hf. unfold mbind, result_bind.
  eexists. split; [reflexivity|]. unfold Envelope_new, points. cbn [ev_data].
  rewrite length_imap, tally_length. split; [done|]. intros i Hi.
  rewrite list_lookup_imap, (tally_lookup window bucket 0%Z count_ops slots i Hi). cbn [fmap option_fmap option_map fst snd].
  do 2 f_equal. rewrite count_ops_sum. rewrite Z.add_0_l. do 3 f_equal. apply list_filter_iff.
  intros sl. rewrite bucket_of_spec by lia. tauto.
Qed.
End charts.

(** ** Exports *)
Section exports.
Context `{Bs58, Base64, HexCrate, ProstStorage, RocksDB, Writers}.
(** The export's loop ends by itself: each page it goes on from brought a transfer,
    so as many turns as transfers asked are enough, and more change nothing. *)
Lemma export_loop_ends d fuel fuel' a cap cursor transfers :
  cap - length transfers <= fuel -> fuel <= fuel' ->
  export_loop d fuel' a cap cursor transfers = export_loop d fuel a cap cursor transfers.
Proof.
  induction fuel as [|fuel IH] in fuel', cursor, transfers |- *; intros Hcap Hle.
  - destruct fuel' as [|fuel']; [done|]. cbn [export_loop].
    by rewrite (proj2 (Nat.ltb_ge _ _)) by lia.
  - destruct fuel' as [|fuel']; [lia|]. cbn [export_loop]. destruct (length transfers <? cap); [|done].
    unfold mbind, result_bind. destruct (or_internal _) as [page|e]; [|done].
    destruct (pg_items page) as [|t items]; [done|]. destruct (pg_next_cursor page) as [c|]; [|done].
    apply IH; [|lia]. rewrite length_app. cbn [length]. lia.
Qed.
End exports.
