(* ===== verification/RestWalkProps.v ===== *)
(** * Blocks' statuses, slot walks and charts of the REST API

    What a lookup of a block does to its row; the batched walks against the plain
    walk down the slots; the buckets of the throughput chart. *)

From stdpp Require Import gmap.
From S2P Require Import Prelude Text Ids Keys Model Proto Codec CodecLemmas CodecProps Store Db DbSlotRows DbProps.
From S2P Require Import Tables NodeMsg World Reconcile Arbiter Patch Ingest WorldLogic HandlerFrames RowSafety BlockProps.
From S2P Require Import Grpc Ddb Config Rest RestWalk RestProps.

Section status.
Context `{Bs58, Base64, HexCrate, ProstStorage, RocksDB, UrlBase64, DenunciationDigest, NodeEncode}.
Implicit Types (b : StoredBlock) (d : DB).

(** The status a block is shown with, given its slot's row. *)
Definition shown_status (slot : option SlotState) b : BlockStatus :=
  match bl_status b, slot with
  | SeenCandidate, Some s =>
      if bool_decide (ss_status s = SlotFinal)
      then if bool_decide (ss_final_block_id s = Some (bl_id b)) then BlockFinal else Discarded
      else SeenCandidate
  | st, _ => st
  end.
Definition shown (slot : option SlotState) b : StoredBlock := b <| bl_status := shown_status slot b |>.
Definition slot_of_block d b := read_slot d (slot_period (bl_slot b)) (slot_thread (bl_slot b)).
Lemma shown_same slot b : shown_status slot b = bl_status b -> shown slot b = b.
Proof. intros E. unfold shown. rewrite E. by destruct b. Qed.
Lemma resolve_runs b d slot :
  slot_of_block d b = Ok slot ->
  exists d', resolve_block_status b d = (Ok (shown slot b), d') /\
    (d' = d /\ (shown slot b = b \/ exists e, write_block d (shown slot b) = Err e) \/
     bl_status (shown slot b) <> SeenCandidate /\ write_block d (shown slot b) = Ok d').
Proof.
  intros Hs. unfold resolve_block_status. destruct (bl_status b) eqn:Eb;
    [|exists d; rewrite shown_same by (unfold shown_status; by rewrite Eb); by eauto..].
  unfold mbind, ST_bind, st_get, st_lift. fold (slot_of_block d b). rewrite Hs.
  destruct slot as [s|]; [|exists d; rewrite shown_same by (unfold shown_status; by rewrite Eb); by eauto].
  destruct (bool_decide (ss_status s = SlotFinal)) eqn:Ef; cbn [negb].
  - set (st := if bool_decide (ss_final_block_id s = Some (bl_id b)) then BlockFinal else Discarded).
    assert (shown (Some s) b = b <| bl_status := st |>) as Esh
      by (unfold shown, shown_status; by rewrite Eb, Ef).
    rewrite bool_decide_eq_false_2 by (subst st; case_bool_decide; congruence).
    unfold self_heal. rewrite <-Esh. destruct (write_block d (shown (Some s) b)) as [d'|e] eqn:Ew.
    + exists d'. split; [done|]. right. split; [|done]. rewrite Esh. cbn. subst st. by case_bool_decide.
    + exists d. split; [done|]. left. split; [done|]. right. eauto.
  - exists d. rewrite shown_same by (unfold shown_status; by rewrite Eb, Ef). by eauto.
Qed.
Lemma shown_shown slot b : shown_status slot (shown slot b) = shown_status slot b.
Proof.
  unfold shown, shown_status. destruct b as [? ? ? ? ? ? ? ? ? ? ? ? ? ? ? [] ?]; cbn; unfold constant; [|done..].
  destruct slot as [s|]; [|done]. destruct (bool_decide (ss_status s = SlotFinal)) ; cbn; [|done].
  by destruct (bool_decide (ss_final_block_id s = _)).
Qed.
(** C20. Looking up a stored block always answers, with the stored row under the
    status its slot's row gives it: unchanged if already settled or if the slot is
    not FINAL, otherwise final when the slot names it and discarded when not. At
    most that row of the store changes, to what was answered, no slot row does, and
    looking the block up again answers the same and writes nothing. *)
Theorem block_lookup_settles cfg id bid b slot d :
  BlockId_parse id = Ok bid -> read_block d bid = Ok (Some b) -> bl_id b = bid -> slot_of_block d b = Ok slot ->
  let answer := Ok (Envelope_new cfg (shown slot b)) in
  exists d', block_by_id cfg id d = (answer, d') /\ block_by_id cfg id d' = (answer, d') /\
    (d' = d \/ read_block d' bid = Ok (Some (shown slot b))) /\
    (forall c k, get_cf d' c k <> get_cf d c k ->
       c = CF_BLOCK /\ k = id_as_bytes bid \/ c = IDX_BLOCK_BY_CREATOR \/ c = CF_SLOT_CANDIDATE_BLOCK).
Proof.
  intros Hp Hb Hid Hs answer.
  assert (forall d0 b0 slot0, read_block d0 bid = Ok (Some b0) -> slot_of_block d0 b0 = Ok slot0 ->
    forall d1, resolve_block_status b0 d0 = (Ok (shown slot0 b0), d1) ->
    block_by_id cfg id d0 = (Ok (Envelope_new cfg (shown slot0 b0)), d1)) as Hask.
  { intros d0 b0 slot0 Hb0 Hs0 d1 E. unfold block_by_id, api_lift, api_get, api_st, mbind, Api_bind, mret, Api_ret, or_bad, or_internal, or_not_found.
    rewrite Hp. cbn. rewrite Hb0. cbn. by rewrite E. }
  destruct (resolve_runs b d slot Hs) as (d' & E & Hcase). exists d'.
  split; [by apply Hask|]. destruct Hcase as [[-> _]|[Hset Hw]].
  { split; [by apply Hask|]. split; [by left|]. intros c k Hne. by destruct Hne. }
  assert (StoredBlock_enc (shown slot b)) as Henc.
  { pose proof (proj1 (read_block_Some _ _ _) Hb) as (v & _ & Hd). exact (decode_block_enc _ _ Hd). }
  pose proof (write_block_read _ _ _ Henc Hw) as Hread. change (bl_id (shown slot b)) with (bl_id b) in Hread. rewrite Hid in Hread.
  assert (forall c, c ∉ block_cfs -> same_cf c d d') as Hsame by (intros c; exact (write_block_in _ d d' Hw c)).
  split; [|split; [by right|]].
  - assert (slot_of_block d' (shown slot b) = Ok slot) as Hs'.
    { unfold slot_of_block, read_slot, read_row in *. cbn. rewrite (Hsame CF_SLOT) by set_solver. exact Hs. }
    assert (shown slot (shown slot b) = shown slot b) as Ess by (apply shown_same; rewrite shown_shown; done).
    subst answer. rewrite <-Ess. apply Hask; [exact Hread|done|].
    unfold resolve_block_status. rewrite Ess. by destruct (bl_status (shown slot b)).
  - intros c k Hne. destruct (decide (c ∈ block_cfs)) as [Hin|Hout]; [|by destruct Hne; apply Hsame].
    unfold block_cfs in Hin. rewrite !elem_of_cons in Hin. destruct Hin as [->|Hin]; [|set_solver]. left. split; [done|].
    destruct (write_block_puts _ _ _ Hw) as (v & _ & Hget). rewrite Hget in Hne.
    change (tb_key (shown slot b)) with (id_as_bytes (bl_id b)) in Hne. rewrite Hid in Hne.
    case_bool_decide as Ek; [done|]. by destruct Hne.
Qed.
End status.

(** ** Walking the slots *)
Section walking.
Context `{Bs58, Base64, HexCrate, ProstStorage, RocksDB, UrlBase64, DenunciationDigest, NodeEncode}.
Implicit Types (d : DB) (c : option bytes).

(** The slot rows below a cursor, newest first. *)
Definition below d c : list (bytes * bytes) :=
  region (fun _ => true) c (iterator_cf d CF_SLOT (FromReverse (default (slot_key u64_max 31) c))).
Definition slots_below d c : list SlotState := rows (fun _ v => slot_value v) (below d c).
Definition slot_cursor (s : SlotState) : bytes := slot_key (slot_period (ss_slot s)) (slot_thread (ss_slot s)).

Lemma below_None d : slot_family_ok d -> below d None = reverse (iterator_cf d CF_SLOT Start).
Proof.
  intros Hok. unfold below, region. rewrite iterator_reverse.
  assert (forall l, take_while (fun _ : bytes * bytes => true) l = l) as -> by (induction l; simpl; congruence).
  rewrite !list_filter_all; [done|apply Forall_forall|by apply Forall_forall]. intros [k v] Hin.
  apply iterator_get in Hin. destruct (Hok k v Hin) as (s & _ & Hs & Ht & ->). by apply slot_key_top.
Qed.
Lemma below_Some d k : below d (Some k) = filter (fun kv => bytes_gt k kv.1) (reverse (iterator_cf d CF_SLOT Start)).
Proof.
  unfold below, region. rewrite iterator_reverse.
  assert (forall l, take_while (fun _ : bytes * bytes => true) l = l) as -> by (induction l; simpl; congruence).
  rewrite !filter_reverse, list_filter_filter. f_equal. apply list_filter_iff.
  intros [k' v]. cbn. unfold bytes_gt. rewrite bytes_le_lteq.
  split; [naive_solver|]. intros Hlt. split; [|by left]. intros [= ->]. by apply (bytes_lt_irrefl k').
Qed.
Lemma below_entries d c k v : slot_family_ok d -> (k, v) ∈ below d c -> get_cf d CF_SLOT k = Some v.
Proof.
  intros Hok. rewrite <-iterator_get. destruct c as [c|].
  - rewrite below_Some, list_elem_of_filter, elem_of_reverse. by intros [_ ?].
  - by rewrite below_None, elem_of_reverse.
Qed.
Lemma below_resume d c l1 k v l2 : slot_family_ok d -> below d c = l1 ++ (k, v) :: l2 -> below d (Some k) = l2.
Proof.
  intros Hok E.
  eapply (resume_suffix bytes_gt (reverse (iterator_cf d CF_SLOT Start)) (below d) (fun _ => True)); [..|exact I|exact E].
  - apply (StronglySorted_reverse (on_key bytes_lt)), iterator_entries_sorted.
  - by apply below_None.
  - done.
  - intros k' _. apply below_Some.
Qed.
Lemma below_rows d c k v : slot_family_ok d -> (k, v) ∈ below d c ->
  exists s, slot_value v = Some s /\ k = slot_cursor s.
Proof.
  intros Hok Hin%below_entries; [|done]. destruct (Hok k v Hin) as (s & Es & _ & _ & ->). exists s. unfold slot_value. by rewrite Es.
Qed.
(** Every entry is a row. *)
Lemma below_aligned d c : slot_family_ok d ->
  Forall2 (fun kv s => slot_value kv.2 = Some s /\ kv.1 = slot_cursor s) (below d c) (slots_below d c).
Proof.
  intros Hok. unfold slots_below. assert (forall k v, (k, v) ∈ below d c -> exists s, slot_value v = Some s /\ k = slot_cursor s)
    as Hin by (intros k v; by apply below_rows).
  induction (below d c) as [|[k v] l IH]; [constructor|].
  destruct (Hin k v) as (s & Es & ->); [left|]. unfold rows. cbn. rewrite Es. constructor; [done|].
  apply IH. intros k' v' Hk. apply Hin. by right.
Qed.
Lemma slots_below_resume d c l1 s l2 : slot_family_ok d ->
  slots_below d c = l1 ++ s :: l2 -> slots_below d (Some (slot_cursor s)) = l2.
Proof.
  intros Hok E. pose proof (below_aligned d c Hok) as Ha. rewrite E in Ha.
  apply Forall2_app_inv_r in Ha as (e1 & e2 & _ & Ha & Eb).
  apply Forall2_cons_inv_r in Ha as ([k v] & e3 & [_ Hk] & Ha & ->). cbn in Hk. subst k.
  unfold slots_below. rewrite (below_resume d c e1 (slot_cursor s) v e3 Hok Eb).
  revert Ha. clear. revert l2. induction e3 as [|[k v] l IH]; intros l2 Ha.
  - by apply Forall2_nil_inv_l in Ha as ->.
  - apply Forall2_cons_inv_l in Ha as (y & l' & [Ey _] & Ha & ->). cbn in Ey. unfold rows in *. cbn. rewrite Ey.
    f_equal. by apply IH.
Qed.
Lemma slots_below_frame d d' c : same_cf CF_SLOT d d' -> slots_below d' c = slots_below d c.
Proof.
  intros Hs. unfold slots_below, below. rewrite !iterator_reverse.
  assert (iterator_cf d' CF_SLOT Start = iterator_cf d CF_SLOT Start) as ->; [|done].
  apply sorted_entries_unique; [apply iterator_sorted..|]. intros [k v]. by rewrite !iterator_get, Hs.
Qed.
Lemma family_frame d d' : same_cf CF_SLOT d d' -> slot_family_ok d -> slot_family_ok d'.
Proof. intros Hs Hok k v Hg. apply Hok. by rewrite <-Hs. Qed.

(** The cursor of the last slot of a list. *)
Lemma last_cursor_cons s (l : list SlotState) c :
  match last (s :: l) with Some s' => Some (slot_cursor s') | None => c end =
  match last l with Some s' => Some (slot_cursor s') | None => Some (slot_cursor s) end :> option bytes.
Proof.
  destruct l as [|s' l]; [done|]. rewrite last_cons_cons.
  destruct (last (s' :: l)) eqn:El; [done|]. by apply last_None in El.
Qed.
(** One page of the walk. *)
Lemma page_loop_rows (n : nat) entries slots items last_key :
  Forall2 (fun kv s => slot_value kv.2 = Some s /\ kv.1 = slot_cursor s) entries slots ->
  length items <= n ->
  page_loop (fun _ => true) (fun _ v => Ok (slot_value v)) None n items last_key entries =
  Ok (mkPage (items ++ take (n - length items) slots)
        (if n - length items <? length slots
         then match last (take (n - length items) slots) with Some s => Some (slot_cursor s) | None => last_key end
         else None)).
Proof.
  intros Ha. revert items last_key. induction Ha as [|[k v] s entries slots [Es Ek] Ha IH]; intros items last_key Hn.
  { cbn. by rewrite take_nil, app_nil_r. }
  cbn in Es, Ek. cbn [page_loop negb]. rewrite bool_decide_eq_false_2 by done.
  destruct (decide (n <= length items)) as [Hle|Hgt].
  - rewrite bool_decide_eq_true_2 by done. replace (n - length items) with 0 by lia. cbn. by rewrite app_nil_r.
  - rewrite bool_decide_eq_false_2 by done. rewrite Es. unfold mbind, result_bind.
    rewrite IH by (rewrite length_app; cbn; lia). rewrite length_app. cbn [length].
    replace (n - length items) with (S (n - (length items + 1))) by lia. cbn [take firstn].
    rewrite <-app_assoc. cbn [app]. subst k. f_equal. f_equal.
    change (S (n - (length items + 1)) <? S (length slots)) with (n - (length items + 1) <? length slots).
    destruct (Nat.ltb_spec (n - (length items + 1)) (length slots)) as [Hlt|?]; [|done].
    symmetry. apply (last_cursor_cons s).
Qed.
Lemma desc_page d c n : slot_family_ok d -> 0 < n ->
  iter_slots_desc d c n =
  Ok (mkPage (take n (slots_below d c))
        (if n <? length (slots_below d c)
         then match last (take n (slots_below d c)) with Some s => Some (slot_cursor s) | None => None end
         else None)).
Proof.
  intros Hok Hn. unfold iter_slots_desc. rewrite bool_decide_eq_false_2 by lia.
  rewrite (page_loop_ext _ _ (fun _ v => Ok (slot_value v))), page_loop_region.
  - fold (below d c). rewrite (page_loop_rows n _ (slots_below d c)) by first [by apply below_aligned | cbn; lia].
    cbn. by rewrite Nat.sub_0_r.
  - intros k v Hin. apply (slot_row_ok d k); [done|].
    rewrite iterator_reverse, elem_of_reverse, list_elem_of_filter, iterator_get in Hin. apply Hin.
Qed.

(** The plain walk: one slot after the other, until the page is full, the budget
    spent or the slots exhausted. [last]: where it stands. *)
Section plain.
Context {W : Type} (visit : SlotState -> W -> Api DB W) (full : W -> bool).
Fixpoint plain_walk (slots : list SlotState) (budget : nat) (last_cursor : option bytes) (w : W)
  : Api DB (W * option bytes) :=
  match slots with
  | [] => mret (w, None)
  | s :: slots' =>
      match budget with
      | O => mret (w, last_cursor)
      | S budget' =>
          w' ← visit s w;
          if full w' then mret (w', Some (slot_cursor s)) else plain_walk slots' budget' (Some (slot_cursor s)) w'
      end
  end.
(** [visit] leaves the slot rows alone. *)
Context (Hvisit : forall s w d, same_cf CF_SLOT d (visit s w d).2).

Lemma walk_page_plain slots rest budget last_cursor scanned w d :
  length slots <= budget ->
  plain_walk (slots ++ rest) budget last_cursor w d =
  match walk_page visit full slots scanned w d with
  | (Ok (_, w', Some k), d') => (Ok (w', Some k), d')
  | (Ok (_, w', None), d') =>
      plain_walk rest (budget - length slots)
        (match last slots with Some s => Some (slot_cursor s) | None => last_cursor end) w' d'
  | (Err e, d') => (Err e, d')
  end.
Proof.
  induction slots as [|s slots IH] in budget, last_cursor, scanned, w, d |- *; intros Hb.
  { cbn. by rewrite Nat.sub_0_r. }
  destruct budget as [|budget]; cbn [length] in Hb; [lia|]. cbn [app plain_walk walk_page].
  unfold mbind, Api_bind. destruct (visit s w d) as [[w'|e] d']; [|done].
  destruct (full w'); [done|]. rewrite (IH budget _ (S scanned)) by lia.
  destruct (walk_page visit full slots (S scanned) w' d') as [[[[? ?] [?|]]|] ?]; [done| |done].
  cbn [Nat.sub length]. f_equal. symmetry. apply (last_cursor_cons s).
Qed.
Lemma walk_page_frame slots scanned w d : same_cf CF_SLOT d (walk_page visit full slots scanned w d).2.
Proof.
  induction slots as [|s slots IH] in scanned, w, d |- *; [done|]. cbn [walk_page]. unfold mbind, Api_bind.
  pose proof (Hvisit s w d) as Hv. destruct (visit s w d) as [[w'|e] d']; [|done]. cbn in Hv.
  destruct (full w'); [done|]. etrans; [exact Hv|apply IH].
Qed.
Lemma walk_page_count slots scanned w d scanned' w' d' :
  walk_page visit full slots scanned w d = (Ok (scanned', w', None), d') -> scanned' = scanned + length slots.
Proof.
  induction slots as [|s slots IH] in scanned, w, d |- *; cbn [walk_page].
  { intros [= <- <- <-]. cbn. lia. }
  unfold mbind, Api_bind. destruct (visit s w d) as [[w1|e] d1]; [|done]. destruct (full w1); [done|].
  intros E%IH. cbn. lia.
Qed.
Lemma walk_slots_plain max_slots batch_max fuel : 0 < batch_max -> forall c scanned w d,
  slot_family_ok d -> scanned <= max_slots -> max_slots - scanned < fuel ->
  (scanned < max_slots \/ slots_below d c <> []) ->
  walk_slots visit full max_slots batch_max fuel c scanned w d =
  plain_walk (slots_below d c) (max_slots - scanned) c w d.
Proof.
  intros Hbatch. induction fuel as [|fuel IH]; intros c scanned w d Hok Hs Hf Hne; [lia|]. cbn [walk_slots].
  destruct (Nat.ltb_spec scanned max_slots) as [Hlt|Hge].
  2:{ replace (max_slots - scanned) with 0 by lia. destruct Hne as [?|Hne]; [lia|].
      unfold walk_end. rewrite (proj2 (Nat.leb_le _ _)) by lia. by destruct (slots_below d c). }
  set (n := Nat.min (max_slots - scanned) batch_max). assert (0 < n) as Hn by lia.
  unfold mbind, Api_bind, api_get, api_lift. rewrite (desc_page d c n Hok Hn). cbn [or_internal map_err pg_items pg_next_cursor].
  destruct (slots_below d c) as [|s0 slots0] eqn:Eslots.
  { rewrite take_nil. unfold walk_end. rewrite (proj2 (Nat.leb_gt _ _)) by lia. by destruct (max_slots - scanned). }
  rewrite <-Eslots. assert (take n (slots_below d c) <> []) as Htake by (rewrite Eslots; destruct n; [lia|done]).
  set (page := take n (slots_below d c)) in *.
  replace (plain_walk (slots_below d c)) with (plain_walk (page ++ drop n (slots_below d c)))
    by (subst page; by rewrite take_drop).
  assert (length page <= max_slots - scanned) as Hlen by (subst page; rewrite length_take; lia).
  rewrite (walk_page_plain page (drop n (slots_below d c)) (max_slots - scanned) c scanned w d Hlen).
  pose proof (walk_page_frame page scanned w d) as Hframe.
  destruct page as [|p0 page0] eqn:Epage; [done|]. rewrite <-Epage in *.
  destruct (walk_page visit full page scanned w d) as [[[[scanned' w'] [k|]]|e] d'] eqn:Ewp; [done| |done].
  cbn [snd] in Hframe. apply walk_page_count in Ewp as ->.
  destruct (Nat.ltb_spec n (length (slots_below d c))) as [Hmore|Hless].
  - assert (length page = n) as Hpn by (subst page; rewrite length_take; lia).
    destruct (last page) as [sl|] eqn:El; [|by apply last_None in El; rewrite El in Hpn; cbn in Hpn; lia].
    assert (slots_below d (Some (slot_cursor sl)) = drop n (slots_below d c)) as Hrest.
    { apply last_Some in El as [page1 El]. eapply (slots_below_resume d c page1); [done|].
      rewrite <-(take_drop n (slots_below d c)) at 1. fold page. by rewrite El, <-app_assoc. }
    rewrite IH.
    + rewrite (slots_below_frame d d') by done. rewrite Hrest. f_equal. lia.
    + by eapply family_frame.
    + lia.
    + lia.
    + right. rewrite (slots_below_frame d d') by done. rewrite Hrest. intros E%(f_equal length).
      rewrite length_drop in E. cbn in E. lia.
  - rewrite (drop_ge (slots_below d c) n) by done. cbn. unfold walk_end. by destruct (max_slots <=? _).
Qed.
Lemma walk_plain max_slots batch_max c w d :
  slot_family_ok d -> 0 < max_slots -> 0 < batch_max ->
  walk visit full max_slots batch_max c w d = plain_walk (slots_below d c) max_slots c w d.
Proof.
  intros Hok Hm Hb. unfold walk. rewrite (walk_slots_plain max_slots batch_max) by (done || lia || by left).
  by rewrite Nat.sub_0_r.
Qed.
End plain.

(** ** The two handlers *)
Definition slots_kept {A} (m : Api DB A) : Prop := forall d, same_cf CF_SLOT d (m d).2.
Lemma kept_ret {A} (a : A) : slots_kept (mret a).
Proof. by intros d. Qed.
Lemma kept_bind {A B} (m : Api DB A) (f : A -> Api DB B) :
  slots_kept m -> (forall a, slots_kept (f a)) -> slots_kept (m ≫= f).
Proof.
  intros Hm Hf d. unfold mbind, Api_bind. specialize (Hm d). destruct (m d) as [[a|e] d']; [|done].
  etrans; [exact Hm|apply Hf].
Qed.
Lemma kept_in_store {A} (f : DB -> result Error A) : slots_kept (in_store f).
Proof. by intros d. Qed.
Lemma kept_fold {X W} (f : X -> W -> Api DB W) l : (forall x w, slots_kept (f x w)) -> forall w, slots_kept (api_fold f l w).
Proof.
  intros Hf. induction l as [|x l IH]; intros w; cbn [api_fold]; [apply kept_ret|]. by apply kept_bind.
Qed.
Lemma kept_resolve b : slots_kept (api_st (resolve_block_status b)).
Proof.
  intros d. unfold api_st. destruct (slot_of_block d b) as [slot|e] eqn:Es.
  - destruct (resolve_runs b d slot Es) as (d' & -> & [[-> _]|[_ Hw]]); [done|].
    apply (write_block_in _ d d' Hw). set_solver.
  - unfold resolve_block_status. destruct (bl_status b); [|done..]. unfold mbind, ST_bind, st_get, st_lift.
    fold (slot_of_block d b). by rewrite Es.
Qed.
Lemma visit_ops_kept s w : slots_kept (visit_slot_ops s w).
Proof.
  apply kept_fold. intros bid w1. apply kept_bind; [apply kept_in_store|]. intros [block|]; [|apply kept_ret].
  apply kept_fold. intros oid w2. unfold visit_op. case_bool_decide; [apply kept_ret|].
  apply kept_bind; [apply kept_in_store|]. intros o. apply kept_ret.
Qed.
Lemma visit_blocks_kept s w : slots_kept (visit_slot_blocks s w).
Proof.
  apply kept_fold. intros bid w1. unfold visit_block. case_bool_decide; [apply kept_ret|].
  apply kept_bind; [apply kept_in_store|]. intros [block|]; [|apply kept_ret].
  apply kept_bind; [apply kept_resolve|]. intros b. apply kept_ret.
Qed.
Lemma slots_below_spec d c : slot_family_ok d ->
  StronglySorted slot_newer (slots_below d c) /\
  (forall s, s ∈ slots_below d None <->
     read_slot d (slot_period (ss_slot s)) (slot_thread (ss_slot s)) = Ok (Some s) /\
     Slot_ok (ss_slot s) /\ (slot_thread (ss_slot s) <= 31)%Z).
Proof.
  intros Hok. split.
  - apply (slot_rows_sorted d); [done|by intros k v; apply below_entries|].
    assert (StronglySorted (on_key bytes_gt) (reverse (iterator_cf d CF_SLOT Start))) as Hs
      by (apply (StronglySorted_reverse (on_key bytes_lt)), iterator_entries_sorted).
    destruct c; [rewrite below_Some; by apply StronglySorted_filter|by rewrite below_None].
  - intros s. unfold slots_below. rewrite (slot_rows_members d (below d None) (fun _ => True)); [tauto|done|].
    intros k v. rewrite below_None, elem_of_reverse, iterator_get by done. tauto.
Qed.
(** C17. The recent operations and the recent blocks are what the plain walk down
    the stored slots collects, one slot at a time from below the cursor, until the
    page has its rows or its budget of slots (256 unless asked, at most 4096) is
    spent; reading the slots in batches does not show, although looking a block up
    may repair its row on the way. The cursor handed out is the key of the last
    slot walked, below which lie exactly the slots not walked yet; without one,
    every slot has been walked. *)
Theorem recent_walks_plain cfg d :
  slot_family_ok d ->
  (forall q c, after (oq_page q) = Ok c ->
     let limit := limit_of cfg (oq_page q) in
     recent_operations cfg q d =
     (r ← plain_walk visit_slot_ops (fun w => limit <=? length (wk_out w)) (slots_below d c)
            (Z.to_nat (clamp (default 256%Z (oq_max_slots q)) 1 4096)) c (mkWalked ∅ []);
      mret (with_cursor r.2 (Envelope_new cfg (take limit (wk_out r.1))))) d) /\
  (forall p c, after p = Ok c ->
     let limit := limit_of cfg p in
     blocks_recent cfg p d =
     (r ← plain_walk visit_slot_blocks (fun w => limit <=? length (wk_out w)) (slots_below d c) 4096 c (mkWalked ∅ []);
      mret (with_cursor r.2 (Envelope_new cfg (take limit (wk_out r.1))))) d) /\
  (forall c l1 s l2, slots_below d c = l1 ++ s :: l2 -> slots_below d (Some (slot_cursor s)) = l2) /\
  (forall c, StronglySorted slot_newer (slots_below d c)) /\
  (forall s, s ∈ slots_below d None <->
     read_slot d (slot_period (ss_slot s)) (slot_thread (ss_slot s)) = Ok (Some s) /\
     Slot_ok (ss_slot s) /\ (slot_thread (ss_slot s) <= 31)%Z).
Proof.
  intros Hok. split_and!.
  - intros q c Hc limit. unfold recent_operations. rewrite Hc. unfold mbind, Api_bind, api_lift. cbv zeta. fold limit.
    rewrite walk_plain; [done|intros s w; apply visit_ops_kept|done| |lia]. unfold clamp. lia.
  - intros p c Hc limit. unfold blocks_recent. rewrite Hc. unfold mbind, Api_bind, api_lift. cbv zeta. fold limit.
    rewrite walk_plain; [done|intros s w; apply visit_blocks_kept|done|lia|lia].
  - intros c l1 s l2. by apply slots_below_resume.
  - intros c. by apply slots_below_spec.
  - by apply (slots_below_spec d None).
Qed.
End walking.

Section charts.
Context `{Bs58, Base64, HexCrate, ProstStorage, RocksDB}.
Context (d : DB) (now : Z).

(** The window is one of a minute to a week; a bucket size asked for is taken as it
    is between ten seconds and the window. *)
Lemma resolved_bucket q b :
  cq_bucket_secs q = Some b -> (10 <= b <= (chart_resolve q).1)%Z -> (chart_resolve q).2 = b.
Proof. unfold chart_resolve, clamp. cbn [fst snd]. intros ->. cbn. lia. Qed.
Lemma fetched_slots cap : slot_family_ok d -> 0 < cap ->
  fetch_recent_slots d cap = Ok (take cap (slots_below d None)).
Proof. intros Hok Hc. unfold fetch_recent_slots. by rewrite (desc_page d None cap Hok Hc). Qed.

(** C32. The throughput chart, for any window and bucket asked. [all] are the stored
    slots, newest first. The window is clamped to a minute .. a week, the bucket to
    ten seconds .. the window, and taken as asked in between, whether it divides the
    window or not (the comment at rest.rs:1502 says it is clamped to a divisor). The
    buckets cover the window and none lies wholly beyond it; the last one ends with
    the window exactly when the bucket divides it, and overhangs it otherwise. The
    [i]-th point is at the start of the [i]-th interval; its value is the number of
    operations executed in the slots of that interval, up to now, divided by the
    bucket's seconds, where only the 20,000 newest stored slots are looked at: every
    stored slot when there are no more, otherwise the older ones count nothing,
    although their time falls in the window. *)
Theorem throughput_buckets_exact cfg q :
  slot_family_ok d ->
  let '(window, bucket) := chart_resolve q in
  (60 <= window <= 604800 /\ 10 <= bucket <= window)%Z /\
  (forall b, cq_bucket_secs q = Some b -> (10 <= b <= window)%Z -> bucket = b) /\
  exists all e, StronglySorted slot_newer all /\
    (forall s, s ∈ all <->
       read_slot d (slot_period (ss_slot s)) (slot_thread (ss_slot s)) = Ok (Some s) /\
       Slot_ok (ss_slot s) /\ (slot_thread (ss_slot s) <= 31)%Z) /\
    chart_throughput d now cfg q = Ok e /\
    (Z.of_nat (length (ev_data e)) * bucket >= window /\ Z.of_nat (length (ev_data e) - 1) * bucket < window)%Z /\
    ((Z.of_nat (length (ev_data e)) * bucket = window)%Z <-> (bucket | window)%Z) /\
    forall i, i < length (ev_data e) ->
      ev_data e !! i = Some (mkPoint (now - window * 1000 + Z.of_nat i * (bucket * 1000))
        (Z.of_nat (length (filter (in_bucket d now window bucket i) (take (Z.to_nat 20000) all)
           ≫= ss_executed_op_ids))) bucket).
Proof.
  intros Hok. assert (0 < Z.to_nat 20000) as Hcap by lia.
  pose proof (chart_points d now cfg q _ (fetched_slots _ Hok Hcap)) as Hp.
  pose proof (resolved_bounds q) as Hb. pose proof (resolved_bucket q) as Hr.
  destruct (slots_below_spec d None Hok) as [Hs Hin].
  destruct (chart_resolve q) as [window bucket]. destruct Hp as (e & He & Hlen & Hpoints).
  split; [exact Hb|]. split; [intros b Eb Hle; exact (Hr b Eb Hle)|].
  exists (slots_below d None), e. rewrite Hlen in *. split_and!; try done;
    first [apply n_buckets_exact | apply n_buckets_divide]; lia.
Qed.
End charts.
