(* ===== verification/LegacyDecode.v ===== *)
(** * Decoding legacy rows (src/massa-indexer/src/legacy/decode.rs)

    The archived tables' rows into domain rows: the flat columns of an item, the
    block, operation and endorsement payloads, the transfers derived from an
    operation or read from a sub-transfer row. *)

From S2P Require Import Prelude Text Ids Keys Model Proto Codec Store Db.
From S2P Require Import NodeMsg World Reconcile Ddb.

(** ** Payloads of the tables (massa.model.v1) *)
Record NodeBlock := mkNodeBlock {
  nb_header : option SignedBlockHeader; nb_operations : list string }.
Record BlockWrapper := mkBlockWrapper { bw_status : Z; bw_block : option NodeBlock }.
Record OperationWrapper := mkOperationWrapper {
  ow_block_ids : list string; ow_thread : Z; ow_operation : option SignedOperation }.
(** The prost decoders of the three payloads. *)
Class LegacyProst := {
  prost_BlockWrapper : bytes -> option BlockWrapper;
  prost_OperationWrapper : bytes -> option OperationWrapper;
  prost_SignedEndorsement : bytes -> option SignedEndorsement;
}.

(** The text of a prost error is not modelled. *)
Inductive DecodeError :=
| MissingField (field : string) | InvalidId (msg : string) | ProtoError | AttrError (msg : string).
#[export] Instance DecodeError_eq_dec : EqDecision DecodeError.
Proof. solve_decision. Defined.
Definition proto_decode {M} (decode : bytes -> option M) (b : bytes) : result DecodeError M :=
  ok_or ProtoError (decode b).

(** ** Columns *)
Definition item_str (row : Item) (field : string) : result DecodeError string :=
  ok_or (MissingField field) (v ← row !! field; av_as_str v).
Definition item_str_opt (row : Item) (field : string) : option string :=
  v ← row !! field; av_as_str v.
Definition item_num_i64 (row : Item) (field : string) : result DecodeError Z :=
  av ← ok_or (MissingField field) (row !! field);
  n ← ok_or (AttrError (field +:+ " is not numeric")) (av_as_num av);
  ok_or (AttrError (field +:+ " parse")) (parse_i64 n).
Definition item_num_u32 (row : Item) (field : string) : result DecodeError Z :=
  n ← item_num_i64 row field;
  ok_or (AttrError (field +:+ " not u32")) (within 0 u32_max (Some n)).
Definition item_bytes `{Base64} (row : Item) (field : string) : result DecodeError bytes :=
  av ← ok_or (MissingField field) (row !! field);
  ok_or (AttrError "not B-encoded") (av_bytes av).

(** [str::contains('_')]. *)
Definition underscore : byte := Byte.x5f.
Definition contains_underscore (s : string) : bool := is_some (split_once underscore s).
(** [filter(|s| !s.is_empty() && *s != zero)] on an optional column. *)
Definition real_column (o : option string) : option string :=
  s ← o; if negb (str_is_empty s) && negb (bool_decide (s = "0")) then Some s else None.

Section decode.
Context `{Bs58, Base64, HexCrate, LegacyProst, NodeEncode}.

(** ** The module's copies of ingest.rs helpers *)
Definition classify_op_type (op_type : option OperationType)
  : OperationKind * option Address * OperationDetails :=
  match op_type with
  | None => (OpUnknown, None, OperationDetails_default)
  | Some op_type =>
      match ot_type op_type with
      | None => (OpUnknown, None, OperationDetails_default)
      | Some (OtTransaction tx) =>
          (OpTransaction, ok (Address_parse (nt_recipient_address tx)),
           OperationDetails_default
             <| od_amount_nmas := na_mantissa <$> nt_amount tx |>
             <| od_recipient_address := Some (nt_recipient_address tx) |>)
      | Some (OtRollBuy n) =>
          (OpRollBuyKind, None, OperationDetails_default <| od_roll_count := Some n |>)
      | Some (OtRollSell n) =>
          (OpRollSellKind, None, OperationDetails_default <| od_roll_count := Some n |>)
      | Some (OtExecuteSc e) =>
          (OpExecuteSc, None,
           OperationDetails_default
             <| od_bytecode_hex := Some (hex_crate_encode (es_data e)) |>
             <| od_bytecode_size := Some (Z.of_nat (length (es_data e))) |>
             <| od_max_coins_nmas := Some (es_max_coins e) |>
             <| od_max_gas := Some (es_max_gas e) |>
             <| od_datastore_keys := Some (as_u32 (Z.of_nat (length (es_datastore e)))) |>
             <| od_datastore :=
                  (fun x => mkDatastoreEntry (hex_crate_encode (bme_key x))
                              (hex_crate_encode (bme_value x))) <$> es_datastore e |>)
      | Some (OtCallSc c) =>
          (OpCallSc, ok (Address_parse (cs_target_address c)),
           OperationDetails_default
             <| od_target_address := Some (cs_target_address c) |>
             <| od_target_function := Some (cs_target_function c) |>
             <| od_parameter_hex := Some (hex_crate_encode (cs_parameter c)) |>
             <| od_parameter_len := Some (Z.of_nat (length (cs_parameter c))) |>
             <| od_max_gas := Some (cs_max_gas c) |>
             <| od_coins_nmas := na_mantissa <$> cs_coins c |>)
      end
  end.
Definition decode_signed_endorsement (se : SignedEndorsement) (including_block : BlockId)
    (including_slot : Slot) (now_ms : Z) : option StoredEndorsement :=
  content ← se_content se;
  slot_pb ← ne_slot content;
  let slot := mkSlot (ns_period slot_pb) (as_u8 (ns_thread slot_pb)) in
  creator ← ok (Address_parse (se_content_creator_address se));
  Some {|
    en_id := se_secure_hash se; en_slot := slot; en_index := ne_index content;
    en_endorsed_block_id := ne_endorsed_block content;
    en_content_creator_pub_key := se_content_creator_pub_key se;
    en_content_creator_address := creator;
    en_signature := se_signature se; en_serialized_size := se_serialized_size se;
    en_included_block_id := id_to_string including_block; en_included_slot := including_slot;
    en_first_seen_ts_ms := now_ms |}.
Definition legacy_decode_denunciation (d : NodeDenunciation) : StoredDenunciation :=
  let slot_of s := match s with
                   | Some s => mkSlot (ns_period s) (as_u8 (ns_thread s)) | None => mkSlot 0 0 end in
  match nd_entry d with
  | Some (NdBlockHeader pk s h1 h2 s1 s2) => DenBlockHeader pk (slot_of s) h1 h2 s1 s2
  | Some (NdEndorsement pk s i h1 h2 s1 s2) => DenEndorsement pk (slot_of s) i h1 h2 s1 s2
  | Some (NdAddress a s slashed) =>
      DenAddress a (slot_of s) match slashed with Some v => na_mantissa v | None => 0%Z end
  | None => DenUnknown
  end.

(** ** Rows *)
Record BlockRow := mkBlockRow {
  br_hash : string; br_raw : bytes; br_slot : Slot; br_creator_address : string }.
Definition decode_block_row (row : BlockRow) (now_ms : Z)
  : result DecodeError (StoredBlock * list string * list StoredEndorsement) :=
  bw ← proto_decode prost_BlockWrapper (br_raw row);
  block ← ok_or (MissingField "block") (bw_block bw);
  hdr ← ok_or (MissingField "block.header") (nb_header block);
  block_hdr ← ok_or (MissingField "block.header.content") (sh_content hdr);
  block_id ← map_err (fun e => InvalidId ("block hash " +:+ br_hash row +:+ ": " +:+ e))
               (BlockId_parse (br_hash row));
  creator ← map_err (fun e => InvalidId ("creator " +:+ br_creator_address row +:+ ": " +:+ e))
              (Address_parse (br_creator_address row));
  let endorsements := omap (fun se => decode_signed_endorsement se block_id (br_slot row) now_ms)
                        (bh_endorsements block_hdr) in
  let stored := {|
    bl_id := block_id; bl_slot := br_slot row; bl_creator := creator;
    bl_parents := omap (fun p => ok (BlockId_parse p)) (bh_parents block_hdr);
    bl_operation_ids := omap (fun s => ok (OperationId_parse s)) (nb_operations block);
    bl_endorsements := endorsements;
    bl_endorsement_ids := en_id <$> endorsements;
    bl_denunciations := legacy_decode_denunciation <$> bh_denunciations block_hdr;
    bl_current_version := bh_current_version block_hdr;
    bl_announced_version := bh_announced_version block_hdr;
    bl_operations_hash := bh_operations_hash block_hdr;
    bl_signature := sh_signature hdr;
    bl_content_creator_pub_key := sh_content_creator_pub_key hdr;
    bl_serialized_size := sh_serialized_size hdr;
    bl_raw_signed_header_b64 := b64_encode (encode_signed_header hdr);
    bl_status := BlockFinal;
    bl_first_seen_ts_ms := now_ms |} in
  Ok (stored, nb_operations block, endorsements).

Record OpRow := mkOpRow {
  or_hash : string; or_raw : bytes; or_status : Z; or_block_hash : string; or_slot : Slot }.
Record DecodedOp := mkDecodedOp { do_stored : StoredOperation; do_executed : bool }.
(** The status column: 1 executed, 2 failed. *)
Definition legacy_exec_status (status : Z) : option ExecStatus :=
  match status with 1 => Some ExecOk | 2 => Some ExecFailed | _ => None end%Z.
Definition decode_op_row (row : OpRow) (now_ms : Z) : result DecodeError DecodedOp :=
  wrapper ← proto_decode prost_OperationWrapper (or_raw row);
  signed ← ok_or (MissingField "operation_wrapper.operation") (ow_operation wrapper);
  content ← ok_or (MissingField "operation.content") (so_content signed);
  op_id ← map_err (fun e => InvalidId ("op id " +:+ or_hash row +:+ ": " +:+ e))
            (OperationId_parse (or_hash row));
  block_id ← map_err (fun e => InvalidId ("block id " +:+ or_block_hash row +:+ ": " +:+ e))
               (BlockId_parse (or_block_hash row));
  creator ← map_err (fun e => InvalidId ("op creator: " +:+ e))
              (Address_parse (so_content_creator_address signed));
  let '(kind, target, details) := classify_op_type (no_op content) in
  Ok (mkDecodedOp {|
    op_id := op_id; op_creator := creator; op_target := target; op_kind := kind;
    op_expire_period := no_expire_period content;
    op_fee_nmas := default 0%Z (na_mantissa <$> no_fee content);
    op_thread := slot_thread (or_slot row);
    op_inclusions := [mkInclusion (or_slot row) block_id];
    op_candidate_exec_status := None;
    op_final_exec_status := legacy_exec_status (or_status row);
    op_details := details;
    op_signature := so_signature signed;
    op_content_creator_pub_key := so_content_creator_pub_key signed;
    op_serialized_size := so_serialized_size signed;
    op_raw_signed_op_b64 := b64_encode (encode_signed_operation signed);
    op_first_seen_ts_ms := now_ms |} (Z.eqb (or_status row) 1)).

Definition decode_endorsement_row (hash : string) (raw : bytes) (block_hash : string)
    (block_slot : Slot) (now_ms : Z) : result DecodeError StoredEndorsement :=
  signed ← proto_decode prost_SignedEndorsement raw;
  block_id ← map_err (fun e => InvalidId ("endo block id: " +:+ e)) (BlockId_parse block_hash);
  ok_or (MissingField "endorsement.content")
    ((fun e : StoredEndorsement => e <| en_id := hash |>)
       <$> decode_signed_endorsement signed block_id block_slot now_ms).

(** ** Transfers *)
Definition legacy_op_to_transfer (op : StoredOperation) (slot : Slot) (block_id : string)
    (index_in_slot block_timestamp_ms : Z) : option StoredTransfer :=
  if negb (bool_decide (op_kind op = OpTransaction)) then None
  else
    amount ← od_amount_nmas (op_details op);
    if Z.eqb amount 0 then None
    else
      to ← od_recipient_address (op_details op);
      Some {|
        tr_slot := slot; tr_index_in_slot := index_in_slot;
        tr_id := id_to_string (op_id op) +:+ ":" +:+ dec index_in_slot;
        tr_block_id := Some block_id; tr_block_timestamp_ms := block_timestamp_ms;
        tr_from := Some (addr_to_string (op_creator op)); tr_to := Some to;
        tr_value := TVCoins amount; tr_origin := OpTransactionCoins;
        tr_operation_id := Some (id_to_string (op_id op));
        tr_async_msg_id := None; tr_deferred_call_id := None; tr_denunciation_index := None;
        tr_is_final := true; tr_first_seen_ts_ms := block_timestamp_ms |}.

Record SubTransferRow := mkSubRow {
  st_hash : string;
  st_status : Z;
  st_original_op_id : option string;
  st_slot_and_asc_index : option string;
  st_creator_address : string;
  st_other_address : option string;
  st_amount_nmas : Z;
}.
(** The operation a sub-transfer row belongs to: the prefix of its hash, or else
    the column. *)
Definition parent_op (row : SubTransferRow) : option string :=
  match split_once underscore (st_hash row) with
  | Some (prefix, _) => Some prefix
  | None => real_column (st_original_op_id row)
  end.
Definition sub_transfer_origin (row : SubTransferRow) : CoinOrigin :=
  if is_some (parent_op row) then AbiTransferCoins
  else if is_some (real_column (st_slot_and_asc_index row)) then BlockReward
  else OtherOrigin 0.
Definition legacy_sub_transfer_to_transfer (row : SubTransferRow) (slot : Slot)
    (block_id : option string) (index_in_slot block_timestamp_ms : Z) : option StoredTransfer :=
  if negb (Z.eqb (st_status row) 1) then None
  else if Z.eqb (st_amount_nmas row) 0 then None
  else Some {|
    tr_slot := slot; tr_index_in_slot := index_in_slot; tr_id := st_hash row;
    tr_block_id := block_id; tr_block_timestamp_ms := block_timestamp_ms;
    tr_from := non_empty (st_creator_address row);
    tr_to := real_column (st_other_address row);
    tr_value := TVCoins (st_amount_nmas row); tr_origin := sub_transfer_origin row;
    tr_operation_id := parent_op row;
    tr_async_msg_id := None; tr_deferred_call_id := None; tr_denunciation_index := None;
    tr_is_final := true; tr_first_seen_ts_ms := block_timestamp_ms |}.
End decode.
