(* ===== verification/LegacySource.v ===== *)
(** * The legacy source (src/massa-indexer/src/legacy/source.rs)

    What the archived tables hold for a slot, assembled as the response a peer
    would give, and the interface the importer uses it through. *)

From S2P Require Import Prelude Text Ids Keys Model Proto Codec Store Db.
From S2P Require Import NodeMsg World Reconcile Ddb LegacyDecode.

(** [LegacyPages] is the model's: the paging fuel ran out. *)
Inductive LegacyError :=
| LegacyDdb (e : DdbError) | LegacyDecode (e : DecodeError) | LegacyOther (msg : string) | LegacyPages.
Record LegacyFetch := mkFetch { lf_resp : FinalSlotResponse; lf_rpcs : Z }.

(** The interface (trait [LegacySource]): a lookup that answers does so with a
    FINAL verdict for the slot it was asked about, never a miss. *)
Class LegacySource := {
  Source : Type;
  fetch_slot : Z -> Z -> Source -> result LegacyError (option LegacyFetch) * Source;
  fetch_slot_answers p t s f s' :
    u8_ok t -> fetch_slot p t s = (Ok (Some f), s') ->
    fr_period (lf_resp f) = p /\ fr_thread (lf_resp f) = t /\
    fr_final_known (lf_resp f) = true /\ fr_is_miss (lf_resp f) = false;
}.

(** [slice::chunks]. *)
Fixpoint chunks_aux {A} (fuel n : nat) (l : list A) : list (list A) :=
  match fuel with
  | O => []
  | S fuel' => match l with [] => [] | _ => take n l :: chunks_aux fuel' n (drop n l) end
  end.
Definition chunks {A} (n : nat) (l : list A) : list (list A) := chunks_aux (length l) n l.

(** ** Rows of a slot *)
Definition native_amount_mantissa (row : Item) (field : string) : option Z :=
  v ← row !! field; m ← av_m v; x ← (m : gmap string AttributeValue) !! "Mantissa";
  n ← av_as_num x; parse_u64 n.
(** The operations with an explicit sub-transfer row. *)
Definition covered_op (row : Item) : option string :=
  hash ← item_str_opt row "Hash";
  if negb (contains_underscore hash) then None
  else real_column (item_str_opt row "OriginalOperationID").
Definition covered_op_ids_from_rows (rows : list Item) : gset string :=
  list_to_set (omap covered_op rows).

(** A row of the slot read as a sub-transfer; [None] for a top-level operation. *)
Definition sub_transfer_row (row : Item) : option SubTransferRow :=
  hash ← ok (item_str row "Hash");
  if negb (contains_underscore hash) then None
  else Some {|
    st_hash := hash;
    st_status := default 0%Z (ok (item_num_i64 row "Status"));
    st_original_op_id := item_str_opt row "OriginalOperationID";
    st_slot_and_asc_index := item_str_opt row "SlotAndAscIndex";
    st_creator_address := default "" (ok (item_str row "CreatorAddress"));
    st_other_address := item_str_opt row "OtherAddress";
    st_amount_nmas := default 0%Z (native_amount_mantissa row "Amount") |}.
(** The transfers of the sub-transfer rows, numbered from [index]; the ids of
    [skip] are left out. *)
Definition saturating_succ_u32 (i : Z) : Z := Z.min u32_max (i + 1).
Fixpoint sub_transfers (slot : Slot) (block_id : option string) (ts : Z) (skip : gset string)
    (index : Z) (rows : list Item) : list StoredTransfer :=
  match rows with
  | [] => []
  | row :: rows' =>
      match sub_transfer_row row with
      | None => sub_transfers slot block_id ts skip index rows'
      | Some view =>
          if bool_decide (st_hash view ∈ skip)
          then sub_transfers slot block_id ts skip index rows'
          else
            match legacy_sub_transfer_to_transfer view slot block_id index ts with
            | Some t =>
                t :: sub_transfers slot block_id ts skip (saturating_succ_u32 index) rows'
            | None => sub_transfers slot block_id ts skip index rows'
            end
      end
  end.
Definition decoded_op_count_top_level (resp : FinalSlotResponse) : Z :=
  as_u32 (Z.of_nat (length (fr_transfers resp))).

Section source.
Context `{Bs58, Base64, HexCrate, ProstStorage, LegacyProst, NodeEncode, AwsOutside}.
(** How many pages of one query are followed. *)
Context (page_fuel : nat).

Definition lift_decode {A} (r : result DecodeError A) : DD LegacyError A :=
  dd_lift (map_err LegacyDecode r).
Definition rpc {A} (m : DD DdbError A) : DD LegacyError A := dd_map_err LegacyDdb m.
Definition legacy_fail {A} (msg : string) : DD LegacyError A := dd_lift (Err (LegacyOther msg)).

(** ** Queries *)
Definition slot_query (table : string) (period thread : Z) (limit : option Z)
    (start_key : option Item) : QueryRequest := {|
  qr_table_name := table; qr_index_name := Some "PointInTimeAndHashIndex";
  qr_key_condition_expression := "PointInTime = :p";
  qr_expression_attribute_names := ∅;
  qr_expression_attribute_values := {[ ":p" := n_num (point_in_time period thread) ]};
  qr_limit := limit; qr_exclusive_start_key := start_key;
  qr_scan_index_forward := None; qr_consistent_read := None |}.
Definition find_block_row (period thread : Z) : DD LegacyError (option Item) :=
  table ← dd_gets lc_blocks_table;
  resp ← rpc (query (slot_query table period thread (Some 1%Z) None));
  mret (head (qo_items resp)).
Definition next_key (resp : QueryOutput) : option Item :=
  k ← qo_last_evaluated_key resp; if bool_decide (k = ∅) then None else Some k.
Fixpoint list_pages (fuel : nat) (period thread : Z) (last_key : option Item)
  : DD LegacyError (list Item) :=
  match fuel with
  | O => dd_lift (Err LegacyPages)
  | S fuel' =>
      table ← dd_gets lc_operations_table;
      resp ← rpc (query (slot_query table period thread None last_key));
      match next_key resp with
      | None => mret (qo_items resp)
      | Some k =>
          rest ← list_pages fuel' period thread (Some k);
          mret (qo_items resp ++ rest)
      end
  end.
Definition list_slot_rows (period thread : Z) : DD LegacyError (list Item) :=
  list_pages page_fuel period thread None.
Definition fetch_sub_transfers (period thread : Z) (block_id : option string)
    (start_index block_timestamp_ms : Z) (skip_ids : gset string)
  : DD LegacyError (list StoredTransfer) :=
  rows ← list_slot_rows period thread;
  mret (sub_transfers (mkSlot period thread) block_id block_timestamp_ms skip_ids start_index rows).

(** ** The block of the slot *)
Definition hash_key (h : string) : Item := {[ "Hash" := s_str h ]}.
(** The row itself when it carries the payload, a second read otherwise. *)
Definition full_block_row (row : Item) : DD LegacyError (Item * Z) :=
  if is_some (row !! "Raw") then mret (row, 1%Z)
  else
    hash ← lift_decode (item_str row "Hash");
    table ← dd_gets lc_blocks_table;
    out ← rpc (get_item table (hash_key hash));
    match go_item out with
    | Some row => mret (row, 2%Z)
    | None => legacy_fail ("legacy: BlocksMainnet[" +:+ hash +:+ "] vanished between Query and GetItem")
    end.
(** Its columns, checked against the slot asked for. *)
Definition block_row_view (period thread : Z) (row : Item) : result LegacyError BlockRow :=
  hash ← map_err LegacyDecode (item_str row "Hash");
  creator ← map_err LegacyDecode (item_str row "CreatorAddress");
  raw ← map_err LegacyDecode (item_bytes row "Raw");
  pit ← map_err LegacyDecode (item_num_u32 row "PointInTime");
  let slot := point_in_time_to_slot pit in
  if negb (Z.eqb (slot_period slot) period) || negb (Z.eqb (slot_thread slot) thread)
  then Err (LegacyOther "legacy: row PIT decode mismatches request")
  else Ok (mkBlockRow hash raw slot creator).
Definition legacy_shell (period thread : Z) (block_hash : string) (block : StoredBlock)
  : FinalSlotResponse :=
  FinalSlotResponse_default
    <| fr_period := period |> <| fr_thread := thread |> <| fr_final_known := true |>
    <| fr_final_block_id := block_hash |>
    <| fr_block := ok (block_to_peer_pb block) |>
    <| fr_endorsements := omap (fun e => ok (endorsement_to_peer_pb e)) (bl_endorsements block) |>.

(** ** Its operations *)
Definition decode_op_item (slot : Slot) (block_hash : string) (now_ms : Z) (row : Item)
  : option DecodedOp :=
  hash ← ok (item_str row "Hash");
  raw ← ok (item_bytes row "Raw");
  ok (decode_op_row {|
    or_hash := hash; or_raw := raw;
    or_status := default 0%Z (ok (item_num_i64 row "Status"));
    or_block_hash := default block_hash (item_str_opt row "BlockHash");
    or_slot := slot |} now_ms).
(** One batch read per chunk; the keys it left unprocessed are not asked again. *)
Fixpoint fetch_ops (slot : Slot) (block_hash : string) (now_ms : Z) (batches : list (list string))
  : DD LegacyError (list DecodedOp) :=
  match batches with
  | [] => mret []
  | chunk :: batches' =>
      table ← dd_gets lc_operations_table;
      batch ← rpc (batch_get table (hash_key <$> chunk));
      rest ← fetch_ops slot block_hash now_ms batches';
      mret (omap (decode_op_item slot block_hash now_ms)
              (default [] (bo_responses batch !! table)) ++ rest)
  end.
(** A transfer per executed transaction no sub-transfer row stands for; the
    index is the position among the decoded operations. *)
Definition synthesised_transfer (slot : Slot) (block_hash : string) (ts : Z)
    (covered : gset string) (i : nat) (d : DecodedOp) : option StoredTransfer :=
  if negb (do_executed d) then None
  else if bool_decide (id_to_string (op_id (do_stored d)) ∈ covered) then None
  else legacy_op_to_transfer (do_stored d) slot block_hash (as_u32 (Z.of_nat i)) ts.
Definition with_ops (slot : Slot) (block_hash : string) (ts : Z) (covered : gset string)
    (ops : list DecodedOp) (resp : FinalSlotResponse) : result LegacyError FinalSlotResponse :=
  transfers ← try_map (fun t => ok_or (LegacyOther "expect") (transfer_to_peer_pb t))
    (omap id (imap (synthesised_transfer slot block_hash ts covered) ops));
  Ok (resp
    <| fr_operations := omap (fun d => ok (operation_to_peer_pb (do_stored d))) ops |>
    <| fr_executed_op_ids := omap (fun d =>
         if do_executed d then Some (id_to_string (op_id (do_stored d))) else None) ops |>
    <| fr_transfers := transfers |>).
(** The explicit rows follow the synthesised ones. *)
Definition with_sub_transfers (slot : Slot) (block_hash : string) (ts : Z) (rows : list Item)
    (resp : FinalSlotResponse) : result LegacyError FinalSlotResponse :=
  let subs := sub_transfers slot (Some block_hash) ts ∅ (decoded_op_count_top_level resp) rows in
  transfers ← try_map (fun t => ok_or (LegacyOther "expect") (transfer_to_peer_pb t)) subs;
  Ok (resp <| fr_transfers := fr_transfers resp ++ transfers |>).

Definition assemble_slot (period thread : Z) (row : Item) (rpcs : Z) : DD LegacyError LegacyFetch :=
  view ← dd_lift (block_row_view period thread row);
  now_ms ← dd_ask unix_millis;
  '(block, op_ids, _) ← lift_decode (decode_block_row view now_ms);
  let shell := legacy_shell period thread (br_hash view) block in
  slot_rows ← list_slot_rows period thread;
  let batches := chunks 100 op_ids in
  ops ← fetch_ops (br_slot view) (br_hash view) now_ms batches;
  resp ← dd_lift (with_ops (br_slot view) (br_hash view) now_ms
                    (covered_op_ids_from_rows slot_rows) ops shell);
  resp ← dd_lift (with_sub_transfers (br_slot view) (br_hash view) now_ms slot_rows resp);
  mret (mkFetch resp (as_u32 (rpcs + 1 + Z.of_nat (length batches)))).
Definition ddb_fetch_slot (period thread : Z) : DD LegacyError (option LegacyFetch) :=
  open ← dd_gets (fun c => within_window c period);
  if negb open then mret None
  else
    found ← find_block_row period thread;
    match found with
    | None => mret None
    | Some row =>
        '(row, rpcs) ← full_block_row row;
        fetch ← assemble_slot period thread row rpcs;
        mret (Some fetch)
    end.
End source.
