(* ===== verification/OneShot.v ===== *)
(** * The one-shot legacy importer (src/massa-indexer/src/legacy/oneshot.rs)

    The descending sweep over a window of slots, the retries of one lookup and
    the passes that end when none is left in error. The importer knows the legacy
    tables through the class [LegacySource] only. Pauses are not modelled. *)

From S2P Require Import Prelude Ids Keys Model Proto Codec Store Db.
From S2P Require Import NodeMsg World Reconcile Task Ddb LegacyDecode LegacySource.

Definition FETCH_ATTEMPTS : nat := 8.
Record OneShotConfig := mkOneShot {
  os_max_period : option Z;
  os_min_period : option Z;
  os_rate_limit_ms : Z;
  os_thread_count : Z;
  os_concurrency : Z;
}.
Definition OneShotConfig_default : OneShotConfig := mkOneShot None None 50 32 1.

(** How the attempt to settle a slot ended; an error is kept as it is. *)
Inductive FetchKind :=
| Filled (resp : FinalSlotResponse) | Empty | Skipped | FetchError (e : LegacyError).

Definition slot_already_covered (s : SlotState) : bool :=
  if negb (bool_decide (ss_status s = SlotFinal)) then false
  else if ss_is_miss s then true
  else block_body_stored (ss_completeness s) || transfers_stored (ss_completeness s).
(** A verdict that stands although the body is missing. *)
Definition verdict_with_block (s : SlotState) : bool :=
  bool_decide (ss_status s = SlotFinal) && is_some (ss_final_block_id s).
Definition miss_response (period thread : Z) : FinalSlotResponse :=
  FinalSlotResponse_default <| fr_period := period |> <| fr_thread := thread |>
    <| fr_final_known := true |> <| fr_is_miss := true |>.

(** The slots of the window, newest period first. *)
Definition slot_seq (floor head thread_count : Z) : list (Z * Z) :=
  slots_desc floor head thread_count.

(** The source and the answers it gave, in order. *)
Record Lookups `{LegacySource} := mkLookups {
  lk_source : Source;
  lk_answers : list (Z * Z * result LegacyError (option LegacyFetch));
}.

Section importer.
Context `{Bs58, Base64, HexCrate, ProstStorage, RocksDB, LegacySource}.
Context (store : nat -> DB) (closed : nat -> bool).
(** The order in which the concurrent lookups of the n-th pass complete. *)
Context (complete : nat -> list (Z * Z) -> list (Z * Z)).
Abbreviation Importer := (Task Lookups).

Definition lookup_slot (p t : Z) (l : Lookups)
  : result LegacyError (option LegacyFetch) * Lookups :=
  let '(r, s) := fetch_slot p t (lk_source l) in
  (r, mkLookups _ s (lk_answers l ++ [(p, t, r)])).
Fixpoint fetch_attempts (n : nat) (p t : Z) (last_err : LegacyError) : ST Importer FetchKind :=
  match n with
  | O => mret (FetchError last_err)
  | S n' =>
      r ← on_own (lookup_slot p t);
      match r with
      | Ok (Some fetch) => mret (Filled (lf_resp fetch))
      | Ok None => mret Empty
      | Err e => fetch_attempts n' p t e
      end
  end.
Definition fetch_slot_resilient (p t : Z) : ST Importer FetchKind :=
  fetch_attempts FETCH_ATTEMPTS p t (LegacyOther "").
(** The local check first: a covered slot costs no lookup. *)
Definition settle_slot (p t : Z) : ST Importer FetchKind :=
  row ← look_db store (fun d => read_slot d p t);
  match row with
  | Ok (Some s) => if slot_already_covered s then mret Skipped else fetch_slot_resilient p t
  | _ => fetch_slot_resilient p t
  end.

Record Tally := mkTally { ty_imported : Z; ty_skipped : Z; ty_errored : Z }.
(** One outcome, tallied; [None] when the channel closed. *)
Definition consume (p t : Z) (kind : FetchKind) (n : Tally) : ST Importer (option Tally) :=
  gone ← channel_closed closed;
  if gone : bool then mret None
  else
    match kind with
    | Skipped => mret (Some (n <| ty_skipped := (ty_skipped n + 1)%Z |>))
    | Empty =>
        row ← look_db store (fun d => read_slot d p t);
        let stands := match row with Ok (Some s) => verdict_with_block s | _ => false end in
        if stands : bool then mret (Some (n <| ty_skipped := (ty_skipped n + 1)%Z |>))
        else
          sent ← send_patch closed (miss_response p t);
          mret (if sent : bool then Some (n <| ty_imported := (ty_imported n + 1)%Z |>) else None)
    | FetchError _ => mret (Some (n <| ty_errored := (ty_errored n + 1)%Z |>))
    | Filled resp =>
        sent ← send_patch closed resp;
        mret (if sent : bool then Some (n <| ty_imported := (ty_imported n + 1)%Z |>) else None)
    end.
(** The outcomes in the order they arrive; the errors counted when the loop ends. *)
Fixpoint consume_all (slots : list (Z * Z)) (n : Tally) : ST Importer Z :=
  match slots with
  | [] => mret (ty_errored n)
  | (p, t) :: slots' =>
      kind ← settle_slot p t;
      next ← consume p t kind n;
      match next with
      | None => mret (ty_errored n)
      | Some n => consume_all slots' n
      end
  end.
Definition run_oneshot_pass (cfg : OneShotConfig) (head floor : Z) (pass : nat) : ST Importer Z :=
  consume_all (complete pass (slot_seq floor head (os_thread_count cfg))) (mkTally 0 0 0).

(** [None] while no slot is final, or when the channel closed ([Some None]). *)
Fixpoint wait_for_head (polls : nat) : ST Importer (option (option Z)) :=
  match polls with
  | O => mret None
  | S polls' =>
      gone ← channel_closed closed;
      if gone : bool then mret (Some None)
      else
        row ← look_db store read_last_final_slot;
        match row with
        | Ok (Some s) => mret (Some (Some (slot_period s)))
        | _ => wait_for_head polls'
        end
  end.
Inductive ImportEnd := ImportComplete | ImportShutdown | ImportRunning.
Fixpoint oneshot_passes (n pass : nat) (cfg : OneShotConfig) (head floor : Z)
  : ST Importer ImportEnd :=
  match n with
  | O => mret ImportRunning
  | S n' =>
      gone ← channel_closed closed;
      if gone : bool then mret ImportShutdown
      else
        errored ← run_oneshot_pass cfg head floor (S pass);
        gone ← channel_closed closed;
        if gone : bool then mret ImportShutdown
        else if Z.eqb errored 0 then mret ImportComplete
        else oneshot_passes n' (S pass) cfg head floor
  end.
(** The task over its first [n] polls and passes. *)
Definition run_oneshot_import (n : nat) (cfg : OneShotConfig) : ST Importer ImportEnd :=
  head ← match os_max_period cfg with
         | Some p => mret (Some (Some p))
         | None => wait_for_head n
         end;
  match head : option (option Z) with
  | None => mret ImportRunning
  | Some None => mret ImportShutdown
  | Some (Some head) => oneshot_passes n 0 cfg head (default 0%Z (os_min_period cfg))
  end.
End importer.
