(* ===== verification/SseProps.v ===== *)
(** * What the SSE hub guarantees

    Frames are numbered without gaps; the ring holds exactly the latest ones; a
    client that reconnects in time gets every frame after its last one, once, but for
    those broadcast between its replay and its subscription. *)

From S2P Require Import Prelude Text Ids Keys Model Proto Codec Store Db.
From S2P Require Import NodeMsg World Reconcile Sse.

Section sse.
Context `{SerdeJson, BroadcastChannel}.
Implicit Types (h : SseHub) (evs : list SlotSseEvent).









End sse.
