(* ===== verification/Repair.v ===== *)
(** * Operator repair tasks (src/massa-indexer/src/repair.rs)

    The three checkpointed tasks: rebuilding coin transfers from executed
    operations, pulling missing parts from peers, and fetching the archive's
    sub-transfers. A slot's reads are taken from one look at the store; pauses,
    counters and log lines are not modelled. *)

From S2P Require Import Prelude Text Ids Keys Model Proto Codec Store Db.
From S2P Require Import NodeMsg World Reconcile Task Registry PeerService Client Backfill.
From S2P Require Import Ddb LegacyDecode LegacySource.

Definition CHECKPOINT_EVERY : Z := 64.

(** [i64] arithmetic of a release build. *)
Definition as_i64 (z : Z) : Z := ((z + 2 ^ 63) mod 2 ^ 64 - 2 ^ 63)%Z.
Definition saturating_mul_i64 (a b : Z) : Z := Z.max (- 2 ^ 63) (Z.min (2 ^ 63 - 1) (a * b)).

Record ReconstructConfig := mkReconstruct {
  rc_from_period : Z;
  rc_to_period : Z;
  rc_thread_count : Z;
  rc_genesis_timestamp_ms : Z;
  rc_t0_ms : Z;
}.
Definition reconstruct_ckpt_key (cfg : ReconstructConfig) : string :=
  "repair:reconstruct_transfers:" +:+ dec (rc_from_period cfg) +:+ "-" +:+
  dec (rc_to_period cfg) +:+ ":next_period".
Definition slot_timestamp_ms (cfg : ReconstructConfig) (slot : Slot) : Z :=
  let per_thread := Z.quot (rc_t0_ms cfg) (Z.max (rc_thread_count cfg) 1) in
  as_i64 (as_i64 (rc_genesis_timestamp_ms cfg
                  + saturating_mul_i64 (as_i64 (slot_period slot)) (rc_t0_ms cfg))
          + as_i64 (slot_thread slot * per_thread)).
(** The period a task resumes at: its checkpoint, not below the range. *)
Definition resume_up (ckpt : option string) (from : Z) : Z :=
  match ckpt with
  | Some s => Z.max (default from (parse_u64 s)) from
  | None => from
  end.
Definition resume_down (ckpt : option string) (to : Z) : Z :=
  match ckpt with
  | Some s => Z.min (default to (parse_u64 s)) to
  | None => to
  end.

Section repair.
Context `{Bs58, Base64, HexCrate, ProstStorage, RocksDB}.

(** ** Reconstructing transfers *)
(** A slot worth rebuilding: FINAL, not a miss, without the node's list. *)
Definition lacks_transfers (s : SlotState) : bool :=
  bool_decide (ss_status s = SlotFinal) && negb (ss_is_miss s) &&
  negb (transfers_stored (ss_completeness s)) && negb (bool_decide (ss_executed_op_ids s = [])).
Definition executed_transaction (op : StoredOperation) : bool :=
  bool_decide (op_kind op = OpTransaction) && bool_decide (op_final_exec_status op = Some ExecOk).
Fixpoint rebuilt (d : DB) (slot : Slot) (block_id : string) (ts index : Z)
    (ids : list OperationId) : result Error (list StoredTransferPb) :=
  match ids with
  | [] => Ok []
  | op_id :: ids' =>
      row ← read_op d op_id;
      match row with
      | None => rebuilt d slot block_id ts index ids'
      | Some op =>
          if negb (executed_transaction op) then rebuilt d slot block_id ts index ids'
          else
            match legacy_op_to_transfer op slot block_id index ts with
            | None => rebuilt d slot block_id ts index ids'
            | Some t =>
                pb ← expect (transfer_to_peer_pb t);
                rest ← rebuilt d slot block_id ts (as_u32 (index + 1)) ids';
                Ok (pb :: rest)
            end
      end
  end.
(** A patch carrying transfers only. *)
Definition transfers_patch (slot : Slot) (block_id : string) (rows : list StoredTransferPb)
  : FinalSlotResponse :=
  FinalSlotResponse_default <| fr_period := slot_period slot |> <| fr_thread := slot_thread slot |>
    <| fr_final_known := true |> <| fr_final_block_id := block_id |> <| fr_transfers := rows |>.
Definition reconstruct_slot (d : DB) (cfg : ReconstructConfig) (slot : Slot)
  : result Error (option FinalSlotResponse) :=
  row ← read_slot d (slot_period slot) (slot_thread slot);
  match row with
  | None => Ok None
  | Some state =>
      if negb (lacks_transfers state) then Ok None
      else
        match ss_final_block_id state with
        | None => Ok None
        | Some block_id =>
            let bid := id_to_string block_id in
            rows ← rebuilt d slot bid (slot_timestamp_ms cfg slot) 0 (ss_executed_op_ids state);
            if bool_decide (rows = []) then Ok None else Ok (Some (transfers_patch slot bid rows))
        end
  end.

Inductive RepairEnd := RepairComplete | RepairAlready | RepairClosed | RepairFuel.
#[export] Instance RepairEnd_eq_dec : EqDecision RepairEnd.
Proof. solve_decision. Defined.

(** The slots looked at, with what was made of them. *)
Abbreviation Visits := (list (Slot * result Error (option FinalSlotResponse))).
Section reconstruct.
Context (store : nat -> DB) (closed : nat -> bool).
Definition visited (slot : Slot) (r : result Error (option FinalSlotResponse))
  : ST (Task Visits) unit := fun s => (Ok tt, s <| tk_own := tk_own s ++ [(slot, r)] |>).
(** [false] when the channel closed. *)
Fixpoint reconstruct_threads (cfg : ReconstructConfig) (slots : list Slot) : ST (Task Visits) bool :=
  match slots with
  | [] => mret true
  | slot :: slots' =>
      r ← look_db store (fun d => reconstruct_slot d cfg slot);
      visited slot r ;;
      match r with
      | Ok (Some resp) =>
          sent ← send_patch closed resp;
          if sent : bool then reconstruct_threads cfg slots' else mret false
      | Ok None | Err _ => reconstruct_threads cfg slots'
      end
  end.
Definition period_slots (period threads : Z) : list Slot := mkSlot period <$> seqZ 0 threads.
Definition checkpoint_period (key : string) (period : Z) : ST (Task Visits) unit :=
  if Z.eqb (period mod CHECKPOINT_EVERY) 0
  then put_checkpoint key (dec (wrapping_add_u64 period 1)) else mret tt.
Fixpoint reconstruct_periods (fuel : nat) (cfg : ReconstructConfig) (period : Z)
  : ST (Task Visits) RepairEnd :=
  if (rc_to_period cfg <? period)%Z then
    put_checkpoint (reconstruct_ckpt_key cfg) (dec (wrapping_add_u64 (rc_to_period cfg) 1)) ;;
    mret RepairComplete
  else
    match fuel with
    | O => mret RepairFuel
    | S fuel' =>
        gone ← channel_closed closed;
        if gone : bool then mret RepairClosed
        else
          going ← reconstruct_threads cfg (period_slots period (rc_thread_count cfg));
          if negb going then mret RepairClosed
          else
            checkpoint_period (reconstruct_ckpt_key cfg) period ;;
            reconstruct_periods fuel' cfg (wrapping_add_u64 period 1)
    end.
Definition run_reconstruct_transfers (cfg : ReconstructConfig) : ST (Task Visits) RepairEnd :=
  ckpt ← look_db store (fun d => meta_get_str d (reconstruct_ckpt_key cfg));
  let start := resume_up ckpt (rc_from_period cfg) in
  if (rc_to_period cfg <? start)%Z then mret RepairAlready
  else reconstruct_periods (Z.to_nat (rc_to_period cfg - start + 1)) cfg start.
End reconstruct.

(** ** Pulling missing parts *)
Record PullPartsConfig := mkPull {
  pp_from_period : Z;
  pp_to_period : Z;
  pp_parts : FinalSlotParts;
  pp_thread_count : Z;
  pp_require_sc_ops : bool;
}.
Definition bit (b : bool) : string := if b then "1" else "0".
Definition pull_ckpt_key (cfg : PullPartsConfig) : string :=
  "repair:pull_parts:" +:+ dec (pp_from_period cfg) +:+ "-" +:+ dec (pp_to_period cfg) +:+
  ":b" +:+ bit (fp_block (pp_parts cfg)) +:+ "e" +:+ bit (fp_exec_output (pp_parts cfg)) +:+
  "t" +:+ bit (fp_transfers (pp_parts cfg)) +:+
  (if pp_require_sc_ops cfg then ":sc" else "") +:+ ":next_hi".
Definition successful_sc_op (op : StoredOperation) : bool :=
  (bool_decide (op_kind op = OpCallSc) || bool_decide (op_kind op = OpExecuteSc)) &&
  bool_decide (op_final_exec_status op = Some ExecOk).
Fixpoint any_successful_sc_op (d : DB) (ids : list OperationId) : result Error bool :=
  match ids with
  | [] => Ok false
  | op_id :: ids' =>
      row ← read_op d op_id;
      if match row with Some op => successful_sc_op op | None => false end then Ok true
      else any_successful_sc_op d ids'
  end.
Definition slot_has_successful_sc_op (d : DB) (s : SlotState) : result Error bool :=
  any_successful_sc_op d (ss_executed_op_ids s).
Definition lacking (parts : FinalSlotParts) (s : SlotState) : bool :=
  let c := ss_completeness s in
  (fp_block parts && negb (ss_is_miss s) && negb (block_body_stored c))
  || (fp_exec_output parts && negb (exec_output_final c))
  || (fp_transfers parts && negb (transfers_stored c)).
Definition slot_lacks_parts (d : DB) (slot : Slot) (parts : FinalSlotParts) (require_sc_ops : bool)
  : result Error bool :=
  row ← read_slot d (slot_period slot) (slot_thread slot);
  match row with
  | None => Ok false
  | Some s =>
      if negb (bool_decide (ss_status s = SlotFinal)) then Ok false
      else if negb (lacking parts s) then Ok false
      else if require_sc_ops then slot_has_successful_sc_op d s
      else Ok true
  end.
(** The bulk path asks for exactly the parts requested. *)
Definition pull_backfill_config (cfg : PullPartsConfig) : BackfillConfig :=
  BackfillConfig_default
    <| bc_parts := pp_parts cfg |>
    <| bc_expected_streams := mkStreams (fp_block (pp_parts cfg)) (fp_exec_output (pp_parts cfg))
                                (fp_transfers (pp_parts cfg)) |>
    <| bc_thread_count := pp_thread_count cfg |>.

(** The walker it drives, and the checkpoints it wrote. *)
Record Puller := mkPuller { pl_walker : Walker; pl_checkpoints : list (string * string) }.
Section pull.
Context `{Network}.
Context (store : nat -> DB) (closed : nat -> bool).
Definition walk {A} (m : ST Walker A) : ST Puller A := fun s =>
  let '(r, w) := m (pl_walker s) in (r, s <| pl_walker := w |>).
Definition pull_checkpoint (key value : string) : ST Puller unit := fun s =>
  (Ok tt, s <| pl_checkpoints := pl_checkpoints s ++ [(key, value)] |>).
Fixpoint pull_scan (cfg : PullPartsConfig) (slots : list (Z * Z)) : ST Walker (list (Z * Z)) :=
  match slots with
  | [] => mret []
  | (p, t) :: slots' =>
      scanned p t ;;
      r ← pool (ask (fun n =>
            slot_lacks_parts (store n) (mkSlot p t) (pp_parts cfg) (pp_require_sc_ops cfg)));
      needy ← pull_scan cfg slots';
      mret match r with Ok true => (p, t) :: needy | _ => needy end
  end.
Definition pull_lo (cfg : PullPartsConfig) (hi : Z) : Z :=
  Z.max (saturating_sub hi (saturating_sub (bc_range_periods (pull_backfill_config cfg)) 1))
    (pp_from_period cfg).
(** One window: [false] when the channel closed. *)
Definition pull_window (cfg : PullPartsConfig) (lo hi : Z) : ST Walker bool :=
  needy ← pull_scan cfg (slots_desc lo hi (pp_thread_count cfg));
  if bool_decide (needy = []) then mret true
  else
    left ← range_fill_window_opts closed (pull_backfill_config cfg) lo hi needy true;
    mret (is_some (left : option (list (Z * Z)))).
Fixpoint pull_loop (fuel : nat) (cfg : PullPartsConfig) (hi : Z) : ST Puller RepairEnd :=
  match fuel with
  | O => mret RepairFuel
  | S fuel' =>
      gone ← walk (pool (ask closed));
      if gone : bool then mret RepairClosed
      else
        empty ← walk (pool (gets PeerPool_is_empty));
        if empty : bool then pull_loop fuel' cfg hi
        else
          let lo := pull_lo cfg hi in
          going ← walk (pull_window cfg lo hi);
          if negb going then mret RepairClosed
          else
            pull_checkpoint (pull_ckpt_key cfg) (dec (saturating_sub lo 1)) ;;
            if (lo <=? pp_from_period cfg)%Z || Z.eqb lo 0 then mret RepairComplete
            else pull_loop fuel' cfg (lo - 1)
  end.
Definition run_pull_parts (fuel : nat) (cfg : PullPartsConfig) : ST Puller RepairEnd :=
  ckpt ← walk (pool (ask (fun n => meta_get_str (store n) (pull_ckpt_key cfg))));
  let start_hi := resume_down ckpt (pp_to_period cfg) in
  if (start_hi <? pp_from_period cfg)%Z then mret RepairAlready
  else pull_loop fuel cfg start_hi.
End pull.

(** ** The archive's sub-transfers *)
Record LegacySubTransfersConfig := mkLegacySub {
  ls_from_period : Z;
  ls_to_period : Z;
  ls_thread_count : Z;
  ls_genesis_timestamp_ms : Z;
  ls_t0_ms : Z;
  ls_concurrency : Z;
}.
Definition legacy_sub_ckpt_key (cfg : LegacySubTransfersConfig) : string :=
  "repair:legacy_sub_transfers:" +:+ dec (ls_from_period cfg) +:+ "-" +:+
  dec (ls_to_period cfg) +:+ ":next_period".
Definition timing (cfg : LegacySubTransfersConfig) : ReconstructConfig :=
  mkReconstruct (ls_from_period cfg) (ls_to_period cfg) (ls_thread_count cfg)
    (ls_genesis_timestamp_ms cfg) (ls_t0_ms cfg).
(** A slot to ask the archive about: its block, the ids it has, the next index. *)
Record Target := mkTarget {
  tg_slot : Slot; tg_block_id : string; tg_ids : gset string; tg_next_index : Z }.
Definition next_index (existing : list StoredTransfer) : Z :=
  foldr (fun t acc => Z.max (as_u32 (tr_index_in_slot t + 1)) acc) 0%Z existing.
Definition sub_target (d : DB) (slot : Slot) : option Target :=
  match read_slot d (slot_period slot) (slot_thread slot) with
  | Ok (Some state) =>
      if negb (lacks_transfers state) then None
      else
        bid ← ss_final_block_id state;
        match slot_has_successful_sc_op d state with
        | Ok true =>
            let existing := default []
              (ok (iter_transfers_for_slot d (slot_period slot) (slot_thread slot))) in
            Some (mkTarget slot (id_to_string bid) (list_to_set (tr_id <$> existing))
                    (next_index existing))
        | _ => None
        end
  | _ => None
  end.
Section sub_transfers.
Context `{AwsOutside}.
Context (store : nat -> DB) (closed : nat -> bool) (page_fuel : nat).
(** The order in which the concurrent lookups complete. *)
Context (complete : nat -> list Target -> list Target).
Fixpoint sub_targets (slots : list Slot) : ST (Task Ddb) (list Target) :=
  match slots with
  | [] => mret []
  | slot :: slots' =>
      target ← look_db store (fun d => sub_target d slot);
      rest ← sub_targets slots';
      mret (option_list target ++ rest)
  end.
Definition fetch_target (cfg : LegacySubTransfersConfig) (g : Target)
  : ST (Task Ddb) (result LegacyError (list StoredTransfer)) :=
  on_own (fetch_sub_transfers page_fuel (slot_period (tg_slot g)) (slot_thread (tg_slot g))
    (Some (tg_block_id g)) (tg_next_index g) (slot_timestamp_ms (timing cfg) (tg_slot g)) (tg_ids g)).
(** [false] when the channel closed. *)
Fixpoint ship_targets (cfg : LegacySubTransfersConfig) (targets : list Target)
  : ST (Task Ddb) bool :=
  match targets with
  | [] => mret true
  | g :: targets' =>
      r ← fetch_target cfg g;
      match r with
      | Ok [] | Err _ => ship_targets cfg targets'
      | Ok rows =>
          pbs ← st_lift (try_map (fun t => expect (transfer_to_peer_pb t)) rows);
          sent ← send_patch closed (transfers_patch (tg_slot g) (tg_block_id g) pbs);
          if sent : bool then ship_targets cfg targets' else mret false
      end
  end.
Fixpoint sub_periods (fuel : nat) (cfg : LegacySubTransfersConfig) (period : Z)
  : ST (Task Ddb) RepairEnd :=
  if (ls_to_period cfg <? period)%Z then
    put_checkpoint (legacy_sub_ckpt_key cfg) (dec (wrapping_add_u64 (ls_to_period cfg) 1)) ;;
    mret RepairComplete
  else
    match fuel with
    | O => mret RepairFuel
    | S fuel' =>
        gone ← channel_closed closed;
        if gone : bool then mret RepairClosed
        else
          targets ← sub_targets (period_slots period (ls_thread_count cfg));
          order ← look complete;
          going ← ship_targets cfg (order targets);
          if negb going then mret RepairClosed
          else
            (if Z.eqb (period mod CHECKPOINT_EVERY) 0
             then put_checkpoint (legacy_sub_ckpt_key cfg) (dec (wrapping_add_u64 period 1))
             else mret tt) ;;
            sub_periods fuel' cfg (wrapping_add_u64 period 1)
    end.
Definition run_legacy_sub_transfers (cfg : LegacySubTransfersConfig) : ST (Task Ddb) RepairEnd :=
  ckpt ← look_db store (fun d => meta_get_str d (legacy_sub_ckpt_key cfg));
  let start := resume_up ckpt (ls_from_period cfg) in
  if (ls_to_period cfg <? start)%Z then mret RepairAlready
  else sub_periods (Z.to_nat (ls_to_period cfg - start + 1)) cfg start.
End sub_transfers.
End repair.
