(* ===== verification/Server.v ===== *)
(** * Start-up (src/massa-indexer/src/server.rs)

    What [run] does after opening the store: the network guard and the meta row, the
    tasks it spawns with their settings, and what follows the shutdown signal. Spawned
    tasks, sent events, listeners and the steps of the shutdown are logged as
    actions; the tasks themselves are modelled in their own files. *)

From S2P Require Import Prelude Text Ids Keys Model Proto Codec Store Db.
From S2P Require Import NodeMsg World Reconcile Sse Arbiter Patch Ingest Grpc Registry PeerService Client.
From S2P Require Import Backfill Task Ddb Config OneShot Repair.

Inductive Action :=
| SpawnIngest
| SpawnTick
| SpawnConsumers (url : string) (connect_timeout_ms : Z) (streams : Streams)
| ServePeer (peer_id network advertise_url bind : string)
| SpawnSessions (peers : list PeerConfig) (local : LocalPeerIdentity)
| SpawnBackfill (cfg : BackfillConfig)
| SendBulk (ev : Event)
| SpawnReconstruct (cfg : ReconstructConfig)
| SpawnPullParts (cfg : PullPartsConfig)
| SpawnLegacySub (ddb : LegacyDdbCfg) (cfg : LegacySubTransfersConfig)
| SpawnOneShot (ddb : LegacyDdbCfg) (cfg : OneShotConfig)
| ServeRest (bind : string)
| StopPeerServer
| DropSenders
| AwaitIngest (timeout_secs : Z)
| AbortRest.
Record Boot `{RocksDB} := mkBoot { bo_db : DB; bo_actions : list Action }.
Arguments mkBoot {_}.

(** What start-up meets: the clock, the environment, the store once the tasks run
    ([so_later]), and how the outside takes its requests. *)
Record Outside `{RocksDB} := mkOutside {
  so_build_version : string;
  so_now_ms : Z;
  so_hostname : option string;
  so_addr_ok : string -> bool;
  so_peer_serves : bool;
  so_later : DB;
  so_bulk_closed : nat -> bool;
  so_ddb_client : LegacyDdbCfg -> bool;
  so_rest_bind : result string unit;
}.
Arguments mkOutside {_}.

Section server.
Context `{Bs58, Base64, HexCrate, ProstStorage, RocksDB, NodeRpc}.
Context (out : Outside) (config : Config).

Definition act (a : Action) : ST Boot unit := fun s => (Ok tt, mkBoot (bo_db s) (bo_actions s ++ [a])).
Definition boot_db : ST Boot DB := fun s => (Ok (bo_db s), s).
Definition boot_write (f : DB -> DB) : ST Boot unit := fun s => (Ok tt, mkBoot (f (bo_db s)) (bo_actions s)).

(** A node that cannot be reached is only logged. *)
Definition node_chain_config : option NodeChainConfig :=
  match (fetch_node_config (nd_grpc_url (cfg_node config)) 0).1 with Ok c => c | Err _ => None end.
(** The meta row of a store met for the first time, or met again. *)
Definition first_meta (node_cfg : option NodeChainConfig) : MetaRow :=
  mkMetaRow (gn_network (cfg_general config))
    (default 0%Z (nc_genesis_timestamp_ms <$> node_cfg)) (default 16000%Z (nc_t0_ms <$> node_cfg))
    (default 32%Z (nc_thread_count <$> node_cfg)) None None (so_build_version out)
    (so_now_ms out) (so_now_ms out).
Definition updated_meta (node_cfg : option NodeChainConfig) (m : MetaRow) : MetaRow :=
  mkMetaRow (mr_network m)
    (default (mr_genesis_timestamp_ms m) (nc_genesis_timestamp_ms <$> node_cfg))
    (default (mr_t0_ms m) (nc_t0_ms <$> node_cfg))
    (default (mr_thread_count m) (nc_thread_count <$> node_cfg))
    (mr_last_final_slot m) (mr_last_candidate_slot m) (so_build_version out)
    (mr_created_at_ms m) (so_now_ms out).
Definition network_guard (node_cfg : option NodeChainConfig) : ST Boot unit :=
  d ← boot_db;
  meta ← st_lift (read_meta d);
  match meta : option MetaRow with
  | Some m =>
      if negb (bool_decide (mr_network m = gn_network (cfg_general config)))
      then st_lift (Err (ErrNetworkMismatch (mr_network m) (gn_network (cfg_general config))))
      else boot_write (fun d => write_meta d (updated_meta node_cfg m))
  | None => boot_write (fun d => write_meta d (first_meta node_cfg))
  end.

Definition sse_capacity : nat := Z.to_nat (Z.max (rs_sse_ring_buffer_size (cfg_rest config)) 16).
Definition local_peer_id : string :=
  if str_is_empty (pr_peer_id (cfg_peer config)) then default "indexer" (so_hostname out)
  else pr_peer_id (cfg_peer config).
Definition local_identity : LocalPeerIdentity :=
  mkLocal local_peer_id (gn_network (cfg_general config)) (so_build_version out)
    (pr_advertise_url (cfg_peer config)).
(** A [BTreeMap] of peers: by name. *)
Definition by_name (a b : string * string) : bool := bool_decide (bytes_le (as_bytes a.1) (as_bytes b.1)).
Definition static_peers : list PeerConfig :=
  (fun nu : string * string => mkPeerConfig nu.1 nu.2) <$> sort_by by_name (map_to_list (pr_peers (cfg_peer config))).
Definition peer_bind : string :=
  let b := pr_bind (cfg_peer config) in if so_addr_ok out b then b else "127.0.0.1:0".
Definition backfill_config : BackfillConfig :=
  let c := BackfillConfig_default in
  let s := cfg_streams config in
  c <| bc_rate_limit := Z.max (pr_scan_interval_ms (cfg_peer config)) 1 |>
    <| bc_wrap_pause := 30000%Z |> <| bc_idle_pause := 5000%Z |>
    <| bc_parts := mkParts (sm_filled_blocks s) (sm_slot_execution_outputs s) (sm_transfers s) |>
    <| bc_expected_streams := expected s |>
    <| bc_thread_count := 32%Z |>
    <| bc_stale_candidate_periods := pr_stale_candidate_periods (cfg_peer config) |>
    <| bc_recent_incomplete_periods := pr_recent_incomplete_periods (cfg_peer config) |>
    <| bc_recheck_ranges := rp_recheck_periods (cfg_repair config) |>.
Definition start_peer_layer : ST Boot unit :=
  if pr_enabled (cfg_peer config) then
    act (ServePeer local_peer_id (gn_network (cfg_general config)) (pr_advertise_url (cfg_peer config)) peer_bind) ;;
    act (SpawnSessions static_peers local_identity) ;;
    act (SpawnBackfill backfill_config)
  else mret tt.

(** Queued until the channel closes. *)
Definition forced_miss (pt : Z * Z) : FinalSlotResponse :=
  FinalSlotResponse_default <| fr_period := pt.1 |> <| fr_thread := pt.2 |>
    <| fr_final_known := true |> <| fr_is_miss := true |>.
Fixpoint send_forced (n : nat) (l : list (Z * Z)) : ST Boot unit :=
  match l with
  | [] => mret tt
  | pt :: l' =>
      if so_bulk_closed out n then mret tt
      else act (SendBulk (EvForcedVerdict (forced_miss pt))) ;; send_forced (S n) l'
  end.
(** [to_period = 0]: the FINAL head at start-up. *)
Definition range_end (to_period head_now : Z) : Z := if Z.eqb to_period 0 then head_now else to_period.
Definition chain_of (meta : option MetaRow) : Z * Z * Z :=
  (default 32%Z (mr_thread_count <$> meta), default 0%Z (mr_genesis_timestamp_ms <$> meta),
   default 16000%Z (mr_t0_ms <$> meta)).
Definition reconstruct_config (head_now : Z) (meta : option MetaRow) : ReconstructConfig :=
  let rt := rp_reconstruct_transfers (cfg_repair config) in
  let '(threads, genesis, t0) := chain_of meta in
  mkReconstruct (rt_from_period rt) (range_end (rt_to_period rt) head_now) threads genesis t0.
Definition pull_config (head_now : Z) (pp : PullParts) : PullPartsConfig :=
  mkPull (pc_from_period pp) (range_end (pc_to_period pp) head_now)
    (mkParts (pc_block pp) (pc_exec_output pp) (pc_transfers pp)) 32 (pc_require_sc_ops pp).
Definition legacy_sub_config (head_now : Z) (meta : option MetaRow) : LegacySubTransfersConfig :=
  let ls := rp_legacy_sub_transfers (cfg_repair config) in
  let '(threads, genesis, t0) := chain_of meta in
  mkLegacySub (lt_from_period ls) (range_end (lt_to_period ls) head_now) threads genesis t0
    (Z.max (ld_concurrency (cfg_legacy_ddb config)) 1).
Definition oneshot_config : OneShotConfig :=
  let l := cfg_legacy_ddb config in
  mkOneShot (ld_max_period l) (ld_min_period l) (ld_rate_limit_ms l) 32 (ld_concurrency l).
Definition start_repairs (head_now : Z) (meta : option MetaRow) : ST Boot unit :=
  let r := cfg_repair config in
  (if rt_enabled (rp_reconstruct_transfers r) then act (SpawnReconstruct (reconstruct_config head_now meta)) else mret tt) ;;
  st_iter (fun pp => if pr_enabled (cfg_peer config) then act (SpawnPullParts (pull_config head_now pp)) else mret tt)
    (filter (fun pp => pc_enabled pp = true) (rp_pull_parts r)) ;;
  (if lt_enabled (rp_legacy_sub_transfers r) && so_ddb_client out (from_section (cfg_legacy_ddb config))
   then act (SpawnLegacySub (from_section (cfg_legacy_ddb config)) (legacy_sub_config head_now meta)) else mret tt).
Definition start_oneshot : ST Boot unit :=
  if ld_enabled (cfg_legacy_ddb config) && so_ddb_client out (from_section (cfg_legacy_ddb config))
  then act (SpawnOneShot (from_section (cfg_legacy_ddb config)) oneshot_config) else mret tt.

(** After ctrl-c or SIGTERM: the task of the writer is given five seconds. *)
Definition shutdown : ST Boot unit :=
  (if pr_enabled (cfg_peer config) && so_peer_serves out then act StopPeerServer else mret tt) ;;
  act DropSenders ;;
  act (AwaitIngest 5) ;;
  act AbortRest.

Definition run : ST Boot unit :=
  network_guard node_chain_config ;;
  act SpawnIngest ;;
  act SpawnTick ;;
  act (SpawnConsumers (nd_grpc_url (cfg_node config)) (nd_connect_timeout_ms (cfg_node config)) (cfg_streams config)) ;;
  start_peer_layer ;;
  send_forced 0 (rp_force_miss (cfg_repair config)) ;;
  last_final ← st_lift (read_last_final_slot (so_later out));
  meta_now ← st_lift (read_meta (so_later out));
  start_repairs (default 0%Z (slot_period <$> last_final)) meta_now ;;
  start_oneshot ;;
  match so_rest_bind out with
  | Ok _ => act (ServeRest (rs_bind (cfg_rest config))) ;; shutdown
  | Err e => st_lift (Err (ErrConfig ("bind " +:+ rs_bind (cfg_rest config) +:+ ": " +:+ e)))
  end.
End server.
