(* ===== verification/BootProps.v ===== *)
(** * What loading a configuration and starting up guarantee

    Exactly the configurations that satisfy [config_ok] are accepted; everything
    else is a configuration error, and the environment only changes what it names.
    A store of another network is refused before anything is written or started;
    otherwise the meta row is stamped and nothing else of the store changes. *)

From S2P Require Import Prelude Ids Keys Model Proto Codec CodecLemmas Store Text Db NodeMsg World.
From S2P Require Import Reconcile Sse Arbiter Patch Ingest Grpc Registry PeerService Client.
From S2P Require Import Backfill Task Ddb Config OneShot Repair Server.

(** A range that is not empty; an upper bound of 0 stands for the head. *)
Definition range_ok (from to : Z) : Prop := to = 0%Z \/ (from <= to)%Z.
Definition named (s : string) : Prop := trim s <> "".
Record config_ok (c : Config) : Prop := {
  ok_network : named (gn_network (cfg_general c));
  ok_url : exists rest, as_bytes (nd_grpc_url (cfg_node c)) = as_bytes "http" ++ rest;
  ok_path : named (db_path (cfg_db c));
  ok_pages : (rs_default_page_size (cfg_rest c) <= rs_max_page_size (cfg_rest c) <= HARD_MAX_PAGE_SIZE)%Z;
  ok_stale : (8 <= pr_stale_candidate_periods (cfg_peer c))%Z;
  ok_recheck lo hi : (lo, hi) ∈ rp_recheck_periods (cfg_repair c) -> (lo <= hi)%Z;
  ok_reconstruct : let rt := rp_reconstruct_transfers (cfg_repair c) in
    rt_enabled rt = true -> range_ok (rt_from_period rt) (rt_to_period rt);
  ok_pull pp : pp ∈ rp_pull_parts (cfg_repair c) -> pc_enabled pp = true ->
    range_ok (pc_from_period pp) (pc_to_period pp) /\
    (pc_block pp = true \/ pc_exec_output pp = true \/ pc_transfers pp = true);
  ok_sub_transfers : let ls := rp_legacy_sub_transfers (cfg_repair c) in lt_enabled ls = true ->
    range_ok (lt_from_period ls) (lt_to_period ls) /\
    named (ld_access_key_id (cfg_legacy_ddb c)) /\ named (ld_secret_access_key (cfg_legacy_ddb c));
  ok_legacy : let ld := cfg_legacy_ddb c in ld_enabled ld = true ->
    named (ld_access_key_id ld) /\ named (ld_secret_access_key ld) /\ named (ld_region ld);
}.

(** Accepting is the conjunction of the tests. *)
Lemma reject_if_ok bad msg : reject_if bad msg = Ok tt <-> bad = false.
Proof. by destruct bad. Qed.
Lemma seq_ok (a b : result Error unit) : (a ;; b) = Ok tt <-> a = Ok tt /\ b = Ok tt.
Proof. destruct a as [[]|e]; cbn; [tauto|]. split; [done|by intros [? _]]. Qed.
Lemma check_all_ok {A} (f : A -> result Error unit) l :
  check_all f l = Ok tt <-> forall a, a ∈ l -> f a = Ok tt.
Proof.
  induction l as [|a l IH]; cbn [check_all].
  { split; [|done]. intros _ a Ha. by apply not_elem_of_nil in Ha. }
  rewrite seq_ok, IH. setoid_rewrite elem_of_cons. naive_solver.
Qed.
Lemma blank_named s : blank s = false <-> named s.
Proof. unfold blank, str_is_empty, named. by rewrite bool_decide_eq_false. Qed.
Lemma empty_range_ok from to : empty_range from to = false <-> range_ok from to.
Proof. unfold empty_range, range_ok. destruct (Z.eqb_spec to 0), (Z.ltb_spec to from); cbn; naive_solver lia. Qed.
Lemma ltb_ok a b : (a <? b)%Z = false <-> (b <= a)%Z.
Proof. apply Z.ltb_ge. Qed.
Lemma guarded_ok b (r : result Error unit) : (if negb b then Ok tt else r) = Ok tt <-> (b = true -> r = Ok tt).
Proof. destruct b; cbn; naive_solver. Qed.
Create Rewrite HintDb accept.
#[local] Hint Rewrite @seq_ok reject_if_ok @check_all_ok blank_named empty_range_ok ltb_ok guarded_ok
  orb_false_iff negb_false_iff : accept.

Lemma recheck_ok (r : Z * Z) : validate_recheck r = Ok tt <-> (r.1 <= r.2)%Z.
Proof. unfold validate_recheck. by autorewrite with accept. Qed.
Lemma pull_ok pp : validate_pull pp = Ok tt <-> (pc_enabled pp = true ->
  range_ok (pc_from_period pp) (pc_to_period pp) /\
  (pc_block pp = true \/ pc_exec_output pp = true \/ pc_transfers pp = true)).
Proof. unfold validate_pull. autorewrite with accept. rewrite !orb_true_iff. tauto. Qed.
Lemma sub_ok ls ld : validate_sub_transfers ls ld = Ok tt <-> (lt_enabled ls = true ->
  range_ok (lt_from_period ls) (lt_to_period ls) /\
  named (ld_access_key_id ld) /\ named (ld_secret_access_key ld)).
Proof. unfold validate_sub_transfers. by autorewrite with accept. Qed.
Lemma legacy_ok ld : validate_legacy ld = Ok tt <-> (ld_enabled ld = true ->
  named (ld_access_key_id ld) /\ named (ld_secret_access_key ld) /\ named (ld_region ld)).
Proof. unfold validate_legacy. by autorewrite with accept. Qed.
Lemma starts_http s : negb (str_starts_with s "http") = false <->
  exists rest, as_bytes s = as_bytes "http" ++ rest.
Proof. rewrite negb_false_iff. unfold str_starts_with. apply starts_with_spec. Qed.
Lemma reconstruct_ok b from to : b && empty_range from to = false <-> (b = true -> range_ok from to).
Proof. rewrite <-empty_range_ok. destruct b; cbn; naive_solver. Qed.
Lemma validate_ok c : validate c = Ok tt <-> config_ok c.
Proof.
  unfold validate. rewrite !seq_ok, !reject_if_ok, !check_all_ok, !blank_named, !ltb_ok, starts_http,
    reconstruct_ok, sub_ok, legacy_ok.
  split.
  - intros (? & ? & ? & ? & ? & ? & Hr & ? & Hp & ? & ?). split; try done.
    + intros lo hi Hin. exact (proj1 (recheck_ok _) (Hr _ Hin)).
    + intros pp Hin. exact (proj1 (pull_ok _) (Hp _ Hin)).
  - intros [? ? ? [? ?] ? Hr ? Hp ? ?]. split_and!; try done.
    + intros [lo hi] Hin. apply recheck_ok. by apply Hr.
    + intros pp Hin. apply pull_ok. by apply Hp.
Qed.

(** Every failure is a configuration error. *)
Definition config_error {A} (r : result Error A) : Prop := forall e, r = Err e -> exists m, e = ErrConfig m.
Lemma config_error_ok {A} (a : A) : config_error (Ok a).
Proof. by intros e. Qed.
Lemma config_error_bind {A B} (r : result Error A) (f : A -> result Error B) :
  config_error r -> (forall a, config_error (f a)) -> config_error (r ≫= f).
Proof. intros Hr Hf e. destruct r as [a|e']; cbn; [apply Hf|]. intros [= <-]. by apply Hr. Qed.
Lemma config_error_or {A} m (o : option A) : config_error (ok_or (ErrConfig m) o).
Proof. destruct o; cbn; [apply config_error_ok|]. intros e [= <-]. by eexists. Qed.
Lemma config_error_reject bad m : config_error (reject_if bad m).
Proof. destruct bad; cbn; [|apply config_error_ok]. intros e [= <-]. by eexists. Qed.
Lemma config_error_all {A} (f : A -> result Error unit) l :
  (forall a, config_error (f a)) -> config_error (check_all f l).
Proof. intros Hf. induction l as [|a l IH]; [apply config_error_ok|]. by apply config_error_bind. Qed.
Lemma config_error_if {A} (b : bool) (r r' : result Error A) :
  config_error r -> config_error r' -> config_error (if b then r else r').
Proof. by destruct b. Qed.
Lemma config_error_peers parts peers : config_error (insert_peers parts peers).
Proof.
  induction parts as [|part parts IH] in peers |- *; cbn [insert_peers]; [apply config_error_ok|].
  apply config_error_if; [apply IH|]. destruct (split_once _ _) as [[name url]|]; [apply IH|].
  intros e [= <-]. by eexists.
Qed.
Create HintDb config_errors.
#[local] Hint Resolve config_error_ok config_error_or config_error_reject config_error_peers : config_errors.
Ltac config_errors :=
  repeat match goal with
  | |- config_error (_ ≫= _) => apply config_error_bind; [|intros ?]
  | |- config_error (check_all _ _) => apply config_error_all; intros ?
  | |- config_error (if _ then _ else _) => apply config_error_if
  | |- config_error _ => solve [eauto with config_errors]
  end.
Section env.
Context (env : string -> option string).
Lemma config_error_over var f c : (forall v c, config_error (f v c)) -> config_error (over env var f c).
Proof. intros Hf. unfold over. destruct (env var); [apply Hf|apply config_error_ok]. Qed.
Lemma apply_env_errors c : config_error (apply_env env c).
Proof.
  unfold apply_env, over_str, over_bool, over_num, parse.
  repeat (apply config_error_bind; [apply config_error_over; intros v c0; config_errors|intros ?]).
  apply config_error_over. intros v c0. config_errors.
Qed.
Lemma validate_errors c : config_error (validate c).
Proof.
  unfold validate, validate_recheck, validate_pull, validate_sub_transfers, validate_legacy. config_errors.
Qed.
End env.
Lemma apply_env_idle c : apply_env (fun _ => None) c = Ok c.
Proof. reflexivity. Qed.

(** ** What the environment changes *)
Definition named_url (piece : string) (entry : string * string) : Prop :=
  exists name url, split_once equals piece = Some (name, url) /\ entry = (trim name, trim url).
(** The pieces of the peers variable that are not blank. *)
Definition pieces (v : string) : list string := filter (fun piece => piece <> "") (trim <$> split comma v).
Lemma insert_peers_ok parts m m' :
  insert_peers parts m = Ok m' <->
  exists entries, Forall2 named_url (filter (fun piece => piece <> "") (trim <$> parts)) entries /\
    m' = list_to_map (reverse entries) ∪ m.
Proof.
  induction parts as [|part parts IH] in m |- *; cbn [insert_peers fmap list_fmap].
  { assert (list_to_map (reverse []) ∪ m = m) as Hm by apply (left_id_L ∅ (∪)).
    split; [intros [= ->]; exists []; split; [constructor|done]|].
    intros (entries & ->%Forall2_nil_inv_l & ->). by rewrite Hm. }
  rewrite filter_cons. unfold str_is_empty. case_bool_decide as Hp.
  { rewrite decide_False by (intros Hn; by apply Hn). apply IH. }
  rewrite decide_True by done. unfold named_url. destruct (split_once equals (trim part)) as [[name url]|] eqn:Es.
  - rewrite IH. assert (forall es : list (string * string),
      list_to_map (reverse es) ∪ <[trim name:=trim url]> m =
      list_to_map (reverse ((trim name, trim url) :: es)) ∪ m :> gmap string string) as Hm.
    { intros es. rewrite reverse_cons, list_to_map_app, <-(assoc_L (∪)). f_equal. cbn.
      rewrite <-insert_union_l. by rewrite (left_id_L ∅ (∪)). }
    split.
    + intros (es & Hes & ->). exists ((trim name, trim url) :: es). split; [|apply Hm]. constructor; [|done]. by exists name, url.
    + intros (es & Hes & ->). apply Forall2_cons_inv_l in Hes as (e & es' & (n & u & E & ->) & Hes & ->).
      rewrite Es in E. injection E as <- <-. exists es'. by rewrite Hm.
  - split; [done|]. intros (es & Hes & _). apply Forall2_cons_inv_l in Hes as (e & es' & (n & u & E & _) & _). congruence.
Qed.

Section overrides.
Context (env : string -> option string).
(** A variable that is set replaces the file's value, whatever that is: by its text, by
    the flag or the number it spells, by its comma-separated pieces. *)
Definition text (var : string) (old new : string) : Prop := new = default old (env var).
Definition flag (var : string) (old new : bool) : Prop :=
  match env var with
  | Some v => new = true <-> to_ascii_lowercase v ∈ ["1"; "true"; "yes"; "on"]
  | None => new = old
  end.
Definition number (var : string) (old new : Z) : Prop :=
  match env var with Some v => parse_u64 v = Some new | None => new = old end.
Definition bound (var : string) (old new : option Z) : Prop :=
  match env var with Some v => parse_u64 v = new /\ new <> None | None => new = old end.
Definition origins (var : string) (old new : list string) : Prop :=
  new = match env var with Some v => trim <$> split comma v | None => old end.
(** Of two pieces for one name, the later counts. *)
Definition urls (var : string) (old new : gmap string string) : Prop :=
  match env var with
  | Some v => exists entries, Forall2 named_url (pieces v) entries /\ new = list_to_map (reverse entries)
  | None => new = old
  end.

(** The configuration [c] is [file], overridden. *)
Record overridden (file c : Config) : Prop := {
  ov_general : text "INDEXER_GENERAL_NETWORK" (gn_network (cfg_general file)) (gn_network (cfg_general c));
  ov_node : let n := cfg_node file in let n' := cfg_node c in
    text "INDEXER_NODE_GRPC_URL" (nd_grpc_url n) (nd_grpc_url n') /\
    number "INDEXER_NODE_CONNECT_TIMEOUT_MS" (nd_connect_timeout_ms n) (nd_connect_timeout_ms n') /\
    nd_keepalive_ms n' = nd_keepalive_ms n;
  ov_db : let d := cfg_db file in let d' := cfg_db c in
    text "INDEXER_DB_PATH" (db_path d) (db_path d') /\
    db_compression d' = db_compression d /\ db_write_buffer_size_mb d' = db_write_buffer_size_mb d;
  ov_rest : let r := cfg_rest file in let r' := cfg_rest c in
    text "INDEXER_REST_BIND" (rs_bind r) (rs_bind r') /\
    origins "INDEXER_REST_CORS" (rs_cors r) (rs_cors r') /\
    number "INDEXER_REST_SSE_HEARTBEAT_SECS" (rs_sse_heartbeat_secs r) (rs_sse_heartbeat_secs r') /\
    rs_sse_ring_buffer_size r' = rs_sse_ring_buffer_size r /\
    rs_default_page_size r' = rs_default_page_size r /\ rs_max_page_size r' = rs_max_page_size r;
  ov_peer : let p := cfg_peer file in let p' := cfg_peer c in
    text "INDEXER_PEER_BIND" (pr_bind p) (pr_bind p') /\
    text "INDEXER_PEER_ID" (pr_peer_id p) (pr_peer_id p') /\
    flag "INDEXER_PEER_ENABLED" (pr_enabled p) (pr_enabled p') /\
    urls "INDEXER_PEER_PEERS" (pr_peers p) (pr_peers p') /\
    pr_advertise_url p' = pr_advertise_url p /\ pr_scan_interval_ms p' = pr_scan_interval_ms p /\
    pr_stale_candidate_periods p' = pr_stale_candidate_periods p /\
    pr_recent_incomplete_periods p' = pr_recent_incomplete_periods p;
  ov_streams : let s := cfg_streams file in let s' := cfg_streams c in
    flag "INDEXER_STREAMS_FILLED_BLOCKS" (sm_filled_blocks s) (sm_filled_blocks s') /\
    flag "INDEXER_STREAMS_SLOT_EXECUTION_OUTPUTS" (sm_slot_execution_outputs s) (sm_slot_execution_outputs s') /\
    flag "INDEXER_STREAMS_TRANSFERS" (sm_transfers s) (sm_transfers s');
  ov_credentials : let l := cfg_legacy_ddb file in let l' := cfg_legacy_ddb c in
    flag "INDEXER_LEGACY_DDB_ENABLED" (ld_enabled l) (ld_enabled l') /\
    text "INDEXER_LEGACY_DDB_REGION" (ld_region l) (ld_region l') /\
    text "INDEXER_LEGACY_DDB_ACCESS_KEY_ID" (ld_access_key_id l) (ld_access_key_id l') /\
    text "INDEXER_LEGACY_DDB_SECRET_ACCESS_KEY" (ld_secret_access_key l) (ld_secret_access_key l') /\
    text "INDEXER_LEGACY_DDB_SESSION_TOKEN" (ld_session_token l) (ld_session_token l');
  ov_legacy : let l := cfg_legacy_ddb file in let l' := cfg_legacy_ddb c in
    bound "INDEXER_LEGACY_DDB_MAX_PERIOD" (ld_max_period l) (ld_max_period l') /\
    bound "INDEXER_LEGACY_DDB_MIN_PERIOD" (ld_min_period l) (ld_min_period l') /\
    number "INDEXER_LEGACY_DDB_RATE_LIMIT_MS" (ld_rate_limit_ms l) (ld_rate_limit_ms l') /\
    number "INDEXER_LEGACY_DDB_CONCURRENCY" (ld_concurrency l) (ld_concurrency l') /\
    text "INDEXER_LEGACY_DDB_BLOCKS_TABLE" (ld_blocks_table l) (ld_blocks_table l') /\
    text "INDEXER_LEGACY_DDB_OPERATIONS_TABLE" (ld_operations_table l) (ld_operations_table l') /\
    text "INDEXER_LEGACY_DDB_ENDORSEMENTS_TABLE" (ld_endorsements_table l) (ld_endorsements_table l') /\
    ld_connect_timeout_ms l' = ld_connect_timeout_ms l /\ ld_request_timeout_ms l' = ld_request_timeout_ms l;
  ov_repair : cfg_repair c = cfg_repair file;
}.

(** One override, the field's setter [h] and its value [old] in [c]. *)
Lemma text_inv var h old c c' : h old c = c -> over_str env var h c = Ok c' ->
  exists a, text var old a /\ c' = h a c.
Proof. unfold over_str, over, text. intros E. destruct (env var) as [v|]; intros [= <-]; by eexists. Qed.
Lemma flag_inv var h old c c' : h old c = c -> over_bool env var h c = Ok c' ->
  exists a, flag var old a /\ c' = h a c.
Proof.
  unfold over_bool, over, flag, parse_bool. intros E. destruct (env var) as [v|]; intros [= <-]; [|by exists old].
  eexists. split; [apply bool_decide_eq_true|done].
Qed.
Lemma number_inv var h old c c' : h old c = c -> over_num env var h c = Ok c' ->
  exists a, number var old a /\ c' = h a c.
Proof.
  unfold over_num, over, number, parse. intros E. destruct (env var) as [v|]; [|intros [= <-]; by exists old].
  intros E'. apply result_bind_ok in E' as (n & Hn%ok_or_ok & [= <-]). by exists n.
Qed.
Lemma bound_inv var (h : option Z -> Config -> Config) old c c' : h old c = c ->
  over_num env var (fun n => h (Some n)) c = Ok c' -> exists a, bound var old a /\ c' = h a c.
Proof.
  unfold over_num, over, bound, parse. intros E. destruct (env var) as [v|]; [|intros [= <-]; by exists old].
  intros E'. apply result_bind_ok in E' as (n & Hn%ok_or_ok & [= <-]). by exists (Some n).
Qed.
Lemma origins_inv var (h : list string -> Config -> Config) old c c' : h old c = c ->
  over_str env var (fun v => h (trim <$> split comma v)) c = Ok c' -> exists a, origins var old a /\ c' = h a c.
Proof. unfold over_str, over, origins. intros E. destruct (env var) as [v|]; intros [= <-]; by eexists. Qed.
Lemma urls_inv var (h : gmap string string -> Config -> Config) old c c' : h old c = c ->
  over env var (fun v c => m ← insert_peers (split comma v) ∅; Ok (h m c)) c = Ok c' ->
  exists a, urls var old a /\ c' = h a c.
Proof.
  unfold over, urls. intros E. destruct (env var) as [v|]; [|intros [= <-]; by exists old].
  intros E'. apply result_bind_ok in E' as (m & (es & Hes & Em)%insert_peers_ok & [= <-]). exists m. split; [|done].
  exists es. split; [exact Hes|]. by rewrite (right_id_L ∅ (∪)) in Em.
Qed.
(** One step of [apply_env] turned into its field's new value. *)
Ltac env_step inv :=
  let c' := fresh "c'" in let a := fresh "a" in let Ha := fresh "Ha" in
  let E1 := fresh "E1" in let E2 := fresh "E2" in
  match goal with
  | E : _ ≫= _ = Ok _ |- _ => apply result_bind_ok in E as (c' & E1 & E)
  | E : over_str _ _ _ _ = Ok _ |- _ => rename E into E1
  end;
  eapply inv in E1 as (a & Ha & E2); [|reflexivity]; cbn in E2; subst.
Lemma apply_env_sound file c : apply_env env file = Ok c -> overridden file c.
Proof.
  destruct file as [[network] [url connect alive] [path compression buffer] [bind cors ring hb page_size max_page]
    [peer_on peer_bind peer_id advertise peers scan stale recent] [blocks outputs transfers]
    [on region key secret token t_blocks t_ops t_endos max_p min_p rate conc conn req] repair].
  unfold apply_env. intros E.
  env_step text_inv. env_step text_inv. env_step number_inv. env_step text_inv. env_step text_inv.
  env_step (origins_inv "INDEXER_REST_CORS" (fun l => on_rest (fun r => r <| rs_cors := l |>))).
  env_step number_inv. env_step text_inv. env_step text_inv.
  env_step flag_inv. env_step flag_inv. env_step flag_inv. env_step flag_inv.
  env_step (urls_inv "INDEXER_PEER_PEERS" (fun m => on_peer (fun p => p <| pr_peers := m |>))).
  env_step flag_inv. env_step text_inv. env_step text_inv. env_step text_inv. env_step text_inv.
  env_step (bound_inv "INDEXER_LEGACY_DDB_MAX_PERIOD" (fun o => on_legacy (fun l => l <| ld_max_period := o |>))).
  env_step (bound_inv "INDEXER_LEGACY_DDB_MIN_PERIOD" (fun o => on_legacy (fun l => l <| ld_min_period := o |>))).
  env_step number_inv. env_step number_inv. env_step text_inv. env_step text_inv. env_step text_inv.
  by split; cbn; split_and?.
Qed.

(** The overrides that cannot fail, and those of variables that parse. *)
Lemma over_total var f c : (forall v, env var = Some v -> exists c', f v c = Ok c') -> exists c', over env var f c = Ok c'.
Proof. intros Hf. unfold over. destruct (env var) as [v|]; [by apply Hf|by exists c]. Qed.
Lemma text_total var h c : exists c', over_str env var h c = Ok c'.
Proof. apply over_total. by eexists. Qed.
Lemma flag_total var h c : exists c', over_bool env var h c = Ok c'.
Proof. apply over_total. by eexists. Qed.
Lemma number_total var h c old new : number var old new -> exists c', over_num env var h c = Ok c'.
Proof.
  unfold number. intros Hn. apply over_total. intros v Ev. rewrite Ev in Hn. unfold parse_u64 in Hn.
  unfold parse. rewrite Hn. by eexists.
Qed.
Lemma bound_total var h c old new : bound var old new -> exists c', over_num env var h c = Ok c'.
Proof.
  unfold bound. intros Hn. apply over_total. intros v Ev. rewrite Ev in Hn. destruct Hn as [Hn Hne].
  unfold parse_u64 in Hn. unfold parse. rewrite Hn. destruct new; [by eexists|done].
Qed.
Lemma urls_total var (h : gmap string string -> Config -> Config) c old new : urls var old new ->
  exists c', over env var (fun v c => m ← insert_peers (split comma v) ∅; Ok (h m c)) c = Ok c'.
Proof.
  unfold urls. intros Hn. apply over_total. intros v Ev. rewrite Ev in Hn. destruct Hn as (es & Hes & _).
  rewrite (proj2 (insert_peers_ok (split comma v) ∅ (list_to_map (reverse es) ∪ ∅))); [by eexists|by exists es].
Qed.
Lemma total_bind (r : result Error Config) (k : Config -> result Error Config) :
  (exists c, r = Ok c) -> (forall c, exists c', k c = Ok c') -> exists c', (r ≫= k) = Ok c'.
Proof. intros [c ->] Hk. apply Hk. Qed.
Lemma apply_env_total file c : overridden file c -> exists c', apply_env env file = Ok c'.
Proof.
  intros [_ (_ & Hconnect & _) _ (_ & _ & Hhb & _) (_ & _ & _ & Hpeers & _) _ _ (Hmax & Hmin & Hrate & Hconc & _) _].
  unfold apply_env.
  repeat first [apply total_bind; [|intros ?] | apply text_total | apply flag_total | eapply number_total; eassumption
    | eapply bound_total; eassumption
    | apply (urls_total "INDEXER_PEER_PEERS" (fun m => on_peer (fun p => p <| pr_peers := m |>)) _ _ _ Hpeers)].
Qed.

(** A value has one override. *)
Lemma flag_unique var old new new' : flag var old new -> flag var old new' -> new = new'.
Proof. unfold flag. destruct (env var); [|congruence]. intros [? ?] [? ?]. destruct new, new'; naive_solver. Qed.
Lemma number_unique var old new new' : number var old new -> number var old new' -> new = new'.
Proof. unfold number. destruct (env var); congruence. Qed.
Lemma bound_unique var old new new' : bound var old new -> bound var old new' -> new = new'.
Proof. unfold bound. destruct (env var); [intros [? _] [? _]; congruence|congruence]. Qed.
Lemma urls_unique var old new new' : urls var old new -> urls var old new' -> new = new'.
Proof.
  unfold urls. destruct (env var) as [v|]; [|congruence]. intros (es & H1 & ->) (es' & H2 & ->). do 2 f_equal.
  revert es' H2. induction H1 as [|p e ps es He _ IH]; intros es' H2; inversion H2 as [|? e' ? es2 He' Hes]; [done|].
  f_equal; [|by apply IH]. destruct He as (? & ? & E & ->), He' as (? & ? & E' & ->). congruence.
Qed.
Lemma overridden_unique file c c' : overridden file c -> overridden file c' -> c = c'.
Proof.
  intros [] [].
  destruct c as [[] [] [] [] [] [] [] ?], c' as [[] [] [] [] [] [] [] ?]. cbn in *. unfold text, origins in *.
  destruct_and!. subst.
  repeat match goal with
  | H1 : flag ?v ?o ?a, H2 : flag ?v ?o ?b |- _ => pose proof (flag_unique _ _ _ _ H1 H2); clear H2
  | H1 : number ?v ?o ?a, H2 : number ?v ?o ?b |- _ => pose proof (number_unique _ _ _ _ H1 H2); clear H2
  | H1 : bound ?v ?o ?a, H2 : bound ?v ?o ?b |- _ => pose proof (bound_unique _ _ _ _ H1 H2); clear H2
  | H1 : urls ?v ?o ?a, H2 : urls ?v ?o ?b |- _ => pose proof (urls_unique _ _ _ _ H1 H2); clear H2
  end.
  congruence.
Qed.
Lemma apply_env_exact file c : apply_env env file = Ok c <-> overridden file c.
Proof.
  split; [apply apply_env_sound|]. intros Ho. destruct (apply_env_total file c Ho) as [c' E].
  rewrite E. f_equal. by apply (overridden_unique file); [apply apply_env_sound|].
Qed.
End overrides.

(** C35. Loading accepts exactly the readable files that, overridden by the
    environment, satisfy every rule of [config_ok], and returns the overridden
    configuration. Each of the 26 variables, when set, replaces its one field,
    whatever the file says there, also where the comment at config.rs:262 promises
    that the variable counts only if the field is empty; an unreadable number or a
    peer without its sign is refused. The other fields are the file's, and with no
    variable set the file alone decides. Whatever else happens is reported as a
    configuration error. *)
Theorem load_exact env toml raw :
  (forall c, load env toml raw = Ok c <->
     exists text file, raw = Some text /\ toml text = Some file /\ overridden env file c /\ config_ok c) /\
  (forall e, load env toml raw = Err e -> exists m, e = ErrConfig m) /\
  (forall file c, overridden (fun _ => None) file c <-> c = file).
Proof.
  split; [|split].
  3:{ intros file c. rewrite <-apply_env_exact, apply_env_idle. naive_solver. }
  - intros c. unfold load. setoid_rewrite <-validate_ok. setoid_rewrite <-apply_env_exact. split.
    + intros E. apply result_bind_ok in E as (text & Hr%ok_or_ok & E).
      apply result_bind_ok in E as (file & Hf%ok_or_ok & E).
      apply result_bind_ok in E as (c' & Hc & E). apply result_bind_ok in E as ([] & Hv & [= <-]).
      by exists text, file.
    + intros (text & file & -> & Hf & Hc & Hv). cbn. rewrite Hf. cbn. rewrite Hc. cbn. by rewrite Hv.
  - unfold load. apply config_error_bind; [apply config_error_or|]. intros text.
    apply config_error_bind; [apply config_error_or|]. intros file.
    apply config_error_bind; [apply apply_env_errors|]. intros c.
    apply config_error_bind; [apply validate_errors|]. intros _. apply config_error_ok.
Qed.

Section server.
Context `{Bs58, Base64, HexCrate, ProstStorage, RocksDB, NodeRpc}.
Implicit Types (d : DB) (s : Boot).

(** The actions of a computation come after those already made, and the store stays. *)
Definition only_acts {A} (m : ST Boot A) : Prop := forall s,
  bo_db (m s).2 = bo_db s /\ exists new, bo_actions (m s).2 = bo_actions s ++ new.
Lemma acts_ret {A} (a : A) : only_acts (mret a).
Proof. intros s. split; [done|]. exists []. by rewrite app_nil_r. Qed.
Lemma acts_lift {A} (r : result Error A) : only_acts (st_lift r).
Proof. intros s. split; [done|]. exists []. by rewrite app_nil_r. Qed.
Lemma acts_act a : only_acts (act a).
Proof. intros s. split; [done|]. by exists [a]. Qed.
Lemma acts_bind {A B} (m : ST Boot A) (f : A -> ST Boot B) :
  only_acts m -> (forall a, only_acts (f a)) -> only_acts (m ≫= f).
Proof.
  intros Hm Hf s. unfold mbind, ST_bind. destruct (Hm s) as [Ed [new En]]. destruct (m s) as [[a|e] s1]; [|by eauto].
  cbn in Ed, En. destruct (Hf a s1) as [Ed1 [new1 En1]]. split; [congruence|].
  exists (new ++ new1). rewrite En1, En. by rewrite app_assoc.
Qed.
Lemma acts_iter {A} (f : A -> ST Boot unit) l : (forall a, only_acts (f a)) -> only_acts (st_iter f l).
Proof. intros Hf. induction l as [|a l IH]; cbn; [apply acts_ret|by apply acts_bind]. Qed.
Lemma acts_forced out n l : only_acts (send_forced out n l).
Proof.
  induction l as [|pt l IH] in n |- *; cbn; [apply acts_ret|]. destruct (so_bulk_closed out n); [apply acts_ret|].
  apply acts_bind; [apply acts_act|]. intros _. apply IH.
Qed.
Ltac acts := repeat (apply acts_bind || apply acts_act || apply acts_ret || apply acts_lift || apply acts_forced
  || (apply acts_iter; intros ?) || intros ? || case_match || case_bool_decide).
(** Everything after the guard. *)
Definition after_guard (out : Outside) (config : Config) : ST Boot unit :=
  act SpawnIngest ;;
  act SpawnTick ;;
  act (SpawnConsumers (nd_grpc_url (cfg_node config)) (nd_connect_timeout_ms (cfg_node config)) (cfg_streams config)) ;;
  start_peer_layer out config ;;
  send_forced out 0 (rp_force_miss (cfg_repair config)) ;;
  last_final ← st_lift (read_last_final_slot (so_later out));
  meta_now ← st_lift (read_meta (so_later out));
  start_repairs out config (default 0%Z (slot_period <$> last_final)) meta_now ;;
  start_oneshot out config ;;
  match so_rest_bind out with
  | Ok _ => act (ServeRest (rs_bind (cfg_rest config))) ;; shutdown out config
  | Err e => st_lift (Err (ErrConfig ("bind " +:+ rs_bind (cfg_rest config) +:+ ": " +:+ e)))
  end.
Lemma after_guard_acts out config : only_acts (after_guard out config).
Proof. unfold after_guard, start_peer_layer, start_repairs, start_oneshot, shutdown. acts. Qed.
Lemma after_guard_starts out config s : exists new, bo_actions (after_guard out config s).2 = bo_actions s ++ SpawnIngest :: new.
Proof.
  unfold after_guard. unfold mbind at 1, ST_bind at 1. cbn [act].
  match goal with |- context [ (?m (mkBoot ?d ?l)).2 ] => assert (only_acts m) as Hm end.
  { unfold start_peer_layer, start_repairs, start_oneshot, shutdown. acts. }
  destruct (Hm (mkBoot (bo_db s) (bo_actions s ++ [SpawnIngest]))) as [_ [new E]]. exists new.
  rewrite E. cbn. by rewrite <-app_assoc.
Qed.
Lemma run_split out config s :
  run out config s = (network_guard out config (node_chain_config config) ;; after_guard out config) s.
Proof. reflexivity. Qed.

(** C16. Start-up against a store whose meta row names another network fails with both
    names, having written nothing and started nothing. Against a fresh store or
    one of the same network, whatever becomes of the rest of the start-up, the
    store it leaves is the one it met with the meta row stamped: the configured
    network; the node's chain parameters if it answered, else the stored ones or
    the defaults; the build and the time, the creation time and the markers of an
    existing row kept. No other row changes, the writer is the first task started,
    and a later start-up with the same network passes the guard. *)
Theorem boot_guards_network out config d :
  let net := gn_network (cfg_general config) in
  let node_cfg := node_chain_config config in
  (forall m, read_meta d = Ok (Some m) -> mr_network m <> net ->
     run out config (mkBoot d []) = (Err (ErrNetworkMismatch (mr_network m) net), mkBoot d [])) /\
  (forall meta, read_meta d = Ok meta -> (forall m, meta = Some m -> mr_network m = net) ->
     let row := match meta with Some m => updated_meta out node_cfg m | None => first_meta out config node_cfg end in
     let booted := (run out config (mkBoot d [])).2 in
     (exists new, bo_actions booted = SpawnIngest :: new) /\ mr_network row = net /\
     get_cf (bo_db booted) CF_META (as_bytes meta_ROW) = Some (encode_meta_row row) /\
     (forall c k, (c, k) <> (CF_META, as_bytes meta_ROW) -> get_cf (bo_db booted) c k = get_cf d c k) /\
     (MetaRow_wf row -> read_meta (bo_db booted) = Ok (Some row) /\
        forall out' acts, exists d', network_guard out' config node_cfg (mkBoot (bo_db booted) acts) = (Ok tt, mkBoot d' acts))).
Proof.
  intros net node_cfg. split.
  - intros m Hm Hne. rewrite run_split. unfold network_guard, mbind, ST_bind, boot_db, st_lift. cbn. rewrite Hm.
    by rewrite bool_decide_eq_false_2.
  - intros meta Hm Hnet row booted.
    assert (network_guard out config node_cfg (mkBoot d []) = (Ok tt, mkBoot (write_meta d row) [])) as Eg.
    { unfold network_guard, mbind, ST_bind, boot_db, st_lift. cbn. rewrite Hm. destruct meta as [m|]; [|done].
      by rewrite bool_decide_eq_true_2 by by apply Hnet. }
    assert (bo_db booted = write_meta d row /\ exists new, bo_actions booted = SpawnIngest :: new) as [Edb Hacts].
    { subst booted. rewrite run_split. fold node_cfg. unfold mbind, ST_bind. rewrite Eg.
      split; [apply after_guard_acts|apply (after_guard_starts out config (mkBoot (write_meta d row) []))]. }
    assert (mr_network row = net) as Erow by (subst row; destruct meta as [m|]; [exact (Hnet m eq_refl)|reflexivity]).
    assert (get_cf (bo_db booted) CF_META (as_bytes meta_ROW) = Some (encode_meta_row row)) as Eget
      by (rewrite Edb; apply (get_cf_put_same d _ _ _ [])).
    split; [exact Hacts|]. split; [exact Erow|]. split; [exact Eget|]. split.
    + intros c k Hne. rewrite Edb. apply get_cf_frame. cbn. by rewrite list_elem_of_singleton.
    + intros Hwf. assert (read_meta (bo_db booted) = Ok (Some row)) as Hread.
      { unfold read_meta, Db.read_row. rewrite Eget. unfold lift_codec. by rewrite meta_row_roundtrip. }
      split; [exact Hread|]. intros out' acts. eexists. unfold network_guard, mbind, ST_bind, boot_db, st_lift. cbn.
      rewrite Hread, bool_decide_eq_true_2 by done. reflexivity.
Qed.
End server.
