(* ===== verification/Cli.v ===== *)
(** * Operator commands (src/massa-indexer/src/cli.rs, main.rs)

    The checks and repairs an operator runs on a store that is not being served:
    orphan detection, raw dumps, re-indexing, probing the peers and replaying a
    range from them; the command line, and what each command prints and exits
    with. *)

From stdpp Require Import gmap strings.
From S2P Require Import Prelude Text Ids Keys Model Proto Codec Store Db Metrics Server.
From S2P Require Import NodeMsg World Reconcile Arbiter Patch Ingest Grpc Registry PeerService Client.
From S2P Require Import Backfill Task Ddb Config OneShot Repair.

(** ** Verify *)
Record VerifyIssue := mkIssue { vi_cf : string; vi_key_hex : string; vi_reason : string }.
#[export] Instance VerifyIssue_eq_dec : EqDecision VerifyIssue.
Proof. solve_decision. Defined.
Record VerifyReport := mkVerify {
  vr_scanned : Z;
  vr_total_issues : Z;
  vr_issues : list VerifyIssue;
  vr_per_cf_rows : gmap string Z;
}.
Definition VerifyReport_default : VerifyReport := mkVerify 0 0 [] ∅.
Definition VerifyReport_ok (r : VerifyReport) : bool := Z.eqb (vr_total_issues r) 0.
(** [max_issues = 0]: no cap. *)
Definition push_issue (max_issues : nat) (i : VerifyIssue) (r : VerifyReport) : VerifyReport :=
  r <| vr_total_issues := (vr_total_issues r + 1)%Z |>
    <| vr_issues := if (max_issues =? 0) || (length (vr_issues r) <? max_issues) then vr_issues r ++ [i] else vr_issues r |>.
Definition split_addr_id_key (k : bytes) : option (bytes * bytes) :=
  if length k <? ADDR_KEY_LEN + 1 then None
  else if negb (bool_decide (nth ADDR_KEY_LEN k Byte.x00 = Byte.x00)) then None
  else Some (take ADDR_KEY_LEN k, drop (ADDR_KEY_LEN + 1) k).
(** The primary row an index row names, or why its key names none; [None]: a
    family the check does not know. *)
Definition named {A} (reason : string) (primary : Cf) (key_of : A -> bytes) (o : option A)
  : option (string + Cf * bytes) :=
  Some (match o with Some a => inr (primary, key_of a) | None => inl reason end).
Definition index_target (c : Cf) (k : bytes) : option (string + Cf * bytes) :=
  let id_of : Z * Z * bytes -> bytes := snd in
  match c with
  | IDX_BLOCK_BY_CREATOR =>
      named "key has wrong length for idx_block_by_creator" CF_BLOCK id_of (parse_idx_addr_slot_id k)
  | IDX_OP_BY_CREATOR | IDX_OP_BY_TARGET =>
      named "key has wrong length for idx_op_by_*" CF_OP id_of (parse_idx_addr_slot_id k)
  | IDX_ENDORSEMENT_BY_CREATOR =>
      named "key has wrong length for idx_endorsement_by_creator" CF_ENDORSEMENT id_of (parse_idx_addr_slot_id k)
  | IDX_TRANSFER_BY_ADDR =>
      named "key has wrong length for idx_transfer_by_addr" CF_TRANSFER
        (fun '(p, t, i, _) => transfer_key p t i) (parse_idx_transfer_by_addr k)
  | IDX_TRANSFER_BY_OP | IDX_TRANSFER_BY_BLOCK =>
      named "key has wrong length for idx_transfer_by_{op,block}" CF_TRANSFER
        (fun '(p, t, i) => transfer_key p t i) (parse_idx_id_slot_index k)
  | IDX_DENUNCIATION_BY_ADDR =>
      named "key has wrong length for idx_denunciation_by_addr" CF_DENUNCIATION id_of (parse_idx_denunciation_by_addr k)
  | IDX_DENUNCIATION_RECENT =>
      named "key has wrong length for idx_denunciation_recent" CF_DENUNCIATION id_of (parse_idx_denunciation_recent k)
  | IDX_SC_EVENT_BY_EMITTER | IDX_SC_EVENT_BY_CALLER | IDX_SC_EVENT_BY_OP =>
      named "key has wrong length for idx_sc_event_by_*" CF_SC_EVENT
        (fun '(p, t, i) => sc_event_key p t i) (parse_idx_event k)
  | IDX_ASYNC_BY_SENDER | IDX_ASYNC_BY_DEST =>
      named "key missing 0x00 separator" CF_ASYNC_MSG snd (split_addr_id_key k)
  | IDX_DEFERRED_BY_SENDER | IDX_DEFERRED_BY_TARGET =>
      named "key missing 0x00 separator" CF_DEFERRED_CALL snd (split_addr_id_key k)
  | _ => None
  end.

Section cli.
Context `{Bs58, Base64, HexCrate, ProstStorage, RocksDB}.

Definition meta_issue : VerifyIssue :=
  mkIssue (cf_name CF_META) (hex_encode (as_bytes meta_ROW))
    ("meta row missing " +:+ of_bytes [Byte.xe2; Byte.x80; Byte.x94] +:+ " DB never finished its first boot?").
Definition verify_row (d : DB) (max_issues : nat) (c : Cf) (k : bytes) (r : VerifyReport) : result Error VerifyReport :=
  let r := r <| vr_scanned := (vr_scanned r + 1)%Z |> in
  let issue reason := push_issue max_issues (mkIssue (cf_name c) (hex_encode k) reason) r in
  match index_target c k with
  | None => Ok r
  | Some (inl reason) => Ok (issue reason)
  | Some (inr (primary, pk)) =>
      row ← raw_get d (cf_name primary) pk;
      Ok (if is_some row then r else issue "primary row missing for index entry")
  end.
Fixpoint verify_rows (d : DB) (max_issues : nat) (c : Cf) (rows : list (bytes * bytes)) (r : VerifyReport)
  : result Error VerifyReport :=
  match rows with
  | [] => Ok r
  | (k, _) :: rows' => r ← verify_row d max_issues c k r; verify_rows d max_issues c rows' r
  end.
Fixpoint verify_families (d : DB) (max_issues : nat) (cs : list Cf) (r : VerifyReport) : result Error VerifyReport :=
  match cs with
  | [] => Ok r
  | c :: cs' =>
      let rows := iterator_cf d c Start in
      r ← verify_rows d max_issues c rows r;
      verify_families d max_issues cs'
        (r <| vr_per_cf_rows := <[cf_name c := Z.of_nat (length rows)]> (vr_per_cf_rows r) |>)
  end.
Definition verify (d : DB) (max_issues : nat) : result Error VerifyReport :=
  meta ← read_meta d;
  let r := if is_some meta then VerifyReport_default else push_issue max_issues meta_issue VerifyReport_default in
  verify_families d max_issues SECONDARY_INDEX_CFS r.

(** ** Dump and re-indexing *)
Record DumpOpts := mkDumpOpts {
  do_prefix : option bytes; do_key : option bytes; do_after : option bytes; do_limit : nat }.
Record DumpRow := mkDumpRow { dr_key : string; dr_value : string }.
Definition dump_row (kv : bytes * bytes) : DumpRow := mkDumpRow (hex_encode kv.1) (hex_encode kv.2).
Definition quoted (s : string) : string := of_bytes [Byte.x22] +:+ s +:+ of_bytes [Byte.x22].
Definition dump (d : DB) (name : string) (opts : DumpOpts) : result Error (Page DumpRow) :=
  if negb (cf_exists name) then Err (ErrOther ("unknown CF " +:+ quoted name))
  else
    match do_key opts with
    | Some k =>
        v ← raw_get d name k;
        Ok (match v with Some v => mkPage [dump_row (k, v)] None | None => Page_empty end)
    | None =>
        let limit := if do_limit opts =? 0 then 100 else do_limit opts in
        page ← raw_page d name (do_prefix opts) (do_after opts) limit;
        Ok (mkPage (dump_row <$> pg_items page) (pg_next_cursor page))
    end.
Definition reindex_secondaries : ST DB RebuildReport := rebuild_secondary_indexes.
End cli.

(** ** Peers *)
Record PeerProbeOk := mkProbeOk {
  po_network : string; po_peer_id : string; po_build_version : string; po_last_final_period : Z;
  po_last_final_thread : Z; po_schema_version : Z; po_now_ms : Z }.
(** [pb_elapsed]: milliseconds. *)
Record PeerProbe := mkProbe {
  pb_name : string; pb_url : string; pb_status : result string PeerProbeOk; pb_elapsed : option Z }.
Definition probe_ok (h : HealthResponse) : PeerProbeOk :=
  mkProbeOk (hr_network h) (hr_peer_id h) (hr_build_version h) (hr_last_final_period h)
    (hr_last_final_thread h) (hr_schema_version h) (hr_now_ms h).
Section peers.
Context `{Network}.
(** [by_name]: the last of equal names. *)
Definition configured (peer_cfgs : list PeerConfig) (cfg : PeerConfig) : PeerConfig :=
  default cfg (last (filter (fun c => pc_name c = pc_name cfg) peer_cfgs)).
Definition probe_one (peer_cfgs : list PeerConfig) (i : nat) : ST Client PeerProbe :=
  h ← get_handle (Static i);
  let cfg := configured peer_cfgs (ph_cfg h) in
  started ← ask net_now_ns;
  res ← attempt (health (Static i));
  ended ← ask net_now_ns;
  let elapsed := Some (Z.max (ended - started) 0 / 1000000)%Z in
  mret (mkProbe (pc_name cfg) (pc_url cfg)
    (match res with Ok h => Ok (probe_ok h) | Err e => Err (Error_display e) end) elapsed).
Fixpoint probe_all (peer_cfgs : list PeerConfig) (l : list nat) : ST Client (list PeerProbe) :=
  match l with
  | [] => mret []
  | i :: l' => p ← probe_one peer_cfgs i; rest ← probe_all peer_cfgs l'; mret (p :: rest)
  end.
(** The place of a name in the configured order; past the end when absent. *)
Fixpoint position (name : string) (l : list PeerConfig) : nat :=
  match l with
  | [] => 0
  | c :: l' => if bool_decide (pc_name c = name) then 0 else S (position name l')
  end.
Definition configured_order (peer_cfgs : list PeerConfig) (a b : PeerProbe) : bool :=
  position (pb_name a) peer_cfgs <=? position (pb_name b) peer_cfgs.
Definition peers (peer_cfgs : list PeerConfig) : ST Client (list PeerProbe) :=
  seed ← ask net_now_ns;
  c ← gets (fun c => c);
  out ← probe_all peer_cfgs (shuffle seed (seq 0 (length (cl_peers c))));
  mret (sort_by (configured_order peer_cfgs) out).
End peers.

(** *** The table *)
(** [{:<n}]: padded with blanks to [n] characters. *)
Definition pad_right (n : nat) (s : string) : string :=
  s +:+ of_bytes (replicate (n - length (chars s)) Byte.x20).
Definition ellipsis : string := of_bytes [Byte.xe2; Byte.x80; Byte.xa6].
(** [len] counts bytes, [take] characters. *)
Definition truncate (s : string) (n : nat) : string :=
  if length (as_bytes s) <=? n then s
  else of_bytes (concat (take (n - 1) (chars s))) +:+ ellipsis.
Definition fmt_elapsed (d : option Z) : string :=
  match d with Some ms => dec ms +:+ "ms" | None => "-" end.
Definition table_line (name url status network last_final schema rest : string) : string :=
  pad_right 16 name +:+ " " +:+ pad_right 40 url +:+ " " +:+ pad_right 8 status +:+ " " +:+
  pad_right 14 network +:+ " " +:+ pad_right 14 last_final +:+ " " +:+ pad_right 8 schema +:+ " " +:+ rest +:+ nl.
Definition probe_line (p : PeerProbe) : string :=
  let name := truncate (pb_name p) 16 in
  let url := truncate (pb_url p) 40 in
  match pb_status p with
  | Ok ok =>
      table_line name url "OK" (truncate (po_network ok) 14)
        (dec (po_last_final_period ok) +:+ ":" +:+ dec (po_last_final_thread ok))
        (dec (po_schema_version ok)) (fmt_elapsed (pb_elapsed p))
  | Err e =>
      table_line name url "ERR" "-" "-" "-"
        (fmt_elapsed (pb_elapsed p) +:+ "  (" +:+ truncate e 80 +:+ ")")
  end.
Definition render_peers_table (probes : list PeerProbe) : string :=
  foldl (fun s p => s +:+ probe_line p)
    (table_line "NAME" "URL" "STATUS" "NETWORK" "LAST_FINAL" "SCHEMA" "ELAPSED") probes.

(** ** Replay *)
Record ReplayOpts := mkReplayOpts {
  ro_from : Z * Z; ro_to : Z * Z; ro_thread_count : Z; ro_parts : FinalSlotParts; ro_max_slots : nat }.
Record ReplayReport := mkReplay { rr_considered : Z; rr_applied : Z; rr_missing : Z; rr_errors : Z }.
Definition ReplayReport_default : ReplayReport := mkReplay 0 0 0 0.
Definition next_slot (s : Z * Z) (thread_count : Z) : Z * Z :=
  let next_t := ((s.2 + 1) mod 256)%Z in
  if (thread_count <=? next_t)%Z then (wrapping_add_u64 s.1 1, 0%Z) else (s.1, next_t).
(** [(u64, u8)]'s order. *)
Definition slot_leb (a b : Z * Z) : bool := (a.1 <? b.1)%Z || (Z.eqb a.1 b.1 && (a.2 <=? b.2)%Z).

Section replay.
Context `{Bs58, Base64, HexCrate, ProstStorage, RocksDB, DenunciationDigest, NodeEncode, Network}.
Definition on_pool {A} (m : ST Client A) : ST (Client * World) A := fun s =>
  let '(r, c) := m s.1 in (r, (c, s.2)).
Definition on_world {A} (m : ST World A) : ST (Client * World) A := fun s =>
  let '(r, w) := m s.2 in (r, (s.1, w)).
Definition replay_slot (opts : ReplayOpts) (now : Z) (cur : Z * Z) (rep : ReplayReport)
  : ST (Client * World) ReplayReport :=
  let rep := rep <| rr_considered := (rr_considered rep + 1)%Z |> in
  res ← on_pool (attempt (fetch_final_slot cur.1 cur.2 (ro_parts opts)));
  match res with
  | Ok (Some resp) =>
      on_world (apply_peer_patch resp now) ;; mret (rep <| rr_applied := (rr_applied rep + 1)%Z |>)
  | Ok None => mret (rep <| rr_missing := (rr_missing rep + 1)%Z |>)
  | Err _ => mret (rep <| rr_errors := (rr_errors rep + 1)%Z |>)
  end.
(** Every turn considers a slot, and no more than [max_slots] are. *)
Fixpoint replay_loop (fuel : nat) (opts : ReplayOpts) (now : Z) (cur : Z * Z) (rep : ReplayReport)
  : ST (Client * World) ReplayReport :=
  if slot_leb cur (ro_to opts) then
    if (Z.of_nat (ro_max_slots opts) <=? rr_considered rep)%Z
    then st_lift (Err (ErrOther ("replay: hit --max-slots cap of " +:+ dec (Z.of_nat (ro_max_slots opts)))))
    else
      match fuel with
      | O => mret rep
      | S fuel' =>
          rep ← replay_slot opts now cur rep;
          replay_loop fuel' opts now (next_slot cur (ro_thread_count opts)) rep
      end
  else mret rep.
Definition slot_debug (s : Z * Z) : string := "(" +:+ dec s.1 +:+ ", " +:+ dec s.2 +:+ ")".
Definition replay (opts : ReplayOpts) (now : Z) : ST (Client * World) ReplayReport :=
  empty ← on_pool (gets PeerPool_is_empty);
  if empty : bool then st_lift (Err (ErrOther "replay: no peers configured"))
  else if Z.eqb (ro_thread_count opts) 0 then st_lift (Err (ErrOther "replay: thread_count must be > 0"))
  else if negb (slot_leb (ro_from opts) (ro_to opts)) then
    st_lift (Err (ErrOther ("replay: from " +:+ slot_debug (ro_from opts) +:+ " > to " +:+ slot_debug (ro_to opts))))
  else replay_loop (ro_max_slots opts) opts now (ro_from opts) ReplayReport_default.
End replay.

(** ** The command line (main.rs) *)
Definition colon : byte := Byte.x3a.
Definition parse_slot_arg (s : string) (upper_bound : bool) (thread_count : Z) : result Error (Z * Z) :=
  let '(p_str, t_opt) := match split_once colon s with Some (p, t) => (p, Some t) | None => (s, None) end in
  p ← ok_or (ErrOther ("invalid period " +:+ quoted p_str)) (parse_u64 p_str);
  t ← match t_opt with
      | Some t => ok_or (ErrOther ("invalid thread " +:+ quoted t)) (parse_u8 t)
      | None => Ok (if upper_bound then Z.max (thread_count - 1) 0 else 0)%Z
      end;
  if (thread_count <=? t)%Z
  then Err (ErrOther ("thread " +:+ dec t +:+ " out of range for thread_count " +:+ dec thread_count))
  else Ok (p, t).
(** The options of the [replay] command; a store without meta row has 32 threads. *)
Definition replay_command `{Bs58, Base64, HexCrate, ProstStorage, RocksDB} (d : DB) (from to : string)
    (thread_count : option Z) (no_block no_exec no_transfers : bool) (max_slots : nat) : result Error ReplayOpts :=
  meta ← read_meta d;
  let threads := Z.max (default (default 32%Z (mr_thread_count <$> meta)) thread_count) 1 in
  f ← parse_slot_arg from false threads;
  t ← parse_slot_arg to true threads;
  Ok (mkReplayOpts f t threads (mkParts (negb no_block) (negb no_exec) (negb no_transfers)) max_slots).
Definition rsplit_once (sep : byte) (s : string) : option (string * string) :=
  '(l, r) ← split_once sep (of_bytes (reverse (as_bytes s)));
  Some (of_bytes (reverse (as_bytes r)), of_bytes (reverse (as_bytes l))).
Definition derive_health_url (cfg : option Config) : string :=
  let bind := default "0.0.0.0:8080" ((fun c => rs_bind (cfg_rest c)) <$> cfg) in
  let '(host, port) := default ("0.0.0.0", "8080") (rsplit_once colon bind) in
  let host := if bool_decide (host ∈ ["0.0.0.0"; "::"]) || str_is_empty host then "127.0.0.1" else host in
  "http://" +:+ host +:+ ":" +:+ port +:+ "/v1/health".

(** ** The process (main.rs) *)
Inductive Cmd :=
| CmdServe
| CmdShowConfig
| CmdStats
| CmdHealthcheck (url : option string) (timeout_ms : Z)
| CmdVerify (max_issues : nat)
| CmdDump (cf : string) (key prefix after : option string) (limit : nat)
| CmdPeers (timeout_ms : Z)
| CmdReplay (from to : string) (thread_count : option Z) (no_block no_exec no_transfers : bool) (max_slots : nat)
| CmdReindexSecondaries (yes : bool).
(** What becomes of one GET: no request at all, an answer, an error, or nothing
    within the time-out. *)
Inductive GetEnd :=
| UrlInvalid (e : string)
| RequestInvalid (e : string)
| GetAnswered (status : Z) (shown : string)
| GetFailed (e : string)
| GetTimedOut.
(** What is printed; [Died]: the error [main] returns. *)
Inductive Line := Stdout (s : string) | Stderr (s : string) | Died (e : Error).

Section main.
Context `{Bs58, Base64, HexCrate, ProstStorage, RocksDB, DenunciationDigest, NodeEncode, Network, NodeRpc}.

(** What a process meets: files, environment, the TOML reader, RocksDB's [open] and
    estimates, serde_json, an HTTP client, the clock, and what start-up meets. *)
Record Host := mkHost {
  ho_read : string -> option string;
  ho_toml : string -> option Config;
  ho_env : string -> option string;
  ho_open : DbCfg -> option Error;
  ho_estimate : Cf -> option Z;
  ho_config_json : Config -> result string string;
  ho_row_json : DumpRow -> result string string;
  ho_get : string -> Z -> GetEnd;
  ho_now_ms : Z;
  ho_server : Outside;
}.
(** The store on the disk and what was printed so far. *)
Record Process := mkProcess { px_db : DB; px_lines : list Line }.
Context (host : Host).

Definition say (l : Line) : ST Process unit := fun s => (Ok tt, mkProcess (px_db s) (px_lines s ++ [l])).
Definition println (s : string) : ST Process unit := say (Stdout (s +:+ nl)).
Definition eprintln (s : string) : ST Process unit := say (Stderr (s +:+ nl)).
Definition open_db (cfg : Config) : ST Process DB := fun s =>
  match ho_open host (cfg_db cfg) with
  | Some e => (Err e, s)
  | None =>
      match ensure_schema_version (px_db s) with
      | Ok d => (Ok d, mkProcess d (px_lines s))
      | Err e => (Err e, s)
      end
  end.
(** A computation on the opened store. *)
Definition on_store {A} (m : ST DB A) : ST Process A := fun s =>
  let '(r, d) := m (px_db s) in (r, mkProcess d (px_lines s)).
Definition load_config (path : string) : ST Process Config :=
  st_lift (load (ho_env host) (ho_toml host) (ho_read host path)).
(** [{cf:36} {n}]. *)
Definition count_line (indent : string) (kv : string * Z) : string :=
  indent +:+ pad_right 36 kv.1 +:+ " " +:+ dec kv.2.
Definition parse_hex (what s : string) : result Error bytes :=
  ok_or (ErrOther (what +:+ ": invalid hex")) (hex_crate_decode s).
Definition parse_hex_opt (what : string) (o : option string) : result Error (option bytes) :=
  match o with Some s => b ← parse_hex what s; Ok (Some b) | None => Ok None end.

Definition serve (path : string) : ST Process Z :=
  cfg ← load_config path;
  d ← open_db cfg;
  on_store (fun d => let '(r, b) := Server.run (ho_server host) cfg (mkBoot d []) in (r, bo_db b)) ;;
  mret 0%Z.
Definition show_config (path : string) : ST Process Z :=
  cfg ← load_config path;
  s ← st_lift (map_err ErrOther (ho_config_json host cfg));
  println s ;;
  mret 0%Z.
Definition stats (path : string) : ST Process Z :=
  cfg ← load_config path;
  d ← open_db cfg;
  st_iter (fun kv => println (count_line "" kv)) (approx_row_counts (ho_estimate host)) ;;
  mret 0%Z.
Definition run_healthcheck (url : string) (timeout_ms : Z) : ST Process bool :=
  let complain s := eprintln ("healthcheck: " +:+ s) ;; mret false in
  match ho_get host url timeout_ms with
  | UrlInvalid e => complain ("invalid url " +:+ quoted url +:+ ": " +:+ e)
  | RequestInvalid e => complain ("build request: " +:+ e)
  | GetAnswered status shown =>
      if is_success status then mret true else complain (url +:+ " returned " +:+ shown)
  | GetFailed e => complain (url +:+ ": " +:+ e)
  | GetTimedOut => complain (url +:+ ": timed out after " +:+ dec timeout_ms +:+ "ms")
  end.
Definition healthcheck (path : string) (url : option string) (timeout_ms : Z) : ST Process Z :=
  let url := match url with
             | Some u => u
             | None =>
                 derive_health_url (match load (ho_env host) (ho_toml host) (ho_read host path) with
                                    | Ok cfg => Some cfg | Err _ => None end)
             end in
  good ← run_healthcheck url timeout_ms;
  mret (if good : bool then 0 else 1)%Z.
Definition issue_line (i : VerifyIssue) : string :=
  "ISSUE cf=" +:+ vi_cf i +:+ " key=" +:+ vi_key_hex i +:+ " reason=" +:+ vi_reason i.
(** A [BTreeMap] of counts: by name. *)
Definition counts_by_name (m : gmap string Z) : list (string * Z) :=
  sort_by (fun a b : string * Z => bool_decide (bytes_le (as_bytes a.1) (as_bytes b.1))) (map_to_list m).
Definition verify_lines (report : VerifyReport) : list string :=
  ("scanned: " +:+ dec (vr_scanned report)) :: ("total_issues: " +:+ dec (vr_total_issues report)) ::
  (count_line "  " <$> counts_by_name (vr_per_cf_rows report)) ++ (issue_line <$> vr_issues report).
Definition verify_command (path : string) (max_issues : nat) : ST Process Z :=
  cfg ← load_config path;
  d ← open_db cfg;
  report ← st_lift (verify d max_issues);
  st_iter println (verify_lines report) ;;
  mret (if VerifyReport_ok report then 0 else 1)%Z.
Fixpoint print_rows (rows : list DumpRow) : ST Process unit :=
  match rows with
  | [] => mret tt
  | row :: rows' => s ← st_lift (map_err ErrOther (ho_row_json host row)); println s ;; print_rows rows'
  end.
Definition dump_command (path cf : string) (key prefix after : option string) (limit : nat) : ST Process Z :=
  cfg ← load_config path;
  d ← open_db cfg;
  if bool_decide (cf = "list") then st_iter (fun c => println (cf_name c)) ALL_CFS ;; mret 0%Z
  else
    key ← st_lift (parse_hex_opt "--key" key);
    prefix ← st_lift (parse_hex_opt "--prefix" prefix);
    after ← st_lift (parse_hex_opt "--after" after);
    page ← st_lift (dump d cf (mkDumpOpts prefix key after limit));
    print_rows (pg_items page) ;;
    match pg_next_cursor page with
    | Some c => eprintln ("next_cursor: " +:+ hex_encode c) ;; mret 0%Z
    | None => mret 0%Z
    end.
Definition no_peers : ST Process Z :=
  eprintln "no peers configured in [peer.peers.*]" ;; mret 1%Z.
(** [PeerPool::with_db]. *)
Definition PeerPool_with_db (peer_cfgs : list PeerConfig) (network : string) : Client :=
  PeerPool_new peer_cfgs (mkLocal "local" network "test" "") PeerRegistry_new network.
Definition probe_failed (p : PeerProbe) : bool := negb (is_ok (pb_status p)).
Definition peers_command (path : string) : ST Process Z :=
  cfg ← load_config path;
  let peer_cfgs := static_peers cfg in
  if bool_decide (peer_cfgs = []) then no_peers
  else
    d ← open_db cfg;
    probes ← st_lift (peers peer_cfgs (PeerPool_with_db peer_cfgs (gn_network (cfg_general cfg)))).1;
    say (Stdout (render_peers_table probes)) ;;
    mret (if existsb probe_failed probes then 1 else 0)%Z.
Definition report_line (r : ReplayReport) : string :=
  "considered=" +:+ dec (rr_considered r) +:+ " applied=" +:+ dec (rr_applied r) +:+
  " missing=" +:+ dec (rr_missing r) +:+ " errors=" +:+ dec (rr_errors r).
(** The replay of a pool into the opened store. *)
Definition replay_store (opts : ReplayOpts) (pool : Client) : ST DB ReplayReport := fun d =>
  let '(r, s) := replay opts (ho_now_ms host) (pool, mkWorld d []) in (r, w_db s.2).
Definition replay_main (path from to : string) (thread_count : option Z)
    (no_block no_exec no_transfers : bool) (max_slots : nat) : ST Process Z :=
  cfg ← load_config path;
  d ← open_db cfg;
  opts ← st_lift (replay_command d from to thread_count no_block no_exec no_transfers max_slots);
  let peer_cfgs := static_peers cfg in
  if bool_decide (peer_cfgs = []) then no_peers
  else
    report ← on_store (replay_store opts (PeerPool_with_db peer_cfgs (gn_network (cfg_general cfg))));
    println (report_line report) ;;
    mret (if (0 <? rr_errors report)%Z then 1 else 0)%Z.
Definition reindex_command (path : string) (yes : bool) : ST Process Z :=
  if negb yes then
    eprintln ("refusing to rebuild indexes without --yes (operation writes " +:+
              "to the data dir; make sure no `serve` is running first)") ;;
    mret 1%Z
  else
    cfg ← load_config path;
    d ← open_db cfg;
    report ← on_store reindex_secondaries;
    println "cleared:" ;;
    st_iter (fun kv => println (count_line "  " kv)) (rr_cleared report) ;;
    println "replayed:" ;;
    st_iter (fun kv => println (count_line "  " kv)) (rr_replayed report) ;;
    mret 0%Z.

(** The code a command returns, or the error [main] ends with. *)
Definition dispatch_cmd (cmd : option Cmd) (path : string) : ST Process Z :=
  match default CmdServe cmd with
  | CmdServe => serve path
  | CmdShowConfig => show_config path
  | CmdStats => stats path
  | CmdHealthcheck url timeout_ms => healthcheck path url timeout_ms
  | CmdVerify max_issues => verify_command path max_issues
  | CmdDump cf key prefix after limit => dump_command path cf key prefix after limit
  | CmdPeers _ => peers_command path
  | CmdReplay from to thread_count no_block no_exec no_transfers max_slots =>
      replay_main path from to thread_count no_block no_exec no_transfers max_slots
  | CmdReindexSecondaries yes => reindex_command path yes
  end.
(** The exit status of the process; an error is printed and exits with 1. *)
Definition main (cmd : option Cmd) (path : string) (s : Process) : Z * Process :=
  match dispatch_cmd cmd path s with
  | (Ok code, s') => (code, s')
  | (Err e, s') => (1%Z, mkProcess (px_db s') (px_lines s' ++ [Died e]))
  end.
End main.

Example health_url_ex : derive_health_url None = "http://127.0.0.1:8080/v1/health".
Proof. by vm_compute. Qed.
(** A name of five characters in fifteen bytes fits its column. *)
Example truncate_ex : truncate (of_bytes (concat (replicate 5 [Byte.xe2; Byte.x80; Byte.xa6]))) 16 =
  of_bytes (concat (replicate 5 [Byte.xe2; Byte.x80; Byte.xa6])).
Proof. by vm_compute. Qed.
(** One of six, which are more bytes than columns, is shown whole with a mark that says it is not. *)
Example truncate_wide_ex : truncate (of_bytes (concat (replicate 6 [Byte.xe2; Byte.x80; Byte.xa6]))) 16 =
  of_bytes (concat (replicate 7 [Byte.xe2; Byte.x80; Byte.xa6])).
Proof. by vm_compute. Qed.
