(* ===== verification/CliProps.v ===== *)
(** * What the operator commands guarantee

    The verification reports exactly the index rows that lead nowhere; a replay
    considers the slots of its range from the lowest up, once each, within its cap,
    and keeps the peer-patch handler's guarantees on stored rows. *)

From stdpp Require Import gmap.
From S2P Require Import Prelude Ids Keys Model Proto Codec Store Text Db DbSlotRows DbProps NodeMsg.
From S2P Require Import World Tables Reconcile Arbiter Patch Ingest Grpc WorldLogic RowSafety.
From S2P Require Import Registry PeerService Client Backfill Ddb Config Cli.

Section verify.
Context `{Bs58, Base64, HexCrate, ProstStorage, RocksDB}.
Implicit Types (d : DB) (c : Cf) (k : bytes) (r : VerifyReport).

(** What is wrong with an index row. *)
Definition row_reason d c k : option string :=
  match index_target c k with
  | None => None
  | Some (inl reason) => Some reason
  | Some (inr (primary, pk)) =>
      if is_some (get_cf d primary pk) then None else Some "primary row missing for index entry"
  end.
Definition row_issue d c (kv : bytes * bytes) : option VerifyIssue :=
  mkIssue (cf_name c) (hex_encode kv.1) <$> row_reason d c kv.1.
Definition family_issues d c : list VerifyIssue := omap (row_issue d c) (iterator_cf d c Start).
Definition all_issues d (meta : option MetaRow) : list VerifyIssue :=
  (if is_some meta then [] else [meta_issue]) ++ (SECONDARY_INDEX_CFS ≫= family_issues d).
Definition kept_issues (max_issues : nat) (l : list VerifyIssue) : list VerifyIssue :=
  if max_issues =? 0 then l else take max_issues l.
(** A report that has come across the issues [l] after [n] rows. *)
Definition reports (max_issues : nat) (n : nat) (l : list VerifyIssue) r : Prop :=
  vr_scanned r = Z.of_nat n /\ vr_total_issues r = Z.of_nat (length l) /\ vr_issues r = kept_issues max_issues l.
Lemma cf_of_name c : cf (cf_name c) = Ok c.
Proof. by destruct c. Qed.
Lemma push_reports max_issues n l i r : reports max_issues n l r -> reports max_issues n (l ++ [i]) (push_issue max_issues i r).
Proof.
  intros (Hs & Ht & Hi). unfold reports, push_issue. cbn. unfold constant. split; [done|].
  rewrite length_app, Ht. split; [cbn; lia|]. rewrite Hi. unfold kept_issues.
  destruct max_issues as [|m]; [done|]. cbn [Nat.eqb orb]. rewrite length_take.
  destruct (Nat.leb_spec (Nat.min (S m) (length l)) m).
  - rewrite (take_ge l) by lia. by rewrite take_ge by (rewrite length_app; cbn; lia).
  - by rewrite take_app_le by lia.
Qed.
Lemma verify_rows_reports d max_issues c rows n l r :
  reports max_issues n l r ->
  exists r', verify_rows d max_issues c rows r = Ok r' /\
    reports max_issues (n + length rows) (l ++ omap (row_issue d c) rows) r' /\ vr_per_cf_rows r' = vr_per_cf_rows r.
Proof.
  induction rows as [|[k v] rows IH] in n, l, r |- *; intros Hr; cbn [verify_rows].
  { exists r. cbn. by rewrite Nat.add_0_r, app_nil_r. }
  set (r0 := r <| vr_scanned := (vr_scanned r + 1)%Z |>).
  assert (reports max_issues (S n) l r0) as H0r.
  { destruct Hr as (Hs & ? & ?). unfold reports. subst r0. cbn. unfold constant. rewrite Hs. split; [lia|done]. }
  assert (exists r1, verify_row d max_issues c k r = Ok r1 /\
    reports max_issues (S n) (l ++ option_list (row_issue d c (k, v))) r1 /\ vr_per_cf_rows r1 = vr_per_cf_rows r) as (r1 & E & H1r & Hp).
  { unfold verify_row. fold r0. assert (vr_per_cf_rows r0 = vr_per_cf_rows r) as H0p by done. clearbody r0.
    assert (forall i, exists r1, Ok (E := Error) (push_issue max_issues i r0) = Ok r1 /\
      reports max_issues (S n) (l ++ [i]) r1 /\ vr_per_cf_rows r1 = vr_per_cf_rows r) as Hpush.
    { intros i. eexists. split; [reflexivity|]. split; [by apply push_reports|done]. }
    assert (exists r1, Ok (E := Error) r0 = Ok r1 /\
      reports max_issues (S n) (l ++ []) r1 /\ vr_per_cf_rows r1 = vr_per_cf_rows r) as Hkeep
      by (exists r0; by rewrite app_nil_r).
    unfold row_issue, row_reason. cbn [fst].
    destruct (index_target c k) as [[reason|[primary pk]]|]; [apply Hpush| |exact Hkeep].
    unfold raw_get, mbind, result_bind. rewrite cf_of_name.
    destruct (get_cf d primary pk); [exact Hkeep|apply Hpush]. }
  unfold mbind, result_bind. rewrite E. destruct (IH (S n) _ r1 H1r) as (r' & E' & Hr' & Hp').
  exists r'. split; [done|]. split; [|congruence]. cbn [length omap list_omap].
  replace (n + S (length rows)) with (S n + length rows) by lia.
  destruct (row_issue d c (k, v)); cbn in Hr'; [|by rewrite app_nil_r in Hr'].
  by rewrite <-app_assoc in Hr'.
Qed.
Lemma verify_families_reports d max_issues cs n l r :
  reports max_issues n l r ->
  exists r', verify_families d max_issues cs r = Ok r' /\
    reports max_issues (n + sum_list_with (fun c => length (iterator_cf d c Start)) cs) (l ++ (cs ≫= family_issues d)) r' /\
    (forall name, vr_per_cf_rows r' !! name =
       match last (filter (fun c => cf_name c = name) cs) with
       | Some c => Some (Z.of_nat (length (iterator_cf d c Start)))
       | None => vr_per_cf_rows r !! name
       end).
Proof.
  induction cs as [|c cs IH] in n, l, r |- *; intros Hr; cbn [verify_families].
  { exists r. cbn. by rewrite Nat.add_0_r, app_nil_r. }
  destruct (verify_rows_reports d max_issues c (iterator_cf d c Start) n l r Hr) as (r1 & E & H1r & Hp).
  unfold mbind, result_bind. rewrite E.
  set (r2 := r1 <| vr_per_cf_rows := _ |>).
  assert (reports max_issues (n + length (iterator_cf d c Start)) (l ++ family_issues d c) r2) as H2r by exact H1r.
  destruct (IH _ _ r2 H2r) as (r' & E' & Hr' & Hp'). exists r'. split; [exact E'|]. split.
  - cbn [sum_list_with]. rewrite Nat.add_assoc, bind_cons, app_assoc. exact Hr'.
  - intros name. rewrite Hp', filter_cons. destruct (decide (cf_name c = name)) as [<-|Hne].
    + destruct (filter (fun c' => cf_name c' = cf_name c) cs) as [|c' l'] eqn:El; [subst r2; cbn; unfold constant; by rewrite lookup_insert_eq|].
      rewrite last_cons_cons. destruct (last (c' :: l')) eqn:El'; [done|]. by apply last_None in El'.
    + destruct (last _); [done|]. subst r2. cbn. unfold constant. rewrite lookup_insert_ne by done. by rewrite Hp.
Qed.
(** Rows of an exactly indexed family are found from their index. *)
Lemma exact_target {R} `{SlotRow R} d c k v :
  slot_rows_ok (R := R) d -> slot_index_exact (R := R) d -> c ∈ sr_indexes -> get_cf d c k = Some v ->
  exists p t i, sr_parse c k = Some (p, t, i) /\ is_some (get_cf d sr_primary (sc_event_key p t i)) = true.
Proof.
  intros Hrows Hex Hc Hg. destruct (proj1 (Hex c k Hc) (ex_intro _ v Hg)) as (r & Hr & Hk).
  pose proof (stored_wf d r Hrows Hr) as Hwf. pose proof (sr_keys_parse r (c, k) Hwf Hk) as Hparse. cbn in Hparse.
  destruct Hr as (raw & Hraw & _). do 3 eexists. split; [exact Hparse|]. unfold sr_key in Hraw. by rewrite Hraw.
Qed.
Lemma exact_transfers d c k v :
  slot_rows_ok (R := StoredTransfer) d -> slot_index_exact (R := StoredTransfer) d ->
  c ∈ [IDX_TRANSFER_BY_ADDR; IDX_TRANSFER_BY_OP; IDX_TRANSFER_BY_BLOCK] -> get_cf d c k = Some v -> row_reason d c k = None.
Proof.
  intros Hrows Hex Hc Hg. destruct (exact_target (R := StoredTransfer) d c k v Hrows Hex Hc Hg) as (p & t & i & Hp & Hs).
  cbn in Hp, Hs. rewrite !elem_of_cons in Hc. unfold row_reason, index_target, transfer_parse, named in *.
  destruct Hc as [->|[->|[->|[]%elem_of_nil]]]; cbn in *.
  - destruct (parse_idx_transfer_by_addr k) as [[[[? ?] ?] ?]|]; [|done]. injection Hp as -> -> ->.
    change (transfer_key p t i) with (sc_event_key p t i). by rewrite Hs.
  - rewrite Hp. change (transfer_key p t i) with (sc_event_key p t i). by rewrite Hs.
  - rewrite Hp. change (transfer_key p t i) with (sc_event_key p t i). by rewrite Hs.
Qed.
Lemma exact_events d c k v :
  slot_rows_ok (R := StoredScEvent) d -> slot_index_exact (R := StoredScEvent) d ->
  c ∈ [IDX_SC_EVENT_BY_EMITTER; IDX_SC_EVENT_BY_CALLER; IDX_SC_EVENT_BY_OP] -> get_cf d c k = Some v -> row_reason d c k = None.
Proof.
  intros Hrows Hex Hc Hg. destruct (exact_target (R := StoredScEvent) d c k v Hrows Hex Hc Hg) as (p & t & i & Hp & Hs).
  change (parse_idx_event k = Some (p, t, i)) in Hp. change (is_some (get_cf d CF_SC_EVENT (sc_event_key p t i)) = true) in Hs.
  rewrite !elem_of_cons in Hc. unfold row_reason, index_target, named.
  destruct Hc as [->|[->|[->|[]%elem_of_nil]]]; rewrite Hp; by rewrite Hs.
Qed.
Lemma row_issue_none d c : family_issues d c = [] <-> forall k v, get_cf d c k = Some v -> row_reason d c k = None.
Proof.
  unfold family_issues. split.
  - intros E k v Hg%iterator_get. destruct (row_reason d c k) as [reason|] eqn:Er; [|done].
    assert (mkIssue (cf_name c) (hex_encode k) reason ∈ omap (row_issue d c) (iterator_cf d c Start)) as Hin.
    { apply list_elem_of_omap. exists (k, v). split; [done|]. unfold row_issue. cbn. by rewrite Er. }
    rewrite E in Hin. by apply not_elem_of_nil in Hin.
  - intros Hn. destruct (omap (row_issue d c) (iterator_cf d c Start)) as [|i l] eqn:E; [done|].
    assert (i ∈ omap (row_issue d c) (iterator_cf d c Start)) as Hin by (rewrite E; left).
    apply list_elem_of_omap in Hin as ([k v] & Hin & Hi). apply iterator_get in Hin.
    unfold row_issue in Hi. cbn in Hi. by rewrite (Hn k v Hin) in Hi.
Qed.
Lemma verify_reports d max_issues meta :
  read_meta d = Ok meta -> exists r, verify d max_issues = Ok r /\
    reports max_issues (sum_list_with (fun c => length (iterator_cf d c Start)) SECONDARY_INDEX_CFS) (all_issues d meta) r.
Proof.
  intros Hm. unfold verify, mbind, result_bind. rewrite Hm.
  set (r0 := if is_some meta then _ else _).
  assert (reports max_issues 0 (if is_some meta then [] else [meta_issue]) r0) as H0r.
  { assert (reports max_issues 0 [] VerifyReport_default) as Hd.
    { split; [done|]. split; [done|]. unfold kept_issues. by destruct max_issues. }
    subst r0. destruct (is_some meta); [done|]. apply (push_reports max_issues 0 []), Hd. }
  destruct (verify_families_reports d max_issues SECONDARY_INDEX_CFS 0 _ r0 H0r) as (r & E & Hr & _).
  exists r. split; [exact E|exact Hr].
Qed.
Lemma all_issues_nil d meta : all_issues d meta = [] <->
  is_some meta = true /\ forall c k v, c ∈ SECONDARY_INDEX_CFS -> get_cf d c k = Some v -> row_reason d c k = None.
Proof.
  unfold all_issues. rewrite app_nil. destruct (is_some meta); [|by split; intros [? ?]].
  split; (intros [_ Hall]; split; [done|]).
  - intros c k v Hc. apply row_issue_none. destruct (family_issues d c) as [|i l] eqn:El; [done|].
    assert (i ∈ SECONDARY_INDEX_CFS ≫= family_issues d) as Hin by (apply list_elem_of_bind; exists c; rewrite El; by split; [left|]).
    rewrite Hall in Hin. by apply not_elem_of_nil in Hin.
  - destruct (SECONDARY_INDEX_CFS ≫= family_issues d) as [|i l] eqn:El; [done|].
    assert (i ∈ SECONDARY_INDEX_CFS ≫= family_issues d) as Hin by (rewrite El; left).
    apply list_elem_of_bind in Hin as (c & Hin & Hc).
    rewrite (proj2 (row_issue_none d c) (fun k v => Hall c k v Hc)) in Hin. by apply not_elem_of_nil in Hin.
Qed.
(** The verification of a store whose meta row reads, succeeds: it scans every row
    of every secondary index, counts an issue for a missing meta row and for each
    row that names no primary key or one without a row, and lists the first of
    them, up to its cap. It passes exactly when there is none; a family whose
    indexes are exact, as the writers keep them, has none. *)
Lemma verify_finds_orphans d max_issues meta :
  read_meta d = Ok meta ->
  exists r, verify d max_issues = Ok r /\
    vr_scanned r = Z.of_nat (sum_list_with (fun c => length (iterator_cf d c Start)) SECONDARY_INDEX_CFS) /\
    vr_total_issues r = Z.of_nat (length (all_issues d meta)) /\
    vr_issues r = kept_issues max_issues (all_issues d meta) /\
    (VerifyReport_ok r = true <->
       is_some meta = true /\
       forall c k v, c ∈ SECONDARY_INDEX_CFS -> get_cf d c k = Some v -> row_reason d c k = None) /\
    (slot_rows_ok (R := StoredTransfer) d -> slot_index_exact (R := StoredTransfer) d ->
       forall c k v, c ∈ [IDX_TRANSFER_BY_ADDR; IDX_TRANSFER_BY_OP; IDX_TRANSFER_BY_BLOCK] ->
         get_cf d c k = Some v -> row_reason d c k = None) /\
    (slot_rows_ok (R := StoredScEvent) d -> slot_index_exact (R := StoredScEvent) d ->
       forall c k v, c ∈ [IDX_SC_EVENT_BY_EMITTER; IDX_SC_EVENT_BY_CALLER; IDX_SC_EVENT_BY_OP] ->
         get_cf d c k = Some v -> row_reason d c k = None).
Proof.
  intros Hm. destruct (verify_reports d max_issues meta Hm) as (r & E & Hs & Ht & Hi).
  exists r. split; [exact E|]. split; [exact Hs|]. split; [exact Ht|]. split; [exact Hi|]. split.
  - unfold VerifyReport_ok. rewrite Z.eqb_eq, Ht, <-all_issues_nil, <-length_zero_iff_nil. lia.
  - split; intros Hrows Hex c k v; [by apply exact_transfers|by apply exact_events].
Qed.
End verify.

(** The place of a slot in chain order. *)
Definition slot_number (threads : Z) (s : Z * Z) : Z := (s.1 * threads + s.2)%Z.
Definition in_chain (threads : Z) (s : Z * Z) : Prop := (0 <= s.1 < u64_max /\ 0 <= s.2 < threads)%Z.
Fixpoint chain_from (n : nat) (s : Z * Z) (threads : Z) : list (Z * Z) :=
  match n with O => [] | S n' => s :: chain_from n' (next_slot s threads) threads end.

Lemma chain_length n s threads : length (chain_from n s threads) = n.
Proof. induction n as [|n IH] in s |- *; cbn; by rewrite ?IH. Qed.
Section chain.
Context (threads : Z) (Hthreads : (0 < threads <= 255)%Z).
Lemma next_slot_number s : in_chain threads s ->
  slot_number threads (next_slot s threads) = (slot_number threads s + 1)%Z /\
  (0 <= (next_slot s threads).1 <= u64_max /\ 0 <= (next_slot s threads).2 < threads)%Z.
Proof.
  unfold in_chain, next_slot, slot_number, wrapping_add_u64, u64_max. destruct s as [p t]. cbn. intros Hs.
  rewrite (Z.mod_small (t + 1)) by lia.
  destruct (Z.leb_spec threads (t + 1)); cbn; [rewrite Z.mod_small by lia|]; nia.
Qed.
Lemma slot_leb_number a b : (0 <= a.2 < threads)%Z -> (0 <= b.2 < threads)%Z ->
  slot_leb a b = true <-> (slot_number threads a <= slot_number threads b)%Z.
Proof.
  destruct a as [p t], b as [p' t']. unfold slot_leb, slot_number. cbn. intros Ha Hb.
  rewrite orb_true_iff, andb_true_iff, Z.ltb_lt, Z.eqb_eq, Z.leb_le. split; [nia|]. intros Hle.
  destruct (Z.lt_trichotomy p p') as [?|[->|?]]; [by left|right; nia|nia].
Qed.
Lemma slot_number_inj a b : (0 <= a.2 < threads)%Z -> (0 <= b.2 < threads)%Z ->
  slot_number threads a = slot_number threads b -> a = b.
Proof.
  destruct a as [p t], b as [p' t']. unfold slot_number. cbn. intros Ha Hb E.
  assert (p = p') as -> by nia. f_equal. lia.
Qed.
Lemma elem_of_chain n from to s : in_chain threads to -> (0 <= from.1)%Z -> (0 <= from.2 < threads)%Z ->
  Z.of_nat n = (slot_number threads to - slot_number threads from + 1)%Z ->
  s ∈ chain_from n from threads <->
  (0 <= s.2 < threads)%Z /\ slot_leb from s = true /\ slot_leb s to = true.
Proof.
  intros Hto. induction n as [|n IH] in from |- *; intros Hp Ht Hn.
  - split; [by intros ?%not_elem_of_nil|]. 
    intros (Hs & L1 & L2). apply slot_leb_number in L1, L2; try done; try apply Hto. lia.
  - assert (in_chain threads from) as Hfrom.
    { split; [|done]. split; [done|]. destruct Hto as [[? ?] [? ?]]. unfold slot_number in Hn. nia. }
    destruct (next_slot_number from Hfrom) as (Enext & Hp' & Ht').
    cbn [chain_from]. rewrite elem_of_cons, IH by (done || lia).
    split.
    + intros [->|(Hs & L1 & L2)].
      * split; [done|]. rewrite !slot_leb_number by (done || apply Hto). lia.
      * apply slot_leb_number in L1, L2; try done; try apply Hto.
        split; [done|]. rewrite !slot_leb_number by (done || apply Hto). lia.
    + intros (Hs & L1 & L2). apply slot_leb_number in L1, L2; try done; try apply Hto.
      destruct (decide (slot_number threads s = slot_number threads from)) as [E|E].
      * left. by apply slot_number_inj.
      * right. split; [done|]. rewrite !slot_leb_number by (done || apply Hto). lia.
Qed.
Lemma chain_nodup n from to : in_chain threads to -> (0 <= from.1)%Z -> (0 <= from.2 < threads)%Z ->
  Z.of_nat n = (slot_number threads to - slot_number threads from + 1)%Z -> NoDup (chain_from n from threads).
Proof.
  intros Hto. induction n as [|n IH] in from |- *; intros Hp Ht Hn; [apply NoDup_nil_2|]. cbn [chain_from].
  assert (in_chain threads from) as Hfrom.
  { split; [|done]. split; [done|]. destruct Hto as [[? ?] [? ?]]. unfold slot_number in Hn. nia. }
  destruct (next_slot_number from Hfrom) as (Enext & Hp' & Ht').
  apply NoDup_cons. split; [|apply IH; (done || lia)].
  intros (_ & L1 & _)%(elem_of_chain _ _ to); [|done|lia|done|lia].
  apply slot_leb_number in L1; [lia|done..].
Qed.
Lemma slots_left n cur to : in_chain threads to -> (0 <= cur.2 < threads)%Z ->
  Z.of_nat n = (slot_number threads to - slot_number threads cur + 1)%Z -> slot_leb cur to = (0 <? n)%nat.
Proof.
  intros Hto Ht Hn. apply eq_true_iff_eq. rewrite slot_leb_number, Nat.ltb_lt by (done || apply Hto). lia.
Qed.
End chain.

Section replay.
Context `{Bs58, Base64, HexCrate, ProstStorage, RocksDB, DenunciationDigest, NodeEncode, Network}.

(** The slots of a list, one after the other. *)
Fixpoint replay_slots (opts : ReplayOpts) (now : Z) (l : list (Z * Z)) (rep : ReplayReport)
  : ST (Client * World) ReplayReport :=
  match l with
  | [] => mret rep
  | cur :: l => rep ← replay_slot opts now cur rep; replay_slots opts now l rep
  end.
Definition capped (opts : ReplayOpts) : ST (Client * World) ReplayReport :=
  st_lift (Err (ErrOther ("replay: hit --max-slots cap of " +:+ dec (Z.of_nat (ro_max_slots opts))))).
Definition settled (rep : ReplayReport) : Z := (rr_applied rep + rr_missing rep + rr_errors rep)%Z.

Lemma replay_slot_counts opts now cur rep s rep' s' : replay_slot opts now cur rep s = (Ok rep', s') ->
  rr_considered rep' = (rr_considered rep + 1)%Z /\ settled rep' = (settled rep + 1)%Z.
Proof.
  unfold replay_slot. intros (res & s1 & _ & E)%ST_bind_ok.
  destruct res as [[resp|]|e]; [apply ST_bind_ok in E as (? & s2 & _ & E)| |].
  all: injection E as <- <-; unfold settled; destruct rep; cbn; unfold constant; lia.
Qed.
Lemma replay_slots_counts opts now l rep s rep' s' : replay_slots opts now l rep s = (Ok rep', s') ->
  rr_considered rep' = (rr_considered rep + Z.of_nat (length l))%Z /\
  settled rep' = (settled rep + Z.of_nat (length l))%Z.
Proof.
  induction l as [|cur l IH] in rep, s |- *; intros E.
  - unfold replay_slots, mret, ST_ret in E. simplify_eq/=. lia.
  - cbn [replay_slots] in E. apply ST_bind_ok in E as (rep1 & s1 & [Hc Hs]%replay_slot_counts & E).
    apply IH in E as [-> ->]. cbn [length]. lia.
Qed.
(** The loop is the walk of the range's first [max_slots] slots. *)
Lemma replay_loop_walks opts now fuel n cur rep s :
  (0 < ro_thread_count opts <= 255)%Z -> in_chain (ro_thread_count opts) (ro_to opts) ->
  (0 <= cur.1)%Z -> (0 <= cur.2 < ro_thread_count opts)%Z ->
  (Z.of_nat n = slot_number (ro_thread_count opts) (ro_to opts) - slot_number (ro_thread_count opts) cur + 1)%Z ->
  (rr_considered rep + Z.of_nat fuel = Z.of_nat (ro_max_slots opts))%Z ->
  replay_loop fuel opts now cur rep s =
    (rep ← replay_slots opts now (take fuel (chain_from n cur (ro_thread_count opts))) rep;
     if (n <=? fuel)%nat then mret rep else capped opts) s.
Proof.
  intros Hthreads Hto. induction fuel as [|fuel IH] in n, cur, rep, s |- *; intros Hp Ht Hn Hfuel.
  all: cbn [replay_loop]; rewrite (slots_left _ Hthreads n) by done; destruct n as [|n]; try done.
  all: change (0 <? S n)%nat with true.
  - rewrite (proj2 (Z.leb_le _ _)) by lia. done.
  - rewrite (proj2 (Z.leb_gt _ _)) by lia. cbn [chain_from take replay_slots].
    unfold mbind at 1 2 3, ST_bind. destruct (replay_slot opts now cur rep s) as [[rep'|e] s'] eqn:E; [|done].
    apply replay_slot_counts in E as [Hc _].
    assert (in_chain (ro_thread_count opts) cur) as Hcur.
    { split; [|done]. split; [done|]. destruct Hto as [[? ?] [? ?]]. unfold slot_number in Hn. nia. }
    destruct (next_slot_number _ Hthreads cur Hcur) as (Enext & Hp' & Ht').
    rewrite (IH n) by (done || lia). done.
Qed.
(** A replay changes the store only through the peer-patch handler. *)
Section frame.
Context (R : DB -> DB -> Prop) `{!PreOrder R} (now : Z) (Hpatch : forall resp, moves R (apply_peer_patch resp now)).
Definition steps {A} (m : ST (Client * World) A) : Prop := forall s, R (w_db s.2) (w_db (m s).2.2).
Lemma replay_steps_ret {A} (a : A) : steps (mret a).
Proof. by intros s. Qed.
Lemma replay_steps_bind {A B} (m : ST (Client * World) A) (f : A -> ST (Client * World) B) :
  steps m -> (forall a, steps (f a)) -> steps (m ≫= f).
Proof.
  intros Hm Hf s. unfold mbind, ST_bind. pose proof (Hm s) as Hs. destruct (m s) as [[a|e] s1]; [|done].
  etrans; [exact Hs | apply Hf].
Qed.
Lemma replay_steps_pool {A} (m : ST Client A) : steps (on_pool m).
Proof. intros s. unfold on_pool. by destruct (m s.1). Qed.
Lemma replay_steps_world {A} (m : ST World A) : moves R m -> steps (on_world m).
Proof. intros Hm s. unfold on_world. pose proof (Hm s.2) as Hs. by destruct (m s.2). Qed.
Lemma replay_slots_steps opts l rep : steps (replay_slots opts now l rep).
Proof.
  induction l as [|cur l IH] in rep |- *; [apply replay_steps_ret|]. cbn [replay_slots].
  apply replay_steps_bind; [|done]. unfold replay_slot. apply replay_steps_bind; [apply replay_steps_pool|].
  intros [[resp|]|e]; try apply replay_steps_ret.
  apply replay_steps_bind; [by apply replay_steps_world | intros _; apply replay_steps_ret].
Qed.
End frame.

(** C19. [replay] asks the peers for each slot between [--from] and [--to], thread
    after thread and period after period, once each and none beside them: it is
    the walk of that list's first [max_slots] slots, followed by the cap error when
    the range holds more. A replay that ends well has considered every slot of the
    range, each counted as applied, missing or failed. The store it leaves has every
    operation and every block row at least as advanced as before. *)
Theorem replay_covers (opts : ReplayOpts) (now : Z) (n : nat) (s : Client * World) :
  let threads := ro_thread_count opts in
  let todo := chain_from n (ro_from opts) threads in
  (0 < threads <= 255)%Z -> in_chain threads (ro_from opts) -> in_chain threads (ro_to opts) ->
  PeerPool_is_empty s.1 = false -> slot_leb (ro_from opts) (ro_to opts) = true ->
  Z.of_nat n = (slot_number threads (ro_to opts) - slot_number threads (ro_from opts) + 1)%Z ->
  NoDup todo /\
  (forall sl, sl ∈ todo <->
    (0 <= sl.2 < threads)%Z /\ slot_leb (ro_from opts) sl = true /\ slot_leb sl (ro_to opts) = true) /\
  replay opts now s =
    (rep ← replay_slots opts now (take (ro_max_slots opts) todo) ReplayReport_default;
     if (n <=? ro_max_slots opts)%nat then mret rep else capped opts) s /\
  (forall rep s', replay opts now s = (Ok rep, s') ->
    rr_considered rep = Z.of_nat n /\
    (rr_applied rep + rr_missing rep + rr_errors rep)%Z = Z.of_nat n) /\
  rows_le op_le (w_db s.2) (w_db (replay opts now s).2.2) /\
  rows_le block_le (w_db s.2) (w_db (replay opts now s).2.2).
Proof.
  intros threads todo Hthreads Hfrom Hto Hpool Hle Hn.
  assert (replay opts now s =
    (rep ← replay_slots opts now (take (ro_max_slots opts) todo) ReplayReport_default;
     if (n <=? ro_max_slots opts)%nat then mret rep else capped opts) s) as E.
  { unfold replay, mbind at 1, ST_bind. unfold on_pool at 1, gets. rewrite Hpool.
    destruct s as [c w]. cbn [fst snd].
    rewrite (proj2 (Z.eqb_neq _ 0)) by (unfold threads in Hthreads; lia). rewrite Hle.
    apply replay_loop_walks; [done|done|apply Hfrom|apply Hfrom|done|done]. }
  split_and!.
  - apply (chain_nodup _ Hthreads n _ (ro_to opts)); [done|apply Hfrom|apply Hfrom|done].
  - intros sl. apply elem_of_chain; [done|done|apply Hfrom|apply Hfrom|done].
  - exact E.
  - rewrite E. intros rep s' (rep1 & s1 & [Hc Hs]%replay_slots_counts & Hend)%ST_bind_ok.
    destruct (Nat.leb_spec n (ro_max_slots opts)); [|done]. injection Hend as -> _.
    unfold todo in Hc, Hs. rewrite length_take, chain_length in Hc, Hs. unfold settled in Hs. cbn in Hc, Hs. lia.
  - rewrite E. apply (replay_steps_bind (rows_le op_le)); [|intros rep s0; by destruct (_ <=? _)%nat].
    apply replay_slots_steps; [apply _|]. intros resp. apply apply_peer_ops.
  - rewrite E. apply (replay_steps_bind (rows_le block_le)); [|intros rep s0; by destruct (_ <=? _)%nat].
    apply replay_slots_steps; [apply _|]. intros resp. apply apply_peer_blocks.
Qed.
End replay.
