(* ===== verification/ReindexProps.v ===== *)
(** * What re-indexing guarantees

    [Db::rebuild_secondary_indexes] (src/massa-indexer/src/db.rs) empties every
    secondary index family and writes the index rows of every stored row anew.
    [Indexed] is what a phase of the rebuild relies on; the phases compose against
    it, and the eight primary families are its instances. *)

From stdpp Require Import gmap.
From S2P Require Import Prelude Ids Keys Model Proto Codec CodecLemmas RestProps Store Text Db DbUpsert.
From S2P Require Import DbSlotRows DbProps NodeMsg World Reconcile Ddb Grpc Client ClientProps Config Server Cli CliProps.

(** A closed membership fact, evaluated. *)
Ltac by_decision := lazymatch goal with |- ?P => exact (bool_decide_unpack P I) end.

(** The families a phase may write index rows to: the secondary indexes, and the
    candidate blocks by slot, which the rebuild does not clear. *)
Definition index_families : list Cf := CF_SLOT_CANDIDATE_BLOCK :: SECONDARY_INDEX_CFS.

Class Indexed `{Bs58, Base64, HexCrate, ProstStorage, RocksDB} (A : Type) := {
  ix_cf : Cf;
  ix_step : bytes -> bytes -> ST DB unit;
  ix_decode : bytes -> result CodecError A;
  (** The row is the one the code writes under this key, in these bytes. *)
  ix_wf : bytes -> bytes -> A -> Prop;
  ix_keys : bytes -> A -> list (Cf * bytes);
  ix_cf_primary : ix_cf ∉ index_families /\ ix_cf <> CF_META;
  ix_keys_in k a ck : ck ∈ ix_keys k a -> ck.1 ∈ index_families;
  ix_step_spec d k raw a :
    get_cf d ix_cf k = Some raw -> ix_decode raw = Ok a -> ix_wf k raw a ->
    exists d', ix_step k raw d = (Ok tt, d') /\
      forall c key, get_cf d' c key = if decide ((c, key) ∈ ix_keys k a) then Some [] else get_cf d c key;
  ix_target k raw a ck :
    ix_wf k raw a -> ck ∈ ix_keys k a -> ck.1 ∈ SECONDARY_INDEX_CFS ->
    index_target ck.1 ck.2 = None \/ index_target ck.1 ck.2 = Some (inr (ix_cf, k));
}.
Arguments ix_cf {_ _ _ _ _} A {_}.
Arguments ix_step {_ _ _ _ _} A {_}.

Section phases.
Context `{Bs58, Base64, HexCrate, ProstStorage, RocksDB}.
Implicit Types (d : DB) (k raw : bytes) (ck : Cf * bytes).

Definition indexed_ok A `{!Indexed A} d : Prop :=
  forall k raw, get_cf d (ix_cf A) k = Some raw -> exists a : A, ix_decode raw = Ok a /\ ix_wf k raw a.
(** A stored row of the family calls for this index row. *)
Definition called_for A `{!Indexed A} d ck : Prop :=
  exists k raw (a : A), get_cf d (ix_cf A) k = Some raw /\ ix_decode raw = Ok a /\ ck ∈ ix_keys k a.
Definition keys_at A `{!Indexed A} d k : list (Cf * bytes) :=
  match raw ← get_cf d (ix_cf A) k; ok (ix_decode (A := A) raw) with Some a => ix_keys k a | None => [] end.
Definition family_keys A `{!Indexed A} d : list (Cf * bytes) := collect_keys d (ix_cf A) ≫= keys_at A d.
(** [d'] is [d] with the index rows [l] put. *)
Definition marked (l : list (Cf * bytes)) d d' : Prop :=
  forall c k, get_cf d' c k = if decide ((c, k) ∈ l) then Some [] else get_cf d c k.

Lemma iterator_ext d d' c : (forall k, get_cf d c k = get_cf d' c k) -> iterator_cf d c Start = iterator_cf d' c Start.
Proof.
  intros E. apply sorted_entries_unique; [apply iterator_sorted..|].
  intros [k v]. by rewrite !iterator_get, E.
Qed.
Lemma elem_of_collect d c k : k ∈ collect_keys d c <-> is_Some (get_cf d c k).
Proof.
  unfold collect_keys. rewrite list_elem_of_fmap. split.
  - intros ([k' v] & -> & Hin%iterator_get). by exists v.
  - intros [v Hv]. exists (k, v). by rewrite iterator_get.
Qed.
Lemma elem_of_keys_at A `{!Indexed A} d k ck :
  ck ∈ keys_at A d k <-> exists raw (a : A), get_cf d (ix_cf A) k = Some raw /\ ix_decode raw = Ok a /\ ck ∈ ix_keys k a.
Proof.
  unfold keys_at. split.
  - destruct (get_cf d (ix_cf A) k) as [raw|]; cbn; [|by intros ?%elem_of_nil].
    destruct (ix_decode raw) as [a|e] eqn:E; cbn; [|by intros ?%elem_of_nil]. intros Hin. by exists raw, a.
  - intros (raw & a & -> & E & Hin). cbn. by rewrite E.
Qed.
Lemma elem_of_family_keys A `{!Indexed A} d ck : ck ∈ family_keys A d <-> called_for A d ck.
Proof.
  unfold family_keys, called_for. rewrite list_elem_of_bind. setoid_rewrite elem_of_keys_at.
  setoid_rewrite elem_of_collect. naive_solver.
Qed.
Lemma keys_at_in A `{!Indexed A} d k ck : ck ∈ keys_at A d k -> ck.1 ∈ index_families.
Proof. rewrite elem_of_keys_at. intros (raw & a & _ & _ & Hin). by eapply ix_keys_in. Qed.
(** Writing index rows leaves every primary family alone. *)
Lemma marked_primary A `{!Indexed A} l d d' k :
  (forall ck, ck ∈ l -> ck.1 ∈ index_families) -> marked l d d' -> get_cf d' (ix_cf A) k = get_cf d (ix_cf A) k.
Proof.
  intros Hl Hm. rewrite Hm, decide_False; [done|]. intros Hin%Hl. by apply (proj1 (ix_cf_primary (A := A))).
Qed.
Lemma marked_app l1 l2 d d1 d2 : marked l1 d d1 -> marked l2 d1 d2 -> marked (l1 ++ l2) d d2.
Proof. intros Hm1 Hm2 c k. rewrite Hm2, Hm1. repeat case_decide; set_solver. Qed.
Lemma marked_nil d : marked [] d d.
Proof. intros c k. rewrite decide_False by set_solver. done. Qed.

Lemma replay_marks A `{!Indexed A} d0 ks : indexed_ok A d0 -> (forall k, k ∈ ks -> is_Some (get_cf d0 (ix_cf A) k)) ->
  forall d n, (forall k, get_cf d (ix_cf A) k = get_cf d0 (ix_cf A) k) ->
  exists d', Db.replay (ix_cf A) (ix_step A) n ks d = (Ok (cf_name (ix_cf A), n + Z.of_nat (length ks))%Z, d') /\
    marked (ks ≫= keys_at A d0) d d'.
Proof.
  intros Hok. induction ks as [|k ks IH]; intros Hks d n Hd.
  { exists d. cbn. rewrite Z.add_0_r. split; [done|apply marked_nil]. }
  destruct (Hks k) as [raw Hraw]; [left|]. destruct (Hok k raw Hraw) as (a & Ha & Hw).
  destruct (ix_step_spec d k raw a) as (d1 & E1 & Hm1); [by rewrite Hd|done..|].
  assert (keys_at A d0 k = ix_keys k a) as Hk by (unfold keys_at; rewrite Hraw; cbn; by rewrite Ha).
  assert (marked (keys_at A d0 k) d d1) as Hm by (intros c key; by rewrite Hm1, Hk).
  destruct (IH (fun k' Hin => Hks k' (list_elem_of_further _ _ _ Hin)) d1 (n + 1)%Z) as (d' & E & Hm').
  { intros k'. rewrite (marked_primary A _ d d1) by (done || apply keys_at_in). apply Hd. }
  exists d'. split; [|rewrite bind_cons; by eapply marked_app].
  cbn [Db.replay]. unfold mbind at 1, ST_bind, st_get. rewrite Hd, Hraw. unfold mbind, ST_bind. rewrite E1, E.
  do 2 f_equal. f_equal. rewrite length_cons. lia.
Qed.
(** A phase of the rebuild. *)
Lemma replay_cf_marks A `{!Indexed A} d0 d :
  indexed_ok A d0 -> (forall k, get_cf d (ix_cf A) k = get_cf d0 (ix_cf A) k) ->
  exists d', replay_cf (ix_cf A) (ix_step A) d =
      (Ok (cf_name (ix_cf A), Z.of_nat (length (iterator_cf d0 (ix_cf A) Start))), d') /\
    marked (family_keys A d0) d d'.
Proof.
  intros Hok Hd. unfold replay_cf, mbind, ST_bind, st_get.
  destruct (replay_marks A d0 (collect_keys d (ix_cf A)) Hok) with (d := d) (n := 0%Z) as (d' & E & Hm).
  { intros k. rewrite elem_of_collect. by rewrite Hd. }
  { done. }
  exists d'. split.
  - rewrite E. do 3 f_equal. unfold collect_keys. rewrite length_fmap. by rewrite (iterator_ext d d0).
  - intros c k. rewrite Hm. apply decide_ext. rewrite elem_of_family_keys, list_elem_of_bind. unfold called_for.
    setoid_rewrite elem_of_keys_at. setoid_rewrite elem_of_collect. setoid_rewrite Hd. naive_solver.
Qed.
End phases.

(** ** The eight primary families *)
Section instances.
Context `{Bs58, Base64, HexCrate, ProstStorage, RocksDB}.
Implicit Types (d : DB) (k raw : bytes) (ck : Cf * bytes).

(** Writing a stored row back with its index rows puts just these. *)
Lemma rewrite_marks d c k raw keys :
  get_cf d c k = Some raw -> c ∉ index_families -> (forall ck, ck ∈ keys -> ck.1 ∈ index_families) ->
  marked keys d (db_write d (Put c k raw :: (put_empty <$> keys))).
Proof.
  intros Hg Hc Hk cf key. rewrite get_cf_write, batch_lookup_cons, batch_lookup_puts. case_decide as Hin; [done|].
  cbn. case_decide as E; [|done]. by destruct E as [-> ->].
Qed.
Lemma puts_mark d keys : marked keys d (db_write d (put_empty <$> keys)).
Proof. intros cf key. by rewrite get_cf_write, batch_lookup_puts. Qed.
Lemma decoded_step {A B} (r : result CodecError A) (a : A) (f : A -> ST DB B) d :
  r = Ok a -> (st_lift (lift_codec r) ≫= f) d = f a d.
Proof. by intros ->. Qed.
Lemma updated (f : DB -> result Error DB) d d' : f d = Ok d' -> st_update f d = (Ok tt, d').
Proof. unfold st_update. by intros ->. Qed.

Definition block_keys (b : StoredBlock) : list (Cf * bytes) :=
  [(IDX_BLOCK_BY_CREATOR, idx_block_by_creator (addr_as_bytes (bl_creator b)) (slot_period (bl_slot b))
      (slot_thread (bl_slot b)) (id_as_bytes (bl_id b)));
   (CF_SLOT_CANDIDATE_BLOCK, block_cand_key b)].
Definition endorsement_keys (k : bytes) (e : StoredEndorsement) : list (Cf * bytes) :=
  [(IDX_ENDORSEMENT_BY_CREATOR, idx_endorsement_by_creator (addr_as_bytes (en_content_creator_address e))
      (slot_period (en_slot e)) (slot_thread (en_slot e)) k)].
Definition op_keys (o : StoredOperation) : list (Cf * bytes) :=
  match op_inclusions o with
  | [] => []
  | i :: _ =>
      let key who := idx_op_by_creator (addr_as_bytes who) (slot_period (inc_slot i)) (slot_thread (inc_slot i)) (id_as_bytes (op_id o)) in
      (IDX_OP_BY_CREATOR, key (op_creator o)) ::
      match op_target o with Some t => [(IDX_OP_BY_TARGET, key t)] | None => [] end
  end.
Lemma op_puts_alt o : op_index_puts o = put_empty <$> op_keys o.
Proof. unfold op_index_puts, op_keys. by destruct (op_inclusions o), (op_target o). Qed.
Lemma op_keys_in o ck : ck ∈ op_keys o -> ck.1 ∈ index_families.
Proof.
  unfold op_keys, index_families. destruct (op_inclusions o); [set_solver|]. destruct (op_target o); set_solver.
Qed.

(** The row a creator index names. *)
Lemma addr_slot_id_target c primary reason (a : Address) (s : Slot) id :
  Address_enc a -> Slot_ok s -> length id = ID_KEY_LEN ->
  (forall k, index_target c k = named reason primary (snd : Z * Z * bytes -> bytes) (parse_idx_addr_slot_id k)) ->
  index_target c (idx_addr_slot_id (addr_as_bytes a) (slot_period s) (slot_thread s) id) = Some (inr (primary, id)).
Proof. intros [Ha _] [Hp Ht] Hid ->. by rewrite parse_idx_addr_slot_id_build. Qed.

#[local] Obligation Tactic := idtac.
#[export] Program Instance block_indexed : Indexed StoredBlock := {|
  ix_cf := CF_BLOCK; ix_step := replay_block; ix_decode := decode_block;
  ix_wf k raw b := encode_block b = Ok raw /\ k = id_as_bytes (bl_id b) /\ Id_wf (bl_id b) /\
    Slot_ok (bl_slot b) /\ Address_enc (bl_creator b);
  ix_keys _ := block_keys;
|}.
Next Obligation. split; [by_decision|done]. Qed.
Next Obligation. intros k b ck. cbv beta. unfold block_keys, index_families. set_solver. Qed.
Next Obligation.
  intros d k raw b Hg Ed (Ee & -> & _). eexists. split.
  - unfold replay_block. rewrite (decoded_step _ _ _ _ Ed). unfold st_update, write_block. rewrite Ee. reflexivity.
  - apply (rewrite_marks d CF_BLOCK _ raw (block_keys b) Hg); [by_decision|].
    unfold block_keys, index_families. set_solver.
Qed.
Next Obligation.
  intros k raw b ck (_ & -> & [Hid Hid2] & Hs & Ha) Hin Hc. right. cbv beta in *. unfold block_keys in Hin.
  rewrite elem_of_cons, list_elem_of_singleton in Hin. destruct Hin as [-> | ->]; cbn [fst snd] in *.
  - by eapply addr_slot_id_target.
  - exfalso. revert Hc. by_decision.
Qed.

#[export] Program Instance endorsement_indexed : Indexed StoredEndorsement := {|
  ix_cf := CF_ENDORSEMENT; ix_step := replay_endorsement; ix_decode := decode_endorsement;
  ix_wf k raw e := (exists id, EndorsementId_parse (en_id e) = Ok id /\ k = id_as_bytes id) /\
    Slot_ok (en_slot e) /\ Address_enc (en_content_creator_address e);
  ix_keys := endorsement_keys;
|}.
Next Obligation. split; [by_decision|done]. Qed.
Next Obligation. intros k e ck. cbv beta. unfold endorsement_keys, index_families. set_solver. Qed.
Next Obligation.
  intros d k raw e Hg Ed ((id & Ei & ->) & _). eexists. split.
  - unfold replay_endorsement. rewrite (decoded_step _ _ _ _ Ed), Ei. reflexivity.
  - apply (puts_mark d (endorsement_keys _ e)).
Qed.
Next Obligation.
  intros k raw e ck ((id & Ei & ->) & Hs & Ha) Hin _. right. cbv beta in *. unfold endorsement_keys in Hin.
  apply list_elem_of_singleton in Hin as ->. cbn [fst snd]. eapply addr_slot_id_target; [done..|by eapply id_key_length|done].
Qed.

#[export] Program Instance op_indexed : Indexed StoredOperation := {|
  ix_cf := CF_OP; ix_step := replay_op; ix_decode := decode_operation;
  ix_wf k raw o := encode_operation o = Ok raw /\ k = id_as_bytes (op_id o) /\ Id_wf (op_id o) /\
    Forall (fun i => Slot_ok (inc_slot i)) (op_inclusions o) /\ Address_enc (op_creator o) /\ opt_wf Address_enc (op_target o);
  ix_keys _ := op_keys;
|}.
Next Obligation. split; [by_decision|done]. Qed.
Next Obligation. intros k. exact op_keys_in. Qed.
Next Obligation.
  intros d k raw o Hg Ed (Ee & -> & _). eexists. split.
  - unfold replay_op. rewrite (decoded_step _ _ _ _ Ed). unfold st_update, write_op. rewrite Ee. reflexivity.
  - rewrite op_puts_alt. apply (rewrite_marks d CF_OP _ raw (op_keys o) Hg); [by_decision|].
    apply op_keys_in.
Qed.
Next Obligation.
  intros k raw o ck (_ & -> & [Hid Hid2] & Hs & Ha & Ht) Hin _. right. cbv beta in *. unfold op_keys in Hin.
  destruct (op_inclusions o) as [|i l]; [set_solver|]. apply Forall_cons in Hs as [Hs _].
  rewrite elem_of_cons in Hin. destruct Hin as [->|Hin]; cbn [fst snd]; [by eapply addr_slot_id_target|].
  destruct (op_target o) as [t|]; [|set_solver]. apply list_elem_of_singleton in Hin as ->. by eapply addr_slot_id_target.
Qed.

(** Rows numbered inside a slot. *)
Lemma slot_row_step {R} `{!SlotRow R} d k raw (r : R) :
  sr_primary (R := R) ∉ index_families -> (forall c, c ∈ sr_indexes (R := R) -> c ∈ index_families) ->
  get_cf d sr_primary k = Some raw -> sr_encode r = Ok raw -> k = sr_key r ->
  exists d', slot_write d r = Ok d' /\ marked (sr_keys r) d d'.
Proof.
  intros Hp Hi Hg Ee ->. eexists. split; [unfold slot_write; by rewrite Ee|].
  apply rewrite_marks; [done..|]. intros ck Hin. by apply Hi, (sr_keys_in r).
Qed.

#[export] Program Instance event_indexed : Indexed StoredScEvent := {|
  ix_cf := CF_SC_EVENT; ix_step := replay_event; ix_decode := decode_sc_event;
  ix_wf k raw e := encode_sc_event e = Ok raw /\ k = event_key e /\ event_row_wf e;
  ix_keys _ := event_index_keys;
|}.
Next Obligation. split; [by_decision|done]. Qed.
Next Obligation.
  intros k e ck Hin. change (ck ∈ sr_keys e) in Hin. apply sr_keys_in in Hin. revert Hin. cbn. unfold index_families. set_solver.
Qed.
Next Obligation.
  intros d k raw e Hg Ed (Ee & Hk & _).
  destruct (slot_row_step d k raw e) as (d' & E & Hm); [by_decision|cbn; unfold index_families; set_solver|done..|].
  exists d'. split; [|exact Hm]. unfold replay_event. rewrite (decoded_step _ _ _ _ Ed). exact (updated _ _ _ E).
Qed.
Next Obligation.
  intros k raw e ck (_ & -> & Hw) Hin _. right. change (ck ∈ sr_keys e) in Hin.
  pose proof (sr_keys_parse e ck Hw Hin) as Hp. apply sr_keys_in in Hin.
  destruct ck as [c key]. cbn in Hp, Hin |- *. rewrite !elem_of_cons in Hin.
  destruct Hin as [->|[->|[->|[]%elem_of_nil]]]; unfold index_target, named; by rewrite Hp.
Qed.

#[export] Program Instance transfer_indexed : Indexed StoredTransfer := {|
  ix_cf := CF_TRANSFER; ix_step := replay_transfer; ix_decode := decode_transfer;
  ix_wf k raw t := encode_transfer t = raw /\ k = transfer_row_key t /\ transfer_row_wf t;
  ix_keys _ := transfer_index_keys;
|}.
Next Obligation. split; [by_decision|done]. Qed.
Next Obligation.
  intros k t ck Hin. change (ck ∈ sr_keys t) in Hin. apply sr_keys_in in Hin. revert Hin. cbn. unfold index_families. set_solver.
Qed.
Next Obligation.
  intros d k raw t Hg Ed (Ee & Hk & _).
  destruct (slot_row_step d k raw t) as (d' & E & Hm); [by_decision|cbn; unfold index_families; set_solver|done|by f_equal/=|done|].
  exists d'. split; [|exact Hm]. unfold replay_transfer. rewrite (decoded_step _ _ _ _ Ed). exact (updated _ _ _ E).
Qed.
Next Obligation.
  intros k raw t ck (_ & -> & Hw) Hin _. right. change (ck ∈ sr_keys t) in Hin.
  pose proof (sr_keys_parse t ck Hw Hin) as Hp. apply sr_keys_in in Hin.
  destruct ck as [c key]. cbn in Hp, Hin |- *. unfold transfer_parse in Hp. rewrite !elem_of_cons in Hin.
  destruct Hin as [->|[->|[->|[]%elem_of_nil]]]; unfold index_target, named; [|by rewrite Hp..].
  destruct (parse_idx_transfer_by_addr key) as [[[[? ?] ?] ?]|]; [|done]. by injection Hp as -> -> ->.
Qed.

#[export] Program Instance denunciation_indexed : Indexed StoredDenunciationEntry := {|
  ix_cf := CF_DENUNCIATION; ix_step := replay_denunciation; ix_decode := decode_denunciation_entry;
  ix_wf k raw x := length k = DENUNCIATION_HASH_LEN /\ Slot_ok (de_slot x) /\ opt_wf Address_enc (de_denounced_addr x);
  ix_keys k x := denunciation_index_keys x k;
|}.
Next Obligation. split; [by_decision|done]. Qed.
Next Obligation.
  intros k x ck. cbv beta. unfold denunciation_index_keys, index_families. destruct (de_denounced_addr x); set_solver.
Qed.
Next Obligation.
  intros d k raw x Hg Ed _. eexists. split.
  - unfold replay_denunciation. rewrite (decoded_step _ _ _ _ Ed). reflexivity.
  - apply puts_mark.
Qed.
Next Obligation.
  intros k raw x ck (Hk & [Hp Ht] & Ha) Hin _. right. cbv beta in *. unfold denunciation_index_keys in Hin.
  apply elem_of_app in Hin as [Hin|Hin].
  - destruct (de_denounced_addr x) as [a|]; [|set_solver]. apply list_elem_of_singleton in Hin as ->. destruct Ha as [Ha _].
    cbn [fst snd]. unfold index_target. by rewrite (parse_idx_denunciation_by_addr_build _ _ Hp Ht).
  - apply list_elem_of_singleton in Hin as ->. cbn [fst snd].
    unfold index_target. by rewrite (parse_idx_denunciation_recent_build _ _ Hp Ht).
Qed.

(** Rows upserted by id. *)
Lemma upsert_step {R} `{!UpsertRow R} d raw (r : R) :
  ur_primary (R := R) ∉ index_families -> (forall c, c ∈ ur_indexes (R := R) -> c ∈ index_families) ->
  (forall r : R, ur_set_first_seen (ur_first_seen r) r = r) ->
  get_cf d ur_primary (as_bytes (ur_id r)) = Some raw -> ur_decode raw = Ok r -> ur_encode r = raw -> ur_wf r ->
  exists d', upsert d r = Ok d' /\ marked (ur_keys r) d d'.
Proof.
  intros Hp Hi Hset Hg Ed Ee Hw. unfold upsert. rewrite Hg. unfold read_prev, mbind, result_bind.
  rewrite Ed. cbn. rewrite Hset. assert ((if ur_first_seen r =? 0 then r else r)%Z = r) as -> by by destruct Z.eqb.
  eexists. split; [done|]. rewrite Ee. intros c key.
  rewrite get_cf_write, batch_lookup_cons, batch_lookup_app, batch_lookup_deletes, batch_lookup_puts.
  rewrite (decide_False (P := _ ∈ ur_stale r r)) by (rewrite ur_stale_spec by done; tauto).
  case_decide as Hin; [done|]. cbn. case_decide as E; [|done]. by destruct E as [-> ->].
Qed.
Lemma sender_target c primary (a : Address) id :
  Address_enc a -> (forall k, index_target c k = named "key missing 0x00 separator" primary snd (split_addr_id_key k)) ->
  index_target c (idx_async_sender_key (addr_as_bytes a) id) = Some (inr (primary, as_bytes id)).
Proof.
  intros [Ha _] ->. unfold split_addr_id_key, idx_async_sender_key, addr_as_bytes.
  rewrite !length_app, Ha. cbn [length].
  destruct (Nat.ltb_spec (ADDR_KEY_LEN + (1 + length (as_bytes id))) (ADDR_KEY_LEN + 1)); [lia|].
  rewrite app_nth2, Ha, Nat.sub_diag by lia. cbn [nth app]. rewrite bool_decide_eq_true_2 by done. cbn [negb named].
  by rewrite drop_app_ge, Ha, Nat.add_comm, Nat.add_sub by (rewrite Ha; lia).
Qed.
Lemma three_keys_target c1 c2 c3 primary a b s id ck :
  opt_wf Address_enc a -> opt_wf Address_enc b ->
  (forall c k, c = c1 \/ c = c2 -> index_target c k = named "key missing 0x00 separator" primary snd (split_addr_id_key k)) ->
  (forall k, index_target c3 k = None) -> ck ∈ three_keys c1 c2 c3 a b s id ->
  index_target ck.1 ck.2 = None \/ index_target ck.1 ck.2 = Some (inr (primary, as_bytes id)).
Proof.
  intros Ha Hb Ht Hn. unfold three_keys. rewrite !elem_of_app, !elem_of_field_keys.
  intros [(x & -> & ->)|[(x & -> & ->)|(x & -> & ->)]]; cbn [fst snd].
  - right. apply sender_target; [done|auto].
  - right. apply sender_target; [done|auto].
  - by left.
Qed.

#[export] Program Instance async_indexed : Indexed StoredAsyncMsg := {|
  ix_cf := CF_ASYNC_MSG; ix_step := replay_async; ix_decode := decode_async_msg;
  ix_wf k raw m := encode_async_msg m = raw /\ k = as_bytes (am_id m) /\ StoredAsyncMsg_wf m;
  ix_keys _ m := async_index_keys m (am_id m);
|}.
Next Obligation. split; [by_decision|done]. Qed.
Next Obligation.
  intros k m ck Hin. change (ck ∈ ur_keys m) in Hin. apply ur_keys_in in Hin. revert Hin. cbn. unfold index_families. set_solver.
Qed.
Next Obligation.
  intros d k raw m Hg Ed (Ee & -> & Hw).
  destruct (upsert_step d raw m) as (d' & E & Hm); [by_decision|cbn; unfold index_families; set_solver|by intros []|done..|].
  exists d'. split; [|exact Hm]. unfold replay_async. rewrite (decoded_step _ _ _ _ Ed). exact (updated _ _ _ E).
Qed.
Next Obligation.
  intros k raw m ck (_ & -> & Ha & Hb & _) Hin _. cbv beta in *. rewrite async_keys_alt in Hin.
  apply (three_keys_target _ _ _ CF_ASYNC_MSG _ _ _ _ ck Ha Hb) in Hin; [exact Hin|by intros c key [-> | ->]|done].
Qed.

#[export] Program Instance deferred_indexed : Indexed StoredDeferredCall := {|
  ix_cf := CF_DEFERRED_CALL; ix_step := replay_deferred; ix_decode := decode_deferred_call;
  ix_wf k raw c := encode_deferred_call c = raw /\ k = as_bytes (dc_id c) /\ StoredDeferredCall_wf c;
  ix_keys _ c := deferred_index_keys c (dc_id c);
|}.
Next Obligation. split; [by_decision|done]. Qed.
Next Obligation.
  intros k c ck Hin. change (ck ∈ ur_keys c) in Hin. apply ur_keys_in in Hin. revert Hin. cbn. unfold index_families. set_solver.
Qed.
Next Obligation.
  intros d k raw c Hg Ed (Ee & -> & Hw).
  destruct (upsert_step d raw c) as (d' & E & Hm); [by_decision|cbn; unfold index_families; set_solver|by intros []|done..|].
  exists d'. split; [|exact Hm]. unfold replay_deferred. rewrite (decoded_step _ _ _ _ Ed). exact (updated _ _ _ E).
Qed.
Next Obligation.
  intros k raw c ck (_ & -> & Ha & Hb & _) Hin _. cbv beta in *. rewrite deferred_keys_alt in Hin.
  apply (three_keys_target _ _ _ CF_DEFERRED_CALL _ _ _ _ ck Ha Hb) in Hin; [exact Hin|by intros c' key [-> | ->]|done].
Qed.
End instances.

Section rebuild.
Context `{Bs58, Base64, HexCrate, ProstStorage, RocksDB}.
Implicit Types (d : DB) (c : Cf) (k : bytes) (ck : Cf * bytes).

(** Every stored row decodes, and is what the code writes under its key. *)
Definition primaries_ok d : Prop :=
  (indexed_ok StoredBlock d /\ indexed_ok StoredEndorsement d /\ indexed_ok StoredOperation d /\ indexed_ok StoredTransfer d) /\
  indexed_ok StoredScEvent d /\ indexed_ok StoredDenunciationEntry d /\ indexed_ok StoredAsyncMsg d /\ indexed_ok StoredDeferredCall d.
(** Some stored row calls for this index row. *)
Definition wanted d ck : Prop :=
  called_for StoredBlock d ck \/ called_for StoredEndorsement d ck \/ called_for StoredOperation d ck \/
  called_for StoredTransfer d ck \/ called_for StoredScEvent d ck \/ called_for StoredDenunciationEntry d ck \/
  called_for StoredAsyncMsg d ck \/ called_for StoredDeferredCall d ck.
(** The families the rebuild reads, in its order. *)
Definition replayed_cfs : list Cf :=
  [CF_BLOCK; CF_ENDORSEMENT; CF_OP; CF_TRANSFER; CF_SC_EVENT; CF_DENUNCIATION; CF_ASYNC_MSG; CF_DEFERRED_CALL].
Definition row_count d c : string * Z := (cf_name c, Z.of_nat (length (iterator_cf d c Start))).

Lemma clear_all_spec cs d : NoDup cs -> exists d', clear_all cs d = (Ok (row_count d <$> cs), d') /\
  forall c k, get_cf d' c k = if decide (c ∈ cs) then None else get_cf d c k.
Proof.
  intros Hn. induction Hn as [|c cs Hc Hn IH] in d |- *.
  { exists d. split; [done|]. intros c k. by rewrite decide_False by set_solver. }
  destruct (raw_clear_empties d c) as (d1 & E1 & Hempty & Hframe). destruct (IH d1) as (d' & E & Hd').
  exists d'. split.
  - cbn [clear_all]. unfold mbind, ST_bind, st_get, st_put, mret, ST_ret. rewrite E1, E. cbn. do 3 f_equal.
    apply list_fmap_ext. intros i c' Hi%list_elem_of_lookup_2. unfold row_count.
    rewrite (iterator_ext d1 d); [done|]. intros k. apply Hframe. by intros ->.
  - intros c' k. rewrite Hd'. rewrite (decide_ext (c' ∈ c :: cs) (c' = c \/ c' ∈ cs)) by apply elem_of_cons.
    destruct (decide (c' = c)) as [->|Hne]; [|rewrite Hframe by done; repeat case_decide; naive_solver].
    rewrite Hempty. repeat case_decide; naive_solver.
Qed.

(** Between two phases: the index rows [l] have been put on the cleared store. *)
Definition rebuilding d0 (l : list (Cf * bytes)) d : Prop :=
  (forall ck, ck ∈ l -> ck.1 ∈ index_families) /\
  forall c k, get_cf d c k =
    if decide ((c, k) ∈ l) then Some [] else if decide (c ∈ SECONDARY_INDEX_CFS) then None else get_cf d0 c k.
Lemma rebuilding_primary d0 l d c k : rebuilding d0 l d -> c ∉ index_families -> get_cf d c k = get_cf d0 c k.
Proof.
  intros [Hl Hd] Hc. rewrite Hd, decide_False by (by intros Hin%Hl). rewrite decide_False; [done|].
  intros Hin. apply Hc. by right.
Qed.
Lemma phase_runs A `{!Indexed A} d0 l d : indexed_ok A d0 -> rebuilding d0 l d ->
  exists d', replay_cf (ix_cf A) (ix_step A) d = (Ok (row_count d0 (ix_cf A)), d') /\
    rebuilding d0 (l ++ family_keys A d0) d'.
Proof.
  intros Hok Hd. destruct (replay_cf_marks A d0 d Hok) as (d' & E & Hm).
  { intros k. apply (rebuilding_primary d0 l); [done|]. apply ix_cf_primary. }
  exists d'. split; [exact E|]. destruct Hd as [Hl Hd]. split.
  - intros ck. rewrite elem_of_app. intros [?|(k & Hin & _)%list_elem_of_bind]; [auto|]. by eapply keys_at_in.
  - intros c k. rewrite Hm, Hd. rewrite (decide_ext ((c, k) ∈ l ++ family_keys A d0) ((c, k) ∈ family_keys A d0 \/ (c, k) ∈ l))
      by (rewrite elem_of_app; tauto). repeat case_decide; naive_solver.
Qed.
Lemma then_runs {A B} (m : ST DB A) (f : A -> ST DB B) d a d1 : m d = (Ok a, d1) -> (m ≫= f) d = f a d1.
Proof. unfold mbind, ST_bind. by intros ->. Qed.

Definition wanted_keys d : list (Cf * bytes) :=
  family_keys StoredBlock d ++ family_keys StoredEndorsement d ++ family_keys StoredOperation d ++
  family_keys StoredTransfer d ++ family_keys StoredScEvent d ++ family_keys StoredDenunciationEntry d ++
  family_keys StoredAsyncMsg d ++ family_keys StoredDeferredCall d.
Lemma elem_of_wanted_keys d ck : ck ∈ wanted_keys d <-> wanted d ck.
Proof. unfold wanted_keys, wanted. by rewrite !elem_of_app, !elem_of_family_keys. Qed.
Lemma rebuild_runs d : primaries_ok d ->
  exists d', reindex_secondaries d =
      (Ok (mkReport (row_count d <$> SECONDARY_INDEX_CFS) (row_count d <$> replayed_cfs)), d') /\
    rebuilding d (wanted_keys d) d'.
Proof.
  intros ((Hb & He & Ho & Ht) & Hv & Hn & Ha & Hc).
  destruct (clear_all_spec SECONDARY_INDEX_CFS d) as (d0 & E0 & Hd0); [by_decision|].
  assert (rebuilding d [] d0) as R0.
  { split; [by intros ck ?%elem_of_nil|]. intros c k. rewrite (decide_False (P := _ ∈ [])) by apply not_elem_of_nil. apply Hd0. }
  destruct (phase_runs StoredBlock d _ d0 Hb R0) as (d1 & E1 & R1).
  destruct (phase_runs StoredEndorsement d _ d1 He R1) as (d2 & E2 & R2).
  destruct (phase_runs StoredOperation d _ d2 Ho R2) as (d3 & E3 & R3).
  destruct (phase_runs StoredTransfer d _ d3 Ht R3) as (d4 & E4 & R4).
  destruct (phase_runs StoredScEvent d _ d4 Hv R4) as (d5 & E5 & R5).
  destruct (phase_runs StoredDenunciationEntry d _ d5 Hn R5) as (d6 & E6 & R6).
  destruct (phase_runs StoredAsyncMsg d _ d6 Ha R6) as (d7 & E7 & R7).
  destruct (phase_runs StoredDeferredCall d _ d7 Hc R7) as (d8 & E8 & R8).
  exists d8. split; [|unfold wanted_keys; by rewrite !app_assoc].
  unfold reindex_secondaries, rebuild_secondary_indexes.
  by rewrite (then_runs _ _ _ _ _ E0), (then_runs _ _ _ _ _ E1), (then_runs _ _ _ _ _ E2), (then_runs _ _ _ _ _ E3),
    (then_runs _ _ _ _ _ E4), (then_runs _ _ _ _ _ E5), (then_runs _ _ _ _ _ E6), (then_runs _ _ _ _ _ E7),
    (then_runs _ _ _ _ _ E8).
Qed.

(** An index row that is called for leads to the row that calls for it. *)
Definition same_primaries d d' : Prop := forall c k, c ∉ index_families -> get_cf d' c k = get_cf d c k.
Lemma called_reason A `{!Indexed A} d d' c k :
  indexed_ok A d -> same_primaries d d' -> c ∈ SECONDARY_INDEX_CFS -> called_for A d (c, k) -> row_reason d' c k = None.
Proof.
  intros Hok Hd Hc (k0 & raw & a & Hg & Ha & Hin). destruct (Hok k0 raw Hg) as (a' & Ha' & Hw).
  replace a' with a in Hw by congruence. unfold row_reason. destruct (ix_target k0 raw a (c, k) Hw Hin Hc) as [E|E];
    cbn [fst snd] in E; rewrite E; [done|].
  rewrite (Hd _ _ (proj1 ix_cf_primary)), Hg. done.
Qed.
Lemma wanted_reason d d' c k : primaries_ok d -> same_primaries d d' -> c ∈ SECONDARY_INDEX_CFS ->
  wanted d (c, k) -> row_reason d' c k = None.
Proof.
  intros ((? & ? & ? & ?) & ? & ? & ? & ?) Hd Hc. unfold wanted.
  intros [Hw|[Hw|[Hw|[Hw|[Hw|[Hw|[Hw|Hw]]]]]]]; by eapply called_reason in Hw.
Qed.

(** A rebuilt store passes the verification. *)
Lemma rebuilt_verifies d d' max_issues meta :
  primaries_ok d -> rebuilding d (wanted_keys d) d' -> read_meta d = Ok (Some meta) ->
  exists r, verify d' max_issues = Ok r /\ VerifyReport_ok r = true /\ vr_issues r = [].
Proof.
  intros Hok Hreb Hm. pose proof (rebuilding_primary d (wanted_keys d) d') as Hprim. destruct Hreb as [Hl Hd'].
  destruct (verify_reports d' max_issues (Some meta)) as (r & Hr & _ & Ht & Hi).
  { rewrite <-Hm. unfold read_meta, Db.read_row. rewrite Hprim; [done|by split|by_decision]. }
  exists r. split; [exact Hr|]. unfold VerifyReport_ok. rewrite Ht, Hi.
  rewrite (proj2 (all_issues_nil d' (Some meta))); [by destruct max_issues|].
  split; [done|]. intros c k v Hc Hg. apply (wanted_reason d d' c k Hok (fun c k => Hprim c k (conj Hl Hd')) Hc).
  apply elem_of_wanted_keys. revert Hg. rewrite Hd'. rewrite (decide_True (P := c ∈ _)) by done. by case_decide.
Qed.

(** C18. Re-indexing a store whose rows all decode and stand where the code puts them
    succeeds. Afterwards every secondary index family holds a row for a key exactly
    when a stored row calls for it; the listing of blocks by slot has gained the
    stored blocks at most; every other family is untouched. The report counts the
    index rows dropped and the stored rows replayed, family by family, and a
    verification of the new store, once it has a meta row, passes. *)
Theorem reindex_rebuilds d :
  primaries_ok d ->
  exists d', reindex_secondaries d =
      (Ok (mkReport (row_count d <$> SECONDARY_INDEX_CFS) (row_count d <$> replayed_cfs)), d') /\
    (forall c k, c ∈ SECONDARY_INDEX_CFS -> is_Some (get_cf d' c k) <-> wanted d (c, k)) /\
    (forall k, is_Some (get_cf d' CF_SLOT_CANDIDATE_BLOCK k) <->
       wanted d (CF_SLOT_CANDIDATE_BLOCK, k) \/ is_Some (get_cf d CF_SLOT_CANDIDATE_BLOCK k)) /\
    (forall c k, c ∉ SECONDARY_INDEX_CFS -> c <> CF_SLOT_CANDIDATE_BLOCK -> get_cf d' c k = get_cf d c k) /\
    (forall max_issues meta, read_meta d = Ok (Some meta) ->
       exists r, verify d' max_issues = Ok r /\ VerifyReport_ok r = true /\ vr_issues r = []).
Proof.
  intros Hok. destruct (rebuild_runs d Hok) as (d' & E & Hl & Hd').
  exists d'. split; [exact E|]. setoid_rewrite <-elem_of_wanted_keys. split_and!.
  - intros c k Hc. rewrite Hd'. rewrite (decide_True (P := c ∈ _)) by done.
    case_decide; [by split|]. split; [by intros []|done].
  - intros k. rewrite Hd'. rewrite (decide_False (P := _ ∈ SECONDARY_INDEX_CFS)) by by_decision.
    case_decide; naive_solver.
  - intros c k Hc Hs. apply (rebuilding_primary d (wanted_keys d) d' c k); [by split|].
    unfold index_families. rewrite elem_of_cons. tauto.
  - intros max_issues meta Hm. by apply (rebuilt_verifies d d' _ meta).
Qed.
End rebuild.

(** ** The commands of the process *)
Section commands.
Context `{Bs58, Base64, HexCrate, ProstStorage, RocksDB, DenunciationDigest, NodeEncode, Network, NodeRpc}.
Context (host : Host) (path : string).
Implicit Types (s : Process) (d : DB).

(** The commands that are not meant to write. *)
Definition read_only (cmd : Cmd) : bool :=
  match cmd with CmdServe | CmdReplay _ _ _ _ _ _ _ | CmdReindexSecondaries true => false | _ => true end.
(** The store is as it was, or newly stamped with the schema version. *)
Definition stamped d d' : Prop := d' = d \/ ensure_schema_version d = Ok d'.
Lemma ensure_again d d' : ensure_schema_version d = Ok d' -> ensure_schema_version d' = Ok d'.
Proof.
  unfold ensure_schema_version at 1. destruct (get_cf d CF_META _) as [raw|] eqn:E.
  - intros Hd. apply result_bind_ok in Hd as (v & Hv & Hd). case_match eqn:Ev; [|done]. injection Hd as <-.
    unfold ensure_schema_version. rewrite E. cbn [mbind result_bind]. rewrite Hv. cbn. by rewrite Ev.
  - intros [= <-]. pose proof (get_cf_put_same d CF_META (as_bytes meta_SCHEMA_VERSION)
      (as_bytes (u32_to_string SCHEMA_VERSION)) []) as G. cbn [app] in G.
    unfold ensure_schema_version. rewrite G. by vm_compute.
Qed.
(** An opened store stays open to the next process while its version row is kept. *)
Lemma ensure_same d d' : ensure_schema_version d = Ok d ->
  get_cf d' CF_META (as_bytes meta_SCHEMA_VERSION) = get_cf d CF_META (as_bytes meta_SCHEMA_VERSION) ->
  ensure_schema_version d' = Ok d'.
Proof.
  unfold ensure_schema_version. intros Hd ->. destruct (get_cf d CF_META _) as [raw|] eqn:E.
  - apply result_bind_ok in Hd as (v & -> & Hd). cbn. by case_match.
  - pose proof (get_cf_put_same d CF_META (as_bytes meta_SCHEMA_VERSION)
      (as_bytes (u32_to_string SCHEMA_VERSION)) []) as G. cbn [app] in G. injection Hd as Hd. rewrite Hd in G. congruence.
Qed.
Lemma stamped_trans d1 d2 d3 : stamped d1 d2 -> stamped d2 d3 -> stamped d1 d3.
Proof.
  intros [->|E1] [->|E2]; [by left|by right|by right|]. right. rewrite (ensure_again _ _ E1) in E2. congruence.
Qed.
Definition only_opens {A} (m : ST Process A) : Prop := forall s, stamped (px_db s) (px_db (m s).2).
Lemma opens_bind {A B} (m : ST Process A) (f : A -> ST Process B) :
  only_opens m -> (forall a, only_opens (f a)) -> only_opens (m ≫= f).
Proof.
  intros Hm Hf s. unfold mbind, ST_bind. pose proof (Hm s) as Hs. destruct (m s) as [[a|e] s1]; [|exact Hs].
  eapply stamped_trans; [exact Hs|apply Hf].
Qed.
Lemma opens_ret {A} (a : A) : only_opens (mret a).
Proof. intros s. by left. Qed.
Lemma opens_lift {A} (r : result Error A) : only_opens (st_lift r).
Proof. intros s. by left. Qed.
Lemma opens_say l : only_opens (say l).
Proof. intros s. by left. Qed.
Lemma opens_iter {A} (f : A -> ST Process unit) l : (forall a, only_opens (f a)) -> only_opens (st_iter f l).
Proof. intros Hf. induction l as [|a l IH]; cbn; [apply opens_ret|by apply opens_bind]. Qed.
Lemma opens_open_db cfg : only_opens (open_db host cfg).
Proof.
  intros s. unfold open_db. destruct (ho_open host _); [by left|].
  destruct (ensure_schema_version (px_db s)) eqn:E; [by right|by left].
Qed.
Ltac opens := repeat lazymatch goal with
  | |- forall _, _ => intros ?
  | |- only_opens (_ ≫= _) => apply opens_bind
  | |- only_opens (mret _) => apply opens_ret
  | |- only_opens (st_lift _) => apply opens_lift
  | |- only_opens (say _) => apply opens_say
  | |- only_opens (open_db _ _) => apply opens_open_db
  | |- only_opens (st_iter _ _) => apply opens_iter
  | _ => case_match
  end.
Lemma opens_rows rows : only_opens (print_rows host rows).
Proof. induction rows as [|row rows IH]; cbn [print_rows]; [apply opens_ret|]. unfold println. opens. exact IH. Qed.
Lemma read_only_opens cmd : read_only cmd = true -> only_opens (dispatch_cmd host (Some cmd) path).
Proof.
  destruct cmd as [| | |url ms|n|cf key prefix after limit|ms| |[]]; try done; intros _; unfold dispatch_cmd, default, from_option, id.
  - unfold show_config, load_config, println. opens.
  - unfold stats, load_config, println. opens.
  - unfold healthcheck, run_healthcheck, eprintln. opens.
  - unfold verify_command, load_config, println. opens.
  - unfold dump_command, load_config, println, eprintln. opens. apply opens_rows.
  - unfold peers_command, no_peers, load_config, println, eprintln. opens.
  - unfold reindex_command, eprintln; cbn [negb]. opens.
Qed.

(** What a command prints, line by line, after what was printed before. *)
Definition printed (ls : list string) : list Line := (fun l => Stdout (l +:+ nl)) <$> ls.
Lemma print_all {A} (f : A -> string) l s :
  st_iter (fun a => println (f a)) l s = (Ok tt, mkProcess (px_db s) (px_lines s ++ printed (f <$> l))).
Proof.
  induction l as [|a l IH] in s |- *; cbn [st_iter].
  { destruct s. cbn. by rewrite app_nil_r. }
  unfold mbind, ST_bind. cbn [println say]. rewrite IH. cbn. by rewrite <-app_assoc.
Qed.
(** The start of every command that works on the store. *)
Definition ready s cfg d : Prop :=
  load (ho_env host) (ho_toml host) (ho_read host path) = Ok cfg /\
  ho_open host (cfg_db cfg) = None /\ ensure_schema_version (px_db s) = Ok d.
Lemma command_starts {A} (f : Config -> DB -> ST Process A) s :
  let m := cfg ← load_config host path; d ← open_db host cfg; f cfg d in
  (exists cfg d, ready s cfg d /\ m s = f cfg d (mkProcess d (px_lines s))) \/
  (forall cfg d, ~ ready s cfg d) /\ exists e, m s = (Err e, s).
Proof.
  unfold ready, load_config, mbind, ST_bind, st_lift. cbn.
  destruct (load _ _ _) as [cfg|e]; [|right; split; [by intros ? ? [? _]|by exists e]].
  unfold open_db. destruct (ho_open host (cfg_db cfg)) as [e|] eqn:Eo.
  { right. split; [|by exists e]. intros cfg' d ([= <-] & Ho & _). congruence. }
  destruct (ensure_schema_version (px_db s)) as [d|e]; [left; by exists cfg, d|].
  right. split; [|by exists e]. intros cfg' d (_ & _ & E). done.
Qed.
Lemma ready_unique s cfg cfg' d d' : ready s cfg d -> ready s cfg' d' -> cfg = cfg' /\ d = d'.
Proof. intros (? & _ & ?) (? & _ & ?). split; congruence. Qed.
(** The outcome of [verify]. *)
Lemma verify_command_runs s cfg d max_issues report :
  ready s cfg d -> verify d max_issues = Ok report ->
  main host (Some (CmdVerify max_issues)) path s =
    ((if VerifyReport_ok report then 0 else 1)%Z, mkProcess d (px_lines s ++ printed (verify_lines report))).
Proof.
  intros Hr Hv. unfold main, dispatch_cmd, default, from_option, id, verify_command.
  destruct (command_starts (fun cfg d => report ← st_lift (verify d max_issues);
      st_iter println (verify_lines report) ;; mret (if VerifyReport_ok report then 0 else 1)%Z) s)
    as [(cfg' & d' & Hr' & E)|[Hn _]]; [|by destruct (Hn cfg d)].
  destruct (ready_unique _ _ _ _ _ Hr Hr') as [-> ->]. cbn zeta in E. rewrite E.
  unfold mbind, ST_bind, st_lift. rewrite Hv, (print_all (fun l => l)), list_fmap_id. reflexivity.
Qed.
(** The index families whose rows the check dereferences: all but the two listings by
    last slot. *)
Definition dereferenced c : Prop :=
  c ∈ SECONDARY_INDEX_CFS /\ c <> IDX_ASYNC_BY_LAST_SLOT /\ c <> IDX_DEFERRED_BY_LAST_SLOT.
Definition leads_to_row d c k : Prop :=
  exists primary pk, index_target c k = Some (inr (primary, pk)) /\ is_Some (get_cf d primary pk).
Lemma target_known c k :
  c ∈ SECONDARY_INDEX_CFS -> c <> IDX_ASYNC_BY_LAST_SLOT -> c <> IDX_DEFERRED_BY_LAST_SLOT -> index_target c k <> None.
Proof.
  intros Hc. apply (bool_decide_eq_true (c ∈ SECONDARY_INDEX_CFS)) in Hc.
  destruct c; try (vm_compute in Hc; done); intros H5 H6; done.
Qed.
Lemma row_reason_none d c k :
  c ∈ SECONDARY_INDEX_CFS -> row_reason d c k = None <-> (dereferenced c -> leads_to_row d c k).
Proof.
  intros Hc. unfold row_reason, dereferenced, leads_to_row.
  destruct (index_target c k) as [[reason|[primary pk]]|] eqn:E.
  - split; [done|]. intros Hl. destruct Hl as (? & ? & ? & _); [|done].
    split; [done|]. split; intros ->; done.
  - unfold is_some. destruct (get_cf d primary pk) as [v|] eqn:Hg.
    + split; [|done]. intros _ _. exists primary, pk. by rewrite Hg.
    + split; [done|]. intros Hl. destruct Hl as (? & ? & [= <- <-] & [v Hv]); [|congruence].
      split; [done|]. split; intros ->; done.
  - split; [|done]. intros _ (_ & Hn1 & Hn2). by destruct (target_known c k Hc Hn1 Hn2).
Qed.
Lemma rows_lead d : (forall c k v, c ∈ SECONDARY_INDEX_CFS -> get_cf d c k = Some v -> row_reason d c k = None) <->
  (forall c k v, dereferenced c -> get_cf d c k = Some v -> leads_to_row d c k).
Proof.
  split.
  - intros Hr c k v Hc Hg. apply row_reason_none; [apply Hc|by apply (Hr c k v (proj1 Hc))|done].
  - intros Hl c k v Hc Hg. apply row_reason_none; [done|]. intros Hd. by eapply Hl.
Qed.
(** No issue is about a listing by last slot. *)
Lemma issue_family d meta i : i ∈ all_issues d meta ->
  i = meta_issue \/ exists c, dereferenced c /\ vi_cf i = cf_name c.
Proof.
  intros [Hm|Hi]%elem_of_app.
  - left. destruct (is_some meta); [by apply not_elem_of_nil in Hm|]. by apply list_elem_of_singleton in Hm.
  - right. apply list_elem_of_bind in Hi as (c & Hi & Hc). unfold family_issues in Hi.
    apply list_elem_of_omap in Hi as ([k v] & _ & Ei). unfold row_issue in Ei. cbn [fst] in Ei.
    destruct (row_reason d c k) as [reason|] eqn:Er; [|done]. injection Ei as <-. exists c. split; [|done].
    split; [done|]. split; intros ->; done.
Qed.
Lemma verify_exits s max_issues :
  (main host (Some (CmdVerify max_issues)) path s).1 = 0%Z <->
  exists cfg d meta, ready s cfg d /\ read_meta d = Ok (Some meta) /\
    forall c k v, dereferenced c -> get_cf d c k = Some v -> leads_to_row d c k.
Proof.
  split.
  - unfold main, dispatch_cmd, default, from_option, id, verify_command.
    destruct (command_starts (fun cfg d => report ← st_lift (verify d max_issues);
        st_iter println (verify_lines report) ;; mret (if VerifyReport_ok report then 0 else 1)%Z) s)
      as [(cfg & d & Hr & E)|[_ [e E]]]; cbn zeta in E; rewrite E; [|done].
    unfold mbind, ST_bind, st_lift. destruct (read_meta d) as [meta|e] eqn:Em.
    + destruct (verify_reports d max_issues meta Em) as (r & Hv & _ & Ht & _).
      rewrite Hv, (print_all (fun l => l)). cbn. unfold VerifyReport_ok. rewrite Ht. case_match eqn:Ez; [|done]. intros _.
      apply Z.eqb_eq in Ez. destruct (proj1 (all_issues_nil d meta)) as [Hs Hall].
      { apply length_zero_iff_nil. lia. }
      destruct meta as [meta|]; [|done]. exists cfg, d, meta. by rewrite <-rows_lead.
    + unfold verify, mbind, result_bind. by rewrite Em.
  - intros (cfg & d & meta & Hr & Em & Hall). pose proof (proj2 (rows_lead d) Hall) as Hr0.
    destruct (verify_reports d max_issues (Some meta) Em) as (r & Hv & _ & Ht & _).
    rewrite (verify_command_runs s cfg d max_issues r Hr Hv). cbn. unfold VerifyReport_ok.
    by rewrite Ht, (proj2 (all_issues_nil d (Some meta)) (conj eq_refl Hr0)).
Qed.

Lemma reindex_command_runs s cfg d rep d' :
  ready s cfg d -> reindex_secondaries d = (Ok rep, d') ->
  exists lines, main host (Some (CmdReindexSecondaries true)) path s = (0%Z, mkProcess d' lines).
Proof.
  intros Hr Hd. unfold main, dispatch_cmd, default, from_option, id, reindex_command. cbn [negb].
  destruct (command_starts (fun cfg d => report ← on_store reindex_secondaries; println "cleared:" ;;
      st_iter (fun kv => println (count_line "  " kv)) (rr_cleared report) ;; println "replayed:" ;;
      st_iter (fun kv => println (count_line "  " kv)) (rr_replayed report) ;; mret 0%Z) s)
    as [(cfg' & d1 & Hr' & E)|[Hn _]]; [|by destruct (Hn cfg d)].
  destruct (ready_unique _ _ _ _ _ Hr Hr') as [-> ->]. cbn zeta in E. rewrite E.
  unfold mbind, ST_bind. unfold on_store at 1. cbn [px_db]. rewrite Hd. cbn [println say px_db px_lines].
  rewrite print_all. cbn [println say px_db px_lines]. rewrite print_all. by eexists.
Qed.
(** A re-indexed store passes the verification of a later process. *)
Lemma reindex_then_verify s max_issues cfg d meta :
  ready s cfg d -> primaries_ok d -> read_meta d = Ok (Some meta) ->
  exists s', main host (Some (CmdReindexSecondaries true)) path s = (0%Z, s') /\
    (main host (Some (CmdVerify max_issues)) path s').1 = 0%Z /\
    forall c k, c ∉ index_families -> get_cf (px_db s') c k = get_cf d c k.
Proof.
  intros Hr Hok Hm. destruct (rebuild_runs d Hok) as (d' & E & Hreb).
  destruct (reindex_command_runs s cfg d _ d' Hr E) as [lines Es]. eexists. split; [exact Es|]. cbn [px_db].
  pose proof (rebuilding_primary d (wanted_keys d) d') as Hprim. split; [|intros c k Hc; by apply Hprim].
  destruct (rebuilt_verifies d d' max_issues meta Hok Hreb Hm) as (r & Hv & Hvok & _).
  assert (ready (mkProcess d' lines) cfg d') as Hr'.
  { destruct Hr as (Hl & Ho & He). split; [exact Hl|]. split; [exact Ho|]. cbn [px_db].
    apply (ensure_same d d'); [by apply ensure_again in He|]. apply Hprim; [exact Hreb|by_decision]. }
  by rewrite (verify_command_runs _ cfg d' max_issues r Hr' Hv), Hvok.
Qed.

(** Every peer of the pool is probed once. *)
Lemma health_outcome r (c : Client) : exists res, attempt (health r) c = (Ok res, (health r c).2).
Proof. unfold attempt. destruct (health r c) as [res c']. by exists res. Qed.
Lemma probe_all_length cfgs l (c : Client) : exists out c', probe_all cfgs l c = (Ok out, c') /\ length out = length l.
Proof.
  induction l as [|i l IH] in c |- *; cbn [probe_all]; [by eexists _, _|].
  assert (exists p c1, probe_one cfgs i c = (Ok p, c1)) as (p & c1 & E1).
  { unfold probe_one, mbind, ST_bind, get_handle, gets, ask. cbn [cl_peers].
    match goal with |- context [attempt (health ?r) ?c] => destruct (health_outcome r c) as [res E] end.
    rewrite E. by eexists _, _. }
  unfold mbind, ST_bind. rewrite E1. destruct (IH c1) as (out & c2 & E & Hl). rewrite E.
  exists (p :: out), c2. split; [done|]. cbn. by rewrite Hl.
Qed.
Lemma add_peers_length cfgs (c : Client) : length (cl_peers (add_peers cfgs c).2) = length (cl_peers c) + length cfgs.
Proof.
  induction cfgs as [|cfg cfgs IH] in c |- *; [cbn; lia|]. cbn [add_peers].
  unfold mbind, ST_bind, registry_add_url, on_registry, modify, ask, mbind, ST_bind.
  rewrite IH. destruct c. cbn. rewrite length_app. cbn. lia.
Qed.
Lemma peers_probe_each cfgs network :
  exists out c', peers cfgs (PeerPool_with_db cfgs network) = (Ok out, c') /\ length out = length cfgs.
Proof.
  unfold peers, mbind, ST_bind, ask, gets.
  match goal with |- context [probe_all cfgs ?l ?c] => destruct (probe_all_length cfgs l c) as (out & c' & E & Hl) end.
  rewrite E. eexists _, _. split; [reflexivity|]. rewrite (Permutation_length (sort_by_perm _ _)), Hl, (Permutation_length (shuffle_perm _ _)), length_seq.
  exact (add_peers_length cfgs _).
Qed.
Lemma probes_answered probes :
  existsb probe_failed probes = false <-> forall p, p ∈ probes -> exists answer, pb_status p = Ok answer.
Proof.
  rewrite <-not_true_iff_false, existsb_exists. unfold probe_failed. split.
  - intros Hn p Hp. destruct (pb_status p) as [a|e] eqn:E; [by exists a|]. exfalso. apply Hn. exists p.
    split; [by apply list_elem_of_In|]. by rewrite E.
  - intros Hall (p & Hp%list_elem_of_In & Hf). destruct (Hall p Hp) as [a E]. by rewrite E in Hf.
Qed.
Lemma peers_exits s timeout_ms :
  (main host (Some (CmdPeers timeout_ms)) path s).1 = 0%Z <->
  exists cfg d, ready s cfg d /\ static_peers cfg <> [] /\
    exists probes c', peers (static_peers cfg) (PeerPool_with_db (static_peers cfg) (gn_network (cfg_general cfg))) = (Ok probes, c') /\
      length probes = length (static_peers cfg) /\ forall p, p ∈ probes -> exists answer, pb_status p = Ok answer.
Proof.
  unfold main, dispatch_cmd, default, from_option, id, peers_command, load_config, mbind, ST_bind, st_lift, ready.
  destruct (load _ _ _) as [cfg|e]; [|by split; [|intros (? & ? & (? & _) & _)]].
  destruct (peers_probe_each (static_peers cfg) (gn_network (cfg_general cfg))) as (probes & c' & Ep & Hl).
  case_bool_decide as He.
  { split; [done|]. intros (cfg' & d & ([= <-] & _) & Hne & _). done. }
  unfold open_db. destruct (ho_open host (cfg_db cfg)) as [e|] eqn:Eo.
  { split; [done|]. intros (cfg' & d & ([= <-] & Ho & _) & _). congruence. }
  destruct (ensure_schema_version (px_db s)) as [d|e] eqn:Es;
    [|split; [done|]; intros (cfg' & d & (_ & _ & E) & _); congruence].
  rewrite Ep. cbn [fst say]. split.
  - intros Hc. exists cfg, d. split; [done|]. split; [done|]. exists probes, c'. split; [done|]. split; [done|].
    apply probes_answered. cbn in Hc. by destruct (existsb probe_failed probes).
  - intros (cfg' & d' & ([= <-] & _) & _ & probes' & c'' & Ep' & _ & Hall). rewrite Ep in Ep'. injection Ep' as <- <-.
    cbn. by rewrite (proj2 (probes_answered probes) Hall).
Qed.
Lemma healthcheck_exits s url timeout_ms :
  (main host (Some (CmdHealthcheck (Some url) timeout_ms)) path s).1 = 0%Z <->
  exists status shown, ho_get host url timeout_ms = GetAnswered status shown /\ (200 <= status < 300)%Z.
Proof.
  unfold main, dispatch_cmd, default, from_option, id, healthcheck, run_healthcheck, mbind, ST_bind.
  destruct (ho_get host url timeout_ms) as [e|e|status shown|e|];
    try by (split; [done|]; intros (? & ? & ? & _); congruence).
  unfold is_success. destruct (_ && _)%bool eqn:E.
  - apply andb_true_iff in E as [?%Z.leb_le ?%Z.ltb_lt]. split; [|done]. intros _. by exists status, shown.
  - split; [done|]. intros (? & ? & [= <- _] & Hs). apply andb_false_iff in E as [?%Z.leb_gt|?%Z.ltb_ge]; lia.
Qed.

(** C34. What an operator can conclude from a command. A command that is not meant to
    write leaves the store as it was, or only stamped with the schema version on its
    first opening, however it ends. [verify] exits with 0 exactly when the
    configuration loads, the store opens and has a meta row, and every row of the
    index families it dereferences, all but idx_async_by_last_slot and
    idx_deferred_by_last_slot, leads to a stored row; if the meta row reads it prints
    the counts, and as many issues as its cap allows. The rows of the two other
    families are counted among the scanned and never reported, whatever they hold
    (the comment at cli.rs:78 says every index is dereferenced; cli.rs:247 lets them
    pass). [reindex-secondaries --yes] on a store whose rows all decode and stand
    where the code puts them exits with 0, and [verify] after it; it changes no
    family but the indexes; without [--yes] it exits with 1 and touches nothing.
    [peers] exits with 0 exactly when there are configured peers and each, probed
    once, answered; [healthcheck] exactly when an answer with any 2xx status came in
    time (its documentation says 200). *)
Theorem commands_answer s :
  (forall cmd, read_only cmd = true -> stamped (px_db s) (px_db (main host (Some cmd) path s).2)) /\
  (forall max_issues, (main host (Some (CmdVerify max_issues)) path s).1 = 0%Z <->
     exists cfg d meta, ready s cfg d /\ read_meta d = Ok (Some meta) /\
       forall c k v, dereferenced c -> get_cf d c k = Some v -> leads_to_row d c k) /\
  (forall max_issues cfg d meta, ready s cfg d -> read_meta d = Ok meta -> exists report,
     reports max_issues (sum_list_with (fun c => length (iterator_cf d c Start)) SECONDARY_INDEX_CFS) (all_issues d meta) report /\
     (forall i, i ∈ all_issues d meta -> i = meta_issue \/ exists c, dereferenced c /\ vi_cf i = cf_name c) /\
     (main host (Some (CmdVerify max_issues)) path s).2 = mkProcess d (px_lines s ++ printed (verify_lines report))) /\
  (forall max_issues cfg d meta, ready s cfg d -> primaries_ok d -> read_meta d = Ok (Some meta) ->
     exists s', main host (Some (CmdReindexSecondaries true)) path s = (0%Z, s') /\
       (main host (Some (CmdVerify max_issues)) path s').1 = 0%Z /\
       forall c k, c ∉ index_families -> get_cf (px_db s') c k = get_cf d c k) /\
  (main host (Some (CmdReindexSecondaries false)) path s).1 = 1%Z /\
  px_db (main host (Some (CmdReindexSecondaries false)) path s).2 = px_db s /\
  (forall timeout_ms, (main host (Some (CmdPeers timeout_ms)) path s).1 = 0%Z <->
     exists cfg d, ready s cfg d /\ static_peers cfg <> [] /\
       exists probes c', peers (static_peers cfg) (PeerPool_with_db (static_peers cfg) (gn_network (cfg_general cfg))) = (Ok probes, c') /\
         length probes = length (static_peers cfg) /\ forall p, p ∈ probes -> exists answer, pb_status p = Ok answer) /\
  (forall url timeout_ms, (main host (Some (CmdHealthcheck (Some url) timeout_ms)) path s).1 = 0%Z <->
     exists status shown, ho_get host url timeout_ms = GetAnswered status shown /\ (200 <= status < 300)%Z).
Proof.
  split_and!.
  - intros cmd Hc. unfold main. pose proof (read_only_opens cmd Hc s) as Ho.
    by destruct (dispatch_cmd host (Some cmd) path s) as [[code|e] s'].
  - apply verify_exits.
  - intros max_issues cfg d meta Hr Hm. destruct (verify_reports d max_issues meta Hm) as (report & Hv & Hrep).
    exists report. split; [exact Hrep|]. split; [apply issue_family|]. by rewrite (verify_command_runs s cfg d max_issues report Hr Hv).
  - intros max_issues cfg d meta Hr Hok Hm. by apply (reindex_then_verify s max_issues cfg d meta).
  - reflexivity.
  - reflexivity.
  - apply peers_exits.
  - apply healthcheck_exits.
Qed.
End commands.
