(* ===== verification/IndexFamilies.v ===== *)
(** * Exact secondary indexes, family by family

    The invariant of the writer's store: every stored row decodes and stands where
    the code puts it, and the secondary indexes hold exactly the rows the stored rows
    call for ([primaries_ok] and [wanted] of ReindexProps.v). It splits over the eight
    families of rows, so that a writer of db.rs only has to answer for its own. *)

From S2P Require Import Prelude Ids Keys Model Proto Codec CodecLemmas CodecProps Store Text Db DbUpsert.
From S2P Require Import DbSlotRows DbProps NodeMsg World Tables Reconcile Arbiter Patch WorldLogic.
From S2P Require Import SlotReplace Cli CliProps ReindexProps.

(** The families of rows, each with the column families its writers touch. *)
Inductive Family :=
| FBlock | FEndorsement | FOp | FEvent | FTransfer | FDenunciation | FAsync | FDeferred.
#[export] Instance Family_eq_dec : EqDecision Family.
Proof. solve_decision. Defined.
Definition family_cfs (f : Family) : list Cf :=
  match f with
  | FBlock => block_cfs | FEndorsement => endorsement_cfs | FOp => op_cfs | FEvent => event_cfs
  | FTransfer => transfer_cfs | FDenunciation => denunciation_cfs | FAsync => async_cfs
  | FDeferred => deferred_cfs
  end.
Lemma family_cfs_apart f g c : c ∈ family_cfs f -> c ∈ family_cfs g -> f = g.
Proof.
  destruct (decide (f = g)) as [|Hne]; [done|]. intros Hf Hg. exfalso.
  assert (bool_decide (c ∈ family_cfs f) = true /\ bool_decide (c ∈ family_cfs g) = true) as [E1 E2]
    by (by rewrite !bool_decide_eq_true).
  destruct f, g; try done; destruct c; vm_compute in E1, E2; done.
Qed.
Lemma secondary_family c : c ∈ SECONDARY_INDEX_CFS -> exists f, c ∈ family_cfs f.
Proof.
  intros Hc. apply (bool_decide_eq_true (c ∈ SECONDARY_INDEX_CFS)) in Hc.
  destruct c; try (vm_compute in Hc; done);
    first [ by exists FBlock; by_decision | by exists FEndorsement; by_decision | by exists FOp; by_decision
          | by exists FEvent; by_decision | by exists FTransfer; by_decision
          | by exists FDenunciation; by_decision | by exists FAsync; by_decision
          | by exists FDeferred; by_decision ].
Qed.

(** An invariant as a relation a computation moves along. *)
Definition holds `{RocksDB} (I : DB -> Prop) (d d' : DB) : Prop := I d -> I d'.
#[export] Instance holds_preorder `{RocksDB} (I : DB -> Prop) : PreOrder (holds I).
Proof. split; [intros d Hd; exact Hd | intros d1 d2 d3 H12 H23 H1; exact (H23 (H12 H1))]. Qed.

Section families.
Context `{Bs58, Base64, HexCrate, ProstStorage, RocksDB}.
Implicit Types (d : DB) (c : Cf) (k raw : bytes) (ck : Cf * bytes) (f : Family).

(** ** One family *)
Definition exact_on A `{!Indexed A} (cfs : list Cf) d : Prop :=
  indexed_ok A d /\
  forall c k, c ∈ cfs -> c ∈ SECONDARY_INDEX_CFS -> is_Some (get_cf d c k) <-> called_for A d (c, k).
(** Rows under different keys call for different index rows. *)
Class Separated A `{!Indexed A} : Prop :=
  keys_apart k k' raw raw' (a a' : A) ck :
    ix_wf k raw a -> ix_wf k' raw' a' -> ck ∈ ix_keys k a -> ck ∈ ix_keys k' a' ->
    ck.1 ∈ SECONDARY_INDEX_CFS -> k = k'.

Lemma called_keys_at A `{!Indexed A} d ck : called_for A d ck <-> exists k, ck ∈ keys_at A d k.
Proof. unfold called_for. setoid_rewrite elem_of_keys_at. naive_solver. Qed.
Lemma keys_at_apart A `{!Indexed A, !Separated A} d d' k k' ck :
  indexed_ok A d -> indexed_ok A d' -> ck ∈ keys_at A d k -> ck ∈ keys_at A d' k' ->
  ck.1 ∈ SECONDARY_INDEX_CFS -> k = k'.
Proof.
  intros Hok Hok' (raw & a & Hg & Ha & Hk)%elem_of_keys_at (raw' & a' & Hg' & Ha' & Hk')%elem_of_keys_at Hc.
  destruct (Hok k raw Hg) as (b & Hb & Hw), (Hok' k' raw' Hg') as (b' & Hb' & Hw').
  replace b with a in Hw by congruence. replace b' with a' in Hw' by congruence. by eapply keys_apart.
Qed.
Lemma keys_at_same A `{!Indexed A} d d' k :
  get_cf d' (ix_cf A) k = get_cf d (ix_cf A) k -> keys_at A d' k = keys_at A d k.
Proof. intros E. unfold keys_at. by rewrite E. Qed.

(** A store whose rows changed under the keys [K] only. *)
Lemma exact_step A `{!Indexed A, !Separated A} cfs d d' (K : bytes -> Prop) :
  (forall k, K k \/ ~ K k) -> exact_on A cfs d ->
  (forall k, ~ K k -> get_cf d' (ix_cf A) k = get_cf d (ix_cf A) k) ->
  (forall k raw, K k -> get_cf d' (ix_cf A) k = Some raw -> exists a : A, ix_decode raw = Ok a /\ ix_wf k raw a) ->
  (forall c k, c ∈ cfs -> c ∈ SECONDARY_INDEX_CFS ->
     is_Some (get_cf d' c k) <->
     (exists k0, K k0 /\ (c, k) ∈ keys_at A d' k0) \/
     (is_Some (get_cf d c k) /\ ~ exists k0, K k0 /\ (c, k) ∈ keys_at A d k0)) ->
  exact_on A cfs d'.
Proof.
  intros Kdec [Hok Hidx] Hold Hnew Hi.
  assert (indexed_ok A d') as Hok'.
  { intros k raw Hg. destruct (Kdec k) as [HK|HK]; [by eapply Hnew|]. rewrite Hold in Hg by done. by apply Hok. }
  split; [done|]. intros c k Hc Hs. rewrite (Hi c k Hc Hs), (Hidx c k Hc Hs), !called_keys_at. split.
  - intros [(k0 & _ & Hk)|[(k0 & Hk) Hn]]; [by exists k0|]. exists k0.
    rewrite (keys_at_same A d d'); [done|]. apply Hold. intros HK. apply Hn. eauto.
  - intros (k0 & Hk). destruct (Kdec k0) as [HK|HK]; [by left; eauto|]. right.
    rewrite (keys_at_same A d d') in Hk by by apply Hold. split; [by exists k0|].
    intros (k1 & HK1 & Hk1). apply HK. by rewrite (keys_at_apart A d d k0 k1 (c, k)).
Qed.

(** Putting a row that keeps the index rows of the one it replaces. *)
Lemma exact_write A `{!Indexed A, !Separated A} cfs d d' k raw (a : A) keys :
  db_write d (Put (ix_cf A) k raw :: (put_empty <$> keys)) = d' ->
  exact_on A cfs d -> ix_decode raw = Ok a -> ix_wf k raw a ->
  (forall ck, ck ∈ ix_keys k a <-> ck ∈ keys \/ ck ∈ keys_at A d k) -> exact_on A cfs d'.
Proof.
  intros Ed' Hex Hd Hw Hkeys.
  assert (forall ck, ck ∈ keys -> ck.1 ∈ index_families) as Hin.
  { intros ck Hck. apply (ix_keys_in k a), Hkeys. by left. }
  assert (forall k', get_cf d' (ix_cf A) k' = if decide (k' = k) then Some raw else get_cf d (ix_cf A) k') as HP.
  { intros k'. rewrite <- Ed', get_cf_write, batch_lookup_cons, batch_lookup_puts.
    rewrite decide_False by (intros Hk%Hin; by apply (proj1 (ix_cf_primary (A := A)))).
    cbn. apply decide_ext. naive_solver. }
  assert (forall c k', c ∈ SECONDARY_INDEX_CFS ->
            is_Some (get_cf d' c k') <-> (c, k') ∈ keys \/ is_Some (get_cf d c k')) as HI.
  { intros c k' Hc. rewrite <- Ed', get_cf_write, batch_lookup_cons, batch_lookup_puts.
    case_decide as E; [naive_solver|]. cbn. rewrite decide_False; [naive_solver|].
    intros [Ec _]. apply (proj1 (ix_cf_primary (A := A))). right. by rewrite <-Ec. }
  assert (keys_at A d' k = ix_keys k a) as Hat.
  { unfold keys_at. rewrite HP, decide_True by done. cbn. by rewrite Hd. }
  apply (exact_step A cfs d d' (fun k' => k' = k)); [intros k'; destruct (decide (k' = k)); auto|done|..].
  - intros k' Hne. by rewrite HP, decide_False.
  - intros k' raw' -> Hg. rewrite HP, decide_True in Hg by done. injection Hg as <-. eauto.
  - intros c k' Hc Hs. rewrite (HI c k' Hs). split.
    + intros [Hk|Hk]; [left; exists k; split; [done|]; rewrite Hat; apply Hkeys; by left|].
      destruct (decide ((c, k') ∈ keys_at A d k)) as [Hk0|Hk0]; [|right; split; [done|by intros (? & -> & ?)]].
      left. exists k. split; [done|]. rewrite Hat. apply Hkeys. by right.
    + intros [(? & -> & Hk)|[Hk _]]; [|by right]. rewrite Hat in Hk. apply Hkeys in Hk as [Hk|Hk]; [by left|].
      right. apply (proj2 Hex c k' Hc Hs), called_keys_at. by exists k.
Qed.
End families.

(** ** Rows numbered inside a slot *)
Section slot_families.
Context `{Bs58, Base64, HexCrate, ProstStorage, RocksDB} {R : Type} `{!SlotRow R, !Indexed R}.
Implicit Types (d : DB) (c : Cf) (k raw : bytes) (r : R) (s : Slot).

(** The two views of the row type agree. *)
Class SlotIndexed : Prop := {
  si_cf : ix_cf R = sr_primary;
  si_decode raw : ix_decode (A := R) raw = sr_decode raw;
  si_keys k r : ix_keys k r = sr_keys r;
  si_wf k raw r : ix_wf k raw r <-> sr_encode r = Ok raw /\ k = sr_key r /\ sr_wf r;
}.
Context `{!SlotIndexed, !Separated R}.

Lemma indexed_slot_rows d : indexed_ok R d -> slot_rows_ok d.
Proof.
  intros Hok k raw. rewrite <- si_cf. intros (r & Hr & Hw)%Hok. exists r.
  rewrite <- si_decode. apply si_wf in Hw as (_ & -> & Hw). done.
Qed.
Lemma elem_of_slot_keys_at d k c key :
  (c, key) ∈ keys_at R d k <->
  exists raw r, get_cf d sr_primary k = Some raw /\ sr_decode raw = Ok r /\ (c, key) ∈ sr_keys r.
Proof.
  rewrite elem_of_keys_at, si_cf. setoid_rewrite si_decode. setoid_rewrite si_keys. done.
Qed.

(** Wiping a slot. *)
Lemma slot_clear_exact cfs d s :
  exact_on R cfs d -> Slot_ok s -> exact_on R cfs (slot_clear d (slot_period s) (slot_thread s)).
Proof.
  intros Hex Hs. pose proof (indexed_slot_rows d (proj1 Hex)) as Hok.
  pose proof (fun cf k => slot_clear_lookup (R := R) d s cf k) as HG.
  pose proof (fun cf k => elem_of_cleared (R := R) d s cf k Hok Hs) as HC.
  set (d' := slot_clear d _ _) in *.
  set (K k := starts_with k (slot_key (slot_period s) (slot_thread s)) = true).
  assert (forall k, ~ K k -> get_cf d' (ix_cf R) k = get_cf d (ix_cf R) k) as Hold.
  { intros k Hk. rewrite HG, decide_False; [done|]. rewrite HC, si_cf.
    intros (r & Hr & Hrs & [Hin|Hin]); [by apply sr_keys_not_primary in Hin|].
    apply (f_equal snd) in Hin. cbn in Hin. subst k. apply Hk, (sr_key_in_slot r s); [|done..].
    by eapply stored_wf. }
  assert (forall k, K k -> get_cf d' (ix_cf R) k = None) as Hnew.
  { intros k Hk. rewrite HG. case_decide as Hc; [done|].
    destruct (get_cf d (ix_cf R) k) as [raw|] eqn:Hg; [|done]. exfalso. apply Hc, HC. rewrite si_cf in *.
    destruct (Hok k raw Hg) as (r & Hr & -> & Hw). exists r.
    split; [by exists raw|]. split; [by apply sr_key_in_slot|by right]. }
  apply (exact_step R cfs d d' K); [intros k; unfold K; destruct (starts_with _ _); auto|done|done|..].
  { intros k raw Hk. by rewrite (Hnew k Hk). }
  intros c k Hc Hsec. rewrite HG.
  assert ((c, k) ∈ slot_entries d sr_primary (slot_period s) (slot_thread s) ≫= cleared_keys <->
          exists k0, K k0 /\ (c, k) ∈ keys_at R d k0) as E.
  { rewrite HC. setoid_rewrite elem_of_slot_keys_at. split.
    - intros (r & (raw & Hg & Hr) & Hrs & [Hin|[= -> _]]).
      + exists (sr_key r). split; [|by exists raw, r]. apply (sr_key_in_slot r s); [|done..].
        eapply stored_wf; [done|by exists raw].
      + exfalso. apply (proj1 (ix_cf_primary (A := R))). right. by rewrite si_cf.
    - intros (k0 & Hk0 & raw & r & Hg & Hr & Hin). destruct (Hok k0 raw Hg) as (r' & Hr' & -> & Hw).
      replace r' with r in * by congruence. exists r.
      split; [by exists raw|]. split; [by apply sr_key_in_slot|by left]. }
  assert (~ exists k0, K k0 /\ (c, k) ∈ keys_at R d' k0) as Hnone.
  { intros (k0 & Hk0 & Hin). unfold keys_at in Hin. rewrite (Hnew k0 Hk0) in Hin. by apply elem_of_nil in Hin. }
  case_decide as Hin; rewrite E in Hin; split; [by intros []| |tauto|tauto].
  by intros [?|[_ []]].
Qed.
(** A wiped slot holds nothing a new row of it could replace. *)
Lemma slot_cleared_empty d s r :
  exact_on R [] d -> Slot_ok s -> sr_wf r -> sr_slot r = s ->
  keys_at R (slot_clear d (slot_period s) (slot_thread s)) (sr_key r) = [].
Proof.
  intros Hex Hs Hw Hrs. pose proof (indexed_slot_rows d (proj1 Hex)) as Hok. unfold keys_at.
  rewrite slot_clear_lookup. case_decide as Hc; [done|]. rewrite si_cf in *.
  destruct (get_cf d sr_primary (sr_key r)) as [raw|] eqn:Hg; [|done]. exfalso. apply Hc.
  destruct (Hok _ _ Hg) as (x & Hx & Ek & Hwx).
  apply elem_of_cleared; [done..|]. exists x. split; [by exists raw; rewrite <- Ek|].
  split; [|right; by rewrite Ek]. apply (sr_key_in_slot x s); [done..|]. rewrite <- Ek.
  by apply (sr_key_in_slot r s).
Qed.

(** Writing rows, none over a row with other index rows. *)
Definition may_replace d r : Prop := forall ck, ck ∈ keys_at R d (sr_key r) -> ck ∈ sr_keys r.
Lemma slot_write_exact cfs d r :
  exact_on R cfs d -> sr_wf r -> may_replace d r ->
  exists d', slot_write d r = Ok d' /\ exact_on R cfs d' /\
    forall k, k <> sr_key r -> get_cf d' sr_primary k = get_cf d sr_primary k.
Proof.
  intros Hex Hw Hr. destruct (sr_roundtrip r Hw) as (v & Ev & Dv). unfold slot_write. rewrite Ev. cbn.
  eexists. split; [done|]. split.
  - eapply (exact_write R cfs d _ (sr_key r) v r (sr_keys r)); [by rewrite si_cf|done|by rewrite si_decode|by apply si_wf|].
    intros ck. rewrite si_keys. split; [by left|]. intros [?|?]; auto.
  - intros k Hk. rewrite get_cf_write, batch_lookup_cons, batch_lookup_puts.
    rewrite decide_False by apply sr_keys_not_primary. cbn. by rewrite decide_False by naive_solver.
Qed.
Lemma slot_writes_exact cfs d rows :
  exact_on R cfs d -> Forall sr_wf rows -> NoDup (sr_key <$> rows) ->
  (forall r, r ∈ rows -> may_replace d r) ->
  exists d', slot_writes d rows = Ok d' /\ exact_on R cfs d'.
Proof.
  intros Hex Hw Hn. revert d Hex. induction rows as [|r rows IH]; intros d Hex Hr; [by exists d|].
  apply Forall_cons in Hw as [Hwr Hw]. rewrite fmap_cons in Hn. apply NoDup_cons in Hn as [Hnr Hn].
  destruct (slot_write_exact cfs d r Hex Hwr) as (d1 & E1 & Hex1 & Hsame); [apply Hr; left|].
  destruct (IH Hw Hn d1 Hex1) as (d' & E & Hex').
  { intros x Hx ck. rewrite (keys_at_same R d d1); [apply Hr; by right|]. rewrite si_cf. apply Hsame.
    intros Ek. apply Hnr. rewrite <- Ek. by apply list_elem_of_fmap_2. }
  exists d'. cbn [slot_writes]. rewrite E1. done.
Qed.
(** Wipe the slot, write its rows. *)
Lemma slot_replace_exact cfs d s rows :
  exact_on R cfs d -> Slot_ok s -> Forall sr_wf rows -> Forall (fun r => sr_slot r = s) rows ->
  NoDup (sr_index <$> rows) ->
  exists d', slot_writes (slot_clear d (slot_period s) (slot_thread s)) rows = Ok d' /\ exact_on R cfs d'.
Proof.
  intros Hex Hs Hw Hrs Hn. apply slot_writes_exact; [by apply slot_clear_exact|done| |].
  - by eapply slot_keys_distinct.
  - rewrite Forall_forall in Hw, Hrs. intros r Hr ck.
    rewrite slot_cleared_empty; [by intros ?%elem_of_nil| |done|by apply Hw|by apply Hrs].
    split; [apply Hex|]. by intros c k ?%elem_of_nil.
Qed.
End slot_families.
Arguments SlotIndexed {_ _ _ _ _} R {_ _}.

(** ** Rows upserted by id *)
Section upsert_families.
Context `{Bs58, Base64, HexCrate, ProstStorage, RocksDB} {R : Type} `{!UpsertRow R, !Indexed R}.
Implicit Types (d : DB) (c : Cf) (k raw : bytes) (r : R).

Class UpsertIndexed : Prop := {
  ui_cf : ix_cf R = ur_primary;
  ui_decode raw : ix_decode (A := R) raw = ur_decode raw;
  ui_keys k r : ix_keys k r = ur_keys r;
  ui_wf k raw r : ix_wf k raw r <-> ur_encode r = raw /\ k = as_bytes (ur_id r) /\ ur_wf r;
}.
Context `{!UpsertIndexed, !Separated R}.

Lemma indexed_rows_ok d : indexed_ok R d -> rows_ok d.
Proof.
  intros Hok id raw. rewrite <- ui_cf. intros (r & Hr & Hw)%Hok. exists r.
  rewrite <- ui_decode. apply ui_wf in Hw as (_ & Hk & Hw). apply (inj as_bytes) in Hk. done.
Qed.
Lemma keys_at_prev d id : keys_at R d (as_bytes id) = match prev_row d id with Some p => ur_keys p | None => [] end.
Proof.
  unfold keys_at, prev_row. rewrite ui_cf. destruct (get_cf d ur_primary (as_bytes id)) as [raw|]; [|done]. cbn.
  rewrite ui_decode. destruct (ur_decode raw); [|done]. cbn. apply ui_keys.
Qed.
Lemma elem_of_stale d w ck :
  rows_ok d -> ur_wf w -> ck ∈ stale_keys d w <-> ck ∈ keys_at R d (as_bytes (ur_id w)) /\ ck ∉ ur_keys w.
Proof.
  intros Hok Hw. rewrite keys_at_prev. unfold stale_keys.
  destruct (prev_row d (ur_id w)) as [p|] eqn:Hp; [|rewrite elem_of_nil; tauto].
  apply prev_row_has in Hp as [Hp Hid]; [|done]. apply ur_stale_spec; [by eapply has_row_wf|done..].
Qed.
Lemma upsert_exact cfs d r d' :
  exact_on R cfs d -> ur_wf r -> upsert d r = Ok d' -> exact_on R cfs d'.
Proof.
  intros Hex Hr E. pose proof (indexed_rows_ok d (proj1 Hex)) as Hok.
  destruct (upsert_spec d r Hok Hr) as (d1 & E1 & Hp & Hi). rewrite E in E1. injection E1 as <-.
  set (w := upsert_value _ r) in *. assert (ur_wf w) as Hw by by apply upsert_value_wf.
  assert (ur_id w = ur_id r) as Hid by apply upsert_value_id.
  assert (keys_at R d' (as_bytes (ur_id r)) = ur_keys w) as Hat.
  { unfold keys_at. rewrite ui_cf, Hp, decide_True by done. cbn. rewrite ui_decode, ur_roundtrip by done. apply ui_keys. }
  apply (exact_step R cfs d d' (fun k => k = as_bytes (ur_id r)));
    [intros k; destruct (decide (k = as_bytes (ur_id r))); auto|done|..].
  - intros k Hne. rewrite ui_cf. rewrite <- (as_of_bytes k) in Hne |- *. rewrite Hp, decide_False; [done|].
    intros Ek. by rewrite Ek in Hne.
  - intros k raw ->. rewrite ui_cf, Hp, decide_True by done. intros [= <-]. exists w.
    rewrite ui_decode, ur_roundtrip by done. split; [done|]. apply ui_wf. by rewrite Hid.
  - intros c k Hc Hs. rewrite Hi by (intros ->; apply (proj1 (ix_cf_primary (A := R))); right; by rewrite ui_cf).
    rewrite <- Hat. pose proof (elem_of_stale d w (c, k) Hok Hw) as Hst. rewrite Hid, <- Hat in Hst.
    destruct (decide ((c, k) ∈ keys_at R d' _)) as [Hk|Hk]; [split; [by left; eauto|done]|].
    case_decide as Hsk.
    + split; [by intros []|]. apply Hst in Hsk as [Hsk _]. intros [(? & -> & ?)|[_ Hn]]; [done|]. by destruct Hn; eauto.
    + split; [|by intros [(? & -> & ?)|[? _]]]. intros Hg. right. split; [done|].
      intros (? & -> & Hkd). by apply Hsk, Hst.
Qed.
End upsert_families.
Arguments UpsertIndexed {_ _ _ _ _} R {_ _}.

(** ** The eight families *)
Section instances.
Context `{Bs58, Base64, HexCrate, ProstStorage, RocksDB}.
Implicit Types (d : DB) (c : Cf) (k raw : bytes) (ck : Cf * bytes) (f : Family).

#[export] Instance event_slot_indexed : SlotIndexed StoredScEvent.
Proof. by split. Qed.
#[export] Instance transfer_slot_indexed : SlotIndexed StoredTransfer.
Proof.
  split; [done..|]. intros k raw t. change (ix_wf k raw t) with (encode_transfer t = raw /\ k = sr_key t /\ sr_wf t).
  cbn [sr_encode transfer_slot_row]. split; [by intros (-> & ?)|intros (E & ?)]. by injection E.
Qed.

#[export] Instance async_upsert_indexed : UpsertIndexed StoredAsyncMsg.
Proof. by split. Qed.
#[export] Instance deferred_upsert_indexed : UpsertIndexed StoredDeferredCall.
Proof. by split. Qed.

(** The index rows the verification can follow name the row they belong to. *)
Lemma separated_by_target A `{!Indexed A} :
  (forall k (a : A) ck, ck ∈ ix_keys k a -> ck.1 <> IDX_ASYNC_BY_LAST_SLOT /\ ck.1 <> IDX_DEFERRED_BY_LAST_SLOT) ->
  Separated A.
Proof.
  intros Hl k k' raw raw' a a' ck Hw Hw' Hk Hk' Hc. destruct (Hl _ _ _ Hk) as [Hn1 Hn2].
  pose proof (target_known ck.1 ck.2 Hc Hn1 Hn2) as Hn.
  destruct (ix_target k raw a ck Hw Hk Hc) as [|E]; [done|].
  destruct (ix_target k' raw' a' ck Hw' Hk' Hc) as [|E']; [done|]. congruence.
Qed.
Lemma not_last_slot (cfs : list Cf) ck :
  IDX_ASYNC_BY_LAST_SLOT ∉ cfs -> IDX_DEFERRED_BY_LAST_SLOT ∉ cfs -> ck.1 ∈ cfs ->
  ck.1 <> IDX_ASYNC_BY_LAST_SLOT /\ ck.1 <> IDX_DEFERRED_BY_LAST_SLOT.
Proof. intros Ha Hd Hc. split; intros E; rewrite E in Hc; done. Qed.

(** The column families a row's index rows are in. *)
Lemma block_keys_in (b : StoredBlock) ck : ck ∈ block_keys b -> ck.1 ∈ block_cfs.
Proof. unfold block_keys, block_cfs. set_solver. Qed.
Lemma endorsement_keys_in k (e : StoredEndorsement) ck : ck ∈ endorsement_keys k e -> ck.1 ∈ endorsement_cfs.
Proof. unfold endorsement_keys, endorsement_cfs. set_solver. Qed.
Lemma operation_keys_in (o : StoredOperation) ck : ck ∈ op_keys o -> ck.1 ∈ op_cfs.
Proof. unfold op_keys, op_cfs. destruct (op_inclusions o); [set_solver|]. destruct (op_target o); set_solver. Qed.

#[local] Ltac separated keys_in :=
  apply separated_by_target; intros k a ck Hk;
  eapply not_last_slot; [| |eapply keys_in, Hk]; by_decision.
#[export] Instance block_separated : Separated StoredBlock.
Proof. separated block_keys_in. Qed.
#[export] Instance endorsement_separated : Separated StoredEndorsement.
Proof. separated endorsement_keys_in. Qed.
#[export] Instance op_separated : Separated StoredOperation.
Proof. separated operation_keys_in. Qed.
#[export] Instance event_separated : Separated StoredScEvent.
Proof. separated event_index_keys_in. Qed.
#[export] Instance transfer_separated : Separated StoredTransfer.
Proof. separated transfer_index_keys_in. Qed.
#[export] Instance denunciation_separated : Separated StoredDenunciationEntry.
Proof. separated denunciation_index_keys_in. Qed.
#[export] Instance async_separated : Separated StoredAsyncMsg.
Proof.
  intros k k' raw raw' m m' ck (_ & -> & Hw) (_ & -> & Hw') Hk Hk' _. f_equal. exact (ur_keys_id m m' ck Hw Hw' Hk Hk').
Qed.
#[export] Instance deferred_separated : Separated StoredDeferredCall.
Proof.
  intros k k' raw raw' m m' ck (_ & -> & Hw) (_ & -> & Hw') Hk Hk' _. f_equal. exact (ur_keys_id m m' ck Hw Hw' Hk Hk').
Qed.

(** ** The invariant *)
Definition family_exact f d : Prop :=
  match f with
  | FBlock => exact_on StoredBlock block_cfs d
  | FEndorsement => exact_on StoredEndorsement endorsement_cfs d
  | FOp => exact_on StoredOperation op_cfs d
  | FEvent => exact_on StoredScEvent event_cfs d
  | FTransfer => exact_on StoredTransfer transfer_cfs d
  | FDenunciation => exact_on StoredDenunciationEntry denunciation_cfs d
  | FAsync => exact_on StoredAsyncMsg async_cfs d
  | FDeferred => exact_on StoredDeferredCall deferred_cfs d
  end.
Definition called f d ck : Prop :=
  match f with
  | FBlock => called_for StoredBlock d ck
  | FEndorsement => called_for StoredEndorsement d ck
  | FOp => called_for StoredOperation d ck
  | FEvent => called_for StoredScEvent d ck
  | FTransfer => called_for StoredTransfer d ck
  | FDenunciation => called_for StoredDenunciationEntry d ck
  | FAsync => called_for StoredAsyncMsg d ck
  | FDeferred => called_for StoredDeferredCall d ck
  end.
(** Every stored row decodes and stands where the code puts it, and a secondary
    index holds a row exactly when a stored row calls for it. *)
Definition indexes_exact d : Prop :=
  primaries_ok d /\ forall c k, c ∈ SECONDARY_INDEX_CFS -> is_Some (get_cf d c k) <-> wanted d (c, k).

Lemma called_in f d ck : called f d ck -> ck.1 ∈ family_cfs f.
Proof.
  destruct f; intros (k & raw & a & _ & _ & Hk).
  - exact (block_keys_in a ck Hk).
  - exact (endorsement_keys_in k a ck Hk).
  - exact (operation_keys_in a ck Hk).
  - exact (event_index_keys_in a ck Hk).
  - exact (transfer_index_keys_in a ck Hk).
  - exact (denunciation_index_keys_in a k ck Hk).
  - exact (async_keys_in a _ ck Hk).
  - exact (deferred_keys_in a _ ck Hk).
Qed.
Lemma wanted_called d ck : wanted d ck <-> exists f, called f d ck.
Proof.
  unfold wanted. split.
  - intros [?|[?|[?|[?|[?|[?|[?|?]]]]]]];
      [by exists FBlock|by exists FEndorsement|by exists FOp|by exists FTransfer|by exists FEvent
      |by exists FDenunciation|by exists FAsync|by exists FDeferred].
  - intros [[] ?]; cbn in *; tauto.
Qed.
Lemma family_exact_index f d c k :
  family_exact f d -> c ∈ family_cfs f -> c ∈ SECONDARY_INDEX_CFS -> is_Some (get_cf d c k) <-> called f d (c, k).
Proof. destruct f; intros [_ Hidx]; apply Hidx. Qed.
Lemma exact_families d : indexes_exact d <-> forall f, family_exact f d.
Proof.
  split.
  - intros [((Hb & He & Ho & Ht) & Hv & Hn & Ha & Hc) Hidx] f.
    assert (forall c k, c ∈ family_cfs f -> c ∈ SECONDARY_INDEX_CFS -> is_Some (get_cf d c k) <-> called f d (c, k)) as Hf.
    { intros c k Hcf Hs. rewrite (Hidx c k Hs), wanted_called. split; [|by exists f].
      intros [g Hg]. pose proof (called_in g d _ Hg) as Hcg. by rewrite (family_cfs_apart f g c Hcf Hcg). }
    destruct f; by split.
  - intros Hf. split.
    + split; split_and!; [apply (Hf FBlock)|apply (Hf FEndorsement)|apply (Hf FOp)|apply (Hf FTransfer)
        |apply (Hf FEvent)|apply (Hf FDenunciation)|apply (Hf FAsync)|apply (Hf FDeferred)].
    + intros c k Hs. destruct (secondary_family c Hs) as [f Hcf].
      rewrite (family_exact_index f d c k (Hf f) Hcf Hs), wanted_called. split; [by exists f|].
      intros [g Hg]. pose proof (called_in g d _ Hg) as Hcg. by rewrite (family_cfs_apart f g c Hcf Hcg).
Qed.

(** A store that agrees on a family's column families. *)
Lemma exact_on_same A `{!Indexed A} cfs d d' :
  ix_cf A ∈ cfs -> (forall c, c ∈ cfs -> same_cf c d d') -> exact_on A cfs d -> exact_on A cfs d'.
Proof.
  intros Hcf Hs [Hok Hidx]. pose proof (Hs _ Hcf) as Hp. split.
  - intros k raw. rewrite (Hp k). apply Hok.
  - intros c k Hc Hsec. rewrite (Hs c Hc k), (Hidx c k Hc Hsec). unfold called_for. by setoid_rewrite (Hp _).
Qed.
Lemma family_exact_same f d d' :
  (forall c, c ∈ family_cfs f -> same_cf c d d') -> family_exact f d -> family_exact f d'.
Proof. intros Hs. destruct f; apply exact_on_same; solve [exact Hs | by_decision]. Qed.

(** A writer answers for its own family only. *)
Lemma only_family f (write : DB -> result Error DB) d d' :
  writes_in (family_cfs f) write -> write d = Ok d' -> (family_exact f d -> family_exact f d') ->
  holds indexes_exact d d'.
Proof.
  intros Hin E Hf Hex. rewrite exact_families in Hex |- *. intros g.
  destruct (decide (g = f)) as [->|Hne]; [by apply Hf|].
  apply (family_exact_same g d d'); [|done]. intros c Hc. apply (Hin d d' E).
  intros Hc'. apply Hne. by eapply family_cfs_apart.
Qed.
Lemma no_family cfs (write : DB -> result Error DB) d d' :
  writes_in cfs write -> write d = Ok d' -> (forall f c, c ∈ family_cfs f -> c ∉ cfs) -> holds indexes_exact d d'.
Proof.
  intros Hin E Hno Hex. rewrite exact_families in Hex |- *. intros g.
  apply (family_exact_same g d d'); [|done]. intros c Hc. apply (Hin d d' E). by eapply Hno.
Qed.
End instances.

(** ** The writers of db.rs keep the invariant *)
Section writers.
Context `{Bs58, Base64, HexCrate, ProstStorage, RocksDB}.
Implicit Types (d : DB) (k raw : bytes) (ck : Cf * bytes).

Lemma elem_of_row_keys A `{!Indexed A} `{!Table A} d k ck :
  ix_cf A = tb_cf A -> (forall raw, ix_decode (A := A) raw = tb_decode raw) ->
  ck ∈ keys_at A d k <-> exists a : A, row_at d k a /\ ck ∈ ix_keys k a.
Proof.
  intros Hc Hd. rewrite elem_of_keys_at, Hc. unfold row_at. setoid_rewrite Hd. naive_solver.
Qed.

Lemma write_block_exact d b d' :
  StoredBlock_enc b -> Slot_ok (bl_slot b) ->
  (forall b0, row_at d (id_as_bytes (bl_id b)) b0 -> block_keys b0 = block_keys b) ->
  write_block d b = Ok d' -> holds indexes_exact d d'.
Proof.
  intros He Hs Hold E. apply (only_family FBlock (fun d => write_block d b)); [apply write_block_in|done|].
  intros Hex. unfold write_block in E. destruct (encode_block b) as [raw|] eqn:Er; [|done]. injection E as E.
  apply (exact_write StoredBlock block_cfs d d' (id_as_bytes (bl_id b)) raw b (block_keys b)); [exact E|done| | |].
  - by apply encode_block_decodes.
  - split_and!; [done..|apply He|done|apply He].
  - intros ck. rewrite (elem_of_row_keys StoredBlock) by done. split; [by left|].
    intros [?|(b0 & Hr & Hk)]; [done|]. change (ck ∈ block_keys b0) in Hk. by rewrite (Hold b0 Hr) in Hk.
Qed.

Lemma write_op_exact d o d' :
  StoredOperation_enc o -> Forall (fun i => Slot_ok (inc_slot i)) (op_inclusions o) ->
  (forall o0 ck, row_at d (id_as_bytes (op_id o)) o0 -> ck ∈ op_keys o0 -> ck ∈ op_keys o) ->
  write_op d o = Ok d' -> holds indexes_exact d d'.
Proof.
  intros He Hs Hold E. apply (only_family FOp (fun d => write_op d o)); [apply write_op_in|done|].
  intros Hex. unfold write_op in E. destruct (encode_operation o) as [raw|] eqn:Er; [|done]. injection E as E. rewrite op_puts_alt in E.
  apply (exact_write StoredOperation op_cfs d d' (id_as_bytes (op_id o)) raw o (op_keys o)); [exact E|done| | |].
  - by apply encode_operation_decodes.
  - destruct He as (? & ? & ? & _). by split_and!.
  - intros ck. rewrite (elem_of_row_keys StoredOperation) by done. split; [by left|].
    intros [?|(o0 & Hr & Hk)]; [done|]. by apply (Hold o0).
Qed.

Lemma write_endorsement_exact d e d' :
  StoredEndorsement_enc e -> Slot_ok (en_slot e) -> write_endorsement d e = Ok d' -> holds indexes_exact d d'.
Proof.
  intros He Hs E.
  apply (only_family FEndorsement (fun d => write_endorsement d e)); [apply write_endorsement_in|done|].
  intros Hex. unfold write_endorsement in E. apply result_bind_ok in E as (id & Ei & E).
  destruct (get_cf d CF_ENDORSEMENT (id_as_bytes id)) eqn:Hg; cbn [is_some] in E; [by injection E as <-|].
  destruct (encode_endorsement e) as [raw|] eqn:Er; [|done]. injection E as E. apply map_err_ok in Ei.
  assert (StoredEndorsement_wf e) as Hw.
  { unfold encode_endorsement in Er. invert_binds Er. by eapply endorsement_to_pb_ok. }
  destruct (endorsement_roundtrip e Hw) as (v & Ev & Dv).
  apply (exact_write StoredEndorsement endorsement_cfs d d' (id_as_bytes id) raw e (endorsement_keys (id_as_bytes id) e));
    [exact E|done| | |].
  - cbn. congruence.
  - split; [by exists id|]. split; [done|apply He].
  - intros ck. split; [by left|]. intros [?|Hk]; [done|].
    unfold keys_at in Hk. change (ix_cf StoredEndorsement) with CF_ENDORSEMENT in Hk. rewrite Hg in Hk.
    by apply elem_of_nil in Hk.
Qed.

Lemma decode_denunciation_entry_wf v x :
  decode_denunciation_entry v = Ok x -> StoredDenunciationEntry_wf x.
Proof.
  unfold decode_denunciation_entry. intros E. invert_binds E. injection E as <-.
  split_and!; cbn [de_hash de_slot de_denounced_addr de_denunciation de_included_block_id de_included_slot].
  - eauto.
  - by eapply slot_from_opt_wf.
  - eapply some_if_ok; [|eassumption]. apply addr_from_key_wf.
  - by eapply denunciation_from_pb_wf.
  - eapply some_if_ok; [|eassumption]. apply block_id_from_key_wf.
  - eapply some_if_ok; [|eassumption]. apply slot_from_opt_wf.
Qed.
(** A row written under another spelling of its hash. *)
Lemma encode_denunciation_decodes x h :
  hex_crate_decode (de_hash x) = Some h -> Slot_wf (de_slot x) -> opt_wf Address_enc (de_denounced_addr x) ->
  StoredDenunciation_wf (de_denunciation x) -> opt_wf Id_wf (de_included_block_id x) ->
  opt_wf Slot_wf (de_included_slot x) ->
  exists v, encode_denunciation_entry x = Ok v /\
    decode_denunciation_entry v = Ok (x <| de_hash := hex_crate_encode h |>).
Proof.
  intros Hh Hs Ha Hd Hb Hi.
  destruct (denunciation_entry_roundtrip (x <| de_hash := hex_crate_encode h |>)) as (v & Ev & Dv).
  { split_and!; [by eexists|done..]. }
  exists v. split; [|done]. rewrite <- Ev. unfold encode_denunciation_entry. cbn. unfold constant.
  by rewrite Hh, hex_decode_encode.
Qed.

(** What a writer of denunciations is given. *)
Definition denunciation_writable (x : StoredDenunciationEntry) : Prop :=
  (exists h, hex_crate_decode (de_hash x) = Some h /\ length h = DENUNCIATION_HASH_LEN) /\ Slot_ok (de_slot x) /\
  opt_wf Address_enc (de_denounced_addr x) /\ StoredDenunciation_wf (de_denunciation x) /\
  opt_wf Id_wf (de_included_block_id x) /\ opt_wf Slot_wf (de_included_slot x).
Lemma write_denunciation_exact d x d' :
  denunciation_writable x -> write_denunciation d x = Ok d' -> holds indexes_exact d d'.
Proof.
  intros ((h & Eh & Hl) & Hs & Ha & Hd & Hb & Hi) E.
  apply (only_family FDenunciation (fun d => write_denunciation d x)); [apply write_denunciation_in|done|].
  intros Hex. unfold write_denunciation, hex_hash in E. rewrite Eh in E. cbn [ok_or mbind result_bind] in E.
  destruct (get_cf d CF_DENUNCIATION h) as [v|] eqn:Hg.
  - destruct (proj1 Hex h v Hg) as (p & Ep & Hwp). cbn in Ep. rewrite Ep in E. cbn in E.
    case_match; [|by injection E as <-]. pose proof (decode_denunciation_entry_wf v p Ep) as (_ & ? & ? & ? & ? & _).
    destruct (decode_denunciation_entry_wf v p Ep) as ((h' & Eh') & _).
    set (p' := mkDenunciationEntry _ _ _ _ _ _ _ _) in E.
    destruct (encode_denunciation_decodes p' h') as (v' & Ev & Dv); [by cbn; rewrite Eh', hex_decode_encode|done..|].
    rewrite Ev in E. injection E as E.
    assert (keys_at StoredDenunciationEntry d h = denunciation_index_keys p h) as Hk.
    { unfold keys_at. change (ix_cf StoredDenunciationEntry) with CF_DENUNCIATION. rewrite Hg. cbn. by rewrite Ep. }
    apply (exact_write StoredDenunciationEntry denunciation_cfs d d' h v'
             (p' <| de_hash := hex_crate_encode h' |>) []); [exact E|done|exact Dv|by destruct Hwp|].
    intros ck. rewrite Hk, elem_of_nil. split; [by right|]. by intros [[]|?].
  - destruct (encode_denunciation_decodes x h Eh) as (v & Ev & Dv); [by apply Hs|done..|].
    rewrite Ev in E. injection E as E.
    apply (exact_write StoredDenunciationEntry denunciation_cfs d d' h v
             (x <| de_hash := hex_crate_encode h |>) (denunciation_index_keys x h)); [exact E|done|exact Dv|done|].
    intros ck. split; [by left|]. intros [?|Hk]; [done|].
    unfold keys_at in Hk. change (ix_cf StoredDenunciationEntry) with CF_DENUNCIATION in Hk. rewrite Hg in Hk.
    by apply elem_of_nil in Hk.
Qed.

Lemma write_async_exact d m d' :
  StoredAsyncMsg_wf m -> write_async_msg d m = Ok d' -> holds indexes_exact d d'.
Proof.
  intros Hw E. apply (only_family FAsync (fun d => write_async_msg d m)); [apply write_async_in|done|].
  intros Hex. by apply (upsert_exact async_cfs d m d').
Qed.
Lemma write_deferred_exact d c d' :
  StoredDeferredCall_wf c -> write_deferred_call d c = Ok d' -> holds indexes_exact d d'.
Proof.
  intros Hw E. apply (only_family FDeferred (fun d => write_deferred_call d c)); [apply write_deferred_in|done|].
  intros Hex. by apply (upsert_exact deferred_cfs d c d').
Qed.
End writers.
