(* ===== verification/IndexSafety.v ===== *)
(** * Every handler keeps the secondary indexes exact

    The traversal of the handlers of ingest.rs and peer/patch.rs behind
    IndexProps.v: each piece keeps the invariant [sound], whatever its outcome. *)

From S2P Require Import Prelude Ids Keys Model Proto Codec CodecLemmas CodecProps Store Text Db DbUpsert.
From S2P Require Import DbSlotRows DbProps NodeMsg World Tables Reconcile Arbiter Patch Ingest WorldLogic.
From S2P Require Import HandlerFrames SlotSafety FirstFinal PatchSafety RowSafety SlotReplace TransferProps ExecProps.
From S2P Require Import Registry PeerService PeerProps ReplicaProps Cli CliProps ReindexProps IndexFamilies.

(** ** What the messages of the outside must satisfy

    The integer fields of a message are what their protobuf types can hold, and the
    rows of a part are numbered apart inside its slot. *)
Definition slot_typed (s : option NodeSlot) : Prop := opt_wf (fun s => u64_ok (ns_period s)) s.
Definition block_typed (fb : FilledBlock) : Prop :=
  opt_wf (fun h => opt_wf (fun c =>
      slot_typed (bh_slot c) /\
      Forall (fun e => opt_wf (fun x => slot_typed (ne_slot x)) (se_content e)) (bh_endorsements c) /\
      Forall (fun x => match nd_entry x with
                       | Some (NdBlockHeader _ s _ _ _ _) | Some (NdEndorsement _ s _ _ _ _ _)
                       | Some (NdAddress _ s _) => slot_typed s
                       | None => True
                       end) (bh_denunciations c)) (sh_content h)) (fb_header fb).
Definition pool_change_typed (e : AsyncPoolChangeEntry) : Prop :=
  opt_wf (fun v => match pv_message v with
    | Some (CreatedMessage m) =>
        slot_typed (ms_emission_slot m) /\ slot_typed (ms_validity_start m) /\ slot_typed (ms_validity_end m)
    | Some (UpdatedMessage u) =>
        slot_typed (set_value (mu_emission_slot u)) /\ slot_typed (set_value (mu_validity_start u)) /\
        slot_typed (set_value (mu_validity_end u))
    | None => True
    end) (pe_value e).
Definition exec_typed (out : SlotExecutionOutput) : Prop :=
  opt_wf (fun x => slot_typed (xo_slot x) /\ (Z.of_nat (length (xo_events x)) < 2 ^ 32)%Z /\
    opt_wf (fun sc => Forall pool_change_typed (sc_async_pool_changes sc)) (xo_state_changes x))
    (so_execution_output out).

Section safety.
Context `{Bs58, Base64, HexCrate, ProstStorage, RocksDB, DenunciationDigest, NodeEncode}.
Implicit Types (w : World) (d : DB) (s : SlotState) (slot : Slot).

(** ** The invariant *)
(** Every slot row names the slot whose key it stands under. *)
Definition slots_own d : Prop :=
  forall k s, row_at d k s -> k = key_of (ss_slot s) /\ Slot_ok (ss_slot s).
Definition sound d : Prop := slots_own d /\ indexes_exact d.
#[local] Abbreviation sane := (moves (holds sound)).

Lemma holds_sound d d' : holds indexes_exact d d' -> same_cf CF_SLOT d d' -> holds sound d d'.
Proof.
  intros Hi Hs [Hown Hex]. split; [|by apply Hi]. intros k s. rewrite (same_cf_row_at d d') by done. apply Hown.
Qed.
Lemma slot_cfs_off f c : c ∈ family_cfs f -> c ∉ slot_cfs.
Proof.
  intros Hc ->%list_elem_of_singleton. revert Hc. change (CF_SLOT ∉ family_cfs f). destruct f; cf_notin.
Qed.
Lemma meta_cfs_off f c : c ∈ family_cfs f -> c ∉ meta_cfs.
Proof.
  intros Hc ->%list_elem_of_singleton. revert Hc. change (CF_META ∉ family_cfs f). destruct f; cf_notin.
Qed.

(** ** Slot rows and markers *)
(** The row of [slot], encodable. *)
Definition at_slot slot s : Prop := SlotState_enc s /\ ss_slot s = slot.
Lemma at_slot_step slot s s' : slot_step slot_kept s s' -> at_slot slot s -> at_slot slot s'.
Proof. intros [(E & _) He] [Hs Es]. split; [by apply He|congruence]. Qed.
Lemma at_slot_le slot s s' : slot_step slot_le s s' -> at_slot slot s -> at_slot slot s'.
Proof. intros Hs. apply at_slot_step. eapply slot_step_mono; [|exact Hs]. by intros a b []. Qed.

Lemma write_slot_sound d s : Slot_ok (ss_slot s) -> SlotState_enc s -> holds sound d (write_slot d s).
Proof.
  intros Hslot Henc [Hown Hex]. split.
  - intros k s' (v & Hg & Hv). destruct (write_slot_puts d s) as (v' & [= <-] & Hget). rewrite Hget in Hg.
    case_bool_decide as Hk; [|by apply Hown; exists v]. injection Hg as <-.
    cbn [tb_decode slot_table] in Hv. rewrite slot_state_roundtrip_norm in Hv by done. injection Hv as <-. by subst k.
  - by apply (no_family slot_cfs (fun d => Ok (write_slot d s)) d); [apply write_slot_in|done|apply slot_cfs_off|].
Qed.
Lemma put_slot_sane slot s : Slot_ok slot -> at_slot slot s -> sane (put_slot s).
Proof.
  intros Hslot [Henc <-]. unfold put_slot. apply (moves_do _). intros d d' [= <-]. by apply write_slot_sound.
Qed.
Lemma meta_write_sound (write : DB -> result Error DB) d d' :
  writes_in meta_cfs write -> write d = Ok d' -> holds sound d d'.
Proof.
  intros Hin E. apply holds_sound; [by apply (no_family meta_cfs write); [..|apply meta_cfs_off]|].
  apply (Hin d d' E). cf_notin.
Qed.
Lemma bump_sane slot : sane (bump_last_final_slot slot).
Proof.
  unfold bump_last_final_slot. repeat moves_step;
    (eapply meta_write_sound; [apply (update_last_final_in slot)|done]).
Qed.
(** The row a handler reads of its slot. *)
Lemma slot_origin_own d slot s : slots_own d -> Slot_ok slot -> slot_origin d slot s -> at_slot slot s.
Proof.
  intros Hown Hslot Ho. split; [by eapply slot_origin_enc, Ho; apply Hslot|].
  destruct Ho as [Hrow|[_ [n ->]]]; [|done]. destruct (Hown _ _ Hrow) as [Hk [Hp Ht]].
  destruct Hslot as [Hp' Ht']. apply slot_key_inj in Hk as [E1 E2]; [|done..].
  destruct (ss_slot s), slot; cbn in *; by subst.
Qed.
Lemma read_slot_sane {B} slot now (f : SlotState -> ST World B) :
  Slot_ok slot -> (forall s, at_slot slot s -> sane (f s)) -> sane (read_slot_or_fresh slot now ≫= f).
Proof.
  intros Hslot Hf w Hw. destruct (read_slot_or_fresh slot now w) as [[s|e] w'] eqn:E.
  - rewrite (bind_run _ _ _ _ _ E). apply read_slot_or_fresh_at in E as [-> Ho].
    exact (Hf s (slot_origin_own _ _ _ (proj1 Hw) Hslot Ho) w Hw).
  - assert (sane (read_slot_or_fresh slot now)) as Hr by (unfold read_slot_or_fresh; repeat moves_step).
    specialize (Hr w). rewrite E in Hr. unfold mbind, ST_bind. rewrite E. by apply Hr.
Qed.
Lemma fresh_at_slot slot now : Slot_ok slot -> at_slot slot (SlotState_fresh slot now).
Proof. intros Hs. split; [apply fresh_enc, Hs|done]. Qed.
Lemma parent_stub_sane slot now : Slot_ok slot -> sane (ensure_parent_stub slot now).
Proof.
  intros [Hp Ht]. unfold ensure_parent_stub. destruct (Z.eqb_spec (slot_period slot) 0); [moves_step|].
  assert (Slot_ok (mkSlot (slot_period slot - 1) (slot_thread slot))) as Hs
    by (split; [unfold u64_ok in *; cbn; lia|exact Ht]).
  repeat moves_step. by eapply put_slot_sane, fresh_at_slot.
Qed.

(** ** Block rows *)
Lemma block_row_own d k b : indexed_ok StoredBlock d -> row_at d k b -> k = id_as_bytes (bl_id b) /\ Slot_ok (bl_slot b).
Proof.
  intros Hok (v & Hg & Hd). destruct (Hok k v Hg) as (b' & Hb' & _ & -> & _ & Hs & _).
  cbn in Hd, Hb'. assert (b' = b) as -> by congruence. done.
Qed.
Lemma block_core_keys b b' :
  block_core b' = block_core b -> bl_id b' = bl_id b /\ bl_slot b' = bl_slot b /\ block_keys b' = block_keys b.
Proof.
  intros E. assert (bl_id b' = bl_id b) as E1 by exact (f_equal bl_id E).
  assert (bl_slot b' = bl_slot b) as E2 by exact (f_equal bl_slot E).
  assert (bl_creator b' = bl_creator b) as E3 by exact (f_equal bl_creator E).
  split_and!; [done..|]. unfold block_keys, block_cand_key. by rewrite E1, E2, E3.
Qed.
Lemma write_block_over d k b b' d' :
  row_at d k b -> block_core b' = block_core b -> (StoredBlock_enc b -> StoredBlock_enc b') ->
  write_block d b' = Ok d' -> holds sound d d'.
Proof.
  intros Hr Hc He E. destruct (block_core_keys b b' Hc) as (Ei & Es & Ek).
  apply holds_sound; [|by apply (write_block_in b' d d' E); cf_notin].
  intros Hex. destruct (block_row_own d k b (proj1 (proj1 (proj1 Hex))) Hr) as [-> Hslot].
  apply (write_block_exact d b' d'); [by apply He, (row_at_wf d _ b Hr)|by rewrite Es| |done|done].
  intros b0 Hb0. rewrite Ei in Hb0. by rewrite (row_at_inj _ _ _ _ Hb0 Hr).
Qed.
Lemma write_block_fresh d b d' :
  get_cf d CF_BLOCK (id_as_bytes (bl_id b)) = None -> StoredBlock_enc b -> Slot_ok (bl_slot b) ->
  write_block d b = Ok d' -> holds sound d d'.
Proof.
  intros Hn He Hs E. apply holds_sound; [|by apply (write_block_in b d d' E); cf_notin].
  apply (write_block_exact d b d'); [done..| |done]. intros b0 (v & Hv & _). cbn in Hv. by rewrite Hn in Hv.
Qed.
Lemma set_block_status_sane bid st : sane (set_block_status bid st).
Proof.
  unfold set_block_status. apply (moves_read_at _). intros d [b|] sse E; [|reflexivity].
  apply read_block_Some in E. case_bool_decide; [reflexivity|]. apply (do_last_at _). intros d' Hw.
  apply (write_block_over d (id_as_bytes bid) b (b <| bl_status := st |>) d'); [done|by destruct b|done|done].
Qed.
Lemma apply_finality_sane fin cands : sane (apply_finality_to_blocks fin cands).
Proof. unfold apply_finality_to_blocks. repeat (moves_step || apply set_block_status_sane). Qed.

(** ** Operation rows *)
Lemma op_le_keys o o' ck : op_le o o' -> ck ∈ op_keys o -> ck ∈ op_keys o'.
Proof.
  intros (E & [rest Hr] & _). assert (op_id o' = op_id o) as E1 by exact (f_equal op_id E).
  assert (op_creator o' = op_creator o) as E2 by exact (f_equal op_creator E).
  assert (op_target o' = op_target o) as E3 by exact (f_equal op_target E).
  unfold op_keys. rewrite Hr, E1, E2, E3. destruct (op_inclusions o); [by intros ?%elem_of_nil|done].
Qed.
Definition sites_ok (o : StoredOperation) : Prop := Forall (fun i => Slot_ok (inc_slot i)) (op_inclusions o).
Lemma op_row_own d k o : indexed_ok StoredOperation d -> row_at d k o -> k = id_as_bytes (op_id o) /\ sites_ok o.
Proof.
  intros Hok (v & Hg & Hd). destruct (Hok k v Hg) as (o' & Ho' & _ & -> & _ & Hs & _).
  cbn in Hd, Ho'. assert (o' = o) as -> by congruence. done.
Qed.
Lemma write_op_over d k o o' d' :
  row_at d k o -> op_le o o' -> (StoredOperation_enc o -> StoredOperation_enc o') -> (sites_ok o -> sites_ok o') ->
  write_op d o' = Ok d' -> holds sound d d'.
Proof.
  intros Hr Hle He Hs E. assert (op_id o' = op_id o) as Ei by exact (f_equal op_id (proj1 Hle)).
  apply holds_sound; [|by apply (write_op_in o' d d' E); cf_notin]. intros Hex.
  pose proof (proj1 (proj1 Hex)) as (_ & _ & Hok & _). destruct (op_row_own d k o Hok Hr) as [-> Hsites].
  apply (write_op_exact d o' d'); [by apply He, (row_at_wf d _ o Hr)|by apply Hs| |done|done].
  intros o0 ck Ho0. rewrite Ei in Ho0. rewrite (row_at_inj _ _ _ _ Ho0 Hr). by apply op_le_keys.
Qed.
Lemma write_op_fresh d o d' :
  get_cf d CF_OP (id_as_bytes (op_id o)) = None -> StoredOperation_enc o -> sites_ok o ->
  write_op d o = Ok d' -> holds sound d d'.
Proof.
  intros Hn He Hs E. apply holds_sound; [|by apply (write_op_in o d d' E); cf_notin].
  apply (write_op_exact d o d'); [done..| |done]. intros o0 ck (v & Hv & _). cbn in Hv. by rewrite Hn in Hv.
Qed.
Lemma apply_executed_op_sane fin e : sane (apply_executed_op fin e).
Proof.
  unfold apply_executed_op. case_match; [|moves_step]. case_match.
  apply (moves_read_at _). intros d [o|] sse E; [|reflexivity]. apply read_op_Some in E.
  cbn [mbind option_bind]. destruct (op_exec_update fin _ o) as [o'|] eqn:Eo; [|reflexivity].
  assert (op_inclusions o' = op_inclusions o) as Ei.
  { unfold op_exec_update in Eo. repeat case_match; simplify_eq; done. }
  apply op_exec_update_le in Eo as (Hle & _ & He). apply (do_last_at _). intros d' Hw.
  eapply (write_op_over d _ o o' d'); [done..|by unfold sites_ok; rewrite Ei|done].
Qed.
Lemma exec_ops_sane x fin s : sane (exec_ops_step x fin s).
Proof.
  unfold exec_ops_step, apply_executed_ops_changes. repeat (moves_step || apply apply_executed_op_sane).
Qed.
Lemma record_inclusion_sites inc slot o :
  Slot_ok (inc_slot inc) -> sites_ok o -> sites_ok (record_inclusion inc (o <| op_thread := slot_thread slot |>)).
Proof.
  intros Hi Hs. unfold record_inclusion. case_bool_decide; [exact Hs|]. unfold sites_ok. cbn. unfold constant.
  apply Forall_app. by rewrite Forall_singleton.
Qed.
Lemma block_op_sane bid slot now fo : Id_wf bid -> Slot_ok slot -> sane (block_op bid slot now fo).
Proof.
  intros Hb Hs. unfold block_op. destruct (filled_op_id fo) as [[signed id]|] eqn:Ef; [|moves_step].
  apply filled_op_id_wf in Ef. assert (Slot_wf slot) as Hsw by apply Hs.
  assert (OperationInclusion_wf (mkInclusion slot bid)) by done.
  apply (moves_read_at _). intros d [o|] sse E.
  - apply read_op_Some in E. unfold mret, ST_ret, mbind at 1, ST_bind at 1.
    destruct (record_inclusion_le (mkInclusion slot bid) slot o) as [Hle _].
    apply (do_at _); [|intros; moves_step]. intros d' Hw.
    eapply (write_op_over d _ o); [exact E|exact Hle|by apply record_inclusion_enc|by apply record_inclusion_sites|exact Hw].
  - apply read_op_None in E. unfold st_lift, mbind at 1, ST_bind at 1.
    destruct (new_operation id signed slot now) as [o|] eqn:En; [|reflexivity].
    assert (sites_ok o) as Ho.
    { unfold new_operation in En. apply result_bind_ok in En as (c & _ & En). case_match. case_match.
      apply result_bind_ok in En as (a & _ & En). injection En as <-. constructor. }
    apply new_operation_enc in En as [He Hid]; [|done..].
    destruct (record_inclusion_le (mkInclusion slot bid) slot o) as [_ Hid'].
    apply (do_at _); [|intros; moves_step]. intros d' Hw.
    eapply write_op_fresh; [|by apply record_inclusion_enc|by apply record_inclusion_sites|exact Hw].
    by rewrite Hid', Hid.
Qed.

(** ** Messages and calls *)
Lemma read_async_table d id : read_async_msg d id = tb_read (A := StoredAsyncMsg) d (as_bytes id).
Proof. unfold read_async_msg, tb_read. unfold tb_cf, async_table, tb_decode. done. Qed.
Lemma read_deferred_table d id : read_deferred_call d id = tb_read (A := StoredDeferredCall) d (as_bytes id).
Proof. unfold read_deferred_call, tb_read. unfold tb_cf, deferred_table, tb_decode. done. Qed.
Lemma async_row_wf d id m : indexes_exact d -> read_async_msg d id = Ok (Some m) -> StoredAsyncMsg_wf m.
Proof.
  rewrite read_async_table, tb_read_Some. intros Hex (v & Hg & Hd).
  destruct (proj1 (proj1 (exact_families d) Hex FAsync) _ _ Hg) as (m' & Hm' & _ & _ & Hw).
  cbn in Hd, Hm'. assert (m' = m) as -> by congruence. done.
Qed.
Lemma deferred_row_wf d id c : indexes_exact d -> read_deferred_call d id = Ok (Some c) -> StoredDeferredCall_wf c.
Proof.
  rewrite read_deferred_table, tb_read_Some. intros Hex (v & Hg & Hd).
  destruct (proj1 (proj1 (exact_families d) Hex FDeferred) _ _ Hg) as (c' & Hc' & _ & _ & Hw).
  cbn in Hd, Hc'. assert (c' = c) as -> by congruence. done.
Qed.
Lemma write_async_sound d m d' : StoredAsyncMsg_wf m -> write_async_msg d m = Ok d' -> holds sound d d'.
Proof.
  intros Hw E. apply holds_sound; [by eapply write_async_exact|]. apply (write_async_in m d d' E). cf_notin.
Qed.
Lemma write_deferred_sound d c d' : StoredDeferredCall_wf c -> write_deferred_call d c = Ok d' -> holds sound d d'.
Proof.
  intros Hw E. apply holds_sound; [by eapply write_deferred_exact|]. apply (write_deferred_in c d d' E). cf_notin.
Qed.

Lemma parse_addr_enc text : opt_wf Address_enc (parse_addr text).
Proof.
  unfold parse_addr. destruct (Address_parse text) eqn:E; cbn; [|done].
  apply Address_parse_wf in E as [E _]. by apply Address_wf_enc.
Qed.
Lemma parse_addr_opt_enc text : opt_wf Address_enc (parse_addr_opt text).
Proof. destruct text; [apply parse_addr_enc|done]. Qed.
Lemma fill_none_wf {A} (P : A -> Prop) o new : opt_wf P o -> opt_wf P new -> opt_wf P (fill_none o new).
Proof. by destruct o. Qed.
Lemma node_slot_typed o : slot_typed o -> opt_wf Slot_ok (node_slot <$> o).
Proof. destruct o; [|done]. apply node_slot_ok. Qed.

Lemma reconcile_async_row_wf m st r slot now :
  StoredAsyncMsg_wf m -> Slot_ok slot -> StoredAsyncMsg_wf (reconcile_async_row m st r slot now).
Proof.
  intros (? & ? & ? & ? & ? & ?) Hs. unfold reconcile_async_row, StoredAsyncMsg_wf. cbn. unfold constant.
  split_and!; try done; by apply fill_none_wf, parse_addr_opt_enc.
Qed.
Lemma async_stub_wf id st slot now : Slot_ok slot -> StoredAsyncMsg_wf (async_stub id st slot now).
Proof. intros Hs. by split_and!. Qed.
Lemma reconcile_deferred_row_wf c r slot now c' :
  StoredDeferredCall_wf c -> Slot_ok slot -> reconcile_deferred_row c r slot now = Some c' -> StoredDeferredCall_wf c'.
Proof.
  intros Hc Hs E. unfold reconcile_deferred_row in E.
  destruct (deferred_transition c r slot) as [[e st]|] eqn:Et; [|done]. cbn [mbind option_bind] in E.
  assert (StoredDeferredCall_wf e) as He.
  { destruct Hc as (? & ? & ? & ? & ?). unfold deferred_transition in Et.
    destruct (tr_origin r); simplify_eq; split_and!; cbn; unfold constant; try done;
      apply fill_none_wf; first [done | apply parse_addr_opt_enc]. }
  injection E as <-. destruct He as (? & ? & ? & ? & ?).
  destruct e; cbn in *; destruct (tr_value r); try destruct (_ <? _)%Z; cbn; destruct (deferred_is_terminal _); cbn;
    by split_and!.
Qed.

Lemma reconcile_async_sane slot rows now : Slot_ok slot -> sane (reconcile_async_from_transfers slot rows now).
Proof.
  intros Hs. unfold reconcile_async_from_transfers, reconcile_async_one. moves_step. case_match; [|moves_step].
  case_match; [|moves_step]. apply (moves_read_at _). intros d o sse E. apply (do_last_at _). intros d' Hw Hsd.
  refine (write_async_sound d _ d' _ Hw Hsd). apply reconcile_async_row_wf; [|done].
  destruct o as [m|]; [by eapply async_row_wf; [apply Hsd|]|by apply async_stub_wf].
Qed.
Lemma reconcile_deferred_sane slot rows now : Slot_ok slot -> sane (reconcile_deferred_from_transfers slot rows now).
Proof.
  intros Hs. unfold reconcile_deferred_from_transfers, reconcile_deferred_one. moves_step. case_match; [|moves_step].
  apply (moves_read_at _). intros d o sse E. destruct (reconcile_deferred_row _ _ _ _) as [c|] eqn:Ec; [|reflexivity].
  apply (do_last_at _). intros d' Hw Hsd.
  refine (write_deferred_sound d _ d' _ Hw Hsd). eapply reconcile_deferred_row_wf; [|exact Hs|exact Ec].
  destruct o as [m|]; [by eapply deferred_row_wf; [apply Hsd|]|by split_and!].
Qed.

(** One change of the async pool. *)
Lemma pool_row_wf slot now id e v held m :
  Slot_ok slot -> pool_change_typed e -> pe_value e = Some v -> opt_wf StoredAsyncMsg_wf held ->
  pool_row slot now id v held = Some m -> StoredAsyncMsg_wf m.
Proof.
  intros Hs Ht Ev Hh E. unfold pool_change_typed in Ht. rewrite Ev in Ht. cbn in Ht.
  assert (StoredAsyncMsg_wf (default (async_stub id AmPending slot now) held)) as He
    by (destruct held; [exact Hh|by apply async_stub_wf]).
  unfold pool_row in E. set (existing := default _ held) in *. clearbody existing.
  destruct He as (Ha & Hb & H1' & H2' & H3' & Hl).
  destruct (AsyncPoolChangeType_try_from _) as [[]|]; [done| | | |done];
    destruct (pv_message v) as [[msg|u]|]; try done; injection E as <-.
  - destruct Ht as (? & ? & ?). split_and!; cbn; try by apply node_slot_typed. 1,2: apply parse_addr_enc. done.
  - destruct Ht as (Hx & Hy & Hz).
    split_and!; cbn; unfold constant;
      try (destruct (set_value (mu_sender u))); try (destruct (set_value (mu_destination u)));
      try (destruct (set_value (mu_emission_slot u))); try (destruct (set_value (mu_validity_start u)));
      try (destruct (set_value (mu_validity_end u))); try done; try apply parse_addr_enc; by apply node_slot_ok.
  - by split_and!.
  - by split_and!.
  - by split_and!.
Qed.
Lemma exec_pool_sane x slot now :
  Slot_ok slot -> opt_wf (fun sc => Forall pool_change_typed (sc_async_pool_changes sc)) (xo_state_changes x) ->
  sane (exec_pool_step x slot now).
Proof.
  intros Hs Ht. unfold exec_pool_step. destruct (xo_state_changes x) as [sc|]; [|moves_step].
  cbn in Ht. rewrite Forall_forall in Ht. unfold apply_async_pool_changes.
  refine (moves_iter _ _ _ _). intros e He. unfold apply_async_pool_change. case_match; [moves_step|].
  destruct (pe_value e) as [v|] eqn:Ev; [|moves_step].
  assert (forall held d sse, (sound d -> opt_wf StoredAsyncMsg_wf held) ->
    holds sound d (w_db (match pool_row slot now (pe_async_message_id e) v held with
      | Some row => db_do (fun d => write_async_msg d row) | None => mret tt end (mkWorld d sse)).2)) as Hgo.
  { intros held d sse Hh. destruct (pool_row _ _ _ _ _) as [m|] eqn:Em; [|reflexivity].
    apply (do_last_at _). intros d' Hw Hsd. refine (write_async_sound d m d' _ Hw Hsd).
    eapply pool_row_wf; [done|by apply Ht|exact Ev|by apply Hh|exact Em]. }
  destruct (pool_reads v).
  - apply (moves_read_at _). intros d held sse E. apply Hgo. intros [_ Hex].
    destruct held; [by eapply async_row_wf|done].
  - intros [d sse]. by apply (Hgo None).
Qed.

(** ** The rows of a slot, replaced *)
Lemma run_sound f {A} (m : ST World A) w r d' sse :
  m w = (r, mkWorld d' sse) -> (forall c, c ∉ family_cfs f -> moves (same_cf c) m) -> family_exact f d' ->
  sound (w_db w) -> sound d'.
Proof.
  intros E Hm Hf [Hown Hex].
  assert (forall c, c ∉ family_cfs f -> same_cf c (w_db w) d') as Hs by (intros c Hc; specialize (Hm c Hc w); by rewrite E in Hm).
  split.
  - intros k s. rewrite (same_cf_row_at (w_db w) d'); [apply Hown|]. apply Hs.
    intros Hc. apply (slot_cfs_off f CF_SLOT Hc). by left.
  - rewrite exact_families in Hex |- *. intros g. destruct (decide (g = f)) as [->|Hne]; [done|].
    apply (family_exact_same g (w_db w)); [|done]. intros c Hc. apply Hs. intros Hc'. apply Hne.
    by eapply family_cfs_apart.
Qed.
Lemma moves_assoc R {A B C} (m1 : ST World A) (m2 : A -> ST World B) (k : B -> ST World C) :
  moves R ((m1 ≫= m2) ≫= k) -> moves R (m1 ≫= (fun a => m2 a ≫= k)).
Proof. intros Hm w. specialize (Hm w). unfold mbind, ST_bind in *. by destruct (m1 w) as [[]]. Qed.
Lemma each_decoded_omap {P A} (decode : P -> result CodecError A) (f : A -> ST World unit) ps w :
  each_decoded decode f ps w = st_iter f (omap (fun p => ok (decode p)) ps) w.
Proof.
  revert w. unfold each_decoded. induction ps as [|p ps IH]; intros w; [done|]. cbn [st_iter].
  unfold mbind, ST_bind. cbn [omap list_omap]. destruct (decode p) as [a|]; cbn [ok].
  - cbn [st_iter]. unfold mbind, ST_bind. destruct (f a w) as [[[]|] w1]; [apply IH|done].
  - unfold mret, ST_ret. apply IH.
Qed.

Lemma replace_events_sane slot evs : Slot_ok slot -> rows_of_slot slot evs -> sane (replace_events slot evs).
Proof.
  intros Hs (Hw & Hrs & Hn) w Hsd.
  destruct (slot_replace_exact event_cfs (w_db w) slot evs) as (d' & E & Hex); [|done..|].
  { exact (proj1 (exact_families _) (proj2 Hsd) FEvent). }
  pose proof (replace_events_run slot evs w d' E) as Er. rewrite Er.
  exact (run_sound FEvent _ w _ d' _ Er (fun c Hc => replace_events_keeps c slot evs Hc) Hex Hsd).
Qed.
(** The events and the transfers of an answer, decoded. *)
Definition decoded_events (resp : FinalSlotResponse) : list StoredScEvent :=
  omap (fun p => ok (sc_event_from_peer_pb p)) (fr_sc_events resp).
Definition response_slot (resp : FinalSlotResponse) : Slot := mkSlot (fr_period resp) (as_u8 (fr_thread resp)).
Lemma exec_part_sane resp :
  Slot_ok (response_slot resp) -> rows_of_slot (response_slot resp) (decoded_events resp) ->
  Forall (fun p => forall m, async_msg_from_peer_pb p = Ok m -> StoredAsyncMsg_wf m) (fr_async_msgs resp) ->
  sane (apply_exec_part resp).
Proof.
  intros Hs (Hw & Hrs & Hn) Ham. unfold apply_exec_part. apply moves_assoc. refine (moves_bind _ _ _ _ _).
  - intros w Hsd.
    destruct (slot_replace_exact event_cfs (w_db w) (response_slot resp) (decoded_events resp)) as (d' & E & Hex);
      [|done..|].
    { exact (proj1 (exact_families _) (proj2 Hsd) FEvent). }
    rewrite <- clear_sc_events_alt in E. set (m := db_do _ ≫= _).
    assert (m w = (Ok tt, mkWorld d' (w_sse w))) as Er.
    { subst m. unfold mbind, ST_bind, db_do. rewrite each_decoded_omap. exact (write_events_run _ (mkWorld _ _) _ E). }
    rewrite Er. refine (run_sound FEvent m w _ d' _ Er _ Hex Hsd). intros c Hc. subst m. frame.
  - intros _. rewrite Forall_forall in Ham. refine (moves_iter _ _ _ _). intros p Hp.
    destruct (async_msg_from_peer_pb p) as [m|] eqn:Em; [|moves_step]. refine (moves_do _ _ _).
    intros d d' Hd. by eapply write_async_sound; [eapply Ham|].
Qed.

Definition rewrite_transfers (slot : Slot) (rows : list StoredTransfer) : ST World unit :=
  db_do (fun d => Ok (clear_transfers_for_slot d (slot_period slot) (slot_thread slot))) ;; st_iter put_transfer rows.
Lemma rewrite_transfers_sane slot rows : Slot_ok slot -> rows_of_slot slot rows -> sane (rewrite_transfers slot rows).
Proof.
  intros Hs (Hw & Hrs & Hn) w Hsd.
  destruct (slot_replace_exact transfer_cfs (w_db w) slot rows) as (d' & E & Hex); [|done..|].
  { exact (proj1 (exact_families _) (proj2 Hsd) FTransfer). }
  rewrite <- clear_transfers_alt in E.
  assert (rewrite_transfers slot rows w = (Ok tt, mkWorld d' (w_sse w))) as Er.
  { unfold rewrite_transfers, mbind, ST_bind, db_do. exact (put_transfers_run _ (mkWorld _ _) _ E). }
  rewrite Er. refine (run_sound FTransfer _ w _ d' _ Er _ Hex Hsd). intros c Hc. unfold rewrite_transfers, put_transfer.
  frame.
Qed.
Lemma transfers_part_sane resp now :
  Slot_ok (response_slot resp) -> rows_of_slot (response_slot resp) (decoded_transfers resp) ->
  Forall (fun p => forall c, deferred_call_from_peer_pb p = Ok c -> StoredDeferredCall_wf c) (fr_deferred_calls resp) ->
  sane (apply_transfers_part resp now).
Proof.
  intros Hs Hrows Hdc. unfold apply_transfers_part. apply moves_assoc. refine (moves_bind _ _ _ _ _).
  - intros w. pose proof (rewrite_transfers_sane _ _ Hs Hrows w) as Hr.
    unfold rewrite_transfers, mbind, ST_bind, db_do in Hr |- *. rewrite each_decoded_omap. exact Hr.
  - intros _. refine (moves_bind _ _ _ _ _).
    + rewrite Forall_forall in Hdc. refine (moves_iter _ _ _ _). intros p Hp.
      destruct (deferred_call_from_peer_pb p) as [c|] eqn:Ec; [|moves_step]. refine (moves_do _ _ _).
      intros d d' Hd. by eapply write_deferred_sound; [eapply Hdc|].
    + intros _. refine (moves_bind _ _ _ _ _); [by apply reconcile_async_sane|]. intros _.
      by apply reconcile_deferred_sane.
Qed.

(** ** The block of an answer *)
(** The crate hex writes lower-case digits. *)
Context (hex_lower : forall b, hex_crate_encode b = hex_encode b).

Definition response_typed (resp : FinalSlotResponse) : Prop :=
  u64_ok (fr_period resp) /\
  opt_wf (fun pb => forall b, block_from_peer_pb pb = Ok b ->
    Slot_ok (bl_slot b) /\ Forall (fun x => Slot_ok (denunciation_slot x)) (bl_denunciations b)) (fr_block resp) /\
  Forall (fun p => forall o, operation_from_peer_pb p = Ok o -> sites_ok o) (fr_operations resp) /\
  Forall (fun p => forall e, endorsement_from_peer_pb p = Ok e -> Slot_ok (en_slot e)) (fr_endorsements resp) /\
  Forall (fun p => forall m, async_msg_from_peer_pb p = Ok m -> StoredAsyncMsg_wf m) (fr_async_msgs resp) /\
  Forall (fun p => forall c, deferred_call_from_peer_pb p = Ok c -> StoredDeferredCall_wf c) (fr_deferred_calls resp).

Lemma denunciation_entry_writable bid now x :
  Id_wf bid -> StoredDenunciation_wf x -> Slot_ok (denunciation_slot x) ->
  denunciation_writable (denunciation_entry bid now x).
Proof.
  intros Hb Hx Hs. unfold denunciation_entry. split_and!; cbn; [|done| |done|done|apply Hs].
  - exists (denunciation_digest x). unfold denunciation_hash. rewrite <- hex_lower, hex_decode_encode.
    split; [done|apply denunciation_digest_length].
  - unfold denunciation_target_address. destruct x; try done. apply parse_addr_enc.
Qed.
Lemma write_endorsement_sound d e d' :
  StoredEndorsement_enc e -> Slot_ok (en_slot e) -> write_endorsement d e = Ok d' -> holds sound d d'.
Proof.
  intros He Hs E. apply holds_sound; [by eapply write_endorsement_exact|]. apply (write_endorsement_in e d d' E). cf_notin.
Qed.
Lemma write_denunciation_sound d x d' :
  denunciation_writable x -> write_denunciation d x = Ok d' -> holds sound d d'.
Proof.
  intros Hx E. apply holds_sound; [by eapply write_denunciation_exact|]. apply (write_denunciation_in x d d' E). cf_notin.
Qed.
Lemma denunciations_sane bid now l :
  Id_wf bid -> Forall StoredDenunciation_wf l -> Forall (fun x => Slot_ok (denunciation_slot x)) l ->
  sane (st_iter (fun x => db_try (fun d => write_denunciation d (denunciation_entry bid now x))) l).
Proof.
  rewrite !Forall_forall. intros Hb Hw Hs. refine (moves_iter _ _ _ _). intros x Hx.
  refine (moves_try _ _ _). intros d d' Hd. eapply write_denunciation_sound, Hd.
  apply denunciation_entry_writable; auto.
Qed.

Lemma merge_op_sites local op : sites_ok op -> sites_ok local -> sites_ok (merge_op local op).
Proof.
  intros Ho Hl. unfold merge_op. destruct local as [? ? ? ? ? ? ? incs cand fin]; cbn.
  destruct (negb (is_some fin) && is_some (op_final_exec_status op)); cbn; case_match; cbn; unfold sites_ok; cbn;
    unfold constant; done.
Qed.
Lemma peer_op_sane op : StoredOperation_enc op -> sites_ok op -> sane (apply_peer_op op).
Proof.
  intros He Hs. unfold apply_peer_op. apply (moves_read_at _). intros d [local|] sse E.
  - apply read_op_Some in E. unfold when. case_match; [|reflexivity]. apply (do_last_at _). intros d' Hw.
    destruct (merge_op_le local op He) as (Hle & _ & Hm).
    eapply (write_op_over d _ local); [exact E|exact Hle|exact Hm|by apply merge_op_sites|exact Hw].
  - apply read_op_None in E. apply (do_last_at _). intros d' Hw. by eapply write_op_fresh.
Qed.
Lemma block_part_sane resp now : response_typed resp -> sane (apply_block_part resp now).
Proof.
  intros (_ & Hb & Hops & Hen & _). unfold apply_block_part.
  destruct (fr_block resp) as [pb|]; cbn [mbind option_bind]; [|moves_step].
  destruct (block_from_peer_pb pb) as [b|] eqn:Eb; cbn [ok]; [|moves_step].
  destruct (Hb b Eb) as [Hs Hd]. apply block_from_pb_enc in Eb as He.
  assert (Id_wf (bl_id b)) as Hid by apply He. assert (Forall StoredDenunciation_wf (bl_denunciations b)) as Hdw by apply He.
  assert (forall u : unit, sane ((fun _ => each_decoded operation_from_peer_pb apply_peer_op (fr_operations resp) ;;
      each_decoded endorsement_from_peer_pb (fun e => db_do (fun d => write_endorsement d e)) (fr_endorsements resp) ;;
      st_iter (fun x => db_try (fun d => write_denunciation d (peer_denunciation_entry b now x))) (bl_denunciations b) ;;
      mret (Some b)) u)) as Hrest.
  { intros _. rewrite Forall_forall in Hops. rewrite Forall_forall in Hen. refine (moves_bind _ _ _ _ _); [|intros _; refine (moves_bind _ _ _ _ _)].
    - refine (moves_iter _ _ _ _). intros p Hp. destruct (operation_from_peer_pb p) as [o|] eqn:Eo; [|moves_step].
      apply peer_op_sane; [by eapply operation_from_peer_enc|by eapply Hops].
    - refine (moves_iter _ _ _ _). intros p Hp. destruct (endorsement_from_peer_pb p) as [e|] eqn:Ee; [|moves_step].
      refine (moves_do _ _ _). intros d d' Hw. eapply write_endorsement_sound, Hw; [by eapply endorsement_from_pb_enc|by eapply Hen].
    - intros _. refine (moves_bind _ _ _ _ _); [|intros _; moves_step].
      exact (denunciations_sane (bl_id b) now _ Hid Hdw Hd). }
  apply (moves_read_at _). intros d [held|] sse E; cbn [is_some negb when].
  - exact (Hrest tt (mkWorld d sse)).
  - apply read_block_None in E. apply (do_at _); [|exact Hrest]. intros d' Hw. by eapply write_block_fresh.
Qed.

(** Replacing a verdict wipes the slot's events and transfers. *)
Lemma adopt_sane s resp pb trail : Slot_ok (ss_slot s) -> sane (adopt_peer_verdict s resp pb trail).
Proof.
  intros Hs. unfold adopt_peer_verdict.
  refine (moves_bind _ _ _ _ _); [destruct (ss_final_block_id s); [apply set_block_status_sane|moves_step]|].
  intros _. refine (moves_bind _ _ _ _ _); [|intros _; refine (moves_bind _ _ _ _ _); [|intros _; moves_step]].
  - refine (moves_do _ _ _). intros d d' E. apply holds_sound; [|apply (clear_events_in _ _ d d' E); cf_notin].
    eapply (only_family FEvent); [apply clear_events_in|exact E|]. injection E as <-. intros Hex.
    rewrite clear_sc_events_alt. by apply slot_clear_exact.
  - refine (moves_do _ _ _). intros d d' E. apply holds_sound; [|apply (clear_transfers_in _ _ d d' E); cf_notin].
    eapply (only_family FTransfer); [apply clear_transfers_in|exact E|]. injection E as <-. intros Hex.
    rewrite clear_transfers_alt. by apply slot_clear_exact.
Qed.
End safety.
