(* ===== verification/IndexProps.v ===== *)
(** * The writer keeps the secondary indexes exact

    What the traversal of IndexSafety.v comes to: every event of every source, and
    every interleaving of producers and writer steps, leaves a store that the
    verification of the operator commands passes and that re-indexing rebuilds; and
    what a client of the REST API lists from such a store. *)

From S2P Require Import Prelude Ids Keys Model Proto Codec CodecLemmas CodecProps Store Text Db DbUpsert.
From S2P Require Import DbSlotRows DbProps NodeMsg World Tables Reconcile Arbiter Patch Ingest WorldLogic.
From S2P Require Import HandlerFrames SlotSafety FirstFinal PatchSafety RowSafety SlotReplace TransferProps ExecProps.
From S2P Require Import IngestProps Scheduler Registry PeerService PeerProps ReplicaProps Cli CliProps ReindexProps.
From S2P Require Import IndexFamilies IndexSafety Ddb Config Rest RestProps.

Section handlers.
Context `{Bs58, Base64, HexCrate, ProstStorage, RocksDB, DenunciationDigest, NodeEncode}.
Context (hex_lower : forall b, hex_crate_encode b = hex_encode b).
Implicit Types (w : World) (d : DB) (s : SlotState) (slot : Slot).
#[local] Abbreviation sane := (moves (holds sound)).

(** ** Live events *)
Lemma block_head_typed fb h :
  block_head fb = Ok h -> block_typed fb ->
  Slot_ok (hd_slot h) /\
  Forall (fun e => opt_wf (fun x => slot_typed (ne_slot x)) (se_content e)) (bh_endorsements (hd_content h)) /\
  Forall (fun x => Slot_ok (denunciation_slot (decode_denunciation x))) (bh_denunciations (hd_content h)).
Proof.
  unfold block_head, block_typed. intros E Ht. destruct (fb_header fb) as [hdr|]; [|done].
  cbn [ok_or mbind result_bind] in E. cbn [opt_wf] in Ht. destruct (sh_content hdr) as [c|]; [|done].
  cbn [ok_or mbind result_bind] in E. destruct Ht as (Hs & He & Hd). case_match; [done|].
  apply result_bind_ok in E as (bid & _ & E). apply result_bind_ok in E as (sp & Esp & E).
  apply ok_or_ok in Esp. apply result_bind_ok in E as (a & _ & E). injection E as <-. cbn.
  rewrite Esp in Hs. split; [by apply node_slot_ok|]. split; [done|].
  eapply Forall_impl; [exact Hd|]. intros x Hx. unfold decode_denunciation.
  assert (forall o, slot_typed o -> Slot_ok (default (mkSlot 0 0) (node_slot <$> o))) as Hdef
    by (intros [o|] Ho; [by apply node_slot_ok|by vm_compute]).
  cbv beta in Hx. revert Hx. destruct (nd_entry x) as [[]|]; [exact (Hdef _)..|intros _; by vm_compute].
Qed.
Lemma node_endorsements_typed l bid slot now :
  Forall (fun e => opt_wf (fun x => slot_typed (ne_slot x)) (se_content e)) l ->
  Forall (fun e => Slot_ok (en_slot e)) (omap (fun se => node_decode_endorsement se bid slot now) l).
Proof.
  intros Hl. rewrite Forall_forall in Hl. apply Forall_forall. intros e (se & Hin & E)%list_elem_of_omap.
  specialize (Hl se Hin). unfold node_decode_endorsement in E.
  destruct (se_content se) as [c|]; cbn in E, Hl; [|done]. destruct (ne_slot c) as [sp|]; cbn in E; [|done].
  destruct (parse_addr _); cbn in E; [|done]. injection E as <-. by apply node_slot_ok.
Qed.
Lemma handle_block_sane fb now : block_typed fb -> sane (handle_block fb now).
Proof.
  intros Ht. unfold handle_block. apply moves_bind_val; [apply _|apply (moves_lift _)|].
  intros h (w & w' & Hh). injection Hh as Hh _. destruct (block_head_wf fb h Hh) as [Hid Hsw].
  destruct (block_head_typed fb h Hh Ht) as (Hs & Hte & Htd).
  pose proof (node_endorsements_enc (bh_endorsements (hd_content h)) (hd_block_id h) (hd_slot h) now Hsw) as Hee.
  pose proof (node_endorsements_typed _ (hd_block_id h) (hd_slot h) now Hte) as Hes.
  set (endos := omap _ _) in *. set (denos := decode_denunciation <$> _) in *.
  assert (Forall StoredDenunciation_wf denos) as Hdw by (apply Forall_fmap, Forall_true; intros; apply decode_denunciation_wf).
  assert (Forall (fun x => Slot_ok (denunciation_slot x)) denos) as Hds by by apply Forall_fmap.
  refine (moves_bind _ _ _ _ _); [|intros _; refine (moves_bind _ _ _ _ _); [by apply denunciations_sane|]].
  { rewrite Forall_forall in Hee. rewrite Forall_forall in Hes. refine (moves_iter _ _ _ _). intros e He.
    refine (moves_do _ _ _). intros d d' Hw. eapply write_endorsement_sound, Hw; auto. }
  intros _. refine (moves_bind _ _ _ _ _); [refine (moves_iter _ _ _ _); intros; by apply block_op_sane|].
  intros _. apply read_slot_sane; [done|]. intros s Hat.
  assert (forall u : unit, sane ((fun _ => put_slot (block_slot_row (hd_block_id h) now s) ;;
    ensure_parent_stub (hd_slot h) now ;; broadcast (SlotUpdated (block_slot_row (hd_block_id h) now s))) u)) as Hrest.
  { intros _. refine (moves_bind _ _ _ _ _).
    - eapply put_slot_sane; [exact Hs|]. eapply at_slot_le; [by apply block_slot_row_step|exact Hat].
    - intros _. refine (moves_bind _ _ _ _ _); [by apply parent_stub_sane|intros _; moves_step]. }
  apply (moves_read_at _). intros d [b|] sse E.
  - apply read_block_Some in E. pose proof (block_operation_ids_wf fb) as Hops.
    destruct (merge_block_le b (block_operation_ids fb) endos denos (initial_block_status s (hd_block_id h)) Hops Hee Hdw)
      as [Hle He].
    apply (do_at _); [|intros; moves_step; [moves_step|apply (Hrest tt)]].
    intros d' Hw. eapply (write_block_over d _ b); [exact E|exact (proj1 Hle)|exact He|exact Hw].
  - apply read_block_None in E. pose proof (block_operation_ids_wf fb) as Hops.
    destruct (new_block_enc h (block_operation_ids fb) endos denos (initial_block_status s (hd_block_id h)) now fb
      Hh Hops Hee Hdw) as [He Eid].
    apply (do_at _); [|intros; moves_step; [moves_step|apply (Hrest tt)]].
    intros d' Hw. eapply write_block_fresh; [by rewrite Eid|exact He|exact Hs|exact Hw].
Qed.

(** The end of every handler that settles a slot row. *)
Lemma settle_sane {B} slot s now (after : ST World B) :
  Slot_ok slot -> at_slot slot s -> sane after -> sane (put_slot s ;; ensure_parent_stub slot now ;; after).
Proof.
  intros Hs Hat Ha. refine (moves_bind _ _ _ _ _); [by eapply put_slot_sane|]. intros _.
  refine (moves_bind _ _ _ _ _); [by apply parent_stub_sane|by intros _].
Qed.
(** The part of the two execution paths that returns the row. *)
Lemma exec_ops_then {B} x fin slot s (k : SlotState -> ST World B) :
  at_slot slot s -> (forall s', at_slot slot s' -> sane (k s')) -> sane (exec_ops_step x fin s ≫= k).
Proof.
  intros Hat Hk. apply moves_bind_val; [apply _|apply exec_ops_sane|].
  intros s' (w & w' & E%exec_ops_step_at). apply Hk. by eapply at_slot_le.
Qed.
Lemma exec_rows_of_slot slot st x :
  Slot_ok slot -> (Z.of_nat (length (xo_events x)) < 2 ^ 32)%Z -> rows_of_slot slot (exec_events slot st x).
Proof. intros Hs Hl. by apply exec_events_wf. Qed.

Lemma apply_exec_sane slot x fin s now :
  Slot_ok slot -> at_slot slot s -> (Z.of_nat (length (xo_events x)) < 2 ^ 32)%Z ->
  opt_wf (fun sc => Forall pool_change_typed (sc_async_pool_changes sc)) (xo_state_changes x) ->
  sane (apply_exec slot x fin s now).
Proof.
  intros Hs Hat Hl Hp. unfold apply_exec.
  set (s1 := s <| ss_status := if fin then SlotFinal else SlotCandidate |>).
  set (s2 := match exec_trail x with
             | Some h => s1 <| ss_execution_trail_hash := Some h |> | None => s1 end).
  set (s3 := s2 <| ss_sc_event_count := exec_event_count x |>).
  set (s4 := if fin then exec_final_row x s3 else _).
  assert (at_slot slot s4) as Hat4.
  { destruct Hat as [He <-]. assert (SlotState_enc s3 /\ ss_slot s3 = ss_slot s) as [He3 <-]
      by (subst s3 s2 s1; by destruct (exec_trail x)).
    subst s4. destruct fin; [|done]. split; [by apply exec_final_row_enc|apply (proj1 (exec_final_row_fields x s3))]. }
  refine (moves_bind _ _ _ _ _); [by apply replace_events_sane, exec_rows_of_slot|]. intros _.
  refine (moves_bind _ _ _ _ _).
  { destruct fin; [refine (moves_bind _ _ _ _ _); [|intros _; apply apply_finality_sane]|];
      refine (moves_do _ _ _); intros d d' E.
    - exact (meta_write_sound _ d d' (update_last_final_in slot) E).
    - exact (meta_write_sound _ d d' (update_last_candidate_in slot) E). }
  intros _. apply (exec_ops_then x fin slot); [exact Hat4|]. intros s5 Hat5.
  refine (moves_bind _ _ _ _ _); [moves_step; by apply exec_pool_sane|]. intros _.
  refine (moves_bind _ _ _ _ _); [eapply put_slot_sane; [exact Hs|exact (at_slot_le _ _ _ (touch_step now s5) Hat5)]|].
  intros _. refine (moves_bind _ _ _ _ _); [moves_step; by apply parent_stub_sane|]. intros _. repeat moves_step.
Qed.
Lemma complete_final_sane slot s x now :
  Slot_ok slot -> at_slot slot s -> (Z.of_nat (length (xo_events x)) < 2 ^ 32)%Z ->
  opt_wf (fun sc => Forall pool_change_typed (sc_async_pool_changes sc)) (xo_state_changes x) ->
  sane (complete_final_exec_from_node s x now).
Proof.
  intros Hs Hat Hl Hp. unfold complete_final_exec_from_node. cbv zeta. destruct Hat as [He <-].
  refine (moves_bind _ _ _ _ _); [by apply replace_events_sane, exec_rows_of_slot|]. intros _.
  apply (exec_ops_then x true (ss_slot s)).
  { by destruct (ss_execution_trail_hash s). }
  intros s3 Hat3. refine (moves_bind _ _ _ _ _); [by apply exec_pool_sane|]. intros _.
  refine (moves_bind _ _ _ _ _); [apply apply_finality_sane|]. intros _.
  refine (moves_bind _ _ _ _ _); [|intros _; moves_step].
  eapply put_slot_sane; [exact Hs|exact (at_slot_le _ _ _ (touch_step now s3) Hat3)].
Qed.
Lemma handle_exec_sane out now : exec_typed out -> sane (handle_exec out now).
Proof.
  intros Ht. unfold handle_exec. apply moves_bind_val; [apply _|apply (moves_lift _)|].
  intros x (w & w' & Hx). injection Hx as Hx _. apply ok_or_ok in Hx.
  unfold exec_typed in Ht. rewrite Hx in Ht. destruct Ht as (Hts & Hl & Hp).
  apply moves_bind_val; [apply _|apply (moves_lift _)|].
  intros sp (w1 & w1' & Hsp). injection Hsp as Hsp _. apply ok_or_ok in Hsp. rewrite Hsp in Hts.
  assert (Slot_ok (node_slot sp)) as Hs by by apply node_slot_ok.
  assert (forall fin, sane (s ← read_slot_or_fresh (node_slot sp) now;
     if bool_decide (ss_status s = SlotFinal) then
       when (fin && completes_final s x) (complete_final_exec_from_node s x now)
     else apply_exec (node_slot sp) x fin s now)) as Hgo.
  { intros fin. apply read_slot_sane; [exact Hs|]. intros s Hat. case_bool_decide.
    - moves_step. by eapply complete_final_sane.
    - by apply apply_exec_sane. }
  destruct (frame_status out); [moves_step|exact (Hgo false)|exact (Hgo true)|moves_step].
Qed.

Definition transfers_typed (resp : TransfersResponse) : Prop := opt_wf (frame_ok resp) (tr_resp_slot resp).
Lemma handle_transfers_sane resp now : transfers_typed resp -> sane (handle_transfers resp now).
Proof.
  intros Ht. unfold handle_transfers. apply moves_bind_val; [apply _|apply (moves_lift _)|].
  intros sp (w & w' & Hsp). injection Hsp as Hsp _. apply ok_or_ok in Hsp.
  unfold transfers_typed in Ht. rewrite Hsp in Ht. cbn [opt_wf] in Ht.
  assert (Slot_ok (node_slot sp)) as Hs by (destruct Ht as (_ & ? & _); by apply node_slot_ok).
  apply moves_assoc. refine (moves_bind _ _ _ _ _); [exact (rewrite_transfers_sane _ _ Hs (frame_rows_wf resp sp now Ht))|].
  intros _. refine (moves_bind _ _ _ _ _); [by apply reconcile_async_sane|].
  intros _. refine (moves_bind _ _ _ _ _); [by apply reconcile_deferred_sane|].
  intros _. apply (moves_read_at _). intros d o sse E Hsd.
  assert (forall s, at_slot (node_slot sp) s -> sound (w_db ((put_slot s;; broadcast (SlotUpdated s)) (mkWorld d sse)).2)) as Hput.
  { intros s Hat. assert (sane (put_slot s;; broadcast (SlotUpdated s))) as Hm; [|by apply Hm].
    refine (moves_bind _ _ _ _ _); [by eapply put_slot_sane|intros _; moves_step]. }
  destruct o as [s|].
  - apply read_slot_Some in E. assert (at_slot (node_slot sp) s) as Hat.
    { eapply slot_origin_own; [apply Hsd|done|by left]. }
    case_match; [exact Hsd|]. apply Hput. eapply at_slot_le, Hat.
    etransitivity; [apply mark_transfers_step|apply touch_step].
  - apply Hput. eapply at_slot_le, (fresh_at_slot _ now), Hs. apply mark_transfers_step.
Qed.

(** ** Patches *)
Lemma patch_slot resp t : u8_try_from (fr_thread resp) = Some t -> mkSlot (fr_period resp) t = response_slot resp.
Proof.
  intros Ht. apply u8_try_from_Some in Ht as [-> Ht]. unfold response_slot, as_u8, u8_ok in *.
  by rewrite Z.mod_small by lia.
Qed.
Lemma response_slot_ok resp : u64_ok (fr_period resp) -> Slot_ok (response_slot resp).
Proof. intros Hp. split; [exact Hp|apply as_u8_range]. Qed.
Lemma block_phase_sane resp now ph : response_typed resp -> sane (legacy_block_phase resp now ph) /\ sane (peer_block_phase resp now ph).
Proof.
  intros Ht. destruct ph as [s out]. unfold legacy_block_phase, peer_block_phase.
  split; repeat (moves_step || by apply block_part_sane).
Qed.
(** A step that also hands on the slot's row. *)
Lemma phase_then {B} slot (ph : Phase) (m : ST World Phase) (k : Phase -> ST World B) :
  phase_step fst ph.1 m -> sane m -> at_slot slot ph.1 -> (forall ph', at_slot slot ph'.1 -> sane (k ph')) -> sane (m ≫= k).
Proof.
  intros [_ Hv] Hm Hat Hk. apply moves_bind_val; [apply _|exact Hm|]. intros ph' (w & w' & E).
  apply Hk. eapply at_slot_le; [by eapply Hv|exact Hat].
Qed.

(** A peer's answer: typed, its rows in the slot it is about, numbered apart. *)
Definition peer_typed (resp : FinalSlotResponse) : Prop :=
  response_typed resp /\ rows_of_slot (response_slot resp) (decoded_events resp) /\
  rows_of_slot (response_slot resp) (decoded_transfers resp).
Lemma peer_parts_sane resp now ph :
  peer_typed resp -> at_slot (response_slot resp) ph.1 -> sane (peer_parts resp (response_slot resp) now ph).
Proof.
  intros (Ht & Hev & Htr) Hat. assert (Slot_ok (response_slot resp)) as Hs by (apply response_slot_ok, Ht).
  unfold peer_parts. refine (moves_bind _ _ _ _ _); [moves_step; apply bump_sane|]. intros _.
  apply (phase_then (response_slot resp) ph); [apply peer_block_phase_step|by apply block_phase_sane|exact Hat|].
  intros ph2 Hat2. apply (phase_then (response_slot resp) ph2); [apply peer_exec_phase_step| |exact Hat2|].
  { destruct ph2 as [s2 out2]. unfold peer_exec_phase. destruct Ht as (_ & _ & _ & _ & Ham & _).
    repeat (moves_step || by apply exec_part_sane). }
  intros ph3 Hat3. apply (phase_then (response_slot resp) ph3); [apply peer_transfers_phase_step| |exact Hat3|].
  { destruct ph3 as [s3 out3]. unfold peer_transfers_phase. destruct Ht as (_ & _ & _ & _ & _ & Hdc).
    repeat (moves_step || by apply transfers_part_sane). }
  intros [s4 out4] Hat4. refine (moves_bind _ _ _ _ _); [apply apply_finality_sane|]. intros _.
  apply (settle_sane (response_slot resp)); [exact Hs| |repeat moves_step].
  exact (at_slot_le _ _ _ (touch_step now s4) Hat4).
Qed.
Lemma peer_verdict_sane resp slot s : Slot_ok (ss_slot s) -> sane (peer_verdict resp slot s).
Proof. intros Hs. unfold peer_verdict. repeat (moves_step || by apply adopt_sane). Qed.
Lemma apply_peer_sane resp now : peer_typed resp -> sane (apply_peer_patch resp now).
Proof.
  intros Ht. unfold apply_peer_patch. destruct (u8_try_from _) as [t|] eqn:Eth; [|moves_step].
  rewrite (patch_slot resp t Eth). assert (Slot_ok (response_slot resp)) as Hs by (apply response_slot_ok, (proj1 Ht)).
  case_match; [moves_step|]. apply read_slot_sane; [exact Hs|]. intros s Hat.
  apply moves_bind_val; [apply _|apply peer_verdict_sane; by rewrite (proj2 Hat)|].
  intros v (w & w' & E). apply (peer_verdict_step (fun _ => True)) in E; [|done].
  assert (at_slot (response_slot resp) (step_row v)) as Hat2.
  { eapply at_slot_step, Hat. eapply slot_step_mono, E. by intros a b []. }
  destruct v as [ph|[s1 out]]; [by apply peer_parts_sane|].
  refine (moves_bind _ _ _ _ _); [|intros _; moves_step].
  eapply put_slot_sane; [exact Hs|exact (at_slot_le _ _ _ (touch_step now s1) Hat2)].
Qed.
Lemma apply_forced_sane resp now : u64_ok (fr_period resp) -> sane (apply_forced_verdict resp now).
Proof.
  intros Hp. unfold apply_forced_verdict. destruct (u8_try_from _) as [t|] eqn:Eth; [|moves_step].
  rewrite (patch_slot resp t Eth). pose proof (response_slot_ok resp Hp) as Hs.
  apply read_slot_sane; [exact Hs|]. intros s Hat.
  refine (moves_bind _ _ _ _ _); [apply (moves_lift _)|]. intros target. case_bool_decide; [moves_step|].
  apply moves_bind_val; [apply _|apply adopt_sane; by rewrite (proj2 Hat)|].
  intros s1 (w & w' & ->%adopt_at). refine (moves_bind _ _ _ _ _); [apply apply_finality_sane|]. intros _.
  refine (moves_bind _ _ _ _ _); [|intros _; repeat moves_step].
  eapply put_slot_sane; [exact Hs|]. eapply at_slot_step, Hat.
  destruct (adopted_step resp (non_empty_string (fr_execution_trail_hash resp)) s) as [(K & Kr & Kc & Kt) He].
  split; [|exact He]. split_and!; try done. cbn. destruct (ss_status s); cbn; lia.
Qed.

(** A legacy patch writes its transfers without wiping the slot: none may replace a
    stored one with other index rows. *)
Definition legacy_typed d (resp : FinalSlotResponse) : Prop :=
  response_typed resp /\ Forall sr_wf (decoded_transfers resp) /\ NoDup (sr_key <$> decoded_transfers resp) /\
  forall t, t ∈ decoded_transfers resp -> may_replace d t.
(** From [I] to [sound], whatever the outcome. *)
Definition ends_sound (I : DB -> Prop) {A} (m : ST World A) : Prop := forall w, I (w_db w) -> sound (w_db (m w).2).
Lemma ends_bind (I J : DB -> Prop) {A B} (m : ST World A) (k : A -> ST World B) :
  (forall w, I (w_db w) -> J (w_db (m w).2)) -> (forall d, J d -> sound d) ->
  (forall a, (exists w w', I (w_db w) /\ m w = (Ok a, w')) -> ends_sound J (k a)) -> ends_sound I (m ≫= k).
Proof.
  intros Hm HJ Hk w Hw. pose proof (Hm w Hw) as Hw'. unfold mbind, ST_bind.
  destruct (m w) as [[a|e] w'] eqn:E; [|by apply HJ]. apply Hk; [by exists w, w'|exact Hw'].
Qed.
Section legacy.
Context (resp : FinalSlotResponse) (now : Z).
Definition room d : Prop := sound d /\ forall t, t ∈ decoded_transfers resp -> may_replace d t.
Lemma room_sound d : room d -> sound d.
Proof. by intros []. Qed.
Lemma room_kept {A} (m : ST World A) w :
  sane m -> moves (same_cf CF_TRANSFER) m -> room (w_db w) -> room (w_db (m w).2).
Proof.
  intros Hm Hs [Hsd Hr]. split; [by apply Hm|]. intros t Ht ck. rewrite (keys_at_same _ (w_db w)); [by apply Hr|].
  apply Hs.
Qed.
Lemma legacy_transfers_sound ph :
  Forall sr_wf (decoded_transfers resp) -> NoDup (sr_key <$> decoded_transfers resp) ->
  ends_sound room (legacy_transfers_phase resp ph).
Proof.
  intros Hw Hn w [Hsd Hr]. destruct ph as [s out]. unfold legacy_transfers_phase.
  destruct (slot_writes_exact transfer_cfs (w_db w) (decoded_transfers resp)) as (d' & E & Hex); [|done..|].
  { exact (proj1 (exact_families _) (proj2 Hsd) FTransfer). }
  assert (each_decoded transfer_from_peer_pb put_transfer (fr_transfers resp) w = (Ok tt, mkWorld d' (w_sse w))) as Er.
  { rewrite each_decoded_omap. exact (put_transfers_run _ w _ E). }
  rewrite (bind_run _ _ _ _ _ Er).
  refine (run_sound FTransfer _ w _ d' _ Er _ Hex Hsd). intros c Hc. unfold put_transfer. frame.
Qed.
Lemma block_phase_transfers ph : moves (same_cf CF_TRANSFER) (legacy_block_phase resp now ph).
Proof. destruct ph. unfold legacy_block_phase. repeat (keeps_piece || moves_step). Qed.
Lemma room_bind {A B} (m : ST World A) (k : A -> ST World B) :
  sane m -> moves (same_cf CF_TRANSFER) m ->
  (forall a, (exists w w', room (w_db w) /\ m w = (Ok a, w')) -> ends_sound room (k a)) -> ends_sound room (m ≫= k).
Proof. intros Hm Hs. apply ends_bind; [intros w; by apply room_kept|exact room_sound]. Qed.
Lemma legacy_tail_sane slot s out :
  Slot_ok slot -> at_slot slot s ->
  sane (when (exec_output_final (ss_completeness s) && block_body_stored (ss_completeness s))
          (apply_finality_to_blocks (ss_final_block_id s) (ss_candidate_block_ids s)) ;;
        put_slot (touch now s) ;; ensure_parent_stub slot now ;; broadcast (SlotUpdated (touch now s)) ;;
        mret (out : PatchOutcome)).
Proof.
  intros Hs Hat. refine (moves_bind _ _ _ _ _); [moves_step; apply apply_finality_sane|]. intros _.
  apply (settle_sane slot); [exact Hs|exact (at_slot_le _ _ _ (touch_step now s) Hat)|repeat moves_step].
Qed.
Lemma apply_legacy_sound w : legacy_typed (w_db w) resp -> sound (w_db w) -> sound (w_db (apply_legacy_patch resp now w).2).
Proof.
  intros (Ht & Hw & Hn & Hr) Hsd. unfold apply_legacy_patch. destruct (u8_try_from _) as [t|] eqn:Eth; [|exact Hsd].
  rewrite (patch_slot resp t Eth). assert (Slot_ok (response_slot resp)) as Hs by (apply response_slot_ok, Ht).
  case_match; [exact Hsd|]. assert (room (w_db w)) as Hroom by done. clear Hr Hsd. revert w Hroom.
  match goal with |- forall w, _ -> sound (w_db (?m w).2) => change (ends_sound room m) end.
  apply room_bind; [unfold read_slot_or_fresh; repeat moves_step..|]. intros s (w & w' & Hroom & E).
  apply read_slot_or_fresh_at in E as [_ Ho].
  assert (at_slot (response_slot resp) s) as Hat by (eapply slot_origin_own; [apply Hroom|exact Hs|exact Ho]).
  pose proof (legacy_verdict_step resp s) as Hv. destruct (legacy_verdict resp s) as [s1 out1].
  assert (at_slot (response_slot resp) s1) as Hat1 by by eapply at_slot_le.
  apply room_bind; [moves_step; apply bump_sane|moves_step; apply bump_keeps; cf_notin|]. intros _ _.
  apply room_bind; [by apply block_phase_sane|apply block_phase_transfers|]. intros ph2 (w2 & w2' & _ & E2).
  assert (at_slot (response_slot resp) ph2.1) as Hat2.
  { eapply at_slot_le, Hat1. by eapply (proj2 (legacy_block_phase_step resp now (s1, out1))). }
  apply (ends_bind room sound); [by apply legacy_transfers_sound|done|]. intros [s4 out4] (w3 & w3' & _ & E3).
  apply legacy_tail_sane; [exact Hs|]. eapply at_slot_le; [|eapply at_slot_le; [apply (legacy_ops_step resp ph2)|exact Hat2]].
  exact (proj2 (legacy_transfers_phase_step resp (legacy_ops_phase resp ph2)) _ _ _ E3).
Qed.
End legacy.

(** ** One event *)
(** What an event must satisfy at the store it meets. *)
Definition event_typed d (ev : Event) : Prop :=
  match ev with
  | EvBlock fb => block_typed fb
  | EvExec out => exec_typed out
  | EvTransfers resp => transfers_typed resp
  | EvPeerPatch resp => peer_typed resp
  | EvLegacyPatch resp => legacy_typed d resp
  | EvForcedVerdict resp => u64_ok (fr_period resp)
  | EvTick => True
  end.
Lemma handle_sound ev now_ms w : event_typed (w_db w) ev -> sound (w_db w) -> sound (w_db (handle ev now_ms w)).
Proof.
  intros Ht Hsd. unfold handle. destruct ev; cbn [dispatch event_typed] in *; rewrite ?drop_result.
  - by apply handle_block_sane.
  - by apply handle_exec_sane.
  - by apply handle_transfers_sane.
  - by apply apply_peer_sane.
  - by apply apply_legacy_sound.
  - by apply apply_forced_sane.
  - exact Hsd.
Qed.

(** The verification passes on a store with exact indexes. *)
Lemma exact_verifies d max_issues meta :
  indexes_exact d -> read_meta d = Ok (Some meta) ->
  exists r, verify d max_issues = Ok r /\ VerifyReport_ok r = true /\ vr_issues r = [].
Proof.
  intros [Hok Hidx] Hm. destruct (verify_reports d max_issues (Some meta) Hm) as (r & Hr & _ & Ht & Hi).
  exists r. split; [exact Hr|]. unfold VerifyReport_ok. rewrite Ht, Hi.
  rewrite (proj2 (all_issues_nil d (Some meta))); [by destruct max_issues|].
  split; [done|]. intros c k v Hc Hg. apply (wanted_reason d d c k Hok); [by intros|exact Hc|].
  apply Hidx; [exact Hc|]. by exists v.
Qed.

End handlers.

Section writer.
Context `{Bs58, Base64, HexCrate, ProstStorage, RocksDB, DenunciationDigest, NodeEncode}.

(** C4. The writer keeps every secondary index exact. Along every execution, whatever the
    producers send and however often the lanes preempt each other, as long as each
    handled event is typed (its integers are what its protobuf fields hold, the rows of an
    answer are numbered apart inside its slot, a legacy patch replaces no stored
    transfer by one with other index rows), and whether the handlers succeed or fail:
    every stored row still decodes and stands where the code puts it, each secondary
    index holds a row for a key exactly when a stored row calls for it, and the
    operator's verification passes. *)
Theorem writer_keeps_indexes_exact i i' :
  (forall b, hex_crate_encode b = hex_encode b) ->
  execution (fun w ev => event_typed (w_db w) ev) i i' ->
  slots_own (w_db (ig_world i)) -> indexes_exact (w_db (ig_world i)) ->
  let d := w_db (ig_world i') in
  slots_own d /\ primaries_ok d /\
  (forall c k, c ∈ SECONDARY_INDEX_CFS -> is_Some (get_cf d c k) <-> wanted d (c, k)) /\
  (forall max_issues meta, read_meta d = Ok (Some meta) ->
     exists r, verify d max_issues = Ok r /\ VerifyReport_ok r = true /\ vr_issues r = []).
Proof.
  intros Hx X Hown Hex d.
  assert (sound d) as [Hown' Hex'].
  { apply (execution_keeps (fun w => sound (w_db w)) _ _ _) in X; [exact X| |by split].
    intros w ev now_ms Ht. by apply (handle_sound Hx). }
  split_and!; [exact Hown'|apply Hex'|apply Hex'|]. intros max_issues meta. by apply exact_verifies.
Qed.
End writer.

Section client.
Context `{Bs58, Base64, HexCrate, ProstStorage, RocksDB, UrlBase64}.
Context (cfg : Config) (d : DB).
Implicit Types (o : StoredOperation) (a : Address) (c : Cf).

(** An operation is listed under its creator and its target, at the slot it was
    first included in. *)
Definition op_stored o : Prop := read_op d (op_id o) = Ok (Some o).
Definition op_hit o : option (Z * Z * bytes) :=
  first ← head (op_inclusions o);
  Some (slot_period (inc_slot first), slot_thread (inc_slot first), id_as_bytes (op_id o)).
Definition op_owner c o : option Address :=
  if decide (c = IDX_OP_BY_CREATOR) then Some (op_creator o) else op_target o.
(** First included in a later slot, or in the same one with a smaller id. *)
Definition op_newer o o' : Prop :=
  exists h h', op_hit o = Some h /\ op_hit o' = Some h' /\ hit_newer h h'.

Lemma elem_of_op_keys c k o : c ∈ [IDX_OP_BY_CREATOR; IDX_OP_BY_TARGET] ->
  (c, k) ∈ op_keys o <->
  exists a p t id, op_owner c o = Some a /\ op_hit o = Some (p, t, id) /\
    k = idx_addr_slot_id (addr_as_bytes a) p t id.
Proof.
  intros Hc. unfold op_keys, op_hit, op_owner. destruct (op_inclusions o) as [|i l]; cbn [head].
  { split; [by intros ?%not_elem_of_nil|]. naive_solver. }
  rewrite elem_of_cons. rewrite !elem_of_cons, elem_of_nil in Hc.
  destruct Hc as [->|[->|[]]]; [rewrite decide_True by done|rewrite decide_False by done].
  - split; [intros [[= ->]|Hin]; [by repeat eexists|]|].
    + destruct (op_target o); [|by apply not_elem_of_nil in Hin]. by apply list_elem_of_singleton in Hin.
    + intros (a & p & t & id & [= <-] & [= <- <- <-] & ->). by left.
  - split; [intros [?|Hin]; [done|]|].
    + destruct (op_target o) as [a|]; [|by apply not_elem_of_nil in Hin].
      apply list_elem_of_singleton in Hin as [= ->]. by repeat eexists.
    + intros (a & p & t & id & -> & [= <- <- <-] & ->). right. by apply list_elem_of_singleton.
Qed.

Lemma op_stored_raw o : op_stored o ->
  exists raw, get_cf d CF_OP (id_as_bytes (op_id o)) = Some raw /\ decode_operation raw = Ok o.
Proof.
  unfold op_stored, read_op, Db.read_row. destruct (get_cf d CF_OP _) as [raw|]; [|done].
  destruct (decode_operation raw) as [o'|] eqn:Ed; [|done]. intros [= ->]. by exists raw.
Qed.
Lemma op_stored_id o : indexes_exact d -> op_stored o -> Id_wf (op_id o).
Proof.
  intros Hex (raw & Hg & Ed)%op_stored_raw. destruct (proj1 (exact_families d) Hex FOp) as [Hok _].
  destruct (Hok _ raw Hg) as (o' & Ed' & Hw). cbn in Ed', Hw. rewrite Ed in Ed'. injection Ed' as <-. apply Hw.
Qed.
Lemma op_hit_id o p t id : op_hit o = Some (p, t, id) -> id = id_as_bytes (op_id o).
Proof. unfold op_hit. destruct (op_inclusions o); [done|]. by intros [= _ _ <-]. Qed.

(** The rows of an address in an exact index are its operations. *)
Lemma op_hits c a p t id : c ∈ [IDX_OP_BY_CREATOR; IDX_OP_BY_TARGET] -> indexes_exact d -> Address_enc a ->
  (u64_ok p /\ u8_ok t /\ length id = ID_KEY_LEN /\
   is_Some (get_cf d c (idx_addr_slot_id (addr_as_bytes a) p t id))) <->
  exists o, op_stored o /\ op_owner c o = Some a /\ op_hit o = Some (p, t, id).
Proof.
  intros Hc Hex Ha. destruct (proj1 (exact_families d) Hex FOp) as [Hok Hidx].
  assert (c ∈ op_cfs /\ c ∈ SECONDARY_INDEX_CFS) as [Hop Hsec].
  { revert c Hc. apply (Forall_forall (fun c => c ∈ op_cfs /\ c ∈ SECONDARY_INDEX_CFS)). by_decision. }
  rewrite (Hidx c _ Hop Hsec). unfold called_for. cbn [ix_cf ix_decode ix_keys op_indexed]. split.
  - intros (Hp & Ht & Hid & k & raw & o & Hg & Ed & Hk). destruct (Hok k raw Hg) as (o' & Ed' & Hw).
    cbn in Ed', Hw. rewrite Ed in Ed'. injection Ed' as <-. destruct Hw as (_ & -> & Hi & Hs & Hcr & Htg).
    apply (elem_of_op_keys c _ o Hc) in Hk as (a' & p' & t' & id' & Ho & Hh & E).
    exists o. split; [unfold op_stored, read_op, Db.read_row; by rewrite Hg, Ed|].
    assert (Address_enc a') as Ha'.
    { unfold op_owner in Ho. case_decide; [by injection Ho as <-|]. unfold opt_wf in Htg. by rewrite Ho in Htg. }
    assert (u64_ok p' /\ u8_ok t') as [Hp' Ht'].
    { unfold op_hit in Hh. destruct Hs as [|i l Hi' _]; [done|]. cbn in Hh. injection Hh as <- <- _. exact Hi'. }
    apply idx_addr_slot_id_inj in E as (Ea & <- & <- & <-); [|apply Ha|apply Ha'|done..].
    assert (a = a') as <-; [|done]. apply Address_from_key_bytes_of_wf in Ha, Ha'. unfold addr_as_bytes in Ea.
    rewrite Ea in Ha. congruence.
  - intros (o & (raw & Hg & Ed)%op_stored_raw & Ho & Hh).
    destruct (Hok _ raw Hg) as (o' & Ed' & Hw). cbn in Ed', Hw. rewrite Ed in Ed'. injection Ed' as <-.
    destruct Hw as (_ & _ & [Hid _] & Hs & _ & _). pose proof Hh as Hh'. unfold op_hit in Hh'.
    destruct (op_inclusions o) as [|i l] eqn:Ei; [done|]. cbn in Hh'. injection Hh' as <- <- <-.
    apply Forall_cons in Hs as [[Hp Ht] _]. split_and!; [done..|].
    exists (id_as_bytes (op_id o)), raw, o. split_and!; [done..|]. apply elem_of_op_keys; [done|]. by repeat eexists.
Qed.

(** The operations of an address's index rows, read in turn. *)
Lemma read_hits c a hits : c ∈ [IDX_OP_BY_CREATOR; IDX_OP_BY_TARGET] -> indexes_exact d -> Address_enc a ->
  lists_index d c a hits ->
  exists L, read_each (read_op d) (hit_ops hits) = Ok L /\ StronglySorted op_newer L /\
    forall o, o ∈ L <-> op_stored o /\ op_owner c o = Some a /\ op_inclusions o <> [].
Proof.
  intros Hc Hex Ha [Hs Hin].
  assert (exists L, Forall2 (fun h o => op_stored o /\ op_owner c o = Some a /\ op_hit o = Some h) hits L)
    as [L HL].
  { assert (forall h, h ∈ hits -> exists o, op_stored o /\ op_owner c o = Some a /\ op_hit o = Some h) as Hall.
    { intros [[p t] id] Hh. by apply op_hits, Hin. }
    clear -Hall. induction hits as [|h hits IH]; [by exists []|].
    destruct (Hall h) as [o Ho]; [by left|]. destruct IH as [L HL]; [intros; apply Hall; by right|].
    exists (o :: L). by constructor. }
  exists L. split_and!.
  - clear Hs Hin. induction HL as [|[[p t] id] o hits L (Hst & Ho & Hh) _ IH]; [done|].
    apply op_hit_id in Hh as ->.
    assert (hit_ops ((p, t, id_as_bytes (op_id o)) :: hits) = op_id o :: hit_ops hits) as ->.
    { unfold hit_ops, OperationId_from_key_bytes, id_as_bytes. cbn.
      by rewrite id_from_key_bytes_of_wf by by apply op_stored_id. }
    cbn [read_each]. rewrite Hst, IH. done.
  - clear Hin. induction HL as [|h o hits L (_ & _ & Hh) HL IH]; [constructor|].
    apply StronglySorted_inv in Hs as [Hs Hlt]. constructor; [by apply IH|]. apply Forall_forall.
    intros o' (i & Hi)%list_elem_of_lookup. destruct (Forall2_lookup_r _ _ _ _ _ HL Hi) as (h' & Hh' & _ & _ & E).
    exists h, h'. split_and!; [done..|]. rewrite Forall_forall in Hlt. apply Hlt. by eapply list_elem_of_lookup_2.
  - intros o. split.
    + intros (i & Hi)%list_elem_of_lookup. destruct (Forall2_lookup_r _ _ _ _ _ HL Hi) as (h & _ & ? & ? & E).
      split_and!; [done..|]. intros E'. unfold op_hit in E. by rewrite E' in E.
    + intros (Hst & Ho & Hne). destruct (op_hit o) as [[[p t] id]|] eqn:Hh.
      2: { unfold op_hit in Hh. by destruct (op_inclusions o). }
      assert ((p, t, id) ∈ hits) as Hh' by (apply Hin, op_hits; eauto).
      apply list_elem_of_lookup in Hh' as (i & Hi).
      destruct (Forall2_lookup_l _ _ _ _ _ HL Hi) as (o' & Ho' & Hst' & _ & E').
      assert (op_id o = op_id o') as Eid.
      { apply Id_wf_inj; [by apply op_stored_id..|]. apply op_hit_id in Hh, E'. unfold id_as_bytes in *. congruence. }
      assert (o = o') as ->; [|by eapply list_elem_of_lookup_2]. unfold op_stored in *. rewrite Eid in Hst. congruence.
Qed.

Lemma newer_ids L : indexes_exact d -> Forall op_stored L -> StronglySorted op_newer L -> NoDup (op_id <$> L).
Proof.
  intros Hex. induction L as [|o L IH]; intros Hst Hs; [constructor|].
  apply Forall_cons in Hst as [Ho Hst]. apply StronglySorted_inv in Hs as [Hs Hlt]. rewrite fmap_cons. constructor; [|by apply IH].
  intros (o' & E & Hin)%list_elem_of_fmap. rewrite Forall_forall in Hlt, Hst.
  assert (o = o') as <- by (specialize (Hst _ Hin); unfold op_stored in *; rewrite E in Ho; congruence).
  destruct (Hlt _ Hin) as ([[p t] id] & h' & E1 & E2 & Hh). rewrite E1 in E2. injection E2 as <-.
  destruct Hh as [Hh|[_ Hh]]; [|by apply bytes_lt_irrefl in Hh].
  revert Hh. unfold slot_cmp. cbn. by rewrite !Z.compare_refl.
Qed.

(** C28. A client that lists the slots, with any page size, and follows the cursors it
    is handed, is given every stored slot exactly once, newest first. On a store
    whose indexes are exact (as C4 shows the writer keeps them), one that lists an
    address's operations, or those sent to it, is given every stored operation of
    that creator, or target, that a block has included, exactly once, by the slot of
    its first inclusion, newest first. Cursors survive the client's hands, the
    limit asked changes only the cut of the pages, and the chain of pages ends. *)
Theorem client_pages_complete limit fuel :
  slot_family_ok d -> indexes_exact d -> (forall c, length (iterator_cf d c Start) < fuel) ->
  (exists L, follow_pages fuel (fun p => slots_range cfg d (mkSlotsRangeQ None None p)) limit None = Some (Ok L) /\
     StronglySorted slot_newer L /\
     (forall s, s ∈ L <->
        read_slot d (slot_period (ss_slot s)) (slot_thread (ss_slot s)) = Ok (Some s) /\
        Slot_ok (ss_slot s) /\ (slot_thread (ss_slot s) <= 31)%Z)) /\
  (forall addr a, Address_parse addr = Ok a ->
     (exists L, follow_pages fuel (fun p => ops_by_addr cfg d addr (mkRoleQ None p)) limit None = Some (Ok L) /\
        StronglySorted op_newer L /\ NoDup (op_id <$> L) /\
        forall o, o ∈ L <-> op_stored o /\ op_creator o = a /\ op_inclusions o <> []) /\
     (exists L, follow_pages fuel (received_ops_by_addr cfg d addr) limit None = Some (Ok L) /\
        StronglySorted op_newer L /\ NoDup (op_id <$> L) /\
        forall o, o ∈ L <-> op_stored o /\ op_target o = Some a /\ op_inclusions o <> [])).
Proof.
  intros Hok Hex Hfuel. split; [by apply slots_followed|].
  intros addr a Ha. pose proof (addr_key_length a addr Ha) as Hlen.
  assert (Address_enc a) as He by (apply Address_wf_enc; by eapply Address_parse_wf).
  assert (forall c handler, c ∈ [IDX_OP_BY_CREATOR; IDX_OP_BY_TARGET] ->
    (forall p, handler p =
       paged_ids cfg p (scan_prefix_forward_ids OperationId_from_key_bytes d c (addr_as_bytes a)) (read_op d)) ->
    exists L, follow_pages fuel handler limit None = Some (Ok L) /\
      StronglySorted op_newer L /\ NoDup (op_id <$> L) /\
      forall o, o ∈ L <-> op_stored o /\ op_owner c o = Some a /\ op_inclusions o <> []) as Hgo.
  { intros c handler Hc Hh. destruct (ops_followed cfg d c a limit fuel handler) as (hits & -> & Hl); [done..|].
    destruct (read_hits c a hits Hc Hex He Hl) as (L & -> & Hs & Hin). exists L. split_and!; try done.
    apply newer_ids; [done| |done]. apply Forall_forall. intros o Ho. by apply Hin. }
  split.
  - destruct (Hgo IDX_OP_BY_CREATOR (fun p => ops_by_addr cfg d addr (mkRoleQ None p))) as (L & Hf & Hs & Hn & Hin);
      [set_solver|intros p; unfold ops_by_addr; by rewrite Ha|].
    exists L. split_and!; try done. intros o. rewrite Hin. unfold op_owner. cbn. naive_solver.
  - destruct (Hgo IDX_OP_BY_TARGET (received_ops_by_addr cfg d addr)) as (L & Hf & Hs & Hn & Hin);
      [set_solver|intros p; unfold received_ops_by_addr; by rewrite Ha|].
    exists L. by split_and!.
Qed.
End client.
