(* ===== verification/RepairProps.v ===== *)
(** * What the repair tasks guarantee

    Reconstruction rebuilds exactly the coin transfers of the slot's executed
    transactions; a checkpoint never runs ahead of the work it stands for; both
    walks end and cover their range. *)

From S2P Require Import Prelude Text Ids Keys Model Proto Codec Store Db.
From S2P Require Import NodeMsg World Reconcile Arbiter Task Registry PeerService Client Backfill.
From S2P Require Import Ddb LegacyDecode LegacySource Repair.

Section repair.
Context `{Bs58, Base64, HexCrate, ProstStorage, RocksDB}.
Implicit Types (cfg : ReconstructConfig).

(** ** One slot *)
(** The operations a transfer can be rebuilt from. *)
Definition moves_coins (op : StoredOperation) : Prop :=
  op_kind op = OpTransaction /\ op_final_exec_status op = Some ExecOk /\
  exists amount to, od_amount_nmas (op_details op) = Some amount /\ amount <> 0%Z /\
    od_recipient_address (op_details op) = Some to.
Definition coin_transfer (op : StoredOperation) (slot : Slot) (bid : string) (i ts : Z)
    (t : StoredTransfer) : Prop :=
  exists amount to, od_amount_nmas (op_details op) = Some amount /\
    od_recipient_address (op_details op) = Some to /\
    t = {| tr_slot := slot; tr_index_in_slot := i;
           tr_id := id_to_string (op_id op) +:+ ":" +:+ dec i;
           tr_block_id := Some bid; tr_block_timestamp_ms := ts;
           tr_from := Some (addr_to_string (op_creator op)); tr_to := Some to;
           tr_value := TVCoins amount; tr_origin := OpTransactionCoins;
           tr_operation_id := Some (id_to_string (op_id op));
           tr_async_msg_id := None; tr_deferred_call_id := None; tr_denunciation_index := None;
           tr_is_final := true; tr_first_seen_ts_ms := ts |}.
(** [ops] are, in order, the operations of [ids] that moved coins. *)
Inductive movers (d : DB) : list OperationId -> list StoredOperation -> Prop :=
| movers_nil : movers d [] []
| movers_skip id ids ops :
    (forall op, read_op d id = Ok (Some op) -> ~ moves_coins op) ->
    movers d ids ops -> movers d (id :: ids) ops
| movers_take id ids op ops :
    read_op d id = Ok (Some op) -> moves_coins op -> movers d ids ops -> movers d (id :: ids) (op :: ops).

Lemma op_transfer_spec op slot bid i ts :
  executed_transaction op = true ->
  match legacy_op_to_transfer op slot bid i ts with
  | Some t => moves_coins op /\ coin_transfer op slot bid i ts t
  | None => ~ moves_coins op
  end.
Proof.
  unfold executed_transaction, legacy_op_to_transfer. rewrite andb_true_iff, !bool_decide_eq_true.
  intros [Hk Hs]. rewrite bool_decide_true by done. cbn [negb].
  destruct (od_amount_nmas (op_details op)) as [amount|] eqn:Ha; cbn;
    [|intros (_ & _ & ? & ? & E & _); congruence].
  destruct (Z.eqb_spec amount 0) as [->|Hne]; [intros (_ & _ & ? & ? & E & Hz & _); congruence|].
  destruct (od_recipient_address (op_details op)) as [to|] eqn:Ht; cbn;
    [|intros (_ & _ & ? & ? & _ & _ & E); congruence].
  split; [split_and!; [done..|by exists amount, to]|by exists amount, to].
Qed.
Lemma not_executed_no_move op : executed_transaction op = false -> ~ moves_coins op.
Proof.
  unfold executed_transaction. intros E (Hk & Hs & _). rewrite Hk, Hs in E.
  by rewrite !bool_decide_true in E by done.
Qed.
Definition numbered (slot : Slot) (bid : string) (ts i : Z) (op : StoredOperation)
    (pb : StoredTransferPb) : Prop :=
  exists t, coin_transfer op slot bid i ts t /\ transfer_to_peer_pb t = Some pb.
Lemma rebuilt_spec d slot bid ts i ids pbs :
  (0 <= i)%Z -> (i + Z.of_nat (length ids) < 2 ^ 32)%Z ->
  rebuilt d slot bid ts i ids = Ok pbs ->
  exists ops, movers d ids ops /\ length pbs = length ops /\
    forall k op pb, ops !! k = Some op -> pbs !! k = Some pb ->
      numbered slot bid ts (i + Z.of_nat k) op pb.
Proof.
  induction ids as [|id ids IH] in i, pbs |- *; cbn [rebuilt length]; intros Hi Hl.
  { intros [= <-]. exists []. split_and!; [constructor|done|]. intros k op pb E. by rewrite lookup_nil in E. }
  assert (Hskip : (forall op, read_op d id = Ok (Some op) -> ~ moves_coins op) ->
    rebuilt d slot bid ts i ids = Ok pbs ->
    exists ops, movers d (id :: ids) ops /\ length pbs = length ops /\
      forall k op pb, ops !! k = Some op -> pbs !! k = Some pb ->
        numbered slot bid ts (i + Z.of_nat k) op pb).
  { intros Hno E. destruct (IH i pbs) as (ops & Hm & Hlen & Hn); [lia..|done|].
    exists ops. split_and!; [by constructor|done..]. }
  destruct (read_op d id) as [[op|]|] eqn:Hr; cbn [mbind result_bind]; [|by apply Hskip|done].
  destruct (executed_transaction op) eqn:He; cbn [negb].
  2: { apply Hskip. intros op' [= <-]. by apply not_executed_no_move. }
  pose proof (op_transfer_spec op slot bid i ts He) as Hs.
  destruct (legacy_op_to_transfer op slot bid i ts) as [t|].
  2: { apply Hskip. by intros op' [= <-]. }
  destruct Hs as [Hmv Hct].
  destruct (transfer_to_peer_pb t) as [pb|] eqn:Hpb; cbn [expect ok_or]; [|done].
  unfold as_u32. rewrite Z.mod_small by lia.
  destruct (rebuilt d slot bid ts (i + 1) ids) as [rest|] eqn:Er; [|done]. intros [= <-].
  destruct (IH (i + 1)%Z rest) as (ops & Hm & Hlen & Hn); [lia..|done|].
  exists (op :: ops). split_and!; [by eapply movers_take|cbn; lia|].
  intros [|k] op' pb' E1 E2; simplify_eq/=.
  - exists t. by rewrite Z.add_0_r.
  - replace (i + Z.of_nat (S k))%Z with (i + 1 + Z.of_nat k)%Z by lia. by eapply Hn.
Qed.
Lemma movers_unique d ids ops ops' : movers d ids ops -> movers d ids ops' -> ops = ops'.
Proof.
  intros Hm. revert ops'. induction Hm as [|id ids ops Hno Hm IH|id ids op ops Hr Hmv Hm IH];
    intros ops' Hm'; inversion Hm' as [|? ? ? Hno' Hm2|? ? op' ? Hr' Hmv' Hm2]; subst; auto.
  - by destruct (Hno op').
  - by destruct (Hno' op).
  - rewrite Hr in Hr'. simplify_eq. f_equal. auto.
Qed.
(** A slot with something to rebuild: the operations that moved coins in it. *)
Definition to_rebuild (d : DB) (slot : Slot) (bid : string) (ops : list StoredOperation) : Prop :=
  exists s b, read_slot d (slot_period slot) (slot_thread slot) = Ok (Some s) /\
    lacks_transfers s = true /\ ss_final_block_id s = Some b /\ bid = id_to_string b /\
    (Z.of_nat (length (ss_executed_op_ids s)) < 2 ^ 32)%Z /\ movers d (ss_executed_op_ids s) ops.

(** C38. Reconstruction of a slot, when its reads succeed: there is a patch exactly
    when the slot is a FINAL non-miss with a block, without the node's transfer
    list, and one of its executed operations moved coins; the patch then carries
    one transfer per such operation, in execution order, numbered from zero, and
    nothing else. *)
Theorem reconstruct_slot_exact d cfg slot r :
  reconstruct_slot d cfg slot = Ok r ->
  match r with
  | None => forall bid ops, to_rebuild d slot bid ops -> ops = []
  | Some resp =>
      forall s, read_slot d (slot_period slot) (slot_thread slot) = Ok (Some s) ->
      (Z.of_nat (length (ss_executed_op_ids s)) < 2 ^ 32)%Z ->
      exists bid ops pbs, to_rebuild d slot bid ops /\ ops <> [] /\
        resp = transfers_patch slot bid pbs /\ length pbs = length ops /\
        forall k op pb, ops !! k = Some op -> pbs !! k = Some pb ->
          numbered slot bid (slot_timestamp_ms cfg slot) (Z.of_nat k) op pb
  end.
Proof.
  unfold reconstruct_slot, to_rebuild.
  destruct (read_slot d _ _) as [[s|]|]; cbn [mbind result_bind]; [| |done].
  2: { intros [= <-]. by intros bid ops (? & ? & ? & _). }
  destruct (lacks_transfers s) eqn:Hl; cbn [negb].
  2: { intros [= <-]. intros bid ops (s' & b & [= <-] & E & _). congruence. }
  destruct (ss_final_block_id s) as [b|] eqn:Hb.
  2: { intros [= <-]. intros bid ops (s' & b & [= <-] & _ & E & _). congruence. }
  destruct (rebuilt _ _ _ _ _ _) as [pbs|] eqn:Er; [|done]. cbn [mbind result_bind].
  case_bool_decide as Hnil; intros [= <-].
  - intros bid ops (s' & b' & [= <-] & _ & E & _ & Hlen & Hm). simplify_eq.
    destruct (rebuilt_spec _ _ _ _ _ _ _ (Z.le_refl 0) Hlen Er) as (ops' & Hm' & Hl' & _).
    rewrite (movers_unique _ _ _ _ Hm Hm'). by destruct ops'.
  - intros s' [= <-] Hlen.
    destruct (rebuilt_spec _ _ _ _ _ _ _ (Z.le_refl 0) Hlen Er) as (ops & Hm & Hlp & Hn).
    exists (id_to_string b), ops, pbs. split_and!; [by exists s, b| |done|done|done].
    intros ->. by destruct pbs.
Qed.

(** ** The reconstruction run *)
Section run.
Context (store : nat -> DB) (closed : nat -> bool).
Abbreviation Visits := (list (Slot * result Error (option FinalSlotResponse))).
Abbreviation Recon := (Task Visits).
Implicit Types (s : Recon).

Definition patches (rs : Visits) : list FinalSlotResponse :=
  omap (fun x => match x.2 with Ok (Some resp) => Some resp | _ => None end) rs.
Lemma patches_app rs1 rs2 : patches (rs1 ++ rs2) = patches rs1 ++ patches rs2.
Proof. apply omap_app. Qed.
(** The task visited the slots of [rs] and wrote the checkpoints [cks]; [ok]: it
    sent every patch it made. *)
Definition worked (rs : Visits) (cks : list (string * string)) (ok : bool) s s' : Prop :=
  tk_own s' = tk_own s ++ rs /\ tk_checkpoints s' = tk_checkpoints s ++ cks /\
  if ok then tk_sent s' = tk_sent s ++ patches rs
  else exists new, tk_sent s' = tk_sent s ++ new /\ new `prefix_of` patches rs.
Lemma worked_app rs1 rs2 cks1 cks2 ok s1 s2 s3 :
  worked rs1 cks1 true s1 s2 -> worked rs2 cks2 ok s2 s3 ->
  worked (rs1 ++ rs2) (cks1 ++ cks2) ok s1 s3.
Proof.
  intros (O1 & K1 & S1) (O2 & K2 & S2). unfold worked.
  rewrite O2, O1, K2, K1, patches_app. split_and!; [by rewrite app_assoc..|].
  destruct ok; [by rewrite S2, S1, app_assoc|].
  destruct S2 as (new & -> & Hp). exists (patches rs1 ++ new). rewrite S1, app_assoc.
  split; [done|]. by apply prefix_app.
Qed.
Lemma worked_nothing s s' :
  tk_own s' = tk_own s -> tk_checkpoints s' = tk_checkpoints s -> tk_sent s' = tk_sent s ->
  worked [] [] true s s'.
Proof. unfold worked. intros -> -> ->. by rewrite !app_nil_r. Qed.
Lemma worked_weaken rs cks s s' : worked rs cks true s s' -> worked rs cks false s s'.
Proof. intros (? & ? & ?). split_and!; [done..|]. by exists (patches rs). Qed.
Lemma look_worked {A} (f : nat -> A) : runs (look f) (fun a s s' => worked [] [] true s s' /\ exists n, a = f n).
Proof.
  intros s. do 2 eexists. split; [reflexivity|]. split; [by apply worked_nothing|]. by exists (tk_tick s).
Qed.

(** Each visit made of the slot what the store said when it was looked at. *)
Definition honest cfg (x : Slot * result Error (option FinalSlotResponse)) : Prop :=
  exists n, x.2 = reconstruct_slot (store n) cfg x.1.
Definition visits cfg (slots : list Slot) (ok : bool) s s' : Prop :=
  exists rs, worked rs [] ok s s' /\ Forall (honest cfg) rs /\
    if ok then rs.*1 = slots else rs.*1 `prefix_of` slots.
Lemma visit_one_worked cfg slot (r : result Error (option FinalSlotResponse)) s :
  exists s', visited slot r s = (Ok tt, s') /\ tk_own s' = tk_own s ++ [(slot, r)] /\
    tk_checkpoints s' = tk_checkpoints s /\ tk_sent s' = tk_sent s.
Proof. eexists. split; [reflexivity|]. done. Qed.
Lemma send_patch_runs resp :
  runs (send_patch closed resp) (fun ok s s' =>
    tk_own s' = tk_own s /\ tk_checkpoints s' = tk_checkpoints s /\
    tk_sent s' = tk_sent s ++ (if ok : bool then [resp] else [])).
Proof.
  intros s. unfold send_patch, mbind, ST_bind, look. cbn.
  destruct (closed (tk_tick s)); cbn; do 2 eexists; (split; [reflexivity|]); cbn;
    split_and!; done || by rewrite app_nil_r.
Qed.
(** What visiting one slot does: the patch it makes is sent, or the channel closed. *)
Definition visit cfg (slot : Slot) : ST Recon bool :=
  r ← look_db store (fun d => reconstruct_slot d cfg slot);
  visited slot r ;;
  match r with Ok (Some resp) => send_patch closed resp | _ => mret true end.
Lemma visit_runs cfg slot : runs (visit cfg slot) (fun ok => visits cfg [slot] ok).
Proof.
  unfold visit, look_db. eapply runs_bind; [apply look_worked|]. intros r.
  eapply (runs_bind _ _ (fun _ s s' => tk_own s' = tk_own s ++ [(slot, r)] /\
    tk_checkpoints s' = tk_checkpoints s /\ tk_sent s' = tk_sent s)).
  { intros s. destruct (visit_one_worked cfg slot r s) as (s' & E & Hs). by exists tt, s'. }
  intros _.
  assert (Hend : forall (ok : bool) new s s1 s2 s3,
    worked [] [] true s s1 /\ (exists n, r = reconstruct_slot (store n) cfg slot) ->
    tk_own s2 = tk_own s1 ++ [(slot, r)] /\ tk_checkpoints s2 = tk_checkpoints s1 /\ tk_sent s2 = tk_sent s1 ->
    tk_own s3 = tk_own s2 /\ tk_checkpoints s3 = tk_checkpoints s2 /\ tk_sent s3 = tk_sent s2 ++ new ->
    (if ok then new = patches [(slot, r)] else new = []) -> visits cfg [slot] ok s s3).
  { intros ok new s s1 s2 s3 [(O1 & K1 & S1) [n Hr]] (O2 & K2 & S2) (O3 & K3 & S3) Hnew.
    exists [(slot, r)]. split; [|split; [by constructor; [exists n|constructor]|by destruct ok]].
    unfold worked. cbn in O1, K1, S1. rewrite app_nil_r in O1, K1, S1.
    rewrite O3, O2, O1, K3, K2, K1, S3, S2, S1, app_nil_r. split_and!; [done..|].
    destruct ok; subst new; [done|]. exists []. split; [by rewrite app_nil_r|]. apply prefix_nil. }
  destruct r as [[resp|]|e].
  - eapply runs_conseq; [apply send_patch_runs|]. intros ok s2 s3 H3' s1 H2' s H1'.
    eapply Hend; [exact H1'|exact H2'|exact H3'|]. by destruct ok.
  - apply runs_ret. intros s2 s1 H2' s H1'. eapply (Hend true []); [exact H1'|exact H2'| |done].
    by rewrite app_nil_r.
  - apply runs_ret. intros s2 s1 H2' s H1'. eapply (Hend true []); [exact H1'|exact H2'| |done].
    by rewrite app_nil_r.
Qed.
Lemma reconstruct_threads_cons cfg slot slots s :
  reconstruct_threads store closed cfg (slot :: slots) s =
  (ok ← visit cfg slot; if ok : bool then reconstruct_threads store closed cfg slots else mret false) s.
Proof.
  cbn [reconstruct_threads]. unfold visit, look_db, visited, mbind, ST_bind, look. cbn.
  by destruct (reconstruct_slot (store (tk_tick s)) cfg slot) as [[resp|]|e].
Qed.
Lemma visits_app cfg l1 l2 ok s1 s2 s3 :
  visits cfg l1 true s1 s2 -> visits cfg l2 ok s2 s3 -> visits cfg (l1 ++ l2) ok s1 s3.
Proof.
  intros (r1 & W1 & F1 & E1) (r2 & W2 & F2 & E2). exists (r1 ++ r2).
  split; [by apply (worked_app _ _ [] [] _ _ _ _ W1 W2)|].
  rewrite fmap_app, E1. split; [by apply Forall_app|].
  destruct ok; [by rewrite E2|]. by apply prefix_app.
Qed.
Lemma visits_cut cfg l1 l2 s s' : visits cfg l1 false s s' -> visits cfg (l1 ++ l2) false s s'.
Proof.
  intros (r & W & F & E). exists r. split; [done|]. split; [done|].
  etrans; [exact E|]. by eexists.
Qed.
Lemma threads_runs cfg slots :
  runs (reconstruct_threads store closed cfg slots) (fun ok => visits cfg slots ok).
Proof.
  induction slots as [|slot slots IH].
  { apply runs_ret. intros s. exists []. split; [by apply worked_nothing|]. split; [constructor|done]. }
  intros s. rewrite reconstruct_threads_cons. revert s.
  eapply runs_bind; [apply visit_runs|]. intros ok. destruct ok.
  - eapply runs_conseq; [apply IH|]. intros ok s1 s2 V2 s V1. by apply (visits_app _ [slot] _ _ _ _ _ V1 V2).
  - apply runs_ret. intros s' s V. by apply (visits_cut _ [slot]).
Qed.

(** ** Periods *)
Definition range_slots cfg (lo hi : Z) : list Slot :=
  p ← range_inclusive lo hi; period_slots p (rc_thread_count cfg).
Lemma range_slots_cons cfg lo hi :
  (lo <= hi)%Z -> range_slots cfg lo hi = period_slots lo (rc_thread_count cfg) ++ range_slots cfg (lo + 1) hi.
Proof.
  intros Hl. unfold range_slots, range_inclusive. rewrite seqZ_cons by lia. cbn.
  do 3 f_equal; lia.
Qed.
Lemma range_slots_nil cfg lo hi : (hi < lo)%Z -> range_slots cfg lo hi = [].
Proof. intros Hl. unfold range_slots, range_inclusive. by rewrite (seqZ_nil lo (hi - lo + 1)) by lia. Qed.

(** A checkpoint written by a run that started at [start]: the period it names was
    done, with every slot before it, and the patches made of them were sent. *)
Definition ckpt_earned cfg (start : Z) (rs : Visits) s' (ck : string * string) : Prop :=
  exists q seen, ck = (reconstruct_ckpt_key cfg, dec (q + 1)) /\ (start - 1 <= q <= rc_to_period cfg)%Z /\
    seen `prefix_of` rs /\ seen.*1 = range_slots cfg start q /\
    forall resp, resp ∈ patches seen -> resp ∈ tk_sent s'.
Record progress cfg (start : Z) (fin : RepairEnd) s s' : Prop := {
  pr_end : fin = RepairComplete \/ fin = RepairClosed;
  pr_work : exists rs cks,
    worked rs cks (bool_decide (fin = RepairComplete)) s s' /\ Forall (honest cfg) rs /\
    Forall (ckpt_earned cfg start rs s') cks /\
    (if bool_decide (fin = RepairComplete)
     then rs.*1 = range_slots cfg start (rc_to_period cfg) /\
          last cks = Some (reconstruct_ckpt_key cfg, dec (rc_to_period cfg + 1))
     else rs.*1 `prefix_of` range_slots cfg start (rc_to_period cfg));
}.
Lemma earned_sooner cfg p rs1 rs2 s2 s' ck :
  (p <= rc_to_period cfg)%Z -> rs1.*1 = period_slots p (rc_thread_count cfg) ->
  (forall resp, resp ∈ patches rs1 -> resp ∈ tk_sent s2) -> (forall resp, resp ∈ tk_sent s2 -> resp ∈ tk_sent s') ->
  ckpt_earned cfg (p + 1) rs2 s' ck -> ckpt_earned cfg p (rs1 ++ rs2) s' ck.
Proof.
  intros Hp E1 Hs1 Hs2 (q & seen & -> & Hq & Hpre & Es & Hsent).
  exists q, (rs1 ++ seen). split_and!; [done|lia|lia|by apply prefix_app| |].
  - rewrite fmap_app, E1, Es. symmetry. apply range_slots_cons. lia.
  - intros resp. rewrite patches_app. intros [Hr|Hr]%elem_of_app; auto.
Qed.
Lemma earned_now cfg p rs1 rs2 s' :
  (p <= rc_to_period cfg)%Z -> rs1.*1 = period_slots p (rc_thread_count cfg) ->
  (forall resp, resp ∈ patches rs1 -> resp ∈ tk_sent s') ->
  ckpt_earned cfg p (rs1 ++ rs2) s' (reconstruct_ckpt_key cfg, dec (p + 1)).
Proof.
  intros Hp E1 Hs. exists p, rs1. split_and!; [done|lia|lia|by eexists| |done].
  by rewrite range_slots_cons, range_slots_nil, app_nil_r, E1 by lia.
Qed.
Lemma checkpoint_runs cfg p :
  (0 <= p < u64_max)%Z ->
  runs (checkpoint_period (reconstruct_ckpt_key cfg) p) (fun _ s s' =>
    exists cks, worked [] cks true s s' /\
      (cks = [] \/ cks = [(reconstruct_ckpt_key cfg, dec (p + 1))])).
Proof.
  intros Hp s. unfold checkpoint_period, put_checkpoint, wrapping_add_u64. unfold u64_max in Hp.
  rewrite (Z.mod_small (p + 1)) by lia. destruct (Z.eqb _ _).
  - do 2 eexists. split; [reflexivity|]. eexists. split; [|by right]. unfold worked. cbn.
    by rewrite !app_nil_r.
  - do 2 eexists. split; [reflexivity|]. exists []. split; [by apply worked_nothing|by left].
Qed.
Lemma range_prefix cfg lo hi l :
  (lo <= hi)%Z -> l `prefix_of` period_slots lo (rc_thread_count cfg) -> l `prefix_of` range_slots cfg lo hi.
Proof. intros Hl Hp. rewrite range_slots_cons by done. etrans; [exact Hp|by eexists]. Qed.
Lemma worked_sent rs cks ok s s' resp : worked rs cks ok s s' -> resp ∈ tk_sent s -> resp ∈ tk_sent s'.
Proof.
  intros (_ & _ & Hs) Hin. destruct ok; [rewrite Hs|destruct Hs as (new & -> & _)]; apply elem_of_app; by left.
Qed.
Lemma closed_progress cfg p rs s s' :
  (p <= rc_to_period cfg)%Z -> worked rs [] false s s' -> Forall (honest cfg) rs ->
  rs.*1 `prefix_of` period_slots p (rc_thread_count cfg) -> progress cfg p RepairClosed s s'.
Proof.
  intros Hp Hw Hh Hpre. split; [by right|]. exists rs, []. split_and!; [done..|by apply range_prefix].
Qed.
(** A period done in full, then the rest. *)
Lemma progress_cons cfg p fin rs1 cks1 s s1 s' :
  (p <= rc_to_period cfg)%Z -> worked rs1 cks1 true s s1 -> Forall (honest cfg) rs1 ->
  rs1.*1 = period_slots p (rc_thread_count cfg) ->
  (cks1 = [] \/ cks1 = [(reconstruct_ckpt_key cfg, dec (p + 1))]) ->
  progress cfg (p + 1) fin s1 s' -> progress cfg p fin s s'.
Proof.
  intros Hp W1 F1 E1 Hc [He (rs2 & cks2 & W2 & F2 & C2 & R2)]. split; [done|].
  assert (Hs1 : forall resp, resp ∈ patches rs1 -> resp ∈ tk_sent s1).
  { intros resp Hr. destruct W1 as (_ & _ & ->). apply elem_of_app. by right. }
  assert (Hs2 : forall resp, resp ∈ tk_sent s1 -> resp ∈ tk_sent s')
    by (intros resp; by eapply worked_sent).
  exists (rs1 ++ rs2), (cks1 ++ cks2). split_and!; [by eapply worked_app|by apply Forall_app| |].
  - apply Forall_app. split.
    + destruct Hc as [->| ->]; [done|]. constructor; [|done]. apply earned_now; [done..|]. auto.
    + eapply Forall_impl; [exact C2|]. intros ck. by apply (earned_sooner cfg p rs1 rs2 s1).
  - rewrite range_slots_cons, fmap_app, E1 by done.
    case_bool_decide; [|by apply prefix_app]. destruct R2 as [-> HL]. split; [done|].
    rewrite last_app. by rewrite HL.
Qed.
Lemma finish_runs cfg p :
  (rc_to_period cfg < p)%Z -> (0 <= p <= rc_to_period cfg + 1)%Z -> (rc_to_period cfg < u64_max)%Z ->
  runs (put_checkpoint (reconstruct_ckpt_key cfg) (dec (wrapping_add_u64 (rc_to_period cfg) 1)) ;;
        mret RepairComplete) (progress cfg p).
Proof.
  intros Hlt Hp Hto s. do 2 eexists. split; [reflexivity|]. split; [by left|].
  unfold wrapping_add_u64. unfold u64_max in Hto. rewrite Z.mod_small by lia.
  exists [], [(reconstruct_ckpt_key cfg, dec (rc_to_period cfg + 1))].
  rewrite bool_decide_true by done. split; [|split; [constructor|split]].
  - unfold worked. cbn. by rewrite !app_nil_r.
  - constructor; [|done]. exists (rc_to_period cfg), [].
    split_and!; [done|lia|lia|done|by rewrite range_slots_nil by lia|]. intros resp Hr.
    by apply not_elem_of_nil in Hr.
  - by rewrite range_slots_nil by lia.
Qed.
Lemma periods_runs fuel cfg p :
  (0 <= p <= rc_to_period cfg + 1)%Z -> (rc_to_period cfg < u64_max)%Z ->
  (rc_to_period cfg - p + 1 <= Z.of_nat fuel)%Z ->
  runs (reconstruct_periods store closed fuel cfg p) (progress cfg p).
Proof.
  intros Hp Hto Hf.
  induction fuel as [|fuel IH] in p, Hp, Hf |- *; cbn [reconstruct_periods];
    destruct (Z.ltb_spec (rc_to_period cfg) p) as [Hlt|Hle]; try (by apply finish_runs); [lia|].
  unfold channel_closed. eapply runs_bind; [apply look_worked|]. intros gone. destruct gone.
  { apply runs_ret. intros s' s [W _]. eapply closed_progress; [done|by apply worked_weaken|done|].
    apply prefix_nil. }
  eapply runs_bind; [apply threads_runs|]. intros ok. destruct ok; cbn [negb].
  - eapply runs_bind; [apply checkpoint_runs; lia|]. intros [].
    unfold wrapping_add_u64. unfold u64_max in Hto. rewrite Z.mod_small by lia.
    eapply runs_conseq; [apply IH; lia|]. intros fin s3 s4 Hpr s2 (cks & W3 & Hc) s1 (rs & W2 & F2 & E2) s [W1 _].
    eapply (progress_cons cfg p fin rs cks); [done| |done|done|done|exact Hpr].
    pose proof (worked_app _ _ _ _ _ _ _ _ W1 (worked_app _ _ _ _ _ _ _ _ W2 W3)) as W.
    by rewrite app_nil_r in W.
  - apply runs_ret. intros s2 s1 (rs & W2 & F2 & E2) s [W1 _].
    eapply closed_progress; [done|exact (worked_app _ _ _ _ _ _ _ _ W1 W2)|done|done].
Qed.
(** A run resumes right after a period a checkpoint vouched for. *)
Lemma resume_after_checkpoint q from :
  (-1 <= q < u64_max)%Z -> resume_up (Some (dec (q + 1))) from = Z.max (q + 1) from.
Proof. unfold u64_max. intros Hq. unfold resume_up. by rewrite parse_u64_dec by (unfold u64_ok; lia). Qed.
Lemma resume_range ckpt from : (from <= resume_up ckpt from)%Z.
Proof. destruct ckpt as [s|]; cbn; lia. Qed.

(** C39. A reconstruction run always ends. It either finds its range done by the
    stored checkpoint, or works from the period it resumes at: every visit is
    honest, and unless the channel closes every slot of the rest of the range is
    visited exactly once, in order, with every patch sent and the final checkpoint
    one past the range. Every checkpoint it writes, even in a run cut short, was
    earned: all periods up to it were visited and their patches sent, and a run
    started on it resumes right behind. *)
Theorem reconstruct_run_covers cfg s :
  (0 <= rc_from_period cfg)%Z -> (rc_to_period cfg < u64_max)%Z ->
  exists fin s' n,
    run_reconstruct_transfers store closed cfg s = (Ok fin, s') /\
    let start := resume_up (meta_get_str (store n) (reconstruct_ckpt_key cfg)) (rc_from_period cfg) in
    (rc_from_period cfg <= start)%Z /\
    (if (rc_to_period cfg <? start)%Z
     then fin = RepairAlready /\ worked [] [] true s s'
     else progress cfg start fin s s') /\
    (forall q, (start - 1 <= q < u64_max)%Z ->
       resume_up (Some (dec (q + 1))) (rc_from_period cfg) = Z.max (q + 1) (rc_from_period cfg)).
Proof.
  intros Hfrom Hto. unfold run_reconstruct_transfers, look_db.
  destruct (look_worked (fun n => meta_get_str (store n) (reconstruct_ckpt_key cfg)) s)
    as (ckpt & s1 & E1 & W1 & n & Hn).
  set (start := resume_up ckpt (rc_from_period cfg)).
  pose proof (resume_range ckpt (rc_from_period cfg)) as Hstart. fold start in Hstart.
  assert (Hres : forall q, (start - 1 <= q < u64_max)%Z ->
    resume_up (Some (dec (q + 1))) (rc_from_period cfg) = Z.max (q + 1) (rc_from_period cfg))
    by (intros q Hq; apply resume_after_checkpoint; lia).
  unfold mbind, ST_bind. rewrite E1. fold start.
  destruct (Z.ltb_spec (rc_to_period cfg) start) as [Hlt|Hle].
  - exists RepairAlready, s1, n. rewrite <-Hn. fold start.
    rewrite (proj2 (Z.ltb_lt _ _)) by done. split_and!; done.
  - destruct (periods_runs (Z.to_nat (rc_to_period cfg - start + 1)) cfg start ltac:(lia) Hto ltac:(lia) s1)
      as (fin & s' & E' & Hp).
    exists fin, s', n. rewrite <-Hn. fold start. rewrite (proj2 (Z.ltb_ge _ _)) by done.
    split_and!; [done|done| |done].
    destruct Hp as [He (rs & cks & W & F & Cc & R)]. split; [done|]. exists rs, cks.
    split; [|done]. exact (worked_app _ _ _ _ _ _ _ _ W1 W).
Qed.
End run.
End repair.
