(* ===== verification/PullProps.v ===== *)
(** * What the pulling of missing parts guarantees

    A pass covers its range from the top down, each slot looked at once; its
    checkpoints name only what was covered; a finished range is not walked again,
    unless it reaches down to period 0. *)

From S2P Require Import Prelude Text Ids Keys Model Proto Codec Store Db.
From S2P Require Import NodeMsg World Reconcile Arbiter Task Registry PeerService Client Backfill.
From S2P Require Import Ddb LegacyDecode LegacySource Repair ClientSteps ClientProps BackfillProps.

Section pull.
Context `{Bs58, Base64, HexCrate, ProstStorage, RocksDB, Network}.
Context (store : nat -> DB) (closed : nat -> bool).
Implicit Types (cfg : PullPartsConfig) (s : Puller).

Lemma pull_scan_looks cfg slots : runs (pull_scan store cfg slots) (fun _ => looks slots).
Proof.
  induction slots as [|[p t] slots IH]; cbn [pull_scan]; [apply looks_ret|].
  apply (looks_bind _ _ [(p, t)] slots).
  { intros w. exists tt, (w <| wk_scanned := wk_scanned w ++ [(p, t)] |>). done. }
  intros []. apply (looks_bind _ _ [] slots); [by apply looks_idle, ask_idle|]. intros r.
  apply looks_end. apply (looks_bind _ _ slots []); [exact IH|]. intros needy. apply looks_ret.
Qed.
Lemma pull_window_looks cfg lo hi :
  runs (pull_window store closed cfg lo hi) (fun _ => looks (slots_desc lo hi (pp_thread_count cfg))).
Proof.
  apply looks_end. apply (looks_bind _ _ (slots_desc lo hi (pp_thread_count cfg)) []);
    [apply pull_scan_looks|]. intros needy.
  destruct (bool_decide _); [apply looks_ret|].
  apply (looks_bind _ _ [] []); [apply range_fill_opts_looks|]. intros rest. apply looks_ret.
Qed.

(** The task looked at [seen] and wrote the checkpoints [cks]. *)
Definition pulled (seen : list (Z * Z)) (cks : list (string * string)) s s' : Prop :=
  wk_scanned (pl_walker s') = wk_scanned (pl_walker s) ++ seen /\
  pl_checkpoints s' = pl_checkpoints s ++ cks.
Lemma pulled_app a1 a2 k1 k2 s1 s2 s3 :
  pulled a1 k1 s1 s2 -> pulled a2 k2 s2 s3 -> pulled (a1 ++ a2) (k1 ++ k2) s1 s3.
Proof. intros [E1 K1] [E2 K2]. unfold pulled. by rewrite E2, E1, K2, K1, !app_assoc. Qed.
Lemma walk_pulled {A} (m : ST Walker A) seen :
  runs m (fun _ => looks seen) -> runs (walk m) (fun _ => pulled seen []).
Proof.
  intros Hm s. destruct (Hm (pl_walker s)) as (a & w & E & Hl). exists a, (s <| pl_walker := w |>).
  unfold walk. rewrite E. split; [done|]. unfold pulled. cbn. unfold constant. by rewrite app_nil_r.
Qed.
Lemma pull_lo_range cfg hi :
  (0 <= pp_from_period cfg <= hi)%Z -> (pp_from_period cfg <= pull_lo cfg hi <= hi)%Z.
Proof. unfold pull_lo, saturating_sub. lia. Qed.

(** A checkpoint of a run that started at [hi]: all from some period up to [hi] was
    looked at, and it names the period below. *)
Definition pull_earned cfg (hi : Z) (seen : list (Z * Z)) (ck : string * string) : Prop :=
  exists lo, ck = (pull_ckpt_key cfg, dec (saturating_sub lo 1)) /\
    (pp_from_period cfg <= lo <= hi)%Z /\ slots_desc lo hi (pp_thread_count cfg) `prefix_of` seen.
Definition pull_progress cfg (hi : Z) (fin : RepairEnd) s s' : Prop :=
  exists lo cks, (pp_from_period cfg <= lo <= hi + 1)%Z /\
    pulled (slots_desc lo hi (pp_thread_count cfg)) cks s s' /\
    Forall (pull_earned cfg hi (slots_desc lo hi (pp_thread_count cfg))) cks /\
    (fin = RepairComplete -> lo = pp_from_period cfg /\
       last cks = Some (pull_ckpt_key cfg, dec (saturating_sub lo 1))).
Lemma pull_progress_none cfg hi fin s s' :
  (pp_from_period cfg <= hi)%Z -> fin <> RepairComplete -> pulled [] [] s s' ->
  pull_progress cfg hi fin s s'.
Proof.
  intros Hh Hf Hp. exists (hi + 1)%Z, []. rewrite slots_desc_nil by lia. split_and!; [lia|lia|apply Hp..|done|done].
Qed.
Lemma pull_earned_more cfg lo mid hi ck :
  (lo <= mid <= hi + 1)%Z -> (pp_from_period cfg <= lo)%Z ->
  pull_earned cfg (mid - 1) (slots_desc lo (mid - 1) (pp_thread_count cfg)) ck ->
  pull_earned cfg hi (slots_desc lo hi (pp_thread_count cfg)) ck.
Proof.
  intros Hm Hf (q & -> & Hq & Hpre). exists q. split_and!; [done|lia|lia|].
  rewrite (slots_desc_app lo mid hi), (slots_desc_app q mid hi) by lia. by apply prefix_app.
Qed.
Lemma pull_loop_runs fuel cfg hi :
  (0 <= pp_from_period cfg <= hi)%Z ->
  runs (pull_loop store closed fuel cfg hi) (pull_progress cfg hi).
Proof.
  induction fuel as [|fuel IH] in hi |- *; intros Hh; cbn [pull_loop].
  { apply runs_ret. intros s. apply pull_progress_none; [lia|done|]. split; by rewrite app_nil_r. }
  pose proof (pull_lo_range cfg hi Hh) as Hlo.
  eapply runs_bind; [by apply walk_pulled, looks_idle, ask_idle|]. intros gone. destruct gone.
  { apply runs_ret. intros s' s Hp. by apply pull_progress_none; [lia|..]. }
  eapply runs_bind; [by apply walk_pulled, looks_idle, pool_idle, returns_gets|]. intros empty. destruct empty.
  { eapply runs_conseq; [by apply IH|]. intros fin s2 s3 (lo & cks & Hr & Hp & Hx) s1 H2' s H1'.
    exists lo, cks. split; [done|]. split; [|done].
    exact (pulled_app _ _ _ _ _ _ _ H1' (pulled_app _ _ _ _ _ _ _ H2' Hp)). }
  eapply runs_bind; [apply walk_pulled, pull_window_looks|]. intros going. destruct going; cbn [negb].
  2: { apply runs_ret. intros s3 s2 H3' s1 H2' s H1'. exists (pull_lo cfg hi), [].
       split; [lia|]. split; [|done]. exact (pulled_app _ _ _ _ _ _ _ H1' (pulled_app _ _ _ _ _ _ _ H2' H3')). }
  set (lo := pull_lo cfg hi) in *. set (ck := (pull_ckpt_key cfg, dec (saturating_sub lo 1))).
  eapply (runs_bind _ _ (fun _ => pulled [] [ck])).
  { intros s. do 2 eexists. split; [reflexivity|]. split; cbn; by rewrite ?app_nil_r. }
  intros [].
  assert (Hnow : pull_earned cfg hi (slots_desc lo hi (pp_thread_count cfg)) ck)
    by (exists lo; by split_and!; [done|lia|lia|]).
  destruct (_ || _) eqn:Hend.
  - apply runs_ret. intros s4 s3 H4' s2 H3' s1 H2' s H1'.
    assert (lo = pp_from_period cfg) as El.
    { apply orb_true_iff in Hend as [Hend|Hend]; [apply Z.leb_le in Hend|apply Z.eqb_eq in Hend]; lia. }
    exists lo, [ck]. split; [lia|]. split; [|split; [by constructor|done]].
    pose proof (pulled_app _ _ _ _ _ _ _ H1' (pulled_app _ _ _ _ _ _ _ H2' (pulled_app _ _ _ _ _ _ _ H3' H4'))) as W.
    by rewrite app_nil_r in W.
  - apply orb_false_iff in Hend as [Hend _]. apply Z.leb_gt in Hend.
    eapply runs_conseq; [apply IH; lia|].
    intros fin s4 s5 (lo' & cks & Hr & Hp & Hf & Hx) s3 H4' s2 H3' s1 H2' s H1'.
    exists lo', (ck :: cks). split; [lia|]. rewrite (slots_desc_app lo' lo hi) by lia.
    split; [|split].
    + exact (pulled_app _ _ _ _ _ _ _ H1' (pulled_app _ _ _ _ _ _ _ H2'
        (pulled_app _ _ _ _ _ _ _ H3' (pulled_app _ _ _ _ _ _ _ H4' Hp)))).
    + rewrite <-slots_desc_app by lia. constructor.
      * exists lo. split_and!; [done|lia|lia|]. rewrite (slots_desc_app lo' lo hi) by lia. by eexists.
      * eapply Forall_impl; [exact Hf|]. intros k. apply pull_earned_more; lia.
    + intros E. destruct (Hx E) as [-> HL]. split; [done|]. cbn. by destruct cks.
Qed.

(** ** The configured peers stay *)
(** Whatever its outcome, [m] keeps the configured peers of the pool. *)
Definition keeps {A} (m : ST Walker A) : Prop :=
  forall w, static_urls (wk_client (m w).2) = static_urls (wk_client w).
Lemma keeps_ret {A} (a : A) : keeps (mret a).
Proof. done. Qed.
Lemma keeps_bind {A B} (m : ST Walker A) (f : A -> ST Walker B) :
  keeps m -> (forall a, keeps (f a)) -> keeps (m ≫= f).
Proof.
  intros Hm Hf w. unfold mbind, ST_bind. specialize (Hm w). destruct (m w) as [[a|e] w1]; [|done].
  cbn [snd] in Hm. by rewrite (Hf a w1).
Qed.
Lemma keeps_pool {A} (m : ST Client A) : steps static_kept m -> keeps (pool m).
Proof. intros Hm w. unfold pool. specialize (Hm (wk_client w)). destruct (m _). apply Hm. Qed.
Lemma keeps_ask {A} (f : nat -> A) : keeps (pool (ask f)).
Proof. apply keeps_pool, steps_ask, _. Qed.
Lemma keeps_scan cfg slots : keeps (pull_scan store cfg slots).
Proof.
  induction slots as [|[p t] slots IH]; cbn [pull_scan]; [done|].
  apply keeps_bind; [done|]. intros _. apply keeps_bind; [apply keeps_ask|]. intros r.
  apply keeps_bind; [done|]. intros needy. apply keeps_ret.
Qed.
Lemma keeps_send resp : keeps (tx_send closed resp).
Proof. apply keeps_bind; [apply keeps_ask|]. intros gone. by destruct gone. Qed.
Lemma keeps_stream skip remaining items : keeps (apply_stream closed skip remaining items).
Proof.
  induction items as [|[resp|e|] items IH] in remaining |- *; cbn [apply_stream]; try done.
  destruct (u8_try_from _) as [t|]; [|apply IH]. destruct (_ || _); [apply IH|].
  apply keeps_bind; [apply keeps_send|]. intros sent. destruct sent; [apply IH|done].
Qed.
Lemma keeps_fill skip req remaining ids : keeps (fill_from_peers closed skip req remaining ids).
Proof.
  induction ids as [|id ids IH] in remaining |- *; cbn [fill_from_peers]; [done|].
  case_bool_decide; [done|]. apply keeps_bind; [apply keeps_ask|]. intros gone. destruct gone; [done|].
  apply keeps_bind; [apply keeps_pool, steps_attempt, steps_stream, _|]. intros stream.
  destruct stream as [items|e]; [|apply IH].
  apply keeps_bind; [apply keeps_stream|]. intros rest. destruct rest; [apply IH|done].
Qed.
Lemma keeps_window cfg lo hi : keeps (pull_window store closed cfg lo hi).
Proof.
  apply keeps_bind; [apply keeps_scan|]. intros needy. case_bool_decide; [done|].
  apply keeps_bind; [|done]. apply keeps_bind; [apply keeps_pool, steps_ids, _|]. intros ids.
  apply keeps_bind; [apply keeps_fill|done].
Qed.
(** Somebody can be asked. *)
Definition has_peer s : Prop := static_urls (wk_client (pl_walker s)) <> [].
Lemma has_peer_nonempty s : has_peer s -> PeerPool_is_empty (wk_client (pl_walker s)) = false.
Proof.
  unfold has_peer, static_urls, PeerPool_is_empty. intros Hp.
  rewrite bool_decide_eq_false_2; [done|]. intros E. apply nil_length_inv in E. by rewrite E in Hp.
Qed.
(** With a peer configured, [m] does not give up for lack of fuel. *)
Definition ends (m : ST Puller RepairEnd) : Prop := forall s, has_peer s -> (m s).1 <> Ok RepairFuel.
Lemma ends_ret fin : fin <> RepairFuel -> ends (mret fin).
Proof. intros Hf s _. cbn. congruence. Qed.
Lemma ends_walk {A} (m : ST Walker A) f : keeps m -> (forall a, ends (f a)) -> ends (walk m ≫= f).
Proof.
  intros Hm Hf s Hp. unfold mbind, ST_bind, walk. specialize (Hm (pl_walker s)).
  destruct (m (pl_walker s)) as [[a|e] w]; [|done]. apply Hf. unfold has_peer in *. cbn in *. unfold constant.
  by rewrite Hm.
Qed.
Lemma ends_nonempty f : ends (f false) -> ends (walk (pool (gets PeerPool_is_empty)) ≫= f).
Proof.
  intros Hf s Hp. specialize (Hf s Hp). unfold mbind, ST_bind, walk, pool, gets.
  cbn -[PeerPool_is_empty]. rewrite (has_peer_nonempty s Hp). by destruct s as [[] ?].
Qed.
Lemma ends_checkpoint key value f : (forall u, ends (f u)) -> ends (pull_checkpoint key value ≫= f).
Proof. intros Hf s Hp. by apply Hf. Qed.
(** Each turn takes a window off: the loop ends on its own. *)
Lemma pull_loop_ends fuel cfg hi :
  (0 <= pp_from_period cfg <= hi)%Z -> (hi - pp_from_period cfg < Z.of_nat fuel)%Z ->
  ends (pull_loop store closed fuel cfg hi).
Proof.
  induction fuel as [|fuel IH] in hi |- *; intros Hh Hf; [lia|]. cbn [pull_loop].
  pose proof (pull_lo_range cfg hi Hh) as Hlo.
  apply ends_walk; [apply keeps_ask|]. intros gone. destruct gone; [by apply ends_ret|].
  apply ends_nonempty. apply ends_walk; [apply keeps_window|]. intros going.
  destruct going; [|by apply ends_ret]. apply ends_checkpoint. intros _. destruct (_ || _) eqn:Hend; [by apply ends_ret|].
  apply orb_false_iff in Hend as [Hend _]. apply Z.leb_gt in Hend. apply IH; lia.
Qed.

(** C40. A pulling pass, whatever the peers and the store do: it looks at slots from
    the period it resumes at downwards, each once, without a gap; when it completes
    it covered the range down to its first period; each checkpoint it wrote, even
    cut short, names the period below what it had covered by then. A later run that
    finds the final checkpoint of a range that does not start at period 0 has
    nothing left to do. With a configured peer, a turn per period is enough fuel. *)
Theorem pull_parts_covers fuel cfg s :
  (0 <= pp_from_period cfg)%Z -> (pp_from_period cfg <= pp_to_period cfg < u64_max)%Z ->
  exists fin s' n,
    run_pull_parts store closed fuel cfg s = (Ok fin, s') /\
    let hi := resume_down (meta_get_str (store n) (pull_ckpt_key cfg)) (pp_to_period cfg) in
    (hi <= pp_to_period cfg)%Z /\
    (if (hi <? pp_from_period cfg)%Z
     then fin = RepairAlready /\ pulled [] [] s s'
     else pull_progress cfg hi fin s s') /\
    (has_peer s -> (pp_to_period cfg - pp_from_period cfg < Z.of_nat fuel)%Z -> fin <> RepairFuel) /\
    ((0 < pp_from_period cfg)%Z ->
     (resume_down (Some (dec (saturating_sub (pp_from_period cfg) 1))) (pp_to_period cfg)
      < pp_from_period cfg)%Z).
Proof.
  intros Hfrom Hto. unfold run_pull_parts.
  destruct (walk_pulled _ [] (looks_idle _ (ask_idle (fun n => meta_get_str (store n) (pull_ckpt_key cfg)))) s)
    as (ckpt & s1 & E1 & W1).
  set (n := cl_tick (wk_client (pl_walker s))).
  assert (ckpt = meta_get_str (store n) (pull_ckpt_key cfg)) as Hn by (by injection E1 as <- _).
  set (hi := resume_down ckpt (pp_to_period cfg)).
  assert (hi <= pp_to_period cfg)%Z as Hhi by (unfold hi; destruct ckpt; cbn; lia).
  assert (Hdone : (0 < pp_from_period cfg)%Z ->
    (resume_down (Some (dec (saturating_sub (pp_from_period cfg) 1))) (pp_to_period cfg)
      < pp_from_period cfg)%Z).
  { unfold saturating_sub, u64_max in *. intros Hpos. unfold resume_down.
    rewrite parse_u64_dec by (unfold u64_ok; lia). cbn. lia. }
  unfold mbind, ST_bind. rewrite E1. fold hi.
  destruct (Z.ltb_spec hi (pp_from_period cfg)) as [Hlt|Hle].
  - exists RepairAlready, s1, n. rewrite <-Hn. fold hi. rewrite (proj2 (Z.ltb_lt _ _)) by done. by split_and!.
  - destruct (pull_loop_runs fuel cfg hi ltac:(lia) s1) as (fin & s' & E' & lo & cks & Hr & Hp & Hx).
    exists fin, s', n. rewrite <-Hn. fold hi. rewrite (proj2 (Z.ltb_ge _ _)) by done.
    split; [done|]. split; [done|]. split; [|split; [|done]].
    + exists lo, cks. split; [done|]. split; [|done]. exact (pulled_app _ _ _ _ _ _ _ W1 Hp).
    + intros Hpeer Hfuel. pose proof (pull_loop_ends fuel cfg hi ltac:(lia) ltac:(lia) s1) as He.
      rewrite E' in He. intros ->. apply He; [|done]. by injection E1 as _ <-.
Qed.
End pull.
