(* ===== verification/OneShotProps.v ===== *)
(** * What the one-shot importer guarantees

    Whatever the store, the channel and the source do meanwhile: it sends only
    what a lookup answered, and when it declares itself complete every slot of
    its window is settled. *)

From S2P Require Import Prelude Ids Keys Model Proto Codec Store Db.
From S2P Require Import NodeMsg World Reconcile Task Ddb LegacyDecode LegacySource OneShot.

Section importer.
Context `{Bs58, Base64, HexCrate, ProstStorage, RocksDB, LegacySource}.
Context (store : nat -> DB) (closed : nat -> bool) (complete : nat -> list (Z * Z) -> list (Z * Z)).
Implicit Types (s : Task Lookups) (cfg : OneShotConfig).

(** What a patch of the importer may say: the response of a lookup, or a miss
    where a lookup found nothing. *)
Inductive answered (l : Lookups) : FinalSlotResponse -> Prop :=
| answered_fetch p t f :
    (p, t, Ok (Some f)) ∈ lk_answers l -> answered l (lf_resp f)
| answered_none p t :
    (p, t, Ok None) ∈ lk_answers l -> answered l (miss_response p t).

(** How the task moves on: it looks outside, learns answers, sends patches. *)
Definition advances s s' : Prop :=
  tk_tick s <= tk_tick s' /\ lk_answers (tk_own s) `prefix_of` lk_answers (tk_own s') /\
  exists new, tk_sent s' = tk_sent s ++ new /\ Forall (answered (tk_own s')) new.
(** The same, sending nothing. *)
Definition waits s s' : Prop := advances s s' /\ tk_sent s' = tk_sent s.

Lemma answered_mono l l' resp :
  lk_answers l `prefix_of` lk_answers l' -> answered l resp -> answered l' resp.
Proof.
  intros [k E] Ha. destruct Ha as [p t f Hin|p t Hin].
  - eapply answered_fetch. rewrite E. apply elem_of_app. by left.
  - eapply answered_none. rewrite E. apply elem_of_app. by left.
Qed.
#[export] Instance advances_preorder : PreOrder advances.
Proof.
  split.
  - intros s. split_and!; [done|done|]. exists []. by rewrite app_nil_r.
  - intros s1 s2 s3 (T1 & P1 & n1 & E1 & F1) (T2 & P2 & n2 & E2 & F2).
    split_and!; [lia|by etrans|]. exists (n1 ++ n2). rewrite E2, E1, app_assoc. split; [done|].
    apply Forall_app; split; [|done]. eapply Forall_impl; [exact F1|]. intros r.
    by apply answered_mono.
Qed.
Lemma advances_sent s s' resp : advances s s' -> resp ∈ tk_sent s -> resp ∈ tk_sent s'.
Proof. intros (_ & _ & new & -> & _) Hin. apply elem_of_app. by left. Qed.

(** Looks made since the [b]-th, up to [s]. *)
Definition looked (b n : nat) s : Prop := b <= n < tk_tick s.
(** A slot with a verdict of its own at one of the looks, or whose answer was sent. *)
Inductive settled (b : nat) (p t : Z) s : Prop :=
| settled_before n row :
    looked b n s -> read_slot (store n) p t = Ok (Some row) ->
    slot_already_covered row = true \/ verdict_with_block row = true -> settled b p t s
| settled_now resp :
    resp ∈ tk_sent s -> fr_period resp = p -> fr_thread resp = t -> fr_final_known resp = true ->
    settled b p t s.
Lemma looked_mono b n s s' : tk_tick s <= tk_tick s' -> looked b n s -> looked b n s'.
Proof. unfold looked. lia. Qed.
Lemma settled_mono b p t s s' : advances s s' -> settled b p t s -> settled b p t s'.
Proof.
  intros Ha [n row Hl Hr Hc|resp Hin Hp Ht Hf].
  { eapply settled_before; [|exact Hr|exact Hc]. eapply looked_mono; [apply Ha|exact Hl]. }
  eapply settled_now; eauto using advances_sent.
Qed.

Lemma settled_earlier b b' p t s : b <= b' -> settled b' p t s -> settled b p t s.
Proof.
  intros Hb [n row Hl Hr Hc|resp Hin Hp Ht Hf]; [|by eapply settled_now].
  eapply settled_before; [|exact Hr|exact Hc]. unfold looked in *. lia.
Qed.

(** ** Steps *)
Lemma waits_look {A} (f : nat -> A) (s : Task Lookups) :
  exists s', look f s = (Ok (f (tk_tick s)), s') /\ waits s s' /\ tk_tick s' = S (tk_tick s).
Proof.
  eexists. split; [reflexivity|]. split; [|done]. split; [|done].
  split_and!; [cbn; unfold constant; lia|done|]. exists []. by rewrite app_nil_r.
Qed.
Lemma look_runs {A} (f : nat -> A) :
  runs (look f) (fun a s s' => waits s s' /\ exists n, a = f n /\ looked (tk_tick s) n s').
Proof.
  intros s. destruct (waits_look f s) as (s' & E & Hw & Ht). exists (f (tk_tick s)), s'.
  split; [done|]. split; [done|]. exists (tk_tick s). split; [done|]. unfold looked. lia.
Qed.
(** Sending: [false] when the channel is found closed. *)
Lemma send_runs resp :
  runs (send_patch closed resp) (fun ok s s' =>
    (if ok : bool then True else exists n, closed n = true /\ n < tk_tick s') /\
    tk_tick s <= tk_tick s' /\ tk_own s' = tk_own s /\
    tk_sent s' = tk_sent s ++ (if ok : bool then [resp] else [])).
Proof.
  intros s. unfold send_patch, mbind, ST_bind, look. cbn.
  destruct (closed (tk_tick s)) eqn:E; cbn.
  - do 2 eexists. split; [reflexivity|]. cbn; unfold constant. split_and!; [|lia|done|by rewrite app_nil_r].
    by exists (tk_tick s); cbn; unfold constant; split; [|lia].
  - do 2 eexists. split; [reflexivity|]. cbn; unfold constant. split_and!; [done|lia|done|done].
Qed.

(** What an attempt at a slot found. *)
Definition found (b : nat) (p t : Z) (kind : FetchKind) s : Prop :=
  match kind with
  | Filled resp =>
      answered (tk_own s) resp /\
      (u8_ok t -> fr_period resp = p /\ fr_thread resp = t /\ fr_final_known resp = true)
  | Empty => (p, t, Ok None) ∈ lk_answers (tk_own s)
  | Skipped => exists n row, looked b n s /\ read_slot (store n) p t = Ok (Some row) /\ slot_already_covered row = true
  | FetchError _ => True
  end.
Lemma lookup_runs p t :
  runs (on_own (lookup_slot p t)) (fun r s s' => waits s s' /\
    (p, t, r) ∈ lk_answers (tk_own s') /\
    forall f, r = Ok (Some f) -> u8_ok t ->
      fr_period (lf_resp f) = p /\ fr_thread (lf_resp f) = t /\ fr_final_known (lf_resp f) = true).
Proof.
  intros s. unfold on_own, lookup_slot.
  destruct (fetch_slot p t (lk_source (tk_own s))) as [r src] eqn:E.
  do 2 eexists. split; [reflexivity|]. cbn. split_and!.
  - split; [|done]. split_and!; cbn; [reflexivity|by eexists|]. exists []. by rewrite app_nil_r.
  - apply elem_of_app. right. by apply list_elem_of_singleton.
  - intros f -> Ht. apply fetch_slot_answers in E; tauto.
Qed.
Lemma waits_trans s1 s2 s3 : waits s1 s2 -> waits s2 s3 -> waits s1 s3.
Proof. intros [A1 E1] [A2 E2]. split; [by etrans|congruence]. Qed.
Lemma fetch_attempts_runs n p t e :
  runs (fetch_attempts n p t e) (fun kind s s' => waits s s' /\ forall b, found b p t kind s').
Proof.
  induction n as [|n IH] in e |- *; cbn [fetch_attempts].
  { apply runs_ret. intros s. by split. }
  eapply runs_bind; [apply lookup_runs|]. intros [[f|]|e'].
  - apply runs_ret. intros s' s (Hw & Hin & Hf). split; [done|]. intros b. split; [by econstructor|auto].
  - apply runs_ret. intros s' s (Hw & Hin & _). by split.
  - eapply runs_conseq; [apply IH|]. intros kind s1 s2 [Hw2 Hf] s (Hw1 & _).
    split; [by eapply waits_trans|done].
Qed.
Lemma settle_slot_runs p t :
  runs (settle_slot store p t) (fun kind s s' => waits s s' /\ found (tk_tick s) p t kind s').
Proof.
  unfold settle_slot, look_db. eapply runs_bind; [apply look_runs|]. intros row.
  assert (Hfetch : runs (fetch_slot_resilient p t) (fun kind s1 s2 => forall s,
    waits s s1 /\ (exists n, row = read_slot (store n) p t /\ looked (tk_tick s) n s1) ->
    waits s s2 /\ found (tk_tick s) p t kind s2)).
  { eapply runs_conseq; [apply fetch_attempts_runs|]. intros kind s1 s2 [Hw2 Hf] s [Hw1 _].
    split; [by eapply waits_trans|done]. }
  destruct row as [[r|]|]; try done. destruct (slot_already_covered r) eqn:Hc; [|done].
  apply runs_ret. intros s' s [Hw (n & E & Hl)]. split; [done|]. by exists n, r.
Qed.

(** After an outcome was consumed: the slot is settled or counted as an error, or
    the channel was found closed. *)
Definition consumed (b : nat) (p t : Z) (n : Tally) (next : option Tally) s s' : Prop :=
  advances s s' /\
  match next with
  | None => exists k, closed k = true /\ k < tk_tick s'
  | Some n' =>
      ty_errored n' = (ty_errored n + 1)%Z \/
      ty_errored n' = ty_errored n /\ (u8_ok t -> settled b p t s')
  end.
Lemma send_consumed p t n resp :
  runs (sent ← send_patch closed resp;
        mret (if sent : bool then Some (n <| ty_imported := (ty_imported n + 1)%Z |>) else None))
    (fun next s s' => answered (tk_own s) resp ->
      (u8_ok t -> fr_period resp = p /\ fr_thread resp = t /\ fr_final_known resp = true) ->
      forall b, consumed b p t n next s s').
Proof.
  eapply runs_bind; [apply send_runs|]. intros sent.
  apply runs_ret. intros s' s (Hc & Ht & Ho & Hs) Ha Hf b. split.
  - split_and!; [done|by rewrite Ho|]. eexists. split; [exact Hs|].
    destruct sent; [|by constructor]. constructor; [by rewrite Ho|constructor].
  - destruct sent; [|done]. right. split; [done|]. intros Hu. destruct (Hf Hu) as (Hp & Ht' & Hk).
    eapply (settled_now _ _ _ _ resp); [|done..]. rewrite Hs. apply elem_of_app. right.
    by apply list_elem_of_singleton.
Qed.
Lemma consumed_after b p t n next s1 s2 s3 :
  advances s1 s2 -> consumed b p t n next s2 s3 -> consumed b p t n next s1 s3.
Proof. intros Ha [Hb Hc]. split; [by etrans|done]. Qed.
Lemma consume_runs p t kind n :
  runs (consume store closed p t kind n) (fun next s s' =>
    forall b, b <= tk_tick s -> found b p t kind s -> consumed b p t n next s s').
Proof.
  unfold consume, channel_closed. eapply runs_bind; [apply look_runs|]. intros gone. destruct gone.
  { apply runs_ret. intros s' s [Hw (k & Hk & Hlt)] b _ _. split; [apply Hw|]. exists k. split; [done|apply Hlt]. }
  destruct kind as [resp| | |e].
  - eapply runs_conseq; [apply (send_consumed p t n resp)|].
    intros next s1 s2 Hc s [[Hw _] _] b _ [Ha Hf]. eapply consumed_after; [exact Hw|].
    apply Hc; [|done]. eapply answered_mono; [apply Hw|exact Ha].
  - unfold look_db. eapply runs_bind; [apply look_runs|]. intros row.
    destruct (match row with Ok (Some r) => verdict_with_block r | _ => false end) eqn:Hv.
    + apply runs_ret. intros s2 s1 [Hw1 (k & Hk & Hl)] s [Hw _] b Hb Hf. split; [etrans; [apply Hw|apply Hw1]|].
      right. split; [done|]. intros _. destruct row as [[r|]|]; try done.
      eapply (settled_before _ _ _ _ k r); [|done|by right].
      destruct Hw as [[Hw _] _]. unfold looked in *. lia.
    + eapply runs_conseq; [apply (send_consumed p t n (miss_response p t))|].
      intros next s2 s3 Hc s1 [Hw1 _] s [Hw _] b _ Hf. eapply consumed_after; [etrans; [apply Hw|apply Hw1]|].
      apply Hc; [|done]. eapply answered_mono; [|by eapply answered_none].
      etrans; [apply Hw|apply Hw1].
  - apply runs_ret. intros s' s [Hw _] b _ (k & r & Hl & Hr & Hc). split; [apply Hw|]. right. split; [done|].
    intros _. eapply (settled_before _ _ _ _ k r); [|done|by left]. eapply looked_mono; [apply Hw|done].
  - apply runs_ret. intros s' s [Hw _] b _ _. split; [apply Hw|by left].
Qed.
(** After the outcomes of [slots]: the errors counted; with none, and the channel
    not found closed, every slot is settled. *)
Definition swept_slots (slots : list (Z * Z)) (e0 e : Z) s s' : Prop :=
  advances s s' /\ (e0 <= e)%Z /\
  ((exists k, closed k = true /\ k < tk_tick s') \/
   (e = e0 -> forall b p t, b <= tk_tick s -> (p, t) ∈ slots -> u8_ok t -> settled b p t s')).
Lemma consume_all_runs slots n :
  runs (consume_all store closed slots n) (swept_slots slots (ty_errored n)).
Proof.
  induction slots as [|[p t] slots IH] in n |- *; cbn [consume_all].
  { apply runs_ret. intros s. split_and!; [done|lia|]. right. intros _ b p t _ Hin. by apply not_elem_of_nil in Hin. }
  eapply runs_bind; [apply settle_slot_runs|]. intros kind.
  eapply runs_bind; [apply consume_runs|]. intros [n'|].
  - eapply runs_conseq; [apply IH|]. intros e s2 s3 (Ha3 & He & Hs) s1 Hc s [Hw Hf].
    assert (tk_tick s <= tk_tick s1) as Hb by apply Hw. destruct (Hc (tk_tick s) Hb Hf) as [Ha2 Hc']. split_and!; [|destruct Hc'; lia|].
    { etrans; [apply Hw|]. by etrans. }
    destruct Hs as [Hcl|Hs]; [by left|]. right. intros -> b p' t' Hb' Hin Hu.
    assert (tk_tick s1 <= tk_tick s2) as Hb2 by apply Ha2.
    apply elem_of_cons in Hin as [[= -> ->]|Hin]; [|destruct Hc'; apply Hs; auto with lia].
    destruct Hc' as [Hc'|[Hc' Hset]]; [lia|]. eapply settled_mono; [exact Ha3|].
    eapply settled_earlier; [exact Hb'|auto].
  - apply runs_ret. intros s2 s1 Hc s [Hw Hf].
    assert (tk_tick s <= tk_tick s1) as Hb by apply Hw. destruct (Hc _ Hb Hf) as [Ha2 Hc'].
    split_and!; [etrans; [apply Hw|done]|lia|by left].
Qed.

(** ** Passes *)
(** A channel once closed stays closed. *)
Definition stays_closed : Prop := forall i j, i <= j -> closed i = true -> closed j = true.
(** The channel was found closed by a look before the end. *)
Definition found_closed s : Prop := exists k, closed k = true /\ k < tk_tick s.
(** A pass consumes the outcome of every slot of its window, in some order. *)
Context (Hcomplete : forall n l, complete n l ≡ₚ l).

Definition window_settled (b : nat) cfg (head floor : Z) s : Prop :=
  forall p t, (floor <= p <= head)%Z -> (0 <= t < os_thread_count cfg)%Z -> u8_ok t -> settled b p t s.
Lemma window_later b b' cfg head floor s s' :
  b <= b' -> advances s s' -> window_settled b' cfg head floor s -> window_settled b cfg head floor s'.
Proof.
  intros Hb Ha Hs p t Hp Ht Hu. eapply settled_mono; [exact Ha|]. eapply settled_earlier; [exact Hb|]. by apply Hs.
Qed.
Lemma pass_runs cfg head floor pass :
  runs (run_oneshot_pass store closed complete cfg head floor pass) (fun e s s' =>
    advances s s' /\ (found_closed s' \/ (e = 0%Z -> window_settled (tk_tick s) cfg head floor s'))).
Proof.
  unfold run_oneshot_pass. eapply runs_conseq; [apply consume_all_runs|]. cbn.
  intros e s s' (Ha & _ & [Hc|Hs]); (split; [done|]); [by left|]. right. intros -> p t Hp Ht.
  apply Hs; [done|done|]. rewrite Hcomplete. by apply elem_of_slots_desc.
Qed.
Definition ended (b : nat) cfg (head floor : Z) (fin : ImportEnd) s : Prop :=
  match fin with
  | ImportComplete => stays_closed -> window_settled b cfg head floor s
  | ImportShutdown => found_closed s
  | ImportRunning => True
  end.
Lemma found_at b k s : true = closed k -> looked b k s -> found_closed s.
Proof. intros Hk [_ Hl]. by exists k. Qed.
Lemma passes_runs n pass cfg head floor :
  runs (oneshot_passes store closed complete n pass cfg head floor) (fun fin s s' =>
    advances s s' /\ ended (tk_tick s) cfg head floor fin s').
Proof.
  induction n as [|n IH] in pass |- *; cbn [oneshot_passes].
  { by apply runs_ret. }
  unfold channel_closed. eapply runs_bind; [apply look_runs|]. intros gone. destruct gone.
  { apply runs_ret. intros s' s [Hw (k & Hk & Hl)]. split; [apply Hw|]. by eapply found_at. }
  eapply runs_bind; [apply pass_runs|]. intros errored.
  eapply runs_bind; [apply look_runs|]. intros gone. destruct gone.
  { apply runs_ret. intros s3 s2 [Hw3 (k & Hk & Hl)] s1 [Ha _] s [Hw _]. split; [|by eapply found_at].
    etrans; [apply Hw|]. etrans; [exact Ha|apply Hw3]. }
  destruct (Z.eqb_spec errored 0) as [->|_].
  - apply runs_ret. intros s3 s2 [Hw3 (k & Hk & Hlt)] s1 [Ha Hs] s [Hw _].
    split; [etrans; [apply Hw|]; etrans; [exact Ha|apply Hw3]|]. intros Hcl.
    eapply window_later; [apply Hw|apply Hw3|]. destruct Hs as [(k' & Hk' & Hlt')|Hs]; [|by apply Hs].
    rewrite (Hcl k' k) in Hk by (done || unfold looked in Hlt; lia). done.
  - eapply runs_conseq; [apply IH|]. intros fin s3 s4 [Ha4 Hs4] s2 [Hw3 _] s1 [Ha _] s [Hw _].
    split; [etrans; [apply Hw|]; etrans; [exact Ha|]; by etrans; [apply Hw3|]|].
    destruct fin; [|done..]. intros Hcl. specialize (Hs4 Hcl). apply (window_later _ (tk_tick s3) _ _ _ s4); [|reflexivity|exact Hs4].
    destruct Hw as [[? _] _], Ha as [? _], Hw3 as [[? _] _]. lia.
Qed.
(** The head is the period of a slot read as the last final one. *)
Definition head_read (b : nat) (head : Z) s : Prop :=
  exists n slot, looked b n s /\ read_last_final_slot (store n) = Ok (Some slot) /\ head = slot_period slot.
Lemma wait_runs polls :
  runs (wait_for_head store closed polls) (fun found s s' => waits s s' /\
    match found with
    | Some (Some head) => head_read (tk_tick s) head s'
    | Some None => found_closed s'
    | None => True
    end).
Proof.
  induction polls as [|polls IH]; cbn [wait_for_head]; [by apply runs_ret|].
  unfold channel_closed. eapply runs_bind; [apply look_runs|]. intros gone. destruct gone.
  { apply runs_ret. intros s' s [Hw (k & Hk & Hl)]. split; [done|]. by eapply found_at. }
  unfold look_db. eapply runs_bind; [apply look_runs|]. intros row.
  assert (Hagain : runs (wait_for_head store closed polls) (fun found s2 s3 => forall s1,
    waits s1 s2 /\ (exists n, row = read_last_final_slot (store n) /\ looked (tk_tick s1) n s2) ->
    forall s, waits s s1 /\ (exists n, false = closed n /\ looked (tk_tick s) n s1) ->
    waits s s3 /\ match found with
      | Some (Some head) => head_read (tk_tick s) head s3 | Some None => found_closed s3 | None => True end)).
  { eapply runs_conseq; [apply IH|]. intros found s2 s3 [Hw3 Hh] s1 [Hw2 _] s [Hw1 _].
    split; [eapply waits_trans; [exact Hw1|]; by eapply waits_trans|].
    destruct found as [[head|]|]; [|done..]. destruct Hh as (n & slot & Hl & Hr). exists n, slot. split; [|done].
    destruct Hw1 as [[? _] _], Hw2 as [[? _] _]. unfold looked in *. lia. }
  destruct row as [[slot|]|]; try done.
  apply runs_ret. intros s2 s1 [Hw2 (n & E & Hl)] s [Hw1 _].
  split; [by eapply waits_trans|]. exists n, slot. split_and!; [|done..].
  destruct Hw1 as [[? _] _]. unfold looked in *. lia.
Qed.

(** The period the importer starts from. *)
Definition start_period (b : nat) cfg (head : Z) s : Prop :=
  match os_max_period cfg with Some p => head = p | None => head_read b head s end.
Lemma start_later b cfg head s s' : tk_tick s <= tk_tick s' -> start_period b cfg head s -> start_period b cfg head s'.
Proof.
  unfold start_period. destruct (os_max_period cfg); [done|]. intros Ht (n & slot & Hl & Hr). exists n, slot.
  split; [|done]. by eapply looked_mono.
Qed.
Lemma import_runs n cfg :
  runs (run_oneshot_import store closed complete n cfg) (fun fin s s' => advances s s' /\
    match fin with
    | ImportComplete => stays_closed -> exists head, start_period (tk_tick s) cfg head s' /\
        window_settled (tk_tick s) cfg head (default 0%Z (os_min_period cfg)) s'
    | ImportShutdown => found_closed s'
    | ImportRunning => True
    end).
Proof.
  unfold run_oneshot_import.
  eapply (runs_bind _ _ (fun found s s' => advances s s' /\
    match found with
    | Some (Some head) => start_period (tk_tick s) cfg head s' | Some None => found_closed s' | None => True end)).
  - unfold start_period. destruct (os_max_period cfg) as [p|].
    + by apply runs_ret.
    + eapply runs_conseq; [apply wait_runs|]. intros found s s' [Hw Hh]. by split; [apply Hw|].
  - intros [[head|]|].
    + eapply runs_conseq; [apply passes_runs|]. intros fin s1 s2 [Ha Hs] s [Ha1 Hh].
      split; [by etrans|]. destruct fin; [|done..]. intros Hcl. exists head.
      split; [eapply start_later; [apply Ha|exact Hh]|]. by apply (window_later _ (tk_tick s1) _ _ _ s2); [apply Ha1|reflexivity|apply Hs].
    + apply runs_ret. intros s' s [Ha Hf]. by split.
    + apply runs_ret. intros s' s [Ha _]. by split.
Qed.

(** ** Coming to an end *)
(** Once it has ended, more turns change nothing: [ImportRunning] is the cut alone. *)
Lemma wait_stable polls polls' s found s' : polls <= polls' ->
  wait_for_head store closed polls s = (Ok (Some found), s') ->
  wait_for_head store closed polls' s = (Ok (Some found), s').
Proof.
  revert polls' s. induction polls as [|polls IH]; intros polls' s Hle; [done|].
  destruct polls' as [|polls']; [lia|]. cbn [wait_for_head]. unfold mbind, ST_bind, channel_closed, look_db, look.
  destruct (closed _); [done|]. destruct (read_last_final_slot _) as [[slot|]|]; [done|..]; apply IH; lia.
Qed.
Lemma passes_stable n n' pass cfg head floor s fin s' : n <= n' -> fin <> ImportRunning ->
  oneshot_passes store closed complete n pass cfg head floor s = (Ok fin, s') ->
  oneshot_passes store closed complete n' pass cfg head floor s = (Ok fin, s').
Proof.
  intros Hle Hf. revert n' pass s Hle. induction n as [|n IH]; intros n' pass s Hle; cbn [oneshot_passes].
  { intros [= <- _]. done. }
  destruct n' as [|n']; [lia|]. cbn [oneshot_passes]. unfold mbind, ST_bind, channel_closed, look.
  destruct (closed _); [done|]. destruct (run_oneshot_pass _ _ _ _ _ _ _ _) as [[errored|e] s1]; [|done].
  destruct (closed _); [done|]. destruct (Z.eqb errored 0); [done|]. apply IH. lia.
Qed.
Lemma import_stable n n' cfg s fin s' : n <= n' -> fin <> ImportRunning ->
  run_oneshot_import store closed complete n cfg s = (Ok fin, s') ->
  run_oneshot_import store closed complete n' cfg s = (Ok fin, s').
Proof.
  intros Hle Hf. unfold run_oneshot_import, mbind, ST_bind. destruct (os_max_period cfg) as [p|]; cbn.
  { by apply passes_stable. }
  destruct (wait_for_head store closed n s) as [[[found|]|e] s1] eqn:Ew; [|by intros [= <- _]|done].
  rewrite (wait_stable n n' s found s1 Hle Ew). destruct found as [head|]; [|done]. by apply passes_stable.
Qed.

(** A source whose failures run out: [patience] bounds how many are left. *)
Definition runs_out (patience : Source -> nat) : Prop := forall p t src r src',
  fetch_slot p t src = (r, src') -> patience src' + (if is_ok r then 0 else 1) <= patience src.
Section patience.
Context (patience : Source -> nat) (Hpatience : runs_out patience).
Definition left s : nat := patience (lk_source (tk_own s)).
Definition failed (kind : FetchKind) : bool := match kind with FetchError _ => true | _ => false end.
(** A slot that stays in error has used up failures. *)
Definition costs (b : bool) s s' : Prop := left s' + (if b then 1 else 0) <= left s.

Lemma attempts_cost n p t e : runs (fetch_attempts n p t e) (fun kind s s' =>
  left s' <= left s /\ (0 < n -> costs (failed kind) s s')).
Proof.
  induction n as [|n IH] in e |- *; cbn [fetch_attempts]; [apply runs_ret; intros s; split; lia|].
  eapply (runs_bind _ _ (fun r s s' => costs (negb (is_ok r)) s s')).
  - intros s. unfold on_own, lookup_slot. destruct (fetch_slot p t (lk_source (tk_own s))) as [r src] eqn:E.
    do 2 eexists. split; [reflexivity|]. apply Hpatience in E. unfold costs, left. cbn. by destruct r.
  - intros [[f|]|e']; [apply runs_ret; unfold costs; cbn; lia..|].
    eapply runs_conseq; [apply IH|]. unfold costs. cbn. intros kind s1 s2 [Hl _] s Hc. destruct (failed kind); lia.
Qed.
Lemma look_costs {A} (f : nat -> A) : runs (look f) (fun _ s s' => tk_own s' = tk_own s).
Proof. intros s. by do 2 eexists. Qed.
Lemma settle_costs p t : runs (settle_slot store p t) (fun kind s s' => costs (failed kind) s s').
Proof.
  unfold settle_slot, look_db. eapply runs_bind; [apply look_costs|]. intros row.
  assert (runs (fetch_slot_resilient p t) (fun kind s1 s2 => forall s, tk_own s1 = tk_own s -> costs (failed kind) s s2)) as Hf.
  { eapply runs_conseq; [apply attempts_cost|]. unfold costs, left. intros kind s1 s2 [_ Hc] s <-. apply Hc. unfold FETCH_ATTEMPTS. lia. }
  destruct row as [[r|]|]; try done. destruct (slot_already_covered r); [|done].
  apply runs_ret. unfold costs, left. intros s1 s ->. cbn. lia.
Qed.
Lemma send_costs resp : runs (send_patch closed resp) (fun _ s s' => tk_own s' = tk_own s).
Proof. eapply runs_conseq; [apply send_runs|]. by intros ok s s' (_ & _ & E & _). Qed.
Lemma consume_costs p t kind n : runs (consume store closed p t kind n) (fun next s s' =>
  tk_own s' = tk_own s /\ forall n', next = Some n' -> ty_errored n' = (ty_errored n + (if failed kind then 1 else 0))%Z).
Proof.
  unfold consume, channel_closed. eapply runs_bind; [apply look_costs|]. intros gone. destruct gone; [by apply runs_ret|].
  assert (forall resp, runs (sent ← send_patch closed resp;
      mret (if sent : bool then Some (n <| ty_imported := (ty_imported n + 1)%Z |>) else None))
    (fun next s s' => tk_own s' = tk_own s /\ forall n', next = Some n' -> ty_errored n' = ty_errored n)) as Hsend.
  { intros resp. eapply runs_bind; [apply send_costs|]. intros sent. apply runs_ret. intros s1 s E.
    split; [exact E|]. destruct sent; [|done]. by intros n' [= <-]. }
  destruct kind as [resp| | |e]; cbn [failed].
  - eapply runs_conseq; [apply Hsend|]. intros next s1 s2 [E Hn] s E1. rewrite Z.add_0_r. split; [congruence|done].
  - unfold look_db. eapply runs_bind; [apply look_costs|]. intros row. case_match.
    + apply runs_ret. intros s2 s1 E1 s E. split; [congruence|]. intros n' [= <-]. by rewrite Z.add_0_r.
    + eapply runs_conseq; [apply Hsend|]. intros next s2 s3 [E Hn] s1 E1 s E0. rewrite Z.add_0_r. split; [congruence|done].
  - apply runs_ret. intros s1 s E. split; [exact E|]. intros n' [= <-]. by rewrite Z.add_0_r.
  - apply runs_ret. intros s1 s E. split; [exact E|]. by intros n' [= <-].
Qed.
Lemma consume_all_costs slots n : runs (consume_all store closed slots n) (fun e s s' =>
  costs (negb (Z.eqb e (ty_errored n))) s s').
Proof.
  induction slots as [|[p t] slots IH] in n |- *; cbn [consume_all].
  { apply runs_ret. intros s. rewrite Z.eqb_refl. unfold costs. cbn. lia. }
  eapply runs_bind; [apply settle_costs|]. intros kind.
  eapply runs_bind; [apply consume_costs|]. intros [n'|].
  - eapply runs_conseq; [apply IH|]. unfold costs, left. intros e s2 s3 Hc s1 [<- Hn] s Hk.
    rewrite (Hn n' eq_refl) in Hc. rewrite ?Z.add_0_r in Hc. destruct (failed kind); cbn in *.
    + destruct (negb _), (negb _); lia.
    + rewrite Z.add_0_r in Hc. lia.
  - apply runs_ret. unfold costs, left. intros s2 s1 [-> _] s Hk. rewrite Z.eqb_refl. cbn. destruct (failed kind); lia.
Qed.
Lemma passes_end n pass cfg head floor s fin s' :
  oneshot_passes store closed complete n pass cfg head floor s = (Ok fin, s') -> left s < n -> fin <> ImportRunning.
Proof.
  induction n as [|n IH] in pass, s |- *; [lia|]. cbn [oneshot_passes]. unfold mbind, ST_bind, channel_closed, look.
  destruct (closed _); [by intros [= <- _]|]. set (s0 := s <| tk_tick := _ |>).
  destruct (consume_all_costs (complete (S pass) (slot_seq floor head (os_thread_count cfg))) (mkTally 0 0 0) s0)
    as (e & s1 & E & Hc). unfold run_oneshot_pass. rewrite E. change (ty_errored _) with 0%Z in Hc.
  destruct (closed _); [by intros [= <- _]|]. destruct (Z.eqb e 0) eqn:Ee; [by intros [= <- _]|].
  intros Hrun Hl. eapply IH; [exact Hrun|]. assert (left s0 = left s) as E0 by done. change (left s1 < n). unfold costs in Hc. rewrite E0 in Hc. cbn [negb] in Hc. lia.
Qed.
End patience.

(** From the [m]-th look on, a slot is known to be final, or the channel is closed. *)
Definition head_known (m : nat) : Prop := forall i, m <= i ->
  closed i = true \/ exists slot, read_last_final_slot (store i) = Ok (Some slot).
Lemma wait_ends m polls s : stays_closed -> head_known m ->
  m - tk_tick s + 2 <= polls \/ closed (tk_tick s) = true /\ 1 <= polls ->
  exists found s', wait_for_head store closed polls s = (Ok (Some found), s') /\ tk_own s' = tk_own s.
Proof.
  intros Hcl Hm. induction polls as [|polls IH] in s |- *; intros Hp; [lia|]. cbn [wait_for_head].
  unfold mbind, ST_bind, channel_closed, look_db, look. set (s1 := s <| tk_tick := S (tk_tick s) |>).
  destruct (closed (tk_tick s)) eqn:Hc; [by exists None, s1|].
  set (s2 := s1 <| tk_tick := S (tk_tick s1) |>).
  assert (tk_tick s1 = S (tk_tick s) /\ tk_tick s2 = S (S (tk_tick s)) /\ tk_own s2 = tk_own s) as (T1 & T2 & Eo) by done.
  destruct (read_last_final_slot (store (tk_tick s1))) as [[slot|]|] eqn:Er; [by exists (Some (slot_period slot)), s2|..].
  all: destruct (IH s2) as (found & s' & E & Eo'); [|exists found, s'; split; [exact E|congruence]].
  all: destruct Hp as [Hp|[? _]]; [|congruence]; destruct (decide (m <= S (tk_tick s))) as [Hle|]; [|left; lia].
  all: right; split; [|lia]; destruct (Hm (tk_tick s1)) as [Hc1|[slot Hs]]; [lia| |congruence].
  all: apply (Hcl (tk_tick s1)); [lia|done].
Qed.
Lemma import_ends patience m n cfg s fin s' :
  runs_out patience -> stays_closed -> (os_max_period cfg = None -> head_known m) ->
  m + 2 <= n -> left patience s < n ->
  run_oneshot_import store closed complete n cfg s = (Ok fin, s') -> fin <> ImportRunning.
Proof.
  intros Hp Hcl Hm Hn Hl. unfold run_oneshot_import, mbind, ST_bind. destruct (os_max_period cfg) as [p|]; cbn.
  { intros E. by apply (passes_end patience Hp) in E. }
  destruct (wait_ends m n s Hcl (Hm eq_refl)) as (found & s1 & -> & Eo); [left; lia|].
  destruct found as [head|]; [|by intros [= <- _]]. intros E. apply (passes_end patience Hp) in E; [done|].
  unfold left in *. by rewrite Eo.
Qed.

(** C36. What the one-shot importer has done when it ends, and when it ends. The task goes
    on as long as it may: it waits for a first final slot, and sweeps its window again
    while lookups fail after their retries, so without a head, or on a source that
    keeps failing, it runs for ever. [n] turns of each loop are looked at;
    [ImportRunning] says that it had not ended by then, and any other end is the
    end for every larger [n]. Whatever the store, the channel and the source do:
    everything sent is what one of its lookups answered, the response the source
    gave, or a miss for a slot the source confirmed it has nothing for. When it
    declares its work complete, every slot from its floor up to the period it
    started from is settled: at one of the looks of this run, the store held a
    covered row or a FINAL verdict with a block, or a FINAL answer for the slot was
    sent; failed lookups send nothing and leave no slot behind, in whatever order the
    concurrent lookups complete. It stops short of that only when it finds the
    channel closed. And it does end, when the source fails only so often
    ([patience]) and, where no period to start from is configured, a slot becomes
    final (or the channel closes) by the [m]-th look: [n] above these bounds is
    enough. *)
Theorem import_complete_settles n cfg s :
  tk_sent s = [] -> stays_closed -> (os_thread_count cfg <= 256)%Z ->
  exists fin s', run_oneshot_import store closed complete n cfg s = (Ok fin, s') /\
    (forall resp, resp ∈ tk_sent s' -> answered (tk_own s') resp) /\
    (fin = ImportComplete -> exists head, start_period (tk_tick s) cfg head s' /\
       forall p t, (default 0 (os_min_period cfg) <= p <= head)%Z -> (0 <= t < os_thread_count cfg)%Z ->
         settled (tk_tick s) p t s') /\
    (fin = ImportShutdown -> found_closed s') /\
    (fin <> ImportRunning -> forall n', n <= n' ->
       run_oneshot_import store closed complete n' cfg s = (Ok fin, s')) /\
    (forall patience m, runs_out patience -> (os_max_period cfg = None -> head_known m) ->
       m + 2 <= n -> patience (lk_source (tk_own s)) < n -> fin <> ImportRunning).
Proof.
  intros Hs Hcl Hn. destruct (import_runs n cfg s) as (fin & s' & E & (_ & _ & new & En & Hf) & Hend).
  exists fin, s'. split_and!; [exact E| | | | |].
  - rewrite En, Hs. by apply Forall_forall.
  - intros ->. destruct (Hend Hcl) as (head & Hh & Hw). exists head. split; [done|].
    intros p t Hp Ht. apply Hw; [done..|unfold u8_ok; lia].
  - by intros ->.
  - intros Hr n' Hle. by apply (import_stable n n').
  - intros patience m Hp Hm Hmn Hl. by apply (import_ends patience m n cfg s fin s').
Qed.
End importer.
