(* ===== verification/LegacyProps.v ===== *)
(** * What the legacy bridge guarantees

    The descending key and its inverse, the calendar date of a request, paging,
    the response assembled for a slot, and the agreement of the module's decoders
    with the live ones. *)

From S2P Require Import Prelude Ids Keys Model Proto Codec CodecLemmas Store Db.
From S2P Require Import NodeMsg World Reconcile Ddb LegacyDecode LegacySource.

Section keys.
Open Scope Z_scope.

(** The legacy tables' descending slot key is exact on their domain: every slot
    with a thread below 100 whose packed number fits 32 bits is read back from its
    key, every 32-bit key is the key of the slot it decodes to, later slots have
    smaller keys, and beyond the domain the key saturates at 0 rather than wraps. *)
Lemma point_in_time_exact p t :
  u64_ok p -> u8_ok t -> t < 100 ->
  u32_ok (point_in_time p t) /\
  (p * 100 + t <= u32_max -> point_in_time_to_slot (point_in_time p t) = mkSlot p t) /\
  (u32_max < p * 100 + t -> point_in_time p t = 0) /\
  (forall p' t', u64_ok p' -> u8_ok t' -> t' < 100 ->
     p' * 100 + t' <= u32_max -> (p < p' \/ p = p' /\ t < t' <-> point_in_time p' t' < point_in_time p t)) /\
  (forall pit, u32_ok pit ->
     let slot := point_in_time_to_slot pit in
     u64_ok (slot_period slot) /\ u8_ok (slot_thread slot) /\ slot_thread slot < 100 /\
     point_in_time (slot_period slot) (slot_thread slot) = pit).
Proof.
  unfold u64_ok, u8_ok, u32_ok. intros Hp Ht H100.
  unfold point_in_time_to_slot, point_in_time, saturating_add_u64, saturating_mul_u64, u64_max, u32_max, as_u8.
  cbn [slot_period slot_thread].
  assert (2 ^ 64 = 18446744073709551616 /\ 2 ^ 32 = 4294967296 /\ 2 ^ 8 = 256) as (E64 & E32 & E8) by done.
  rewrite ?E64, ?E32, ?E8 in *. split_and!; [lia|lia| |lia| |].
  - intros Hd.
    match goal with |- context [?a - (?a - ?c)] =>
      replace (a - (a - c)) with (p * 100 + t) by lia end.
    rewrite Z.div_add_l, (Z.div_small t), Z.add_0_r by lia.
    by rewrite (Z.add_comm (p * 100)), Z_mod_plus_full, (Z.mod_small t) by lia; rewrite (Z.mod_small t) by lia.
  - intros p' t' Hp' Ht' H100' Hd. split; lia.
  - intros pit Hpit. set (q := 4294967296 - 1 - pit). assert (0 <= q < 4294967296) by lia.
    pose proof (Z.div_mod q 100). pose proof (Z.mod_pos_bound q 100).
    rewrite (Z.mod_small (q mod 100)) by lia. split_and!; lia.
Qed.
End keys.

(** ** Calendar dates *)
Section calendar.
Open Scope Z_scope.

(** The Gregorian calendar, by its rules. *)
Definition is_leap (y : Z) : bool :=
  (y mod 4 =? 0) && (negb (y mod 100 =? 0) || (y mod 400 =? 0)).
Definition days_in_month (y m : Z) : Z :=
  if m =? 2 then (if is_leap y then 29 else 28)
  else if (m =? 4) || (m =? 6) || (m =? 9) || (m =? 11) then 30 else 31.
Fixpoint days_before_month (y : Z) (n : nat) : Z :=
  match n with O => 0 | S n' => days_before_month y n' + days_in_month y (Z.of_nat n) end.
(** Days from 1 January of year 0 to 1 January of [y]. *)
Definition days_before_year (y : Z) : Z :=
  365 * y + (y + 3) / 4 - (y + 99) / 100 + (y + 399) / 400.
Lemma days_before_year_succ y :
  days_before_year (y + 1) = days_before_year y + if is_leap y then 366 else 365.
Proof.
  unfold days_before_year, is_leap.
  destruct (Z.eqb_spec (y mod 4) 0), (Z.eqb_spec (y mod 100) 0), (Z.eqb_spec (y mod 400) 0);
    cbn [andb orb negb]; Z.to_euclidean_division_equations; lia.
Qed.
Definition day_number (y m d : Z) : Z :=
  days_before_year y + days_before_month y (Z.to_nat (m - 1)) + d - 1.

(** The year of the 400-year era, counted from March, and the day within it. *)
Lemma era_year doe :
  0 <= doe < 146097 ->
  let yoe := (doe - doe / 1460 + doe / 36524 - doe / 146096) / 365 in
  let doy := doe - (365 * yoe + yoe / 4 - yoe / 100) in
  0 <= yoe <= 399 /\ 0 <= doy <= 365 /\ (doy = 365 -> is_leap (yoe + 1) = true).
Proof.
  intros Hd yoe doy. subst doy yoe. split_and!; [Z.to_euclidean_division_equations; lia..|].
  set (yoe := (doe - doe / 1460 + doe / 36524 - doe / 146096) / 365). intros E. unfold is_leap.
  assert ((yoe + 1) mod 4 = 0 /\ ((yoe + 1) mod 100 <> 0 \/ yoe = 399)) as [-> Hc]
    by (subst yoe; Z.to_euclidean_division_equations; lia).
  destruct Hc as [Hc| ->]; [|done]. by rewrite (proj2 (Z.eqb_neq _ _) Hc).
Qed.
Lemma is_leap_era y era : is_leap (y + era * 400) = is_leap y.
Proof.
  unfold is_leap. replace (era * 400) with (era * 100 * 4) at 1 by lia.
  replace (era * 400) with (era * 4 * 100) at 1 by lia.
  by rewrite !Z_mod_plus_full.
Qed.
(** Evaluates operations on literals. *)
Ltac zlit t := match t with Z0 => idtac | Zpos _ => idtac | Zneg _ => idtac end.
Ltac fold_lit op a b := zlit a; zlit b; let v := eval vm_compute in (op a b) in change (op a b) with v.
Ltac fold_lits :=
  repeat match goal with
  | |- context [Z.add ?a ?b] => fold_lit Z.add a b
  | |- context [Z.sub ?a ?b] => fold_lit Z.sub a b
  | |- context [Z.mul ?a ?b] => fold_lit Z.mul a b
  | |- context [Z.div ?a ?b] => fold_lit Z.div a b
  | |- context [Z.leb ?a ?b] => fold_lit Z.leb a b
  | |- context [Z.ltb ?a ?b] => fold_lit Z.ltb a b
  | |- context [Z.eqb ?a ?b] => fold_lit Z.eqb a b
  | |- context [Z.to_nat ?a] => zlit a; let v := eval vm_compute in (Z.to_nat a) in change (Z.to_nat a) with v
  | |- context [Z.of_nat ?n] =>
      let v := eval vm_compute in (Z.of_nat n) in zlit v; change (Z.of_nat n) with v
  end; cbv iota.
(** Month and day of a day counted from 1 March of a year whose February ends at
    the last one. *)
Lemma march_day y doy :
  0 <= doy <= 365 -> (doy = 365 -> is_leap (y + 1) = true) ->
  let mp := (5 * doy + 2) / 153 in
  let d := doy - (153 * mp + 2) / 5 + 1 in
  let m := if mp <? 10 then mp + 3 else mp - 9 in
  let y' := if m <=? 2 then y + 1 else y in
  1 <= m <= 12 /\ 1 <= d <= days_in_month y' m /\
  day_number y' m d = days_before_year y + (if is_leap y then 60 else 59) + doy.
Proof.
  intros Hd Hl mp d m y'.
  assert (0 <= mp <= 11) as Hmp by (subst mp; Z.to_euclidean_division_equations; lia).
  assert (153 * mp <= 5 * doy + 2 < 153 * (mp + 1)) as Hb
    by (subst mp; Z.to_euclidean_division_equations; lia).
  clearbody mp. subst d m y'. pose proof (days_before_year_succ y) as Hs.
  assert (mp = 0 \/ mp = 1 \/ mp = 2 \/ mp = 3 \/ mp = 4 \/ mp = 5 \/ mp = 6 \/ mp = 7 \/
          mp = 8 \/ mp = 9 \/ mp = 10 \/ mp = 11) as Hc by lia.
  unfold day_number.
  destruct Hc as [->|[->|[->|[->|[->|[->|[->|[->|[->|[->|[->| ->]]]]]]]]]]];
    fold_lits; simpl days_before_month; unfold days_in_month; fold_lits; cbn [orb];
    destruct (is_leap (y + 1)), (is_leap y); try (specialize (Hl ltac:(lia)); done);
    split_and!; lia.
Qed.
Lemma march_first y era :
  0 <= y <= 399 ->
  days_before_year (y + era * 400) + (if is_leap (y + era * 400) then 60 else 59) =
  60 + 365 * y + y / 4 - y / 100 + era * 146097.
Proof.
  intros Hy. pose proof (days_before_year_succ (y + era * 400)) as Hs.
  assert (days_before_year (y + era * 400 + 1) = 366 + 365 * y + y / 4 - y / 100 + era * 146097)
    by (unfold days_before_year; Z.to_euclidean_division_equations; lia).
  destruct (is_leap _); lia.
Qed.

(** The timestamp an AWS request is signed with is the UTC calendar date of the
    clock reading: a real month, a day of that month, a time of day, and together
    exactly the seconds since 1970; a reading before 1970 is taken as 1970. *)
Lemma epoch_to_utc_exact secs :
  secs <= 2 ^ 55 ->
  let '(y, m, d, hour, minute, second) := epoch_to_utc secs in
  1 <= m <= 12 /\ 1 <= d <= days_in_month y m /\
  0 <= hour < 24 /\ 0 <= minute < 60 /\ 0 <= second < 60 /\
  (day_number y m d - day_number 1970 1 1) * 86400 + hour * 3600 + minute * 60 + second
    = Z.max secs 0.
Proof.
  intros Hsecs. unfold epoch_to_utc. set (s := Z.max secs 0).
  assert (0 <= s <= 2 ^ 55) as Hs by lia. clearbody s.
  set (z := s / 86400 + 719468).
  assert (0 <= z <= 2 ^ 39) as Hz by (subst z; Z.to_euclidean_division_equations; lia).
  replace (0 <=? z) with true by (symmetry; lia). cbn iota.
  set (era := z / 146097). set (doe := z - era * 146097).
  assert (0 <= doe < 146097 /\ 0 <= era <= 2 ^ 23) as [Hdoe Hera]
    by (subst doe era; Z.to_euclidean_division_equations; lia).
  destruct (era_year doe Hdoe) as (Hyoe & Hdoy & Hleap).
  set (yoe := (doe - doe / 1460 + doe / 36524 - doe / 146096) / 365) in *.
  set (doy := doe - (365 * yoe + yoe / 4 - yoe / 100)) in *.
  destruct (march_day (yoe + era * 400) doy Hdoy) as (Hm & Hd & Hn).
  { intros E. rewrite <-(is_leap_era _ era) in Hleap.
    by replace (yoe + era * 400 + 1) with (yoe + 1 + era * 400) by lia; apply Hleap. }
  rewrite (march_first yoe era Hyoe) in Hn.
  set (mp := (5 * doy + 2) / 153) in *. set (m := if mp <? 10 then mp + 3 else mp - 9) in *.
  set (y := if m <=? 2 then yoe + era * 400 + 1 else yoe + era * 400) in *.
  assert (as_i32 y = y) as ->.
  { unfold as_i32. rewrite Z.mod_small; [lia|]. subst y. destruct (m <=? 2); lia. }
  split_and!; [lia|lia|lia|lia|Z.to_euclidean_division_equations; lia..|].
  change (day_number 1970 1 1) with 719528. rewrite Hn. subst doy doe z.
  Z.to_euclidean_division_equations; lia.
Qed.
End calendar.

(** ** The module's decoders *)
Section mirror.
Context `{Bs58, Base64, HexCrate, LegacyProst, NodeEncode, DenunciationDigest}.

(** C37. The legacy module's own copies of the live decoders agree with them on every
    message, the hexadecimal of its crate being the live module's lower-case
    digits: operation classification, endorsements and denunciations come out the
    same from the archive as from the node. *)
Theorem legacy_mirrors_ingest :
  (forall b, hex_crate_encode b = hex_encode b) ->
  (forall op_type, classify_op_type op_type = classify_op op_type) /\
  (forall se block slot now_ms,
     decode_signed_endorsement se block slot now_ms =
     node_decode_endorsement se block slot now_ms) /\
  (forall d, legacy_decode_denunciation d = decode_denunciation d).
Proof.
  intros Hhex. split_and!.
  - intros [[[[tx|n|n|e|c]|]]|]; cbn; rewrite ?Hhex; try done.
    do 2 f_equal. apply list_fmap_ext. intros _ x _. by rewrite !Hhex.
  - intros se block slot now_ms. unfold decode_signed_endorsement, node_decode_endorsement.
    destruct (se_content se) as [content|]; [|done]. cbn. by destruct (ne_slot content).
  - intros [[[pk [s|] h1 h2 s1 s2|pk [s|] i h1 h2 s1 s2|a [s|] [v|]]|]]; reflexivity.
Qed.
End mirror.

(** ** Runs of the source *)
Lemma DD_bind_ok {E A B} (m : DD E A) (f : A -> DD E B) s b s' :
  (m ≫= f) s = (Ok b, s') -> exists a s1, m s = (Ok a, s1) /\ f a s1 = (Ok b, s').
Proof. unfold mbind, DD_bind. destruct (m s) as [[a|e] s1]; [|done]. eauto. Qed.
Lemma DD_ret_ok {E A} (a b : A) (s s' : Ddb) : (mret a : DD E A) s = (Ok b, s') -> a = b /\ s = s'.
Proof. unfold mret, DD_ret. by intros [= -> ->]. Qed.
Lemma DD_lift_ok {E A} (r : result E A) s a s' : dd_lift r s = (Ok a, s') -> r = Ok a /\ s = s'.
Proof. unfold dd_lift. by intros [= -> ->]. Qed.
(** Takes a successful run apart, one call at a time. *)
Ltac dd_steps :=
  repeat match goal with
    | E : (_ ≫= _) _ = (Ok _, _) |- _ =>
        let a := fresh "a" in let s1 := fresh "s" in let E1 := fresh "E" in
        apply DD_bind_ok in E as (a & s1 & E1 & E); cbn beta iota in E
    | E : mret _ _ = (Ok _, _) |- _ => apply DD_ret_ok in E as [? ?]
    | E : dd_lift _ _ = (Ok _, _) |- _ => apply DD_lift_ok in E as [E ?]
    end.

Section source.
Context `{Bs58, Base64, HexCrate, ProstStorage, LegacyProst, NodeEncode, AwsOutside}.
Context (page_fuel : nat).

(** A transfer the source made from the archive for a slot and its block. *)
Record archived (slot : Slot) (block_hash : string) (t : StoredTransfer) : Prop := {
  ar_slot : tr_slot t = slot;
  ar_block : tr_block_id t = Some block_hash;
  ar_value : exists n, tr_value t = TVCoins n /\ n <> 0%Z;
  ar_final : tr_is_final t = true;
}.
Lemma sub_transfers_archived slot block_hash ts skip index rows :
  Forall (archived slot block_hash) (sub_transfers slot (Some block_hash) ts skip index rows).
Proof.
  induction rows as [|row rows IH] in index |- *; cbn [sub_transfers]; [done|].
  destruct (sub_transfer_row row) as [view|]; [|done].
  destruct (bool_decide _); [done|].
  unfold legacy_sub_transfer_to_transfer. destruct (negb _); [done|].
  destruct (Z.eqb_spec (st_amount_nmas view) 0) as [|Hne]; [done|].
  constructor; [|done]. split; [done..| |done]. by eexists.
Qed.
Lemma op_transfer_archived op slot block_hash i ts t :
  legacy_op_to_transfer op slot block_hash i ts = Some t ->
  archived slot block_hash t /\ tr_operation_id t = Some (id_to_string (op_id op)).
Proof.
  unfold legacy_op_to_transfer. destruct (negb _); [done|].
  destruct (od_amount_nmas (op_details op)) as [amount|]; [|done]. cbn.
  destruct (Z.eqb_spec amount 0) as [|Hne]; [done|].
  destruct (od_recipient_address (op_details op)) as [to|]; [|done]. cbn.
  intros [= <-]. split; [|done]. split; [done..| |done]. by eexists.
Qed.
Lemma try_map_elem {E A B} (f : A -> result E B) l l' b :
  try_map f l = Ok l' -> b ∈ l' -> exists a, a ∈ l /\ f a = Ok b.
Proof.
  induction l as [|a l IH] in l' |- *; cbn; [intros [= <-] Hb; by apply not_elem_of_nil in Hb|].
  destruct (f a) as [b'|] eqn:Hf; [|done]. destruct (try_map f l) as [bs|] eqn:Hl; [|done].
  intros [= <-] [->|Hb]%elem_of_cons; [exists a; split; [by left|done]|].
  destruct (IH _ eq_refl Hb) as (a' & Ha & E'). exists a'. split; [by right|done].
Qed.
(** The transfers synthesised from operations: each of an executed operation no
    explicit row names. *)
Lemma synthesised_spec slot block_hash ts covered ops t :
  t ∈ omap id (imap (synthesised_transfer slot block_hash ts covered) ops) ->
  archived slot block_hash t /\ exists d, d ∈ ops /\ do_executed d = true /\
    tr_operation_id t = Some (id_to_string (op_id (do_stored d))) /\
    id_to_string (op_id (do_stored d)) ∉ covered.
Proof.
  rewrite list_elem_of_omap. intros (o & Ho & Ht). apply elem_of_lookup_imap in Ho as (i & d & -> & Hd).
  unfold id, synthesised_transfer in Ht. destruct (do_executed d) eqn:Hex; [|done]. cbn in Ht.
  case_bool_decide as Hc; [done|]. apply op_transfer_archived in Ht as [Ha Ho].
  split; [done|]. exists d. split_and!; [by eapply list_elem_of_lookup_2|done..].
Qed.
Lemma block_row_view_ok p t row view :
  block_row_view p t row = Ok view -> br_slot view = mkSlot p t.
Proof.
  unfold block_row_view. intros E.
  repeat (apply result_bind_ok in E as (? & _ & E)).
  destruct (_ || _) eqn:Hs; [done|]. simplify_eq/=.
  apply orb_false_iff in Hs as [Hp Ht]. apply negb_false_iff, Z.eqb_eq in Hp, Ht.
  by rewrite <-Hp, <-Ht.
Qed.
Lemma decode_block_row_ok view now block ids ens :
  decode_block_row view now = Ok (block, ids, ens) ->
  BlockId_parse (br_hash view) = Ok (bl_id block) /\ bl_slot block = br_slot view /\
  bl_status block = BlockFinal.
Proof.
  unfold decode_block_row. intros E.
  do 4 (apply result_bind_ok in E as (? & _ & E)).
  apply result_bind_ok in E as (bid & Hb & E). apply result_bind_ok in E as (? & _ & E).
  simplify_eq/=. by destruct (BlockId_parse (br_hash view)); simplify_eq/=.
Qed.

(** What a response of the source carries. *)
Record fetched (p t : Z) (r : FinalSlotResponse) : Prop := {
  ft_slot : fr_period r = p /\ fr_thread r = t;
  ft_verdict : fr_final_known r = true /\ fr_is_miss r = false /\ fr_execution_trail_hash r = "";
  ft_block : exists block, fr_block r = ok (block_to_peer_pb block) /\
    BlockId_parse (fr_final_block_id r) = Ok (bl_id block) /\
    bl_slot block = mkSlot p t /\ bl_status block = BlockFinal;
  ft_transfers : forall pb, pb ∈ fr_transfers r -> exists tr,
    transfer_to_peer_pb tr = Some pb /\ archived (mkSlot p t) (fr_final_block_id r) tr;
  ft_executed : forall id, id ∈ fr_executed_op_ids r -> exists d,
    do_executed d = true /\ id_to_string (op_id (do_stored d)) = id /\
    (forall pb, operation_to_peer_pb (do_stored d) = Ok pb -> pb ∈ fr_operations r);
  ft_open : fr_sc_events r = [] /\ fr_async_msgs r = [] /\ fr_deferred_calls r = [] /\
    fr_completeness_known r = false /\ fr_has_exec_output r = false /\ fr_has_transfers r = false;
}.
Lemma with_ops_ok slot h ts covered ops r r' :
  with_ops slot h ts covered ops r = Ok r' ->
  exists tr, r' = r
    <| fr_operations := omap (fun d => ok (operation_to_peer_pb (do_stored d))) ops |>
    <| fr_executed_op_ids := omap (fun d =>
         if do_executed d then Some (id_to_string (op_id (do_stored d))) else None) ops |>
    <| fr_transfers := tr |> /\
    forall pb, pb ∈ tr -> exists t, transfer_to_peer_pb t = Some pb /\ archived slot h t.
Proof.
  unfold with_ops. intros E. apply result_bind_ok in E as (tr & Htr & [= <-]). exists tr.
  split; [done|]. intros pb Hpb. eapply try_map_elem in Htr as (t & Ht & Hpb'); [|exact Hpb].
  exists t. split; [by destruct (transfer_to_peer_pb t); simplify_eq/=|].
  by apply synthesised_spec in Ht as [Ha _].
Qed.
Lemma with_sub_transfers_ok slot h ts rows r r' :
  with_sub_transfers slot h ts rows r = Ok r' ->
  exists tr, r' = r <| fr_transfers := fr_transfers r ++ tr |> /\
    forall pb, pb ∈ tr -> exists t, transfer_to_peer_pb t = Some pb /\ archived slot h t.
Proof.
  unfold with_sub_transfers. intros E. apply result_bind_ok in E as (tr & Htr & [= <-]). exists tr.
  split; [done|]. intros pb Hpb. eapply try_map_elem in Htr as (t & Ht & Hpb'); [|exact Hpb].
  exists t. split; [by destruct (transfer_to_peer_pb t); simplify_eq/=|].
  pose proof (sub_transfers_archived slot h ts ∅ (decoded_op_count_top_level r) rows) as Hf.
  rewrite Forall_forall in Hf. by apply Hf.
Qed.
Lemma assemble_slot_ok p t row rpcs s f s' :
  assemble_slot page_fuel p t row rpcs s = (Ok f, s') -> fetched p t (lf_resp f).
Proof.
  unfold assemble_slot, lift_decode. intros E. dd_steps. subst.
  destruct a1 as [[block ids] ens]. dd_steps. subst.
  match goal with V : block_row_view _ _ _ = Ok ?v |- _ => pose proof (block_row_view_ok _ _ _ _ V) as Hslot end.
  match goal with D : map_err _ (decode_block_row ?v ?n) = Ok _ |- _ =>
    destruct (decode_block_row v n) as [[[b i] e]|] eqn:Hd; simplify_eq/= end.
  apply decode_block_row_ok in Hd as (Hid & Hbs & Hst).
  match goal with W : with_ops _ _ _ _ _ _ = Ok _ |- _ => apply with_ops_ok in W as (tr1 & -> & Htr1) end.
  match goal with W : with_sub_transfers _ _ _ _ _ = Ok _ |- _ =>
    apply with_sub_transfers_ok in W as (tr2 & -> & Htr2) end.
  rewrite Hslot in *. split; cbn; unfold constant; [done|done| | | |done].
  - by exists block.
  - intros pb [Hpb|Hpb]%elem_of_app; auto.
  - intros i Hi. apply list_elem_of_omap in Hi as (d & Hd & Hi). exists d.
    destruct (do_executed d); simplify_eq/=. split_and!; [done..|]. intros pb Hpb.
    apply list_elem_of_omap. exists d. by rewrite Hpb.
Qed.
Lemma ddb_fetch_slot_ok p t s f s' :
  ddb_fetch_slot page_fuel p t s = (Ok (Some f), s') ->
  within_window (dd_cfg s) p = true /\ fetched p t (lf_resp f).
Proof.
  unfold ddb_fetch_slot. intros E. dd_steps.
  match goal with G : dd_gets _ _ = (Ok _, _) |- _ => unfold dd_gets in G; injection G as <- <- end.
  destruct (within_window (dd_cfg s) p); cbn [negb] in E; [|dd_steps; done].
  split; [done|]. dd_steps. destruct a as [row|]; [|dd_steps; done]. dd_steps.
  destruct a as [row' rpcs]. dd_steps. subst. simplify_eq. by eapply assemble_slot_ok.
Qed.

(** The production source implements the interface the importer relies on. *)
#[export] Program Instance DdbLegacySource : LegacySource := {|
  Source := Ddb; fetch_slot := ddb_fetch_slot page_fuel |}.
Next Obligation.
  intros p t s f s' _ E. apply ddb_fetch_slot_ok in E as [_ [Hs Hv _ _ _ _]]. cbn. tauto.
Qed.

(** A slot fetched from the archive: the response is a FINAL, non-miss verdict
    for the slot asked, inside the operator's window; it names a real block, whose
    row is final and of that slot; every transfer in it is a final, non-zero coin
    movement of that slot and block; every operation it calls executed is one the
    archive marks executed, and is shipped when it can be encoded; and it claims
    nothing the archive cannot know (events, messages, completeness, trail). *)
Lemma legacy_fetch_sound p t s f s' :
  ddb_fetch_slot page_fuel p t s = (Ok (Some f), s') ->
  within_window (dd_cfg s) p = true /\ fetched p t (lf_resp f).
Proof. apply ddb_fetch_slot_ok. Qed.

Lemma list_pages_S fuel p t key s :
  list_pages (S fuel) p t key s =
  match rpc (query (slot_query (lc_operations_table (dd_cfg s)) p t None key)) s with
  | (Err e, s1) => (Err e, s1)
  | (Ok resp, s1) =>
      match next_key resp with
      | None => (Ok (qo_items resp), s1)
      | Some k =>
          match list_pages fuel p t (Some k) s1 with
          | (Ok rest, s2) => (Ok (qo_items resp ++ rest), s2)
          | (Err e, s2) => (Err e, s2)
          end
      end
  end.
Proof.
  cbn [list_pages]. unfold mbind, DD_bind, dd_gets.
  destruct (rpc _ s) as [[resp|e] s1]; [|done]. destruct (next_key resp) as [k|]; [|done].
  by destruct (list_pages fuel p t (Some k) s1) as [[rest|e] s2].
Qed.
(** Fuel only matters when it runs out. *)
Lemma list_pages_fuel fuel k p t key s :
  (list_pages fuel p t key s).1 <> Err LegacyPages ->
  list_pages (fuel + k) p t key s = list_pages fuel p t key s.
Proof.
  induction fuel as [|fuel IH] in key, s |- *; [done|].
  rewrite Nat.add_succ_l, !list_pages_S.
  destruct (rpc _ s) as [[resp|e] s1]; [|done]. destruct (next_key resp) as [k'|]; [|done].
  intros Hne. rewrite IH; [done|]. intros E. apply Hne.
  by destruct (list_pages fuel p t (Some k') s1) as [[rows|e] s2]; simplify_eq/=.
Qed.
(** The rows of a query whose answers end: the items of its pages, in order. *)
Inductive query_pages (p t : Z) : option Item -> Ddb -> list (list Item) -> Ddb -> Prop :=
| last_page key s resp s' :
    rpc (query (slot_query (lc_operations_table (dd_cfg s)) p t None key)) s = (Ok resp, s') ->
    next_key resp = None -> query_pages p t key s [qo_items resp] s'
| more_pages key s resp s1 k pages s' :
    rpc (query (slot_query (lc_operations_table (dd_cfg s)) p t None key)) s = (Ok resp, s1) ->
    next_key resp = Some k -> query_pages p t (Some k) s1 pages s' ->
    query_pages p t key s (qo_items resp :: pages) s'.
(** When the answers of a slot's query end, the rows listed are those of every
    page, in order, with any fuel of at least the number of pages; and every listing
    that does not run out of fuel is independent of it, errors included. *)
Lemma slot_rows_all_pages fuel p t key s :
  (forall pages s', query_pages p t key s pages s' -> length pages <= fuel ->
     list_pages fuel p t key s = (Ok (concat pages), s')) /\
  (forall k, (list_pages fuel p t key s).1 <> Err LegacyPages ->
     list_pages (fuel + k) p t key s = list_pages fuel p t key s).
Proof.
  split; [|intros k; apply list_pages_fuel]. intros pages s' Hp.
  induction Hp as [key s resp s' E Hn|key s resp s1 k pages s' E Hk Hp IH] in fuel |- *;
    (destruct fuel as [|fuel]; cbn [length concat]; [lia|]); rewrite list_pages_S, E.
  - rewrite Hn. by rewrite app_nil_r.
  - intros Hl. by rewrite Hk, (IH fuel) by lia.
Qed.
End source.
