(* ===== verification/Witnesses.v ===== *)
(** * Witnesses

    Concrete inputs at which the hypotheses of the properties hold: small
    stores of Concrete.v, built with the writers under study. *)

From S2P Require Import Prelude Ids Keys Model Proto Codec CodecLemmas CodecProps Store.
From S2P Require Import Concrete Text Db DbUpsert DbSlotRows DbProps NodeMsg World Tables.
From S2P Require Import Reconcile Arbiter Patch Ingest WorldLogic HandlerFrames SlotSafety.
From S2P Require Import FirstFinal PatchSafety RowSafety IngestProps.

#[export] Program Instance concrete_digest : DenunciationDigest := {|
  denunciation_digest _ := replicate 32 Byte.x00 |}.
Next Obligation. done. Qed.
#[export] Instance concrete_node_encode : NodeEncode := {|
  encode_signed_operation _ := []; encode_signed_header _ := [] |}.

(** ** Concrete data *)
Definition slot_a : Slot := mkSlot 7 3.
Definition hash_of (b : byte) : bytes := replicate 32 b.
Definition blk_1 : BlockId := BlockId_from_hash_bytes 0 (hash_of Byte.x01).
Definition blk_2 : BlockId := BlockId_from_hash_bytes 0 (hash_of Byte.x02).
Definition op_1 : OperationId := OperationId_from_hash_bytes 0 (hash_of Byte.x03).
Definition user_1 : Address := Address_user_from_hash_bytes 0 (hash_of Byte.x04).
Definition user_2 : Address := Address_user_from_hash_bytes 0 (hash_of Byte.x05).

(** A FINAL slot whose block [blk_1] is known and whose exec output is not. *)
Definition final_row : SlotState :=
  (SlotState_fresh slot_a 100)
    <| ss_status := SlotFinal |> <| ss_final_block_id := Some blk_1 |>
    <| ss_candidate_block_ids := [blk_1] |>.
Definition transfer_1 : StoredTransfer := {|
  tr_slot := slot_a; tr_index_in_slot := 0; tr_id := "t1"; tr_block_id := Some (id_to_string blk_1);
  tr_block_timestamp_ms := 5; tr_from := Some (addr_to_string user_1);
  tr_to := Some (addr_to_string user_2); tr_value := TVCoins 12; tr_origin := OpTransactionCoins;
  tr_operation_id := Some (id_to_string op_1); tr_async_msg_id := None;
  tr_deferred_call_id := None; tr_denunciation_index := None; tr_is_final := true;
  tr_first_seen_ts_ms := 9 |}.
Definition event_1 : StoredScEvent := mkScEvent slot_a 0 "hello" [user_1] [user_2] SlotFinal (Some op_1).
Definition block_1 : StoredBlock := {|
  bl_id := blk_1; bl_slot := slot_a; bl_creator := user_1; bl_parents := [blk_2];
  bl_operation_ids := [op_1]; bl_endorsements := []; bl_endorsement_ids := [];
  bl_denunciations := []; bl_current_version := 1; bl_announced_version := None;
  bl_operations_hash := "h"; bl_signature := "s"; bl_content_creator_pub_key := "pk";
  bl_serialized_size := 3; bl_raw_signed_header_b64 := ""; bl_status := BlockFinal;
  bl_first_seen_ts_ms := 100 |}.
Definition operation_1 : StoredOperation := {|
  op_id := op_1; op_creator := user_1; op_target := Some user_2; op_kind := OpTransaction;
  op_expire_period := 20; op_fee_nmas := 1; op_thread := 3;
  op_inclusions := [mkInclusion slot_a blk_1]; op_candidate_exec_status := Some ExecOk;
  op_final_exec_status := Some ExecOk; op_details := OperationDetails_default;
  op_signature := "s"; op_content_creator_pub_key := "pk"; op_serialized_size := 2;
  op_raw_signed_op_b64 := ""; op_first_seen_ts_ms := 100 |}.
Definition message_1 : StoredAsyncMsg :=
  (async_stub "m1" AmPending slot_a 50) <| am_sender := Some user_1 |>.
Definition call_1 : StoredDeferredCall :=
  (deferred_stub "d1" slot_a 50) <| dc_sender := Some user_1 |>.

Definition empty_db : DB (RocksDB := mem_rocks) := mem_empty.
Lemma empty_get cf k : get_cf empty_db cf k = None.
Proof. apply lookup_empty. Qed.

(** ** Stores *)
Definition slots_db := write_slot empty_db final_row.
Definition blocks_db := default slots_db (ok (write_block slots_db block_1)).
Definition full_db := default blocks_db (ok (write_op blocks_db operation_1)).
Definition transfers_db := write_transfer empty_db transfer_1.
Definition events_db := default empty_db (ok (write_sc_event empty_db event_1)).

Lemma empty_table_ok A `{!Table A} : table_ok A empty_db.
Proof. intros k a (v & Hv & _). by rewrite empty_get in Hv. Qed.
Lemma put_table_ok {A} `{!Table A} (a : A) d d' :
  tb_wf a -> puts_row a d d' -> table_ok A d -> table_ok A d'.
Proof.
  intros Hw Hp Hok. assert (Reflexive (fun _ _ : A => True)) by done.
  by destruct (puts_row_le (fun _ _ => True) a d d' Hw Hp (fun _ _ _ => I) Hok).
Qed.
Ltac wf_concrete := repeat (split || constructor); try done; by vm_compute.

Lemma final_row_enc : SlotState_enc final_row.
Proof. wf_concrete. Qed.
Lemma slots_table_ok : table_ok SlotState slots_db.
Proof.
  exact (put_table_ok final_row empty_db slots_db final_row_enc (write_slot_puts _ _)
    (empty_table_ok _)).
Qed.
Lemma block_1_enc : StoredBlock_enc block_1.
Proof. wf_concrete. Qed.
Lemma operation_1_enc : StoredOperation_enc operation_1.
Proof. wf_concrete. Qed.
Lemma blocks_written : write_block slots_db block_1 = Ok blocks_db.
Proof.
  unfold blocks_db, write_block. assert (is_ok (encode_block block_1) = true) as E by by vm_compute.
  by destruct (encode_block block_1).
Qed.
Lemma op_written : write_op blocks_db operation_1 = Ok full_db.
Proof.
  unfold full_db, write_op. assert (is_ok (encode_operation operation_1) = true) as E by by vm_compute.
  by destruct (encode_operation operation_1).
Qed.
(** Putting a row makes it readable and keeps the table well keyed. *)
Lemma puts_row_at {A} `{!Table A} (a : A) d d' :
  tb_wf a -> puts_row a d d' -> row_at d' (tb_key a) (tb_norm a).
Proof.
  intros Hw (v & Ev & Hg). exists v. rewrite Hg, bool_decide_eq_true_2 by done.
  eauto using tb_encode_decodes.
Qed.
Lemma no_rows_ok {A} `{!Table A} d : (forall k, get_cf d (tb_cf A) k = None) -> table_ok A d.
Proof. intros Hn k a (v & Hv & _). by rewrite Hn in Hv. Qed.
Lemma kept_table {A} `{!Table A} cfs (f : DB -> result Error DB) d d' :
  writes_in cfs f -> f d = Ok d' -> tb_cf A ∉ cfs -> same_cf (tb_cf A) d d'.
Proof. intros Hf E Hc. by apply (Hf d d' E). Qed.

Lemma slots_no_blocks k : get_cf slots_db CF_BLOCK k = None.
Proof.
  rewrite <- (empty_get CF_BLOCK k). by apply (write_slot_in final_row empty_db slots_db eq_refl); set_solver.
Qed.
Lemma full_block_table : table_ok StoredBlock full_db /\ row_at full_db (id_as_bytes blk_1) block_1.
Proof.
  pose proof (write_block_puts _ _ _ blocks_written) as Hp.
  assert (same_cf CF_BLOCK blocks_db full_db) as Hs
    by by apply (write_op_in operation_1 _ _ op_written); set_solver.
  split.
  - assert (table_ok StoredBlock blocks_db) as Hok.
    { eapply put_table_ok; [apply block_1_enc | exact Hp | apply no_rows_ok, slots_no_blocks]. }
    intros k b. rewrite (same_cf_row_at blocks_db full_db) by exact Hs. apply Hok.
  - rewrite (same_cf_row_at blocks_db full_db) by exact Hs.
    exact (puts_row_at block_1 _ _ block_1_enc Hp).
Qed.
Lemma full_op_table :
  table_ok StoredOperation full_db /\ row_at full_db (id_as_bytes op_1) operation_1.
Proof.
  pose proof (write_op_puts _ _ _ op_written) as Hp. split.
  - eapply put_table_ok; [apply operation_1_enc | exact Hp |]. apply no_rows_ok. intros k.
    assert (same_cf CF_OP slots_db blocks_db) as -> by by apply (write_block_in block_1 _ _ blocks_written); set_solver.
    rewrite <- (empty_get CF_OP k). by apply (write_slot_in final_row empty_db slots_db eq_refl); set_solver.
  - exact (puts_row_at operation_1 _ _ operation_1_enc Hp).
Qed.
Definition full_world := mkWorld full_db [].

Lemma slots_row : row_at slots_db (slot_key 7 3) final_row.
Proof.
  destruct (write_slot_puts empty_db final_row) as (v & Ev & Hg).
  exists v. split; [apply Hg|]. injection Ev as <-. apply (slot_state_roundtrip_norm final_row final_row_enc).
Qed.

Lemma mem_write_get (d : mem_db) ops cf k :
  get_cf (RocksDB := mem_rocks) (db_write (RocksDB := mem_rocks) d ops) cf k =
  batch_lookup ops cf k (get_cf (RocksDB := mem_rocks) d cf k).
Proof. apply get_cf_write. Qed.

Lemma empty_slot_rows {R} `{SlotRow R} : slot_rows_ok (R := R) empty_db.
Proof. intros k raw Hg. by rewrite empty_get in Hg. Qed.
Lemma empty_slot_index {R} `{SlotRow R} : slot_index_exact (R := R) empty_db.
Proof.
  intros cf k _. rewrite empty_get. split; [by intros []|].
  intros (r & (raw & Hg & _) & _). by rewrite empty_get in Hg.
Qed.
Lemma empty_rows {R} `{UpsertRow R} : rows_ok (R := R) empty_db.
Proof. intros k raw Hg. by rewrite empty_get in Hg. Qed.
Lemma empty_index {R} `{UpsertRow R} : index_exact (R := R) empty_db.
Proof.
  intros cf k _. rewrite empty_get. split; [by intros []|].
  intros (r & (raw & Hg & _) & _). by rewrite empty_get in Hg.
Qed.

Lemma write_row_ok {R} `{SlotRow R} (r : R) d' :
  sr_wf r -> slot_write empty_db r = Ok d' ->
  slot_rows_ok (R := R) d' /\ slot_index_exact (R := R) d' /\ stored d' r.
Proof.
  intros Hw E. destruct (slot_write_spec empty_db r empty_slot_rows empty_slot_index Hw (empty_get _ _))
    as (d1 & E1 & H1 & H2 & H3 & _).
  rewrite E in E1. injection E1 as <-. split_and!; [done..|]. apply H3. by left.
Qed.
Lemma transfer_row_ok :
  slot_rows_ok (R := StoredTransfer) transfers_db /\
  slot_index_exact (R := StoredTransfer) transfers_db /\ stored transfers_db transfer_1.
Proof. apply write_row_ok; [wf_concrete|]. symmetry. apply write_transfer_alt. Qed.
Lemma transfer_stored : stored transfers_db transfer_1.
Proof. apply transfer_row_ok. Qed.
Lemma transfers_ok :
  slot_rows_ok (R := StoredTransfer) transfers_db /\
  slot_index_exact (R := StoredTransfer) transfers_db.
Proof. destruct transfer_row_ok as (? & ? & _). done. Qed.
Lemma events_ok :
  slot_rows_ok (R := StoredScEvent) events_db /\
  slot_index_exact (R := StoredScEvent) events_db /\ stored events_db event_1.
Proof.
  apply write_row_ok; [wf_concrete|]. rewrite <- write_sc_event_alt.
  unfold events_db. by destruct (write_sc_event empty_db event_1) eqn:E.
Qed.

(** A node frame that calls the slot of [final_row] a miss. *)
Definition miss_frame : SlotExecutionOutput :=
  mkSlotExec 2 (Some (mkExecOutput (Some (mkNodeSlot 7 3)) None [] None)).
Definition slots_world := mkWorld slots_db [].

Lemma handle_first_final_wins_witness :
  table_ok SlotState slots_db /\ row_at slots_db (slot_key 7 3) final_row /\
  exists s', row_at (w_db (handle (EvExec miss_frame) 200 slots_world)) (slot_key 7 3) s' /\
    slot_kept final_row s' /\ slot_le final_row s'.
Proof.
  split; [apply slots_table_ok|]. split; [apply slots_row|].
  destruct (handle_first_final_wins (EvExec miss_frame) 200 slots_world slots_table_ok) as [_ H].
  destruct (H _ _ slots_row) as (s' & Hs & K & L). exists s'. split; [done|]. split; [done|].
  apply L. by intros [].
Defined.

Lemma handle_ops_monotone_witness :
  table_ok StoredOperation full_db /\
  exists o', row_at (w_db (handle (EvExec miss_frame) 200 full_world)) (id_as_bytes op_1) o' /\
    op_le operation_1 o'.
Proof.
  destruct full_op_table as [Hok Hrow]. split; [done|].
  destruct (handle_ops_monotone (EvExec miss_frame) 200 full_world Hok) as [_ H]. by apply H.
Defined.

Lemma handle_blocks_monotone_witness :
  table_ok StoredBlock full_db /\
  exists b', row_at (w_db (handle (EvExec miss_frame) 200 full_world)) (id_as_bytes blk_1) b' /\
    block_le block_1 b'.
Proof.
  destruct full_block_table as [Hok Hrow]. split; [done|].
  destruct (handle_blocks_monotone (EvExec miss_frame) 200 full_world Hok) as [_ H]. by apply H.
Defined.

(** ** Readers and writers of db.rs *)
Lemma slots_family : slot_family_ok slots_db.
Proof.
  intros k v Hg. destruct (write_slot_puts empty_db final_row) as (w & Ew & Hw).
  change (get_cf slots_db CF_SLOT k) with (get_cf (write_slot empty_db final_row) CF_SLOT k) in Hg.
  rewrite Hw in Hg. case_bool_decide as E; [|by rewrite empty_get in Hg].
  injection Hg as <-. injection Ew as <-. exists final_row.
  split; [apply (slot_state_roundtrip_norm final_row final_row_enc)|].
  split; [by repeat split|]. split; [by vm_compute|]. exact E.
Qed.
Lemma iter_slots_desc_pages_witness :
  slot_family_ok slots_db /\
  exists L, final_row ∈ L /\
    follow (S (length (iterator_cf slots_db CF_SLOT Start)))
      (fun after => iter_slots_desc slots_db after 1) None = Some (Ok L).
Proof.
  split; [apply slots_family|].
  destruct (iter_slots_desc_pages slots_db 1 slots_family Nat.lt_0_1) as (L & Hf & _ & HL).
  exists L. split; [|apply Hf, Nat.lt_succ_diag_r]. apply HL. split.
  - exact (proj2 (tb_read_Some slots_db (slot_key 7 3) final_row) slots_row).
  - split; [by repeat split | by vm_compute].
Defined.

Lemma scan_prefix_pages_witness :
  length (addr_as_bytes user_1) = ADDR_KEY_LEN /\
  exists hits, (7, 3, id_as_bytes op_1)%Z ∈ hits /\
    follow (S (length (prefix_entries full_db IDX_OP_BY_CREATOR (addr_as_bytes user_1))))
      (fun after => iter_ops_by_creator full_db user_1 after 1) None =
      Some (Ok (omap (fun h : Z * Z * bytes => OperationId_from_key_bytes h.2) hits)).
Proof.
  split; [done|].
  destruct (scan_prefix_pages OperationId_from_key_bytes full_db IDX_OP_BY_CREATOR
    (addr_as_bytes user_1) 1 (S (length (prefix_entries full_db IDX_OP_BY_CREATOR
    (addr_as_bytes user_1)))) eq_refl Nat.lt_0_1 (Nat.lt_succ_diag_r _)) as (hits & Hf & _ & Hh).
  exists hits. split; [|exact Hf]. apply Hh. clear Hf Hh.
  refine (conj _ (conj _ (conj _ _))); [done|done|reflexivity|].
  pose proof op_written as E. unfold write_op in E.
  destruct (encode_operation operation_1) as [v|]; [|done]. assert (full_db = db_write blocks_db (Put CF_OP (id_as_bytes (op_id operation_1)) v ::
    op_index_puts operation_1)) as -> by (symmetry; injection E; done).
  rewrite get_cf_write. by eexists.
Defined.

Lemma iter_transfers_by_op_complete_witness :
  slot_rows_ok (R := StoredTransfer) transfers_db /\ Id_wf op_1 /\
  exists L, transfer_1 ∈ L /\
    follow (S (length (prefix_entries transfers_db IDX_TRANSFER_BY_OP (id_as_bytes op_1))))
      (fun after => iter_transfers_by_op transfers_db op_1 after 1) None = Some (Ok L).
Proof.
  destruct transfers_ok as [Hr Hi]. split; [done|]. assert (Id_wf op_1) as Hw by by vm_compute.
  split; [done|].
  destruct (iter_transfers_by_op_complete transfers_db op_1 1
    (S (length (prefix_entries transfers_db IDX_TRANSFER_BY_OP (id_as_bytes op_1))))
    Hr Hi Hw Nat.lt_0_1 (Nat.lt_succ_diag_r _)) as (L & Hf & HL).
  exists L. split; [|exact Hf]. apply HL. split; [exact transfer_stored|].
  exists (id_to_string op_1). split; [done|]. by apply id_parse_of_wf.
Defined.

Lemma write_async_msg_exact_witness :
  StoredAsyncMsg_wf message_1 /\
  exists d', write_async_msg empty_db message_1 = Ok d' /\
    index_exact (R := StoredAsyncMsg) d' /\ read_async_msg d' "m1" = Ok (Some message_1).
Proof.
  assert (StoredAsyncMsg_wf message_1) as Hw by wf_concrete. split; [done|].
  destruct (write_async_msg_exact empty_db message_1 empty_rows empty_index Hw)
    as (d' & E & _ & Hi & Hr & _).
  exists d'. split; [done|]. split; [done|]. rewrite Hr, decide_True by done.
  unfold read_async_msg at 1, read_row. by rewrite empty_get.
Defined.
Lemma write_deferred_call_exact_witness :
  StoredDeferredCall_wf call_1 /\
  exists d', write_deferred_call empty_db call_1 = Ok d' /\
    index_exact (R := StoredDeferredCall) d' /\ read_deferred_call d' "d1" = Ok (Some call_1).
Proof.
  assert (StoredDeferredCall_wf call_1) as Hw by wf_concrete. split; [done|].
  destruct (write_deferred_call_exact empty_db call_1 empty_rows empty_index Hw)
    as (d' & E & _ & Hi & Hr & _).
  exists d'. split; [done|]. split; [done|]. rewrite Hr, decide_True by done.
  unfold read_deferred_call at 1, read_row. by rewrite empty_get.
Defined.

Lemma clear_sc_events_exact_witness :
  stored (R := StoredScEvent) events_db event_1 /\
  ~ stored (R := StoredScEvent) (clear_sc_events_for_slot events_db 7 3) event_1.
Proof.
  destruct events_ok as (Hr & Hi & Hs). split; [done|].
  destruct (clear_sc_events_exact events_db slot_a Hr Hi ltac:(by repeat split)) as (_ & _ & H & _).
  intros Hst. by apply H in Hst as [_ []].
Defined.
Lemma clear_transfers_exact_witness :
  stored (R := StoredTransfer) transfers_db transfer_1 /\
  ~ stored (R := StoredTransfer) (clear_transfers_for_slot transfers_db 7 3) transfer_1.
Proof.
  destruct transfers_ok as (Hr & Hi). split; [exact transfer_stored|].
  destruct (clear_transfers_exact transfers_db slot_a Hr Hi ltac:(by repeat split)) as (_ & _ & H & _).
  intros Hst. by apply H in Hst as [_ []].
Defined.
