(* ===== verification/IngestWitnesses.v ===== *)
(** * Witnesses of the ingestion state machine

    Concrete frames, blocks and schedules at which the hypotheses of the
    properties of ingest.rs hold. *)

From S2P Require Import Prelude Ids Keys Model Proto Codec CodecLemmas CodecProps Store.
From S2P Require Import Concrete Text Db DbUpsert DbSlotRows DbProps NodeMsg World Tables.
From S2P Require Import Reconcile Arbiter Patch Ingest WorldLogic HandlerFrames SlotSafety.
From S2P Require Import FirstFinal PatchSafety RowSafety SlotReplace TransferProps ExecProps.
From S2P Require Import BlockProps IngestProps Scheduler Cli CliProps ReindexProps IndexFamilies.
From S2P Require Import IndexSafety IndexProps Witnesses.

Definition empty_world := mkWorld empty_db [].

(** The result of a handler whose first component is known to be [Ok]. *)
Lemma run_ok (m : ST World unit) w : is_ok (m w).1 = true -> m w = (Ok tt, (m w).2).
Proof. by destruct (m w) as [[[]|] ?]. Qed.

(** ** Execution outputs *)
Definition node_event : ScExecutionEvent :=
  mkExecEvent (Some (mkEventContext [addr_to_string user_1; addr_to_string user_2]
    (Some (id_to_string op_1)))) [Byte.x68; Byte.x69].
Definition settling_output : ExecutionOutput :=
  mkExecOutput (Some (mkNodeSlot 7 3)) (Some (id_to_string blk_1)) [node_event]
    (Some (mkStateChanges [] [mkOpsEntry (id_to_string op_1) (Some 1%Z)]
      (Some (mkSetOrKeep (Some (ChangeSet "trail")))))).
Definition settling_frame : SlotExecutionOutput := mkSlotExec 2 (Some settling_output).

Lemma handle_exec_ignored_witness :
  exec_frame miss_frame (mkExecOutput (Some (mkNodeSlot 7 3)) None [] None) (mkNodeSlot 7 3) /\
  handle (EvExec miss_frame) 200 slots_world = slots_world.
Proof.
  split; [done|].
  apply (handle_exec_ignored miss_frame (mkExecOutput (Some (mkNodeSlot 7 3)) None [] None)
    (mkNodeSlot 7 3) 200 slots_world final_row); [done| |done|].
  - exact (proj2 (read_slot_Some slots_db 7 3 final_row) slots_row).
  - right. left. right. left. done.
Defined.

Lemma handle_exec_settles_witness :
  exists w' s, dispatch (EvExec settling_frame) 200 empty_world = (Ok tt, w') /\
    read_slot (w_db w') 7 3 = Ok (Some s) /\ settled_by settling_output s.
Proof.
  pose (w' := (dispatch (EvExec settling_frame) 200 empty_world).2).
  assert (dispatch (EvExec settling_frame) 200 empty_world = (Ok tt, w')) as E
    by (apply run_ok; by vm_compute).
  exists w'. clearbody w'.
  destruct (handle_exec_settles settling_frame settling_output (mkNodeSlot 7 3) 200 empty_world w')
    as ((s & Hs & Hset) & _); [done|done|done|done| | | | |exact E|].
  - apply empty_table_ok.
  - apply empty_slot_rows.
  - apply empty_slot_index.
  - intros s Hs. apply read_slot_Some in Hs as (v & Hv & _). by rewrite empty_get in Hv.
  - exists s. split; [exact E|]. split; [exact Hs | exact Hset].
Defined.

(** ** Blocks *)
Definition node_op : SignedOperation := {|
  so_content := Some (mkNodeOperation (Some (mkAmount 1 0)) 20
    (Some (mkOperationType (Some (OtTransaction
       (mkNodeTransaction (addr_to_string user_2) (Some (mkAmount 12 0))))))));
  so_signature := "s"; so_content_creator_pub_key := "pk";
  so_content_creator_address := addr_to_string user_1;
  so_secure_hash := id_to_string op_1; so_serialized_size := 2 |}.
Definition node_header : NodeBlockHeader :=
  mkNodeBlockHeader 1 None (Some (mkNodeSlot 7 3)) [id_to_string blk_2] "h" [] [].
Definition node_block : FilledBlock :=
  mkFilledBlock (Some {| sh_content := Some node_header; sh_signature := "s";
      sh_content_creator_pub_key := "pk"; sh_content_creator_address := addr_to_string user_1;
      sh_secure_hash := id_to_string blk_1; sh_serialized_size := 3 |})
    [mkFilledOp "" (Some node_op)].
Definition block_head_1 : BlockHead :=
  default (mkHead blk_1 slot_a user_1 (mkSignedBlockHeader None "" "" "" "" 0) node_header)
    (ok (block_head node_block)).

Lemma handle_block_records_witness :
  block_head node_block = Ok block_head_1 /\
  exists w', dispatch (EvBlock node_block) 200 empty_world = (Ok tt, w') /\
    included (w_db w') (mkInclusion (hd_slot block_head_1) (hd_block_id block_head_1)) op_1.
Proof.
  assert (block_head node_block = Ok block_head_1) as Hh by by vm_compute.
  pose (w' := (dispatch (EvBlock node_block) 200 empty_world).2).
  assert (dispatch (EvBlock node_block) 200 empty_world = (Ok tt, w')) as E
    by (apply run_ok; by vm_compute).
  split; [exact Hh|]. exists w'. clearbody w'. split; [exact E|].
  destruct (handle_block_records node_block block_head_1 200 empty_world w'
    (empty_table_ok _) (empty_table_ok _) (empty_table_ok _) Hh E) as (_ & H & _).
  apply H. assert (block_operation_ids node_block = [op_1]) as -> by by vm_compute.
  apply list_elem_of_singleton. reflexivity.
Defined.

(** ** Transfers *)
Definition node_transfer (origin : Z) (op : option string) (n : Z) : ExecTransferInfo := {|
  ti_id := "t"; ti_from_address := Some (addr_to_string user_1);
  ti_to_address := Some (addr_to_string user_2);
  ti_value := Some (Some (NvCoins (mkAmount n 0))); ti_origin := origin; ti_operation_id := op;
  ti_async_msg_id := None; ti_deferred_call_id := None; ti_denunciation_index := None |}.
Definition transfers_frame : TransfersResponse :=
  mkTransfersResponse (Some (mkNodeSlot 7 3)) 5 None
    [node_transfer 7 (Some "O1") 4; node_transfer 11 None 0; node_transfer 11 None 6].

Lemma transfer_rows_dense_witness :
  tr_index_in_slot <$> transfer_rows slot_a transfers_frame 9 0 (tr_resp_transfers_info transfers_frame)
  = [0; 1]%Z.
Proof. rewrite (transfer_rows_dense slot_a transfers_frame 9) by done. by vm_compute. Defined.

Lemma handle_transfers_replaces_witness :
  frame_ok transfers_frame (mkNodeSlot 7 3) /\ stored transfers_db transfer_1 /\
  ~ stored (w_db (handle (EvTransfers transfers_frame) 9 (mkWorld transfers_db []))) transfer_1.
Proof.
  destruct transfers_ok as [Hr Hi].
  assert (frame_ok transfers_frame (mkNodeSlot 7 3)) as Hf.
  { split; [done|]. split; [done|]. split; [done|]. repeat constructor; done. }
  split; [done|]. split; [exact transfer_stored|].
  destruct (handle_transfers_replaces transfers_frame (mkNodeSlot 7 3) 9 (mkWorld transfers_db []) Hf Hr Hi)
    as (_ & _ & Hst).
  intros Hs. apply Hst in Hs as [Hs|[_ []]]; [|reflexivity]. revert Hs. clear.
  apply (bool_decide_unpack (~ (transfer_1 ∈ frame_rows transfers_frame slot_a 9))). by vm_compute.
Defined.

(** ** Schedules *)
Definition start (w : World) : Ingest :=
  mkIngest w (Some (mkLane [] false)) (Some (mkLane [] false)).

Lemma execution_first_final_witness :
  exists i s', execution (fun w ev => ~ overruled (w_db w) ev (slot_key 7 3)) (start slots_world) i /\
    row_at (w_db (ig_world i)) (slot_key 7 3) s' /\ slot_le final_row s'.
Proof.
  pose (i1 := mkIngest slots_world (Some (mkLane [EvExec miss_frame] false)) (Some (mkLane [] false))).
  pose (i2 := mkIngest (handle (EvExec miss_frame) 200 slots_world) (Some (mkLane [] false))
                (Some (mkLane [] false))).
  assert (execution (fun w ev => ~ overruled (w_db w) ev (slot_key 7 3)) (start slots_world) i2) as X.
  { apply (ex_next _ _ None i1); [exact (tr_send_live (start slots_world) (EvExec miss_frame)) | done |].
    apply (ex_next _ _ (Some (EvExec miss_frame)) i2);
      [exact (tr_step i1 200 i2 eq_refl) | | apply ex_refl].
    intros ev [= <-]. by intros []. }
  exists i2.
  destruct (execution_first_final (slot_key 7 3) final_row (start slots_world) i2 slots_table_ok X
    slots_row) as (s' & Hs & L).
  exists s'. split; [exact X|]. by split.
Defined.

Lemma run_drains_witness :
  run (mkIngest empty_world (Some (mkLane [EvTick] true)) (Some (mkLane [EvTick; EvTick] true)))
    [1; 0; 2; 3; 0; 0]%Z =
  Some (mkWorld empty_db [Heartbeat 1; Heartbeat 2; Heartbeat 3]).
Proof.
  refine (run_drains empty_world [EvTick] [EvTick; EvTick] [1]%Z [2; 3]%Z [] 0 0 0 _ _); done.
Defined.
Lemma run_serves_witness :
  lane_open (ig_live (start empty_world)) || lane_open (ig_bulk (start empty_world)) = true /\
  run (start empty_world) [1; 2; 3]%Z = None.
Proof. split; [done|]. apply (run_serves (start empty_world)). done. Defined.

(** ** Exact indexes *)
(** Lower-case hexadecimal, both ways. *)
Definition unhex_digit (b : byte) : option Z :=
  let x := byte.unsigned b in
  if ((48 <=? x) && (x <=? 57))%Z then Some (x - 48)%Z
  else if ((97 <=? x) && (x <=? 102))%Z then Some (x - 87)%Z else None.
Fixpoint unhex (l : bytes) : option bytes :=
  match l with
  | [] => Some []
  | [_] => None
  | a :: b :: l' =>
      x ← unhex_digit a; y ← unhex_digit b; r ← unhex l'; Some (byte.of_Z (16 * x + y) :: r)
  end.
Program Definition lower_hex : HexCrate := {|
  hex_crate_encode := hex_encode; hex_crate_decode s := unhex (as_bytes s) |}.
Next Obligation.
  intros b. cbn. unfold hex_encode. rewrite as_of_bytes.
  induction b as [|x b IH]; [done|]. rewrite bind_cons. cbn [app unhex].
  rewrite IH. by destruct x.
Qed.
(** Without rows of any family, the indexes are exact. *)
Lemma sparse_exact `{HexCrate} (d : @DB mem_rocks) :
  (forall f c k, c ∈ family_cfs f -> get_cf d c k = None) -> indexes_exact d.
Proof.
  intros Hall. apply exact_families. intros f. pose proof (Hall f) as Hd.
  assert (forall A (HA : Indexed A), ix_cf A ∈ family_cfs f ->
    indexed_ok A d /\ forall ck, ~ called_for A d ck) as HA.
  { intros A HA Hc. split; [intros k raw Hg|intros ck (k & raw & a & Hg & _)]; by rewrite (Hd _ _ Hc) in Hg. }
  destruct f; (split; [apply HA; by_decision|]); intros c k Hc _;
    (rewrite (Hd c k Hc); split; [by intros []|intros Hk; exfalso; revert Hk; apply HA; by_decision]).
Qed.

Section exact.
#[local] Existing Instance lower_hex | 0.

(** A store with a meta row only. *)
Definition meta_row_1 : MetaRow := mkMetaRow "net" 0 16000 32 None None "1" 0 0.
Definition meta_world : World := mkWorld (write_meta empty_db meta_row_1) [].
Lemma meta_world_exact : slots_own (w_db meta_world) /\ indexes_exact (w_db meta_world).
Proof.
  assert (forall c k, c <> CF_META -> get_cf (w_db meta_world) c k = None) as Hm by by intros [].
  split; [intros k s (v & Hv & _); by rewrite Hm in Hv|].
  apply sparse_exact. intros f c k Hc. apply Hm. intros ->. revert Hc. by destruct f; apply (bool_decide_unpack _); vm_compute.
Qed.

Definition exact_events : list Event := [EvBlock node_block; EvExec settling_frame; EvTransfers transfers_frame].
Definition exact_end : Ingest :=
  mkIngest (handle_all (zip exact_events [1; 2; 3]%Z) meta_world) (Some (mkLane [] true)) (Some (mkLane [] true)).
Lemma exact_execution :
  execution (fun w ev => event_typed (w_db w) ev)
    (mkIngest meta_world (Some (mkLane exact_events true)) (Some (mkLane [] true))) exact_end.
Proof.
  assert (forall w ev q now_ms i, event_typed (w_db w) ev ->
    execution (fun w ev => event_typed (w_db w) ev)
      (mkIngest (handle ev now_ms w) (Some (mkLane q true)) (Some (mkLane [] true))) i ->
    execution (fun w ev => event_typed (w_db w) ev)
      (mkIngest w (Some (mkLane (ev :: q) true)) (Some (mkLane [] true))) i) as Hstep.
  { intros w ev q now_ms i Ht. apply (ex_next _ _ (Some ev)).
    - exact (tr_step _ now_ms _ (step_live_first w ev q true _ now_ms)).
    - by intros e [= <-]. }
  apply (Hstep _ _ _ 1%Z).
  { cbn. split; [by repeat split|]. split; constructor. }
  apply (Hstep _ _ _ 2%Z).
  { cbn. split; [by repeat split|]. split; [done|]. constructor. }
  apply (Hstep _ _ _ 3%Z).
  { cbn. split; [done|]. split; [by repeat split|]. split; [done|]. by repeat constructor. }
  apply ex_refl.
Qed.
Lemma writer_keeps_indexes_exact_witness :
  execution (fun w ev => event_typed (w_db w) ev)
    (mkIngest meta_world (Some (mkLane exact_events true)) (Some (mkLane [] true))) exact_end /\
  is_Some (get_cf (w_db (ig_world exact_end)) IDX_SC_EVENT_BY_EMITTER
    (idx_event_by_addr (addr_as_bytes user_2) 7 3 0)) /\
  exists r, verify (w_db (ig_world exact_end)) 0 = Ok r /\ VerifyReport_ok r = true.
Proof.
  assert (read_meta (w_db (ig_world exact_end)) = Ok (Some meta_row_1)) as Hm by by vm_compute.
  assert (forall b, hex_crate_encode b = hex_encode b) as Hx by reflexivity.
  split; [exact exact_execution|]. split; [eexists; by vm_compute|].
  destruct (writer_keeps_indexes_exact _ exact_end Hx exact_execution) as (_ & _ & _ & Hv);
    [apply meta_world_exact|apply meta_world_exact|].
  destruct (Hv 0 meta_row_1 Hm) as (r & Hr & Hok & _). exists r. split; [exact Hr|exact Hok].
Defined.
End exact.
