(* ===== verification/PeerWitnesses.v ===== *)
(** * Witnesses of the replication, pool and walker properties

    A peer holding a FINAL slot with one transfer, and a replica without it; a
    network on which nothing can be dialled and one open session answers. *)

From S2P Require Import Prelude Ids Keys Model Proto Codec CodecLemmas CodecProps Store Concrete.
From S2P Require Import Text Db DbUpsert DbSlotRows DbProps NodeMsg World Tables Reconcile Arbiter.
From S2P Require Import Patch Ingest WorldLogic HandlerFrames SlotSafety FirstFinal PatchSafety.
From S2P Require Import RowSafety SlotReplace FinalityProps Registry RegistryProps PeerService.
From S2P Require Import StreamProps Client ClientSteps ClientProps Backfill BackfillProps PeerProps.
From S2P Require Import ReplicaProps Witnesses IngestWitnesses.

(** ** Finality *)
Definition settled_world : World := (apply_finality_to_blocks None [blk_1] full_world).2.

Lemma finality_settles_blocks_witness :
  row_at (w_db settled_world) (id_as_bytes blk_1) (block_1 <| bl_status := Discarded |>).
Proof.
  destruct full_block_table as [Hok Hrow].
  assert (apply_finality_to_blocks None [blk_1] full_world = (Ok tt, settled_world)) as E
    by (apply run_ok; by vm_compute).
  generalize dependent settled_world. intros w' E.
  destruct (finality_settles_blocks None [blk_1] full_world w') as [Hrows _];
    [by repeat constructor|done|exact Hok|exact E|].
  apply Hrows. exists block_1. split; [exact Hrow|]. symmetry. clear. unfold settle.
  rewrite bool_decide_eq_true_2 by (left; by left). done.
Defined.

(** ** A peer's store *)
Definition peer_row : SlotState :=
  final_row <| ss_completeness := mkCompleteness true false false true |>.
Definition peer_db := write_slot transfers_db peer_row.
Lemma peer_row_enc : SlotState_enc peer_row.
Proof. wf_concrete. Qed.
Lemma peer_slot_read : read_slot peer_db 7 3 = Ok (Some peer_row).
Proof.
  apply read_slot_Some. exact (puts_row_at peer_row _ _ peer_row_enc (write_slot_puts _ _)).
Qed.
Lemma empty_family R `{SlotRow R} : family_ok R empty_db.
Proof. split; [apply empty_slot_rows | apply empty_slot_index]. Qed.
Lemma written_slot_family R `{SlotRow R} s d :
  CF_SLOT ∉ sr_primary :: sr_indexes -> family_ok R d ->
  family_ok R (write_slot d s) /\ forall r : R, stored (write_slot d s) r <-> stored d r.
Proof.
  intros Hc Hok. apply family_ok_same; [exact Hok|]. intros c Hin.
  apply (write_slot_in s d (write_slot d s) eq_refl). set_solver.
Qed.
Lemma peer_families : family_ok StoredScEvent peer_db /\ family_ok StoredTransfer peer_db /\
  stored peer_db transfer_1.
Proof.
  destruct (written_slot_family StoredTransfer peer_row transfers_db) as [Ht Hst];
    [by apply (bool_decide_unpack _); vm_compute | exact transfers_ok |].
  split; [|split; [exact Ht | apply Hst, transfer_stored]].
  apply (written_slot_family StoredScEvent peer_row transfers_db);
    [by apply (bool_decide_unpack _); vm_compute|].
  apply (family_ok_same StoredScEvent empty_db transfers_db (empty_family _)).
  intros c Hc. apply (write_transfer_in transfer_1 empty_db transfers_db eq_refl).
  revert Hc. unfold transfer_cfs. simpl. set_solver.
Qed.
Definition peer_answer : FinalSlotResponse :=
  default FinalSlotResponse_default (ok (build_final_slot_response peer_db 7 3 all_parts)).
Definition replica : World := (dispatch (EvPeerPatch peer_answer) 200 empty_world).2.

Lemma replica_converges_witness :
  build_final_slot_response peer_db 7 3 all_parts = Ok peer_answer /\
  dispatch (EvPeerPatch peer_answer) 200 empty_world = (Ok tt, replica) /\
  stored (w_db replica) transfer_1.
Proof.
  assert (build_final_slot_response peer_db 7 3 all_parts = Ok peer_answer) as Hb.
  { unfold peer_answer.
    assert (is_ok (build_final_slot_response peer_db 7 3 all_parts) = true) as E by by vm_compute.
    by destruct (build_final_slot_response _ _ _ _). }
  assert (dispatch (EvPeerPatch peer_answer) 200 empty_world = (Ok tt, replica)) as E
    by (apply run_ok; by vm_compute).
  split; [exact Hb|]. split; [exact E|].
  destruct peer_families as (He & Ht & Hst).
  generalize dependent replica. intros w' E.
  destruct (replica_converges peer_db peer_row peer_answer 200 empty_world w') as (_ & _ & H & _);
    [exact He | exact Ht | exact peer_slot_read | by repeat split | reflexivity | exact Hb
    | apply empty_family | apply empty_family | apply empty_table_ok | | exact E |].
  - vm_compute. reflexivity.
  - destruct H as (trs & _ & Htrs & _ & Hcopy & _).
    apply (Hcopy (or_introl eq_refl)); [reflexivity|]. apply Htrs. split; [exact Hst | reflexivity].
Defined.

(** ** A stream over the peer's store *)
Definition peer_service : PeerService := PeerService_new slots_db "me" "net" "1" "" PeerRegistry_new.
Definition stream_request : StreamFinalSlotsRequest := mkStreamRequest 0 0 9 0 None 0.
Lemma no_parts_built {d : DB} s :
  ss_status s = SlotFinal ->
  build_final_slot_response_from_state d s FinalSlotParts_default =
    Ok (response_head s FinalSlotParts_default).
Proof.
  intros Hs. unfold build_final_slot_response_from_state.
  by rewrite bool_decide_eq_false_2 by (rewrite Hs; by intros []).
Qed.

Lemma stream_serves_range_witness :
  exists out, stream_final_slots peer_service stream_request = Ok out /\
    Forall2 (answers slots_db FinalSlotParts_default) [final_row] out.
Proof.
  destruct (stream_serves_range peer_service stream_request) as (L & out & Hrun & Hs & HL & Hf & _);
    [exact slots_family | by split | by split | by split | done | |].
  - intros s _ Hst. exists (response_head s FinalSlotParts_default). by apply no_parts_built.
  - exists out. split; [exact Hrun|].
    enough (L = [final_row]) as -> by exact Hf.
    assert (forall s, s ∈ L <-> s = final_row) as Hin.
    { intros s. rewrite HL. clear. split.
      - intros ((Hr & Hok & _) & _). apply read_slot_Some in Hr as (v & Hv & Hd).
        destruct (write_slot_puts empty_db final_row) as (w & Ew & Hw).
        change slots_db with (write_slot empty_db final_row) in Hv. rewrite Hw in Hv.
        case_bool_decide; [|by rewrite empty_get in Hv]. injection Hv as <-. injection Ew as <-.
        change (decode_slot_state (encode_slot_state final_row) = Ok s) in Hd.
        pose proof (slot_state_roundtrip_norm final_row final_row_enc) as E.
        rewrite E in Hd. by injection Hd as <-.
      - intros ->. split; [|by vm_compute].
        split; [exact (proj2 (read_slot_Some slots_db 7 3 final_row) slots_row)|].
        split; [by repeat split | by vm_compute]. }
    clear -Hs Hin. destruct L as [|a L]; [exfalso; apply (not_elem_of_nil final_row), Hin; reflexivity|].
    assert (a = final_row) as -> by (apply Hin; left). f_equal.
    destruct L as [|b L]; [done|]. assert (b = final_row) as -> by (apply Hin; right; left).
    apply StronglySorted_inv in Hs as [_ Hs]. apply Forall_cons in Hs as [Hs _]. by vm_compute in Hs.
Defined.

(** Every dial is refused; a slot asked over a session is a FINAL miss. *)
Definition miss_answer (req : FinalSlotRequest) : FinalSlotResponse :=
  FinalSlotResponse_default <| fr_period := rq_period req |> <| fr_thread := rq_thread req |>
    <| fr_final_known := true |> <| fr_is_miss := true |>.
#[export] Instance session_network : Network := {|
  net_now n := Z.of_nat n; net_now_ns n := Z.of_nat n;
  net_connect _ _ := Err "refused"; net_health _ _ _ := Err "refused";
  net_slot _ _ _ := Err "refused"; net_stream _ _ _ := Err "refused";
  net_session _ _ _ := Err "refused"; net_bridge _ _ req := Ok (miss_answer req) |}.

Definition local_id : LocalPeerIdentity := mkLocal "me" "net" "1" "".
(** A configured peer that cannot be dialled, and the session of another. *)
Definition session_registry : PeerRegistry := set_session PeerRegistry_new "far" (mkBridge 1 "far").
Definition session_pool : Client :=
  PeerPool_new [mkPeerConfig "near" "http://near"] local_id session_registry "net".

Lemma session_registry_wf : registry_wf session_registry.
Proof. apply (apply_registry_op_wf _ 0 (SetSession "far" (mkBridge 1 "far"))). split; [done|apply map_Forall_empty]. Qed.
Lemma session_pool_wf : registry_wf (cl_registry session_pool).
Proof.
  change (registry_wf (apply_registry_op session_registry 0 (AddUrl "near" "http://near"))).
  apply apply_registry_op_wf, session_registry_wf.
Qed.

Lemma fetch_asks_each_once_witness :
  registry_wf (cl_registry session_pool) /\
  found (fetch_final_slot 7 3 (mkParts true true true) session_pool).1 =
    [miss_answer (slot_request 7 3 (mkParts true true true))] /\
  exists new, final_answers new = [miss_answer (slot_request 7 3 (mkParts true true true))] /\
    NoDup (tried_routes new).
Proof.
  destruct (fetch_asks_each_once 7 3 (mkParts true true true) session_pool session_pool_wf)
    as (ids & new & _ & _ & _ & Hf & _ & _ & _ & Hn).
  assert (found (fetch_final_slot 7 3 (mkParts true true true) session_pool).1 =
    [miss_answer (slot_request 7 3 (mkParts true true true))]) as E by by vm_compute.
  split; [exact session_pool_wf|]. split; [exact E|]. exists new. split; [|exact Hn].
  rewrite Hf. exact E.
Defined.

Lemma static_never_demoted_witness :
  "http://near" ∈ static_urls session_pool /\
  rg_demoted_urls (cl_registry (foldl (fun c call => run_call call c) session_pool
    [CallFetch 7 3 (mkParts true true true); CallMaintain 2000; CallBestRemote])) !! "http://near" = None.
Proof.
  assert ("http://near" ∈ static_urls session_pool) as Hin by by left.
  split; [exact Hin|].
  refine (proj2 (static_never_demoted
    [CallFetch 7 3 (mkParts true true true); CallMaintain 2000; CallBestRemote]
    session_pool "http://near" Hin _)). by vm_compute.
Defined.

Definition two_threads : BackfillConfig := BackfillConfig_default <| bc_thread_count := 2%Z |>.
Definition idle_walker : Walker := mkWalker session_pool [] [].
Lemma sweep_looks_at_every_slot_witness :
  exists e w' lo, sweep_loop (fun _ => slots_db) (fun _ => false) (sweep_fuel 20) two_threads
      (mkSweep 20 []) 20 idle_walker = (Ok e, w') /\
    e <> OutOfFuel /\ wk_scanned w' = window_slots two_threads lo 20.
Proof.
  destruct (sweep_looks_at_every_slot (fun _ => slots_db) (fun _ => false) two_threads (mkSweep 20 [])
    20 idle_walker) as (e & w' & lo & E & He & _ & Hs & _); [lia|].
  exists e, w', lo. split; [exact E|]. split; [exact He|]. exact Hs.
Defined.
