(* ===== verification/LegacyWitnesses.v ===== *)
(** * Witnesses of the legacy bridge and the repair tasks

    A source that fails once and then answers, an archive served over a canned
    HTTP exchange, and two collisions the archive's numbering allows. *)

From S2P Require Import Prelude Ids Keys Model Proto Codec Store Concrete Db Arbiter Task.
From S2P Require Import NodeMsg World Reconcile Registry PeerService Client Backfill BackfillProps.
From S2P Require Import Ddb LegacyDecode LegacySource OneShot OneShotProps LegacyProps.
From S2P Require Import Repair RepairProps PullProps Witnesses IngestWitnesses PeerWitnesses.

(** ** The importer *)
(** The first lookup is throttled; thread 0 has a block, thread 1 has none. *)
Definition stub_response (p t : Z) : FinalSlotResponse :=
  FinalSlotResponse_default <| fr_period := p |> <| fr_thread := t |> <| fr_final_known := true |>.
#[export] Program Instance stub_source : LegacySource := {|
  Source := nat;
  fetch_slot p t n := (if (n =? 0)%nat then Err (LegacyOther "throttled")
    else Ok (if Z.eqb t 0 then Some (mkFetch (stub_response p t) 1) else None), S n) |}.
Next Obligation.
  intros p t n f n' _ E. cbn in E. destruct (n =? 0)%nat; [by simplify_eq|]. destruct (Z.eqb_spec t 0); simplify_eq; cbn; done.
Qed.
Definition import_config : OneShotConfig := mkOneShot (Some 1%Z) None 0 2 4.
Definition empty_store : nat -> @DB mem_rocks := fun _ => mem_empty.
Definition open_channel : nat -> bool := fun _ => false.
Definition any_order {A} : nat -> list A -> list A := fun _ => reverse.
Lemma any_order_perm {A} n (l : list A) : any_order n l ≡ₚ l.
Proof. apply reverse_Permutation. Qed.
Definition fresh_task {C} (own : C) : Task C := mkTask own 0 [] [].
Definition stub_task : Task Lookups := fresh_task (mkLookups stub_source 0%nat []).
(** The source fails once at most. *)
Definition stub_patience (n : nat) : nat := if (n =? 0)%nat then 1 else 0.
Lemma stub_runs_out : runs_out stub_patience.
Proof.
  intros p t src r src' E. cbn in src, E. unfold stub_patience.
  destruct src as [|n]; cbn in E; injection E as <- <-; cbn; lia.
Qed.

Lemma import_complete_settles_witness :
  exists s', run_oneshot_import empty_store open_channel any_order 2 import_config stub_task = (Ok ImportComplete, s') /\
    (length (tk_sent s') = 4 /\ Forall (answered (tk_own s')) (tk_sent s')) /\
    settled empty_store 0 1 1 s' /\ settled empty_store 0 0 0 s'.
Proof.
  assert (length (tk_sent (run_oneshot_import empty_store open_channel any_order 2 import_config stub_task).2) = 4)
    as Hlen by by vm_compute.
  destruct (import_complete_settles empty_store open_channel any_order any_order_perm 2 import_config stub_task)
    as (fin & s' & E & Ha & Hs & Hclosed & _ & Hend); [done|by intros i j|by vm_compute|].
  rewrite E in Hlen. cbn [snd] in Hlen. exists s'.
  assert (fin = ImportComplete) as ->.
  { destruct fin; [done| |].
    - destruct (Hclosed eq_refl) as (k & Hk & _). done.
    - destruct (Hend stub_patience 0 stub_runs_out); [done|lia|cbn; lia|done]. }
  split; [exact E|]. split; [split; [exact Hlen|by apply Forall_forall]|].
  destruct (Hs eq_refl) as (head & Hh & Hset). cbn in Hh. subst head. split; apply Hset; cbn; lia.
Defined.

(** ** Dates *)
(** 29 February 2000. *)
Lemma epoch_to_utc_exact_witness :
  let '(y, m, d, _, _, _) := epoch_to_utc 951782400 in
  (y, m, d) = (2000, 2, 29)%Z /\ (d <= days_in_month y m)%Z.
Proof.
  pose proof (epoch_to_utc_exact 951782400 ltac:(lia)) as Hd.
  assert (epoch_to_utc 951782400 = (2000, 2, 29, 0, 0, 0)%Z) as E by by vm_compute.
  rewrite E in Hd |- *. split; [reflexivity|]. apply Hd.
Defined.

(** Payloads: a block of two operations, each a transfer of 12 to [user_2]. *)
Definition op_2 : OperationId := OperationId_from_hash_bytes 0 (hash_of Byte.x06).
Definition archived_header : SignedBlockHeader := {|
  sh_content := Some {| bh_current_version := 1; bh_announced_version := None;
    bh_slot := Some (mkNodeSlot 7 3); bh_parents := []; bh_operations_hash := "h";
    bh_endorsements := []; bh_denunciations := [] |};
  sh_signature := "s"; sh_content_creator_pub_key := "pk";
  sh_content_creator_address := addr_to_string user_1;
  sh_secure_hash := id_to_string blk_1; sh_serialized_size := 3 |}.
Definition archived_op : SignedOperation := {|
  so_content := Some (mkNodeOperation (Some (mkAmount 1 9)) 20 (Some (mkOperationType (Some
    (OtTransaction (mkNodeTransaction (addr_to_string user_2) (Some (mkAmount 12 9))))))));
  so_signature := "s"; so_content_creator_pub_key := "pk";
  so_content_creator_address := addr_to_string user_1; so_secure_hash := ""; so_serialized_size := 2 |}.
#[export] Instance archived_payloads : LegacyProst := {|
  prost_BlockWrapper _ := Some (mkBlockWrapper 0 (Some (mkNodeBlock (Some archived_header)
    [id_to_string op_2; id_to_string op_1])));
  prost_OperationWrapper _ := Some (mkOperationWrapper [] 3 (Some archived_op));
  prost_SignedEndorsement _ := None |}.
Definition archived_type : OperationType := mkOperationType (Some
  (OtTransaction (mkNodeTransaction (addr_to_string user_2) (Some (mkAmount 12 9))))).
Lemma legacy_mirrors_ingest_witness :
  @classify_op_type _ lower_hex (Some archived_type) = classify_op (Some archived_type).
Proof. apply (@legacy_mirrors_ingest _ lower_hex). reflexivity. Defined.

(** ** The archive *)
Definition raw_column : AttributeValue := mkAttr None None (Some "") None None None None.
Definition block_item : Item :=
  {[ "Hash" := s_str (id_to_string blk_1); "CreatorAddress" := s_str (addr_to_string user_1);
     "Raw" := raw_column; "PointInTime" := n_num (point_in_time 7 3) ]}.
Definition op_item (id : OperationId) (status : Z) : Item :=
  {[ "Hash" := s_str (id_to_string id); "Raw" := raw_column; "Status" := n_num status;
     "BlockHash" := s_str (id_to_string blk_1) ]}.
(** The explicit row of [op_1], its parent column left blank as most are. *)
Definition sub_item : Item :=
  {[ "Hash" := s_str (id_to_string op_1 +:+ "_0"); "Status" := n_num 1;
     "OriginalOperationID" := s_str "";
     "CreatorAddress" := s_str (addr_to_string user_1);
     "OtherAddress" := s_str (addr_to_string user_2);
     "Amount" := mkAttr None None None None None (Some {[ "Mantissa" := n_num 12 ]}) None ]}.
(** Every exchange succeeds and echoes which table was asked. *)
#[export] Instance archive : AwsOutside := {|
  http_post _ rq := Ok (mkHttpResp 200 (Ok (hq_body rq)));
  unix_secs _ := 951782400%Z; unix_millis _ := 951782400000%Z;
  request_to_json rq := Ok match rq with
    | ReqQuery q => as_bytes (qr_table_name q) | ReqGetItem _ | ReqBatchGet _ => [] end;
  get_item_of_json _ := Ok (mkGetItemOutput None);
  query_of_json b := Ok (mkQueryOutput
    (if bool_decide (b = as_bytes "blocks") then [block_item] else [op_item op_1 1; sub_item]) None 1);
  batch_of_json _ := Ok (mkBatchOutput {[ "ops" := [op_item op_2 2; op_item op_1 1] ]} ∅);
  sha256 b := b; hmac_sha256 k b := k ++ b |}.
Definition archive_config : LegacyDdbCfg :=
  mkLegacyCfg "eu" "id" "secret" "" "blocks" "ops" "endorsements" (Some 10%Z) 0 0 0.
Definition archive_client : Ddb := mkDdb archive_config 0 [].
Definition archive_fetch : FinalSlotResponse :=
  match (ddb_fetch_slot 1 7 3 archive_client).1 with
  | Ok (Some f) => lf_resp f | _ => FinalSlotResponse_default end.
Lemma legacy_fetch_sound_witness :
  is_ok (ddb_fetch_slot 1 7 3 archive_client).1 = true /\
  forall f, (ddb_fetch_slot 1 7 3 archive_client).1 = Ok (Some f) -> fetched 7 3 (lf_resp f).
Proof.
  split; [by vm_compute|]. intros f E.
  apply (legacy_fetch_sound 1 7 3 archive_client f (ddb_fetch_slot 1 7 3 archive_client).2).
  by rewrite <-E, <-surjective_pairing.
Defined.
(** The operation moved coins once; its slot ends up with two rows for that
    movement, both under the same index, so that storing one overwrites the other. *)
Example archive_rows_collide :
  (fun t => (tp_index_in_slot t, tp_operation_id t, tp_id t)) <$> fr_transfers archive_fetch =
  [(1%Z, id_to_string op_1, id_to_string op_1 +:+ ":1"); (1%Z, id_to_string op_1, id_to_string op_1 +:+ "_0")].
Proof. by vm_compute. Qed.

(** ** The repair tasks *)
(** The slot of [final_row], whose operation moved 12 coins. *)
Definition moving_op : StoredOperation :=
  operation_1 <| op_details := OperationDetails_default <| od_amount_nmas := Some 12%Z |>
    <| od_recipient_address := Some (addr_to_string user_2) |> |>.
Definition unlisted_row : SlotState := final_row <| ss_executed_op_ids := [op_1] |>.
Definition unlisted_db : @DB mem_rocks :=
  default empty_db (ok (write_op (write_slot empty_db unlisted_row) moving_op)).
Definition rebuild_config : ReconstructConfig := mkReconstruct 6 8 4 0 16000.
Abbreviation rebuilt_patch := (default FinalSlotResponse_default
  (default None (ok (reconstruct_slot unlisted_db rebuild_config slot_a)))).
Lemma reconstruct_slot_exact_witness :
  reconstruct_slot unlisted_db rebuild_config slot_a = Ok (Some rebuilt_patch) /\
  exists bid pb, rebuilt_patch = transfers_patch slot_a bid [pb].
Proof.
  assert (reconstruct_slot unlisted_db rebuild_config slot_a = Ok (Some rebuilt_patch)) as E
    by by vm_compute.
  split; [exact E|].
  pose proof (reconstruct_slot_exact unlisted_db rebuild_config slot_a _ E unlisted_row) as Hx.
  destruct Hx as (bid & ops & pbs & _ & _ & Ep & Hl & _); [by vm_compute|cbn; lia|].
  exists bid. assert (length (fr_transfers rebuilt_patch) = 1) as H1 by by vm_compute.
  rewrite Ep in H1 |- *. cbn in H1. destruct pbs as [|pb [|? ?]]; [done| |done]. by exists pb.
Defined.
Definition rebuild_task : Task (list (Slot * result Error (option FinalSlotResponse))) := fresh_task [].
Lemma reconstruct_run_covers_witness :
  exists fin s', run_reconstruct_transfers (fun _ => unlisted_db) open_channel rebuild_config rebuild_task
    = (Ok fin, s') /\ progress (fun _ => unlisted_db) rebuild_config 6 fin rebuild_task s'.
Proof.
  destruct (reconstruct_run_covers (fun _ => unlisted_db) open_channel rebuild_config rebuild_task)
    as (fin & s' & n & E & _ & Hp & _); [cbn; lia|by vm_compute|].
  assert (resume_up (meta_get_str unlisted_db (reconstruct_ckpt_key rebuild_config))
    (rc_from_period rebuild_config) = 6%Z) as E6 by by vm_compute.
  rewrite E6 in Hp. exists fin, s'. split; [exact E|exact Hp].
Defined.
Definition pull_config : PullPartsConfig := mkPull 6 8 (mkParts true true true) 2 false.
Lemma pull_parts_covers_witness :
  exists fin s', run_pull_parts (fun _ => unlisted_db) open_channel 3 pull_config (mkPuller idle_walker [])
    = (Ok fin, s') /\ fin <> RepairFuel.
Proof.
  destruct (pull_parts_covers (fun _ => unlisted_db) open_channel 3 pull_config (mkPuller idle_walker []))
    as (fin & s' & n & E & _ & _ & Hf & _); [cbn; lia|by vm_compute|].
  exists fin, s'. split; [exact E|]. apply Hf; [by vm_compute|cbn; lia].
Defined.
