(* ===== verification/ServiceWitnesses.v ===== *)
(** * Witnesses of the service layer

    Concrete inputs for the theorems on the hub, the node client, the REST API, the
    start-up and the operator commands. *)

From S2P Require Import Prelude Text Ids Keys Model Proto Codec CodecLemmas CodecProps Store.
From S2P Require Import Concrete Db DbUpsert DbSlotRows DbProps NodeMsg World Tables Reconcile.
From S2P Require Import Arbiter Patch Ingest WorldLogic HandlerFrames Grpc Registry PeerService Client RowSafety.
From S2P Require Import Backfill Ddb Config Sse SseProps GrpcProps Rest RestWalk RestProps.
From S2P Require Import RestWalkProps Server Cli CliProps ReindexProps IndexFamilies IndexProps.
From S2P Require Import Witnesses IngestWitnesses PeerWitnesses.

(** JSON as the identity on text; the cursors' alphabet as the identity on bytes. *)
#[export] Instance plain_json : SerdeJson := {|
  Value := string; event_to_string _ := Some "frame"; value_from_str := Some;
  value_get _ _ := None; value_as_str _ := None; value_to_string v := v |}.
#[export] Program Instance plain_url64 : UrlBase64 := {|
  url_safe_encode := of_bytes; url_safe_decode s := Ok (as_bytes s) |}.
Next Obligation. intros b. simpl. by rewrite as_of_bytes. Qed.
Next Obligation. by intros []. Qed.

(** ** The hub *)
(** A channel that holds exactly its capacity. *)
#[export] Program Instance exact_channel : BroadcastChannel := {|
  rx_recv sent n :=
    match sent !! n with
    | Some f => Some (if bool_decide (length sent <= n + CHANNEL_CAPACITY) then (Ok f, S n)
                      else (Err (Z.of_nat (length sent - CHANNEL_CAPACITY - n)),
                            length sent - CHANNEL_CAPACITY))
    | None => None
    end |}.
Next Obligation. intros sent n Hn. simpl. by apply lookup_ge_None in Hn as ->. Qed.
Next Obligation. intros sent n f Hf Hn. simpl. by rewrite Hf, bool_decide_eq_true_2. Qed.
Next Obligation.
  intros sent n [f Hf]%lookup_lt_is_Some_2. simpl. rewrite Hf. case_bool_decide as Hc; [left; by exists f|].
  right. exists (length sent - CHANNEL_CAPACITY). split; [lia | done].
Qed.


(** ** The node client *)
Lemma node_amounts_exact_witness :
  Grpc.native_amount_to_nmas (mkAmount 12345 11) = Some 123%Z /\
  Grpc.native_amount_to_nmas (mkAmount 12345 140) = None.
Proof.
  split.
  - destruct (node_amounts_exact (mkAmount 12345 11)) as [E _]; [by repeat split|]. exact E.
  - destruct (node_amounts_exact (mkAmount 12345 140)) as [E _]; [by repeat split|]. exact E.
Defined.

(** ** The REST API *)
Definition service_config : Config := mkConfig (mkGeneral "net") (mkNodeCfg "http://node" 1 1)
  (mkDbCfg "db" "lz4" 4) Rest_defaults Peer_default Streams_default LegacyDdb_default Repair_default.
(** The FINAL slot's block, stored while it was a candidate. *)
Definition block_seen : StoredBlock := block_1 <| bl_status := SeenCandidate |>.
Definition seen_db : @DB mem_rocks := default slots_db (ok (write_block slots_db block_seen)).
Lemma seen_read : read_block seen_db blk_1 = Ok (Some block_seen).
Proof. by vm_compute. Qed.

Lemma block_lookup_settles_witness :
  read_block seen_db blk_1 = Ok (Some block_seen) /\
  exists d', block_by_id service_config (id_to_string blk_1) seen_db =
    (Ok (Envelope_new service_config (block_seen <| bl_status := BlockFinal |>)), d').
Proof.
  split; [exact seen_read|].
  destruct (block_lookup_settles service_config (id_to_string blk_1) blk_1 block_seen (Some final_row) seen_db)
    as (d' & E & _); [by vm_compute|exact seen_read|done|by vm_compute|].
  exists d'. exact E.
Defined.

Lemma block_lists_paged_witness :
  follow_pages 2 (block_operations service_config full_db (id_to_string blk_1)) (Some 1%Z) None =
    Some (Ok [operation_1]).
Proof.
  destruct (block_lists_paged service_config full_db (id_to_string blk_1) block_1 (Some 1%Z) 2) as (E & _);
    [by vm_compute|by vm_compute|by vm_compute|by vm_compute|by vm_compute; lia|].
  rewrite E. by vm_compute.
Defined.

(** Two slots of blocks are one walk of two slots. *)
Lemma seen_family : slot_family_ok seen_db.
Proof.
  intros k v. assert (get_cf seen_db CF_SLOT k = get_cf slots_db CF_SLOT k) as ->; [|apply slots_family].
  apply (write_block_in block_seen slots_db seen_db); [|set_solver].
  unfold seen_db, write_block. assert (is_ok (encode_block block_seen) = true) as E by by vm_compute.
  by destruct (encode_block block_seen).
Qed.
Lemma recent_walks_plain_witness :
  slot_family_ok seen_db /\
  ev_data <$> ok (blocks_recent service_config (mkPageQ None None) seen_db).1 =
    Some [block_seen <| bl_status := BlockFinal |>].
Proof.
  split; [exact seen_family|].
  destruct (recent_walks_plain service_config seen_db seen_family) as (_ & E & _).
  rewrite (E (mkPageQ None None) None) by done. by vm_compute.
Defined.

(** A slot and an operation of the address [user_1]. *)
Definition client_db : @DB mem_rocks := default slots_db (ok (write_op slots_db operation_1)).
Lemma client_written : write_op slots_db operation_1 = Ok client_db.
Proof.
  unfold client_db, write_op. assert (is_ok (encode_operation operation_1) = true) as E by by vm_compute.
  by destruct (encode_operation operation_1).
Qed.
Lemma slots_exact : indexes_exact slots_db.
Proof.
  apply sparse_exact. intros f c k Hc. rewrite <-(empty_get c k).
  apply (write_slot_in final_row empty_db slots_db eq_refl). intros Hs. revert Hc.
  unfold slot_cfs in Hs. rewrite !elem_of_cons, elem_of_nil in Hs. destruct_or! Hs; subst c;
    destruct f; apply (bool_decide_unpack _); by vm_compute.
Qed.
Lemma client_exact : slot_family_ok client_db /\ indexes_exact client_db /\ op_stored client_db operation_1.
Proof.
  split_and!.
  - intros k v. rewrite (write_op_in operation_1 _ _ client_written) by set_solver. apply slots_family.
  - apply (write_op_exact slots_db operation_1 client_db); [exact operation_1_enc| | |exact client_written|exact slots_exact].
    + repeat constructor; by vm_compute.
    + intros o ck (v & Hv & _). exfalso. revert Hv.
      rewrite (write_slot_in final_row empty_db slots_db eq_refl) by set_solver. by rewrite empty_get.
  - refine (proj2 (tb_read_Some client_db (id_as_bytes op_1) operation_1) _).
    exact (puts_row_at operation_1 _ _ operation_1_enc (write_op_puts _ _ _ client_written)).
Qed.
Lemma client_pages_complete_witness :
  slot_family_ok client_db /\ indexes_exact client_db /\
  exists L, operation_1 ∈ L /\
    follow_pages 5 (fun p => ops_by_addr service_config client_db (addr_to_string user_1) (mkRoleQ None p)) (Some 1%Z) None
      = Some (Ok L).
Proof.
  destruct client_exact as (Hok & Hex & Hst). split; [exact Hok|]. split; [exact Hex|].
  destruct (client_pages_complete service_config client_db (Some 1%Z) 5 Hok Hex) as (_ & Hops).
  { intros []; apply Nat.ltb_lt; by vm_compute. }
  destruct (Hops (addr_to_string user_1) user_1) as [(L & Hf & _ & _ & HL) _]; [by vm_compute|].
  exists L. split; [|exact Hf]. apply HL. split; [exact Hst|]. by split.
Defined.

Lemma throughput_buckets_exact_witness :
  slot_family_ok slots_db /\
  exists e, chart_throughput slots_db 100000 service_config (mkChartQ None (Some 11%Z)) = Ok e /\
    (Z.of_nat (length (ev_data e)) * 11 > 3600)%Z.
Proof.
  split; [exact slots_family|].
  pose proof (throughput_buckets_exact slots_db 100000 service_config (mkChartQ None (Some 11%Z)) slots_family) as W.
  assert (chart_resolve (mkChartQ None (Some 11%Z)) = (3600, 11)%Z) as E by by vm_compute. rewrite E in W.
  destruct W as (_ & _ & all & e & _ & _ & He & [Hcover _] & [Hdiv _] & _). exists e. split; [exact He|].
  destruct (decide (Z.of_nat (length (ev_data e)) * 11 = 3600)%Z) as [Heq|?]; [|lia].
  destruct (Hdiv Heq) as [k Hk]. lia.
Defined.

(** ** Operator commands *)
Definition replay_options : ReplayOpts := mkReplayOpts (7, 2)%Z (8, 1)%Z 4 (mkParts true true true) 10.
Lemma replay_covers_witness :
  NoDup (chain_from 4 (7, 2)%Z 4) /\
  forall rep s', replay replay_options 100 (session_pool, slots_world) = (Ok rep, s') ->
    rr_considered rep = 4%Z.
Proof.
  destruct (replay_covers replay_options 100 4 (session_pool, slots_world)) as (Hn & _ & _ & Hc & _);
    [by split|by repeat split|by repeat split|by vm_compute|by vm_compute|by vm_compute|].
  split; [exact Hn|]. intros rep s' E. by destruct (Hc rep s' E).
Defined.

(** ** Re-indexing *)
(** One row of each primary family, and an index row that leads nowhere. *)
Definition endorsement_1 : StoredEndorsement :=
  mkEndorsement (id_to_string (EndorsementId_from_hash_bytes 0 (hash_of Byte.x06))) slot_a 0 (id_to_string blk_2) "pk" user_1
    "s" 3 (id_to_string blk_1) slot_a 100.
Definition denunciation_1 : StoredDenunciationEntry :=
  mkDenunciationEntry (of_bytes (hash_of Byte.x07)) slot_a "header" (Some user_2)
    (DenAddress (addr_to_string user_2) slot_a 5) (Some blk_1) (Some slot_a) 100.
Definition orphan : Cf * bytes := (IDX_OP_BY_TARGET, [Byte.x00]).
Definition indexed_writes : result Error (@DB mem_rocks) :=
  d ← ensure_schema_version empty_db;
  d ← write_block (write_meta d (mkMetaRow "net" 0 16000 32 None None "1" 0 0)) block_1;
  d ← write_endorsement d endorsement_1;
  d ← write_op d operation_1;
  d ← write_sc_event (write_transfer d transfer_1) event_1;
  d ← write_denunciation d denunciation_1;
  d ← write_async_msg d message_1;
  write_deferred_call d call_1.
Definition indexed_db : @DB mem_rocks := db_write (default empty_db (ok indexed_writes)) [put_empty orphan].

Lemma one_row_ok A `{!Indexed A} d k v (a : A) :
  iterator_cf d (ix_cf A) Start = [(k, v)] -> ix_decode v = Ok a -> ix_wf k v a -> indexed_ok A d.
Proof.
  intros E Ed Hw k' v' Hg. apply iterator_get in Hg. rewrite E in Hg. apply list_elem_of_singleton in Hg.
  injection Hg as -> ->. by exists a.
Qed.
Definition bytes_of (r : result CodecError bytes) : bytes := default [] (ok r).
Ltac row_facts :=
  repeat match goal with
  | |- _ /\ _ => split
  | |- Forall _ _ => constructor
  | |- opt_wf ?P (Some ?a) => change (P a)
  | |- opt_wf _ None => exact I
  | |- _ => progress hnf; lazymatch goal with |- _ /\ _ => split end
  end; try by vm_compute.
Ltac the_row k v a := apply (one_row_ok _ _ k v a); [by vm_compute|by vm_compute|row_facts].
Lemma indexed_primaries : primaries_ok indexed_db.
Proof.
  split; split_and!.
  - the_row (id_as_bytes blk_1) (bytes_of (encode_block block_1)) block_1.
  - the_row (id_as_bytes (EndorsementId_from_hash_bytes 0 (hash_of Byte.x06))) (bytes_of (encode_endorsement endorsement_1)) endorsement_1.
    exists (EndorsementId_from_hash_bytes 0 (hash_of Byte.x06)). split; by vm_compute.
  - the_row (id_as_bytes op_1) (bytes_of (encode_operation operation_1)) operation_1.
  - the_row (transfer_row_key transfer_1) (encode_transfer transfer_1) transfer_1.
  - the_row (event_key event_1) (bytes_of (encode_sc_event event_1)) event_1.
  - the_row (hash_of Byte.x07) (bytes_of (encode_denunciation_entry denunciation_1)) denunciation_1.
  - the_row (as_bytes "m1") (encode_async_msg message_1) message_1.
  - the_row (as_bytes "d1") (encode_deferred_call call_1) call_1.
Qed.
Lemma reindex_rebuilds_witness :
  is_Some (get_cf indexed_db orphan.1 orphan.2) /\ primaries_ok indexed_db /\
  exists rep d', reindex_secondaries indexed_db = (Ok rep, d') /\
    get_cf d' orphan.1 orphan.2 = None /\
    exists r, verify d' 0 = Ok r /\ VerifyReport_ok r = true.
Proof.
  split; [eexists; by vm_compute|]. split; [exact indexed_primaries|].
  assert (read_meta indexed_db = Ok (Some (mkMetaRow "net" 0 16000 32 None None "1" 0 0))) as Hm by by vm_compute.
  assert (orphan ∉ wanted_keys indexed_db) as Hn by (apply (bool_decide_unpack _); by vm_compute).
  destruct (reindex_rebuilds indexed_db indexed_primaries) as (d' & E & Hidx & _ & _ & Hv).
  eexists _, d'. split; [exact E|]. split.
  - destruct (get_cf d' orphan.1 orphan.2) as [v|] eqn:Ev; [|reflexivity]. exfalso. apply Hn, elem_of_wanted_keys.
    apply Hidx; [by_decision|]. exists v. exact Ev.
  - destruct (Hv 0 _ Hm) as (r & Hr & Hok & _). exists r. split; [exact Hr|exact Hok].
Defined.

(** ** Commands *)
(** A node that does not answer. *)
#[export] Instance silent_node : NodeRpc := {|
  node_connect _ _ := Err (ErrOther "refused"); node_status _ := Err "refused"; node_query_state _ _ := Err "refused";
  node_read_only_call _ _ := Err "refused"; node_now_ms _ := 100%Z |}.
Definition quiet_server : @Outside mem_rocks :=
  mkOutside "massa-indexer" 100 None (fun _ => true) true empty_db (fun _ => false) (fun _ => false) (Ok tt).
(** A host whose configuration is the services'. *)
Definition operator_host : Host :=
  mkHost (fun _ => Some "toml") (fun _ => Some service_config) (fun _ => None) (fun _ => None) (fun _ => None)
    (fun _ => Ok "{}") (fun _ => Ok "{}") (fun _ _ => GetAnswered 204 "204 No Content") 100 quiet_server.
Definition indexed_process : Process := mkProcess indexed_db [].
(** The orphan is found, the rebuild drops it, and a later check passes. *)
Lemma commands_answer_witness :
  ready operator_host "indexer.toml" indexed_process service_config indexed_db /\ primaries_ok indexed_db /\
  (main operator_host (Some (CmdVerify 0)) "indexer.toml" indexed_process).1 = 1%Z /\
  exists s', main operator_host (Some (CmdReindexSecondaries true)) "indexer.toml" indexed_process = (0%Z, s') /\
    (main operator_host (Some (CmdVerify 0)) "indexer.toml" s').1 = 0%Z.
Proof.
  assert (ready operator_host "indexer.toml" indexed_process service_config indexed_db) as Hr.
  { split; [by vm_compute|]. split; [by vm_compute|]. change (ensure_schema_version indexed_db = Ok indexed_db).
    assert (get_cf indexed_db CF_META (as_bytes meta_SCHEMA_VERSION) = Some (as_bytes "2")) as Hg by by vm_compute.
    unfold ensure_schema_version. rewrite Hg. reflexivity. }
  split; [exact Hr|]. split; [exact indexed_primaries|]. split; [by vm_compute|].
  assert (read_meta indexed_db = Ok (Some (mkMetaRow "net" 0 16000 32 None None "1" 0 0))) as Hm by by vm_compute.
  destruct (commands_answer operator_host "indexer.toml" indexed_process) as (_ & _ & _ & Hre & _).
  destruct (Hre 0 _ _ _ Hr indexed_primaries Hm) as (s' & E & Hv & _). exists s'. split; [exact E|exact Hv].
Defined.
